(* ===== verification/_CoqProject ===== *)
-Q . S2P
Prelude.v
Types.v
Crypto.v
Protocol.v
Costs.v
Database.v
EvalNft.v
EvalHtlc.v
Engine.v
EvalContracts.v
NftInvariant.v
HtlcInvariant.v
ContractInvariant.v
Chain.v
ChainProperties.v
AtomicSwap.v
SerialNumbers.v
EventLog.v
EngineCommands.v
Indexer.v
NodeAgreement.v
OpDependency.v
ScheduleOrder.v
ApplyScheduler.v
CompactBlock.v
KnownTx.v
Binary64.v
RcCalibrator.v
FlatHashMap.v
FlatHashCopies.v
AccountIndex.v
Api.v
NodeProfiles.v
Plugin.v
Tuning.v
SelectiveUndo.v
UndoSessions.v
Arena.v
WorkerPool.v
PoolThreads.v
PoolProgress.v
PoolRest.v
