(* ===== verification/Prelude.v ===== *)
(** * Hive native features: a verified model

    The repository extends the Hive blockchain with native NFTs, hashed
    time-lock contracts (HTLCs) and metered smart contracts, in portable C++17:
    operation structs and their validation, evaluators over an in-memory
    database, resource-credit (RC) costs, a contract-engine interface, a read
    API, and performance components (a dependency scheduler, hash map, caches,
    compact blocks, a worker pool, an arena, undo). This library translates that
    code and proves what makes it correct. Paths below are relative to the
    repository root.

    ** Files

    This file: machine integers, exceptions and the state monad with its weakest
    preconditions, sums and key-ordered iteration over maps, tactics.

    The chain:
    - [Types] ([include/hive_native/util/types.hpp]): caps, [asset], digests, name
      and length checks, FNV-1a, constant-time comparison;
    - [Crypto] ([src/util/crypto.cpp]): SHA-256 and RIPEMD-160, word for word,
      against the padded-message description of the standards;
    - [Protocol] ([include/hive_native/protocol/], [src/protocol/validate.cpp]): the
      eleven operations, authorities, [validate_*];
    - [Costs] ([include/hive_native/rc/costs.hpp], [src/rc/costs.cpp]);
    - [Database] ([include/hive_native/chain/database.hpp],
      [src/chain/database.cpp]): the record [database] and its member functions;
    - [EvalNft], [EvalHtlc], [EvalContracts] ([src/chain/evaluators_*.cpp]): one
      definition per overload of [apply], with its contract: [*_pre] says when it
      accepts, [*_post] which state it leaves, [*_spec] that the code does so;
    - [Engine] ([include/hive_native/contracts/engine.hpp],
      [src/contracts/engine.cpp]): the record [engine] of the virtual methods, the
      class [EngineLaws] of what its clients rely on, [null_engine] with its
      instance. The evaluators are over any engine; theorems about them assume
      [EngineLaws] only;
    - [NftInvariant], [HtlcInvariant], [ContractInvariant]: well-formedness of the
      tables, preserved by every evaluator;
    - [Chain]: [apply] as one function of the operation, its abstract contract
      [op_effect], and the transition system of a node (operations accepted or
      refused, time, configuration, accounts, drained virtual operations) with its
      invariant;
    - [ChainProperties]: the theorems about every reachable state;
    - [AtomicSwap]: two locks under one hash, on two chains;
      [SerialNumbers]: what [token_serial] identifies;
    - [EventLog]: the structs of the virtual operations, the line each evaluator
      pushes as one of them printed, and a reader that inverts the printer;
      [Indexer]: a consumer of the log that keeps its own tables;
    - [EngineCommands]: the command language of the null engine, its meter, and the
      exceptions that escape an operation;
    - [NodeAgreement]: two nodes that apply the same operations.

    Around the chain:
    - [OpDependency], [ApplyScheduler] ([include/hive_native/perf/op_dependency.hpp],
      [apply_scheduler.hpp]): the layered schedule and its execution;
      [ScheduleOrder]: when the schedule keeps the order of the block;
    - [KnownTx] ([xxhash64.hpp], [bloom.hpp], [known_tx_set.hpp]), [FlatHashMap]
      ([flat_hash_map.hpp]) and [FlatHashCopies] (the same operations where a key
      has several slots), [AccountIndex] ([account_cache.hpp],
      [include/hive_native/chain/account_index.hpp]);
    - [CompactBlock] ([compact_block.hpp]), [SelectiveUndo] ([selective_undo.hpp])
      and [UndoSessions] (several sessions over one map), [Arena] ([arena.hpp]),
      [WorkerPool] ([worker_pool.hpp]: its critical sections as atomic steps) and
      [PoolThreads], [PoolProgress], [PoolRest] (its threads, mutex and condition
      variables), [Tuning] ([rocksdb_presets.hpp], [simd_math.hpp]), [Binary64]
      (facts on doubles) and [RcCalibrator] ([rc_calibrator.hpp]);
    - [Api] ([src/api/database_api_stubs.cpp]), [NodeProfiles]
      ([include/hive_native/chain/node_profiles.hpp]), [Plugin]
      ([plugins/hive_contracts/]).

    ** How the code is represented

    A C++ procedure that mutates an object is a function in the monad [M S]: it
    returns, throws with the state as it was at the throw (nothing rolls a C++
    object back), or has undefined behaviour. [uint64_t] and [uint32_t] are [Z]
    with [u64] and [u32] at each operation that can leave the range; signed
    [share_type] sums outside [int64_t] are undefined behaviour. A [std::map] is
    a [gmap]; where the code iterates over one, [elements_by_key] gives the key
    order. A pointer or index that walks a sequence is the rest of the sequence.
    [std::string] is [string], byte vectors are [list byte]. Doubles are the
    [spec_float] of the Standard Library. An enumeration that the code checks for
    foreign values has a constructor for them.

    ** What is shown

    The evaluators refine their contract in every reachable state, with exact
    refusals ([apply_refines_contract]); over whole histories, value is
    conserved, an open HTLC is closed by the recipient's redeem before its
    expiration and by the sender's refund from then on, and pays once, NFTs change
    hands only by authority, supply counters are exact, contract storage is
    isolated and all-or-nothing, nothing is rewritten ([value_conserved] to
    [open_htlcs_capped]), and the tables refer to each other and stay within their
    bounds ([tables_well_formed]); two HTLCs with one hash and one preimage size
    make a fair swap between two chains while the HTLC operations are on
    ([atomic_swap_is_fair]); serials are unique until a burn
    ([serials_unique_until_a_burn]). The linked engine meters its commands
    exactly, but for one wrapped sum, and only a malformed burn lets anything but
    a [protocol_error] out ([meter_charges_declared_fuel],
    [escaping_exceptions]). Full nodes at one hardfork that apply the same
    operations agree ([full_nodes_agree]), and the log of virtual operations determines what
    an indexer needs ([log_determines_index]). Validation, costs and hashes are
    exact ([validate_accepts_exactly], [rc_cost_exact],
    [hashes_refine_standard_padding]). Each component around the chain has a
    refinement of an abstract object: scheduled application of sequential
    application where the schedule keeps the order, for which [keeps_order] is the
    exact condition and transitive conflicts are enough ([schedule_order_exact]),
    the flat map of a finite map while no present key is inserted over a tombstone
    ([flat_map_refines_map]) and of a map to stacks of values in general
    ([flat_map_is_map_of_stacks]), the cached index of the
    database, the known-transaction set of a set, the undo session of a
    transaction and several sessions of per-session saved balances
    ([sessions_undo_their_own]), the worker pool of a bag of tasks run once, the
    listings of the sorted matches, reconstruction of the announced block. The
    threads of the pool, statement by statement, do what the pool does
    ([threads_refine_pool]); no wake-up is lost ([no_wake_up_is_lost]), and they
    come to rest with everything done and the destructor back
    ([threads_come_to_rest]), unless a task waits for its own pool
    ([wait_idle_in_a_task_hangs]). Calibrated costs stay within the clamp unless
    the ratio is a NaN, which the clamp lets through, and do not depend on the
    order of the samples ([calibrated_rc_bounds], [calibration_ignores_order]).
    The plugin is the linked engine or a refusal, by the options its session was
    opened with ([plugin_is_engine_or_refusal]). Where the code falls short of its comments a
    theorem or example exhibits it on a concrete run: [burn_wraps_around],
    [burn_argument_throws], [burn_then_mint_repeats_serial],
    [schedule_can_reorder_conflicts], [insert_over_tombstone_resurrects],
    [index_can_read_stale_balance], [malformed_announcement_is_ok],
    [list_start_is_inclusive], [huge_request_overlaps],
    [bytes_used_exceeds_capacity], [log_hides_collection],
    [infinite_medians_unspecified], [total_quota_is_never_read], and the rows
    kept by [undo_session_is_transaction].

    ** Bounds and fuel

    Recursion is structural on the data except: the block loops of the hashes and
    of [xxhash64_bytes], with the length of the input as fuel (each turn consumes
    at least one byte); [insert_probe] with one turn per slot and [insert_nested]
    with two levels, which [flat_map_is_map_of_stacks] shows never to run
    out on tables the operations build; [grow_cap], which doubles and has [n] turns to
    reach [n]. Chain theorems are about histories short enough that no 64-bit id
    counter wraps and genesis balances whose sum fits [int64_t].

    ** Not modelled

    Not modelled: tasks of the worker pool that throw (the exception ends the
    process), the order in which waiting threads get a mutex, the vector
    intrinsics (their documented laws are the class [Lanes]), exhaustion of
    memory, WebAssembly engines (not in the sources), accessors that return one
    member, the HAF scripts, the TypeScript SDK, tests and benchmarks. *)
From Stdlib Require Export ZArith Lia.
From stdpp Require Export base gmap strings list fin_maps fin_map_dom sorting pretty.

#[global] Open Scope Z_scope.

(** ** Machine integers

    Unsigned C++ arithmetic wraps; [u8], [u16], [u32], [u64] are the
    conversions to those widths. [size_t] is 64 bits wide. Signed 64-bit
    arithmetic does not wrap in C++: leaving the range is undefined, so the
    operations on [share_type] test [in_i64] and go to [Undef]. *)

Definition u8 (x : Z) : Z := x mod 2 ^ 8.
Definition u16 (x : Z) : Z := x mod 2 ^ 16.
Definition u32 (x : Z) : Z := x mod 2 ^ 32.
Definition u64 (x : Z) : Z := x mod 2 ^ 64.

Definition INT64_MIN : Z := - 2 ^ 63.
Definition INT64_MAX : Z := 2 ^ 63 - 1.
Definition in_i64 (x : Z) : bool := (INT64_MIN <=? x) && (x <=? INT64_MAX).

Lemma u64_small x : 0 <= x < 2 ^ 64 -> u64 x = x.
Proof. apply Z.mod_small. Qed.
Lemma u32_small x : 0 <= x < 2 ^ 32 -> u32 x = x.
Proof. apply Z.mod_small. Qed.
Lemma u8_small x : 0 <= x < 2 ^ 8 -> u8 x = x.
Proof. apply Z.mod_small. Qed.
Lemma u64_range x : 0 <= u64 x < 2 ^ 64.
Proof. apply Z.mod_pos_bound; lia. Qed.
Lemma u32_range x : 0 <= u32 x < 2 ^ 32.
Proof. apply Z.mod_pos_bound; lia. Qed.
Lemma u8_range x : 0 <= u8 x < 2 ^ 8.
Proof. apply Z.mod_pos_bound; lia. Qed.

Lemma in_i64_true x : in_i64 x = true <-> INT64_MIN <= x <= INT64_MAX.
Proof. unfold in_i64. rewrite andb_true_iff, !Z.leb_le. lia. Qed.

(** Bitwise operations stay within the width of their operands. *)

Lemma below_pow2 n x : 0 <= n -> 0 <= x -> (x = 0 \/ Z.log2 x < n) -> x < 2 ^ n.
Proof.
  intros Hn Hx [->|H]; [by apply Z.pow_pos_nonneg|].
  destruct (decide (x = 0)) as [->|]; [by apply Z.pow_pos_nonneg|].
  apply Z.log2_lt_pow2; lia.
Qed.
Lemma log2_below n x : 0 < n -> 0 <= x < 2 ^ n -> Z.log2 x < n.
Proof.
  intros Hn Hx. destruct (decide (x = 0)) as [->|]; [by rewrite Z.log2_nonpos|].
  apply Z.log2_lt_pow2; lia.
Qed.
Lemma lor_range n a b : 0 < n -> 0 <= a < 2 ^ n -> 0 <= b < 2 ^ n -> 0 <= Z.lor a b < 2 ^ n.
Proof.
  intros Hn Ha Hb. assert (0 <= Z.lor a b) by (apply Z.lor_nonneg; lia).
  split; [done|]. apply below_pow2; [lia|done|right].
  rewrite Z.log2_lor by lia. apply Z.max_lub_lt; by apply log2_below.
Qed.
Lemma lxor_range n a b : 0 < n -> 0 <= a < 2 ^ n -> 0 <= b < 2 ^ n -> 0 <= Z.lxor a b < 2 ^ n.
Proof.
  intros Hn Ha Hb. assert (0 <= Z.lxor a b) by (apply Z.lxor_nonneg; lia).
  split; [done|]. apply below_pow2; [lia|done|right].
  eapply Z.le_lt_trans; [apply Z.log2_lxor; lia|]. apply Z.max_lub_lt; by apply log2_below.
Qed.
Lemma land_range n a b : 0 < n -> 0 <= a < 2 ^ n -> 0 <= b -> 0 <= Z.land a b < 2 ^ n.
Proof.
  intros Hn Ha Hb. assert (0 <= Z.land a b) by (apply Z.land_nonneg; lia).
  split; [done|]. apply below_pow2; [lia|done|right].
  eapply Z.le_lt_trans; [apply Z.log2_land; lia|].
  eapply Z.le_lt_trans; [apply Z.le_min_l|]. by apply log2_below.
Qed.

(** ** Exceptions, fallible results and stateful procedures

    [result] is a call that returns or throws. [M S A] is a procedure over a
    state [S]: it returns ([Done]), throws and leaves the state as it was at
    the throw ([Thrown]: nothing rolls a C++ object back), or has undefined
    behaviour ([Undef]). *)

Inductive exn : Type :=
| protocol_error (what : string)
| std_invalid_argument
| std_out_of_range.

#[export] Instance exn_eq_dec : EqDecision exn.
Proof. solve_decision. Defined.

Inductive result (A : Type) : Type :=
| Ret (a : A)
| Throw (e : exn).
Arguments Ret {A} a.
Arguments Throw {A} e.

Inductive outcome (S A : Type) : Type :=
| Done (a : A) (s : S)
| Thrown (e : exn) (s : S)
| Undef.
Arguments Done {S A} a s.
Arguments Thrown {S A} e s.
Arguments Undef {S A}.

Definition M (S A : Type) : Type := S -> outcome S A.

#[export] Instance result_ret : MRet result := fun A a => Ret a.
#[export] Instance result_bind : MBind result := fun A B f m =>
  match m with Ret a => f a | Throw e => Throw e end.

#[export] Instance M_ret {S} : MRet (M S) := fun A a s => Done a s.
#[export] Instance M_bind {S} : MBind (M S) := fun A B f m s =>
  match m s with
  | Done a s' => f a s'
  | Thrown e s' => Thrown e s'
  | Undef => Undef
  end.

(** [if(c) throw protocol_error(what);] inside a pure check. *)
Definition check_not (c : bool) (what : string) : result unit :=
  if c then Throw (protocol_error what) else Ret tt.

(** [if(c) throw protocol_error(what);] inside a procedure. *)
Definition throw_if {S} (c : bool) (what : string) : M S unit :=
  fun s => if c then Thrown (protocol_error what) s else Done tt s.

Definition lift {S A} (r : result A) : M S A :=
  fun s => match r with Ret a => Done a s | Throw e => Thrown e s end.
Definition gets {S A} (f : S -> A) : M S A := fun s => Done (f s) s.
Definition get {S} : M S S := fun s => Done s s.
Definition modify {S} (f : S -> S) : M S unit := fun s => Done tt (f s).
Definition undefined {S A} : M S A := fun _ => Undef.

(** The value a procedure stops with, for evaluation on concrete inputs. *)
Definition final_state {S A} (o : outcome S A) : option S :=
  match o with Done _ s | Thrown _ s => Some s | Undef => None end.
Definition is_done {S A} (o : outcome S A) : bool :=
  match o with Done _ _ => true | _ => false end.

#[global] Create HintDb hive.

(** *** Weakest preconditions

    [wp m Q E s]: run from [s], [m] has no undefined behaviour, returns only
    in states where [Q] holds and throws only in states where [E] holds. *)

Definition wp {S A} (m : M S A) (Q : A -> S -> Prop) (E : exn -> S -> Prop) (s : S) : Prop :=
  match m s with
  | Done a s' => Q a s'
  | Thrown e s' => E e s'
  | Undef => False
  end.

Section wp_rules.
Context {S : Type}.
Implicit Types (s : S) (E : exn -> S -> Prop).

Lemma wp_ret {A} (a : A) Q E s : Q a s -> wp (mret a) Q E s.
Proof. done. Qed.
Lemma wp_bind {A B} (m : M S A) (f : A -> M S B) Q E s :
  wp m (fun a s' => wp (f a) Q E s') E s -> wp (m ≫= f) Q E s.
Proof. unfold wp, mbind, M_bind. by destruct (m s). Qed.
Lemma wp_throw_if c what Q E s :
  (c = true -> E (protocol_error what) s) -> (c = false -> Q tt s) ->
  wp (throw_if c what) Q E s.
Proof. unfold wp, throw_if. destruct c; auto. Qed.
Lemma wp_lift {A} (r : result A) (Q : A -> S -> Prop) E s :
  (forall e, r = Throw e -> E e s) -> (forall a, r = Ret a -> Q a s) -> wp (lift r) Q E s.
Proof. unfold wp, lift. destruct r; auto. Qed.
Lemma wp_get Q E s : Q s s -> wp get Q E s.
Proof. done. Qed.
Lemma wp_gets {A} (f : S -> A) Q E s : Q (f s) s -> wp (gets f) Q E s.
Proof. done. Qed.
Lemma wp_modify f Q E s : Q tt (f s) -> wp (modify f) Q E s.
Proof. done. Qed.
Lemma wp_mono {A} (m : M S A) (Q Q' : A -> S -> Prop) (E E' : exn -> S -> Prop) s :
  wp m Q E s -> (forall a s', Q a s' -> Q' a s') -> (forall e s', E e s' -> E' e s') ->
  wp m Q' E' s.
Proof. unfold wp. destruct (m s); eauto. Qed.
Lemma wp_done {A} (m : M S A) Q E s a s' : wp m Q E s -> m s = Done a s' -> Q a s'.
Proof. unfold wp. intros H Hm. by rewrite Hm in H. Qed.
Lemma wp_thrown {A} (m : M S A) Q E s e s' : wp m Q E s -> m s = Thrown e s' -> E e s'.
Proof. unfold wp. intros H Hm. by rewrite Hm in H. Qed.

(** Inversion of a run that returned. *)
Lemma bind_done {A B} (m : M S A) (f : A -> M S B) s b s' :
  (m ≫= f) s = Done b s' <-> exists a s1, m s = Done a s1 /\ f a s1 = Done b s'.
Proof. unfold mbind, M_bind. destruct (m s); naive_solver. Qed.
Lemma throw_if_done c what s (x : unit) s' :
  throw_if c what s = Done x s' <-> c = false /\ s' = s.
Proof. unfold throw_if. destruct x, c; naive_solver. Qed.
Lemma lift_done {A} (r : result A) s a s' : lift r s = Done a s' <-> r = Ret a /\ s' = s.
Proof. unfold lift. destruct r; naive_solver. Qed.
End wp_rules.

(** [auto it = m.find(k); if(it == m.end()) throw protocol_error(what);] *)
Definition find_or_throw {S A} (o : option A) (what : string) : M S A :=
  fun s => match o with Some a => Done a s | None => Thrown (protocol_error what) s end.

Lemma wp_find_or_throw {S A} (o : option A) what (Q : A -> S -> Prop) E s :
  (o = None -> E (protocol_error what) s) -> (forall a, o = Some a -> Q a s) ->
  wp (find_or_throw o what) Q E s.
Proof. unfold wp, find_or_throw. destruct o; auto. Qed.

(** [atomic_spec m pre post s]: from [s], [m] returns in [post] if [pre] holds
    and otherwise throws a [protocol_error] with the state unchanged. *)
Definition is_protocol_error (e : exn) : Prop := exists what, e = protocol_error what.

Definition atomic_spec {S} (m : M S unit) (pre : Prop) (post s : S) : Prop :=
  wp m (fun _ s' => pre /\ s' = post) (fun e s' => ~ pre /\ s' = s /\ is_protocol_error e) s.

Section atomic_spec.
Context {S : Type} (m : M S unit) (pre : Prop) (post s : S).
Hypothesis Hspec : atomic_spec m pre post s.

Lemma atomic_done s' : m s = Done tt s' <-> pre /\ s' = post.
Proof.
  unfold atomic_spec, wp in Hspec. destruct (m s) as [[] s1|e s1|] eqn:E; naive_solver.
Qed.
Lemma atomic_thrown e s' : m s = Thrown e s' -> ~ pre /\ s' = s /\ is_protocol_error e.
Proof. apply (wp_thrown _ _ _ _ _ _ Hspec). Qed.
Lemma atomic_defined : m s <> Undef.
Proof. unfold atomic_spec, wp in Hspec. by destruct (m s). Qed.
Lemma atomic_fails : ~ pre -> exists e, m s = Thrown e s /\ is_protocol_error e.
Proof.
  intros Hn. unfold atomic_spec, wp in Hspec. destruct (m s) as [[] s1|e s1|]; naive_solver.
Qed.
End atomic_spec.

Lemma result_bind_ret {A B} (m : result A) (f : A -> result B) b :
  (m ≫= f) = Ret b <-> exists a, m = Ret a /\ f a = Ret b.
Proof. destruct m; naive_solver. Qed.
Lemma check_not_ret c what x : check_not c what = Ret x <-> c = false.
Proof. unfold check_not. destruct x, c; naive_solver. Qed.
Lemma check_bind_ret {A} c what (k : result A) b :
  (check_not c what;; k) = Ret b <-> c = false /\ k = Ret b.
Proof. destruct c; naive_solver. Qed.

(** Symbolic execution of straight-line code: leaves one goal per throw and
    one for the final state. *)
Ltac wp_step :=
  lazymatch goal with
  | |- wp (mbind _ _) _ _ _ => apply wp_bind
  | |- wp (mret _) _ _ _ => apply wp_ret
  | |- wp get _ _ _ => apply wp_get
  | |- wp (gets _) _ _ _ => apply wp_gets
  | |- wp (modify _) _ _ _ => apply wp_modify
  | |- wp (throw_if _ _) _ _ _ => apply wp_throw_if; intro
  | |- wp (lift _) _ _ _ => apply wp_lift; intro; intro
  | |- wp (if ?b then _ else _) _ _ _ => destruct b eqn:?
  | |- wp (find_or_throw _ _) _ _ _ => apply wp_find_or_throw; [intro|intro; intro]
  end.

(** An update through the iterator is an insertion at its key. *)
Lemma alter_some {K V} `{Countable K} (f : V -> V) (m : gmap K V) k v :
  m !! k = Some v -> alter f k m = <[k := f v]> m.
Proof.
  intros Hk. apply map_eq. intros i. rewrite lookup_insert.
  case_decide as Hi; subst.
  - by rewrite lookup_alter_eq, Hk.
  - by rewrite lookup_alter_ne.
Qed.

(** ** Sums over maps *)

Definition map_sum `{Countable K} {V} (f : V -> Z) (m : gmap K V) : Z :=
  map_fold (fun _ v acc => f v + acc) 0 m.

Section map_sum.
Context `{Countable K} {V : Type} (f : V -> Z).
Implicit Types m : gmap K V.

Lemma map_sum_empty : map_sum f (∅ : gmap K V) = 0.
Proof. done. Qed.
Lemma map_sum_insert_new m k v : m !! k = None -> map_sum f (<[k:=v]> m) = f v + map_sum f m.
Proof. intros Hk. unfold map_sum. rewrite map_fold_insert_L; [done| |done]. intros. lia. Qed.
Lemma map_sum_delete m k v : m !! k = Some v -> map_sum f m = f v + map_sum f (delete k m).
Proof. intros Hk. unfold map_sum. rewrite (map_fold_delete_L _ _ k v); [done| |done]. intros. lia. Qed.
Lemma map_sum_insert m k v w :
  m !! k = Some v -> map_sum f (<[k:=w]> m) = map_sum f m - f v + f w.
Proof.
  intros Hk. rewrite <-insert_delete_eq, map_sum_insert_new by apply lookup_delete_eq.
  rewrite (map_sum_delete m k v) by done. lia.
Qed.
Lemma map_sum_nonneg m : (forall k v, m !! k = Some v -> 0 <= f v) -> 0 <= map_sum f m.
Proof.
  induction m as [|k v m Hk IH] using map_ind; intros Hf; [done|].
  rewrite map_sum_insert_new by done.
  pose proof (Hf k v (lookup_insert_eq _ _ _)).
  enough (0 <= map_sum f m) by lia. apply IH. intros k' v' Hv.
  apply (Hf k'). by rewrite lookup_insert_ne by congruence.
Qed.
Lemma map_sum_ge m k v :
  (forall k v, m !! k = Some v -> 0 <= f v) -> m !! k = Some v -> f v <= map_sum f m.
Proof.
  intros Hf Hk. rewrite (map_sum_delete _ k v) by done.
  enough (0 <= map_sum f (delete k m)) by lia. apply map_sum_nonneg.
  intros k' v' Hv. apply (Hf k'). by apply lookup_delete_Some in Hv as [_ ?].
Qed.
End map_sum.

(** ** Iteration in key order

    [for(const auto& [k, v] : m)] over a [std::map] visits the keys in
    increasing order. *)

Definition key_le {V} (x y : Z * V) : Prop := x.1 <= y.1.
#[export] Instance key_le_dec {V} : RelDecision (@key_le V).
Proof. intros x y. unfold key_le. apply _. Defined.
#[export] Instance key_le_total {V} : Total (@key_le V).
Proof. intros x y. unfold key_le. lia. Qed.
#[export] Instance key_le_trans {V} : Transitive (@key_le V).
Proof. intros x y z. unfold key_le. lia. Qed.

Definition elements_by_key {V} (m : gmap Z V) : list (Z * V) :=
  merge_sort key_le (map_to_list m).

Section elements_by_key.
Context {V : Type}.
Implicit Types m : gmap Z V.

Lemma elements_by_key_permutation m : elements_by_key m ≡ₚ map_to_list m.
Proof. apply merge_sort_Permutation. Qed.
Lemma elem_of_elements_by_key m k v : (k, v) ∈ elements_by_key m <-> m !! k = Some v.
Proof. by rewrite elements_by_key_permutation, elem_of_map_to_list. Qed.
Lemma elements_by_key_NoDup m : NoDup (elements_by_key m).*1.
Proof. rewrite elements_by_key_permutation. apply NoDup_fst_map_to_list. Qed.
Lemma elements_by_key_sorted m : StronglySorted key_le (elements_by_key m).
Proof. apply StronglySorted_merge_sort; apply _. Qed.
(** The keys are strictly increasing. *)
Lemma elements_by_key_strict m : StronglySorted Z.lt (elements_by_key m).*1.
Proof.
  pose proof (elements_by_key_NoDup m) as Hn. pose proof (elements_by_key_sorted m) as Hs.
  induction Hs as [|[k v] l Hs IH Hall]; simpl in *; [constructor|].
  apply NoDup_cons in Hn as [Hk Hn]. constructor; [by apply IH|].
  apply Forall_forall. intros k' Hk'. apply list_elem_of_fmap in Hk' as ([k2 v2] & -> & Hin).
  rewrite Forall_forall in Hall. specialize (Hall _ Hin). unfold key_le in Hall. simpl in *.
  assert (k <> k2); [|lia]. intros ->. apply Hk. apply list_elem_of_fmap. by exists (k2, v2).
Qed.
End elements_by_key.

#[global] Create Rewrite HintDb guards.
#[export] Hint Rewrite orb_true_iff orb_false_iff andb_true_iff andb_false_iff negb_true_iff
  negb_false_iff Z.eqb_eq Z.eqb_neq Z.ltb_lt Z.ltb_ge Z.leb_le Z.leb_gt
  bool_decide_eq_true bool_decide_eq_false : guards.

(** Closes the goal of a refused guard of an [atomic_spec]. *)
Ltac guards := autorewrite with guards in *; destruct_and?.
(** Splits every conjunction, disjunction and witness of the context. *)
Ltac split_hyps :=
  repeat match goal with
  | H : _ /\ _ |- _ => destruct H
  | H : is_Some _ |- _ => destruct H
  | H : exists _, _ |- _ => destruct H
  | H : _ \/ _ |- _ => destruct H
  | _ => progress simplify_eq
  end.
(** Splits a conjunction and closes the parts that are immediate. *)
Ltac parts := split_and!; try done; try lia.
Ltac refused :=
  split; [intros Hpre; guards; split_hyps; first [congruence | lia | naive_solver]
         |split; [by auto|by eexists]].
