(* ===== verification/Types.v ===== *)
(** * Shared types and caps ([include/hive_native/util/types.hpp])

    The size caps, [asset], [hash_digest], the account-name and length checks,
    [fnv1a64] and [constant_time_equal]. [uint8_t] is Stdlib's [byte], so a
    [std::vector<uint8_t>] is a [list byte]; wider integers are [Z]. *)
From Stdlib Require Import Ascii.
From Stdlib Require Export Strings.Byte.
From S2P Require Import Prelude.

(** ** Bytes *)

#[export] Instance byte_eq_dec : EqDecision byte := Byte.byte_eq_dec.

Definition byte_val (b : byte) : Z := Z.of_N (Byte.to_N b).
Definition byte_of (z : Z) : byte :=
  match Byte.of_N (Z.to_N (u8 z)) with Some b => b | None => x00 end.
Definition string_bytes (s : string) : list byte := String.list_byte_of_string s.
Definition bytes_string (l : list byte) : string := String.string_of_list_byte l.
Definition size_of {A} (l : list A) : Z := Z.of_nat (length l).
Definition str_size (s : string) : Z := Z.of_nat (String.length s).
Definition char_val (c : ascii) : Z := Z.of_N (N_of_ascii c).

Lemma byte_val_range b : 0 <= byte_val b < 2 ^ 8.
Proof. unfold byte_val. pose proof (Byte.to_N_bounded b). lia. Qed.

Lemma byte_of_val b : byte_of (byte_val b) = b.
Proof.
  unfold byte_of. rewrite u8_small by apply byte_val_range.
  unfold byte_val. by rewrite N2Z.id, Byte.of_to_N.
Qed.

Lemma byte_val_of z : byte_val (byte_of z) = u8 z.
Proof.
  unfold byte_of. pose proof (u8_range z).
  destruct (Byte.of_N _) eqn:H'.
  - apply Byte.to_of_N in H'. unfold byte_val. lia.
  - apply Byte.of_N_None_iff in H'. lia.
Qed.

Lemma byte_val_inj a b : byte_val a = byte_val b -> a = b.
Proof. intros H. by rewrite <-(byte_of_val a), H, byte_of_val. Qed.

#[export] Program Instance byte_countable : Countable byte :=
  inj_countable' byte_val byte_of byte_of_val.

(** ** Caps and placeholders *)

Definition HIVE_HARDFORK_NFT : Z := 9001.
Definition HIVE_HARDFORK_HTLC : Z := 9002.
Definition HIVE_HARDFORK_CONTRACTS : Z := 9003.

Definition MAX_ACCOUNT_NAME_LEN : Z := 16.
Definition MAX_NFT_SYMBOL_LEN : Z := 16.
Definition MAX_NFT_NAME_LEN : Z := 64.
Definition MAX_NFT_URI_LEN : Z := 256.
Definition MAX_MEMO_LEN : Z := 2048.
Definition MAX_HTLC_PREIMAGE_LEN : Z := 1024.
Definition MAX_CONTRACT_EXPORT : Z := 64.
Definition MAX_CONTRACT_ARGS : Z := 64 * 1024.
Definition MAX_CODE_BYTES : Z := 512 * 1024.

Definition HTLC_MIN_DURATION_SEC : Z := 60.
Definition HTLC_MAX_DURATION_SEC : Z := 30 * 24 * 3600.
Definition HTLC_MAX_OPEN_PER_ACCOUNT : Z := 256.

(** ** Assets and digests

    [asset_symbol] has a fixed underlying type, so a value read from outside
    may be any [uint8_t]: [raw_symbol] is a value that is neither
    enumerator. *)

Inductive asset_symbol : Type :=
| HIVE
| HBD
| raw_symbol (v : Z).

#[export] Instance asset_symbol_eq_dec : EqDecision asset_symbol.
Proof. solve_decision. Defined.

Record asset : Type := mk_asset { amount : Z; symbol : asset_symbol }.

#[export] Instance asset_eq_dec : EqDecision asset.
Proof. solve_decision. Defined.

Definition is_positive (a : asset) : bool := 0 <? a.(amount).

Inductive hash_algo : Type := algo_sha256 | algo_ripemd160.

#[export] Instance hash_algo_eq_dec : EqDecision hash_algo.
Proof. solve_decision. Defined.

Record hash_digest : Type := mk_digest { algo : hash_algo; digest_bytes : list byte }.

#[export] Instance hash_digest_eq_dec : EqDecision hash_digest.
Proof. solve_decision. Defined.

(** ** Checks *)

Definition account_char_ok (c : ascii) : bool :=
  ((char_val "a" <=? char_val c) && (char_val c <=? char_val "z"))
  || ((char_val "0" <=? char_val c) && (char_val c <=? char_val "9"))
  || Ascii.eqb c "." || Ascii.eqb c "-".

(** [for(char c : s) if(!ok(c)) throw protocol_error(what);] *)
Fixpoint check_chars (ok : ascii -> bool) (what : string) (s : string) : result unit :=
  match s with
  | EmptyString => Ret tt
  | String c s' => check_not (negb (ok c)) what;; check_chars ok what s'
  end.

Definition str_empty (s : string) : bool := str_size s =? 0.

Definition assert_account_name (name : string) : result unit :=
  check_not (str_empty name || (MAX_ACCOUNT_NAME_LEN <? str_size name))
    "invalid account name length";;
  check_chars account_char_ok "invalid account name character" name.

Definition assert_len (s : string) (max : Z) (what : string) : result unit :=
  check_not (max <? str_size s) (what +:+ " too long").

(** ** FNV-1a *)

Definition fnv1a64_step (h : Z) (c : byte) : Z :=
  u64 (Z.lxor h (byte_val c) * 1099511628211).

Definition fnv1a64 (data : string) : Z :=
  foldl fnv1a64_step 14695981039346656037 (string_bytes data).

(** ** Digest comparison without early exit *)

(** [diff |= uint8_t(a[i] ^ b[i])] over [i < a.size()]. *)
Fixpoint ct_diff (diff : Z) (a b : list byte) : Z :=
  match a, b with
  | x :: a', y :: b' =>
      ct_diff (u8 (Z.lor diff (u8 (Z.lxor (byte_val x) (byte_val y))))) a' b'
  | _, _ => diff
  end.

Definition constant_time_equal (a b : list byte) : bool :=
  if negb (size_of a =? size_of b) then false else ct_diff 0 a b =? 0.

(** ** Lemmas *)

Definition all_chars (ok : ascii -> bool) (s : string) : bool :=
  forallb ok (String.list_ascii_of_string s).

Lemma check_chars_ret ok what s x :
  check_chars ok what s = Ret x <-> all_chars ok s = true.
Proof.
  unfold all_chars. induction s as [|c s IH]; simpl.
  - by destruct x.
  - by rewrite andb_true_iff, <-IH, check_bind_ret, negb_false_iff.
Qed.

(** The names the protocol accepts. *)
Definition valid_account_name (name : string) : bool :=
  negb (str_empty name) && (str_size name <=? MAX_ACCOUNT_NAME_LEN)
  && all_chars account_char_ok name.

Lemma assert_account_name_ret name x :
  assert_account_name name = Ret x <-> valid_account_name name = true.
Proof.
  unfold assert_account_name, valid_account_name.
  by rewrite check_bind_ret, check_chars_ret, orb_false_iff, !andb_true_iff, negb_true_iff,
    Z.ltb_ge, Z.leb_le.
Qed.

Lemma assert_len_ret s max what x :
  assert_len s max what = Ret x <-> str_size s <= max.
Proof. unfold assert_len. by rewrite check_not_ret, Z.ltb_ge. Qed.

Lemma valid_account_name_not_empty name : valid_account_name name = true -> name <> "".
Proof. intros H ->. discriminate. Qed.

Lemma lor_u8_zero a b :
  0 <= a < 2 ^ 8 -> 0 <= b < 2 ^ 8 -> u8 (Z.lor a b) = 0 <-> a = 0 /\ b = 0.
Proof. intros Ha Hb. rewrite u8_small by (apply lor_range; lia). apply Z.lor_eq_0_iff. Qed.

Lemma lxor_bytes_zero x y : u8 (Z.lxor (byte_val x) (byte_val y)) = 0 <-> x = y.
Proof.
  rewrite u8_small by (apply lxor_range; [lia|apply byte_val_range..]).
  rewrite Z.lxor_eq_0_iff. split; [apply byte_val_inj|by intros ->].
Qed.

Lemma ct_diff_zero diff a b : 0 <= diff < 2 ^ 8 -> length a = length b ->
  ct_diff diff a b = 0 <-> diff = 0 /\ a = b.
Proof.
  revert diff b. induction a as [|x a IH]; intros diff [|y b] Hd Hl; simpl in *; try lia.
  - naive_solver.
  - rewrite IH by (apply u8_range || lia).
    rewrite lor_u8_zero, lxor_bytes_zero by (apply u8_range || done). naive_solver.
Qed.

Lemma constant_time_equal_true a b : constant_time_equal a b = true <-> a = b.
Proof.
  unfold constant_time_equal, size_of.
  destruct (Z.eqb_spec (Z.of_nat (length a)) (Z.of_nat (length b))) as [H|H]; simpl.
  - rewrite Z.eqb_eq, ct_diff_zero by lia. naive_solver.
  - split; [done|]. by intros ->.
Qed.

#[export] Hint Resolve byte_val_range valid_account_name_not_empty : hive.

(** A check in front of the rest of a [validate]. *)
Lemma name_bind_ret {A} name (k : result A) b :
  (assert_account_name name;; k) = Ret b <-> valid_account_name name = true /\ k = Ret b.
Proof.
  rewrite result_bind_ret. setoid_rewrite assert_account_name_ret.
  split; [by intros ([] & ? & ?)|]. intros [? ?]. by exists tt.
Qed.

Lemma len_bind_ret {A} s max what (k : result A) b :
  (assert_len s max what;; k) = Ret b <-> str_size s <= max /\ k = Ret b.
Proof. unfold assert_len. by rewrite check_bind_ret, Z.ltb_ge. Qed.

Lemma size_of_zero {A} (l : list A) : size_of l = 0 <-> l = [].
Proof. unfold size_of. destruct l; simpl; naive_solver lia. Qed.
Lemma str_empty_true s : str_empty s = true <-> s = "".
Proof. unfold str_empty, str_size. rewrite Z.eqb_eq. destruct s; simpl; naive_solver lia. Qed.
Lemma str_empty_false s : str_empty s = false <-> s <> "".
Proof. rewrite <-str_empty_true. destruct (str_empty s); naive_solver. Qed.

#[global] Create Rewrite HintDb checks.
#[export] Hint Rewrite @name_bind_ret @len_bind_ret @check_bind_ret @check_not_ret
  check_chars_ret assert_account_name_ret Z.eqb_neq Z.eqb_eq Z.ltb_ge Z.leb_gt
  orb_false_iff negb_false_iff negb_true_iff bool_decide_eq_false bool_decide_eq_true
  str_empty_false str_empty_true @size_of_zero : checks.
#[export] Hint Rewrite str_empty_false str_empty_true : guards.
