(* ===== verification/Crypto.v ===== *)
(** * SHA-256 and RIPEMD-160 ([src/util/crypto.cpp])

    Both hashes are executable, word for word: [uint32_t] is a [Z] reduced
    modulo 2^32 after every addition, left shift and complement. The two
    public functions have the same outer structure (whole blocks, then one or
    two padded blocks); [md_blocks], [md_finish] and [md_run] are that structure with the
    compression function and the placement of the length as arguments.
    [md_run_spec] relates it to the textbook description: pad the message to a
    multiple of 64 bytes, then fold the compression over its blocks. *)
From Stdlib Require Import Ascii.
From S2P Require Import Prelude Types.

(** C array initialisers. *)
Notation "{{ x , .. , y }}" := (cons x .. (cons y nil) ..) (at level 0, only parsing).

(** ** 32-bit words *)

Definition add32 (x y : Z) : Z := u32 (x + y).
Definition not32 (x : Z) : Z := Z.lxor x 4294967295.
Definition shl32 (x n : Z) : Z := u32 (Z.shiftl x n).
Definition byte_at (block : list byte) (i : nat) : Z := byte_val (nth i block x00).
Definition word_at (w : list Z) (i : nat) : Z := nth i w 0.

Declare Scope word_scope.
Delimit Scope word_scope with w32.
Infix ".+" := add32 (at level 50, left associativity) : word_scope.
Infix ".^" := Z.lxor (at level 45, left associativity) : word_scope.
Infix ".&" := Z.land (at level 40, left associativity) : word_scope.
Infix ".|" := Z.lor (at level 47, left associativity) : word_scope.
Notation "~~~ x" := (not32 x) (at level 35, right associativity) : word_scope.

(** ** SHA-256 compression *)

Section sha256_transform.
Local Open Scope word_scope.

Definition rotr (x n : Z) : Z := Z.shiftr x n .| shl32 x (32 - n).

Definition sha256_K : list Z :=
{{ 0x428a2f98, 0x71374491, 0xb5c0fbcf, 0xe9b5dba5, 0x3956c25b, 0x59f111f1, 0x923f82a4, 0xab1c5ed5,
   0xd807aa98, 0x12835b01, 0x243185be, 0x550c7dc3, 0x72be5d74, 0x80deb1fe, 0x9bdc06a7, 0xc19bf174,
   0xe49b69c1, 0xefbe4786, 0x0fc19dc6, 0x240ca1cc, 0x2de92c6f, 0x4a7484aa, 0x5cb0a9dc, 0x76f988da,
   0x983e5152, 0xa831c66d, 0xb00327c8, 0xbf597fc7, 0xc6e00bf3, 0xd5a79147, 0x06ca6351, 0x14292967,
   0x27b70a85, 0x2e1b2138, 0x4d2c6dfc, 0x53380d13, 0x650a7354, 0x766a0abb, 0x81c2c92e, 0x92722c85,
   0xa2bfe8a1, 0xa81a664b, 0xc24b8b70, 0xc76c51a3, 0xd192e819, 0xd6990624, 0xf40e3585, 0x106aa070,
   0x19a4c116, 0x1e376c08, 0x2748774c, 0x34b0bcb5, 0x391c0cb3, 0x4ed8aa4a, 0x5b9cca4f, 0x682e6ff3,
   0x748f82ee, 0x78a5636f, 0x84c87814, 0x8cc70208, 0x90befffa, 0xa4506ceb, 0xbef9a3f7, 0xc67178f2 }}.

(** [W[i]] for [i < 16]: a big-endian word of the block. *)
Definition sha256_load (block : list byte) (i : nat) : Z :=
shl32 (byte_at block (i * 4)) 24 .| shl32 (byte_at block (i * 4 + 1)) 16
.| shl32 (byte_at block (i * 4 + 2)) 8 .| byte_at block (i * 4 + 3).

(** One iteration of the schedule loop, [16 <= i < 64]; [W] holds [W[0..i)]. *)
Definition sha256_extend (W : list Z) (i : nat) : list Z :=
let w15 := word_at W (i - 15) in
let w2 := word_at W (i - 2) in
let s0 := rotr w15 7 .^ rotr w15 18 .^ Z.shiftr w15 3 in
let s1 := rotr w2 17 .^ rotr w2 19 .^ Z.shiftr w2 10 in
W ++ [word_at W (i - 16) .+ s0 .+ word_at W (i - 7) .+ s1].

Definition sha256_schedule (block : list byte) : list Z :=
foldl sha256_extend (map (sha256_load block) (seq 0 16)) (seq 16 48).

(** The working variables [a..h]. *)
Record sha256_vars : Type :=
mk_sha256_vars { va : Z; vb : Z; vc : Z; vd : Z; ve : Z; vf : Z; vg : Z; vh : Z }.

Definition sha256_round (W : list Z) (v : sha256_vars) (i : nat) : sha256_vars :=
let 'mk_sha256_vars a b c d e f g h := v in
let S1 := rotr e 6 .^ rotr e 11 .^ rotr e 25 in
let ch := (e .& f) .^ (~~~ e .& g) in
let t1 := h .+ S1 .+ ch .+ word_at sha256_K i .+ word_at W i in
let S0 := rotr a 2 .^ rotr a 13 .^ rotr a 22 in
let maj := (a .& b) .^ (a .& c) .^ (b .& c) in
let t2 := S0 .+ maj in
mk_sha256_vars (t1 .+ t2) a b c (d .+ t1) e f g.

Definition sha256_transform (state : list Z) (block : list byte) : list Z :=
let W := sha256_schedule block in
let s := word_at state in
let v := foldl (sha256_round W)
           (mk_sha256_vars (s 0%nat) (s 1%nat) (s 2%nat) (s 3%nat)
                           (s 4%nat) (s 5%nat) (s 6%nat) (s 7%nat))
           (seq 0 64) in
{{ s 0%nat .+ va v, s 1%nat .+ vb v, s 2%nat .+ vc v, s 3%nat .+ vd v,
   s 4%nat .+ ve v, s 5%nat .+ vf v, s 6%nat .+ vg v, s 7%nat .+ vh v }}.

End sha256_transform.

(** ** Blocks and padding *)

Section merkle_damgard.
Context (compress : list Z -> list byte -> list Z).
(** The loop over [i < 8] that stores [bitlen] in the last block. *)
Context (put_bitlen : Z -> list byte -> list byte).

(** [while(len - offset >= 64)]: the bytes from [offset] on are [rest]. *)
Fixpoint md_blocks (fuel : nat) (state : list Z) (rest : list byte) : list Z * list byte :=
  match fuel with
  | O => (state, rest)
  | S fuel' =>
      if 64 <=? size_of rest
      then md_blocks fuel' (compress state (take 64 rest)) (drop 64 rest)
      else (state, rest)
  end.

(** From [size_t rem] on: pad with 0x80 and zeros, in two blocks when the
    length does not fit in the first. *)
Definition md_finish (len : Z) (state : list Z) (rest : list byte) : list Z :=
  let rem := length rest in
  let block := <[rem := x80]> (rest ++ replicate (64 - rem) x00) in
  let '(state, block) :=
    if (56 <=? rem)%nat then (compress state block, replicate 64 x00) else (state, block) in
  compress state (put_bitlen (u64 (u64 len * 8)) block).

Definition md_run (init : list Z) (data : list byte) : list Z :=
  let '(state, rest) := md_blocks (length data) init data in
  md_finish (size_of data) state rest.
End merkle_damgard.

(** ** SHA-256 *)

Definition sha256_init : list Z :=
  {{ 0x6a09e667, 0xbb67ae85, 0x3c6ef372, 0xa54ff53a,
     0x510e527f, 0x9b05688c, 0x1f83d9ab, 0x5be0cd19 }}.

(** [block[63 - i] = uint8_t((bitlen >> (8 * i)) & 0xff)]. *)
Definition sha256_put_bitlen (bitlen : Z) (block : list byte) : list byte :=
  foldl (fun b i => <[(63 - i)%nat := byte_of (Z.land (Z.shiftr bitlen (8 * Z.of_nat i)) 0xff)]> b)
    block (seq 0 8).

Definition be_bytes (w : Z) : list byte :=
  {{ byte_of (Z.land (Z.shiftr w 24) 0xff), byte_of (Z.land (Z.shiftr w 16) 0xff),
     byte_of (Z.land (Z.shiftr w 8) 0xff), byte_of (Z.land w 0xff) }}.

Definition sha256 (data : list byte) : list byte :=
  let state := md_run sha256_transform sha256_put_bitlen sha256_init data in
  flat_map (fun i => be_bytes (word_at state i)) (seq 0 8).

(** ** RIPEMD-160 *)

Section ripemd160_compress.
Local Open Scope word_scope.

Definition rol (x n : Z) : Z := shl32 x n .| Z.shiftr x (32 - n).

Definition rmd_r1 : list nat :=
{{ 0,1,2,3,4,5,6,7,8,9,10,11,12,13,14,15,
   7,4,13,1,10,6,15,3,12,0,9,5,2,14,11,8,
   3,10,14,4,9,15,8,1,2,7,0,6,13,11,5,12,
   1,9,11,10,0,8,12,4,13,3,7,15,14,5,6,2,
   4,0,5,9,7,12,2,10,14,1,3,8,11,6,15,13 }}%nat.
Definition rmd_r2 : list nat :=
{{ 5,14,7,0,9,2,11,4,13,6,15,8,1,10,3,12,
   6,11,3,7,0,13,5,10,14,15,8,12,4,9,1,2,
   15,5,1,3,7,14,6,9,11,8,12,2,10,0,4,13,
   8,6,4,1,3,11,15,0,5,12,2,13,9,7,10,14,
   12,15,10,4,1,5,8,7,6,2,13,14,0,3,9,11 }}%nat.
Definition rmd_s1 : list Z :=
{{ 11,14,15,12,5,8,7,9,11,13,14,15,6,7,9,8,
   7,6,8,13,11,9,7,15,7,12,15,9,11,7,13,12,
   11,13,6,7,14,9,13,15,14,8,13,6,5,12,7,5,
   11,12,14,15,14,15,9,8,9,14,5,6,8,6,5,12,
   9,15,5,11,6,8,13,12,5,12,13,14,11,8,5,6 }}.
Definition rmd_s2 : list Z :=
{{ 8,9,9,11,13,15,15,5,7,7,8,11,14,14,12,6,
   9,13,15,7,12,8,9,11,7,7,12,7,6,15,13,11,
   9,7,15,11,8,6,6,14,12,13,5,14,13,13,7,5,
   15,5,8,11,14,14,6,14,6,9,12,9,12,5,15,8,
   8,5,12,9,12,5,14,6,8,13,6,5,15,13,11,11 }}.
Definition rmd_K1 : list Z := {{ 0, 0x5a827999, 0x6ed9eba1, 0x8f1bbcdc, 0xa953fd4e }}.
Definition rmd_K2 : list Z := {{ 0x50a28be6, 0x5c4dd124, 0x6d703ef3, 0x7a6d76e9, 0 }}.

Definition rmd_f (j : nat) (x y z : Z) : Z :=
if (j <? 16)%nat then x .^ y .^ z
else if (j <? 32)%nat then (x .& y) .| (~~~ x .& z)
else if (j <? 48)%nat then (x .| ~~~ y) .^ z
else if (j <? 64)%nat then (x .& z) .| (y .& ~~~ z)
else x .^ (y .| ~~~ z).

(** [X[i]]: a little-endian word of the block. *)
Definition rmd_load (block : list byte) (i : nat) : Z :=
byte_at block (i * 4) .| shl32 (byte_at block (i * 4 + 1)) 8
.| shl32 (byte_at block (i * 4 + 2)) 16 .| shl32 (byte_at block (i * 4 + 3)) 24.

(** One line's variables: [al..el] or [ar..er]. *)
Record rmd_line : Type := mk_rmd_line { la : Z; lb : Z; lc : Z; ld : Z; le : Z }.

(** One step of a line: [t = rol(a + f + X[r] + K, s) + e; a = e; e = d;
  d = rol(c, 10); c = b; b = t]. *)
Definition rmd_step (X : list Z) (fj r : nat) (k s : Z) (v : rmd_line) : rmd_line :=
let 'mk_rmd_line a b c d e := v in
let t := rol (a .+ rmd_f fj b c d .+ word_at X r .+ k) s .+ e in
mk_rmd_line e t b (rol c 10) d.

Definition rmd_round (X : list Z) (vs : rmd_line * rmd_line) (j : nat) : rmd_line * rmd_line :=
(rmd_step X j (nth j rmd_r1 0%nat) (word_at rmd_K1 (j / 16)) (word_at rmd_s1 j) vs.1,
 rmd_step X (79 - j) (nth j rmd_r2 0%nat) (word_at rmd_K2 (j / 16)) (word_at rmd_s2 j) vs.2).

Definition ripemd160_compress (state : list Z) (block : list byte) : list Z :=
let X := map (rmd_load block) (seq 0 16) in
let h := word_at state in
let v0 := mk_rmd_line (h 0%nat) (h 1%nat) (h 2%nat) (h 3%nat) (h 4%nat) in
let '(l, r) := foldl (rmd_round X) (v0, v0) (seq 0 80) in
{{ h 1%nat .+ lc l .+ ld r,
   h 2%nat .+ ld l .+ le r,
   h 3%nat .+ le l .+ la r,
   h 4%nat .+ la l .+ lb r,
   h 0%nat .+ lb l .+ lc r }}.

End ripemd160_compress.

Definition ripemd160_init : list Z :=
  {{ 0x67452301, 0xefcdab89, 0x98badcfe, 0x10325476, 0xc3d2e1f0 }}.

(** [block[56 + i] = uint8_t((bitlen >> (8 * i)) & 0xff)]. *)
Definition ripemd160_put_bitlen (bitlen : Z) (block : list byte) : list byte :=
  foldl (fun b i => <[(56 + i)%nat := byte_of (Z.land (Z.shiftr bitlen (8 * Z.of_nat i)) 0xff)]> b)
    block (seq 0 8).

Definition le_bytes (w : Z) : list byte :=
  {{ byte_of (Z.land w 0xff), byte_of (Z.land (Z.shiftr w 8) 0xff),
     byte_of (Z.land (Z.shiftr w 16) 0xff), byte_of (Z.land (Z.shiftr w 24) 0xff) }}.

Definition ripemd160 (data : list byte) : list byte :=
  let state := md_run ripemd160_compress ripemd160_put_bitlen ripemd160_init data in
  flat_map (fun i => le_bytes (word_at state i)) (seq 0 5).

(** [digest_of] ([util/types.hpp]). *)
Definition digest_of (a : hash_algo) (preimage : list byte) : hash_digest :=
  mk_digest a (match a with
               | algo_sha256 => sha256 preimage
               | algo_ripemd160 => ripemd160 preimage
               end).

Definition digest_size (a : hash_algo) : Z :=
  match a with algo_sha256 => 32 | algo_ripemd160 => 20 end.

Definition hex_val (c : ascii) : Z :=
  let v := char_val c in if v <=? char_val "9"%char then v - char_val "0"%char else v - char_val "a"%char + 10.
(** Hexadecimal notation for test vectors. *)
Fixpoint hex (s : string) : list byte :=
  match s with
  | String c (String d s') => byte_of (16 * hex_val c + hex_val d) :: hex s'
  | _ => []
  end.


(** ** The textbook description *)

(** The message in blocks of 64 bytes, the last bytes short of one dropped. *)
Fixpoint split_blocks (n : nat) (l : list byte) : list (list byte) :=
  match n with O => [] | S n' => take 64 l :: split_blocks n' (drop 64 l) end.
Definition blocks_of (l : list byte) : list (list byte) := split_blocks (length l / 64) l.

(** One bit 1, then zeros up to 56 bytes modulo 64, then the bit length. *)
Definition md_pad (encode_len : Z -> list byte) (data : list byte) : list byte :=
  data ++ x80 :: replicate (Z.to_nat ((55 - size_of data) mod 64)) x00
    ++ encode_len (u64 (size_of data * 8)).

Definition be64_bytes (w : Z) : list byte :=
  map (fun i => byte_of (Z.shiftr w (8 * Z.of_nat i))) (rev (seq 0 8)).
Definition le64_bytes (w : Z) : list byte :=
  map (fun i => byte_of (Z.shiftr w (8 * Z.of_nat i))) (seq 0 8).

Definition sha256_spec (data : list byte) : list byte :=
  flat_map be_bytes
    (foldl sha256_transform sha256_init (blocks_of (md_pad be64_bytes data))).
Definition ripemd160_spec (data : list byte) : list byte :=
  flat_map le_bytes
    (foldl ripemd160_compress ripemd160_init (blocks_of (md_pad le64_bytes data))).

Lemma blocks_of_step l : (64 <= length l)%nat -> blocks_of l = take 64 l :: blocks_of (drop 64 l).
Proof.
  intros H. unfold blocks_of. rewrite length_drop.
  replace (length l / 64)%nat with (S ((length l - 64) / 64)); [done|].
  replace (length l) with (length l - 64 + 1 * 64)%nat at 2 by lia.
  rewrite Nat.div_add by lia. lia.
Qed.

Lemma blocks_of_nil : blocks_of [] = [].
Proof. done. Qed.

Lemma blocks_of_app b l : length b = 64%nat -> blocks_of (b ++ l) = b :: blocks_of l.
Proof.
  intros H. rewrite blocks_of_step by (rewrite length_app; lia).
  by rewrite take_app_length', drop_app_length'.
Qed.

Lemma blocks_of_one b : length b = 64%nat -> blocks_of b = [b].
Proof. intros H. rewrite <-(app_nil_r b) at 1. by rewrite blocks_of_app. Qed.

Lemma land_255 z : Z.land z 0xff = u8 z.
Proof. unfold u8. change 0xff with (Z.ones 8). by rewrite Z.land_ones by lia. Qed.
Lemma byte_of_land z : byte_of (Z.land z 0xff) = byte_of z.
Proof. apply byte_val_inj. rewrite !byte_val_of, land_255. apply Z.mod_mod. lia. Qed.

Lemma sha256_put_spec w p : length p = 56%nat ->
  sha256_put_bitlen w (p ++ replicate 8 x00) = p ++ be64_bytes w.
Proof.
  intros H. unfold sha256_put_bitlen, be64_bytes. cbn [foldl seq rev app map].
  repeat (rewrite insert_app_r_alt by lia; rewrite byte_of_land, H). done.
Qed.

Lemma ripemd160_put_spec w p : length p = 56%nat ->
  ripemd160_put_bitlen w (p ++ replicate 8 x00) = p ++ le64_bytes w.
Proof.
  intros H. unfold ripemd160_put_bitlen, le64_bytes. cbn [foldl seq rev app map].
  repeat (rewrite insert_app_r_alt by lia; rewrite byte_of_land, H). done.
Qed.

Lemma app_cons_assoc {A} (l k k' : list A) x : l ++ x :: (k ++ k') = (l ++ x :: k) ++ k'.
Proof. by rewrite <-app_assoc. Qed.

Section merkle_damgard_spec.
Context (compress : list Z -> list byte -> list Z).
Context (put_bitlen : Z -> list byte -> list byte) (encode_len : Z -> list byte).
Hypothesis put_spec : forall w p, length p = 56%nat ->
  put_bitlen w (p ++ replicate 8 x00) = p ++ encode_len w.
Hypothesis encode_length : forall w, length (encode_len w) = 8%nat.

Lemma md_blocks_spec fuel state l st rest :
  (length l <= fuel)%nat -> md_blocks compress fuel state l = (st, rest) ->
  (length rest < 64)%nat /\ size_of rest = size_of l mod 64 /\
  forall tail, foldl compress state (blocks_of (l ++ tail)) =
               foldl compress st (blocks_of (rest ++ tail)).
Proof.
  unfold size_of. revert state l. induction fuel as [|fuel IH]; intros state l Hf; simpl.
  - intros [= <- <-]. rewrite Z.mod_small by lia. repeat split; lia || done.
  - unfold size_of at 1. destruct (Z.leb_spec 64 (Z.of_nat (length l))) as [H|H].
    + intros Hr. apply IH in Hr as (H1 & H2 & H3); [|rewrite length_drop; lia].
      split; [done|]. split.
      * rewrite H2, length_drop, Nat2Z.inj_sub by lia.
        replace (_ - _) with (Z.of_nat (length l) + (-1) * 64) by lia.
        by rewrite Z.mod_add by lia.
      * intros tail. rewrite <-H3.
        rewrite <-(take_drop 64 l) at 1. rewrite <-app_assoc, blocks_of_app; [done|].
        rewrite length_take. lia.
    + intros [= <- <-]. rewrite Z.mod_small by lia. repeat split; lia || done.
Qed.

Lemma md_finish_spec (data rest : list byte) state :
  (length rest < 64)%nat -> size_of rest = size_of data mod 64 ->
  md_finish compress put_bitlen (size_of data) state rest =
  foldl compress state (blocks_of (rest ++ x80 ::
    replicate (Z.to_nat ((55 - size_of data) mod 64)) x00 ++ encode_len (u64 (size_of data * 8)))).
Proof.
  intros Hlt Hmod. unfold md_finish.
  assert (Hw : u64 (u64 (size_of data) * 8) = u64 (size_of data * 8))
    by (apply Z.mul_mod_idemp_l; lia).
  rewrite Hw. set (e := u64 (size_of data * 8)). pose proof (encode_length e) as He.
  replace ((55 - size_of data) mod 64) with ((55 - size_of rest) mod 64)
    by (rewrite Hmod; apply Zminus_mod_idemp_r).
  rewrite insert_app_r_alt, Nat.sub_diag by done.
  replace (64 - length rest)%nat with (S (63 - length rest)) by lia.
  change (<[0%nat:=x80]> (replicate (S (63 - length rest)) x00))
    with (x80 :: replicate (63 - length rest) x00).
  destruct (Nat.leb_spec 56 (length rest)) as [H|H].
  - replace ((55 - size_of rest) mod 64) with (Z.of_nat (63 - length rest + 56)).
    2: { unfold size_of in *. apply Z.mod_unique with (-1); lia. }
    rewrite Nat2Z.id, replicate_add.
    rewrite <-app_assoc, app_cons_assoc.
    rewrite blocks_of_app by (rewrite length_app; simpl; rewrite length_replicate; lia).
    rewrite blocks_of_one by (rewrite length_app, length_replicate; lia).
    change (replicate 64 x00) with (replicate 56 x00 ++ replicate 8 x00).
    rewrite put_spec by done. done.
  - rewrite Z.mod_small by (unfold size_of; lia).
    replace (63 - length rest)%nat with (55 - length rest + 8)%nat by lia.
    rewrite replicate_add.
    replace (Z.to_nat (55 - size_of rest)) with (55 - length rest)%nat by (unfold size_of; lia).
    rewrite !app_cons_assoc.
    assert (Hl : length (rest ++ x80 :: replicate (55 - length rest) x00) = 56%nat)
      by (rewrite length_app; simpl; rewrite length_replicate; lia).
    rewrite put_spec by done.
    rewrite blocks_of_one; [done|]. rewrite length_app. lia.
Qed.

Lemma md_run_spec init (data : list byte) :
  md_run compress put_bitlen init data =
  foldl compress init (blocks_of (md_pad encode_len data)).
Proof.
  unfold md_run. destruct (md_blocks _ _ _ _) as [st rest] eqn:E.
  apply md_blocks_spec in E as (H1 & H2 & H3); [|done].
  unfold md_pad. rewrite H3. by apply md_finish_spec.
Qed.
End merkle_damgard_spec.

Lemma foldl_length {A B} (f : list A -> B -> list A) k l init :
  (forall s b, length s = k -> length (f s b) = k) -> length init = k ->
  length (foldl f init l) = k.
Proof. intros Hf. revert init. induction l; simpl; eauto. Qed.

(** C-style indexed output is the concatenation of the words in order. *)
Lemma flat_map_words (f : Z -> list byte) state :
  flat_map (fun i => f (word_at state i)) (seq 0 (length state)) = flat_map f state.
Proof.
  induction state as [|w state IH]; [done|]. simpl. f_equal. rewrite <-IH.
  rewrite <-seq_shift, !flat_map_concat_map, map_map. done.
Qed.

Lemma sha256_length data : length (sha256 data) = 32%nat.
Proof. done. Qed.
Lemma ripemd160_length data : length (ripemd160 data) = 20%nat.
Proof. done. Qed.
Lemma digest_of_size a p : size_of (digest_bytes (digest_of a p)) = digest_size a.
Proof. by destruct a. Qed.

Lemma sha256_transform_length st b : length (sha256_transform st b) = 8%nat.
Proof. done. Qed.
Lemma ripemd160_compress_length st b : length (ripemd160_compress st b) = 5%nat.
Proof. unfold ripemd160_compress. by destruct (foldl _ _ _). Qed.

(** ** Properties *)

(** C17. Both hash functions compute what their standards describe: the message
    is padded with one 0x80 byte, zeros and the 64-bit length (big-endian for
    SHA-256, little-endian for RIPEMD-160), whatever its length, and the
    compression is folded over the 64-byte blocks of the result; the in-place
    two-block tail handling of the code never differs from that. *)
Theorem hashes_refine_standard_padding (data : list byte) :
  sha256 data = sha256_spec data /\ ripemd160 data = ripemd160_spec data.
Proof.
  unfold sha256, ripemd160, sha256_spec, ripemd160_spec. split.
  - rewrite (md_run_spec _ _ be64_bytes); [|exact sha256_put_spec|done].
    rewrite <-flat_map_words. rewrite (foldl_length _ 8); [done| |done].
    intros. apply sha256_transform_length.
  - rewrite (md_run_spec _ _ le64_bytes); [|exact ripemd160_put_spec|done].
    rewrite <-flat_map_words. rewrite (foldl_length _ 5); [done| |done].
    intros. apply ripemd160_compress_length.
Qed.

(** The two compression functions are the real ones: the digests of the
    empty message, of "abc" and of a 56-byte message (the shortest that needs
    a second padding block) are the published test vectors. *)
Theorem hash_test_vectors :
  let long := string_bytes "abcdbcdecdefdefgefghfghighijhijkijkljklmklmnlmnomnopnopq" in
  map sha256 [[]; string_bytes "abc"; long] =
    [hex "e3b0c44298fc1c149afbf4c8996fb92427ae41e4649b934ca495991b7852b855";
     hex "ba7816bf8f01cfea414140de5dae2223b00361a396177a9cb410ff61f20015ad";
     hex "248d6a61d20638b8e5c026930c3e6039a33ce45964ff2167f6ecedd419db06c1"] /\
  map ripemd160 [[]; string_bytes "abc"; long] =
    [hex "9c1185a5c5e9fc54612808977ee8f548b2258d31";
     hex "8eb208f7e05d987a9b044a8e98c6b087f15a0bfc";
     hex "12a053384a9c0c88e405a06c27dcf49ada62eb2b"].
Proof. vm_compute. split; reflexivity. Qed.

#[global] Opaque sha256 ripemd160.
