(* ===== verification/Protocol.v ===== *)
(** * Protocol operations and their checks

    The operation structs of [include/hive_native/protocol/*.hpp] and the
    [validate] functions of [src/protocol/validate.cpp]. A [validate] returns or
    throws [protocol_error], with the checks in the order of the code. The
    [_valid] predicates say what the checks accept. *)
From Stdlib Require Import Ascii.
From S2P Require Import Prelude Types Crypto.

(** ** NFT operations ([nft_operations.hpp]) *)

Record nft_create_collection_operation : Type := mk_nft_create_collection {
  cc_creator : string; cc_symbol : string; cc_name : string;
  cc_max_supply : Z; cc_transferable : bool }.

Record nft_mint_operation : Type := mk_nft_mint {
  mint_creator : string; mint_collection : Z; mint_to : string;
  mint_metadata_hash : list byte; mint_uri : string; mint_soulbound : bool }.

Record nft_transfer_operation : Type := mk_nft_transfer {
  xfer_from : string; xfer_to : string; xfer_nft_id : Z; xfer_memo : string }.

Record nft_approve_operation : Type := mk_nft_approve {
  appr_owner : string; appr_nft_id : Z; appr_approved : string }.

Record nft_set_approval_for_all_operation : Type := mk_nft_set_approval_for_all {
  afa_owner : string; afa_operator_account : string;
  afa_collection : Z; afa_approved : bool }.

Record nft_burn_operation : Type := mk_nft_burn { burn_owner : string; burn_nft_id : Z }.

(** ** HTLC operations ([htlc_operations.hpp]) *)

Record htlc_create_operation : Type := mk_htlc_create {
  hc_from : string; hc_to : string; hc_amount : asset; hc_preimage_hash : hash_digest;
  hc_preimage_size : Z; hc_expiration : Z; hc_memo : string }.

Record htlc_redeem_operation : Type := mk_htlc_redeem {
  hr_to : string; hr_htlc_id : Z; hr_preimage : list byte }.

Record htlc_refund_operation : Type := mk_htlc_refund { hf_from : string; hf_htlc_id : Z }.

(** ** Contract operations ([contract_operations.hpp]) *)

Record contract_deploy_operation : Type := mk_contract_deploy {
  cd_owner : string; cd_code : list byte; cd_code_hash : list byte;
  cd_fuel_limit : Z; cd_init_args : list byte }.

Record contract_call_operation : Type := mk_contract_call {
  call_caller : string; call_contract_id : Z; call_export_name : string;
  call_args : list byte; call_fuel_limit : Z }.

(** ** Validation ([validate.cpp]) *)

Definition symbol_char_ok (c : ascii) : bool :=
  ((char_val "A" <=? char_val c) && (char_val c <=? char_val "Z"))
  || ((char_val "0" <=? char_val c) && (char_val c <=? char_val "9")).

Definition validate_create_collection (op : nft_create_collection_operation) : result unit :=
  assert_account_name op.(cc_creator);;
  assert_len op.(cc_symbol) MAX_NFT_SYMBOL_LEN "symbol";;
  assert_len op.(cc_name) MAX_NFT_NAME_LEN "name";;
  check_not (str_empty op.(cc_symbol)) "symbol required";;
  check_chars symbol_char_ok "symbol must be A-Z0-9" op.(cc_symbol).

Definition validate_mint (op : nft_mint_operation) : result unit :=
  assert_account_name op.(mint_creator);;
  assert_account_name op.(mint_to);;
  assert_len op.(mint_uri) MAX_NFT_URI_LEN "uri";;
  check_not (op.(mint_collection) =? 0) "collection required".

Definition validate_transfer (op : nft_transfer_operation) : result unit :=
  assert_account_name op.(xfer_from);;
  assert_account_name op.(xfer_to);;
  assert_len op.(xfer_memo) MAX_MEMO_LEN "memo";;
  check_not (op.(xfer_nft_id) =? 0) "nft_id required";;
  check_not (bool_decide (op.(xfer_from) = op.(xfer_to))) "cannot transfer to self".

Definition validate_approve (op : nft_approve_operation) : result unit :=
  assert_account_name op.(appr_owner);;
  check_not (op.(appr_nft_id) =? 0) "nft_id required";;
  if negb (str_empty op.(appr_approved)) then assert_account_name op.(appr_approved)
  else Ret tt.

Definition validate_set_approval_for_all (op : nft_set_approval_for_all_operation) : result unit :=
  assert_account_name op.(afa_owner);;
  assert_account_name op.(afa_operator_account);;
  check_not (bool_decide (op.(afa_owner) = op.(afa_operator_account)))
    "cannot approve self as operator".

Definition validate_burn (op : nft_burn_operation) : result unit :=
  assert_account_name op.(burn_owner);;
  check_not (op.(burn_nft_id) =? 0) "nft_id required".

Definition validate_htlc_create (now : Z) (op : htlc_create_operation) : result unit :=
  assert_account_name op.(hc_from);;
  assert_account_name op.(hc_to);;
  assert_len op.(hc_memo) MAX_MEMO_LEN "memo";;
  check_not (negb (is_positive op.(hc_amount))) "amount must be positive";;
  check_not (negb (bool_decide (op.(hc_amount).(symbol) = HIVE))
             && negb (bool_decide (op.(hc_amount).(symbol) = HBD))) "only HIVE/HBD in MVP";;
  check_not ((op.(hc_preimage_size) =? 0) || (MAX_HTLC_PREIMAGE_LEN <? op.(hc_preimage_size)))
    "invalid preimage_size";;
  let expect := match op.(hc_preimage_hash).(algo) with algo_sha256 => 32 | _ => 20 end in
  check_not (negb (size_of op.(hc_preimage_hash).(digest_bytes) =? expect))
    "preimage_hash length mismatch";;
  check_not (op.(hc_expiration) <? now + HTLC_MIN_DURATION_SEC) "expiration too soon";;
  check_not (now + HTLC_MAX_DURATION_SEC <? op.(hc_expiration)) "expiration too far".

Definition validate_htlc_redeem (op : htlc_redeem_operation) : result unit :=
  assert_account_name op.(hr_to);;
  check_not (op.(hr_htlc_id) =? 0) "htlc_id required";;
  check_not ((size_of op.(hr_preimage) =? 0) || (MAX_HTLC_PREIMAGE_LEN <? size_of op.(hr_preimage)))
    "invalid preimage".

Definition validate_htlc_refund (op : htlc_refund_operation) : result unit :=
  assert_account_name op.(hf_from);;
  check_not (op.(hf_htlc_id) =? 0) "htlc_id required".

Definition validate_contract_deploy (op : contract_deploy_operation) : result unit :=
  assert_account_name op.(cd_owner);;
  check_not (op.(cd_fuel_limit) =? 0) "fuel_limit required";;
  check_not (MAX_CODE_BYTES <? size_of op.(cd_code)) "code too large";;
  check_not (size_of op.(cd_code) =? 0) "code required in portable deploy";;
  check_not (MAX_CONTRACT_ARGS <? size_of op.(cd_init_args)) "init_args too large";;
  let h := sha256 op.(cd_code) in
  let zero := forallb (fun b => byte_val b =? 0) op.(cd_code_hash) in
  check_not (negb zero && negb (bool_decide (h = op.(cd_code_hash)))) "code_hash mismatch".

Definition validate_contract_call (op : contract_call_operation) : result unit :=
  assert_account_name op.(call_caller);;
  check_not (op.(call_contract_id) =? 0) "contract_id required";;
  check_not (op.(call_fuel_limit) =? 0) "fuel_limit required";;
  assert_len op.(call_export_name) MAX_CONTRACT_EXPORT "export_name";;
  check_not (str_empty op.(call_export_name)) "export_name required";;
  check_not (MAX_CONTRACT_ARGS <? size_of op.(call_args)) "args too large".

(** ** Any operation *)

Inductive operation : Type :=
| op_nft_create_collection (op : nft_create_collection_operation)
| op_nft_mint (op : nft_mint_operation)
| op_nft_transfer (op : nft_transfer_operation)
| op_nft_approve (op : nft_approve_operation)
| op_nft_set_approval_for_all (op : nft_set_approval_for_all_operation)
| op_nft_burn (op : nft_burn_operation)
| op_htlc_create (op : htlc_create_operation)
| op_htlc_redeem (op : htlc_redeem_operation)
| op_htlc_refund (op : htlc_refund_operation)
| op_contract_deploy (op : contract_deploy_operation)
| op_contract_call (op : contract_call_operation).

Definition fee_payer (op : operation) : string :=
  match op with
  | op_nft_create_collection op => op.(cc_creator)
  | op_nft_mint op => op.(mint_creator)
  | op_nft_transfer op => op.(xfer_from)
  | op_nft_approve op => op.(appr_owner)
  | op_nft_set_approval_for_all op => op.(afa_owner)
  | op_nft_burn op => op.(burn_owner)
  | op_htlc_create op => op.(hc_from)
  | op_htlc_redeem op => op.(hr_to)
  | op_htlc_refund op => op.(hf_from)
  | op_contract_deploy op => op.(cd_owner)
  | op_contract_call op => op.(call_caller)
  end.

Definition get_required_active_authorities (op : operation) : list string := [fee_payer op].

Definition validate (now : Z) (op : operation) : result unit :=
  match op with
  | op_nft_create_collection op => validate_create_collection op
  | op_nft_mint op => validate_mint op
  | op_nft_transfer op => validate_transfer op
  | op_nft_approve op => validate_approve op
  | op_nft_set_approval_for_all op => validate_set_approval_for_all op
  | op_nft_burn op => validate_burn op
  | op_htlc_create op => validate_htlc_create now op
  | op_htlc_redeem op => validate_htlc_redeem op
  | op_htlc_refund op => validate_htlc_refund op
  | op_contract_deploy op => validate_contract_deploy op
  | op_contract_call op => validate_contract_call op
  end.

(** The integer fields hold values of their C++ types. *)
Definition is_u64 (x : Z) : Prop := 0 <= x < 2 ^ 64.
Definition typed_op (op : operation) : Prop :=
  match op with
  | op_nft_create_collection op => is_u64 op.(cc_max_supply)
  | op_nft_mint op => is_u64 op.(mint_collection)
  | op_nft_transfer op => is_u64 op.(xfer_nft_id)
  | op_nft_approve op => is_u64 op.(appr_nft_id)
  | op_nft_set_approval_for_all op => is_u64 op.(afa_collection)
  | op_nft_burn op => is_u64 op.(burn_nft_id)
  | op_htlc_create op =>
      INT64_MIN <= op.(hc_amount).(amount) <= INT64_MAX /\
      0 <= op.(hc_preimage_size) < 2 ^ 16 /\ 0 <= op.(hc_expiration) < 2 ^ 32
  | op_htlc_redeem op => is_u64 op.(hr_htlc_id)
  | op_htlc_refund op => is_u64 op.(hf_htlc_id)
  | op_contract_deploy op => is_u64 op.(cd_fuel_limit)
  | op_contract_call op => is_u64 op.(call_contract_id) /\ is_u64 op.(call_fuel_limit)
  end.

(** ** What the checks accept *)

Definition create_collection_valid (op : nft_create_collection_operation) : Prop :=
  valid_account_name op.(cc_creator) = true /\
  op.(cc_symbol) <> "" /\ str_size op.(cc_symbol) <= MAX_NFT_SYMBOL_LEN /\
  all_chars symbol_char_ok op.(cc_symbol) = true /\
  str_size op.(cc_name) <= MAX_NFT_NAME_LEN.

Definition mint_valid (op : nft_mint_operation) : Prop :=
  valid_account_name op.(mint_creator) = true /\ valid_account_name op.(mint_to) = true /\
  str_size op.(mint_uri) <= MAX_NFT_URI_LEN /\ op.(mint_collection) <> 0.

Definition transfer_valid (op : nft_transfer_operation) : Prop :=
  valid_account_name op.(xfer_from) = true /\ valid_account_name op.(xfer_to) = true /\
  str_size op.(xfer_memo) <= MAX_MEMO_LEN /\
  op.(xfer_nft_id) <> 0 /\ op.(xfer_from) <> op.(xfer_to).

Definition approve_valid (op : nft_approve_operation) : Prop :=
  valid_account_name op.(appr_owner) = true /\ op.(appr_nft_id) <> 0 /\
  (op.(appr_approved) <> "" -> valid_account_name op.(appr_approved) = true).

Definition set_approval_for_all_valid (op : nft_set_approval_for_all_operation) : Prop :=
  valid_account_name op.(afa_owner) = true /\
  valid_account_name op.(afa_operator_account) = true /\
  op.(afa_owner) <> op.(afa_operator_account).

Definition burn_valid (op : nft_burn_operation) : Prop :=
  valid_account_name op.(burn_owner) = true /\ op.(burn_nft_id) <> 0.

Definition htlc_create_valid (now : Z) (op : htlc_create_operation) : Prop :=
  valid_account_name op.(hc_from) = true /\ valid_account_name op.(hc_to) = true /\
  str_size op.(hc_memo) <= MAX_MEMO_LEN /\
  0 < op.(hc_amount).(amount) /\
  (op.(hc_amount).(symbol) = HIVE \/ op.(hc_amount).(symbol) = HBD) /\
  (op.(hc_preimage_size) <> 0 /\ op.(hc_preimage_size) <= MAX_HTLC_PREIMAGE_LEN) /\
  size_of op.(hc_preimage_hash).(digest_bytes) = digest_size op.(hc_preimage_hash).(algo) /\
  now + HTLC_MIN_DURATION_SEC <= op.(hc_expiration) <= now + HTLC_MAX_DURATION_SEC.

Definition htlc_redeem_valid (op : htlc_redeem_operation) : Prop :=
  valid_account_name op.(hr_to) = true /\ op.(hr_htlc_id) <> 0 /\
  op.(hr_preimage) <> [] /\ size_of op.(hr_preimage) <= MAX_HTLC_PREIMAGE_LEN.

Definition htlc_refund_valid (op : htlc_refund_operation) : Prop :=
  valid_account_name op.(hf_from) = true /\ op.(hf_htlc_id) <> 0.

Definition contract_deploy_valid (op : contract_deploy_operation) : Prop :=
  valid_account_name op.(cd_owner) = true /\ op.(cd_fuel_limit) <> 0 /\
  op.(cd_code) <> [] /\ size_of op.(cd_code) <= MAX_CODE_BYTES /\
  size_of op.(cd_init_args) <= MAX_CONTRACT_ARGS /\
  (Forall (fun b => b = x00) op.(cd_code_hash) \/ op.(cd_code_hash) = sha256 op.(cd_code)).

Definition contract_call_valid (op : contract_call_operation) : Prop :=
  valid_account_name op.(call_caller) = true /\ op.(call_contract_id) <> 0 /\
  op.(call_fuel_limit) <> 0 /\
  op.(call_export_name) <> "" /\ str_size op.(call_export_name) <= MAX_CONTRACT_EXPORT /\
  size_of op.(call_args) <= MAX_CONTRACT_ARGS.

Definition op_valid (now : Z) (op : operation) : Prop :=
  match op with
  | op_nft_create_collection op => create_collection_valid op
  | op_nft_mint op => mint_valid op
  | op_nft_transfer op => transfer_valid op
  | op_nft_approve op => approve_valid op
  | op_nft_set_approval_for_all op => set_approval_for_all_valid op
  | op_nft_burn op => burn_valid op
  | op_htlc_create op => htlc_create_valid now op
  | op_htlc_redeem op => htlc_redeem_valid op
  | op_htlc_refund op => htlc_refund_valid op
  | op_contract_deploy op => contract_deploy_valid op
  | op_contract_call op => contract_call_valid op
  end.

Lemma code_hash_zero l : forallb (fun b => byte_val b =? 0) l = true <-> Forall (fun b => b = x00) l.
Proof.
  rewrite forallb_forall, Forall_forall. setoid_rewrite <-list_elem_of_In.
  split; intros H b Hb; specialize (H b Hb).
  - apply byte_val_inj. by apply Z.eqb_eq.
  - by subst.
Qed.

Ltac solve_validate :=
  unfold validate; autorewrite with checks; try tauto.

Lemma validate_create_collection_ret op x :
  validate_create_collection op = Ret x <-> create_collection_valid op.
Proof. unfold validate_create_collection, create_collection_valid. solve_validate. Qed.
Lemma validate_mint_ret op x : validate_mint op = Ret x <-> mint_valid op.
Proof. unfold validate_mint, mint_valid. solve_validate. Qed.
Lemma validate_transfer_ret op x : validate_transfer op = Ret x <-> transfer_valid op.
Proof. unfold validate_transfer, transfer_valid. solve_validate. Qed.
Lemma validate_approve_ret op x : validate_approve op = Ret x <-> approve_valid op.
Proof.
  unfold validate_approve, approve_valid. solve_validate.
  destruct (str_empty (appr_approved op)) eqn:E; autorewrite with checks in E; simpl;
    autorewrite with checks; destruct x; naive_solver.
Qed.
Lemma validate_set_approval_for_all_ret op x :
  validate_set_approval_for_all op = Ret x <-> set_approval_for_all_valid op.
Proof. unfold validate_set_approval_for_all, set_approval_for_all_valid. solve_validate. Qed.
Lemma validate_burn_ret op x : validate_burn op = Ret x <-> burn_valid op.
Proof. unfold validate_burn, burn_valid. solve_validate. Qed.
Lemma validate_htlc_create_ret now op x :
  validate_htlc_create now op = Ret x <-> htlc_create_valid now op.
Proof.
  unfold validate_htlc_create, htlc_create_valid, is_positive, digest_size. solve_validate.
  rewrite andb_false_iff. autorewrite with checks. rewrite Z.ltb_lt. 
  destruct (algo _); tauto.
Qed.
Lemma validate_htlc_redeem_ret op x : validate_htlc_redeem op = Ret x <-> htlc_redeem_valid op.
Proof. unfold validate_htlc_redeem, htlc_redeem_valid. solve_validate. Qed.
Lemma validate_htlc_refund_ret op x : validate_htlc_refund op = Ret x <-> htlc_refund_valid op.
Proof. unfold validate_htlc_refund, htlc_refund_valid. solve_validate. Qed.
Lemma validate_contract_deploy_ret op x :
  validate_contract_deploy op = Ret x <-> contract_deploy_valid op.
Proof.
  unfold validate_contract_deploy, contract_deploy_valid. solve_validate.
  rewrite andb_false_iff. autorewrite with checks. rewrite code_hash_zero. naive_solver.
Qed.
Lemma validate_contract_call_ret op x : validate_contract_call op = Ret x <-> contract_call_valid op.
Proof. unfold validate_contract_call, contract_call_valid. solve_validate. Qed.

(** A check throws [protocol_error] and nothing else. *)
Definition throws_protocol {A} (r : result A) : Prop :=
  forall e, r = Throw e -> exists what, e = protocol_error what.

Lemma throws_check_not c what : throws_protocol (check_not c what).
Proof. destruct c; intros e; naive_solver. Qed.
Lemma throws_ret {A} (a : A) : throws_protocol (Ret a).
Proof. by intros e. Qed.
Lemma throws_bind {A B} (m : result A) (f : A -> result B) :
  throws_protocol m -> (forall a, throws_protocol (f a)) -> throws_protocol (m ≫= f).
Proof. intros Hm Hf e. destruct m as [a|e']; simpl; [apply Hf|]. intros [= ->]. by apply Hm. Qed.
Lemma throws_check_chars ok what s : throws_protocol (check_chars ok what s).
Proof.
  induction s; simpl; [apply throws_ret|]. apply throws_bind; [apply throws_check_not|done].
Qed.
Lemma throws_account_name name : throws_protocol (assert_account_name name).
Proof. apply throws_bind; [apply throws_check_not|intros; apply throws_check_chars]. Qed.

#[export] Hint Resolve throws_check_not throws_ret throws_bind throws_check_chars
  throws_account_name : hive.
#[export] Hint Extern 1 (throws_protocol (assert_len _ _ _)) => apply throws_check_not : hive.

Lemma validate_throws_protocol now op : throws_protocol (validate now op).
Proof.
  destruct op; simpl; repeat first
    [ solve [eauto with hive]
    | apply throws_bind; [solve [eauto with hive]|intros _]
    | case_match ].
Qed.

(** ** Properties *)

(** C15. The validation of each of the eleven operations accepts exactly the
    well-formed operations: account names of 1 to 16 characters over
    [a-z0-9.-], the size caps, non-zero ids, a positive HIVE or HBD amount, a
    digest of the length of its algorithm, an expiration between 60 seconds and
    30 days away, a code hash that is zero or the SHA-256 of the code. What it
    refuses it refuses with [protocol_error]. *)
Theorem validate_accepts_exactly (now : Z) (op : operation) :
  (validate now op = Ret tt <-> op_valid now op) /\ throws_protocol (validate now op).
Proof.
  split; [|apply validate_throws_protocol].
  destruct op; simpl.
  - apply validate_create_collection_ret.
  - apply validate_mint_ret.
  - apply validate_transfer_ret.
  - apply validate_approve_ret.
  - apply validate_set_approval_for_all_ret.
  - apply validate_burn_ret.
  - apply validate_htlc_create_ret.
  - apply validate_htlc_redeem_ret.
  - apply validate_htlc_refund_ret.
  - apply validate_contract_deploy_ret.
  - apply validate_contract_call_ret.
Qed.
