(* ===== verification/Costs.v ===== *)
(** * RC costs ([include/hive_native/rc/costs.hpp], [src/rc/costs.cpp])

    All arithmetic is on [uint64_t]. *)
From S2P Require Import Prelude Types Protocol.

Definition TRANSFER_BASE : Z := 1000.
Definition FUEL_TO_RC_NUM : Z := 1.
Definition FUEL_TO_RC_DEN : Z := 10.

Definition bytes_cost (n : Z) : Z := u64 (n * 2).

Definition cost_nft_create_collection (op : nft_create_collection_operation) : Z :=
  u64 (u64 (TRANSFER_BASE * 3
       + bytes_cost (u64 (str_size op.(cc_symbol) + str_size op.(cc_name)))) + 500).
Definition cost_nft_mint (op : nft_mint_operation) : Z :=
  u64 (u64 (TRANSFER_BASE * 2 + bytes_cost (str_size op.(mint_uri))) + 800).
Definition cost_nft_transfer (op : nft_transfer_operation) : Z :=
  u64 (TRANSFER_BASE + bytes_cost (str_size op.(xfer_memo))).
Definition cost_nft_approve (_ : nft_approve_operation) : Z := TRANSFER_BASE / 2.
Definition cost_nft_set_approval_for_all (_ : nft_set_approval_for_all_operation) : Z :=
  TRANSFER_BASE / 2 + 100.
Definition cost_nft_burn (_ : nft_burn_operation) : Z := TRANSFER_BASE.

Definition cost_htlc_create (op : htlc_create_operation) : Z :=
  u64 (u64 (TRANSFER_BASE * 2 + bytes_cost (str_size op.(hc_memo))) + 600).
Definition cost_htlc_redeem (op : htlc_redeem_operation) : Z :=
  u64 (u64 (TRANSFER_BASE + bytes_cost (size_of op.(hr_preimage))) + 200).
Definition cost_htlc_refund (_ : htlc_refund_operation) : Z := TRANSFER_BASE.

Definition cost_contract_deploy (op : contract_deploy_operation) : Z :=
  u64 (u64 (TRANSFER_BASE * 10 + bytes_cost (size_of op.(cd_code)))
       + u64 (op.(cd_fuel_limit) * FUEL_TO_RC_NUM) / FUEL_TO_RC_DEN).
Definition cost_contract_call (op : contract_call_operation) (fuel_used : Z) : Z :=
  let fuel := if negb (fuel_used =? 0) then fuel_used else op.(call_fuel_limit) in
  u64 (u64 (TRANSFER_BASE * 2 + bytes_cost (size_of op.(call_args)))
       + u64 (fuel * FUEL_TO_RC_NUM) / FUEL_TO_RC_DEN).

(** The cost an operation is charged before it changes state; for a contract
    call, [fuel_used] is what the engine reports. *)
Definition op_cost (op : operation) (fuel_used : Z) : Z :=
  match op with
  | op_nft_create_collection op => cost_nft_create_collection op
  | op_nft_mint op => cost_nft_mint op
  | op_nft_transfer op => cost_nft_transfer op
  | op_nft_approve op => cost_nft_approve op
  | op_nft_set_approval_for_all op => cost_nft_set_approval_for_all op
  | op_nft_burn op => cost_nft_burn op
  | op_htlc_create op => cost_htlc_create op
  | op_htlc_redeem op => cost_htlc_redeem op
  | op_htlc_refund op => cost_htlc_refund op
  | op_contract_deploy op => cost_contract_deploy op
  | op_contract_call op => cost_contract_call op fuel_used
  end.

(** ** Properties *)

Lemma str_size_nonneg s : 0 <= str_size s.
Proof. unfold str_size. lia. Qed.
Lemma size_of_nonneg {A} (l : list A) : 0 <= size_of l.
Proof. unfold size_of. lia. Qed.

Lemma bytes_cost_small n : 0 <= n < 2 ^ 63 -> bytes_cost n = n * 2.
Proof. intros. apply u64_small. lia. Qed.

Lemma fuel_to_rc f : 0 <= f < 2 ^ 64 -> u64 (f * 1) / 10 = f / 10 /\ 0 <= f / 10 < 2 ^ 61.
Proof.
  intros H. rewrite u64_small, Z.mul_1_r by lia. split; [done|]. split.
  - apply Z.div_pos; lia.
  - apply Z.div_lt_upper_bound; lia.
Qed.

(** What the costs are in unbounded integers. *)
Definition op_cost_exact (op : operation) (fuel_used : Z) : Z :=
  match op with
  | op_nft_create_collection op => 3500 + 2 * (str_size op.(cc_symbol) + str_size op.(cc_name))
  | op_nft_mint op => 2800 + 2 * str_size op.(mint_uri)
  | op_nft_transfer op => 1000 + 2 * str_size op.(xfer_memo)
  | op_nft_approve _ => 500
  | op_nft_set_approval_for_all _ => 600
  | op_nft_burn _ => 1000
  | op_htlc_create op => 2600 + 2 * str_size op.(hc_memo)
  | op_htlc_redeem op => 1200 + 2 * size_of op.(hr_preimage)
  | op_htlc_refund _ => 1000
  | op_contract_deploy op => 10000 + 2 * size_of op.(cd_code) + op.(cd_fuel_limit) / 10
  | op_contract_call op =>
      2000 + 2 * size_of op.(call_args)
      + (if fuel_used =? 0 then op.(call_fuel_limit) else fuel_used) / 10
  end.

Ltac solve_cost :=
  try change (1000 / 2) with 500;
  repeat match goal with
  | |- context [str_size ?s] => lazymatch goal with H : 0 <= str_size s |- _ => fail
                                | _ => pose proof (str_size_nonneg s) end
  | |- context [size_of ?s] => lazymatch goal with H : 0 <= size_of s |- _ => fail
                               | _ => pose proof (size_of_nonneg s) end
  end;
  repeat match goal with
  | |- context [bytes_cost ?n] => rewrite (bytes_cost_small n) by lia
  | |- context [u64 ?x] => rewrite (u64_small x) by lia
  end; lia.

(** C16. RC metering never wraps: for every operation its validation accepts and
    every 64-bit fuel figure, the charged cost is the exact linear formula (base
    plus two units per byte plus a tenth of the fuel), so it is at least 500 and
    grows with the payload; a wrapped cost would make a huge operation nearly
    free. *)
Theorem rc_cost_exact (now : Z) (op : operation) (fuel_used : Z) :
  op_valid now op -> typed_op op -> 0 <= fuel_used < 2 ^ 64 ->
  op_cost op fuel_used = op_cost_exact op fuel_used /\ 500 <= op_cost op fuel_used.
Proof.
  intros Hv Hf Hu. unfold typed_op, is_u64 in Hf. cut (op_cost op fuel_used = op_cost_exact op fuel_used
                        /\ 500 <= op_cost_exact op fuel_used).
  { intros [-> ?]. done. }
  destruct op; simpl in *;
    unfold create_collection_valid, mint_valid, transfer_valid, htlc_create_valid,
      htlc_redeem_valid, contract_deploy_valid, contract_call_valid,
      MAX_NFT_SYMBOL_LEN, MAX_NFT_NAME_LEN, MAX_NFT_URI_LEN, MAX_MEMO_LEN,
      MAX_HTLC_PREIMAGE_LEN, MAX_CODE_BYTES, MAX_CONTRACT_ARGS in Hv;
    unfold cost_nft_create_collection, cost_nft_mint, cost_nft_transfer, cost_nft_approve,
      cost_nft_set_approval_for_all, cost_nft_burn, cost_htlc_create, cost_htlc_redeem,
      cost_htlc_refund, cost_contract_deploy, cost_contract_call, TRANSFER_BASE,
      FUEL_TO_RC_NUM, FUEL_TO_RC_DEN; destruct_and?; try solve_cost.
  - destruct (fuel_to_rc (cd_fuel_limit op)) as [-> ?]; [lia|]. solve_cost.
  - destruct (Z.eqb_spec fuel_used 0) as [->|]; simpl.
    + destruct (fuel_to_rc (call_fuel_limit op)) as [-> ?]; [lia|]. solve_cost.
    + destruct (fuel_to_rc fuel_used) as [-> ?]; [lia|]. solve_cost.
Qed.

Definition sample_call : contract_call_operation := mk_contract_call "bob" 1 "call" [] 1000.

(** The theorem applies to a real call. *)
Example rc_cost_exact_witness :
  op_cost (op_contract_call sample_call) 50 = 2005.
Proof.
  assert (Hv : op_valid 0 (op_contract_call sample_call)).
  { repeat split; vm_compute; congruence. }
  rewrite (proj1 (rc_cost_exact 0 (op_contract_call sample_call) 50 Hv
    ltac:(simpl; unfold is_u64; lia) ltac:(lia))).
  reflexivity.
Defined.
