(* ===== verification/Database.v ===== *)
(** * The in-memory chain database

    [include/hive_native/chain/database.hpp] and [src/chain/database.cpp]. The
    class [database] is a record; each [std::map] is a [gmap] (iteration, where
    the code iterates, goes through [elements_by_key]); each member function is
    a definition, in the monad [M database] when it mutates or throws. *)
From S2P Require Import Prelude Types Crypto Protocol.

(** ** Objects *)

Record account_balance : Type := mk_account_balance { hive : Z; hbd : Z }.

Record nft_collection_object : Type := mk_nft_collection {
  col_id : Z; col_creator : string; col_symbol : string; col_name : string;
  col_max_supply : Z; col_supply : Z; col_transferable : bool; col_created : Z }.

Record nft_object : Type := mk_nft {
  nft_id : Z; nft_collection : Z; nft_token_serial : Z; nft_owner : string;
  nft_approved : string; nft_metadata_hash : list byte; nft_uri : string;
  nft_soulbound : bool; nft_minted : Z }.

Record nft_operator_object : Type := mk_nft_operator {
  opr_owner : string; opr_operator_account : string; opr_collection : Z; opr_approved : bool }.

Inductive htlc_status : Type := open | redeemed | refunded.
#[export] Instance htlc_status_eq_dec : EqDecision htlc_status.
Proof. solve_decision. Defined.

Record htlc_object : Type := mk_htlc {
  htlc_id : Z; htlc_from : string; htlc_to : string; htlc_amount : asset;
  htlc_preimage_hash : hash_digest; htlc_preimage_size : Z; htlc_expiration : Z;
  htlc_created : Z; htlc_memo : string; status : htlc_status }.

Record contract_object : Type := mk_contract {
  ctr_id : Z; ctr_owner : string; ctr_code_hash : list byte; ctr_code : list byte;
  ctr_created : Z }.

Record virtual_op : Type := mk_virtual_op { vop_name : string; payload_json : string }.

#[export] Instance account_balance_eq_dec : EqDecision account_balance.
Proof. solve_decision. Defined.
#[export] Instance nft_object_eq_dec : EqDecision nft_object.
Proof. solve_decision. Defined.
#[export] Instance htlc_object_eq_dec : EqDecision htlc_object.
Proof. solve_decision. Defined.
#[export] Instance virtual_op_eq_dec : EqDecision virtual_op.
Proof. solve_decision. Defined.

(** ** Configuration and state *)

Record node_config : Type := mk_node_config {
  nft_skip_state : bool; htlc_skip_state : bool; contracts_skip : bool;
  is_consensus_node : bool; hardfork : Z }.

Definition default_node_config : node_config :=
  mk_node_config false false false true HIVE_HARDFORK_CONTRACTS.

Record database : Type := mk_database {
  head_time : Z;
  config : node_config;
  next_collection_id : Z;
  next_nft_id : Z;
  next_htlc_id : Z;
  next_contract_id : Z;
  balances : gmap string account_balance;
  collections : gmap Z nft_collection_object;
  collection_by_symbol : gmap string Z;
  nfts : gmap Z nft_object;
  operators : gmap (string * string * Z) nft_operator_object;
  htlcs : gmap Z htlc_object;
  contracts : gmap Z contract_object;
  contract_storage : gmap Z (gmap string (list byte));
  pending_virtual_ops : list virtual_op;
  last_rc_charged : Z }.

(** A default-constructed [database]. *)
Definition empty_database : database :=
  mk_database 0 default_node_config 1 1 1 1 ∅ ∅ ∅ ∅ ∅ ∅ ∅ ∅ [] 0.

(** Assignment through a field: [upd_x f db] is [db.x = f(db.x)]. *)
Definition upd_head_time f (db : database) : database :=
  mk_database (f db.(head_time)) db.(config) db.(next_collection_id) db.(next_nft_id) db.(next_htlc_id) db.(next_contract_id)
    db.(balances) db.(collections) db.(collection_by_symbol) db.(nfts) db.(operators)
    db.(htlcs) db.(contracts) db.(contract_storage) db.(pending_virtual_ops) db.(last_rc_charged).
Definition upd_config f (db : database) : database :=
  mk_database db.(head_time) (f db.(config)) db.(next_collection_id) db.(next_nft_id) db.(next_htlc_id) db.(next_contract_id)
    db.(balances) db.(collections) db.(collection_by_symbol) db.(nfts) db.(operators)
    db.(htlcs) db.(contracts) db.(contract_storage) db.(pending_virtual_ops) db.(last_rc_charged).
Definition upd_next_collection_id f (db : database) : database :=
  mk_database db.(head_time) db.(config) (f db.(next_collection_id)) db.(next_nft_id) db.(next_htlc_id) db.(next_contract_id)
    db.(balances) db.(collections) db.(collection_by_symbol) db.(nfts) db.(operators)
    db.(htlcs) db.(contracts) db.(contract_storage) db.(pending_virtual_ops) db.(last_rc_charged).
Definition upd_next_nft_id f (db : database) : database :=
  mk_database db.(head_time) db.(config) db.(next_collection_id) (f db.(next_nft_id)) db.(next_htlc_id) db.(next_contract_id)
    db.(balances) db.(collections) db.(collection_by_symbol) db.(nfts) db.(operators)
    db.(htlcs) db.(contracts) db.(contract_storage) db.(pending_virtual_ops) db.(last_rc_charged).
Definition upd_next_htlc_id f (db : database) : database :=
  mk_database db.(head_time) db.(config) db.(next_collection_id) db.(next_nft_id) (f db.(next_htlc_id)) db.(next_contract_id)
    db.(balances) db.(collections) db.(collection_by_symbol) db.(nfts) db.(operators)
    db.(htlcs) db.(contracts) db.(contract_storage) db.(pending_virtual_ops) db.(last_rc_charged).
Definition upd_next_contract_id f (db : database) : database :=
  mk_database db.(head_time) db.(config) db.(next_collection_id) db.(next_nft_id) db.(next_htlc_id) (f db.(next_contract_id))
    db.(balances) db.(collections) db.(collection_by_symbol) db.(nfts) db.(operators)
    db.(htlcs) db.(contracts) db.(contract_storage) db.(pending_virtual_ops) db.(last_rc_charged).
Definition upd_balances f (db : database) : database :=
  mk_database db.(head_time) db.(config) db.(next_collection_id) db.(next_nft_id) db.(next_htlc_id) db.(next_contract_id)
    (f db.(balances)) db.(collections) db.(collection_by_symbol) db.(nfts) db.(operators)
    db.(htlcs) db.(contracts) db.(contract_storage) db.(pending_virtual_ops) db.(last_rc_charged).
Definition upd_collections f (db : database) : database :=
  mk_database db.(head_time) db.(config) db.(next_collection_id) db.(next_nft_id) db.(next_htlc_id) db.(next_contract_id)
    db.(balances) (f db.(collections)) db.(collection_by_symbol) db.(nfts) db.(operators)
    db.(htlcs) db.(contracts) db.(contract_storage) db.(pending_virtual_ops) db.(last_rc_charged).
Definition upd_collection_by_symbol f (db : database) : database :=
  mk_database db.(head_time) db.(config) db.(next_collection_id) db.(next_nft_id) db.(next_htlc_id) db.(next_contract_id)
    db.(balances) db.(collections) (f db.(collection_by_symbol)) db.(nfts) db.(operators)
    db.(htlcs) db.(contracts) db.(contract_storage) db.(pending_virtual_ops) db.(last_rc_charged).
Definition upd_nfts f (db : database) : database :=
  mk_database db.(head_time) db.(config) db.(next_collection_id) db.(next_nft_id) db.(next_htlc_id) db.(next_contract_id)
    db.(balances) db.(collections) db.(collection_by_symbol) (f db.(nfts)) db.(operators)
    db.(htlcs) db.(contracts) db.(contract_storage) db.(pending_virtual_ops) db.(last_rc_charged).
Definition upd_operators f (db : database) : database :=
  mk_database db.(head_time) db.(config) db.(next_collection_id) db.(next_nft_id) db.(next_htlc_id) db.(next_contract_id)
    db.(balances) db.(collections) db.(collection_by_symbol) db.(nfts) (f db.(operators))
    db.(htlcs) db.(contracts) db.(contract_storage) db.(pending_virtual_ops) db.(last_rc_charged).
Definition upd_htlcs f (db : database) : database :=
  mk_database db.(head_time) db.(config) db.(next_collection_id) db.(next_nft_id) db.(next_htlc_id) db.(next_contract_id)
    db.(balances) db.(collections) db.(collection_by_symbol) db.(nfts) db.(operators)
    (f db.(htlcs)) db.(contracts) db.(contract_storage) db.(pending_virtual_ops) db.(last_rc_charged).
Definition upd_contracts f (db : database) : database :=
  mk_database db.(head_time) db.(config) db.(next_collection_id) db.(next_nft_id) db.(next_htlc_id) db.(next_contract_id)
    db.(balances) db.(collections) db.(collection_by_symbol) db.(nfts) db.(operators)
    db.(htlcs) (f db.(contracts)) db.(contract_storage) db.(pending_virtual_ops) db.(last_rc_charged).
Definition upd_contract_storage f (db : database) : database :=
  mk_database db.(head_time) db.(config) db.(next_collection_id) db.(next_nft_id) db.(next_htlc_id) db.(next_contract_id)
    db.(balances) db.(collections) db.(collection_by_symbol) db.(nfts) db.(operators)
    db.(htlcs) db.(contracts) (f db.(contract_storage)) db.(pending_virtual_ops) db.(last_rc_charged).
Definition upd_pending_virtual_ops f (db : database) : database :=
  mk_database db.(head_time) db.(config) db.(next_collection_id) db.(next_nft_id) db.(next_htlc_id) db.(next_contract_id)
    db.(balances) db.(collections) db.(collection_by_symbol) db.(nfts) db.(operators)
    db.(htlcs) db.(contracts) db.(contract_storage) (f db.(pending_virtual_ops)) db.(last_rc_charged).
Definition upd_last_rc_charged f (db : database) : database :=
  mk_database db.(head_time) db.(config) db.(next_collection_id) db.(next_nft_id) db.(next_htlc_id) db.(next_contract_id)
    db.(balances) db.(collections) db.(collection_by_symbol) db.(nfts) db.(operators)
    db.(htlcs) db.(contracts) db.(contract_storage) db.(pending_virtual_ops) (f db.(last_rc_charged)).

(** [x.next_id++] on a [uint64_t]: the value before, then the increment. *)
Definition take_next (sel : database -> Z) (upd : (Z -> Z) -> database -> database)
  : M database Z :=
  id ← gets sel;
  modify (upd (fun n => u64 (n + 1)));;
  mret id.

(** ** Member functions *)

Definition create_account (name : string) (h : Z) (b : Z) : M database unit :=
  lift (assert_account_name name);;
  modify (upd_balances (<[name := mk_account_balance h b]>)).

Definition account_exists (db : database) (name : string) : bool :=
  bool_decide (is_Some (db.(balances) !! name)).

Definition balance_field (b : account_balance) (sym : asset_symbol) : Z :=
  if bool_decide (sym = HIVE) then b.(hive) else b.(hbd).

Definition set_balance_field (b : account_balance) (sym : asset_symbol) (v : Z) : account_balance :=
  if bool_decide (sym = HIVE) then mk_account_balance v b.(hbd) else mk_account_balance b.(hive) v.

Definition get_balance (db : database) (name : string) (sym : asset_symbol) : result Z :=
  match db.(balances) !! name with
  | None => Throw (protocol_error "account missing")
  | Some b => Ret (balance_field b sym)
  end.

(** [field < -delta.amount] negates and [field += delta.amount] adds signed
    64-bit integers: [-INT64_MIN] and a sum outside [int64_t] are undefined. *)
Definition adjust_balance (name : string) (delta : asset) : M database unit := fun db =>
  match db.(balances) !! name with
  | None => Thrown (protocol_error "account missing") db
  | Some b =>
      let field := balance_field b delta.(symbol) in
      if (delta.(amount) <? 0) && negb (in_i64 (- delta.(amount))) then Undef
      else if (delta.(amount) <? 0) && (field <? - delta.(amount))
      then Thrown (protocol_error "insufficient balance") db
      else if negb (in_i64 (field + delta.(amount))) then Undef
      else Done tt (upd_balances
             (<[name := set_balance_field b delta.(symbol) (field + delta.(amount))]>) db)
  end.

Definition is_operator_approved (db : database) (owner op : string) (collection : Z) : bool :=
  let approved k := match db.(operators) !! k with Some o => o.(opr_approved) | None => false end in
  if approved (owner, op, collection) then true else approved (owner, op, 0).

Definition htlc_is_open_from (from : string) (h : htlc_object) : bool :=
  bool_decide (h.(htlc_from) = from) && bool_decide (h.(status) = open).

Definition open_htlc_count (db : database) (from : string) : Z :=
  foldl (fun n kh => if htlc_is_open_from from kh.2 then u32 (n + 1) else n)
    0 (elements_by_key db.(htlcs)).

Definition push_virtual (name payload : string) : M database unit :=
  modify (upd_pending_virtual_ops (fun l => l ++ [mk_virtual_op name payload])).

Definition clear_virtual : M database unit := modify (upd_pending_virtual_ops (fun _ => [])).

Definition require_hardfork (hf : Z) : M database unit :=
  db ← get; throw_if (db.(config).(hardfork) <? hf) "hardfork not active".

Definition require_full_nft_state : M database unit :=
  db ← get;
  throw_if (db.(config).(is_consensus_node) && db.(config).(nft_skip_state))
    "consensus node cannot skip NFT state";;
  throw_if db.(config).(nft_skip_state) "NFT state skipped on this node".

Definition require_full_htlc_state : M database unit :=
  db ← get;
  throw_if (db.(config).(is_consensus_node) && db.(config).(htlc_skip_state))
    "consensus node cannot skip HTLC state";;
  throw_if db.(config).(htlc_skip_state) "HTLC state skipped on this node".

(** *** Payloads of virtual operations *)

Definition dq : string := String (Ascii.ascii_of_nat 34) EmptyString.
Definition quoted (s : string) : string := dq +:+ s +:+ dq.
Definition json_bool (b : bool) : string := if b then "true" else "false".
(** [{"k1":v1,...}] as the evaluators print it. *)
Definition json_object (fields : list (string * string)) : string :=
  "{" +:+ String.concat "," (map (fun kv => quoted kv.1 +:+ ":" +:+ kv.2) fields) +:+ "}".

(** ** Lemmas *)

(** What the feature gates let through. *)
Definition nft_enabled (db : database) : Prop :=
  HIVE_HARDFORK_NFT <= db.(config).(hardfork) /\ db.(config).(nft_skip_state) = false.
Definition htlc_enabled (db : database) : Prop :=
  HIVE_HARDFORK_HTLC <= db.(config).(hardfork) /\ db.(config).(htlc_skip_state) = false.

Lemma wp_nft_gate (k : M database unit) (Q : unit -> database -> Prop) E db :
  (forall what, ~ nft_enabled db -> E (protocol_error what) db) ->
  (nft_enabled db -> wp k Q E db) ->
  wp (require_hardfork HIVE_HARDFORK_NFT;; require_full_nft_state;; k) Q E db.
Proof.
  intros HE HQ. unfold require_hardfork, require_full_nft_state, nft_enabled in *.
  repeat wp_step; autorewrite with guards in *;
    first [apply HE; intros [??]; destruct_and?; first [lia|congruence] | apply HQ; auto with lia].
Qed.

Lemma wp_htlc_gate (k : M database unit) (Q : unit -> database -> Prop) E db :
  (forall what, ~ htlc_enabled db -> E (protocol_error what) db) ->
  (htlc_enabled db -> wp k Q E db) ->
  wp (require_hardfork HIVE_HARDFORK_HTLC;; require_full_htlc_state;; k) Q E db.
Proof.
  intros HE HQ. unfold require_hardfork, require_full_htlc_state, htlc_enabled in *.
  repeat wp_step; autorewrite with guards in *;
    first [apply HE; intros [??]; destruct_and?; first [lia|congruence] | apply HQ; auto with lia].
Qed.

Lemma wp_validate {valid : Prop} (r : result unit) (k : M database unit)
  (Q : unit -> database -> Prop) E db :
  (forall x, r = Ret x <-> valid) -> throws_protocol r ->
  (forall what, ~ valid -> E (protocol_error what) db) -> (valid -> wp k Q E db) ->
  wp (lift r;; k) Q E db.
Proof.
  intros Hr Ht HE HQ. wp_step. apply wp_lift.
  - intros e ->. destruct (Ht _ eq_refl) as [what ->]. apply HE.
    intros Hv. by apply (Hr tt) in Hv.
  - intros a ->. apply HQ. by eapply Hr.
Qed.

Lemma account_exists_true db name :
  account_exists db name = true <-> is_Some (db.(balances) !! name).
Proof. apply bool_decide_eq_true. Qed.
Lemma account_exists_false db name :
  account_exists db name = false <-> db.(balances) !! name = None.
Proof. unfold account_exists. by rewrite bool_decide_eq_false, eq_None_not_Some. Qed.

#[export] Hint Rewrite account_exists_true account_exists_false : guards.

Definition charge (c : Z) : database -> database := upd_last_rc_charged (fun _ => c).
Definition log_virtual (name payload : string) : database -> database :=
  upd_pending_virtual_ops (fun l => l ++ [mk_virtual_op name payload]).

(** The final state of an evaluator that updated the object [H] found. *)
Ltac written_through H :=
  rewrite H; unfold log_virtual, upd_pending_virtual_ops; simpl;
  by rewrite (alter_some _ _ _ _ H).

(** *** Balances *)

(** The ledger after [field += delta] for one account. *)
Definition credit (name : string) (sym : asset_symbol) (delta : Z)
  : gmap string account_balance -> gmap string account_balance :=
  alter (fun b => set_balance_field b sym (balance_field b sym + delta)) name.

(** Adding [delta] to a balance is defined in [int64_t] arithmetic. *)
Definition credit_defined (db : database) (name : string) (delta : asset) : Prop :=
  INT64_MIN < delta.(amount) /\
  forall b, db.(balances) !! name = Some b ->
    0 <= balance_field b delta.(symbol) <= INT64_MAX /\
    balance_field b delta.(symbol) + delta.(amount) <= INT64_MAX.

Lemma wp_adjust_balance name delta (Q : unit -> database -> Prop) E db :
  credit_defined db name delta ->
  (db.(balances) !! name = None -> E (protocol_error "account missing") db) ->
  (forall b, db.(balances) !! name = Some b ->
    balance_field b delta.(symbol) + delta.(amount) < 0 ->
    E (protocol_error "insufficient balance") db) ->
  (forall b, db.(balances) !! name = Some b ->
    0 <= balance_field b delta.(symbol) + delta.(amount) ->
    Q tt (upd_balances (credit name delta.(symbol) delta.(amount)) db)) ->
  wp (adjust_balance name delta) Q E db.
Proof.
  intros [Hmin Hdef] HE1 HE2 HQ. unfold wp, adjust_balance.
  destruct (balances db !! name) as [b|] eqn:Hb; [|by apply HE1].
  destruct (Hdef b eq_refl) as [Hb1 Hb2].
  destruct (in_i64 (- amount delta)) eqn:H1.
  2: { apply not_true_iff_false in H1. destruct H1. apply in_i64_true.
       unfold INT64_MIN, INT64_MAX in *. destruct (Z.ltb_spec (amount delta) 0); try lia. }
  rewrite andb_false_r.
  destruct ((amount delta <? 0) && (balance_field b (symbol delta) <? - amount delta)) eqn:H2.
  { apply (HE2 b); [done|]. guards. lia. }
  assert (H3 : 0 <= balance_field b (symbol delta) + amount delta) by (guards; lia).
  rewrite (proj2 (in_i64_true _)) by (unfold INT64_MIN in *; lia). simpl.
  specialize (HQ b eq_refl H3).
  replace (upd_balances _ db) with (upd_balances (credit name (symbol delta) (amount delta)) db);
    [done|].
  unfold upd_balances, credit. f_equal. apply map_eq. intros i.
  rewrite lookup_insert. case_decide as Hi; subst.
  - by rewrite lookup_alter_eq, Hb.
  - by rewrite lookup_alter_ne.
Qed.

(** [charged_spec m pre post c s]: as [atomic_spec], except that a refusal may
    leave the RC figure [c] behind. *)
Definition charged_spec (m : M database unit) (pre : Prop) (post : database) (c : Z)
  (db : database) : Prop :=
  wp m (fun _ s' => pre /\ s' = post)
    (fun e s' => ~ pre /\ (s' = db \/ s' = charge c db) /\ is_protocol_error e) db.

Lemma charged_done m pre post c db db' :
  charged_spec m pre post c db -> m db = Done tt db' <-> pre /\ db' = post.
Proof.
  unfold charged_spec, wp. destruct (m db) as [[] s1|e s1|] eqn:E; naive_solver.
Qed.

Lemma atomic_charged m pre post c db :
  atomic_spec m pre post db -> charged_spec m pre post c db.
Proof. intros H. eapply wp_mono; [exact H| |]; naive_solver. Qed.

(** *** Counting open HTLCs *)

Definition open_from (from : string) (h : htlc_object) : Z :=
  if htlc_is_open_from from h then 1 else 0.
Definition open_count (from : string) (m : gmap Z htlc_object) : Z := map_sum (open_from from) m.

Lemma count_loop (p : htlc_object -> bool) (l : list (Z * htlc_object)) a :
  foldl (fun n kh => if p kh.2 then u32 (n + 1) else n) (u32 a) l =
  u32 (a + foldr (fun kh acc => (if p kh.2 then 1 else 0) + acc) 0 l).
Proof.
  revert a. induction l as [|kh l IH]; intros a; simpl; [f_equal; lia|].
  destruct (p kh.2).
  - replace (u32 (u32 a + 1)) with (u32 (a + 1)) by (symmetry; apply Z.add_mod_idemp_l; lia).
    rewrite IH. f_equal. lia.
  - rewrite IH. f_equal. 
Qed.

(** The loop of [open_htlc_count] counts, modulo the width of its counter. *)
Lemma open_htlc_count_spec db from :
  open_htlc_count db from = u32 (open_count from db.(htlcs)).
Proof.
  unfold open_htlc_count, open_count, map_sum. change 0 with (u32 0) at 1. rewrite count_loop.
  f_equal. rewrite map_fold_foldr, Z.add_0_l.
  trans (foldr (uncurry (fun (_ : Z) h acc => open_from from h + acc)) 0
           (elements_by_key (htlcs db))).
  - apply foldr_ext; [|done..]. by intros [k h] acc.
  - apply (foldr_permutation eq); [apply _..| |apply elements_by_key_permutation].
    intros ? [? ?] ? [? ?]. simpl. lia.
Qed.
