(* ===== verification/EvalNft.v ===== *)
(** * NFT evaluators ([src/chain/evaluators_nft.cpp])

    One definition per overload of [apply]. For each, [_pre] and [_post] are
    the abstract contract (when the operation is accepted, and the state it
    then leaves) and [_spec] is the refinement: the evaluator returns in the
    [_post] state exactly when [_pre] holds, and otherwise throws with the
    database untouched. *)
From S2P Require Import Prelude Types Crypto Protocol Costs Database.

Definition apply_nft_create_collection (op : nft_create_collection_operation) : M database unit :=
  require_hardfork HIVE_HARDFORK_NFT;;
  require_full_nft_state;;
  lift (validate_create_collection op);;
  db ← get;
  throw_if (negb (account_exists db op.(cc_creator))) "creator account missing";;
  throw_if (bool_decide (is_Some (db.(collection_by_symbol) !! op.(cc_symbol)))) "symbol taken";;
  modify (upd_last_rc_charged (fun _ => cost_nft_create_collection op));;
  id ← take_next next_collection_id upd_next_collection_id;
  let c := mk_nft_collection id op.(cc_creator) op.(cc_symbol) op.(cc_name)
             op.(cc_max_supply) 0 op.(cc_transferable) db.(head_time) in
  modify (upd_collections (<[c.(col_id) := c]>));;
  modify (upd_collection_by_symbol (<[c.(col_symbol) := c.(col_id)]>));;
  push_virtual "nft_collection_created"
    (json_object [("id", pretty c.(col_id)); ("symbol", quoted c.(col_symbol))]).

Definition apply_nft_mint (op : nft_mint_operation) : M database unit :=
  require_hardfork HIVE_HARDFORK_NFT;;
  require_full_nft_state;;
  lift (validate_mint op);;
  db ← get;
  throw_if (negb (account_exists db op.(mint_creator)) || negb (account_exists db op.(mint_to)))
    "account missing";;
  col ← find_or_throw (db.(collections) !! op.(mint_collection)) "unknown collection";
  throw_if (negb (bool_decide (col.(col_creator) = op.(mint_creator)))) "not collection creator";;
  throw_if (negb (col.(col_max_supply) =? 0) && (col.(col_max_supply) <=? col.(col_supply)))
    "max supply reached";;
  modify (upd_last_rc_charged (fun _ => cost_nft_mint op));;
  id ← take_next next_nft_id upd_next_nft_id;
  let n := mk_nft id op.(mint_collection) (u64 (col.(col_supply) + 1)) op.(mint_to) ""
             op.(mint_metadata_hash) op.(mint_uri)
             (op.(mint_soulbound) || negb col.(col_transferable)) db.(head_time) in
  modify (upd_nfts (<[n.(nft_id) := n]>));;
  modify (upd_collections (alter (fun c =>
    mk_nft_collection c.(col_id) c.(col_creator) c.(col_symbol) c.(col_name) c.(col_max_supply)
      (u64 (c.(col_supply) + 1)) c.(col_transferable) c.(col_created)) op.(mint_collection)));;
  push_virtual "nft_minted"
    (json_object [("nft_id", pretty n.(nft_id)); ("to", quoted n.(nft_owner))]).

Definition nft_set_owner (n : nft_object) (owner approved : string) : nft_object :=
  mk_nft n.(nft_id) n.(nft_collection) n.(nft_token_serial) owner approved
    n.(nft_metadata_hash) n.(nft_uri) n.(nft_soulbound) n.(nft_minted).

Definition apply_nft_transfer (op : nft_transfer_operation) : M database unit :=
  require_hardfork HIVE_HARDFORK_NFT;;
  require_full_nft_state;;
  lift (validate_transfer op);;
  db ← get;
  throw_if (negb (account_exists db op.(xfer_to))) "to missing";;
  n ← find_or_throw (db.(nfts) !! op.(xfer_nft_id)) "unknown nft";
  let is_owner := bool_decide (n.(nft_owner) = op.(xfer_from)) in
  let is_token_approved := bool_decide (n.(nft_approved) = op.(xfer_from)) in
  let is_op_all := is_operator_approved db n.(nft_owner) op.(xfer_from) n.(nft_collection) in
  throw_if (negb is_owner && negb is_token_approved && negb is_op_all)
    "not authorized to transfer";;
  throw_if n.(nft_soulbound) "soulbound";;
  modify (upd_last_rc_charged (fun _ => cost_nft_transfer op));;
  let prev_owner := n.(nft_owner) in
  modify (upd_nfts (alter (fun n => nft_set_owner n op.(xfer_to) "") op.(xfer_nft_id)));;
  push_virtual "nft_transferred"
    (json_object [("nft_id", pretty n.(nft_id)); ("from", quoted prev_owner);
                  ("to", quoted op.(xfer_to))]).

Definition apply_nft_approve (op : nft_approve_operation) : M database unit :=
  require_hardfork HIVE_HARDFORK_NFT;;
  require_full_nft_state;;
  lift (validate_approve op);;
  db ← get;
  n ← find_or_throw (db.(nfts) !! op.(appr_nft_id)) "unknown nft";
  throw_if (negb (bool_decide (n.(nft_owner) = op.(appr_owner)))) "not owner";;
  throw_if (negb (str_empty op.(appr_approved)) && negb (account_exists db op.(appr_approved)))
    "approved account missing";;
  modify (upd_last_rc_charged (fun _ => cost_nft_approve op));;
  modify (upd_nfts (alter (fun n => nft_set_owner n n.(nft_owner) op.(appr_approved))
                      op.(appr_nft_id)));;
  push_virtual "nft_approved"
    (json_object [("nft_id", pretty op.(appr_nft_id)); ("approved", quoted op.(appr_approved))]).

Definition apply_nft_set_approval_for_all (op : nft_set_approval_for_all_operation)
  : M database unit :=
  require_hardfork HIVE_HARDFORK_NFT;;
  require_full_nft_state;;
  lift (validate_set_approval_for_all op);;
  db ← get;
  throw_if (negb (account_exists db op.(afa_owner))
            || negb (account_exists db op.(afa_operator_account))) "account missing";;
  throw_if (negb (op.(afa_collection) =? 0)
            && negb (bool_decide (is_Some (db.(collections) !! op.(afa_collection)))))
    "unknown collection";;
  modify (upd_last_rc_charged (fun _ => cost_nft_set_approval_for_all op));;
  let key := (op.(afa_owner), op.(afa_operator_account), op.(afa_collection)) in
  (if negb op.(afa_approved) then modify (upd_operators (delete key))
   else modify (upd_operators (<[key := mk_nft_operator op.(afa_owner)
          op.(afa_operator_account) op.(afa_collection) true]>)));;
  push_virtual "nft_approval_for_all"
    (json_object [("owner", quoted op.(afa_owner)); ("operator", quoted op.(afa_operator_account));
                  ("collection", pretty op.(afa_collection));
                  ("approved", json_bool op.(afa_approved))]).

Definition apply_nft_burn (op : nft_burn_operation) : M database unit :=
  require_hardfork HIVE_HARDFORK_NFT;;
  require_full_nft_state;;
  lift (validate_burn op);;
  db ← get;
  n ← find_or_throw (db.(nfts) !! op.(burn_nft_id)) "unknown nft";
  throw_if (negb (bool_decide (n.(nft_owner) = op.(burn_owner)))) "not owner";;
  modify (upd_last_rc_charged (fun _ => cost_nft_burn op));;
  let collection := n.(nft_collection) in
  modify (upd_nfts (delete op.(burn_nft_id)));;
  modify (upd_collections (alter (fun c =>
    if 0 <? c.(col_supply)
    then mk_nft_collection c.(col_id) c.(col_creator) c.(col_symbol) c.(col_name)
           c.(col_max_supply) (c.(col_supply) - 1) c.(col_transferable) c.(col_created)
    else c) collection));;
  push_virtual "nft_burned"
    (json_object [("nft_id", pretty op.(burn_nft_id)); ("owner", quoted op.(burn_owner))]).

(** ** Contracts *)

Definition create_collection_pre (db : database) (op : nft_create_collection_operation) : Prop :=
  nft_enabled db /\ create_collection_valid op /\
  account_exists db op.(cc_creator) = true /\ db.(collection_by_symbol) !! op.(cc_symbol) = None.

Definition create_collection_post (db : database) (op : nft_create_collection_operation)
  : database :=
  let id := db.(next_collection_id) in
  log_virtual "nft_collection_created"
    (json_object [("id", pretty id); ("symbol", quoted op.(cc_symbol))])
  (upd_collection_by_symbol (<[op.(cc_symbol) := id]>)
  (upd_collections (<[id := mk_nft_collection id op.(cc_creator) op.(cc_symbol) op.(cc_name)
                              op.(cc_max_supply) 0 op.(cc_transferable) db.(head_time)]>)
  (upd_next_collection_id (fun n => u64 (n + 1))
  (charge (cost_nft_create_collection op) db)))).

Lemma create_collection_spec op db :
  atomic_spec (apply_nft_create_collection op) (create_collection_pre db op)
    (create_collection_post db op) db.
Proof.
  unfold atomic_spec, create_collection_pre.
  apply wp_nft_gate; [intros; refused|intros Hen].
  eapply wp_validate; [apply validate_create_collection_ret
    |apply (validate_throws_protocol 0 (op_nft_create_collection op))|intros; refused|intros Hv].
  unfold take_next, push_virtual.
  repeat wp_step.
  - refused.
  - refused.
  - split; [|done]. autorewrite with guards in *. rewrite <-eq_None_not_Some in *. done.
Qed.

Definition mint_pre (db : database) (op : nft_mint_operation) : Prop :=
  nft_enabled db /\ mint_valid op /\
  account_exists db op.(mint_creator) = true /\ account_exists db op.(mint_to) = true /\
  exists col, db.(collections) !! op.(mint_collection) = Some col /\
    col.(col_creator) = op.(mint_creator) /\
    (col.(col_max_supply) = 0 \/ col.(col_supply) < col.(col_max_supply)).

Definition set_supply (c : nft_collection_object) (supply : Z) : nft_collection_object :=
  mk_nft_collection c.(col_id) c.(col_creator) c.(col_symbol) c.(col_name) c.(col_max_supply)
    supply c.(col_transferable) c.(col_created).

Definition minted_nft (db : database) (op : nft_mint_operation) (col : nft_collection_object)
  : nft_object :=
  mk_nft db.(next_nft_id) op.(mint_collection) (u64 (col.(col_supply) + 1)) op.(mint_to) ""
    op.(mint_metadata_hash) op.(mint_uri) (op.(mint_soulbound) || negb col.(col_transferable))
    db.(head_time).

Definition mint_post (db : database) (op : nft_mint_operation) : database :=
  match db.(collections) !! op.(mint_collection) with
  | None => db
  | Some col =>
      log_virtual "nft_minted"
        (json_object [("nft_id", pretty db.(next_nft_id)); ("to", quoted op.(mint_to))])
      (upd_collections
         (<[op.(mint_collection) := set_supply col (u64 (col.(col_supply) + 1))]>)
      (upd_nfts (<[db.(next_nft_id) := minted_nft db op col]>)
      (upd_next_nft_id (fun n => u64 (n + 1))
      (charge (cost_nft_mint op) db))))
  end.

Lemma mint_spec op db :
  atomic_spec (apply_nft_mint op) (mint_pre db op) (mint_post db op) db.
Proof.
  unfold atomic_spec, mint_pre.
  apply wp_nft_gate; [intros; refused|intros Hen].
  eapply wp_validate; [apply validate_mint_ret
    |apply (validate_throws_protocol 0 (op_nft_mint op))|intros; refused|intros Hv].
  unfold take_next, push_virtual. repeat wp_step; try refused.
  split; [guards; split_and!; eauto|].
  unfold mint_post. written_through H0.
Qed.

(** Who may move an NFT: its owner, the account approved for it, or an
    operator approved for the collection or for all collections. *)
Definition may_transfer (db : database) (n : nft_object) (actor : string) : Prop :=
  n.(nft_owner) = actor \/ n.(nft_approved) = actor \/
  is_operator_approved db n.(nft_owner) actor n.(nft_collection) = true.

Definition transfer_pre (db : database) (op : nft_transfer_operation) : Prop :=
  nft_enabled db /\ transfer_valid op /\ account_exists db op.(xfer_to) = true /\
  exists n, db.(nfts) !! op.(xfer_nft_id) = Some n /\
    may_transfer db n op.(xfer_from) /\ n.(nft_soulbound) = false.

Definition transfer_post (db : database) (op : nft_transfer_operation) : database :=
  match db.(nfts) !! op.(xfer_nft_id) with
  | None => db
  | Some n =>
      log_virtual "nft_transferred"
        (json_object [("nft_id", pretty n.(nft_id)); ("from", quoted n.(nft_owner));
                      ("to", quoted op.(xfer_to))])
      (upd_nfts (<[op.(xfer_nft_id) := nft_set_owner n op.(xfer_to) ""]>)
      (charge (cost_nft_transfer op) db))
  end.

Lemma transfer_spec op db :
  atomic_spec (apply_nft_transfer op) (transfer_pre db op) (transfer_post db op) db.
Proof.
  unfold atomic_spec, transfer_pre, may_transfer.
  apply wp_nft_gate; [intros; refused|intros Hen].
  eapply wp_validate; [apply validate_transfer_ret
    |apply (validate_throws_protocol 0 (op_nft_transfer op))|intros; refused|intros Hv].
  unfold push_virtual. repeat wp_step; try refused.
  split.
  - guards. split_and!; try done. exists a. split; [done|]. tauto.
  - unfold transfer_post. written_through H0.
Qed.

Definition approve_pre (db : database) (op : nft_approve_operation) : Prop :=
  nft_enabled db /\ approve_valid op /\
  (op.(appr_approved) = "" \/ account_exists db op.(appr_approved) = true) /\
  exists n, db.(nfts) !! op.(appr_nft_id) = Some n /\ n.(nft_owner) = op.(appr_owner).

Definition approve_post (db : database) (op : nft_approve_operation) : database :=
  match db.(nfts) !! op.(appr_nft_id) with
  | None => db
  | Some n =>
      log_virtual "nft_approved"
        (json_object [("nft_id", pretty op.(appr_nft_id)); ("approved", quoted op.(appr_approved))])
      (upd_nfts (<[op.(appr_nft_id) := nft_set_owner n n.(nft_owner) op.(appr_approved)]>)
      (charge (cost_nft_approve op) db))
  end.

Lemma approve_spec op db :
  atomic_spec (apply_nft_approve op) (approve_pre db op) (approve_post db op) db.
Proof.
  unfold atomic_spec, approve_pre.
  apply wp_nft_gate; [intros; refused|intros Hen].
  eapply wp_validate; [apply validate_approve_ret
    |apply (validate_throws_protocol 0 (op_nft_approve op))|intros; refused|intros Hv].
  unfold push_virtual. repeat wp_step; try refused.
  split.
  - guards. split_and!; try done. by exists a.
  - unfold approve_post. written_through H.
Qed.

Definition set_approval_for_all_pre (db : database) (op : nft_set_approval_for_all_operation)
  : Prop :=
  nft_enabled db /\ set_approval_for_all_valid op /\
  account_exists db op.(afa_owner) = true /\ account_exists db op.(afa_operator_account) = true /\
  (op.(afa_collection) = 0 \/ is_Some (db.(collections) !! op.(afa_collection))).

Definition set_approval_for_all_post (db : database) (op : nft_set_approval_for_all_operation)
  : database :=
  let key := (op.(afa_owner), op.(afa_operator_account), op.(afa_collection)) in
  log_virtual "nft_approval_for_all"
    (json_object [("owner", quoted op.(afa_owner)); ("operator", quoted op.(afa_operator_account));
                  ("collection", pretty op.(afa_collection));
                  ("approved", json_bool op.(afa_approved))])
  (upd_operators (if op.(afa_approved)
     then <[key := mk_nft_operator op.(afa_owner) op.(afa_operator_account) op.(afa_collection) true]>
     else delete key)
  (charge (cost_nft_set_approval_for_all op) db)).

Lemma set_approval_for_all_spec op db :
  atomic_spec (apply_nft_set_approval_for_all op) (set_approval_for_all_pre db op)
    (set_approval_for_all_post db op) db.
Proof.
  unfold atomic_spec, set_approval_for_all_pre.
  apply wp_nft_gate; [intros; refused|intros Hen].
  eapply wp_validate; [apply validate_set_approval_for_all_ret
    |apply (validate_throws_protocol 0 (op_nft_set_approval_for_all op))|intros; refused|intros Hv].
  unfold push_virtual. repeat wp_step; try refused; unfold set_approval_for_all_post.
  - split; [guards; split_and!; tauto|]. by destruct (afa_approved op).
  - split; [guards; split_and!; tauto|]. by destruct (afa_approved op).
Qed.

Definition burn_pre (db : database) (op : nft_burn_operation) : Prop :=
  nft_enabled db /\ burn_valid op /\
  exists n, db.(nfts) !! op.(burn_nft_id) = Some n /\ n.(nft_owner) = op.(burn_owner).

Definition burn_supply (c : nft_collection_object) : nft_collection_object :=
  if 0 <? c.(col_supply) then set_supply c (c.(col_supply) - 1) else c.

Definition burn_post (db : database) (op : nft_burn_operation) : database :=
  match db.(nfts) !! op.(burn_nft_id) with
  | None => db
  | Some n =>
      log_virtual "nft_burned"
        (json_object [("nft_id", pretty op.(burn_nft_id)); ("owner", quoted op.(burn_owner))])
      (upd_collections (alter burn_supply n.(nft_collection))
      (upd_nfts (delete op.(burn_nft_id))
      (charge (cost_nft_burn op) db)))
  end.

Lemma burn_spec op db :
  atomic_spec (apply_nft_burn op) (burn_pre db op) (burn_post db op) db.
Proof.
  unfold atomic_spec, burn_pre.
  apply wp_nft_gate; [intros; refused|intros Hen].
  eapply wp_validate; [apply validate_burn_ret
    |apply (validate_throws_protocol 0 (op_nft_burn op))|intros; refused|intros Hv].
  unfold push_virtual. repeat wp_step; try refused.
  split; [guards; split_and!; eauto|].
  unfold burn_post. by rewrite H.
Qed.
