(* ===== verification/EvalHtlc.v ===== *)
(** * HTLC evaluators ([src/chain/evaluators_htlc.cpp])

    Create locks an amount out of [from]'s balance; redeem (by [to], before the
    expiration, with the preimage) or refund (by [from], from the expiration
    on) pays it out. As in [EvalNft], [_pre] and [_post] are the contract; a
    refusal after the RC charge leaves [last_rc_charged] changed. *)
From S2P Require Import Prelude Types Crypto Protocol Costs Database.

(** [-x] on an [int64_t]. *)
Definition neg_i64 (x : Z) : M database Z := if in_i64 (- x) then mret (- x) else undefined.

Definition htlc_set_status (h : htlc_object) (st : htlc_status) : htlc_object :=
  mk_htlc h.(htlc_id) h.(htlc_from) h.(htlc_to) h.(htlc_amount) h.(htlc_preimage_hash)
    h.(htlc_preimage_size) h.(htlc_expiration) h.(htlc_created) h.(htlc_memo) st.

Definition apply_htlc_create (op : htlc_create_operation) : M database unit :=
  require_hardfork HIVE_HARDFORK_HTLC;;
  require_full_htlc_state;;
  db ← get;
  lift (validate_htlc_create db.(head_time) op);;
  throw_if (negb (account_exists db op.(hc_from)) || negb (account_exists db op.(hc_to)))
    "account missing";;
  throw_if (HTLC_MAX_OPEN_PER_ACCOUNT <=? open_htlc_count db op.(hc_from)) "too many open htlcs";;
  modify (upd_last_rc_charged (fun _ => cost_htlc_create op));;
  neg ← neg_i64 op.(hc_amount).(amount);
  adjust_balance op.(hc_from) (mk_asset neg op.(hc_amount).(symbol));;
  id ← take_next next_htlc_id upd_next_htlc_id;
  let h := mk_htlc id op.(hc_from) op.(hc_to) op.(hc_amount) op.(hc_preimage_hash)
             op.(hc_preimage_size) op.(hc_expiration) db.(head_time) op.(hc_memo) open in
  modify (upd_htlcs (<[h.(htlc_id) := h]>));;
  push_virtual "htlc_created"
    (json_object [("htlc_id", pretty h.(htlc_id)); ("from", quoted h.(htlc_from));
                  ("to", quoted h.(htlc_to))]).

Definition apply_htlc_redeem (op : htlc_redeem_operation) : M database unit :=
  require_hardfork HIVE_HARDFORK_HTLC;;
  require_full_htlc_state;;
  lift (validate_htlc_redeem op);;
  db ← get;
  h ← find_or_throw (db.(htlcs) !! op.(hr_htlc_id)) "unknown htlc";
  throw_if (negb (bool_decide (h.(status) = open))) "htlc not open";;
  throw_if (negb (bool_decide (h.(htlc_to) = op.(hr_to)))) "redeem requires to authority";;
  throw_if (h.(htlc_expiration) <=? db.(head_time)) "htlc expired";;
  throw_if (negb (size_of op.(hr_preimage) =? h.(htlc_preimage_size))) "preimage size mismatch";;
  let dig := digest_of h.(htlc_preimage_hash).(algo) op.(hr_preimage) in
  throw_if (negb (constant_time_equal dig.(digest_bytes) h.(htlc_preimage_hash).(digest_bytes)))
    "preimage hash mismatch";;
  modify (upd_last_rc_charged (fun _ => cost_htlc_redeem op));;
  adjust_balance h.(htlc_to) h.(htlc_amount);;
  modify (upd_htlcs (alter (fun h => htlc_set_status h redeemed) op.(hr_htlc_id)));;
  push_virtual "htlc_redeemed"
    (json_object [("htlc_id", pretty h.(htlc_id)); ("to", quoted h.(htlc_to))]).

Definition apply_htlc_refund (op : htlc_refund_operation) : M database unit :=
  require_hardfork HIVE_HARDFORK_HTLC;;
  require_full_htlc_state;;
  lift (validate_htlc_refund op);;
  db ← get;
  h ← find_or_throw (db.(htlcs) !! op.(hf_htlc_id)) "unknown htlc";
  throw_if (negb (bool_decide (h.(status) = open))) "htlc not open";;
  throw_if (negb (bool_decide (h.(htlc_from) = op.(hf_from)))) "refund requires from authority";;
  throw_if (db.(head_time) <? h.(htlc_expiration)) "htlc not yet expired";;
  modify (upd_last_rc_charged (fun _ => cost_htlc_refund op));;
  adjust_balance h.(htlc_from) h.(htlc_amount);;
  modify (upd_htlcs (alter (fun h => htlc_set_status h refunded) op.(hf_htlc_id)));;
  push_virtual "htlc_refunded"
    (json_object [("htlc_id", pretty h.(htlc_id)); ("from", quoted h.(htlc_from))]).

(** ** Contracts *)

Definition htlc_create_pre (db : database) (op : htlc_create_operation) : Prop :=
  htlc_enabled db /\ htlc_create_valid db.(head_time) op /\
  account_exists db op.(hc_to) = true /\
  open_htlc_count db op.(hc_from) < HTLC_MAX_OPEN_PER_ACCOUNT /\
  exists b, db.(balances) !! op.(hc_from) = Some b /\
    op.(hc_amount).(amount) <= balance_field b op.(hc_amount).(symbol).

Definition created_htlc (db : database) (op : htlc_create_operation) : htlc_object :=
  mk_htlc db.(next_htlc_id) op.(hc_from) op.(hc_to) op.(hc_amount) op.(hc_preimage_hash)
    op.(hc_preimage_size) op.(hc_expiration) db.(head_time) op.(hc_memo) open.

Definition htlc_create_post (db : database) (op : htlc_create_operation) : database :=
  log_virtual "htlc_created"
    (json_object [("htlc_id", pretty db.(next_htlc_id)); ("from", quoted op.(hc_from));
                  ("to", quoted op.(hc_to))])
  (upd_htlcs (<[db.(next_htlc_id) := created_htlc db op]>)
  (upd_next_htlc_id (fun n => u64 (n + 1))
  (upd_balances (credit op.(hc_from) op.(hc_amount).(symbol) (- op.(hc_amount).(amount)))
  (charge (cost_htlc_create op) db)))).

(** The sender's balance is an [int64_t] and not negative. *)
Definition balance_in_range (db : database) (name : string) (sym : asset_symbol) : Prop :=
  forall b, db.(balances) !! name = Some b -> 0 <= balance_field b sym <= INT64_MAX.

Lemma htlc_create_spec op db :
  balance_in_range db op.(hc_from) op.(hc_amount).(symbol) ->
  op.(hc_amount).(amount) <= INT64_MAX ->
  charged_spec (apply_htlc_create op) (htlc_create_pre db op) (htlc_create_post db op)
    (cost_htlc_create op) db.
Proof.
  intros Hbal Hamt. unfold charged_spec, htlc_create_pre.
  apply wp_htlc_gate; [intros; refused|intros Hen]. wp_step. wp_step.
  eapply wp_validate; [apply validate_htlc_create_ret
    |apply (validate_throws_protocol (head_time db) (op_htlc_create op))
    |intros; refused|intros Hv].
  assert (Hpos : 0 < amount (hc_amount op)) by apply Hv.
  assert (Hneg : neg_i64 (amount (hc_amount op)) = mret (- amount (hc_amount op))).
  { unfold neg_i64. rewrite (proj2 (in_i64_true _)); [done|]. unfold INT64_MIN, INT64_MAX in *. lia. }
  unfold take_next, push_virtual. rewrite Hneg. repeat wp_step.
  - refused.
  - refused.
  - apply wp_adjust_balance; simpl; unfold charge.
    + split; simpl; [unfold INT64_MIN, INT64_MAX in *; lia|].
      intros b Hb. specialize (Hbal b Hb). lia.
    + refused.
    + intros b Hb Hlt. refused.
    + intros b Hb Hge. repeat wp_step. split; [|done].
      guards. split_and!; try done. exists b. split; [done|lia].
Qed.

Definition htlc_redeem_pre (db : database) (op : htlc_redeem_operation) : Prop :=
  htlc_enabled db /\ htlc_redeem_valid op /\ account_exists db op.(hr_to) = true /\
  exists h, db.(htlcs) !! op.(hr_htlc_id) = Some h /\
    h.(status) = open /\ h.(htlc_to) = op.(hr_to) /\ db.(head_time) < h.(htlc_expiration) /\
    size_of op.(hr_preimage) = h.(htlc_preimage_size) /\
    digest_of h.(htlc_preimage_hash).(algo) op.(hr_preimage) = h.(htlc_preimage_hash).

Definition htlc_redeem_post (db : database) (op : htlc_redeem_operation) : database :=
  match db.(htlcs) !! op.(hr_htlc_id) with
  | None => db
  | Some h =>
      log_virtual "htlc_redeemed"
        (json_object [("htlc_id", pretty h.(htlc_id)); ("to", quoted h.(htlc_to))])
      (upd_htlcs (<[op.(hr_htlc_id) := htlc_set_status h redeemed]>)
      (upd_balances (credit h.(htlc_to) h.(htlc_amount).(symbol) h.(htlc_amount).(amount))
      (charge (cost_htlc_redeem op) db)))
  end.

(** Paying [h] out to [name] stays within [int64_t]. *)
Definition payout_defined (db : database) (id : Z) (who : htlc_object -> string) : Prop :=
  forall h, db.(htlcs) !! id = Some h -> h.(status) = open ->
    0 <= h.(htlc_amount).(amount) /\ credit_defined db (who h) h.(htlc_amount).

Lemma preimage_matches d p :
  constant_time_equal (digest_bytes (digest_of d.(algo) p)) d.(digest_bytes) = true <->
  digest_of d.(algo) p = d.
Proof. rewrite constant_time_equal_true. destruct d as [a bs]. simpl. unfold digest_of. naive_solver. Qed.
Lemma preimage_differs d p :
  constant_time_equal (digest_bytes (digest_of d.(algo) p)) d.(digest_bytes) = false <->
  digest_of d.(algo) p <> d.
Proof. by rewrite <-not_true_iff_false, preimage_matches. Qed.
#[local] Hint Rewrite preimage_matches preimage_differs : guards.

(** The payment of a close operation: both outcomes of [adjust_balance]. *)
Lemma wp_payout name a (Q : unit -> database -> Prop) E db :
  0 <= a.(amount) -> credit_defined db name a ->
  (db.(balances) !! name = None -> E (protocol_error "account missing") db) ->
  (is_Some (db.(balances) !! name) -> Q tt (upd_balances (credit name a.(symbol) a.(amount)) db)) ->
  wp (adjust_balance name a) Q E db.
Proof.
  intros Hnn Hdef HE HQ. apply wp_adjust_balance; [done|done| |].
  - intros b Hb Hlt. destruct Hdef as [_ Hdef]. specialize (Hdef b Hb). lia.
  - intros b Hb _. apply HQ. by eexists.
Qed.

Lemma htlc_redeem_spec op db :
  payout_defined db op.(hr_htlc_id) htlc_to ->
  charged_spec (apply_htlc_redeem op) (htlc_redeem_pre db op) (htlc_redeem_post db op)
    (cost_htlc_redeem op) db.
Proof.
  intros Hpay. unfold charged_spec, htlc_redeem_pre.
  apply wp_htlc_gate; [intros; refused|intros Hen].
  eapply wp_validate; [apply validate_htlc_redeem_ret
    |apply (validate_throws_protocol 0 (op_htlc_redeem op))|intros; refused|intros Hv].
  unfold push_virtual. repeat wp_step; try refused.
  assert (Hop : status a = open) by (clear -H0; guards; done).
  destruct (Hpay _ H Hop) as [Hnn Hdef]. unfold charge.
  apply wp_payout; [done|done|intros Hto; simpl in Hto; refused|intros Hto; simpl in Hto].
  repeat wp_step. split.
  - guards. split_and!; try done; [congruence|]. by exists a.
  - unfold htlc_redeem_post. written_through H.
Qed.

Definition htlc_refund_pre (db : database) (op : htlc_refund_operation) : Prop :=
  htlc_enabled db /\ htlc_refund_valid op /\ account_exists db op.(hf_from) = true /\
  exists h, db.(htlcs) !! op.(hf_htlc_id) = Some h /\
    h.(status) = open /\ h.(htlc_from) = op.(hf_from) /\ h.(htlc_expiration) <= db.(head_time).

Definition htlc_refund_post (db : database) (op : htlc_refund_operation) : database :=
  match db.(htlcs) !! op.(hf_htlc_id) with
  | None => db
  | Some h =>
      log_virtual "htlc_refunded"
        (json_object [("htlc_id", pretty h.(htlc_id)); ("from", quoted h.(htlc_from))])
      (upd_htlcs (<[op.(hf_htlc_id) := htlc_set_status h refunded]>)
      (upd_balances (credit h.(htlc_from) h.(htlc_amount).(symbol) h.(htlc_amount).(amount))
      (charge (cost_htlc_refund op) db)))
  end.

Lemma htlc_refund_spec op db :
  payout_defined db op.(hf_htlc_id) htlc_from ->
  charged_spec (apply_htlc_refund op) (htlc_refund_pre db op) (htlc_refund_post db op)
    (cost_htlc_refund op) db.
Proof.
  intros Hpay. unfold charged_spec, htlc_refund_pre.
  apply wp_htlc_gate; [intros; refused|intros Hen].
  eapply wp_validate; [apply validate_htlc_refund_ret
    |apply (validate_throws_protocol 0 (op_htlc_refund op))|intros; refused|intros Hv].
  unfold push_virtual. repeat wp_step; try refused.
  assert (Hop : status a = open) by (clear -H0; guards; done).
  destruct (Hpay _ H Hop) as [Hnn Hdef]. unfold charge.
  apply wp_payout; [done|done|intros Hto; simpl in Hto; refused|intros Hto; simpl in Hto].
  repeat wp_step. split.
  - guards. split_and!; try done; [congruence|]. by exists a.
  - unfold htlc_refund_post. written_through H.
Qed.
