(* ===== verification/Engine.v ===== *)
(** * Contract engines ([include/hive_native/contracts/engine.hpp], [src/contracts/engine.cpp])

    The abstract class [engine] is a record of its methods, with the promises
    its clients rely on as the class [EngineLaws]; [null_engine] is the
    deterministic meter-only engine, with its instance. A method may throw
    (the null engine parses a number with [std::stoull]), hence [result]. *)
From Stdlib Require Import Ascii.
From S2P Require Import Prelude Types.

(** ** Interface *)

Record host_limits : Type := mk_host_limits {
  fuel : Z; max_memory_bytes : Z; max_storage_key : Z; max_storage_value : Z;
  max_storage_total : Z }.

(** [host_limits lim; lim.fuel = f;] *)
Definition limits_with_fuel (f : Z) : host_limits :=
  mk_host_limits f (4 * 1024 * 1024) 256 4096 (64 * 1024).

Record call_result : Type := mk_call_result {
  success : bool; fuel_used : Z; error : string;
  storage_writes : gmap string (list byte); denied_hosts : list string }.

Definition empty_call_result : call_result := mk_call_result false 0 "" ∅ [].

Record engine : Type := mk_engine {
  engine_name : string;
  deploy_and_init : list byte -> list byte -> host_limits -> result call_result;
  call : list byte -> string -> list byte -> gmap string (list byte) -> host_limits ->
         string -> result call_result }.

(** A run within its limits: the fuel reported is within the fuel given, a
    failed run stages no write, and every staged write is within the size caps. *)
Definition within_limits (lim : host_limits) (r : call_result) : Prop :=
  0 <= r.(fuel_used) <= lim.(fuel) /\
  (r.(success) = false -> r.(storage_writes) = ∅) /\
  map_Forall (fun k v => str_size k <= lim.(max_storage_key) /\
                         size_of v <= lim.(max_storage_value)) r.(storage_writes).

Class EngineLaws (e : engine) : Prop := {
  deploy_within_limits code args lim r :
    0 <= lim.(fuel) < 2 ^ 64 -> e.(deploy_and_init) code args lim = Ret r -> within_limits lim r;
  call_within_limits code export args storage lim caller r :
    0 <= lim.(fuel) < 2 ^ 64 -> e.(call) code export args storage lim caller = Ret r ->
    within_limits lim r }.

(** ** Host functions *)

(** The enumerators, and any other value of the underlying type. *)
Inductive host_fn : Type :=
| read_storage | write_storage | remove_storage | get_caller | get_contract_id
| get_block_time | host_get_balance | sha256_host | log_msg | abort_call
| transfer | net | fs | random | wall_clock
| raw_host_fn (v : Z).

Definition host_allowed (f : host_fn) : bool :=
  match f with
  | transfer | net | fs | random | wall_clock => false
  | _ => true
  end.

Definition host_fuel_weight (f : host_fn) (bytes : Z) : Z :=
  match f with
  | read_storage => u64 (50 + bytes)
  | write_storage => u64 (200 + u64 (bytes * 2))
  | remove_storage => 80
  | get_caller | get_contract_id | get_block_time => 10
  | host_get_balance => 40
  | sha256_host => u64 (30 + bytes)
  | log_msg => u64 (20 + bytes)
  | abort_call => 1
  | _ => 1000000
  end.

(** ** [std::stoull] *)

Definition is_space (c : ascii) : bool :=
  (char_val c =? 32) || ((9 <=? char_val c) && (char_val c <=? 13)).
Definition is_digit (c : ascii) : bool :=
  (char_val "0" <=? char_val c) && (char_val c <=? char_val "9").

Fixpoint skip_spaces (s : string) : string :=
  match s with
  | String c s' => if is_space c then skip_spaces s' else s
  | EmptyString => s
  end.

(** The value of the longest prefix of digits. *)
Fixpoint read_digits (acc : Z) (s : string) : Z :=
  match s with
  | String c s' => if is_digit c then read_digits (10 * acc + (char_val c - char_val "0")) s' else acc
  | EmptyString => acc
  end.

(** Leading white space, an optional sign, digits; what follows is ignored. No
    digit is [std::invalid_argument], a magnitude over 64 bits is
    [std::out_of_range], and a minus sign negates in [unsigned long long]. *)
Definition stoull (s : string) : result Z :=
  let s := skip_spaces s in
  let '(neg, s) := match s with
                   | String "-" s' => (true, s')
                   | String "+" s' => (false, s')
                   | _ => (false, s)
                   end in
  match s with
  | String c _ =>
      if is_digit c then
        let v := read_digits 0 s in
        if 2 ^ 64 <=? v then Throw std_out_of_range else Ret (if neg : bool then u64 (- v) else v)
      else Throw std_invalid_argument
  | EmptyString => Throw std_invalid_argument
  end.

(** ** The null engine *)

Definition set_error (r : call_result) (what : string) : call_result :=
  mk_call_result r.(success) r.(fuel_used) what r.(storage_writes) r.(denied_hosts).
Definition set_success (r : call_result) : call_result :=
  mk_call_result true r.(fuel_used) r.(error) r.(storage_writes) r.(denied_hosts).

(** [r.fuel_used + amount] is a [uint64_t] sum. *)
Definition burn (r : call_result) (lim : host_limits) (amount : Z) : bool * call_result :=
  if lim.(fuel) <? u64 (r.(fuel_used) + amount)
  then (false, mk_call_result false lim.(fuel) "out of fuel" r.(storage_writes) r.(denied_hosts))
  else (true, mk_call_result r.(success) (u64 (r.(fuel_used) + amount)) r.(error)
                r.(storage_writes) r.(denied_hosts)).

Definition null_deploy_and_init (code : list byte) (_ : list byte) (limits : host_limits)
  : result call_result :=
  let r := empty_call_result in
  if size_of code =? 0 then Ret (set_error r "empty code") else
  let '(ok, r) := burn r limits (u64 (100 + size_of code / 64)) in
  if negb ok then Ret r else Ret (set_success r).

(** [cmd.rfind(p, 0) == 0] and [cmd.substr(strlen(p))]. *)
Definition starts_with (p cmd : string) : bool := String.prefix p cmd.
Definition substr_from (n : nat) (s : string) : string := String.substring n (String.length s) s.

Definition null_call (code : list byte) (export_name : string) (args : list byte)
  (storage : gmap string (list byte)) (limits : host_limits) (caller : string)
  : result call_result :=
  let r := empty_call_result in
  if size_of code =? 0 then Ret (set_error r "empty code") else
  if str_empty export_name then Ret (set_error r "empty export") else
  let '(ok, r) := burn r limits 50 in
  if negb ok then Ret r else
  let cmd := bytes_string args in
  if str_empty cmd || String.eqb cmd "OK" then Ret (set_success r) else
  if starts_with "BURN:" cmd then
    n ← stoull (substr_from 5 cmd);
    let '(ok, r) := burn r limits n in
    if negb ok then Ret r else Ret (set_success r)
  else if starts_with "DENY:" cmd then
    let which := substr_from 5 cmd in
    if String.eqb which "transfer" && negb (host_allowed transfer) then
      Ret (mk_call_result false r.(fuel_used) "host function denied: transfer"
             r.(storage_writes) (r.(denied_hosts) ++ ["transfer"]))
    else Ret (set_error r "unknown deny target")
  else if starts_with "WRITE:" cmd then
    let rest := substr_from 6 cmd in
    match String.index 0 ":" rest with
    | None => Ret (set_error r "bad WRITE")
    | Some pos =>
        let key := String.substring 0 pos rest in
        let val := substr_from (pos + 1) rest in
        if (limits.(max_storage_key) <? str_size key)
           || (limits.(max_storage_value) <? str_size val)
        then Ret (set_error r "storage size limit") else
        let '(ok, r) := burn r limits (host_fuel_weight write_storage (str_size val)) in
        if negb ok then Ret r else
        Ret (set_success (mk_call_result r.(success) r.(fuel_used) r.(error)
               (<[key := string_bytes val]> r.(storage_writes)) r.(denied_hosts)))
    end
  else if starts_with "READ:" cmd then
    let '(ok, r) := burn r limits (host_fuel_weight read_storage 0) in
    if negb ok then Ret r else Ret (set_success r)
  else
    let '(ok, r) := burn r limits (u64 (20 + size_of args)) in
    if negb ok then Ret r else Ret (set_success r).

Definition null_engine : engine := mk_engine "null" null_deploy_and_init null_call.

Definition default_engine : engine := null_engine.

(** ** The null engine keeps its promises *)

Lemma burn_within r lim n ok r' :
  0 <= lim.(fuel) -> burn r lim n = (ok, r') ->
  0 <= r'.(fuel_used) <= lim.(fuel) /\ r'.(storage_writes) = r.(storage_writes) /\
  (ok = true -> r'.(success) = r.(success)).
Proof.
  intros Hf. unfold burn. pose proof (u64_range (r.(fuel_used) + n)).
  destruct (Z.ltb_spec (fuel lim) (u64 (fuel_used r + n))); intros [= <- <-]; simpl;
    split_and!; lia || done.
Qed.

Lemma within_no_write lim r :
  0 <= r.(fuel_used) <= lim.(fuel) -> r.(storage_writes) = ∅ -> within_limits lim r.
Proof. intros Hf Hw. split; [done|]. rewrite Hw. split; [done|apply map_Forall_empty]. Qed.

Lemma string_bytes_size s : size_of (string_bytes s) = str_size s.
Proof.
  unfold size_of, str_size, string_bytes, String.list_byte_of_string.
  rewrite length_map. f_equal. induction s; simpl; congruence.
Qed.

#[export] Instance null_engine_laws : EngineLaws null_engine.
Proof.
  split.
  - intros code args lim r Hf. simpl. unfold null_deploy_and_init.
    case_match; [intros [= <-]; by apply within_no_write; simpl; [lia|]|].
    destruct (burn _ _ _) as [ok r1] eqn:E. apply burn_within in E as (H1 & H2 & _); [|lia].
    destruct ok; intros [= <-]; by apply within_no_write.
  - intros code export args storage lim caller r Hf. simpl. unfold null_call.
    case_match; [intros [= <-]; by apply within_no_write; simpl; [lia|]|].
    case_match; [intros [= <-]; by apply within_no_write; simpl; [lia|]|].
    destruct (burn _ _ 50) as [ok r1] eqn:E. apply burn_within in E as (H1 & H2 & _); [|lia].
    simpl in H2.
    assert (Hburn : forall n r',
      (let '(ok, r) := burn r1 lim n in if negb ok then Ret r else Ret (set_success r)) = Ret r' ->
      within_limits lim r').
    { intros n r'. destruct (burn r1 lim n) as [ok2 r2] eqn:E2.
      apply burn_within in E2 as (H3 & H4 & _); [|lia].
      destruct ok2; intros [= <-]; apply within_no_write; simpl; congruence. }
    destruct ok; simpl; [|intros [= <-]; by apply within_no_write].
    case_match; [intros [= <-]; by apply within_no_write|].
    case_match; [destruct (stoull _); simpl; [apply Hburn|discriminate]|].
    case_match; [case_match; intros [= <-]; by apply within_no_write|].
    case_match; [|case_match; apply Hburn].
    destruct (String.index _ _ _) as [pos|]; [|intros [= <-]; by apply within_no_write].
    case_match; [intros [= <-]; by apply within_no_write|].
    destruct (burn r1 lim _) as [ok2 r2] eqn:E2.
    apply burn_within in E2 as (Hf2 & Hw2 & _); [|lia].
    destruct ok2; intros [= <-]; [|apply within_no_write; congruence].
    split; [done|]. split; [done|]. simpl. rewrite Hw2, H2.
    apply map_Forall_insert; [done|]. guards.
    split; [|apply map_Forall_empty]. rewrite string_bytes_size. lia.
Qed.

(** ** Properties *)

(** The engine the node links keeps the promises its clients rely on: over
    deploys and calls with any code, export, arguments and storage, the fuel it
    reports is within the limit it was given, a failed run stages no write, and
    every staged write is within the storage key and value caps. *)
Theorem default_engine_within_limits :
  (forall code args lim r, 0 <= lim.(fuel) < 2 ^ 64 ->
     default_engine.(deploy_and_init) code args lim = Ret r -> within_limits lim r) /\
  (forall code export args storage lim caller r, 0 <= lim.(fuel) < 2 ^ 64 ->
     default_engine.(call) code export args storage lim caller = Ret r -> within_limits lim r).
Proof. split; [apply (deploy_within_limits (e := null_engine))|apply (call_within_limits (e := null_engine))]. Qed.

(** The meter can be bypassed: [burn] adds before it compares, in 64 bits,
    so a contract call may declare a burn of almost [2^64] units, succeed under
    a limit of 50, and be reported (and charged) one unit less than the base
    fuel of a call. *)
Theorem burn_wraps_around :
  exists args r, default_engine.(call) [x00] "run" args ∅ (limits_with_fuel 50) "bob" = Ret r /\
    args = string_bytes "BURN:18446744073709551615" /\
    r.(success) = true /\ r.(fuel_used) = 49.
Proof. eexists _, _. split_and!; [|reflexivity|..]; vm_compute; reflexivity. Qed.

(** Arguments choose the exception: [BURN:] followed by no number, or by one
    over 64 bits, leaves the engine as a [std::] exception instead of a failed
    [call_result], whatever the limits. *)
Theorem burn_argument_throws (code : list byte) (export_name caller : string)
  (storage : gmap string (list byte)) (lim : host_limits) :
  code <> [] -> export_name <> "" -> 50 <= lim.(fuel) < 2 ^ 64 ->
  default_engine.(call) code export_name (string_bytes "BURN:x") storage lim caller
    = Throw std_invalid_argument /\
  default_engine.(call) code export_name (string_bytes "BURN:18446744073709551616") storage lim caller
    = Throw std_out_of_range.
Proof.
  intros Hc He Hf. unfold default_engine, null_engine. cbn [call]. unfold null_call.
  destruct (Z.eqb_spec (size_of code) 0) as [E|E]; [by apply size_of_zero in E|].
  rewrite (proj2 (str_empty_false export_name) He). unfold burn. cbn [fuel_used empty_call_result].
  rewrite u64_small by lia. change (0 + 50) with 50.
  rewrite (proj2 (Z.ltb_ge (fuel lim) 50)) by lia. split; reflexivity.
Qed.

Example burn_argument_throws_witness :
  default_engine.(call) [x00] "run" (string_bytes "BURN:x") ∅ (limits_with_fuel 1000) "bob"
    = Throw std_invalid_argument.
Proof.
  exact (proj1 (burn_argument_throws [x00] "run" "bob" ∅ (limits_with_fuel 1000)
    ltac:(discriminate) ltac:(discriminate) ltac:(vm_compute; split; congruence))).
Defined.
