(* ===== verification/EvalContracts.v ===== *)
(** * Contract evaluators ([src/chain/evaluators_contracts.cpp])

    Deploy and call, over any engine; [apply_contract_deploy] and
    [apply_contract_call] are the two overloads of [apply], which use
    [default_engine]. *)
From S2P Require Import Prelude Types Crypto Protocol Costs Database Engine.

Definition contracts_skipped (db : database) : bool :=
  db.(config).(contracts_skip) && negb db.(config).(is_consensus_node).

(** [db.contract_storage[id]]: a reference to the entry, created when missing. *)
Definition touch_storage (id : Z) (m : gmap Z (gmap string (list byte)))
  : gmap Z (gmap string (list byte)) :=
  match m !! id with Some _ => m | None => <[id := ∅]> m end.
Definition storage_of (db : database) (id : Z) : gmap string (list byte) :=
  default ∅ (db.(contract_storage) !! id).

(** [for(const auto& [k, v] : writes) storage[k] = v;] *)
Definition commit_writes (writes storage : gmap string (list byte)) : gmap string (list byte) :=
  map_fold (fun k v s => <[k := v]> s) storage writes.

Definition throw {S A} (e : exn) : M S A := fun s => Thrown e s.

Definition called_payload (id : Z) (ok : bool) (f : Z) : string :=
  json_object [("contract_id", pretty id); ("success", json_bool ok); ("fuel", pretty f)].

Section evaluators.
Context (eng : engine).

Definition apply_contract_deploy_with (op : contract_deploy_operation) : M database unit :=
  require_hardfork HIVE_HARDFORK_CONTRACTS;;
  db ← get;
  throw_if (contracts_skipped db) "contracts skipped";;
  lift (validate_contract_deploy op);;
  throw_if (negb (account_exists db op.(cd_owner))) "account missing";;
  let lim := limits_with_fuel op.(cd_fuel_limit) in
  res ← lift (eng.(deploy_and_init) op.(cd_code) op.(cd_init_args) lim);
  throw_if (negb res.(success)) (if str_empty res.(error) then "deploy failed" else res.(error));;
  modify (upd_last_rc_charged (fun _ => cost_contract_deploy op));;
  id ← take_next next_contract_id upd_next_contract_id;
  let c := mk_contract id op.(cd_owner) (sha256 op.(cd_code)) op.(cd_code) db.(head_time) in
  modify (upd_contracts (<[c.(ctr_id) := c]>));;
  modify (upd_contract_storage (<[c.(ctr_id) := ∅]>));;
  push_virtual "contract_deployed"
    (json_object [("contract_id", pretty c.(ctr_id)); ("owner", quoted c.(ctr_owner))]).

Definition apply_contract_call_with (op : contract_call_operation) : M database unit :=
  require_hardfork HIVE_HARDFORK_CONTRACTS;;
  db ← get;
  throw_if (contracts_skipped db) "contracts skipped";;
  lift (validate_contract_call op);;
  throw_if (negb (account_exists db op.(call_caller))) "account missing";;
  c ← find_or_throw (db.(contracts) !! op.(call_contract_id)) "unknown contract";
  let lim := limits_with_fuel op.(call_fuel_limit) in
  modify (upd_contract_storage (touch_storage op.(call_contract_id)));;
  storage ← gets (fun db => storage_of db op.(call_contract_id));
  res ← lift (eng.(call) c.(ctr_code) op.(call_export_name) op.(call_args) storage lim
                op.(call_caller));
  modify (upd_last_rc_charged (fun _ => cost_contract_call op res.(fuel_used)));;
  if negb res.(success) then
    push_virtual "contract_called" (called_payload op.(call_contract_id) false res.(fuel_used));;
    throw (protocol_error (if str_empty res.(error) then "call failed" else res.(error)))
  else
    modify (upd_contract_storage
              (alter (commit_writes res.(storage_writes)) op.(call_contract_id)));;
    push_virtual "contract_called" (called_payload op.(call_contract_id) true res.(fuel_used)).

End evaluators.

Definition apply_contract_deploy : contract_deploy_operation -> M database unit :=
  apply_contract_deploy_with default_engine.
Definition apply_contract_call : contract_call_operation -> M database unit :=
  apply_contract_call_with default_engine.

(** ** Contracts *)

Definition contracts_enabled (db : database) : Prop :=
  HIVE_HARDFORK_CONTRACTS <= db.(config).(hardfork) /\ contracts_skipped db = false.

(** The writes win over what the storage held. *)
Lemma commit_writes_union writes storage : commit_writes writes storage = writes ∪ storage.
Proof.
  unfold commit_writes. induction writes as [|k v m Hk IH] using map_ind.
  - by rewrite map_fold_empty, map_empty_union.
  - rewrite map_fold_insert_L; [|intros; by apply insert_insert_ne|done].
    by rewrite IH, insert_union_l.
Qed.

Lemma touch_storage_lookup id m : touch_storage id m !! id = Some (default ∅ (m !! id)).
Proof.
  unfold touch_storage. destruct (m !! id) eqn:E; [done|]. by rewrite lookup_insert_eq.
Qed.
Lemma touch_storage_ne id id' m : id <> id' -> touch_storage id m !! id' = m !! id'.
Proof. intros H. unfold touch_storage. destruct (m !! id); [done|]. by rewrite lookup_insert_ne. Qed.

Section contracts.
Context (eng : engine).

Definition deploy_pre (db : database) (op : contract_deploy_operation) : Prop :=
  contracts_enabled db /\ contract_deploy_valid op /\ account_exists db op.(cd_owner) = true /\
  exists r, eng.(deploy_and_init) op.(cd_code) op.(cd_init_args)
              (limits_with_fuel op.(cd_fuel_limit)) = Ret r /\ r.(success) = true.

Definition deploy_post (db : database) (op : contract_deploy_operation) : database :=
  let id := db.(next_contract_id) in
  log_virtual "contract_deployed"
    (json_object [("contract_id", pretty id); ("owner", quoted op.(cd_owner))])
  (upd_contract_storage (<[id := ∅]>)
  (upd_contracts (<[id := mk_contract id op.(cd_owner) (sha256 op.(cd_code)) op.(cd_code)
                            db.(head_time)]>)
  (upd_next_contract_id (fun n => u64 (n + 1))
  (charge (cost_contract_deploy op) db)))).

Ltac refused' := split; [intros Hpre; unfold contracts_enabled in *; guards; split_hyps;
                         first [congruence|lia|naive_solver]|done].

Lemma deploy_spec op db :
  wp (apply_contract_deploy_with eng op)
    (fun _ db' => deploy_pre db op /\ db' = deploy_post db op)
    (fun _ db' => ~ deploy_pre db op /\ db' = db) db.
Proof.
  unfold apply_contract_deploy_with, deploy_pre, require_hardfork, take_next, push_virtual.
  wp_step. wp_step. wp_step. wp_step; [refused'|]. do 4 wp_step; [refused'|].
  eapply wp_validate; [apply validate_contract_deploy_ret
    |apply (validate_throws_protocol 0 (op_contract_deploy op))|intros; refused'|intros Hv].
  repeat wp_step; try refused'.
  unfold contracts_enabled. guards. split; [|done].
  split_and!; try done. by eexists.
Qed.

(** Every check before the engine runs passes, for the contract [c]. *)
Definition call_ready (db : database) (op : contract_call_operation) (c : contract_object) : Prop :=
  contracts_enabled db /\ contract_call_valid op /\ account_exists db op.(call_caller) = true /\
  db.(contracts) !! op.(call_contract_id) = Some c.

(** What the engine answers. *)
Definition call_answer (db : database) (op : contract_call_operation) (c : contract_object)
  : result call_result :=
  eng.(call) c.(ctr_code) op.(call_export_name) op.(call_args)
    (storage_of db op.(call_contract_id)) (limits_with_fuel op.(call_fuel_limit)) op.(call_caller).

Definition call_touched (db : database) (op : contract_call_operation) : database :=
  upd_contract_storage (touch_storage op.(call_contract_id)) db.

Definition call_failed_post (db : database) (op : contract_call_operation) (r : call_result)
  : database :=
  log_virtual "contract_called" (called_payload op.(call_contract_id) false r.(fuel_used))
    (charge (cost_contract_call op r.(fuel_used)) (call_touched db op)).

Definition call_post (db : database) (op : contract_call_operation) (r : call_result) : database :=
  log_virtual "contract_called" (called_payload op.(call_contract_id) true r.(fuel_used))
  (upd_contract_storage
     (<[op.(call_contract_id) := r.(storage_writes) ∪ storage_of db op.(call_contract_id)]>)
  (charge (cost_contract_call op r.(fuel_used)) db)).

Lemma storage_of_touched db op :
  storage_of (call_touched db op) (call_contract_id op) = storage_of db (call_contract_id op).
Proof. unfold storage_of, call_touched. simpl. by rewrite touch_storage_lookup. Qed.

(** How a call fails: the refusals change nothing; an engine exception leaves
    only the storage entry; an engine failure is charged and logged. *)
Definition call_thrown (db : database) (op : contract_call_operation) (e : exn) (db' : database)
  : Prop :=
  ((forall c, ~ call_ready db op c) /\ db' = db /\ is_protocol_error e) \/
  exists c, call_ready db op c /\
    match call_answer db op c with
    | Throw e' => e = e' /\ db' = call_touched db op
    | Ret r => r.(success) = false /\ db' = call_failed_post db op r /\ is_protocol_error e
    end.

Lemma call_not_ready db op what :
  (forall c, ~ call_ready db op c) -> call_thrown db op (protocol_error what) db.
Proof. intros. left. split_and!; [done|done|by eexists]. Qed.

Ltac not_ready :=
  apply call_not_ready; intros c'; unfold call_ready, contracts_enabled; intros ?;
  guards; split_hyps; first [congruence|lia|naive_solver].

Lemma call_spec op db :
  wp (apply_contract_call_with eng op)
    (fun _ db' => exists c r, call_ready db op c /\ call_answer db op c = Ret r /\
                    r.(success) = true /\ db' = call_post db op r)
    (call_thrown db op) db.
Proof.
  unfold apply_contract_call_with, require_hardfork, push_virtual.
  wp_step. wp_step. wp_step. wp_step; [not_ready|]. do 4 wp_step; [not_ready|].
  eapply wp_validate; [apply validate_contract_call_ret
    |apply (validate_throws_protocol 0 (op_contract_call op))|intros; not_ready|intros Hv].
  do 2 wp_step; [not_ready|]. do 2 wp_step; [not_ready|].
  do 4 wp_step.
  change (upd_contract_storage (touch_storage (call_contract_id op)) db) with (call_touched db op).
  rewrite (storage_of_touched db op).
  assert (Hready : call_ready db op a)
    by (unfold call_ready, contracts_enabled; guards; split_and!; done).
  fold (call_answer db op a).
  wp_step. apply wp_lift.
  - intros e He. right. exists a. split; [done|]. by rewrite He.
  - intros r Hr. do 3 wp_step.
    + do 2 wp_step. unfold wp, throw. right. exists a. split; [done|]. rewrite Hr. guards.
      split_and!; [done|done|by eexists].
    + do 3 wp_step. exists a, r. guards. split_and!; try done.
      unfold call_post, log_virtual, upd_contract_storage, upd_pending_virtual_ops. simpl.
      f_equal. erewrite alter_some by apply touch_storage_lookup.
      rewrite commit_writes_union. unfold touch_storage, storage_of.
      destruct (contract_storage db !! _) eqn:E; [done|]. by rewrite insert_insert_eq.
Qed.
End contracts.
