(* ===== verification/NftInvariant.v ===== *)
(** * The NFT tables stay well formed

    [nft_wf] relates the five NFT tables to each other and to the accounts; each
    of the six evaluators preserves it. It takes the tables and counters it
    constrains rather than the database, so an operation that touches none of
    them preserves it by conversion. *)
From S2P Require Import Prelude Types Crypto Protocol Costs Database EvalNft.

(** The number of NFTs of a collection. *)
Definition in_collection (c : Z) (n : nft_object) : Z := if n.(nft_collection) =? c then 1 else 0.
Definition nft_count (c : Z) (m : gmap Z nft_object) : Z := map_sum (in_collection c) m.

Section nft_wf.
Context (exists_account : string -> Prop).

Definition collection_wf (next_c next_n : Z) (by_symbol : gmap string Z) (m : gmap Z nft_object)
  (id : Z) (c : nft_collection_object) : Prop :=
  c.(col_id) = id /\ 1 <= id < next_c /\ exists_account c.(col_creator) /\
  by_symbol !! c.(col_symbol) = Some id /\
  c.(col_supply) = nft_count id m /\ 0 <= c.(col_supply) < next_n /\
  (c.(col_max_supply) = 0 \/ c.(col_supply) <= c.(col_max_supply)).

Definition nft_object_wf (next_n : Z) (cols : gmap Z nft_collection_object)
  (id : Z) (n : nft_object) : Prop :=
  n.(nft_id) = id /\ 1 <= id < next_n /\ exists_account n.(nft_owner) /\
  (n.(nft_approved) = "" \/ exists_account n.(nft_approved)) /\
  exists c, cols !! n.(nft_collection) = Some c /\
    (c.(col_transferable) = false -> n.(nft_soulbound) = true).

Definition operator_wf (cols : gmap Z nft_collection_object) (k : string * string * Z)
  (o : nft_operator_object) : Prop :=
  k = (o.(opr_owner), o.(opr_operator_account), o.(opr_collection)) /\ o.(opr_approved) = true /\
  o.(opr_owner) <> o.(opr_operator_account) /\
  exists_account o.(opr_owner) /\ exists_account o.(opr_operator_account) /\
  (o.(opr_collection) = 0 \/ is_Some (cols !! o.(opr_collection))).

Record nft_wf (next_c next_n : Z) (cols : gmap Z nft_collection_object)
  (by_symbol : gmap string Z) (m : gmap Z nft_object)
  (ops : gmap (string * string * Z) nft_operator_object) : Prop := {
  wf_next_c : 1 <= next_c;
  wf_next_n : 1 <= next_n;
  wf_collections id c : cols !! id = Some c -> collection_wf next_c next_n by_symbol m id c;
  wf_symbols s id : by_symbol !! s = Some id -> exists c, cols !! id = Some c /\ c.(col_symbol) = s;
  wf_nfts id n : m !! id = Some n -> nft_object_wf next_n cols id n;
  wf_operators k o : ops !! k = Some o -> operator_wf cols k o }.

(** A map whose values all measure zero. *)
Lemma map_sum_zero `{Countable K} {V} (f : V -> Z) (m : gmap K V) :
  (forall k v, m !! k = Some v -> f v = 0) -> map_sum f m = 0.
Proof.
  induction m as [|k v m Hk IH] using map_ind; intros Hf; [done|].
  rewrite map_sum_insert_new, (Hf k v) by (done || apply lookup_insert_eq).
  rewrite IH; [done|]. intros k' v' Hv. apply (Hf k'). by rewrite lookup_insert_ne by congruence.
Qed.

Lemma nft_count_nonneg c m : 0 <= nft_count c m.
Proof. apply map_sum_nonneg. intros. unfold in_collection. case_match; lia. Qed.

(** An id at or past the counter is in no table. *)
Lemma fresh_nft next_c next_n cols bs m ops :
  nft_wf next_c next_n cols bs m ops -> m !! next_n = None.
Proof.
  intros H. destruct (m !! next_n) eqn:E; [|done].
  apply (wf_nfts _ _ _ _ _ _ H) in E as (_ & ? & _). lia.
Qed.
Lemma fresh_collection next_c next_n cols bs m ops :
  nft_wf next_c next_n cols bs m ops -> cols !! next_c = None.
Proof.
  intros H. destruct (cols !! next_c) eqn:E; [|done].
  apply (wf_collections _ _ _ _ _ _ H) in E as (_ & ? & _). lia.
Qed.

Lemma create_collection_preserves next_c next_n cols bs m ops sym c :
  nft_wf next_c next_n cols bs m ops ->
  bs !! sym = None -> c.(col_id) = next_c -> c.(col_symbol) = sym -> c.(col_supply) = 0 ->
  0 <= c.(col_max_supply) -> exists_account c.(col_creator) ->
  nft_wf (next_c + 1) next_n (<[next_c := c]> cols) (<[sym := next_c]> bs) m ops.
Proof.
  intros H Hsym Hid <- Hsup Hmax Hcr.
  pose proof (fresh_collection _ _ _ _ _ _ H) as Hfresh.
  destruct H as [H1 H2 Hc Hs Hn Ho]. split; [lia|lia|..].
  - intros id c' Hl. apply lookup_insert_Some in Hl as [[<- <-]|[Hne Hl]].
    + unfold collection_wf. rewrite lookup_insert_eq, Hid. parts.
      rewrite Hsup. symmetry. apply map_sum_zero. intros k v Hv. unfold in_collection.
      destruct (Z.eqb_spec (nft_collection v) next_c) as [Heq|]; [|done].
      apply Hn in Hv as (_ & _ & _ & _ & c0 & Hc0 & _). congruence.
    + destruct (Hc _ _ Hl) as (? & ? & ? & Hl2 & ?). unfold collection_wf.
      rewrite lookup_insert_ne by congruence. parts.
  - intros s id Hl. apply lookup_insert_Some in Hl as [[<- <-]|[Hne Hl]].
    + exists c. by rewrite lookup_insert_eq.
    + destruct (Hs _ _ Hl) as (c' & Hl' & ?). exists c'.
      rewrite lookup_insert_ne by congruence. done.
  - intros id n Hl. destruct (Hn _ _ Hl) as (? & ? & ? & ? & c' & Hl' & ?).
    parts. exists c'. rewrite lookup_insert_ne by congruence. done.
  - intros k o Hl. destruct (Ho _ _ Hl) as (? & ? & ? & ? & ? & Hk). parts.
    destruct Hk as [?|[c' Hl']]; [by left|right]. exists c'. by rewrite lookup_insert_ne by congruence.
Qed.

(** Changing one supply, and the NFTs counted by it, keeps the rest. *)
Lemma set_supply_preserves next_c next_n next_n' cols bs m m' ops cid c v :
  nft_wf next_c next_n cols bs m ops -> cols !! cid = Some c -> next_n <= next_n' ->
  v = nft_count cid m' -> 0 <= v < next_n' -> (c.(col_max_supply) = 0 \/ v <= c.(col_max_supply)) ->
  (forall id, id <> cid -> nft_count id m' = nft_count id m) ->
  (forall id n, m' !! id = Some n -> nft_object_wf next_n' cols id n) ->
  nft_wf next_c next_n' (<[cid := set_supply c v]> cols) bs m' ops.
Proof.
  intros H Hcid Hle Hv Hb Hmax Hcount Hn'. destruct H as [H1 H2 Hc Hs Hn Ho]. split; [lia|lia|..].
  - intros id c' Hl. rewrite lookup_insert in Hl. case_decide as Hi.
    + simplify_eq. destruct (Hc _ _ Hcid) as (? & ? & ? & ? & ? & ? & ?).
      unfold collection_wf. simpl. parts.
    + destruct (Hc _ _ Hl) as (? & ? & ? & ? & Hsup & ? & ?). unfold collection_wf.
      rewrite Hcount, Hsup by done. rewrite Hsup in *. parts.
  - intros s id Hl. destruct (Hs _ _ Hl) as (c' & Hl' & ?).
    rewrite lookup_insert. case_decide; simplify_eq; eauto.
  - intros id n Hl. destruct (Hn' _ _ Hl) as (? & ? & ? & ? & c' & Hl' & ?).
    parts. rewrite lookup_insert.
    case_decide; simplify_eq; eauto.
  - intros k o Hl. destruct (Ho _ _ Hl) as (? & ? & ? & ? & ? & Hk). parts.
    destruct Hk as [?|Hk]; [by left|right].
    rewrite lookup_insert. case_decide; eauto.
Qed.
End nft_wf.

(** ** The six evaluators *)

Definition has_account (db : database) (a : string) : Prop := is_Some (db.(balances) !! a).

Definition nft_inv (db : database) : Prop :=
  nft_wf (has_account db) db.(next_collection_id) db.(next_nft_id) db.(collections)
    db.(collection_by_symbol) db.(nfts) db.(operators).

(** More accounts do no harm. *)
Lemma nft_wf_mono (P Q : string -> Prop) nc nn cols bs m ops :
  (forall a, P a -> Q a) -> nft_wf P nc nn cols bs m ops -> nft_wf Q nc nn cols bs m ops.
Proof.
  intros HPQ [H1 H2 Hc Hs Hn Ho]. split; [done|done|..].
  - intros id c Hl. destruct (Hc _ _ Hl) as (? & ? & ? & ?). parts; naive_solver.
  - done.
  - intros id n Hl. destruct (Hn _ _ Hl) as (? & ? & ? & ? & ?). parts; naive_solver.
  - intros k o Hl. destruct (Ho _ _ Hl) as (? & ? & ? & ? & ? & ?). parts; naive_solver.
Qed.

Lemma create_collection_nft_inv db op :
  nft_inv db -> db.(next_collection_id) + 1 < 2 ^ 64 ->
  typed_op (op_nft_create_collection op) -> create_collection_pre db op ->
  nft_inv (create_collection_post db op).
Proof.
  intros H Hn [? _] (_ & _ & Hacc & Hsym). guards. pose proof (wf_next_c _ _ _ _ _ _ _ H).
  unfold nft_inv. simpl. rewrite u64_small by lia.
  apply create_collection_preserves; done.
Qed.

Lemma mint_nft_inv db op :
  nft_inv db -> db.(next_nft_id) + 1 < 2 ^ 64 -> mint_pre db op -> nft_inv (mint_post db op).
Proof.
  intros H Hn (_ & _ & _ & Hto & c & Hc & _ & Hmax). guards.
  unfold mint_post. rewrite Hc. unfold nft_inv. simpl.
  pose proof (wf_next_n _ _ _ _ _ _ _ H). pose proof (fresh_nft _ _ _ _ _ _ _ H) as Hfresh.
  destruct (wf_collections _ _ _ _ _ _ _ H _ _ Hc) as (? & ? & ? & ? & Hsup & ? & ?).
  rewrite !u64_small by lia. set (n := minted_nft db op c).
  assert (Hcount : forall id, nft_count id (<[next_nft_id db:=n]> (nfts db)) =
    (if mint_collection op =? id then 1 else 0) + nft_count id (nfts db)).
  { intros id. unfold nft_count. by rewrite map_sum_insert_new. }
  eapply set_supply_preserves; [exact H|exact Hc|lia|..].
  - rewrite Hcount, Z.eqb_refl. lia.
  - lia.
  - lia.
  - intros id Hne. rewrite Hcount. destruct (Z.eqb_spec (mint_collection op) id); [congruence|lia].
  - intros id n' Hl. apply lookup_insert_Some in Hl as [[<- <-]|[Hne Hl]].
    + parts; [by left|]. exists c. split; [done|]. simpl. intros ->. apply orb_true_r.
    + destruct (wf_nfts _ _ _ _ _ _ _ H _ _ Hl) as (? & ? & ? & ? & ?). parts.
Qed.

(** Replacing an NFT by one of the same collection. *)
Lemma update_nft_preserves P nc nn cols bs (m : gmap Z nft_object) ops id n owner approved :
  nft_wf P nc nn cols bs m ops -> m !! id = Some n ->
  P owner -> (approved = "" \/ P approved) ->
  nft_wf P nc nn cols bs (<[id := nft_set_owner n owner approved]> m) ops.
Proof.
  intros H Hid Ho Ha.
  assert (Hcount : forall c, nft_count c (<[id := nft_set_owner n owner approved]> m) = nft_count c m).
  { intros c. unfold nft_count. rewrite (map_sum_insert _ _ _ n) by done.
    unfold in_collection. simpl. lia. }
  destruct H as [H1 H2 Hc Hs Hn Hop]. split; [done|done|..|done].
  - intros cid c Hl. destruct (Hc _ _ Hl) as (? & ? & ? & ? & ? & ? & ?).
    unfold collection_wf. rewrite Hcount. parts.
  - done.
  - intros i n' Hl. apply lookup_insert_Some in Hl as [[<- <-]|[Hne Hl]]; [|by apply Hn].
    destruct (Hn _ _ Hid) as (? & ? & ? & ? & ?). parts.
Qed.

Lemma transfer_nft_inv db op : nft_inv db -> transfer_pre db op -> nft_inv (transfer_post db op).
Proof.
  intros H (_ & _ & Hto & n & Hn & _). guards. unfold transfer_post. rewrite Hn.
  apply update_nft_preserves; auto.
Qed.

Lemma approve_nft_inv db op : nft_inv db -> approve_pre db op -> nft_inv (approve_post db op).
Proof.
  intros H (_ & _ & Hap & n & Hn & _). guards. unfold approve_post. rewrite Hn.
  apply update_nft_preserves; auto. by apply (wf_nfts _ _ _ _ _ _ _ H _ _ Hn).
Qed.

Lemma set_approval_for_all_nft_inv db op :
  nft_inv db -> set_approval_for_all_pre db op -> nft_inv (set_approval_for_all_post db op).
Proof.
  intros H (_ & Hv & Hown & Hop & Hcol). guards. destruct H as [H1 H2 Hc Hs Hn Ho].
  split; [done..|]. simpl. intros k o Hl. destruct (afa_approved op).
  - apply lookup_insert_Some in Hl as [[<- <-]|[Hne Hl]]; [|by apply Ho].
    destruct Hv as (_ & _ & ?). parts.
  - apply lookup_delete_Some in Hl as [_ Hl]. by apply Ho.
Qed.

Lemma burn_nft_inv db op : nft_inv db -> burn_pre db op -> nft_inv (burn_post db op).
Proof.
  intros H (_ & _ & n & Hn & _). unfold burn_post. rewrite Hn. unfold nft_inv. simpl.
  destruct (wf_nfts _ _ _ _ _ _ _ H _ _ Hn) as (? & ? & ? & ? & c & Hc & _).
  destruct (wf_collections _ _ _ _ _ _ _ H _ _ Hc) as (? & ? & ? & ? & Hsup & ? & ?).
  assert (Hcount : forall id, nft_count id (nfts db) =
    (if nft_collection n =? id then 1 else 0) + nft_count id (delete (burn_nft_id op) (nfts db))).
  { intros id. unfold nft_count. by rewrite (map_sum_delete _ _ (burn_nft_id op) n). }
  pose proof (Hcount (nft_collection n)) as Hone. rewrite Z.eqb_refl in Hone.
  pose proof (nft_count_nonneg (nft_collection n) (delete (burn_nft_id op) (nfts db))).
  erewrite alter_some by exact Hc. unfold burn_supply.
  destruct (Z.ltb_spec 0 (col_supply c)); [|lia].
  eapply set_supply_preserves; [exact H|exact Hc|lia|lia|lia|lia|..].
  - intros id Hne. rewrite (Hcount id). destruct (Z.eqb_spec (nft_collection n) id); [congruence|lia].
  - intros id n' Hl. apply lookup_delete_Some in Hl as [_ Hl].
    by apply (wf_nfts _ _ _ _ _ _ _ H).
Qed.
