(* ===== verification/HtlcInvariant.v ===== *)
(** * HTLCs and balances: well-formedness and conservation of value

    [htlc_wf] constrains the HTLC table, [funds_wf] the balances, [total_value]
    is what accounts and open HTLCs hold together. The three evaluators keep
    the first two and do not change the third. *)
From S2P Require Import Prelude Types Crypto Protocol Costs Database EvalHtlc.

(** ** The HTLC table *)

Section htlc_wf.
Context (exists_account : string -> Prop).

Definition htlc_object_wf (next_h : Z) (id : Z) (h : htlc_object) : Prop :=
  h.(htlc_id) = id /\ 1 <= id < next_h /\
  exists_account h.(htlc_from) /\ exists_account h.(htlc_to) /\
  0 < h.(htlc_amount).(amount) <= INT64_MAX /\
  (h.(htlc_amount).(symbol) = HIVE \/ h.(htlc_amount).(symbol) = HBD) /\
  0 < h.(htlc_preimage_size) <= MAX_HTLC_PREIMAGE_LEN /\
  size_of h.(htlc_preimage_hash).(digest_bytes) = digest_size h.(htlc_preimage_hash).(algo) /\
  h.(htlc_created) + HTLC_MIN_DURATION_SEC <= h.(htlc_expiration)
    <= h.(htlc_created) + HTLC_MAX_DURATION_SEC /\
  valid_account_name h.(htlc_from) = true /\ valid_account_name h.(htlc_to) = true.

Record htlc_wf (next_h : Z) (m : gmap Z htlc_object) : Prop := {
  wf_next_h : 1 <= next_h;
  wf_htlcs id h : m !! id = Some h -> htlc_object_wf next_h id h;
  wf_open_cap a : 0 <= open_count a m <= HTLC_MAX_OPEN_PER_ACCOUNT }.

Lemma fresh_htlc next_h m : htlc_wf next_h m -> m !! next_h = None.
Proof.
  intros H. destruct (m !! next_h) eqn:E; [|done].
  apply (wf_htlcs _ _ H) in E as (_ & ? & _). lia.
Qed.

Lemma close_preserves next_h (m : gmap Z htlc_object) id h st :
  htlc_wf next_h m -> m !! id = Some h -> st <> open ->
  htlc_wf next_h (<[id := htlc_set_status h st]> m).
Proof.
  intros [H1 Hh Hcap] Hid Hst. split; [done|..].
  - intros i h' Hl. apply lookup_insert_Some in Hl as [[<- <-]|[_ Hl]]; [|by apply Hh].
    exact (Hh _ _ Hid).
  - intros a. specialize (Hcap a). split.
    + apply map_sum_nonneg. intros. unfold open_from. case_match; lia.
    + unfold open_count in *. rewrite (map_sum_insert _ _ _ h) by done.
      unfold open_from, htlc_is_open_from in *. simpl.
      rewrite (bool_decide_eq_false_2 (st = open)), andb_false_r by done.
      case_match; lia.
Qed.
End htlc_wf.

Definition htlc_inv (db : database) : Prop :=
  htlc_wf (fun a => is_Some (db.(balances) !! a)) db.(next_htlc_id) db.(htlcs).

Lemma htlc_wf_mono (P Q : string -> Prop) nh m :
  (forall a, P a -> Q a) -> htlc_wf P nh m -> htlc_wf Q nh m.
Proof.
  intros HPQ [H1 Hh Hcap]. split; [done|..|done].
  intros id h Hl. destruct (Hh _ _ Hl) as (? & ? & ? & ? & ? & ? & ? & ? & ? & ? & ?). parts; auto.
Qed.

(** The count is the number of entries that count. *)
Lemma open_count_size a m :
  open_count a m = size_of (map_to_list (filter (fun kv => htlc_is_open_from a kv.2 = true) m)).
Proof.
  unfold size_of. rewrite length_map_to_list. unfold open_count.
  induction m as [|k h m Hk IH] using map_ind; [done|].
  rewrite map_sum_insert_new, IH by done. unfold open_from.
  destruct (htlc_is_open_from a h) eqn:E.
  - rewrite map_filter_insert_True, map_size_insert_None; [lia| |done].
    by apply map_lookup_filter_None_2; left.
  - rewrite map_filter_insert_False by (simpl; congruence). by rewrite (delete_id _ _ Hk).
Qed.

(** ** Ledger sums *)

Definition liquid (s : asset_symbol) (m : gmap string account_balance) : Z :=
  map_sum (fun b => balance_field b s) m.
Definition locked_in (s : asset_symbol) (h : htlc_object) : Z :=
  if bool_decide (h.(status) = open) && bool_decide (h.(htlc_amount).(symbol) = s)
  then h.(htlc_amount).(amount) else 0.
Definition locked (s : asset_symbol) (m : gmap Z htlc_object) : Z := map_sum (locked_in s) m.

(** Everything the chain holds in [s]. *)
Definition total_value (s : asset_symbol) (db : database) : Z :=
  liquid s db.(balances) + locked s db.(htlcs).

(** The two assets of the ledger. *)
Definition is_ledger_symbol (s : asset_symbol) : Prop := s = HIVE \/ s = HBD.

Record funds_wf (bal : gmap string account_balance) (m : gmap Z htlc_object) : Prop := {
  wf_balances a b s : bal !! a = Some b -> 0 <= balance_field b s;
  wf_supply s : is_ledger_symbol s -> liquid s bal + locked s m <= INT64_MAX }.

Definition funds_inv (db : database) : Prop := funds_wf db.(balances) db.(htlcs).

Lemma credit_dom name s d m a : is_Some (credit name s d m !! a) <-> is_Some (m !! a).
Proof. unfold credit. by rewrite lookup_alter_is_Some. Qed.

Lemma set_balance_field_other b s s' v :
  is_ledger_symbol s -> is_ledger_symbol s' ->
  balance_field (set_balance_field b s v) s' = if decide (s = s') then v else balance_field b s'.
Proof. intros [-> | ->] [-> | ->]; done. Qed.

Lemma credit_lookup name s d m a b s' :
  is_ledger_symbol s -> is_ledger_symbol s' -> m !! a = Some b ->
  exists b', credit name s d m !! a = Some b' /\
    balance_field b' s' = balance_field b s' + if decide (name = a /\ s = s') then d else 0.
Proof.
  intros Hs Hs' Hb. unfold credit. rewrite lookup_alter. case_decide as Ha.
  - rewrite Ha, Hb. eexists. split; [done|]. rewrite set_balance_field_other by done.
    repeat case_decide; subst; tauto || lia.
  - exists b. split; [done|]. case_decide; [tauto|lia].
Qed.

Lemma liquid_credit name s d m s' :
  is_ledger_symbol s -> is_ledger_symbol s' -> is_Some (m !! name) ->
  liquid s' (credit name s d m) = liquid s' m + if decide (s = s') then d else 0.
Proof.
  intros Hs Hs' [b Hb]. unfold liquid, credit. rewrite (alter_some _ _ _ _ Hb).
  rewrite (map_sum_insert _ _ _ b), set_balance_field_other by done. case_decide; subst; lia.
Qed.

Lemma credit_nonneg name s d m b0 :
  is_ledger_symbol s ->
  (forall a b s', m !! a = Some b -> 0 <= balance_field b s') ->
  m !! name = Some b0 -> 0 <= balance_field b0 s + d ->
  forall a b s', credit name s d m !! a = Some b -> 0 <= balance_field b s'.
Proof.
  intros Hs Hm Hb0 Hd a b s' Hl. unfold credit in Hl. rewrite (alter_some _ _ _ _ Hb0) in Hl.
  apply lookup_insert_Some in Hl as [[<- <-]|[_ Hl]]; [|by eapply Hm].
  pose proof (Hm _ _ HIVE Hb0). pose proof (Hm _ _ HBD Hb0).
  destruct Hs as [-> | ->]; destruct s'; unfold balance_field in *; simpl in *; lia.
Qed.

Lemma locked_nonneg s m : (forall id h, m !! id = Some h -> 0 <= h.(htlc_amount).(amount)) ->
  0 <= locked s m.
Proof. intros H. apply map_sum_nonneg. intros k v Hv. unfold locked_in. case_match; [by eapply H|lia]. Qed.

(** One balance is at most the whole supply. *)
Lemma balance_le_liquid s m a b :
  (forall a b s, m !! a = Some b -> 0 <= balance_field b s) -> m !! a = Some b ->
  balance_field b s <= liquid s m.
Proof. intros Hm Hb. apply (map_sum_ge (fun b => balance_field b s) m a b); [|done]. eauto. Qed.

(** An open HTLC and any one balance together are at most the supply. *)
Lemma open_htlc_payable db P id h a b :
  htlc_wf P db.(next_htlc_id) db.(htlcs) -> funds_inv db ->
  db.(htlcs) !! id = Some h -> h.(status) = open -> db.(balances) !! a = Some b ->
  balance_field b h.(htlc_amount).(symbol) + h.(htlc_amount).(amount) <= INT64_MAX.
Proof.
  intros Hw [Hb Hsup] Hid Hst Ha. set (s := symbol (htlc_amount h)).
  assert (Hs : is_ledger_symbol s) by (destruct (wf_htlcs _ _ _ Hw _ _ Hid) as (?&?&?&?&?&?&_); done).
  pose proof (Hsup s Hs). pose proof (balance_le_liquid s _ _ _ Hb Ha).
  assert (amount (htlc_amount h) <= locked s (htlcs db)); [|lia].
  replace (amount (htlc_amount h)) with (locked_in s h)
    by (unfold locked_in; by rewrite !bool_decide_eq_true_2).
  apply (map_sum_ge (locked_in s) (htlcs db) id h); [|done].
  intros k v Hv. unfold locked_in. case_match; [|lia].
  destruct (wf_htlcs _ _ _ Hw _ _ Hv) as (?&?&?&?&?&_). lia.
Qed.

(** ** The evaluators *)

Lemma balance_bounded db P :
  htlc_wf P db.(next_htlc_id) db.(htlcs) -> funds_inv db ->
  forall a b s, db.(balances) !! a = Some b -> 0 <= balance_field b s <= INT64_MAX.
Proof.
  intros Hw [Hb Hsup] a b s Ha. split; [by eapply Hb|].
  assert (Hl : forall s', is_ledger_symbol s' -> balance_field b s' <= INT64_MAX).
  { intros s' Hs'. pose proof (Hsup s' Hs'). pose proof (balance_le_liquid s' _ _ _ Hb Ha).
    assert (0 <= locked s' (htlcs db)); [|lia].
    apply locked_nonneg. intros id h Hh. destruct (wf_htlcs _ _ _ Hw _ _ Hh) as (?&?&?&?&?&_). lia. }
  destruct s; [apply (Hl HIVE); by left|apply (Hl HBD); by right..].
Qed.

Section evaluators.
Context (db : database).
Hypothesis Hw : htlc_inv db.
Hypothesis Hf : funds_inv db.

Lemma create_balance_in_range a s : balance_in_range db a s.
Proof. intros b Hb. by eapply balance_bounded. Qed.

Lemma payout_is_defined id who : payout_defined db id who.
Proof.
  intros h Hh Hop. destruct (wf_htlcs _ _ _ Hw _ _ Hh) as (?&?&?&?&?&_).
  split; [lia|]. split; [unfold INT64_MIN; lia|]. intros b Hb. split.
  - by eapply balance_bounded.
  - by eapply open_htlc_payable.
Qed.

Lemma create_htlc_inv op :
  db.(next_htlc_id) + 1 < 2 ^ 64 -> typed_op (op_htlc_create op) -> htlc_create_pre db op ->
  htlc_inv (htlc_create_post db op).
Proof.
  intros Hn Ht (_ & Hv & Hto & Hcap & b & Hb & _). guards.
  pose proof (wf_next_h _ _ _ Hw). pose proof (fresh_htlc _ _ _ Hw) as Hfresh.
  destruct Hv as (? & ? & _ & Hpos & Hsym & Hsz & Hdig & Hexp). destruct Ht as (Ha & Hps & _).
  unfold htlc_inv. simpl. rewrite u64_small by lia. split; [lia|..].
  - intros id h Hl. apply lookup_insert_Some in Hl as [[<- <-]|[Hne Hl]].
    + unfold htlc_object_wf. simpl. rewrite !credit_dom. parts.
    + destruct (wf_htlcs _ _ _ Hw _ _ Hl) as (?&?&?&?&?&?&?&?&?&?&?).
      unfold htlc_object_wf. rewrite !credit_dom. parts.
  - intros a. unfold open_count. rewrite map_sum_insert_new by done.
    rewrite open_htlc_count_spec in Hcap.
    pose proof (wf_open_cap _ _ _ Hw a) as Hc. unfold open_count in Hc.
    unfold open_from at 1 3, htlc_is_open_from. simpl. rewrite andb_true_r.
    case_bool_decide as He; [|lia]. subst a. unfold HTLC_MAX_OPEN_PER_ACCOUNT in *.
    rewrite u32_small in Hcap by (unfold open_count; lia). unfold open_count in Hcap. lia.
Qed.

Lemma create_total op s : is_ledger_symbol s -> htlc_create_pre db op ->
  total_value s (htlc_create_post db op) = total_value s db.
Proof.
  intros Hs (_ & Hv & _ & _ & b & Hb & _). destruct Hv as (_ & _ & _ & _ & Hsym & _).
  unfold total_value. simpl. rewrite liquid_credit by (try done; by eexists).
  unfold locked. rewrite map_sum_insert_new by apply (fresh_htlc _ _ _ Hw).
  unfold locked_in at 1. simpl. repeat case_decide || case_bool_decide; simpl; try congruence; lia.
Qed.

Lemma create_funds op : htlc_create_pre db op -> funds_inv (htlc_create_post db op).
Proof.
  intros Hpre. split.
  - destruct Hpre as (_ & Hv & _ & _ & b & Hb & Hle). destruct Hv as (_ & _ & _ & _ & Hsym & _).
    eapply credit_nonneg; [done|apply Hf|exact Hb|lia].
  - intros s Hs. pose proof (create_total op s Hs Hpre) as E. unfold total_value in E.
    rewrite E. by apply Hf.
Qed.

(** Closing an open HTLC by paying its amount to [who]. *)
Section close.
Context (id : Z) (h : htlc_object) (who : string) (st : htlc_status).
Hypothesis Hid : db.(htlcs) !! id = Some h.
Hypothesis Hopen : h.(status) = open.
Hypothesis Hst : st <> open.
Hypothesis Hwho : is_Some (db.(balances) !! who).

Definition closed : database :=
  upd_htlcs (<[id := htlc_set_status h st]>)
    (upd_balances (credit who h.(htlc_amount).(symbol) h.(htlc_amount).(amount)) db).

Lemma close_htlc_inv : htlc_inv closed.
Proof.
  unfold htlc_inv. simpl. apply (htlc_wf_mono (fun a => is_Some (balances db !! a))).
  - intros a. by rewrite credit_dom.
  - by apply close_preserves.
Qed.

Lemma close_total s : is_ledger_symbol s -> total_value s closed = total_value s db.
Proof.
  intros Hs. destruct (wf_htlcs _ _ _ Hw _ _ Hid) as (?&?&?&?&?&Hsym&_).
  unfold total_value. simpl. rewrite liquid_credit by done.
  unfold locked. rewrite (map_sum_insert _ _ _ h) by done. unfold locked_in at 2 3. simpl.
  rewrite (bool_decide_eq_true_2 (status h = open)), (bool_decide_eq_false_2 (st = open)) by done.
  simpl. case_decide; case_bool_decide; try congruence; lia.
Qed.

Lemma close_funds : funds_inv closed.
Proof.
  destruct (wf_htlcs _ _ _ Hw _ _ Hid) as (?&?&?&?&?&Hsym&_). split.
  - destruct Hwho as [b Hb]. eapply credit_nonneg; [done|apply Hf|exact Hb|].
    pose proof (wf_balances _ _ Hf _ _ (symbol (htlc_amount h)) Hb). lia.
  - intros s Hs. pose proof (close_total s Hs) as E. unfold total_value in E. rewrite E. by apply Hf.
Qed.
End close.

Lemma redeem_inv op : htlc_redeem_pre db op ->
  htlc_inv (htlc_redeem_post db op) /\ funds_inv (htlc_redeem_post db op) /\
  forall s, is_ledger_symbol s -> total_value s (htlc_redeem_post db op) = total_value s db.
Proof.
  intros (_ & _ & Hto & h & Hh & Hop & Heq & _). guards. unfold htlc_redeem_post. rewrite Hh.
  rewrite <-Heq in Hto. split_and!.
  - by apply (close_htlc_inv (hr_htlc_id op) h (htlc_to h) redeemed).
  - by apply (close_funds (hr_htlc_id op) h (htlc_to h) redeemed).
  - intros s Hs. by apply (close_total (hr_htlc_id op) h (htlc_to h) redeemed).
Qed.

Lemma refund_inv op : htlc_refund_pre db op ->
  htlc_inv (htlc_refund_post db op) /\ funds_inv (htlc_refund_post db op) /\
  forall s, is_ledger_symbol s -> total_value s (htlc_refund_post db op) = total_value s db.
Proof.
  intros (_ & _ & Hto & h & Hh & Hop & Heq & _). guards. unfold htlc_refund_post. rewrite Hh.
  rewrite <-Heq in Hto. split_and!.
  - by apply (close_htlc_inv (hf_htlc_id op) h (htlc_from h) refunded).
  - by apply (close_funds (hf_htlc_id op) h (htlc_from h) refunded).
  - intros s Hs. by apply (close_total (hf_htlc_id op) h (htlc_from h) refunded).
Qed.
End evaluators.
