(* ===== verification/ContractInvariant.v ===== *)
(** * Contracts and their storage stay well formed

    [contract_wf] ties the two contract tables together: every contract has its
    storage and no storage is orphaned, the stored hash is the SHA-256 of the
    stored code, and what storage holds is within the size caps of the host
    interface. Both evaluators keep it over any engine with [EngineLaws]. *)
From S2P Require Import Prelude Types Crypto Protocol Costs Database Engine EvalContracts.

Section contract_wf.
Context (exists_account : string -> Prop).

Definition contract_object_wf (next_k : Z) (id : Z) (c : contract_object) : Prop :=
  c.(ctr_id) = id /\ 1 <= id < next_k /\ exists_account c.(ctr_owner) /\
  c.(ctr_code) <> [] /\ size_of c.(ctr_code) <= MAX_CODE_BYTES /\
  c.(ctr_code_hash) = sha256 c.(ctr_code).

(** The caps of a [host_limits] built by the evaluators. *)
Definition storage_entry_ok (k : string) (v : list byte) : Prop :=
  str_size k <= 256 /\ size_of v <= 4096.

Record contract_wf (next_k : Z) (cs : gmap Z contract_object)
  (st : gmap Z (gmap string (list byte))) : Prop := {
  wf_next_k : 1 <= next_k;
  wf_contracts id c : cs !! id = Some c -> contract_object_wf next_k id c;
  wf_storage id : is_Some (st !! id) <-> is_Some (cs !! id);
  wf_entries id s : st !! id = Some s -> map_Forall storage_entry_ok s }.

Lemma fresh_contract next_k cs st : contract_wf next_k cs st -> cs !! next_k = None.
Proof.
  intros H. destruct (cs !! next_k) eqn:E; [|done].
  apply (wf_contracts _ _ _ H) in E as (_ & ? & _). lia.
Qed.

Lemma deploy_preserves next_k cs st c :
  contract_wf next_k cs st -> contract_object_wf (next_k + 1) next_k c ->
  contract_wf (next_k + 1) (<[next_k := c]> cs) (<[next_k := ∅]> st).
Proof.
  intros [H1 Hc Hs He] Hnew. split; [lia|..].
  - intros id c' Hl. apply lookup_insert_Some in Hl as [[<- <-]|[Hne Hl]]; [done|].
    destruct (Hc _ _ Hl) as (? & ? & ? & ? & ? & ?). split_and!; try done; lia.
  - intros id. rewrite !lookup_insert. case_decide; [|by apply Hs].
    split; intros _; by eexists.
  - intros id s Hl. apply lookup_insert_Some in Hl as [[<- <-]|[Hne Hl]];
      [apply map_Forall_empty|by eapply He].
Qed.

Lemma write_preserves next_k cs st id c s :
  contract_wf next_k cs st -> cs !! id = Some c -> map_Forall storage_entry_ok s ->
  contract_wf next_k cs (<[id := s]> st).
Proof.
  intros [H1 Hc Hs He] Hid Hok. split; [done|done|..].
  - intros i. rewrite lookup_insert. case_decide; [|by apply Hs]. subst.
    split; intros _; by eexists.
  - intros i s' Hl. apply lookup_insert_Some in Hl as [[<- <-]|[Hne Hl]]; [done|by eapply He].
Qed.
End contract_wf.

Definition contract_inv (db : database) : Prop :=
  contract_wf (fun a => is_Some (db.(balances) !! a)) db.(next_contract_id) db.(contracts)
    db.(contract_storage).

Lemma contract_wf_mono (P Q : string -> Prop) nk cs st :
  (forall a, P a -> Q a) -> contract_wf P nk cs st -> contract_wf Q nk cs st.
Proof.
  intros HPQ [H1 Hc Hs He]. split; [done|..|done|done].
  intros id c Hl. destruct (Hc _ _ Hl) as (? & ? & ? & ? & ? & ?). parts; auto.
Qed.

(** The entry of an existing contract is never missing, so the reference
    [db.contract_storage[id]] creates nothing. *)
Lemma touch_storage_id P nk cs st id c :
  contract_wf P nk cs st -> cs !! id = Some c -> touch_storage id st = st.
Proof.
  intros H Hid. unfold touch_storage.
  destruct (proj2 (wf_storage _ _ _ _ H id)) as [s ->]; [by eexists|done].
Qed.

Lemma call_touched_id db op c :
  contract_inv db -> db.(contracts) !! op.(call_contract_id) = Some c -> call_touched db op = db.
Proof.
  intros H Hid. unfold call_touched, upd_contract_storage.
  rewrite (touch_storage_id _ _ _ _ _ _ H Hid). by destruct db.
Qed.

Section evaluators.
Context (eng : engine) `{!EngineLaws eng}.

Lemma deploy_contract_inv db op :
  contract_inv db -> db.(next_contract_id) + 1 < 2 ^ 64 -> deploy_pre eng db op ->
  contract_inv (deploy_post db op).
Proof.
  intros H Hn (_ & Hv & Hown & _). guards. pose proof (wf_next_k _ _ _ _ H).
  destruct Hv as (_ & _ & Hne & Hsz & _).
  unfold contract_inv. simpl. rewrite u64_small by lia.
  apply deploy_preserves; [exact H|]. unfold contract_object_wf. simpl. parts.
Qed.

Lemma call_contract_inv db op c r :
  contract_inv db -> typed_op (op_contract_call op) -> call_ready db op c ->
  call_answer eng db op c = Ret r -> contract_inv (call_post db op r).
Proof.
  intros H [_ Hfuel] (_ & _ & _ & Hc) Hr. unfold contract_inv. simpl.
  apply call_within_limits in Hr as (_ & _ & Hw); [|exact Hfuel].
  eapply write_preserves; [exact H|exact Hc|]. apply map_Forall_union_2.
  - exact Hw.
  - unfold storage_of. destruct (contract_storage db !! _) eqn:E; simpl.
    + by eapply (wf_entries _ _ _ _ H).
    + apply map_Forall_empty.
Qed.
End evaluators.
