(* ===== verification/Chain.v ===== *)
(** * The chain as a state machine

    [apply] is the overload set of [include/hive_native/chain/evaluators.hpp] as
    one function of the operation. A [step] is one event in the life of a
    database: an operation accepted or refused, time passing, a reconfiguration,
    the virtual operations drained, an account created. Everything holds for any
    contract engine with [EngineLaws]; the code's is [default_engine]. *)
From S2P Require Import Prelude Types Crypto Protocol Costs Database EvalNft EvalHtlc Engine EvalContracts NftInvariant HtlcInvariant ContractInvariant.

(** ** Applying any operation *)

Section apply.
Context (eng : engine).

Definition apply_with (op : operation) : M database unit :=
  match op with
  | op_nft_create_collection op => apply_nft_create_collection op
  | op_nft_mint op => apply_nft_mint op
  | op_nft_transfer op => apply_nft_transfer op
  | op_nft_approve op => apply_nft_approve op
  | op_nft_set_approval_for_all op => apply_nft_set_approval_for_all op
  | op_nft_burn op => apply_nft_burn op
  | op_htlc_create op => apply_htlc_create op
  | op_htlc_redeem op => apply_htlc_redeem op
  | op_htlc_refund op => apply_htlc_refund op
  | op_contract_deploy op => apply_contract_deploy_with eng op
  | op_contract_call op => apply_contract_call_with eng op
  end.

(** The abstract semantics of an accepted operation. *)
Definition op_effect (db : database) (op : operation) (db' : database) : Prop :=
  match op with
  | op_nft_create_collection op => create_collection_pre db op /\ db' = create_collection_post db op
  | op_nft_mint op => mint_pre db op /\ db' = mint_post db op
  | op_nft_transfer op => transfer_pre db op /\ db' = transfer_post db op
  | op_nft_approve op => approve_pre db op /\ db' = approve_post db op
  | op_nft_set_approval_for_all op =>
      set_approval_for_all_pre db op /\ db' = set_approval_for_all_post db op
  | op_nft_burn op => burn_pre db op /\ db' = burn_post db op
  | op_htlc_create op => htlc_create_pre db op /\ db' = htlc_create_post db op
  | op_htlc_redeem op => htlc_redeem_pre db op /\ db' = htlc_redeem_post db op
  | op_htlc_refund op => htlc_refund_pre db op /\ db' = htlc_refund_post db op
  | op_contract_deploy op => deploy_pre eng db op /\ db' = deploy_post db op
  | op_contract_call op => exists c r, call_ready db op c /\ call_answer eng db op c = Ret r /\
      r.(success) = true /\ db' = call_post db op r
  end.

Lemma call_ready_functional db op c c' : call_ready db op c -> call_ready db op c' -> c = c'.
Proof. intros (_ & _ & _ & ?) (_ & _ & _ & ?). congruence. Qed.

Lemma op_effect_functional db op db1 db2 :
  op_effect db op db1 -> op_effect db op db2 -> db1 = db2.
Proof.
  destruct op; simpl; try (intros [_ ->] [_ ->]; done).
  intros (c1 & r1 & H1 & A1 & _ & ->) (c2 & r2 & H2 & A2 & _ & ->).
  rewrite (call_ready_functional _ _ _ _ H1 H2) in A1. congruence.
Qed.

(** What a refused operation may leave behind: a new RC figure, and for a
    contract call that ran within its fuel and failed, one more virtual operation. *)
Definition refusal_trace (db : database) (op : operation) (db' : database) : Prop :=
  db' = db \/ (exists c, db' = charge c db) \/
  exists cop r, op = op_contract_call cop /\ r.(success) = false /\
    0 <= r.(fuel_used) <= cop.(call_fuel_limit) /\
    db' = log_virtual "contract_called" (called_payload cop.(call_contract_id) false r.(fuel_used))
            (charge (cost_contract_call cop r.(fuel_used)) db).
End apply.

Definition apply : operation -> M database unit := apply_with default_engine.

(** ** Events *)

Section step.
Context (eng : engine).

Inductive step (db : database) : database -> Prop :=
| step_accepted op db' :
    typed_op op -> apply_with eng op db = Done tt db' -> step db db'
| step_refused op e db' :
    typed_op op -> apply_with eng op db = Thrown e db' -> step db db'
| step_time t :
    db.(head_time) <= t < 2 ^ 32 -> step db (upd_head_time (fun _ => t) db)
| step_config c : step db (upd_config (fun _ => c) db)
| step_drain db' : clear_virtual db = Done tt db' -> step db db'
| step_account name db' :
    db.(balances) !! name = None -> create_account name 0 0 db = Done tt db' -> step db db'.

(** [run n db db']: [n] events lead from [db] to [db']. *)
Inductive run (db : database) : Z -> database -> Prop :=
| run_none : run db 0 db
| run_step n db1 db2 : run db n db1 -> step db1 db2 -> run db (n + 1) db2.
End step.

(** A database before any operation: accounts with balances that are not
    negative and whose totals fit in [share_type]. *)
Definition genesis (db : database) : Prop :=
  (exists bal t c, db = upd_balances (fun _ => bal) (upd_head_time (fun _ => t)
     (upd_config (fun _ => c) empty_database))) /\
  (forall a b s, db.(balances) !! a = Some b -> 0 <= balance_field b s) /\
  (forall s, is_ledger_symbol s -> liquid s db.(balances) <= INT64_MAX).

(** No 64-bit id counter wraps in fewer events than this. *)
Definition RUN_LIMIT : Z := 2 ^ 64 - 2.

(** ** The invariant *)

Record db_inv (db : database) : Prop := {
  inv_nft : nft_inv db;
  inv_htlc : htlc_inv db;
  inv_funds : funds_inv db;
  inv_contract : contract_inv db }.

Definition counters_at_most (n : Z) (db : database) : Prop :=
  db.(next_collection_id) <= n /\ db.(next_nft_id) <= n /\
  db.(next_htlc_id) <= n /\ db.(next_contract_id) <= n.

(** Changes nothing the invariant speaks of. *)
Definition same_tables (db db' : database) : Prop :=
  db.(balances) = db'.(balances) /\ db.(collections) = db'.(collections) /\
  db.(collection_by_symbol) = db'.(collection_by_symbol) /\ db.(nfts) = db'.(nfts) /\
  db.(operators) = db'.(operators) /\ db.(htlcs) = db'.(htlcs) /\
  db.(contracts) = db'.(contracts) /\ db.(contract_storage) = db'.(contract_storage) /\
  db.(next_collection_id) = db'.(next_collection_id) /\ db.(next_nft_id) = db'.(next_nft_id) /\
  db.(next_htlc_id) = db'.(next_htlc_id) /\ db.(next_contract_id) = db'.(next_contract_id).

Lemma same_tables_inv db db' : same_tables db db' -> db_inv db -> db_inv db'.
Proof.
  intros (E1&E2&E3&E4&E5&E6&E7&E8&E9&E10&E11&E12) [H1 H2 H3 H4].
  destruct db, db'; simpl in *; subst. by split.
Qed.
Lemma same_tables_counters n db db' :
  same_tables db db' -> counters_at_most n db -> counters_at_most n db'.
Proof.
  intros (_&_&_&_&_&_&_&_&E9&E10&E11&E12). unfold counters_at_most. by rewrite E9, E10, E11, E12.
Qed.
Lemma same_tables_total s db db' :
  same_tables db db' -> total_value s db' = total_value s db.
Proof. intros (E1&_&_&_&_&E6&_). unfold total_value. by rewrite E1, E6. Qed.

Lemma refusal_same_tables db op db' : refusal_trace db op db' -> same_tables db db'.
Proof. by intros [->|[[c ->]|(cop & r & _ & _ & _ & ->)]]. Qed.

Lemma genesis_inv db : genesis db -> db_inv db /\ counters_at_most 1 db.
Proof.
  intros ((bal & t & c & ->) & Hb & Hs). split; [|done]. split.
  - split; simpl; try lia; intros *; rewrite lookup_empty; discriminate.
  - split; simpl; [lia|intros *; rewrite lookup_empty; discriminate|].
    intros a. unfold open_count. rewrite map_sum_empty. done.
  - split; simpl; [exact Hb|]. intros s Hl. specialize (Hs s Hl). simpl in Hs.
    unfold locked. rewrite map_sum_empty. lia.
  - split; simpl; [lia|intros *; rewrite lookup_empty; discriminate| |].
    + intros id. by rewrite !lookup_empty.
    + intros *; rewrite lookup_empty; discriminate.
Qed.

(** ** What each family of operations leaves alone *)

Definition same_nft (db db' : database) : Prop :=
  db.(collections) = db'.(collections) /\ db.(collection_by_symbol) = db'.(collection_by_symbol) /\
  db.(nfts) = db'.(nfts) /\ db.(operators) = db'.(operators) /\
  db.(next_collection_id) = db'.(next_collection_id) /\ db.(next_nft_id) = db'.(next_nft_id).
Definition same_htlc (db db' : database) : Prop :=
  db.(htlcs) = db'.(htlcs) /\ db.(next_htlc_id) = db'.(next_htlc_id).
Definition same_contract (db db' : database) : Prop :=
  db.(contracts) = db'.(contracts) /\ db.(contract_storage) = db'.(contract_storage) /\
  db.(next_contract_id) = db'.(next_contract_id).
Definition same_accounts (db db' : database) : Prop :=
  forall a, is_Some (db.(balances) !! a) <-> is_Some (db'.(balances) !! a).

Lemma same_accounts_eq db db' : db.(balances) = db'.(balances) -> same_accounts db db'.
Proof. intros E a. by rewrite E. Qed.

(** Same NFT tables and no account lost: the NFT invariant carries over. *)
Lemma same_nft_inv db db' : same_nft db db' -> same_accounts db db' -> nft_inv db -> nft_inv db'.
Proof.
  intros (E1&E2&E3&E4&E5&E6) Ha H. unfold nft_inv. rewrite <-E1, <-E2, <-E3, <-E4, <-E5, <-E6.
  eapply nft_wf_mono; [|exact H]. intros a. apply Ha.
Qed.
Lemma same_htlc_inv db db' :
  same_htlc db db' -> same_accounts db db' -> htlc_inv db -> htlc_inv db'.
Proof.
  intros (E1&E2) Ha H. unfold htlc_inv. rewrite <-E1, <-E2.
  eapply htlc_wf_mono; [|exact H]. intros a. apply Ha.
Qed.
Lemma same_contract_inv db db' :
  same_contract db db' -> same_accounts db db' -> contract_inv db -> contract_inv db'.
Proof.
  intros (E1&E2&E3) Ha H. unfold contract_inv. rewrite <-E1, <-E2, <-E3.
  eapply contract_wf_mono; [|exact H]. intros a. apply Ha.
Qed.

Inductive family : Type := nft_family | htlc_family | contract_family.
#[export] Instance family_eq_dec : EqDecision family.
Proof. solve_decision. Defined.
Definition family_of (op : operation) : family :=
  match op with
  | op_nft_create_collection _ | op_nft_mint _ | op_nft_transfer _ | op_nft_approve _
  | op_nft_set_approval_for_all _ | op_nft_burn _ => nft_family
  | op_htlc_create _ | op_htlc_redeem _ | op_htlc_refund _ => htlc_family
  | op_contract_deploy _ | op_contract_call _ => contract_family
  end.

(** Only HTLC operations move balances, and each family changes its own tables. *)
Lemma effect_frame eng db op db' : op_effect eng db op db' ->
  db'.(head_time) = db.(head_time) /\ db'.(config) = db.(config) /\
  same_accounts db db' /\
  (family_of op <> nft_family -> same_nft db db') /\
  (family_of op <> htlc_family -> same_htlc db db' /\ db.(balances) = db'.(balances)) /\
  (family_of op <> contract_family -> same_contract db db').
Proof.
  destruct op; simpl; intros He;
    first [destruct He as [_ ->] | destruct He as (c & r & _ & _ & _ & ->)];
    unfold mint_post, transfer_post, approve_post, burn_post, htlc_redeem_post, htlc_refund_post;
    repeat case_match; split_and!; try done; intros a; simpl; by rewrite ?credit_dom.
Qed.

Section preservation.
Context (eng : engine) `{!EngineLaws eng}.

(** The NFT counters move by at most one. *)
Lemma effect_counters n db op db' :
  n + 1 < 2 ^ 64 -> db_inv db -> counters_at_most n db -> op_effect eng db op db' ->
  counters_at_most (n + 1) db'.
Proof.
  intros Hn [H1 H2 _ H4] (Hc1 & Hc2 & Hc3 & Hc4) He.
  pose proof (wf_next_c _ _ _ _ _ _ _ H1). pose proof (wf_next_n _ _ _ _ _ _ _ H1).
  pose proof (wf_next_h _ _ _ H2). pose proof (wf_next_k _ _ _ _ H4).
  destruct op; simpl in He;
    first [destruct He as [_ ->] | destruct He as (c & r & _ & _ & _ & ->)];
    unfold mint_post, transfer_post, approve_post, burn_post, htlc_redeem_post, htlc_refund_post;
    repeat case_match; unfold counters_at_most; simpl; rewrite ?u64_small by lia; lia.
Qed.

(** An accepted operation keeps the invariant and the totals. *)
Lemma effect_inv n db op db' :
  n + 1 < 2 ^ 64 -> db_inv db -> counters_at_most n db -> typed_op op ->
  op_effect eng db op db' ->
  db_inv db' /\ forall s, is_ledger_symbol s -> total_value s db' = total_value s db.
Proof.
  intros Hn [H1 H2 H3 H4] (Hc1 & Hc2 & Hc3 & Hc4) Ht He.
  destruct (effect_frame _ _ _ _ He) as (_ & _ & Ha & Fn & Fh & Fc).
  assert (Hnft : nft_inv db').
  { destruct op; try (apply (same_nft_inv db); [apply Fn; discriminate|done|done]);
      destruct He as [Hpre ->].
    - apply create_collection_nft_inv; first [done|lia].
    - apply mint_nft_inv; first [done|lia].
    - by apply transfer_nft_inv.
    - by apply approve_nft_inv.
    - by apply set_approval_for_all_nft_inv.
    - by apply burn_nft_inv. }
  assert (Hctr : contract_inv db').
  { destruct op; try (apply (same_contract_inv db); [apply Fc; discriminate|done|done]).
    - destruct He as [Hpre ->]. eapply deploy_contract_inv; first [done|lia].
    - destruct He as (c & r & Hr & Hans & _ & ->). by eapply call_contract_inv. }
  assert (Hh : htlc_inv db' /\ funds_inv db' /\
            forall s, is_ledger_symbol s -> total_value s db' = total_value s db).
  { destruct (decide (family_of op = htlc_family)) as [Hf|Hf].
    - destruct op; try discriminate Hf; destruct He as [Hpre ->].
      + split_and!; [apply create_htlc_inv; first [done|lia]|by apply create_funds|].
        intros s Hs. by apply create_total.
      + by apply redeem_inv.
      + by apply refund_inv.
    - destruct (Fh Hf) as [Fh' Fb]. pose proof Fh' as [E1 E2]. split_and!.
      + by apply (same_htlc_inv db).
      + unfold funds_inv. by rewrite <-Fb, <-E1.
      + intros s _. unfold total_value. by rewrite Fb, E1. }
  destruct Hh as (? & ? & ?). by split.
Qed.

(** In a state of the invariant the evaluators do what [op_effect] says, refuse
    without a trace otherwise, and are defined. *)
Lemma apply_wp db op :
  db_inv db -> typed_op op ->
  wp (apply_with eng op) (fun _ db' => op_effect eng db op db')
    (fun _ db' => (forall db2, ~ op_effect eng db op db2) /\ refusal_trace db op db') db.
Proof.
  intros [H1 H2 H3 H4] Ht.
  assert (Hatomic : forall m pre post, atomic_spec m pre post db ->
    wp m (fun _ db' => pre /\ db' = post)
      (fun _ db' => (forall db2, ~ (pre /\ db2 = post)) /\ refusal_trace db op db') db).
  { intros m pre post H. eapply wp_mono; [exact H|done|]. intros e s (Hn & -> & _).
    split; [tauto|by left]. }
  assert (Hcharged : forall m pre post c, charged_spec m pre post c db ->
    wp m (fun _ db' => pre /\ db' = post)
      (fun _ db' => (forall db2, ~ (pre /\ db2 = post)) /\ refusal_trace db op db') db).
  { intros m pre post c H. eapply wp_mono; [exact H|done|]. intros e s (Hn & Hs & _).
    split; [tauto|]. destruct Hs as [->| ->]; [by left|right; left; by exists c]. }
  destruct op; simpl.
  - apply Hatomic, create_collection_spec.
  - apply Hatomic, mint_spec.
  - apply Hatomic, transfer_spec.
  - apply Hatomic, approve_spec.
  - apply Hatomic, set_approval_for_all_spec.
  - apply Hatomic, burn_spec.
  - eapply Hcharged, htlc_create_spec; [by apply create_balance_in_range|apply Ht].
  - eapply Hcharged, htlc_redeem_spec. by apply payout_is_defined.
  - eapply Hcharged, htlc_refund_spec. by apply payout_is_defined.
  - eapply wp_mono; [apply deploy_spec|done|]. intros e s [Hn ->].
    split; [tauto|by left].
  - eapply wp_mono; [apply call_spec|done|].
    intros e s [(Hn & -> & _)|(c & Hr & Hc)].
    + split; [|by left]. intros db2 (c & r & Hr & _). by eapply Hn.
    + assert (Htouch : call_touched db op = db) by (eapply call_touched_id; [done|apply Hr]).
      unfold call_failed_post in Hc. rewrite Htouch in Hc. destruct (call_answer _ _ _ _) as [r|e'] eqn:E.
      * destruct Hc as (Hf & -> & _). split.
        -- intros db2 (c2 & r2 & Hr2 & Ha2 & Hs & _).
           assert (c2 = c) as -> by (destruct Hr as (_&_&_&Hr), Hr2 as (_&_&_&Hr2); congruence).
           congruence.
        -- right; right. exists op, r.
           eapply call_within_limits in E as [? _]; [done|apply Ht].
      * destruct Hc as [-> ->]. split; [|by left].
        intros db2 (c2 & r2 & Hr2 & Ha2 & _).
        assert (c2 = c) as -> by (destruct Hr as (_&_&_&Hr), Hr2 as (_&_&_&Hr2); congruence).
        congruence.
Qed.

Lemma is_done_effect db op :
  db_inv db -> typed_op op ->
  is_done (apply_with eng op db) = true <-> exists db', op_effect eng db op db'.
Proof.
  intros Hi Ht. pose proof (apply_wp db op Hi Ht) as H. unfold wp in H.
  destruct (apply_with eng op db) as [[] s|e s|]; simpl; naive_solver.
Qed.
End preservation.

(** ** History

    What later states owe to earlier ones, whatever happens in between. *)

(** What no operation changes of a minted NFT. *)
Definition nft_same_token (n n' : nft_object) : Prop :=
  n'.(nft_id) = n.(nft_id) /\ n'.(nft_collection) = n.(nft_collection) /\
  n'.(nft_token_serial) = n.(nft_token_serial) /\
  n'.(nft_metadata_hash) = n.(nft_metadata_hash) /\ n'.(nft_uri) = n.(nft_uri) /\
  n'.(nft_soulbound) = n.(nft_soulbound) /\ n'.(nft_minted) = n.(nft_minted) /\
  (n.(nft_soulbound) = true -> n'.(nft_owner) = n.(nft_owner)).

Definition htlc_same_lock (h h' : htlc_object) : Prop :=
  h' = htlc_set_status h h'.(status) /\ (h.(status) <> open -> h'.(status) = h.(status)).

Record nft_evolves (db db' : database) : Prop := {
  ev_next_nft : db.(next_nft_id) <= db'.(next_nft_id);
  ev_collections id c : db.(collections) !! id = Some c ->
    exists supply, db'.(collections) !! id = Some (set_supply c supply);
  ev_symbols s id : db.(collection_by_symbol) !! s = Some id ->
    db'.(collection_by_symbol) !! s = Some id;
  ev_nfts id n : db.(nfts) !! id = Some n ->
    (db'.(nfts) !! id = None /\ id < db'.(next_nft_id)) \/
    exists n', db'.(nfts) !! id = Some n' /\ nft_same_token n n';
  ev_burned id : id < db.(next_nft_id) -> db.(nfts) !! id = None -> db'.(nfts) !! id = None }.

Definition htlc_evolves (db db' : database) : Prop :=
  forall id h, db.(htlcs) !! id = Some h ->
    exists h', db'.(htlcs) !! id = Some h' /\ htlc_same_lock h h'.

Record evolves (db db' : database) : Prop := {
  ev_accounts a : is_Some (db.(balances) !! a) -> is_Some (db'.(balances) !! a);
  ev_nft : nft_evolves db db';
  ev_htlc : htlc_evolves db db';
  ev_contracts id c : db.(contracts) !! id = Some c -> db'.(contracts) !! id = Some c }.

Lemma set_supply_id c : set_supply c c.(col_supply) = c.
Proof. by destruct c. Qed.
Lemma htlc_same_lock_refl h : htlc_same_lock h h.
Proof. split; [by destruct h|done]. Qed.
Lemma nft_same_token_refl n : nft_same_token n n.
Proof. by split_and!. Qed.
Lemma nft_same_token_trans n1 n2 n3 :
  nft_same_token n1 n2 -> nft_same_token n2 n3 -> nft_same_token n1 n3.
Proof.
  intros (?&?&?&?&?&Hs&?&Ho) (?&?&?&?&?&?&?&Ho'). split_and!; try congruence.
  intros E. rewrite Ho', Ho; congruence.
Qed.

(** A database whose NFT tables are the same. *)
Lemma same_nft_evolves db db' : same_nft db db' -> nft_evolves db db'.
Proof.
  intros (E1&E2&E3&E4&E5&E6). split; rewrite <-?E1, <-?E2, <-?E3, <-?E6; try done.
  - intros id c Hc. exists c.(col_supply). by rewrite set_supply_id.
  - intros id n Hn. right. exists n. split; [done|apply nft_same_token_refl].
Qed.
Lemma same_htlc_evolves db db' : same_htlc db db' -> htlc_evolves db db'.
Proof. intros [E _] id h Hh. exists h. rewrite <-E. split; [done|apply htlc_same_lock_refl]. Qed.

#[export] Instance nft_evolves_trans : Transitive nft_evolves.
Proof.
  intros d1 d2 d3 A B. split.
  - etrans; [apply A|apply B].
  - intros id c Hc. destruct (ev_collections _ _ A _ _ Hc) as [s1 H1].
    destruct (ev_collections _ _ B _ _ H1) as [s2 H2]. by exists s2.
  - intros s id Hs. by apply B, A.
  - intros id n Hn. destruct (ev_nfts _ _ A _ _ Hn) as [[Hb Hlt]|(n1 & H1 & T1)].
    + left. split; [by apply B|]. pose proof (ev_next_nft _ _ B). lia.
    + destruct (ev_nfts _ _ B _ _ H1) as [Hb|(n2 & H2 & T2)]; [by left|right].
      exists n2. split; [done|by eapply nft_same_token_trans].
  - intros id Hid Hn. apply B; [|by apply A]. pose proof (ev_next_nft _ _ A). lia.
Qed.

#[export] Instance htlc_evolves_trans : Transitive htlc_evolves.
Proof.
  intros d1 d2 d3 A B id h Hh. destruct (A _ _ Hh) as (h1 & H1 & E1 & S1).
  destruct (B _ _ H1) as (h2 & H2 & E2 & S2). exists h2. split; [done|].
  split; [by rewrite E2, E1|]. intros Ho. rewrite S2; [by apply S1|]. by rewrite S1.
Qed.

#[export] Instance evolves_preorder : PreOrder evolves.
Proof.
  split.
  - intros db. split; [done|by apply same_nft_evolves|by apply same_htlc_evolves|done].
  - intros d1 d2 d3 A B. split.
    + intros a Ha. by apply B, A.
    + etrans; [apply A|apply B].
    + etrans; [apply A|apply B].
    + intros id c Hc. by apply B, A.
Qed.

Lemma same_tables_evolves db db' : same_tables db db' -> evolves db db'.
Proof.
  intros (E1&E2&E3&E4&E5&E6&E7&E8&E9&E10&E11&E12). split.
  - by rewrite E1.
  - by apply same_nft_evolves.
  - by apply same_htlc_evolves.
  - by rewrite E7.
Qed.

Section evolution.
Context (eng : engine) `{!EngineLaws eng}.

(** An insertion at a key the counter has not handed out yet. *)
Lemma lookup_insert_new {V} (m : gmap Z V) k v i w :
  m !! k = None -> m !! i = Some w -> <[k := v]> m !! i = Some w.
Proof. intros Hk Hi. rewrite lookup_insert_ne by congruence. done. Qed.

(** Replacing the owner or the approval of one NFT. *)
Lemma update_nft_evolves db db' id n owner approved :
  db.(nfts) !! id = Some n -> (n.(nft_soulbound) = true -> owner = n.(nft_owner)) ->
  same_nft (upd_nfts (<[id := nft_set_owner n owner approved]>) db) db' -> nft_evolves db db'.
Proof.
  intros Hid Hsb Hs. trans (upd_nfts (<[id := nft_set_owner n owner approved]>) db);
    [|by apply same_nft_evolves].
  destruct (same_nft_evolves db db) as [H1 H2 H3 H4 H5]; [done|].
  split; simpl; try done.
  - intros i t Ht. right. rewrite lookup_insert. case_decide as Hi; [|exists t; by split].
    subst i. rewrite Hid in Ht. injection Ht as ->. eexists. split; [done|].
    by split_and!.
  - intros i Hi Hn. rewrite lookup_insert_ne by congruence. done.
Qed.

Lemma mint_evolves db op : db.(next_nft_id) + 1 < 2 ^ 64 -> nft_inv db -> mint_pre db op ->
  nft_evolves db (mint_post db op).
Proof.
  intros Hn H (_ & _ & _ & _ & c & Hc & _). unfold mint_post. rewrite Hc.
  pose proof (wf_next_n _ _ _ _ _ _ _ H). pose proof (fresh_nft _ _ _ _ _ _ _ H) as Hfresh.
  split; simpl; rewrite ?u64_small by lia; try done; try lia.
  - intros id c' Hc'. rewrite lookup_insert. case_decide; [|exists c'.(col_supply); by rewrite set_supply_id].
    simplify_eq. by eexists.
  - intros id t Ht. right. exists t. split; [by apply lookup_insert_new|apply nft_same_token_refl].
  - intros id Hid Hnone. rewrite lookup_insert_ne by lia. done.
Qed.

Lemma burn_evolves db op : nft_inv db -> burn_pre db op -> nft_evolves db (burn_post db op).
Proof.
  intros H (_ & _ & n & Hn & _). unfold burn_post. rewrite Hn. split; simpl; try done.
  - intros id c Hc. destruct (decide (nft_collection n = id)) as [->|Hne].
    + rewrite lookup_alter_eq, Hc. simpl. unfold burn_supply. case_match; [by eexists|].
      exists c.(col_supply). by rewrite set_supply_id.
    + rewrite lookup_alter_ne by done. exists c.(col_supply). by rewrite set_supply_id.
  - intros id t Ht. destruct (wf_nfts _ _ _ _ _ _ _ H _ _ Ht) as (_ & ? & _).
    rewrite lookup_delete. case_decide; [left; split; [done|lia]|right]. exists t.
    split; [done|apply nft_same_token_refl].
  - intros id Hid Hnone. rewrite lookup_delete. by case_decide.
Qed.

Lemma create_collection_evolves db op : nft_inv db -> create_collection_pre db op ->
  nft_evolves db (create_collection_post db op).
Proof.
  intros H (_ & _ & _ & Hsym). pose proof (fresh_collection _ _ _ _ _ _ _ H) as Hfresh.
  destruct (same_nft_evolves db db) as [H1 H2 H3 H4 H5]; [done|]. split; simpl; try done.
  - intros id c Hc. exists c.(col_supply). rewrite set_supply_id. by apply lookup_insert_new.
  - intros s id Hs. rewrite lookup_insert_ne by congruence. done.
Qed.

Lemma close_evolves db db' id h st :
  db.(htlcs) !! id = Some h -> h.(status) = open ->
  db'.(htlcs) = <[id := htlc_set_status h st]> db.(htlcs) -> htlc_evolves db db'.
Proof.
  intros Hid Ho E i h' Hh. rewrite E, lookup_insert. case_decide as Hi.
  - subst i. rewrite Hid in Hh. injection Hh as <-. eexists. split; [done|].
    split; [by destruct h|]. by intros ?.
  - exists h'. split; [done|apply htlc_same_lock_refl].
Qed.

Lemma effect_evolves n db op db' :
  n + 1 < 2 ^ 64 -> db_inv db -> counters_at_most n db -> op_effect eng db op db' ->
  evolves db db'.
Proof.
  intros Hn [H1 H2 _ H4] (Hc1 & Hc2 & Hc3 & Hc4) He.
  destruct (effect_frame _ _ _ _ He) as (_ & _ & Ha & Fn & Fh & Fc). split.
  - intros a. apply Ha.
  - destruct op; try (apply same_nft_evolves, Fn; discriminate); destruct He as [Hpre ->].
    + by apply create_collection_evolves.
    + apply mint_evolves; [lia|done|done].
    + destruct Hpre as (_ & _ & _ & t & Ht & _ & Hsb). unfold transfer_post. rewrite Ht.
      eapply update_nft_evolves; [exact Ht|congruence|done].
    + destruct Hpre as (_ & _ & _ & t & Ht & _). unfold approve_post. rewrite Ht.
      eapply update_nft_evolves; [exact Ht|done|done].
    + destruct (same_nft_evolves db db) as [? ? ? ? ?]; [done|]. by split.
    + by apply burn_evolves.
  - destruct op; try (apply same_htlc_evolves, Fh; discriminate); destruct He as [Hpre ->].
    + intros id h Hh. exists h. split; [|apply htlc_same_lock_refl]. simpl.
      apply lookup_insert_new; [|done]. by eapply fresh_htlc.
    + destruct Hpre as (_ & _ & _ & h & Hh & Ho & _). unfold htlc_redeem_post. rewrite Hh.
      by eapply close_evolves.
    + destruct Hpre as (_ & _ & _ & h & Hh & Ho & _). unfold htlc_refund_post. rewrite Hh.
      by eapply close_evolves.
  - destruct op; try (destruct Fc as (E & _); [discriminate|by rewrite E]).
    + destruct He as [_ ->]. intros id c Hc. simpl. apply lookup_insert_new; [|done].
      by eapply fresh_contract.
    + by destruct He as (c & r & _ & _ & _ & ->).
Qed.
End evolution.

(** ** Runs *)

Section runs.
Context (eng : engine) `{!EngineLaws eng}.

(** A database in good standing: [n] bounds the id counters. *)
Definition good (n : Z) (db : database) : Prop := db_inv db /\ counters_at_most n db.

(** What one event owes to the state before it. *)
Definition follows (n : Z) (db db' : database) : Prop :=
  good (n + 1) db' /\ evolves db db' /\
  forall s, is_ledger_symbol s -> total_value s db' = total_value s db.

Lemma same_tables_follows n db db' : good n db -> same_tables db db' -> follows n db db'.
Proof.
  intros [Hi Hc] Hs. split_and!.
  - split; [by eapply same_tables_inv|]. eapply same_tables_counters in Hs; [|exact Hc].
    unfold counters_at_most in *. lia.
  - by apply same_tables_evolves.
  - intros s _. by apply same_tables_total.
Qed.

(** Opening an account with nothing in it. *)
Lemma open_account_follows n db name :
  good n db -> db.(balances) !! name = None ->
  follows n db (upd_balances (<[name := mk_account_balance 0 0]>) db).
Proof.
  intros [[H1 H2 H3 H4] Hc] Hnew.
  assert (Hmono : forall a, is_Some (balances db !! a) ->
            is_Some (<[name := mk_account_balance 0 0]> (balances db) !! a)).
  { intros a [b Hb]. exists b. rewrite lookup_insert_ne by congruence. done. }
  assert (Hliq : forall s, liquid s (<[name := mk_account_balance 0 0]> (balances db))
                           = liquid s (balances db)).
  { intros s. unfold liquid. rewrite map_sum_insert_new by done.
    unfold balance_field at 1. case_bool_decide; done. }
  split_and!.
  - split; [split|unfold counters_at_most in *; simpl; lia].
    + unfold nft_inv. simpl. eapply nft_wf_mono; [exact Hmono|exact H1].
    + unfold htlc_inv. simpl. eapply htlc_wf_mono; [exact Hmono|exact H2].
    + split; simpl.
      * intros a b s Hl. apply lookup_insert_Some in Hl as [[_ <-]|[_ Hl]];
          [unfold balance_field; by case_bool_decide|by eapply H3].
      * intros s Hs. rewrite Hliq. by apply H3.
    + unfold contract_inv. simpl. eapply contract_wf_mono; [exact Hmono|exact H4].
  - split; [exact Hmono|by apply same_nft_evolves|by apply same_htlc_evolves|done].
  - intros s _. unfold total_value. simpl. by rewrite Hliq.
Qed.

Lemma step_follows n db db' : n + 1 < 2 ^ 64 -> good n db -> step eng db db' -> follows n db db'.
Proof.
  intros Hn Hg Hs. pose proof Hg as [Hi Hc]. destruct Hs as [op db' Ht He|op e db' Ht He|t Ht|c|db' He|name db' Hnew He].
  - pose proof (wp_done _ _ _ _ _ _ (apply_wp eng db op Hi Ht) He) as Hop. simpl in Hop.
    destruct (effect_inv eng n db op db') as [? ?]; [done..|].
    split_and!; [split; [done|by apply (effect_counters eng n db op)]|by apply (effect_evolves eng n db op)|done].
  - pose proof (wp_thrown _ _ _ _ _ _ (apply_wp eng db op Hi Ht) He) as [_ Hop].
    apply same_tables_follows; [done|by eapply refusal_same_tables].
  - by apply same_tables_follows.
  - by apply same_tables_follows.
  - injection He as <-. by apply same_tables_follows.
  - unfold create_account in He. apply bind_done in He as ([] & s1 & Hl & He).
    apply lift_done in Hl as [_ ->]. injection He as <-. by apply open_account_follows.
Qed.

Lemma run_nonneg n db db' : run eng db n db' -> 0 <= n.
Proof. induction 1; lia. Qed.

Lemma run_follows n db db' :
  run eng db n db' -> forall k, good k db -> n + k < 2 ^ 64 ->
  good (n + k) db' /\ evolves db db' /\
  forall s, is_ledger_symbol s -> total_value s db' = total_value s db.
Proof.
  induction 1 as [|n db1 db2 Hr IH Hs]; intros k Hg Hk.
  - split_and!; [by rewrite Z.add_0_l|done|done].
  - destruct (IH k Hg) as (Hg1 & He1 & Ht1); [lia|].
    destruct (step_follows (n + k) db1 db2) as (Hg2 & He2 & Ht2); [lia|done|done|].
    split_and!; [by replace (n + 1 + k) with (n + k + 1) by lia|by trans db1|].
    intros s Hl. by rewrite Ht2, Ht1.
Qed.

Lemma reachable_good n db0 db :
  genesis db0 -> run eng db0 n db -> n < RUN_LIMIT -> good (n + 1) db.
Proof.
  intros Hg Hr Hn. unfold RUN_LIMIT in Hn. apply (run_follows n db0 db Hr 1); [by apply genesis_inv|lia].
Qed.
End runs.
