(* ===== verification/ChainProperties.v ===== *)
(** * Properties of the chain

    Theorems about every reachable database, for any contract engine with
    [EngineLaws], each with a concrete run of the code where it applies. *)
From S2P Require Import Prelude Types Crypto Protocol Costs Database EvalNft EvalHtlc Engine EvalContracts NftInvariant HtlcInvariant ContractInvariant Chain.

(** A state the chain gets to from a genesis state, before any 64-bit id
    counter can wrap. *)
Definition reachable (eng : engine) (db : database) : Prop :=
  exists db0 n, genesis db0 /\ run eng db0 n db /\ n < RUN_LIMIT.

Lemma reachable_inv eng `{!EngineLaws eng} db : reachable eng db -> db_inv db.
Proof. intros (db0 & n & Hg & Hr & Hn). by apply (reachable_good eng n db0 db). Qed.

(** ** A concrete history

    [play] executes a list of events; [play_run] turns it into a [run]. *)

Inductive event : Type := ev_op (op : operation) | ev_time (t : Z).

Definition play_event (ev : event) (db : database) : option database :=
  match ev with
  | ev_op op => final_state (apply op db)
  | ev_time t => if (db.(head_time) <=? t) && (t <? 2 ^ 32)
                 then Some (upd_head_time (fun _ => t) db) else None
  end.
Fixpoint play (evs : list event) (db : database) : option database :=
  match evs with
  | [] => Some db
  | ev :: evs' => match play_event ev db with Some db' => play evs' db' | None => None end
  end.

Definition typed_event (ev : event) : Prop :=
  match ev with ev_op op => typed_op op | ev_time _ => True end.

Lemma play_event_step ev db db' :
  typed_event ev -> play_event ev db = Some db' -> step default_engine db db'.
Proof.
  destruct ev as [op|t]; simpl; intros Ht.
  - unfold apply. destruct (apply_with default_engine op db) as [[] s|e s|] eqn:E; simpl;
      intros [= <-]; [by eapply step_accepted|by eapply step_refused].
  - case_match eqn:E; [|done]. intros [= <-]. apply step_time. guards. lia.
Qed.

Lemma run_trans eng n m db1 db2 db3 :
  run eng db1 n db2 -> run eng db2 m db3 -> run eng db1 (n + m) db3.
Proof.
  intros H1. induction 1 as [|m db3 db4 H2 IH Hs].
  - by rewrite Z.add_0_r.
  - replace (n + (m + 1)) with (n + m + 1) by lia. by eapply run_step.
Qed.

Lemma play_run evs db db' :
  Forall typed_event evs -> play evs db = Some db' ->
  run default_engine db (size_of evs) db'.
Proof.
  revert db. induction evs as [|ev evs IH]; intros db Ht; simpl.
  - intros [= <-]. apply run_none.
  - apply Forall_cons in Ht as [Hev Ht]. destruct (play_event ev db) as [db1|] eqn:E; [|done].
    intros Hp. replace (size_of (ev :: evs)) with (1 + size_of evs) by (unfold size_of; simpl; lia).
    eapply run_trans; [|by apply IH].
    apply (run_step _ _ 0 db); [apply run_none|by eapply play_event_step].
Qed.

Definition sample_genesis : database :=
  upd_balances (fun _ => <["alice" := mk_account_balance 1000 500]>
    (<["bob" := mk_account_balance 10 0]> (<["carol" := mk_account_balance 0 0]> ∅)))
  (upd_head_time (fun _ => 1000000) (upd_config (fun _ => default_node_config) empty_database)).

Lemma sample_genesis_ok : genesis sample_genesis.
Proof.
  split; [|split].
  - unfold sample_genesis. eauto.
  - intros a b s Hl. unfold sample_genesis in Hl. simpl in Hl.
    repeat (apply lookup_insert_Some in Hl as [[_ <-]|[_ Hl]];
            [unfold balance_field; case_bool_decide; done|]). by rewrite lookup_empty in Hl.
  - intros s [-> | ->]; vm_compute; congruence.
Qed.

Definition secret : list byte := string_bytes "s3cret".
Definition zero_hash : list byte := replicate 32 x00.

Definition sample_events : list event := [
  ev_op (op_nft_create_collection (mk_nft_create_collection "alice" "ART" "Art" 10 true));
  ev_op (op_nft_mint (mk_nft_mint "alice" 1 "bob" zero_hash "ipfs" false));
  ev_op (op_nft_mint (mk_nft_mint "alice" 1 "carol" zero_hash "ipfs" true));
  ev_op (op_htlc_create (mk_htlc_create "alice" "bob" (mk_asset 100 HIVE)
    (mk_digest algo_sha256 (sha256 secret)) 6 1000100 ""));
  ev_op (op_contract_deploy (mk_contract_deploy "alice" (string_bytes "code") zero_hash 1000 []));
  ev_time 1000050 ].

(** The state after these six events. *)
Definition sample_state : database := default empty_database (play sample_events sample_genesis).

Lemma sample_events_typed : Forall typed_event sample_events.
Proof. repeat constructor; try (intros H; vm_compute in H; discriminate H). Qed.

Lemma sample_run : run default_engine sample_genesis 6 sample_state.
Proof.
  apply (play_run sample_events); [apply sample_events_typed|].
  unfold sample_state.
  assert (H : is_Some (play sample_events sample_genesis)).
  { apply not_eq_None_Some. vm_compute. discriminate. }
  by destruct H as [db ->].
Qed.

Lemma sample_reachable : reachable default_engine sample_state.
Proof.
  exists sample_genesis, 6. split_and!; [apply sample_genesis_ok|apply sample_run|done].
Qed.

(** Reads a fact off [sample_state] by evaluation. *)
Ltac by_eval := vm_compute; first [reflexivity | split_and!; congruence | congruence].

Definition fresh_secret_redeem : htlc_redeem_operation := mk_htlc_redeem "bob" 1 secret.
Definition early_refund : htlc_refund_operation := mk_htlc_refund "alice" 1.

(** ** Every operation refines its contract *)

(** C1. In every reachable state, each of the eleven operations is accepted
    exactly when its contract [op_effect] says so, and then leaves exactly the
    state the contract describes; a refusal means no state satisfies the
    contract, and changes nothing but the RC figure (a contract call that ran
    and failed is also logged); no operation overflows a signed balance. *)
Theorem apply_refines_contract (eng : engine) `{!EngineLaws eng} (db : database) (op : operation) :
  reachable eng db -> typed_op op ->
  (forall db', apply_with eng op db = Done tt db' <-> op_effect eng db op db') /\
  (forall e db', apply_with eng op db = Thrown e db' ->
     (forall db2, ~ op_effect eng db op db2) /\ refusal_trace db op db') /\
  apply_with eng op db <> Undef.
Proof.
  intros Hr Ht. pose proof (apply_wp eng db op (reachable_inv eng db Hr) Ht) as H.
  split_and!.
  - intros db'. split; [apply (wp_done _ _ _ _ _ _ H)|].
    intros He. unfold wp in H. destruct (apply_with eng op db) as [[] s|e s|]; [|naive_solver..].
    f_equal. by eapply op_effect_functional.
  - intros e db'. apply (wp_thrown _ _ _ _ _ _ H).
  - intros Hu. unfold wp in H. by rewrite Hu in H.
Qed.

Example apply_refines_contract_witness :
  op_effect default_engine sample_state (op_htlc_redeem fresh_secret_redeem)
    (default empty_database (final_state (apply (op_htlc_redeem fresh_secret_redeem) sample_state))).
Proof.
  apply (proj1 (apply_refines_contract default_engine sample_state
    (op_htlc_redeem fresh_secret_redeem) sample_reachable ltac:(simpl; unfold is_u64; simpl; lia))).
  vm_compute. reflexivity.
Defined.

(** ** Conservation *)

(** C2. The evaluators neither create nor destroy HIVE or HBD: from genesis on,
    liquid balances plus open HTLCs always add up to the genesis supply, and
    every balance stays between zero and that supply. *)
Theorem value_conserved (eng : engine) `{!EngineLaws eng} (db0 db : database) (n : Z)
  (s : asset_symbol) :
  genesis db0 -> run eng db0 n db -> n < RUN_LIMIT -> is_ledger_symbol s ->
  total_value s db = total_value s db0 /\
  forall a b, db.(balances) !! a = Some b -> 0 <= balance_field b s <= total_value s db0.
Proof.
  intros Hg Hr Hn Hs. destruct (genesis_inv _ Hg) as [Hi0 Hc0].
  destruct (run_follows eng n db0 db Hr 1) as ([Hi _] & _ & Ht);
    [done|unfold RUN_LIMIT in Hn; lia|].
  split; [by apply Ht|]. intros a b Hb. rewrite <-(Ht s Hs).
  destruct Hi as [_ Hw Hf _]. split; [by eapply Hf|].
  pose proof (balance_le_liquid s _ _ _ (wf_balances _ _ Hf) Hb). unfold total_value.
  enough (0 <= locked s (htlcs db)) by lia. apply locked_nonneg.
  intros id h Hh. destruct (wf_htlcs _ _ _ Hw _ _ Hh) as (?&?&?&?&?&_). lia.
Qed.

Example value_conserved_witness : total_value HIVE sample_state = 1010.
Proof.
  rewrite (proj1 (value_conserved default_engine sample_genesis sample_state 6 HIVE
    sample_genesis_ok sample_run ltac:(done) ltac:(by left))).
  vm_compute. reflexivity.
Defined.

(** C12. Only an account's own [htlc_create] takes funds from it, and takes
    exactly the locked amount; every other accepted operation leaves the balance
    or adds to it. *)
Theorem only_own_create_debits (eng : engine) `{!EngineLaws eng} (db db' : database)
  (op : operation) (a : string) (b : account_balance) (s : asset_symbol) :
  reachable eng db -> typed_op op -> apply_with eng op db = Done tt db' ->
  db.(balances) !! a = Some b -> is_ledger_symbol s ->
  exists b', db'.(balances) !! a = Some b' /\
    (balance_field b s <= balance_field b' s \/
     exists cop, op = op_htlc_create cop /\ cop.(hc_from) = a /\ cop.(hc_amount).(symbol) = s /\
       balance_field b' s = balance_field b s - cop.(hc_amount).(amount)).
Proof.
  intros Hr Ht He Hb Hs. pose proof (reachable_inv eng db Hr) as Hi.
  pose proof (wp_done _ _ _ _ _ _ (apply_wp eng db op Hi Ht) He) as Hop. simpl in Hop.
  destruct (effect_frame _ _ _ _ Hop) as (_ & _ & _ & _ & Fh & _).
  destruct (decide (family_of op = htlc_family)) as [Hf|Hf].
  2: { destruct (Fh Hf) as [_ <-]. exists b. split; [done|by left]. }
  destruct Hi as [_ Hw _ _].
  destruct op as [| | | | | |cop|rop|fop| |]; try discriminate Hf; destruct Hop as [Hpre ->].
  - destruct Hpre as (_ & Hv & _). destruct Hv as (_&_&_&_&Hsym&_).
    destruct (credit_lookup (hc_from cop) (symbol (hc_amount cop)) (- amount (hc_amount cop))
      (balances db) a b s Hsym Hs Hb) as (b' & Hb' & E).
    exists b'. split; [done|]. rewrite E. case_decide as Hc; [right|left; lia].
    exists cop. destruct Hc as [-> ->]. parts.
  - destruct Hpre as (_ & _ & _ & h & Hh & _). unfold htlc_redeem_post. rewrite Hh.
    destruct (wf_htlcs _ _ _ Hw _ _ Hh) as (_&_&_&_&?&Hsym&_).
    destruct (credit_lookup (htlc_to h) (symbol (htlc_amount h)) (amount (htlc_amount h))
      (balances db) a b s Hsym Hs Hb) as (b' & Hb' & E).
    exists b'. split; [done|left]. rewrite E. case_decide; lia.
  - destruct Hpre as (_ & _ & _ & h & Hh & _). unfold htlc_refund_post. rewrite Hh.
    destruct (wf_htlcs _ _ _ Hw _ _ Hh) as (_&_&_&_&?&Hsym&_).
    destruct (credit_lookup (htlc_from h) (symbol (htlc_amount h)) (amount (htlc_amount h))
      (balances db) a b s Hsym Hs Hb) as (b' & Hb' & E).
    exists b'. split; [done|left]. rewrite E. case_decide; lia.
Qed.

Example only_own_create_debits_witness :
  exists b', (default empty_database (final_state
      (apply (op_htlc_redeem fresh_secret_redeem) sample_state))).(balances) !! "bob" = Some b' /\
    10 <= balance_field b' HIVE.
Proof.
  destruct (only_own_create_debits default_engine sample_state
    (default empty_database (final_state (apply (op_htlc_redeem fresh_secret_redeem) sample_state)))
    (op_htlc_redeem fresh_secret_redeem) "bob" (mk_account_balance 10 0) HIVE)
    as (b' & Hb & [Hle|(? & E & _)]).
  - apply sample_reachable.
  - simpl. unfold is_u64. simpl. lia.
  - vm_compute. reflexivity.
  - vm_compute. reflexivity.
  - by left.
  - exists b'. exact (conj Hb Hle).
  - discriminate E.
Defined.

(** ** History *)

(** C11. The history of the chain is append-only: whatever happens, accounts
    persist, collections only change their supply, symbols keep their
    collection, a minted NFT keeps its identity, serial and metadata (and its
    owner when soulbound) until it is burned and its id is then never issued
    again, an HTLC keeps its terms and its first closing status for ever, and a
    deployed contract never changes. *)
Theorem history_append_only (eng : engine) `{!EngineLaws eng} (db0 db1 db2 : database) (n m : Z) :
  genesis db0 -> run eng db0 n db1 -> run eng db1 m db2 -> n + m < RUN_LIMIT -> evolves db1 db2.
Proof.
  intros Hg H1 H2 Hnm. pose proof (run_nonneg _ _ _ _ H2).
  assert (Hgood : good (n + 1) db1) by (apply (reachable_good eng n db0); [done|done|lia]).
  apply (run_follows eng m db1 db2 H2 (n + 1) Hgood). unfold RUN_LIMIT in Hnm. lia.
Qed.

Definition redeemed_state : database :=
  default empty_database (play [ev_op (op_htlc_redeem fresh_secret_redeem)] sample_state).

Lemma redeem_run : run default_engine sample_state 1 redeemed_state.
Proof.
  apply (play_run [ev_op (op_htlc_redeem fresh_secret_redeem)]).
  - repeat constructor; intros H; vm_compute in H; discriminate H.
  - unfold redeemed_state.
    assert (H : is_Some (play [ev_op (op_htlc_redeem fresh_secret_redeem)] sample_state)).
    { apply not_eq_None_Some. vm_compute. discriminate. }
    by destruct H as [db ->].
Qed.

Example history_append_only_witness :
  exists c, sample_state.(contracts) !! 1 = Some c /\ redeemed_state.(contracts) !! 1 = Some c.
Proof.
  pose proof (history_append_only default_engine sample_genesis sample_state redeemed_state 6 1
    sample_genesis_ok sample_run redeem_run ltac:(done)) as Hev.
  assert (Hc : is_Some (sample_state.(contracts) !! 1))
    by (apply not_eq_None_Some; vm_compute; discriminate).
  destruct Hc as [c Hc]. exists c. split; [exact Hc|]. exact (ev_contracts _ _ Hev 1 c Hc).
Defined.

(** ** NFTs *)

(** C7. Who may change an NFT: from an accepted operation a token comes out
    unchanged, unless the operation is a transfer of it by its owner, the
    account approved for it or an approved operator of its owner (then it is
    not soulbound, gets the new owner and loses its approval), an approval by
    its owner, or a burn by its owner. *)
Theorem nft_changes_need_authority (eng : engine) `{!EngineLaws eng} (db db' : database)
  (op : operation) (id : Z) (n : nft_object) :
  reachable eng db -> typed_op op -> apply_with eng op db = Done tt db' ->
  db.(nfts) !! id = Some n ->
  db'.(nfts) !! id = Some n \/
  (exists t, op = op_nft_transfer t /\ t.(xfer_nft_id) = id /\ may_transfer db n t.(xfer_from) /\
     n.(nft_soulbound) = false /\ db'.(nfts) !! id = Some (nft_set_owner n t.(xfer_to) "")) \/
  (exists t, op = op_nft_approve t /\ t.(appr_nft_id) = id /\ n.(nft_owner) = t.(appr_owner) /\
     db'.(nfts) !! id = Some (nft_set_owner n n.(nft_owner) t.(appr_approved))) \/
  (exists t, op = op_nft_burn t /\ t.(burn_nft_id) = id /\ n.(nft_owner) = t.(burn_owner) /\
     db'.(nfts) !! id = None).
Proof.
  intros Hr Ht He Hn. pose proof (reachable_inv eng db Hr) as Hi.
  pose proof (wp_done _ _ _ _ _ _ (apply_wp eng db op Hi Ht) He) as Hop. simpl in Hop.
  destruct (effect_frame _ _ _ _ Hop) as (_ & _ & _ & Fn & _).
  destruct (decide (family_of op = nft_family)) as [Hf|Hf].
  2: { left. destruct (Fn Hf) as (_ & _ & <- & _). done. }
  destruct Hi as [Hw _ _ _]. pose proof (fresh_nft _ _ _ _ _ _ _ Hw) as Hfresh.
  destruct op as [t|t|t|t|t|t| | | | |]; try discriminate Hf; destruct Hop as [Hpre ->].
  - by left.
  - left. destruct Hpre as (_&_&_&_&c&Hc&_). unfold mint_post. rewrite Hc. simpl.
    by apply lookup_insert_new.
  - destruct Hpre as (_&_&_&n'&Hn'&Hmay&Hsb). unfold transfer_post. rewrite Hn'. simpl.
    rewrite lookup_insert. case_decide as Hid; [|by left]. right; left. exists t.
    rewrite <-Hid, Hn' in Hn. simplify_eq. done.
  - destruct Hpre as (_&_&_&n'&Hn'&Hown). unfold approve_post. rewrite Hn'. simpl.
    rewrite lookup_insert. case_decide as Hid; [|by left]. right; right; left. exists t.
    rewrite <-Hid, Hn' in Hn. simplify_eq. done.
  - by left.
  - destruct Hpre as (_&_&n'&Hn'&Hown). unfold burn_post. rewrite Hn'. simpl.
    rewrite lookup_delete. case_decide as Hid; [|by left]. right; right; right. exists t.
    rewrite <-Hid, Hn' in Hn. simplify_eq. done.
Qed.

Definition sample_transfer : nft_transfer_operation := mk_nft_transfer "bob" "carol" 1 "".

(** What is stored under an id, computed. *)
Definition owner_of (db : database) (id : Z) : option string := nft_owner <$> db.(nfts) !! id.
Definition after (op : operation) (db : database) : database :=
  default empty_database (final_state (apply op db)).

Example nft_changes_need_authority_witness :
  owner_of (after (op_nft_transfer sample_transfer) sample_state) 1 = Some "carol" /\
  forall n, sample_state.(nfts) !! 1 = Some n -> may_transfer sample_state n "bob".
Proof.
  split; [vm_compute; reflexivity|]. intros n Hn.
  destruct (nft_changes_need_authority default_engine sample_state
    (after (op_nft_transfer sample_transfer) sample_state) (op_nft_transfer sample_transfer) 1 n)
    as [E|[(t & Et & _ & Hm & _)|[(t & Et & _)|(t & Et & _)]]].
  - apply sample_reachable.
  - simpl. unfold is_u64. simpl. lia.
  - vm_compute. reflexivity.
  - exact Hn.
  - exfalso. assert (H1 : owner_of (after (op_nft_transfer sample_transfer) sample_state) 1
                          = owner_of sample_state 1)
      by (unfold owner_of; rewrite E, Hn; exact eq_refl).
    vm_compute in H1. discriminate H1.
  - injection Et as <-. exact Hm.
  - discriminate Et.
  - discriminate Et.
Defined.

(** The NFTs of a collection. *)
Definition nfts_of (c : Z) (m : gmap Z nft_object) : gmap Z nft_object :=
  filter (fun kv => kv.2.(nft_collection) = c) m.

Lemma nft_count_size c m : nft_count c m = size_of (map_to_list (nfts_of c m)).
Proof.
  unfold size_of. rewrite length_map_to_list. unfold nft_count, nfts_of.
  induction m as [|k n m Hk IH] using map_ind; [done|].
  rewrite map_sum_insert_new, IH by done. unfold in_collection.
  destruct (Z.eqb_spec (nft_collection n) c) as [Hc|Hc].
  - rewrite map_filter_insert_True, map_size_insert_None; [lia| |done].
    by apply map_lookup_filter_None_2; left.
  - rewrite map_filter_insert_False by done. by rewrite (delete_id _ _ Hk).
Qed.

(** C10. Supply is exact: in every reachable state a collection's [supply] is the
    number of its live NFTs and never exceeds a [max_supply] that was set; and
    the symbol registry is a bijection between symbols and collections, so two
    collections never share a symbol. *)
Theorem supply_and_symbols_exact (eng : engine) `{!EngineLaws eng} (db : database) :
  reachable eng db ->
  (forall id c, db.(collections) !! id = Some c ->
     c.(col_supply) = size_of (map_to_list (nfts_of id db.(nfts))) /\
     (c.(col_max_supply) = 0 \/ c.(col_supply) <= c.(col_max_supply))) /\
  (forall s id, db.(collection_by_symbol) !! s = Some id <->
     exists c, db.(collections) !! id = Some c /\ c.(col_symbol) = s).
Proof.
  intros Hr. destruct (reachable_inv eng db Hr) as [H _ _ _]. split.
  - intros id c Hc. destruct (wf_collections _ _ _ _ _ _ _ H _ _ Hc) as (_&_&_&_&Hs&_&Hm).
    by rewrite <-nft_count_size.
  - intros s id. split; [apply (wf_symbols _ _ _ _ _ _ _ H)|]. intros (c & Hc & <-).
    by destruct (wf_collections _ _ _ _ _ _ _ H _ _ Hc) as (_&_&_&?&_).
Qed.

Example supply_and_symbols_exact_witness :
  exists c, sample_state.(collections) !! 1 = Some c /\ c.(col_supply) = 2.
Proof.
  pose proof (supply_and_symbols_exact default_engine sample_state sample_reachable) as [Hs Hb].
  destruct (proj1 (Hb "ART" 1)) as (c & Hc & _); [vm_compute; reflexivity|].
  exists c. split; [exact Hc|]. rewrite (proj1 (Hs 1 c Hc)). vm_compute. reflexivity.
Defined.

(** C13. The tables refer to each other and stay within their bounds. In every
    reachable state: an NFT is filed under its id, belongs to an existing account,
    is approved to nobody or to an existing account, and is in an existing
    collection, and is soulbound if that collection is not transferable; a
    collection's creator exists; an operator row is filed under its owner, operator
    and collection, between two different existing accounts, for an existing
    collection or for all (0); an HTLC is between existing accounts, locks a
    positive amount of HIVE or HBD, asks for a preimage within the cap and a hash of
    its algorithm's length, and runs for a duration within the bounds; a contract
    has an existing owner, code that is not empty and within the cap, and the hash
    of that code; storage is kept for the contracts and for nothing else, each key
    and value within the caps; no balance is negative; and every id in the tables is
    below the next one to be given out. *)
Theorem tables_well_formed (eng : engine) `{!EngineLaws eng} (db : database) :
  reachable eng db ->
  let known a := account_exists db a = true in
  (forall id t, db.(nfts) !! id = Some t ->
     t.(nft_id) = id /\ 1 <= id < db.(next_nft_id) /\ known t.(nft_owner) /\
     (t.(nft_approved) = "" \/ known t.(nft_approved)) /\
     exists c, db.(collections) !! t.(nft_collection) = Some c /\
       (c.(col_transferable) = false -> t.(nft_soulbound) = true)) /\
  (forall id c, db.(collections) !! id = Some c ->
     c.(col_id) = id /\ 1 <= id < db.(next_collection_id) /\ known c.(col_creator)) /\
  (forall k o, db.(operators) !! k = Some o ->
     k = (o.(opr_owner), o.(opr_operator_account), o.(opr_collection)) /\ o.(opr_approved) = true /\
     o.(opr_owner) <> o.(opr_operator_account) /\ known o.(opr_owner) /\ known o.(opr_operator_account) /\
     (o.(opr_collection) = 0 \/ is_Some (db.(collections) !! o.(opr_collection)))) /\
  (forall id h, db.(htlcs) !! id = Some h ->
     h.(htlc_id) = id /\ 1 <= id < db.(next_htlc_id) /\ known h.(htlc_from) /\ known h.(htlc_to) /\
     0 < h.(htlc_amount).(amount) <= INT64_MAX /\
     (h.(htlc_amount).(symbol) = HIVE \/ h.(htlc_amount).(symbol) = HBD) /\
     0 < h.(htlc_preimage_size) <= MAX_HTLC_PREIMAGE_LEN /\
     size_of h.(htlc_preimage_hash).(digest_bytes) = digest_size h.(htlc_preimage_hash).(algo) /\
     h.(htlc_created) + HTLC_MIN_DURATION_SEC <= h.(htlc_expiration)
       <= h.(htlc_created) + HTLC_MAX_DURATION_SEC) /\
  (forall id c, db.(contracts) !! id = Some c ->
     c.(ctr_id) = id /\ 1 <= id < db.(next_contract_id) /\ known c.(ctr_owner) /\
     0 < size_of c.(ctr_code) <= MAX_CODE_BYTES /\ c.(ctr_code_hash) = sha256 c.(ctr_code)) /\
  (forall id, is_Some (db.(contract_storage) !! id) <-> is_Some (db.(contracts) !! id)) /\
  (forall id st k v, db.(contract_storage) !! id = Some st -> st !! k = Some v ->
     str_size k <= 256 /\ size_of v <= 4096) /\
  (forall a b s, db.(balances) !! a = Some b -> 0 <= balance_field b s).
Proof.
  intros Hr known. unfold known. setoid_rewrite account_exists_true.
  destruct (reachable_inv eng db Hr) as [Hn Hh Hf Hc]. split_and!.
  - apply (wf_nfts _ _ _ _ _ _ _ Hn).
  - intros id c H. destruct (wf_collections _ _ _ _ _ _ _ Hn _ _ H) as (?&?&?&_). done.
  - apply (wf_operators _ _ _ _ _ _ _ Hn).
  - intros id h H. destruct (wf_htlcs _ _ _ Hh _ _ H) as (?&?&?&?&?&?&?&?&?&_). done.
  - intros id c H. destruct (wf_contracts _ _ _ _ Hc _ _ H) as (?&?&?&Hne&?&?). split_and!; try done; [lia|lia|].
    unfold size_of. destruct (ctr_code c); [done|simpl; lia].
  - apply (wf_storage _ _ _ _ Hc).
  - intros id st k v H Hk. apply (wf_entries _ _ _ _ Hc _ _ H k v Hk).
  - apply (wf_balances _ _ Hf).
Qed.

Example tables_well_formed_witness :
  account_exists sample_state "alice" = true /\
  exists c, sample_state.(contracts) !! 1 = Some c /\ c.(ctr_code_hash) = sha256 (string_bytes "code").
Proof.
  pose proof (tables_well_formed default_engine sample_state sample_reachable) as (_&_&_&_&Hc&_&_&_).
  assert (Hl : is_Some (sample_state.(contracts) !! 1)) by (apply not_eq_None_Some; vm_compute; discriminate).
  destruct Hl as [c Hl]. destruct (Hc 1 c Hl) as (_&_&Hown&_&Hhash).
  assert (E : (fun c => (c.(ctr_owner), c.(ctr_code))) <$> sample_state.(contracts) !! 1
    = Some ("alice", string_bytes "code")) by (vm_compute; reflexivity).
  rewrite Hl in E. simpl in E. injection E as E1 E2. rewrite E1 in Hown. rewrite E2 in Hhash.
  split; [exact Hown|by exists c].
Defined.

(** Soulbound is for life: once an NFT is soulbound, it belongs to the same
    account in every later state that still holds it. *)
Theorem soulbound_never_moves (eng : engine) `{!EngineLaws eng} (db0 db1 db2 : database)
  (n m id : Z) (t t' : nft_object) :
  genesis db0 -> run eng db0 n db1 -> run eng db1 m db2 -> n + m < RUN_LIMIT ->
  db1.(nfts) !! id = Some t -> t.(nft_soulbound) = true -> db2.(nfts) !! id = Some t' ->
  t'.(nft_owner) = t.(nft_owner) /\ t'.(nft_soulbound) = true.
Proof.
  intros Hg H1 H2 Hnm Ht Hs Ht'. pose proof (run_nonneg _ _ _ _ H2).
  assert (Hgood : good (n + 1) db1) by (apply (reachable_good eng n db0); [done|done|lia]).
  destruct (run_follows eng m db1 db2 H2 (n + 1) Hgood) as (_ & [_ Hev _ _] & _);
    [unfold RUN_LIMIT in Hnm; lia|].
  destruct (ev_nfts _ _ Hev _ _ Ht) as [[Hb _]|(t2 & Ht2 & Hsame)]; [congruence|].
  rewrite Ht' in Ht2. simplify_eq. destruct Hsame as (_&_&_&_&_&Hsb&_&Ho).
  split; [by apply Ho|congruence].
Qed.

Example soulbound_never_moves_witness :
  exists t t', sample_state.(nfts) !! 2 = Some t /\ redeemed_state.(nfts) !! 2 = Some t' /\
    t'.(nft_owner) = t.(nft_owner).
Proof.
  assert (H1 : is_Some (sample_state.(nfts) !! 2))
    by (apply not_eq_None_Some; vm_compute; discriminate).
  assert (H2 : is_Some (redeemed_state.(nfts) !! 2))
    by (apply not_eq_None_Some; vm_compute; discriminate).
  destruct H1 as [t Ht], H2 as [t' Ht']. exists t, t'. split; [exact Ht|split; [exact Ht'|]].
  refine (proj1 (soulbound_never_moves default_engine sample_genesis sample_state redeemed_state
    6 1 2 t t' sample_genesis_ok sample_run redeem_run _ Ht _ Ht')); [reflexivity|].
  assert (E : nft_soulbound <$> sample_state.(nfts) !! 2 = Some true) by (vm_compute; reflexivity).
  rewrite Ht in E. by injection E.
Defined.

Definition two_mints_and_a_burn : list event := [
  ev_op (op_nft_create_collection (mk_nft_create_collection "alice" "ART" "Art" 10 true));
  ev_op (op_nft_mint (mk_nft_mint "alice" 1 "bob" zero_hash "a" false));
  ev_op (op_nft_mint (mk_nft_mint "alice" 1 "bob" zero_hash "b" false));
  ev_op (op_nft_burn (mk_nft_burn "bob" 1));
  ev_op (op_nft_mint (mk_nft_mint "alice" 1 "carol" zero_hash "c" false)) ].

(** Serials are not unique: the serial of a mint is the supply plus one and
    a burn lowers the supply, so two mints, a burn of the first and a third mint
    give two live NFTs of one collection the same [token_serial]. *)
Theorem burn_then_mint_repeats_serial :
  exists db, play two_mints_and_a_burn sample_genesis = Some db /\
    ((fun n => (n.(nft_collection), n.(nft_token_serial))) <$> db.(nfts) !! 2) = Some (1, 2) /\
    ((fun n => (n.(nft_collection), n.(nft_token_serial))) <$> db.(nfts) !! 3) = Some (1, 2).
Proof.
  assert (H : is_Some (play two_mints_and_a_burn sample_genesis)).
  { apply not_eq_None_Some. vm_compute. discriminate. }
  destruct H as [db H]. exists db. split; [exact H|].
  replace db with (default empty_database (play two_mints_and_a_burn sample_genesis)) by (by rewrite H).
  clear H. split; vm_compute; reflexivity.
Qed.

(** ** HTLCs *)

Lemma owner_can_close db id h : htlc_inv db -> db.(htlcs) !! id = Some h ->
  valid_account_name h.(htlc_from) = true /\ valid_account_name h.(htlc_to) = true /\ id <> 0 /\
  account_exists db h.(htlc_from) = true /\ account_exists db h.(htlc_to) = true /\
  0 < h.(htlc_preimage_size) <= MAX_HTLC_PREIMAGE_LEN.
Proof.
  intros Hw Hh. destruct (wf_htlcs _ _ _ Hw _ _ Hh) as (_&?&?&?&_&_&?&_&_&?&?).
  rewrite !account_exists_true. parts.
Qed.

(** A preimage of the lock [h]. *)
Definition opens (p : list byte) (h : htlc_object) : Prop :=
  size_of p = h.(htlc_preimage_size) /\
  digest_of h.(htlc_preimage_hash).(algo) p = h.(htlc_preimage_hash).

(** When an operation that would close an open lock is accepted. *)
Lemma redeem_accepted_iff eng `{!EngineLaws eng} db op h :
  db_inv db -> db.(htlcs) !! op.(hr_htlc_id) = Some h -> h.(status) = open -> op.(hr_htlc_id) < 2 ^ 64 ->
  is_done (apply_with eng (op_htlc_redeem op) db) = true <->
    htlc_enabled db /\ op.(hr_to) = h.(htlc_to) /\ opens op.(hr_preimage) h /\ db.(head_time) < h.(htlc_expiration).
Proof.
  intros Hi Hh Ho Hid.
  destruct (owner_can_close db _ h (inv_htlc _ Hi) Hh) as (V1 & V2 & Hn0 & A1 & A2 & Hps).
  assert (Hidr : 0 <= op.(hr_htlc_id)) by (destruct (wf_htlcs _ _ _ (inv_htlc _ Hi) _ _ Hh) as (_&?&_); lia).
  rewrite (is_done_effect eng) by (done || simpl; unfold is_u64; simpl; lia). simpl. split.
  - intros (db' & (Hen&_&_&h'&Hh'&_&Hto&Hlt&Hsz&Hdig) & _). simplify_eq. by split_and!.
  - intros (Hen & Hto & [Hsz Hdig] & Hlt). eexists. split; [|done]. rewrite <-Hto in *.
    split_and!; try done; [|by exists h]. unfold htlc_redeem_valid.
    split_and!; [done|done| |lia]. intros E. rewrite E in Hsz. unfold size_of in Hsz. simpl in Hsz. lia.
Qed.
Lemma refund_accepted_iff eng `{!EngineLaws eng} db op h :
  db_inv db -> db.(htlcs) !! op.(hf_htlc_id) = Some h -> h.(status) = open -> op.(hf_htlc_id) < 2 ^ 64 ->
  is_done (apply_with eng (op_htlc_refund op) db) = true <->
    htlc_enabled db /\ op.(hf_from) = h.(htlc_from) /\ h.(htlc_expiration) <= db.(head_time).
Proof.
  intros Hi Hh Ho Hid.
  destruct (owner_can_close db _ h (inv_htlc _ Hi) Hh) as (V1 & V2 & Hn0 & A1 & A2 & Hps).
  assert (Hidr : 0 <= op.(hf_htlc_id)) by (destruct (wf_htlcs _ _ _ (inv_htlc _ Hi) _ _ Hh) as (_&?&_); lia).
  rewrite (is_done_effect eng) by (done || simpl; unfold is_u64; simpl; lia). simpl. split.
  - intros (db' & (Hen&_&_&h'&Hh'&_&Hfrom&Hlt) & _). simplify_eq. by split_and!.
  - intros (Hen & Hfrom & Hlt). eexists. split; [|done]. rewrite <-Hfrom in *. split_and!; try done. by exists h.
Qed.

(** The ids of a reachable state are 64-bit ids. *)
Lemma reachable_htlc_id eng `{!EngineLaws eng} db id h :
  reachable eng db -> db.(htlcs) !! id = Some h -> 1 <= id < 2 ^ 64.
Proof.
  intros (db0 & n & Hg & Hr & Hn) Hh. destruct (reachable_good eng n db0 db Hg Hr Hn) as [Hi (_&_&Hc&_)].
  unfold RUN_LIMIT in Hn. destruct (wf_htlcs _ _ _ (inv_htlc _ Hi) _ _ Hh) as (_&?&_). lia.
Qed.

(** C3. The ways out of an open HTLC, on every node and in every reachable state.
    Of all [htlc_redeem] and [htlc_refund] operations that name it, the accepted
    ones are: before its expiration, the recipient's redeem with a preimage of the
    right size and hash; from its expiration on, the sender's refund. Where the
    HTLC operations are off (an older hardfork, or a node that skips the HTLC
    state) both are refused; where they are on, a refund is never out of the
    sender's reach once the lock has expired, whether or not anybody knows the
    preimage, and at no moment are both a redeem and a refund accepted. *)
Theorem open_htlc_has_one_exit (eng : engine) `{!EngineLaws eng} (db : database) (id : Z) (h : htlc_object) :
  reachable eng db -> db.(htlcs) !! id = Some h -> h.(status) = open ->
  (forall op, op.(hr_htlc_id) = id ->
     is_done (apply_with eng (op_htlc_redeem op) db) = true <->
     htlc_enabled db /\ op.(hr_to) = h.(htlc_to) /\ opens op.(hr_preimage) h /\
     db.(head_time) < h.(htlc_expiration)) /\
  (forall op, op.(hf_htlc_id) = id ->
     is_done (apply_with eng (op_htlc_refund op) db) = true <->
     htlc_enabled db /\ op.(hf_from) = h.(htlc_from) /\ h.(htlc_expiration) <= db.(head_time)).
Proof.
  intros Hr Hh Ho. pose proof (reachable_inv eng db Hr) as Hi.
  pose proof (reachable_htlc_id eng db id h Hr Hh) as Hid.
  split; intros op <-; [by apply redeem_accepted_iff; [..|lia]|by apply refund_accepted_iff; [..|lia]].
Qed.

Example open_htlc_has_one_exit_witness :
  is_done (apply (op_htlc_redeem fresh_secret_redeem) sample_state) = true /\
  is_done (apply (op_htlc_refund early_refund) sample_state) = false.
Proof.
  assert (Hl : is_Some (sample_state.(htlcs) !! 1))
    by (apply not_eq_None_Some; vm_compute; discriminate).
  destruct Hl as [h Hh].
  assert (E : (fun h => (h.(htlc_from), h.(htlc_to), h.(status), h.(htlc_preimage_size),
      h.(htlc_expiration), h.(htlc_preimage_hash))) <$> sample_state.(htlcs) !! 1
      = Some ("alice", "bob", open, 6, 1000100, digest_of algo_sha256 secret))
    by (vm_compute; reflexivity).
  rewrite Hh in E. simpl in E. injection E as E1 E2 E3 E4 E5 E6.
  assert (Ht : head_time sample_state = 1000050) by (vm_compute; reflexivity).
  destruct (open_htlc_has_one_exit default_engine sample_state 1 h sample_reachable Hh E3) as [H1 H2].
  split.
  - apply (H1 fresh_secret_redeem eq_refl). rewrite E2, E5, Ht. split_and!; [|done| |lia].
    + split; vm_compute; congruence.
    + split; [by rewrite E4|by rewrite E6].
  - apply not_true_iff_false. intros Hd. apply (H2 early_refund eq_refl) in Hd as (_ & _ & Hle). lia.
Defined.

(** C14. The open-HTLC cap holds: in every reachable state the counter of
    [open_htlc_count] is the true number of open HTLCs of an account, despite
    its 32 bits, and it never exceeds 256. *)
Theorem open_htlcs_capped (eng : engine) `{!EngineLaws eng} (db : database) (a : string) :
  reachable eng db ->
  open_htlc_count db a
    = size_of (map_to_list (filter (fun kv => htlc_is_open_from a kv.2 = true) db.(htlcs))) /\
  open_htlc_count db a <= HTLC_MAX_OPEN_PER_ACCOUNT.
Proof.
  intros Hr. destruct (reachable_inv eng db Hr) as [_ Hw _ _].
  pose proof (wf_open_cap _ _ _ Hw a) as Hc. unfold HTLC_MAX_OPEN_PER_ACCOUNT in *.
  rewrite open_htlc_count_spec, u32_small by lia. split; [apply open_count_size|lia].
Qed.

Example open_htlcs_capped_witness : open_htlc_count sample_state "alice" <= 256.
Proof. exact (proj2 (open_htlcs_capped default_engine sample_state "alice" sample_reachable)). Defined.

(** C8. An HTLC pays out once: when it is closed, by redeem or by refund, every
    later state has it with the same terms and the same closing status, and
    neither operation on it is accepted again. *)
Theorem closed_htlc_stays_closed (eng : engine) `{!EngineLaws eng} (db0 db1 db2 : database)
  (n m id : Z) (h : htlc_object) :
  genesis db0 -> run eng db0 n db1 -> run eng db1 m db2 -> n + m < RUN_LIMIT ->
  db1.(htlcs) !! id = Some h -> h.(status) <> open ->
  db2.(htlcs) !! id = Some h /\
  (forall op, op.(hr_htlc_id) = id -> is_done (apply_with eng (op_htlc_redeem op) db2) = false) /\
  (forall op, op.(hf_htlc_id) = id -> is_done (apply_with eng (op_htlc_refund op) db2) = false).
Proof.
  intros Hg H1 H2 Hnm Hh Hc. pose proof (run_nonneg _ _ _ _ H2). pose proof (run_nonneg _ _ _ _ H1).
  assert (Hgood : good (n + 1) db1) by (apply (reachable_good eng n db0); [done|done|lia]).
  destruct (run_follows eng m db1 db2 H2 (n + 1) Hgood) as ([Hi _] & [_ _ Hev _] & _);
    [unfold RUN_LIMIT in Hnm; lia|].
  assert (Hh2 : htlcs db2 !! id = Some h).
  { destruct (Hev _ _ Hh) as (h' & Hh' & E & Hst). rewrite Hh', E, (Hst Hc). by destruct h. }
  split; [done|]. split.
  - intros op <-. apply not_true_iff_false. intros Hd.
    destruct (apply_with eng (op_htlc_redeem op) db2) as [[] s| |] eqn:E; try discriminate Hd.
    simpl in E. apply (charged_done _ _ _ _ _ _ (htlc_redeem_spec op db2
      (payout_is_defined _ (inv_htlc _ Hi) (inv_funds _ Hi) _ _))) in E as [(_&_&_&h'&Hh'&?&_) _].
    congruence.
  - intros op <-. apply not_true_iff_false. intros Hd.
    destruct (apply_with eng (op_htlc_refund op) db2) as [[] s| |] eqn:E; try discriminate Hd.
    simpl in E. apply (charged_done _ _ _ _ _ _ (htlc_refund_spec op db2
      (payout_is_defined _ (inv_htlc _ Hi) (inv_funds _ Hi) _ _))) in E as [(_&_&_&h'&Hh'&?&_) _].
    congruence.
Qed.

Definition later_state : database :=
  default empty_database (play_event (ev_time 1000200) redeemed_state).

Lemma later_run : run default_engine redeemed_state 1 later_state.
Proof.
  apply (run_step _ _ 0 redeemed_state); [apply run_none|].
  apply (play_event_step (ev_time 1000200)); [done|].
  assert (H : is_Some (play_event (ev_time 1000200) redeemed_state)).
  { apply not_eq_None_Some. vm_compute. discriminate. }
  unfold later_state. by destruct H as [db ->].
Qed.

(** After the redeem, a refund past the expiration is refused. *)
Example closed_htlc_stays_closed_witness :
  is_done (apply (op_htlc_refund early_refund) later_state) = false.
Proof.
  assert (Hl : is_Some (redeemed_state.(htlcs) !! 1))
    by (apply not_eq_None_Some; vm_compute; discriminate).
  destruct Hl as [h Hh].
  assert (E : status <$> redeemed_state.(htlcs) !! 1 = Some redeemed) by (vm_compute; reflexivity).
  rewrite Hh in E. injection E as E.
  apply (closed_htlc_stays_closed default_engine sample_genesis redeemed_state later_state 7 1 1 h
    sample_genesis_ok (run_trans _ 6 1 _ _ _ sample_run redeem_run) later_run
    ltac:(done) Hh ltac:(congruence)).
  reflexivity.
Defined.

(** ** Contracts *)

(** C9. Contract storage is isolated and all-or-nothing: an accepted call
    changes the storage of the called contract only, to what it held overlaid
    with the writes the engine reports, with every entry within the key and
    value caps, and moves no balance, NFT or HTLC; a call that throws, for
    whatever reason, leaves the storage of every contract as it was. *)
Theorem contract_call_is_isolated (eng : engine) `{!EngineLaws eng} (db : database)
  (op : contract_call_operation) :
  reachable eng db -> typed_op (op_contract_call op) ->
  (forall db', apply_with eng (op_contract_call op) db = Done tt db' ->
     (exists c r, db.(contracts) !! op.(call_contract_id) = Some c /\
        call_answer eng db op c = Ret r /\ r.(success) = true /\
        storage_of db' op.(call_contract_id)
          = r.(storage_writes) ∪ storage_of db op.(call_contract_id)) /\
     map_Forall storage_entry_ok (storage_of db' op.(call_contract_id)) /\
     (forall id, id <> op.(call_contract_id) -> storage_of db' id = storage_of db id) /\
     db'.(balances) = db.(balances) /\ db'.(nfts) = db.(nfts) /\ db'.(htlcs) = db.(htlcs)) /\
  (forall e db', apply_with eng (op_contract_call op) db = Thrown e db' ->
     db'.(contract_storage) = db.(contract_storage)).
Proof.
  intros Hr Ht. pose proof (reachable_inv eng db Hr) as Hi.
  pose proof (apply_wp eng db _ Hi Ht) as H. split.
  - intros db' He. destruct (wp_done _ _ _ _ _ _ H He) as (c & r & Hready & Ha & Hs & ->).
    pose proof (call_contract_inv eng db op c r (inv_contract _ Hi) Ht Hready Ha) as Hk.
    assert (Hst : storage_of (call_post db op r) (call_contract_id op)
                  = storage_writes r ∪ storage_of db (call_contract_id op)).
    { unfold storage_of. simpl. by rewrite lookup_insert_eq. }
    split_and!; [|..|done|done|done].
    + exists c, r. split_and!; [apply Hready|done|done|done].
    + rewrite Hst. apply (wf_entries _ _ _ _ Hk (call_contract_id op)). simpl.
      by rewrite lookup_insert_eq.
    + intros id Hne. unfold storage_of. simpl. by rewrite lookup_insert_ne by congruence.
  - intros e db' He. destruct (wp_thrown _ _ _ _ _ _ H He) as [_ Htr].
    by destruct (refusal_same_tables _ _ _ Htr) as (_&_&_&_&_&_&_&E&_).
Qed.

Definition write_call : contract_call_operation :=
  mk_contract_call "bob" 1 "call" (string_bytes "WRITE:k:v") 1000.

Example contract_call_is_isolated_witness :
  storage_of (after (op_contract_call write_call) sample_state) 1 !! "k" = Some (string_bytes "v") /\
  (after (op_contract_call write_call) sample_state).(htlcs) = sample_state.(htlcs).
Proof.
  split; [vm_compute; reflexivity|].
  refine (proj2 (proj2 (proj2 (proj2 (proj2 (proj1 (contract_call_is_isolated default_engine
    sample_state write_call sample_reachable _) _ _)))))).
  - simpl. unfold is_u64. simpl. lia.
  - vm_compute. reflexivity.
Defined.
