(* ===== verification/AtomicSwap.v ===== *)
(** * Atomic swaps of two HTLCs

    What the HTLC operations are for (docs/02-htlc-design.md): two locks under one
    hash and one preimage size, on two chains or on one, exchange their amounts or
    give both back. The chains are two independent runs of the node, each with its
    own clock and its own contract engine. With different sizes there is no such
    guarantee: no preimage opens both locks. *)
From S2P Require Import Prelude Types Crypto Protocol Costs Database EvalNft EvalHtlc Engine EvalContracts.
From S2P Require Import NftInvariant HtlcInvariant ContractInvariant Chain ChainProperties.

(** ** One lock over a run *)

Section lock.
Context (eng : engine) `{!EngineLaws eng}.

(** An accepted redeem of lock [id] between two states carried [p]: everyone who
    reads the chain knows it. *)
Definition revealed (db1 db2 : database) (id : Z) (p : list byte) : Prop :=
  exists n m mid mid' op, run eng db1 n mid /\ run eng mid' m db2 /\
    apply_with eng (op_htlc_redeem op) mid = Done tt mid' /\
    op.(hr_htlc_id) = id /\ op.(hr_preimage) = p.

(** How a lock [h], open in [db1], can stand later. *)
Definition lock_stands (db1 db2 : database) (id : Z) (h : htlc_object) : Prop :=
  db2.(htlcs) !! id = Some h \/
  (db2.(htlcs) !! id = Some (htlc_set_status h redeemed) /\
     exists p, revealed db1 db2 id p /\ opens p h) \/
  (db2.(htlcs) !! id = Some (htlc_set_status h refunded) /\ h.(htlc_expiration) <= db2.(head_time)).

(** What an accepted operation does to an open lock. *)
Lemma effect_lock n db op db' id h :
  n + 1 < 2 ^ 64 -> db_inv db -> counters_at_most n db ->
  op_effect eng db op db' -> db.(htlcs) !! id = Some h -> h.(status) = open ->
  db'.(htlcs) !! id = Some h \/
  (exists rop, op = op_htlc_redeem rop /\ rop.(hr_htlc_id) = id /\ opens rop.(hr_preimage) h /\
     db'.(htlcs) !! id = Some (htlc_set_status h redeemed)) \/
  (h.(htlc_expiration) <= db.(head_time) /\ db'.(htlcs) !! id = Some (htlc_set_status h refunded)).
Proof.
  intros Hn Hi Hc He Hh Ho. destruct (effect_frame _ _ _ _ He) as (_ & _ & _ & _ & Fh & _).
  destruct (decide (family_of op = htlc_family)) as [Hf|Hf].
  2: { left. by destruct (Fh Hf) as [[<- _] _]. }
  destruct op as [| | | | | |cop|rop|fop| |]; try discriminate Hf; destruct He as [Hpre ->].
  - left. simpl. apply lookup_insert_new; [|done]. by eapply fresh_htlc, Hi.
  - destruct Hpre as (_&_&_&h'&Hh'&_&_&_&Hsz&Hdig). unfold htlc_redeem_post. rewrite Hh'. simpl.
    rewrite lookup_insert. case_decide as E; [|by left]. rewrite E, Hh in Hh'. simplify_eq.
    right; left. by exists rop.
  - destruct Hpre as (_&_&_&h'&Hh'&_&_&Hexp). unfold htlc_refund_post. rewrite Hh'. simpl.
    rewrite lookup_insert. case_decide as E; [|by left]. rewrite E, Hh in Hh'. simplify_eq.
    by right; right.
Qed.

(** Time does not run backwards. *)
Lemma step_time_mono n db db' :
  n + 1 < 2 ^ 64 -> good n db -> step eng db db' -> db.(head_time) <= db'.(head_time).
Proof.
  intros Hn [Hi Hc] Hs. destruct Hs as [op db' Ht He|op e db' Ht He|t Ht|c|db' He|name db' Hnew He].
  - pose proof (wp_done _ _ _ _ _ _ (apply_wp eng db op Hi Ht) He) as Hop. simpl in Hop.
    by destruct (effect_frame _ _ _ _ Hop) as (-> & _).
  - destruct (wp_thrown _ _ _ _ _ _ (apply_wp eng db op Hi Ht) He) as [_ Hop].
    by destruct Hop as [->|[[c ->]|(cop & r & _ & _ & _ & ->)]].
  - simpl. lia.
  - done.
  - by injection He as <-.
  - unfold create_account in He. apply bind_done in He as ([] & s1 & Hl & He).
    apply lift_done in Hl as [_ ->]. by injection He as <-.
Qed.

Lemma revealed_step db1 db2 db3 id p :
  revealed db1 db2 id p -> step eng db2 db3 -> revealed db1 db3 id p.
Proof.
  intros (n & m & mid & mid' & op & H1 & H2 & H) Hs. exists n, (m + 1), mid, mid', op.
  split; [done|]. split; [by eapply run_step|done].
Qed.

(** A closed lock does not move, an open one moves as [lock_stands] says. *)
Lemma lock_step n k db1 db2 db3 id h :
  n + 1 < 2 ^ 64 -> good n db2 -> run eng db1 k db2 -> h.(status) = open ->
  lock_stands db1 db2 id h -> step eng db2 db3 -> lock_stands db1 db3 id h.
Proof.
  intros Hn Hg Hr Ho Hl Hs. pose proof (step_time_mono n db2 db3 Hn Hg Hs) as Ht.
  destruct (step_follows eng n db2 db3 Hn Hg Hs) as (_ & [_ _ Hev _] & _).
  assert (Hclosed : forall st, st <> open -> db2.(htlcs) !! id = Some (htlc_set_status h st) ->
    db3.(htlcs) !! id = Some (htlc_set_status h st)).
  { intros st Hst Hh. destruct (Hev _ _ Hh) as (h' & Hh' & E & Hsame). rewrite Hh', E, Hsame by done. done. }
  destruct Hl as [Hh|[(Hh & p & Hp & Hop)|(Hh & Hexp)]].
  - assert (Hsame : htlcs db3 = htlcs db2 -> lock_stands db1 db3 id h) by (intros E; left; by rewrite E).
    destruct Hg as [Hi Hc].
    destruct Hs as [op db3 Hty He|op e db3 Hty He|t Htm|c|db3 He|name db3 Hnew He]; try (by apply Hsame).
    + pose proof (wp_done _ _ _ _ _ _ (apply_wp eng db2 op Hi Hty) He) as Hop. simpl in Hop.
      destruct (effect_lock n db2 op db3 id h Hn Hi Hc Hop Hh Ho) as [?|[(rop & -> & Hid & Hopens & ?)|(? & ?)]].
      * by left.
      * right; left. split; [done|]. exists rop.(hr_preimage). split; [|done].
        exists k, 0, db2, db3, rop. split_and!; try done. apply run_none.
      * right; right. split; [done|lia].
    + destruct (wp_thrown _ _ _ _ _ _ (apply_wp eng db2 op Hi Hty) He) as [_ Htr].
      apply refusal_same_tables in Htr as (_&_&_&_&_&E&_). apply Hsame. done.
    + injection He as <-. by apply Hsame.
    + unfold create_account in He. apply bind_done in He as ([] & s1 & Hl & He).
      apply lift_done in Hl as [_ ->]. injection He as <-. by apply Hsame.
  - right; left. split; [by apply Hclosed|]. exists p. split; [by eapply revealed_step|done].
  - right; right. split; [by apply Hclosed|lia].
Qed.

Lemma lock_run n k db1 db2 id h :
  run eng db1 n db2 -> good k db1 -> n + k < 2 ^ 64 ->
  db1.(htlcs) !! id = Some h -> h.(status) = open -> lock_stands db1 db2 id h.
Proof.
  intros Hr Hg Hk Hh Ho. induction Hr as [|n db2 db3 Hr IH Hs]; [by left|].
  destruct (run_follows eng n db1 db2 Hr k Hg) as (Hg2 & _); [lia|].
  eapply (lock_step (n + k)); [lia|done|done|done|apply IH; lia|done].
Qed.
End lock.

(** ** Collecting and recovering *)

Section exits.
Context (eng : engine) `{!EngineLaws eng}.

(** [name] is credited exactly [a] between two states. *)
Definition pays (db db' : database) (name : string) (a : asset) : Prop :=
  exists b b', db.(balances) !! name = Some b /\ db'.(balances) !! name = Some b' /\
    balance_field b' a.(symbol) = balance_field b a.(symbol) + a.(amount).

(** The recipient has been paid, or is paid by redeeming with [p] now. *)
Definition collects (db : database) (id : Z) (h : htlc_object) (p : list byte) : Prop :=
  db.(htlcs) !! id = Some (htlc_set_status h redeemed) \/
  exists db', apply_with eng (op_htlc_redeem (mk_htlc_redeem h.(htlc_to) id p)) db = Done tt db' /\
    pays db db' h.(htlc_to) h.(htlc_amount).

(** The sender has the amount back, or gets it back by a refund now. *)
Definition recovers (db : database) (id : Z) (h : htlc_object) : Prop :=
  db.(htlcs) !! id = Some (htlc_set_status h refunded) \/
  exists db', apply_with eng (op_htlc_refund (mk_htlc_refund h.(htlc_from) id)) db = Done tt db' /\
    pays db db' h.(htlc_from) h.(htlc_amount).

Lemma credit_pays db name a db' :
  (a.(symbol) = HIVE \/ a.(symbol) = HBD) -> is_Some (db.(balances) !! name) ->
  db'.(balances) = credit name a.(symbol) a.(amount) db.(balances) -> pays db db' name a.
Proof.
  intros Hs [b Hb] E. destruct (credit_lookup name a.(symbol) a.(amount) db.(balances) name b a.(symbol))
    as (b' & Hb' & Eb); [done..|].
  exists b, b'. rewrite E. split_and!; [done|done|]. by rewrite Eb, decide_True.
Qed.

Lemma collect_now db id h p :
  db_inv db -> htlc_enabled db -> id < 2 ^ 64 -> db.(htlcs) !! id = Some h -> h.(status) = open ->
  opens p h -> db.(head_time) < h.(htlc_expiration) -> collects db id h p.
Proof.
  intros Hi Hen Hid Hh Ho [Hsz Hdig] Hlt. right.
  pose proof (proj2 (redeem_accepted_iff eng db (mk_htlc_redeem h.(htlc_to) id p) h Hi Hh Ho Hid)
    (conj Hen (conj eq_refl (conj (conj Hsz Hdig) Hlt)))) as Hd.
  pose proof (wf_htlcs _ _ _ (inv_htlc _ Hi) _ _ Hh) as (_&Hr&_&Hto&_&Hsym&_).
  destruct (apply_with eng _ db) as [[] db'|e db'|] eqn:E; try discriminate Hd. exists db'. split; [done|].
  assert (Ht : typed_op (op_htlc_redeem (mk_htlc_redeem h.(htlc_to) id p))) by (simpl; unfold is_u64; lia).
  destruct (wp_done _ _ _ _ _ _ (apply_wp eng db _ Hi Ht) E) as [_ ->].
  apply credit_pays; [done|done|]. unfold htlc_redeem_post. simpl. by rewrite Hh.
Qed.

Lemma recover_now db id h :
  db_inv db -> htlc_enabled db -> id < 2 ^ 64 -> db.(htlcs) !! id = Some h -> h.(status) = open ->
  h.(htlc_expiration) <= db.(head_time) -> recovers db id h.
Proof.
  intros Hi Hen Hid Hh Ho Hle. right.
  pose proof (proj2 (refund_accepted_iff eng db (mk_htlc_refund h.(htlc_from) id) h Hi Hh Ho Hid)
    (conj Hen (conj eq_refl Hle))) as Hd.
  pose proof (wf_htlcs _ _ _ (inv_htlc _ Hi) _ _ Hh) as (_&Hr&Hfrom&_&_&Hsym&_).
  destruct (apply_with eng _ db) as [[] db'|e db'|] eqn:E; try discriminate Hd. exists db'. split; [done|].
  assert (Ht : typed_op (op_htlc_refund (mk_htlc_refund h.(htlc_from) id))) by (simpl; unfold is_u64; lia).
  destruct (wp_done _ _ _ _ _ _ (apply_wp eng db _ Hi Ht) E) as [_ ->].
  apply credit_pays; [done|done|]. unfold htlc_refund_post. simpl. by rewrite Hh.
Qed.

(** A lock of a run from genesis. *)
Record locked_on (db0 db1 db2 : database) (id : Z) (h : htlc_object) : Prop := {
  lk_run : exists n m, genesis db0 /\ run eng db0 n db1 /\ run eng db1 m db2 /\ n + m < RUN_LIMIT;
  lk_lock : db1.(htlcs) !! id = Some h;
  lk_open : h.(status) = open }.

Lemma locked_stands db0 db1 db2 id h :
  locked_on db0 db1 db2 id h -> lock_stands eng db1 db2 id h /\ db_inv db2 /\ id < 2 ^ 64.
Proof.
  intros [(n & m & Hg & H1 & H2 & Hlt) Hl Ho]. pose proof (run_nonneg _ _ _ _ H2).
  assert (Hgood : good (n + 1) db1) by (apply (reachable_good eng n db0); [done|done|lia]).
  unfold RUN_LIMIT in Hlt.
  split; [apply (lock_run eng m (n + 1) db1 db2 id h H2 Hgood); [lia|done|done]|].
  destruct (run_follows eng m db1 db2 H2 (n + 1) Hgood) as ([Hi _] & _); [lia|]. split; [done|].
  destruct Hgood as [Hi1 (_&_&Hc&_)].
  destruct (wf_htlcs _ _ _ (inv_htlc _ Hi1) _ _ Hl) as (_&?&_). lia.
Qed.

Lemma expired_lock db0 db1 db2 id h :
  locked_on db0 db1 db2 id h -> htlc_enabled db2 -> h.(htlc_expiration) <= db2.(head_time) ->
  recovers db2 id h \/ exists p, revealed eng db1 db2 id p /\ opens p h.
Proof.
  intros Hl Hen Hexp. destruct (locked_stands _ _ _ _ _ Hl) as ([Hh|[[_ Hp]|[Hh _]]] & Hi & Hid).
  - left. apply recover_now; try done. apply Hl.
  - by right.
  - by left; left.
Qed.

Lemma pending_lock db0 db1 db2 id h p :
  locked_on db0 db1 db2 id h -> htlc_enabled db2 -> db2.(head_time) < h.(htlc_expiration) ->
  opens p h -> collects db2 id h p.
Proof.
  intros Hl Hen Hlt Hp. destruct (locked_stands _ _ _ _ _ Hl) as ([Hh|[[Hh _]|[_ Hle]]] & Hi & Hid).
  - apply collect_now; try done. apply Hl.
  - by left.
  - lia.
Qed.
End exits.

(** ** Properties *)

(** C4. Two HTLCs with the same hash and the same preimage size make a fair swap,
    on two chains or one, at any moment when the HTLC operations are on on both
    nodes (hardfork reached, HTLC state kept). Once both locks are there, whatever
    has happened on the two chains: the holder of the secret can collect the second
    lock until it expires; between the expirations of the second lock and the
    first, the sender of the second has his amount back (or one refund away), or
    the preimage has been published by the redeem of the second and with it he
    collects the first (or has been paid); and from the expiration of the first
    on, its sender has the amount back (or one refund away) unless a preimage of
    the hash was published. No other outcome exists; each payment is of the exact
    amount. The equal sizes are needed: a lock made for another size refuses the
    preimage that opened the other one. *)
Theorem atomic_swap_is_fair (engA engB : engine) `{!EngineLaws engA} `{!EngineLaws engB}
  (a0 a1 a2 b0 b1 b2 : database) (idA idB : Z) (first second : htlc_object) :
  locked_on engA a0 a1 a2 idA first -> locked_on engB b0 b1 b2 idB second ->
  first.(htlc_preimage_hash) = second.(htlc_preimage_hash) ->
  first.(htlc_preimage_size) = second.(htlc_preimage_size) ->
  htlc_enabled a2 -> htlc_enabled b2 ->
  (forall p, opens p second -> b2.(head_time) < second.(htlc_expiration) ->
     collects engB b2 idB second p) /\
  (second.(htlc_expiration) <= b2.(head_time) -> a2.(head_time) < first.(htlc_expiration) ->
     recovers engB b2 idB second \/
     exists p, revealed engB b1 b2 idB p /\ collects engA a2 idA first p) /\
  (first.(htlc_expiration) <= a2.(head_time) ->
     recovers engA a2 idA first \/
     exists p, revealed engA a1 a2 idA p /\ opens p first).
Proof.
  intros HA HB Ehash Esize Hena Henb. split_and!.
  - intros p Hp Hlt. by eapply pending_lock.
  - intros Hb Ha. destruct (expired_lock engB _ _ _ _ _ HB Henb Hb) as [?|(p & Hp & [Hs Hd])]; [by left|].
    right. exists p. split; [done|]. eapply pending_lock; [done|exact HA|done|done|].
    split; [by rewrite Esize|by rewrite Ehash].
  - intros Ha. by eapply expired_lock.
Qed.

(** Alice's lock of [sample_state] is the first one; on a second chain bob locks 5
    HIVE for alice under the same hash until 1000070, alice redeems it, and time
    passes. *)
Definition alices_lock : htlc_object :=
  mk_htlc 1 "alice" "bob" (mk_asset 100 HIVE) (mk_digest algo_sha256 (sha256 secret)) 6 1000100 1000000 "" open.
Definition bobs_lock : htlc_object :=
  mk_htlc 1 "bob" "alice" (mk_asset 5 HIVE) (mk_digest algo_sha256 (sha256 secret)) 6 1000070 1000000 "" open.
Definition bobs_offer : list event :=
  [ev_op (op_htlc_create (mk_htlc_create "bob" "alice" (mk_asset 5 HIVE)
     (mk_digest algo_sha256 (sha256 secret)) 6 1000070 ""))].
Definition alice_takes : list event :=
  [ev_op (op_htlc_redeem (mk_htlc_redeem "alice" 1 secret)); ev_time 1000080].
Definition offered : database := default empty_database (play bobs_offer sample_genesis).
Definition taken : database := default empty_database (play alice_takes offered).

Lemma played_run evs db :
  Forall typed_event evs -> is_Some (play evs db) ->
  run default_engine db (size_of evs) (default empty_database (play evs db)).
Proof. intros Ht [db' H]. apply play_run; [done|]. by rewrite H. Qed.

Lemma alice_locked : locked_on default_engine sample_genesis sample_state sample_state 1 alices_lock.
Proof.
  split; [|vm_compute; reflexivity|reflexivity].
  exists 6, 0. split_and!; [apply sample_genesis_ok|apply sample_run|apply run_none|done].
Qed.
Lemma bob_locked : locked_on default_engine sample_genesis offered taken 1 bobs_lock.
Proof.
  split; [|vm_compute; reflexivity|reflexivity].
  exists 1, 2. split_and!; [apply sample_genesis_ok|..|done].
  - apply (played_run bobs_offer); [|apply not_eq_None_Some; vm_compute; discriminate].
    repeat constructor; intros H; vm_compute in H; discriminate H.
  - apply (played_run alice_takes); [|apply not_eq_None_Some; vm_compute; discriminate].
    repeat constructor; intros H; vm_compute in H; discriminate H.
Qed.

(** Bob's amount is gone, so the secret is out and bob can collect alice's. *)
Example atomic_swap_is_fair_witness :
  exists p, revealed default_engine offered taken 1 p /\ collects default_engine sample_state 1 alices_lock p.
Proof.
  destruct (atomic_swap_is_fair default_engine default_engine sample_genesis sample_state sample_state
    sample_genesis offered taken 1 1 alices_lock bobs_lock alice_locked bob_locked) as (_ & H & _).
  - reflexivity.
  - reflexivity.
  - split; vm_compute; congruence.
  - split; vm_compute; congruence.
  - destruct H as [[Hr|(db' & Hr & _)]|Hp]; [vm_compute; congruence|vm_compute; reflexivity|..].
    + exfalso. assert (E : status <$> taken.(htlcs) !! 1 = Some redeemed) by (vm_compute; reflexivity).
      rewrite Hr in E. discriminate E.
    + exfalso. assert (E : is_done (apply (op_htlc_refund (mk_htlc_refund "bob" 1)) taken) = false)
        by (vm_compute; reflexivity).
      unfold apply in E. cbn [bobs_lock htlc_from] in Hr. rewrite Hr in E. discriminate E.
    + exact Hp.
Defined.
