(* ===== verification/SerialNumbers.v ===== *)
(** * Serial numbers of NFTs

    [token_serial] is assigned at the mint ([src/chain/evaluators_nft.cpp]) from the
    supply of the collection. What that makes of it, over histories in which no
    token of the collection is burned and after a burn. *)
From S2P Require Import Prelude Types Crypto Protocol Costs Database EvalNft EvalHtlc Engine EvalContracts.
From S2P Require Import NftInvariant HtlcInvariant ContractInvariant Chain ChainProperties.

(** A live token of collection [c] with serial [s]. *)
Definition live_serial (db : database) (c s id : Z) : Prop :=
  exists n, db.(nfts) !! id = Some n /\ n.(nft_collection) = c /\ n.(nft_token_serial) = s.

(** No token of [c] has gone. *)
Definition keeps_tokens (c : Z) (db db' : database) : Prop :=
  forall id n, db.(nfts) !! id = Some n -> n.(nft_collection) = c -> is_Some (db'.(nfts) !! id).

(** A run none of whose events burns a token of [c]. *)
Inductive unburned (eng : engine) (c : Z) (db : database) : Z -> database -> Prop :=
| unburned_none : unburned eng c db 0 db
| unburned_step n db1 db2 :
    unburned eng c db n db1 -> step eng db1 db2 -> keeps_tokens c db1 db2 ->
    unburned eng c db (n + 1) db2.

Lemma unburned_run eng c db n db' : unburned eng c db n db' -> run eng db n db'.
Proof. induction 1; [apply run_none|by eapply run_step]. Qed.

(** The live serials of [c] are exactly [1 .. supply], each once. *)
Definition serials_exact (c : Z) (db : database) : Prop :=
  forall col, db.(collections) !! c = Some col ->
    (forall s, (exists id, live_serial db c s id) <-> 1 <= s <= col.(col_supply)) /\
    (forall s id id', live_serial db c s id -> live_serial db c s id' -> id = id').

Section serials.
Context (eng : engine) `{!EngineLaws eng}.

Lemma same_nft_serials c db db' : same_nft db db' -> serials_exact c db -> serials_exact c db'.
Proof. intros (E1&_&E3&_). unfold serials_exact, live_serial. by rewrite E1, E3. Qed.

(** Tables with the same tokens of [c], up to owner and approval. *)
Lemma same_serials c db db' :
  (forall s id, live_serial db' c s id <-> live_serial db c s id) ->
  db'.(collections) !! c = db.(collections) !! c ->
  serials_exact c db -> serials_exact c db'.
Proof.
  intros Hl Hc. unfold serials_exact. rewrite Hc. intros H col Hcol. destruct (H col Hcol) as [H1 H2]. split.
  - intros s. rewrite <-H1. by setoid_rewrite Hl.
  - intros s id id'. rewrite !Hl. apply H2.
Qed.

Lemma mint_serials n db op c :
  n + 1 < 2 ^ 64 -> good n db -> mint_pre db op -> serials_exact c db -> serials_exact c (mint_post db op).
Proof.
  intros Hn [Hi Hk] (_&_&_&_&col&Hcol&_&Hmax) H. unfold mint_post. rewrite Hcol.
  pose proof (inv_nft _ Hi) as Hw. pose proof (fresh_nft _ _ _ _ _ _ _ Hw) as Hfresh.
  destruct (wf_collections _ _ _ _ _ _ _ Hw _ _ Hcol) as (_&_&_&_&_&Hs&_).
  destruct Hk as (_&Hk&_).
  assert (Hser : u64 (col_supply col + 1) = col_supply col + 1) by (apply u64_small; lia).
  rewrite Hser. destruct (decide (mint_collection op = c)) as [E|Hne].
  - unfold serials_exact, live_serial in *. simpl. intros col'. rewrite lookup_insert, decide_True by done. intros [= <-]. simpl. rewrite E in Hcol.
    destruct (H col Hcol) as [Hex Hun]. split.
    + intros s. split.
      * intros (id & t & Ht & Htc & <-). rewrite lookup_insert in Ht. case_decide.
        { injection Ht as <-. simpl. rewrite Hser. lia. }
        enough (1 <= nft_token_serial t <= col_supply col) by lia. apply Hex. by exists id, t.
      * intros Hb. destruct (decide (s = col_supply col + 1)) as [->|].
        { exists db.(next_nft_id), (minted_nft db op col). rewrite lookup_insert_eq. simpl. by rewrite Hser. }
        destruct (proj2 (Hex s) ltac:(lia)) as (id & t & Ht & ?). exists id, t.
        rewrite lookup_insert_ne by congruence. done.
    + assert (Hold : forall id t, db.(nfts) !! id = Some t -> nft_collection t = c ->
        nft_token_serial t <= col_supply col).
      { intros id t Ht Htc. apply Hex. by exists id, t. }
      intros s id id' (t & Ht & Htc & <-) (t' & Ht' & Htc' & Es).
      rewrite lookup_insert in Ht, Ht'. repeat case_decide; simplify_eq/=; try done.
      * specialize (Hold _ _ Ht Htc). lia.
      * specialize (Hold _ _ Ht' Htc'). lia.
      * apply (Hun (nft_token_serial t)); [by exists t|by exists t'].
  - eapply (same_serials c db); [|by simpl; rewrite lookup_insert_ne|exact H].
    intros s id. unfold live_serial. simpl. rewrite lookup_insert. case_decide as Hid; [|done].
    subst id. rewrite Hfresh. split; intros (t & Ht & Htc & _); [|done]. injection Ht as <-. done.
Qed.

Lemma set_owner_serials c db db' id t owner approved :
  db.(nfts) !! id = Some t -> db'.(nfts) = <[id := nft_set_owner t owner approved]> db.(nfts) ->
  db'.(collections) = db.(collections) -> serials_exact c db -> serials_exact c db'.
Proof.
  intros Ht E Ec. apply same_serials; [|by rewrite Ec]. intros s i. unfold live_serial.
  rewrite E, lookup_insert. case_decide as Hi; [subst i|done]. rewrite Ht.
  split; intros (n & Hn & H1 & H2); simplify_eq; by eexists.
Qed.

Lemma create_serials db op c :
  nft_inv db -> create_collection_pre db op -> serials_exact c db ->
  serials_exact c (create_collection_post db op).
Proof.
  intros Hw Hpre H. destruct (decide (db.(next_collection_id) = c)) as [<-|Hne].
  2: { apply (same_serials c db); [done| |done]. simpl. by rewrite lookup_insert_ne. }
  pose proof (fresh_collection _ _ _ _ _ _ _ Hw) as Hfresh.
  assert (Hno : forall s id, ~ live_serial db db.(next_collection_id) s id).
  { intros s id (t & Ht & Htc & _). destruct (wf_nfts _ _ _ _ _ _ _ Hw _ _ Ht) as (_&_&_&_&c&Hc&_).
    congruence. }
  intros col. simpl. rewrite lookup_insert_eq. intros [= <-]. simpl. split.
  - intros s. split; [intros [id Hl]; by apply Hno in Hl|lia].
  - intros s id id' Hl. by apply Hno in Hl.
Qed.

Lemma burn_serials db op c :
  burn_pre db op -> keeps_tokens c db (burn_post db op) -> serials_exact c db ->
  serials_exact c (burn_post db op).
Proof.
  intros (_&_&t&Ht&_). unfold burn_post. rewrite Ht. intros Hk.
  assert (Hne : nft_collection t <> c).
  { intros Hc. destruct (Hk _ _ Ht Hc) as [t' Ht']. simpl in Ht'. by rewrite lookup_delete_eq in Ht'. }
  apply same_serials; [|simpl; by rewrite lookup_alter_ne]. intros s id. unfold live_serial. simpl.
  rewrite lookup_delete. case_decide as Hid; [subst id|done]. rewrite Ht. split; intros (n & Hn & ? & _); congruence.
Qed.

Lemma step_serials n db db' c :
  n + 1 < 2 ^ 64 -> good n db -> step eng db db' -> keeps_tokens c db db' ->
  serials_exact c db -> serials_exact c db'.
Proof.
  intros Hn Hg Hs Hk H. pose proof Hg as [Hi Hc].
  destruct Hs as [op db' Ht He|op e db' Ht He|t Ht|cf|db' He|name db' Hnew He]; try exact H.
  - pose proof (wp_done _ _ _ _ _ _ (apply_wp eng db op Hi Ht) He) as Hop. simpl in Hop.
    destruct (effect_frame _ _ _ _ Hop) as (_ & _ & _ & Fn & _).
    destruct op; try (apply (same_nft_serials c db); [apply Fn; discriminate|exact H]); destruct Hop as [Hpre ->].
    + apply create_serials; [apply Hi|done|done].
    + by eapply mint_serials.
    + destruct Hpre as (_&_&_&t&Htk&_). unfold transfer_post. rewrite Htk.
      by eapply (set_owner_serials c db).
    + destruct Hpre as (_&_&_&t&Htk&_). unfold approve_post. rewrite Htk.
      by eapply (set_owner_serials c db).
    + by apply (same_serials c db).
    + by apply burn_serials.
  - destruct (wp_thrown _ _ _ _ _ _ (apply_wp eng db op Hi Ht) He) as [_ Htr].
    apply refusal_same_tables in Htr as (_&E1&_&E3&_). unfold serials_exact, live_serial. by rewrite <-E1, <-E3.
  - injection He as <-. exact H.
  - unfold create_account in He. apply bind_done in He as ([] & s1 & Hl & He).
    apply lift_done in Hl as [_ ->]. injection He as <-. exact H.
Qed.

Lemma unburned_serials c db0 n db :
  genesis db0 -> unburned eng c db0 n db -> n < RUN_LIMIT -> serials_exact c db.
Proof.
  intros Hg Hu. induction Hu as [|n db1 db2 Hu IH Hs Hk]; intros Hn.
  - destruct Hg as ((bal & t & cf & ->) & _). intros col Hcol. simpl in Hcol. by rewrite lookup_empty in Hcol.
  - apply unburned_run in Hu. unfold RUN_LIMIT in Hn.
    apply (step_serials (n + 1) db1); [lia| |done|done|apply IH; unfold RUN_LIMIT; lia].
    apply (reachable_good eng n db0); [done|done|unfold RUN_LIMIT; lia].
Qed.

(** A burn of any token but the one with the highest serial makes the next mint
    repeat that serial. *)
Lemma burn_then_mint db db1 db2 bop mop c col id t :
  db_inv db -> db.(next_nft_id) + 1 < 2 ^ 64 ->
  apply_with eng (op_nft_burn bop) db = Done tt db1 -> apply_with eng (op_nft_mint mop) db1 = Done tt db2 ->
  mop.(mint_collection) = c -> db.(collections) !! c = Some col ->
  db.(nfts) !! bop.(burn_nft_id) = Some t -> t.(nft_collection) = c -> id <> bop.(burn_nft_id) ->
  live_serial db c col.(col_supply) id ->
  live_serial db2 c col.(col_supply) id /\ live_serial db2 c col.(col_supply) db.(next_nft_id).
Proof.
  intros Hi Hn Hb Hm Hmc Hcol Ht Htc Hne (n & Hlive & Hnc & Hns). simpl in Hb, Hm.
  pose proof (inv_nft _ Hi) as Hw. pose proof (fresh_nft _ _ _ _ _ _ _ Hw) as Hfresh.
  destruct (wf_collections _ _ _ _ _ _ _ Hw _ _ Hcol) as (_&_&_&_&Hcount&Hs&_).
  assert (Hpos : 1 <= col_supply col).
  { rewrite Hcount. etrans; [|apply (map_sum_ge (in_collection c) _ bop.(burn_nft_id) t); [|exact Ht]].
    - unfold in_collection. by rewrite Htc, Z.eqb_refl.
    - intros. unfold in_collection. case_match; lia. }
  apply (atomic_done _ _ _ _ (burn_spec bop db)) in Hb as [_ ->].
  apply (atomic_done _ _ _ _ (mint_spec mop _)) in Hm as [_ ->].
  unfold burn_post, mint_post. rewrite Ht. simpl. rewrite Hmc, Htc, lookup_alter_eq, Hcol. simpl.
  unfold burn_supply. rewrite (proj2 (Z.ltb_lt 0 _)) by lia. unfold live_serial, minted_nft. simpl.
  replace (col_supply col - 1 + 1) with (col_supply col) by lia. rewrite Hmc, u64_small by lia. split.
  - exists n. rewrite lookup_insert_ne by congruence. rewrite lookup_delete_ne by done. done.
  - eexists. rewrite lookup_insert_eq. done.
Qed.
End serials.

(** ** Properties *)

(** C20. Serials are unique until a token is burned: over any history in which no
    token of a collection was burned, the serials of its live tokens are exactly
    1 to [supply], each once. A burn ends that: [supply] falls and the next serial
    is computed from it, so when any token but the one whose serial equals
    [supply] is burned, the next mint repeats that serial and two live tokens
    share it. *)
Theorem serials_unique_until_a_burn (eng : engine) `{!EngineLaws eng} :
  (forall db0 db n c col, genesis db0 -> unburned eng c db0 n db -> n < RUN_LIMIT ->
     db.(collections) !! c = Some col ->
     (forall s, (exists id, live_serial db c s id) <-> 1 <= s <= col.(col_supply)) /\
     (forall s id id', live_serial db c s id -> live_serial db c s id' -> id = id')) /\
  (forall db db1 db2 bop mop c col id t, reachable eng db ->
     db.(collections) !! c = Some col -> live_serial db c col.(col_supply) id ->
     db.(nfts) !! bop.(burn_nft_id) = Some t -> t.(nft_collection) = c -> id <> bop.(burn_nft_id) ->
     mop.(mint_collection) = c ->
     apply_with eng (op_nft_burn bop) db = Done tt db1 -> apply_with eng (op_nft_mint mop) db1 = Done tt db2 ->
     exists id', id' <> id /\ live_serial db2 c col.(col_supply) id /\ live_serial db2 c col.(col_supply) id').
Proof.
  split.
  - intros db0 db n c col Hg Hu Hn. by apply (unburned_serials eng c db0 n).
  - intros db db1 db2 bop mop c col id t Hr Hcol Hlive Ht Htc Hne Hmc Hb Hm.
    pose proof (reachable_inv eng db Hr) as Hi. destruct Hr as (db0 & n & Hg & Hr & Hn).
    destruct (reachable_good eng n db0 db Hg Hr Hn) as [_ (_&Hc&_)]. unfold RUN_LIMIT in Hn.
    destruct (burn_then_mint eng db db1 db2 bop mop c col id t) as [H1 H2]; try done; [lia|].
    exists db.(next_nft_id). split_and!; [|done|done]. intros <-. destruct Hlive as (m & Hm' & _).
    pose proof (fresh_nft _ _ _ _ _ _ _ (inv_nft _ Hi)). congruence.
Qed.

(** In [sample_state] carol holds serial 2, the supply; bob burns his serial 1, and
    the next mint is a second serial 2. *)
Definition bobs_burn : nft_burn_operation := mk_nft_burn "bob" 1.
Definition next_mint : nft_mint_operation := mk_nft_mint "alice" 1 "alice" zero_hash "ipfs" false.

Example serials_unique_until_a_burn_witness :
  exists id, id <> 2 /\
    live_serial (after (op_nft_mint next_mint) (after (op_nft_burn bobs_burn) sample_state)) 1 2 id.
Proof.
  assert (Hc : (fun c => c.(col_supply)) <$> sample_state.(collections) !! 1 = Some 2) by (vm_compute; reflexivity).
  destruct (sample_state.(collections) !! 1) as [col|] eqn:Hcol; [|discriminate Hc].
  assert (Hs : col.(col_supply) = 2) by (by injection Hc). clear Hc.
  assert (Ht : (fun t => t.(nft_collection)) <$> sample_state.(nfts) !! 1 = Some 1) by (vm_compute; reflexivity).
  destruct (sample_state.(nfts) !! 1) as [t|] eqn:Htk; [|discriminate Ht].
  assert (Htc : t.(nft_collection) = 1) by (by injection Ht). clear Ht.
  assert (Hl : live_serial sample_state 1 2 2).
  { assert (E : (fun t => (t.(nft_collection), t.(nft_token_serial))) <$> sample_state.(nfts) !! 2 = Some (1, 2))
      by (vm_compute; reflexivity).
    destruct (sample_state.(nfts) !! 2) as [t2|] eqn:E2; [|discriminate E]. injection E as E3 E4. by exists t2. }
  destruct (serials_unique_until_a_burn default_engine) as [_ H].
  destruct (H sample_state (after (op_nft_burn bobs_burn) sample_state)
    (after (op_nft_mint next_mint) (after (op_nft_burn bobs_burn) sample_state))
    bobs_burn next_mint 1 col 2 t) as (id' & Hne & _ & Hid').
  - apply sample_reachable.
  - exact Hcol.
  - rewrite Hs. exact Hl.
  - exact Htk.
  - exact Htc.
  - discriminate.
  - reflexivity.
  - vm_compute. reflexivity.
  - vm_compute. reflexivity.
  - exists id'. split; [exact Hne|]. rewrite Hs in Hid'. exact Hid'.
Defined.
