(* ===== verification/EventLog.v ===== *)
(** * The log of virtual operations

    The structs of the virtual operations ([include/hive_native/protocol/*.hpp]),
    the line the evaluators push for each, and a reader of these lines: the
    consumer's side, which is not in the sources, as a specification of what a
    line says. *)
From Stdlib Require Import Ascii.
From S2P Require Import Prelude Types Database.

(** ** The declared virtual operations *)

Record nft_collection_created_operation : Type := mk_nft_collection_created {
  vcc_collection : Z; vcc_creator : string; vcc_symbol : string }.
Record nft_minted_operation : Type := mk_nft_minted {
  vmt_nft_id : Z; vmt_collection : Z; vmt_to : string; vmt_metadata_hash : list byte }.
Record nft_transferred_operation : Type := mk_nft_transferred {
  vtr_nft_id : Z; vtr_from : string; vtr_to : string }.
Record nft_approved_operation : Type := mk_nft_approved {
  vap_nft_id : Z; vap_owner : string; vap_approved : string }.
Record nft_approval_for_all_operation : Type := mk_nft_approval_for_all {
  vaa_owner : string; vaa_operator_account : string; vaa_collection : Z; vaa_approved : bool }.
Record nft_burned_operation : Type := mk_nft_burned {
  vbn_nft_id : Z; vbn_owner : string; vbn_collection : Z }.
Record htlc_created_operation : Type := mk_htlc_created {
  vhc_htlc_id : Z; vhc_from : string; vhc_to : string; vhc_amount : asset; vhc_expiration : Z }.
Record htlc_redeemed_operation : Type := mk_htlc_redeemed {
  vhr_htlc_id : Z; vhr_from : string; vhr_to : string; vhr_amount : asset }.
Record htlc_refunded_operation : Type := mk_htlc_refunded {
  vhf_htlc_id : Z; vhf_from : string; vhf_amount : asset }.
Record contract_deployed_operation : Type := mk_contract_deployed {
  vcd_contract_id : Z; vcd_owner : string; vcd_code_hash : list byte }.
Record contract_called_operation : Type := mk_contract_called {
  vcl_contract_id : Z; vcl_caller : string; vcl_fuel_used : Z; vcl_success : bool }.

Inductive virtual_operation : Type :=
| vop_collection_created (v : nft_collection_created_operation)
| vop_minted (v : nft_minted_operation)
| vop_transferred (v : nft_transferred_operation)
| vop_approved (v : nft_approved_operation)
| vop_approval_for_all (v : nft_approval_for_all_operation)
| vop_burned (v : nft_burned_operation)
| vop_htlc_created (v : htlc_created_operation)
| vop_htlc_redeemed (v : htlc_redeemed_operation)
| vop_htlc_refunded (v : htlc_refunded_operation)
| vop_deployed (v : contract_deployed_operation)
| vop_called (v : contract_called_operation).

(** The line pushed for a virtual operation. *)
Definition render (v : virtual_operation) : virtual_op :=
  match v with
  | vop_collection_created v => mk_virtual_op "nft_collection_created"
      (json_object [("id", pretty v.(vcc_collection)); ("symbol", quoted v.(vcc_symbol))])
  | vop_minted v => mk_virtual_op "nft_minted"
      (json_object [("nft_id", pretty v.(vmt_nft_id)); ("to", quoted v.(vmt_to))])
  | vop_transferred v => mk_virtual_op "nft_transferred"
      (json_object [("nft_id", pretty v.(vtr_nft_id)); ("from", quoted v.(vtr_from)); ("to", quoted v.(vtr_to))])
  | vop_approved v => mk_virtual_op "nft_approved"
      (json_object [("nft_id", pretty v.(vap_nft_id)); ("approved", quoted v.(vap_approved))])
  | vop_approval_for_all v => mk_virtual_op "nft_approval_for_all"
      (json_object [("owner", quoted v.(vaa_owner)); ("operator", quoted v.(vaa_operator_account));
                    ("collection", pretty v.(vaa_collection)); ("approved", json_bool v.(vaa_approved))])
  | vop_burned v => mk_virtual_op "nft_burned"
      (json_object [("nft_id", pretty v.(vbn_nft_id)); ("owner", quoted v.(vbn_owner))])
  | vop_htlc_created v => mk_virtual_op "htlc_created"
      (json_object [("htlc_id", pretty v.(vhc_htlc_id)); ("from", quoted v.(vhc_from)); ("to", quoted v.(vhc_to))])
  | vop_htlc_redeemed v => mk_virtual_op "htlc_redeemed"
      (json_object [("htlc_id", pretty v.(vhr_htlc_id)); ("to", quoted v.(vhr_to))])
  | vop_htlc_refunded v => mk_virtual_op "htlc_refunded"
      (json_object [("htlc_id", pretty v.(vhf_htlc_id)); ("from", quoted v.(vhf_from))])
  | vop_deployed v => mk_virtual_op "contract_deployed"
      (json_object [("contract_id", pretty v.(vcd_contract_id)); ("owner", quoted v.(vcd_owner))])
  | vop_called v => mk_virtual_op "contract_called"
      (json_object [("contract_id", pretty v.(vcl_contract_id)); ("success", json_bool v.(vcl_success));
                    ("fuel", pretty v.(vcl_fuel_used))])
  end.

(** ** Reading a line *)

Inductive json : Type := json_num (n : Z) | json_str (s : string) | json_flag (b : bool).

(** The text up to the first [c], and what follows it. *)
Fixpoint split_at (c : ascii) (s : string) : option (string * string) :=
  match s with
  | EmptyString => None
  | String a s' =>
      if Ascii.eqb a c then Some (EmptyString, s')
      else match split_at c s' with Some (l, r) => Some (String a l, r) | None => None end
  end.

Definition quote : ascii := Ascii.ascii_of_nat 34.

Definition digit_of (c : ascii) : option Z :=
  let v := char_val c - 48 in if (0 <=? v) && (v <=? 9) then Some v else None.
Fixpoint read_digits (acc : Z) (s : string) : Z * string :=
  match s with
  | EmptyString => (acc, s)
  | String c s' => match digit_of c with Some d => read_digits (10 * acc + d) s' | None => (acc, s) end
  end.

(** The text after a fixed prefix. *)
Fixpoint after (p s : string) : option string :=
  match p, s with
  | EmptyString, _ => Some s
  | String a p', String b s' => if Ascii.eqb a b then after p' s' else None
  | _, _ => None
  end.

Definition read_value (s : string) : option (json * string) :=
  match s with
  | EmptyString => None
  | String c s' =>
      if Ascii.eqb c quote
      then match split_at quote s' with Some (l, r) => Some (json_str l, r) | None => None end
      else match digit_of c with
           | Some _ => let '(n, r) := read_digits 0 s in Some (json_num n, r)
           | None =>
               match after "true" s with
               | Some r => Some (json_flag true, r)
               | None => match after "false" s with Some r => Some (json_flag false, r) | None => None end
               end
           end
  end.

(** ["key":value] *)
Definition read_field (s : string) : option (string * json * string) :=
  match after (String quote EmptyString) s with
  | None => None
  | Some s =>
      match split_at quote s with
      | None => None
      | Some (k, s) =>
          match after ":" s with
          | None => None
          | Some s => match read_value s with Some (v, r) => Some (k, v, r) | None => None end
          end
      end
  end.

Fixpoint read_fields (fuel : nat) (s : string) : option (list (string * json)) :=
  match fuel with
  | O => None
  | S fuel' =>
      match read_field s with
      | None => None
      | Some (k, v, r) =>
          if String.eqb r "}" then Some [(k, v)]
          else match after "," r with
               | None => None
               | Some r => match read_fields fuel' r with Some l => Some ((k, v) :: l) | None => None end
               end
      end
  end.
Definition read_object (s : string) : option (list (string * json)) :=
  match after "{" s with Some r => read_fields (String.length s) r | None => None end.

(** What a line tells. *)
Inductive event : Type :=
| ev_collection (id : Z) (sym : string)
| ev_minted (id : Z) (to : string)
| ev_transferred (id : Z) (from to : string)
| ev_approved (id : Z) (approved : string)
| ev_approval_for_all (owner oper : string) (collection : Z) (approved : bool)
| ev_burned (id : Z) (owner : string)
| ev_htlc_created (id : Z) (from to : string)
| ev_htlc_redeemed (id : Z) (to : string)
| ev_htlc_refunded (id : Z) (from : string)
| ev_deployed (id : Z) (owner : string)
| ev_called (id : Z) (ok : bool) (fuel : Z).

Fixpoint field (k : string) (l : list (string * json)) : option json :=
  match l with [] => None | (k', v) :: l' => if String.eqb k' k then Some v else field k l' end.
Definition num_field k l : option Z := match field k l with Some (json_num n) => Some n | _ => None end.
Definition str_field k l : option string := match field k l with Some (json_str s) => Some s | _ => None end.
Definition flag_field k l : option bool := match field k l with Some (json_flag b) => Some b | _ => None end.

Definition decode_fields (name : string) (l : list (string * json)) : option event :=
  if String.eqb name "nft_collection_created" then
    id ← num_field "id" l; sym ← str_field "symbol" l; Some (ev_collection id sym)
  else if String.eqb name "nft_minted" then
    id ← num_field "nft_id" l; to ← str_field "to" l; Some (ev_minted id to)
  else if String.eqb name "nft_transferred" then
    id ← num_field "nft_id" l; from ← str_field "from" l; to ← str_field "to" l; Some (ev_transferred id from to)
  else if String.eqb name "nft_approved" then
    id ← num_field "nft_id" l; a ← str_field "approved" l; Some (ev_approved id a)
  else if String.eqb name "nft_approval_for_all" then
    o ← str_field "owner" l; p ← str_field "operator" l; c ← num_field "collection" l;
    a ← flag_field "approved" l; Some (ev_approval_for_all o p c a)
  else if String.eqb name "nft_burned" then
    id ← num_field "nft_id" l; o ← str_field "owner" l; Some (ev_burned id o)
  else if String.eqb name "htlc_created" then
    id ← num_field "htlc_id" l; from ← str_field "from" l; to ← str_field "to" l; Some (ev_htlc_created id from to)
  else if String.eqb name "htlc_redeemed" then
    id ← num_field "htlc_id" l; to ← str_field "to" l; Some (ev_htlc_redeemed id to)
  else if String.eqb name "htlc_refunded" then
    id ← num_field "htlc_id" l; from ← str_field "from" l; Some (ev_htlc_refunded id from)
  else if String.eqb name "contract_deployed" then
    id ← num_field "contract_id" l; o ← str_field "owner" l; Some (ev_deployed id o)
  else if String.eqb name "contract_called" then
    id ← num_field "contract_id" l; ok ← flag_field "success" l; f ← num_field "fuel" l; Some (ev_called id ok f)
  else None.

Definition decode (v : virtual_op) : option event :=
  match read_object v.(payload_json) with Some l => decode_fields v.(vop_name) l | None => None end.

(** What the line of a virtual operation keeps of it. *)
Definition visible (v : virtual_operation) : event :=
  match v with
  | vop_collection_created v => ev_collection v.(vcc_collection) v.(vcc_symbol)
  | vop_minted v => ev_minted v.(vmt_nft_id) v.(vmt_to)
  | vop_transferred v => ev_transferred v.(vtr_nft_id) v.(vtr_from) v.(vtr_to)
  | vop_approved v => ev_approved v.(vap_nft_id) v.(vap_approved)
  | vop_approval_for_all v =>
      ev_approval_for_all v.(vaa_owner) v.(vaa_operator_account) v.(vaa_collection) v.(vaa_approved)
  | vop_burned v => ev_burned v.(vbn_nft_id) v.(vbn_owner)
  | vop_htlc_created v => ev_htlc_created v.(vhc_htlc_id) v.(vhc_from) v.(vhc_to)
  | vop_htlc_redeemed v => ev_htlc_redeemed v.(vhr_htlc_id) v.(vhr_to)
  | vop_htlc_refunded v => ev_htlc_refunded v.(vhf_htlc_id) v.(vhf_from)
  | vop_deployed v => ev_deployed v.(vcd_contract_id) v.(vcd_owner)
  | vop_called v => ev_called v.(vcl_contract_id) v.(vcl_success) v.(vcl_fuel_used)
  end.

(** ** Reading back what was printed *)

Lemma append_cons c s t : String c s +:+ t = String c (s +:+ t).
Proof. done. Qed.
Lemma append_nil t : "" +:+ t = t.
Proof. done. Qed.
Lemma append_assoc (s t u : string) : (s +:+ t) +:+ u = s +:+ t +:+ u.
Proof. induction s as [|c s IH]; [done|]. by rewrite !append_cons, IH. Qed.
#[local] Create Rewrite HintDb text.
#[local] Hint Rewrite append_assoc append_cons append_nil : text.

(** Text that can stand between quotes. *)
Definition clean (s : string) : Prop := all_chars (fun c => negb (Ascii.eqb c quote)) s = true.

Lemma split_at_app s r : clean s -> split_at quote (s +:+ String quote r) = Some (s, r).
Proof.
  unfold clean, all_chars. induction s as [|c s IH]; intros H.
  - done.
  - simpl in H. apply andb_true_iff in H as [Hc Hs]. apply negb_true_iff in Hc.
    rewrite append_cons. cbn [split_at]. by rewrite Hc, IH.
Qed.
Lemma after_app p s : after p (p +:+ s) = Some s.
Proof. induction p as [|c p IH]; [by destruct s|]. rewrite append_cons. cbn [after]. by rewrite Ascii.eqb_refl. Qed.

(** A number ends at the first character that is not a digit. *)
Definition ends_number (s : string) : Prop :=
  match s with EmptyString => True | String c _ => digit_of c = None end.

Lemma read_digits_end acc s : ends_number s -> read_digits acc s = (acc, s).
Proof. destruct s as [|c s]; [done|]. simpl. by intros ->. Qed.

Lemma digit_of_pretty n : (n < 10)%N -> digit_of (pretty_N_char n) = Some (Z.of_N n).
Proof.
  intros H. destruct n as [|p]; [done|].
  do 4 try destruct p as [p|p|]; solve [reflexivity|lia].
Qed.

Lemma pretty_N_go_app n s t : pretty_N_go n s +:+ t = pretty_N_go n (s +:+ t).
Proof.
  revert s. induction (N.lt_wf_0 n) as [n _ IH]; intros s.
  assert (n = 0 \/ 0 < n)%N as [->|Hn] by lia; [done|].
  rewrite !(pretty_N_go_step n) by done. rewrite IH by (by apply N.div_lt). by rewrite append_cons.
Qed.
Lemma read_digits_go n s : read_digits 0 (pretty_N_go n s) = read_digits (Z.of_N n) s.
Proof.
  revert s. induction (N.lt_wf_0 n) as [n _ IH]; intros s.
  assert (n = 0 \/ 0 < n)%N as [->|Hn] by lia; [done|].
  rewrite pretty_N_go_step by done. rewrite IH by (by apply N.div_lt). cbn [read_digits].
  rewrite digit_of_pretty by (by apply N.mod_lt). f_equal.
  rewrite N2Z.inj_div, N2Z.inj_mod. symmetry. apply Z.div_mod. lia.
Qed.
Lemma pretty_N_go_head n s :
  (0 < n)%N -> exists c r d, pretty_N_go n s = String c r /\ digit_of c = Some d.
Proof.
  revert s. induction (N.lt_wf_0 n) as [n _ IH]; intros s Hn. rewrite pretty_N_go_step by done.
  destruct (N.eq_0_gt_0_cases (n `div` 10)) as [->|Hd].
  - rewrite pretty_N_go_0. do 3 eexists. split; [done|]. apply digit_of_pretty. by apply N.mod_lt.
  - apply IH; [by apply N.div_lt|done].
Qed.

Lemma read_pretty (n : Z) r :
  0 <= n -> ends_number r ->
  read_digits 0 (pretty n +:+ r) = (n, r) /\
  exists c s d, pretty n +:+ r = String c s /\ digit_of c = Some d.
Proof.
  intros Hn Hr. destruct n as [|p|p]; [|change (pretty (Z.pos p)) with (pretty_N_go (N.pos p) "")|lia].
  - change (pretty 0) with "0". rewrite append_cons, append_nil. split; [|by do 3 eexists].
    cbn [read_digits]. by apply read_digits_end.
  - rewrite pretty_N_go_app, append_nil. split.
    + rewrite read_digits_go. by apply read_digits_end.
    + by apply pretty_N_go_head.
Qed.

Definition print (v : json) : string :=
  match v with json_num n => pretty n | json_str s => quoted s | json_flag b => json_bool b end.
Definition printable (v : json) : Prop :=
  match v with json_num n => 0 <= n | json_str s => clean s | json_flag _ => True end.

Lemma digit_not_quote c d : digit_of c = Some d -> Ascii.eqb c quote = false.
Proof. intros H. apply Ascii.eqb_neq. by intros ->. Qed.

Lemma read_print v r : printable v -> ends_number r -> read_value (print v +:+ r) = Some (v, r).
Proof.
  intros Hv Hr. destruct v as [n|s|b]; simpl print.
  - destruct (read_pretty n r Hv Hr) as (Hn & c & s & d & Es & Ed). unfold read_value.
    rewrite Es in Hn |- *. rewrite (digit_not_quote c d Ed), Ed. by rewrite Hn.
  - unfold quoted, dq. autorewrite with text. unfold read_value. fold quote.
    rewrite Ascii.eqb_refl. by rewrite split_at_app.
  - unfold json_bool. by destruct b; autorewrite with text; destruct r.
Qed.

Definition print_field (kv : string * json) : string := quoted kv.1 +:+ ":" +:+ print kv.2.

Lemma read_field_print k v r :
  clean k -> printable v -> ends_number r -> read_field (print_field (k, v) +:+ r) = Some (k, v, r).
Proof.
  intros Hk Hv Hr. unfold print_field, read_field, quoted, dq. simpl fst; simpl snd.
  rewrite !append_assoc, after_app. fold quote. rewrite append_cons, append_nil, split_at_app by done.
  rewrite after_app. by rewrite read_print.
Qed.

Lemma length_append s t : String.length (s +:+ t) = (String.length s + String.length t)%nat.
Proof. induction s as [|c s IH]; [done|]. rewrite append_cons. simpl. by rewrite IH. Qed.

Lemma concat_length l :
  (length l <= String.length (String.concat "," (map print_field l)))%nat.
Proof.
  induction l as [|kv l IH]; [done|]. destruct l as [|kv' l].
  - simpl. unfold print_field, quoted, dq. rewrite !length_append. simpl. lia.
  - change (String.concat "," (map print_field (kv :: kv' :: l)))
      with (print_field kv +:+ "," +:+ String.concat "," (map print_field (kv' :: l))).
    rewrite !length_append. change (String.length ",") with 1%nat. cbn [List.length] in *. lia.
Qed.

Definition field_ok (kv : string * json) : Prop := clean kv.1 /\ printable kv.2.

Lemma read_fields_print l fuel :
  l <> [] -> Forall field_ok l -> (length l <= fuel)%nat ->
  read_fields fuel (String.concat "," (map print_field l) +:+ "}") = Some l.
Proof.
  induction l as [|[k v] l IH] in fuel |- *; [done|]. intros _ Hl Hf.
  inversion_clear Hl as [|?? [Hk Hv] Hl']. destruct fuel as [|fuel]; [simpl in Hf; lia|].
  destruct l as [|kv' l].
  - cbn [read_fields map String.concat]. by rewrite read_field_print.
  - change (String.concat "," (map print_field ((k, v) :: kv' :: l)))
      with (print_field (k, v) +:+ "," +:+ String.concat "," (map print_field (kv' :: l))).
    cbn [read_fields]. rewrite !append_assoc, read_field_print by done.
    destruct (String.eqb_spec ("," +:+ String.concat "," (map print_field (kv' :: l)) +:+ "}") "}") as [E|_].
    { rewrite append_cons in E. discriminate E. }
    rewrite after_app, IH; [done..|]. simpl in *. lia.
Qed.

(** Printed objects read back as the fields they were printed from. *)
Lemma read_object_print l :
  l <> [] -> Forall field_ok l -> read_object ("{" +:+ String.concat "," (map print_field l) +:+ "}") = Some l.
Proof.
  intros Hl Hf. unfold read_object. rewrite after_app. apply read_fields_print; [done..|].
  rewrite !length_append. pose proof (concat_length l). lia.
Qed.
Lemma json_object_print l :
  json_object (map (fun kv => (kv.1, print kv.2)) l) = "{" +:+ String.concat "," (map print_field l) +:+ "}".
Proof. unfold json_object. by rewrite List.map_map. Qed.

(** The texts of a virtual operation that its line quotes. *)
Definition clean_texts (v : virtual_operation) : Prop :=
  match v with
  | vop_collection_created v => clean v.(vcc_symbol)
  | vop_minted v => clean v.(vmt_to)
  | vop_transferred v => clean v.(vtr_from) /\ clean v.(vtr_to)
  | vop_approved v => clean v.(vap_approved)
  | vop_approval_for_all v => clean v.(vaa_owner) /\ clean v.(vaa_operator_account)
  | vop_burned v => clean v.(vbn_owner)
  | vop_htlc_created v => clean v.(vhc_from) /\ clean v.(vhc_to)
  | vop_htlc_redeemed v => clean v.(vhr_to)
  | vop_htlc_refunded v => clean v.(vhf_from)
  | vop_deployed v => clean v.(vcd_owner)
  | vop_called _ => True
  end.
(** Its numbers are unsigned. *)
Definition unsigned_numbers (v : virtual_operation) : Prop :=
  match v with
  | vop_collection_created v => 0 <= v.(vcc_collection)
  | vop_minted v => 0 <= v.(vmt_nft_id)
  | vop_transferred v => 0 <= v.(vtr_nft_id)
  | vop_approved v => 0 <= v.(vap_nft_id)
  | vop_approval_for_all v => 0 <= v.(vaa_collection)
  | vop_burned v => 0 <= v.(vbn_nft_id)
  | vop_htlc_created v => 0 <= v.(vhc_htlc_id)
  | vop_htlc_redeemed v => 0 <= v.(vhr_htlc_id)
  | vop_htlc_refunded v => 0 <= v.(vhf_htlc_id)
  | vop_deployed v => 0 <= v.(vcd_contract_id)
  | vop_called v => 0 <= v.(vcl_contract_id) /\ 0 <= v.(vcl_fuel_used)
  end.

(** A line decodes to what its fields say. *)
Lemma decode_line name l :
  l <> [] -> Forall field_ok l ->
  decode (mk_virtual_op name (json_object (map (fun kv => (kv.1, print kv.2)) l))) = decode_fields name l.
Proof. intros Hl Hf. unfold decode. cbn [payload_json vop_name]. by rewrite json_object_print, read_object_print. Qed.

Ltac decode_with l := etrans; [apply (decode_line _ l); [discriminate|repeat constructor; tauto]|reflexivity].

(** Every line can be read back: for each of the eleven virtual operations
    whose quoted texts hold no quotation mark and whose numbers are unsigned, the
    line the evaluators push decodes to exactly the fields the line shows. In
    particular no two of them with different visible fields share a line. *)
Lemma line_round_trip (v : virtual_operation) :
  clean_texts v -> unsigned_numbers v -> decode (render v) = Some (visible v).
Proof.
  intros Ht Hn. destruct v as [v|v|v|v|v|v|v|v|v|v|v]; simpl in Ht, Hn; cbn [render visible].
  - decode_with [("id", json_num v.(vcc_collection)); ("symbol", json_str v.(vcc_symbol))].
  - decode_with [("nft_id", json_num v.(vmt_nft_id)); ("to", json_str v.(vmt_to))].
  - decode_with [("nft_id", json_num v.(vtr_nft_id)); ("from", json_str v.(vtr_from)); ("to", json_str v.(vtr_to))].
  - decode_with [("nft_id", json_num v.(vap_nft_id)); ("approved", json_str v.(vap_approved))].
  - decode_with [("owner", json_str v.(vaa_owner)); ("operator", json_str v.(vaa_operator_account));
      ("collection", json_num v.(vaa_collection)); ("approved", json_flag v.(vaa_approved))].
  - decode_with [("nft_id", json_num v.(vbn_nft_id)); ("owner", json_str v.(vbn_owner))].
  - decode_with [("htlc_id", json_num v.(vhc_htlc_id)); ("from", json_str v.(vhc_from)); ("to", json_str v.(vhc_to))].
  - decode_with [("htlc_id", json_num v.(vhr_htlc_id)); ("to", json_str v.(vhr_to))].
  - decode_with [("htlc_id", json_num v.(vhf_htlc_id)); ("from", json_str v.(vhf_from))].
  - decode_with [("contract_id", json_num v.(vcd_contract_id)); ("owner", json_str v.(vcd_owner))].
  - decode_with [("contract_id", json_num v.(vcl_contract_id)); ("success", json_flag v.(vcl_success));
      ("fuel", json_num v.(vcl_fuel_used))].
Qed.

Example transfer_line :
  let v := vop_transferred (mk_nft_transferred 17 "alice" "bob") in
  decode (render v) = Some (ev_transferred 17 "alice" "bob").
Proof. vm_compute. reflexivity. Qed.
