(* ===== verification/EngineCommands.v ===== *)
(** * What the linked engine answers, and what escapes an operation

    The null engine interprets its arguments as a small command language (header
    comment of [src/contracts/engine.cpp]); [command] is that language and
    [render] its concrete syntax. Then the exceptions that leave [apply]. *)
From Stdlib Require Import Ascii.
From S2P Require Import Prelude Types Crypto Protocol Costs Database EvalNft EvalHtlc Engine EvalContracts.
From S2P Require Import NftInvariant HtlcInvariant ContractInvariant Chain ChainProperties EventLog.






Definition out_of_fuel (f : Z) : call_result := mk_call_result false f "out of fuel" ∅ [].


(** ** Reading the command back *)

Lemma bytes_of_text s : bytes_string (string_bytes s) = s.
Proof. apply String.string_of_list_byte_of_string. Qed.
Lemma text_of_bytes l : string_bytes (bytes_string l) = l.
Proof. apply String.list_byte_of_string_of_list_byte. Qed.

Lemma substring_all s m : (String.length s <= m)%nat -> String.substring 0 m s = s.
Proof.
  revert m. induction s as [|c s IH]; intros m; [by destruct m|]. simpl.
  destruct m as [|m]; [lia|]. intros Hm. simpl. rewrite IH by lia. done.
Qed.
Lemma substring_after p s m :
  (String.length s <= m)%nat -> String.substring (String.length p) m (p +:+ s) = s.
Proof. intros Hm. induction p as [|c p IH]; [by apply substring_all|exact IH]. Qed.
Lemma substr_app p s : substr_from (String.length p) (p +:+ s) = s.
Proof. unfold substr_from. apply substring_after. rewrite EventLog.length_append. lia. Qed.
Lemma starts_with_app p s : starts_with p (p +:+ s) = true.
Proof.
  unfold starts_with. induction p as [|c p IH]; [by destruct s|]. rewrite append_cons. simpl.
  by destruct (ascii_dec c c).
Qed.
Lemma starts_with_split p s : starts_with p s = true -> exists r, s = p +:+ r.
Proof.
  unfold starts_with. revert s. induction p as [|c p IH]; intros s; [by exists s|].
  destruct s as [|d s]; simpl; [done|]. destruct (ascii_dec c d) as [->|]; [|done].
  intros Hs. destruct (IH s Hs) as [r ->]. exists r. by rewrite append_cons.
Qed.


(** *** Numbers *)




(** ** The engine on a command *)

Section engine_call.
Context (code : list byte) (export_name caller : string) (storage : gmap string (list byte)).
Hypothesis Hcode : code <> [].
Hypothesis Hexport : export_name <> "".

Definition base_result : call_result := mk_call_result false 50 "" ∅ [].

(** Past the guards and the base fuel, what is left depends on the text. *)
Lemma null_call_start f args :
  0 <= f < 2 ^ 64 ->
  null_call code export_name args storage (limits_with_fuel f) caller =
    if f <? 50 then Ret (out_of_fuel f) else
    let limits := limits_with_fuel f in let r := base_result in let cmd := bytes_string args in
    if str_empty cmd || String.eqb cmd "OK" then Ret (set_success r) else
    if starts_with "BURN:" cmd then
      n ← stoull (substr_from 5 cmd);
      let '(ok, r) := burn r limits n in if negb ok then Ret r else Ret (set_success r)
    else if starts_with "DENY:" cmd then
      if String.eqb (substr_from 5 cmd) "transfer" then
        Ret (mk_call_result false 50 "host function denied: transfer" ∅ ["transfer"])
      else Ret (set_error r "unknown deny target")
    else if starts_with "WRITE:" cmd then
      match String.index 0 ":" (substr_from 6 cmd) with
      | None => Ret (set_error r "bad WRITE")
      | Some pos =>
          let key := String.substring 0 pos (substr_from 6 cmd) in
          let val := substr_from (pos + 1) (substr_from 6 cmd) in
          if (256 <? str_size key) || (4096 <? str_size val) then Ret (set_error r "storage size limit") else
          let '(ok, r) := burn r limits (host_fuel_weight write_storage (str_size val)) in
          if negb ok then Ret r else
          Ret (set_success (mk_call_result r.(success) r.(fuel_used) r.(error)
                 (<[key := string_bytes val]> r.(storage_writes)) r.(denied_hosts)))
      end
    else if starts_with "READ:" cmd then
      let '(ok, r) := burn r limits 50 in if negb ok then Ret r else Ret (set_success r)
    else let '(ok, r) := burn r limits (u64 (20 + size_of args)) in if negb ok then Ret r else Ret (set_success r).
Proof.
  intros Hf. unfold null_call. destruct (Z.eqb_spec (size_of code) 0) as [E|_]; [by apply size_of_zero in E|].
  rewrite (proj2 (str_empty_false export_name) Hexport).
  unfold burn at 1. cbn [fuel_used empty_call_result limits_with_fuel fuel].
  change (u64 (0 + 50)) with 50. destruct (f <? 50); [done|]. cbn [negb host_allowed].
  by rewrite andb_true_r.
Qed.

Lemma burn_base f n r :
  r = base_result ->
  (let '(ok, r) := burn r (limits_with_fuel f) n in if negb ok then Ret r else Ret (set_success r)) =
    Ret (if u64 (50 + n) <=? f then mk_call_result true (u64 (50 + n)) "" ∅ [] else out_of_fuel f).
Proof.
  intros ->. unfold burn, base_result. cbn [fuel_used limits_with_fuel fuel]. rewrite Z.leb_antisym.
  by destruct (f <? u64 (50 + n)).
Qed.


End engine_call.

(** ** Exceptions *)

Section exceptions.
Context (eng : engine) `{!EngineLaws eng}.

Lemma deploy_throws op db :
  wp (apply_contract_deploy_with eng op) (fun _ _ => True)
    (fun e _ => is_protocol_error e \/
       eng.(deploy_and_init) op.(cd_code) op.(cd_init_args) (limits_with_fuel op.(cd_fuel_limit)) = Throw e) db.
Proof.
  unfold apply_contract_deploy_with, require_hardfork, take_next, push_virtual.
  do 4 wp_step; [left; by eexists|]. do 4 wp_step; [left; by eexists|].
  eapply wp_validate; [apply validate_contract_deploy_ret
    |apply (validate_throws_protocol 0 (op_contract_deploy op))|intros; left; by eexists|intros Hv].
  repeat wp_step; try (left; by eexists); [by right|done].
Qed.

(** What escapes an operation as something else than a [protocol_error] is what
    the engine threw. *)
Definition engine_threw (db : database) (op : operation) (e : exn) : Prop :=
  match op with
  | op_contract_deploy op =>
      eng.(deploy_and_init) op.(cd_code) op.(cd_init_args) (limits_with_fuel op.(cd_fuel_limit)) = Throw e
  | op_contract_call op => exists c, call_ready db op c /\ call_answer eng db op c = Throw e
  | _ => False
  end.

Lemma apply_throws db op e db' :
  db_inv db -> typed_op op -> apply_with eng op db = Thrown e db' ->
  is_protocol_error e \/ engine_threw db op e.
Proof.
  intros [H1 H2 H3 H4] Ht He.
  assert (Hcharged : forall m pre post c, charged_spec m pre post c db -> m db = Thrown e db' -> is_protocol_error e).
  { intros m pre post c H Hm. by destruct (wp_thrown _ _ _ _ _ _ H Hm) as (_ & _ & ?). }
  destruct op; simpl in He.
  - left. by eapply (atomic_thrown _ _ _ _ (create_collection_spec _ db)).
  - left. by eapply (atomic_thrown _ _ _ _ (mint_spec _ db)).
  - left. by eapply (atomic_thrown _ _ _ _ (transfer_spec _ db)).
  - left. by eapply (atomic_thrown _ _ _ _ (approve_spec _ db)).
  - left. by eapply (atomic_thrown _ _ _ _ (set_approval_for_all_spec _ db)).
  - left. by eapply (atomic_thrown _ _ _ _ (burn_spec _ db)).
  - left. eapply Hcharged; [|exact He]. apply htlc_create_spec; [by apply create_balance_in_range|apply Ht].
  - left. eapply Hcharged; [|exact He]. apply htlc_redeem_spec. by apply payout_is_defined.
  - left. eapply Hcharged; [|exact He]. apply htlc_refund_spec. by apply payout_is_defined.
  - apply (wp_thrown _ _ _ _ _ _ (deploy_throws _ db) He).
  - destruct (wp_thrown _ _ _ _ _ _ (call_spec eng _ db) He) as [(_ & _ & ?)|(c & Hr & Hc)]; [by left|].
    destruct (call_answer _ _ _ _) as [r|e'] eqn:Ea; [left; apply Hc|].
    right. destruct Hc as [-> _]. by exists c.
Qed.

(** An exception of the engine passes through [apply], which has changed nothing. *)
Lemma call_passes_exception db op c e :
  db_inv db -> call_ready db op c -> call_answer eng db op c = Throw e ->
  apply_with eng (op_contract_call op) db = Thrown e db.
Proof.
  intros Hi Hr Ha. simpl. pose proof (call_spec eng op db) as Hw. unfold wp in Hw.
  destruct (apply_contract_call_with eng op db) as [[] s|e' s|]; [|f_equal|done].
  - destruct Hw as (c' & r & Hr' & Ha' & _). rewrite <-(call_ready_functional _ _ _ _ Hr Hr') in Ha'. congruence.
  - destruct Hw as [(Hn & _)|(c' & Hr' & Hc)]; [by destruct (Hn c)|].
    rewrite <-(call_ready_functional _ _ _ _ Hr Hr'), Ha in Hc. by destruct Hc.
  - destruct Hw as [(Hn & _)|(c' & Hr' & Hc)]; [by destruct (Hn c)|].
    rewrite <-(call_ready_functional _ _ _ _ Hr Hr'), Ha in Hc. destruct Hc as [_ ->].
    eapply call_touched_id; [apply Hi|apply Hr].
Qed.
End exceptions.

(** The null engine throws only what [std::stoull] throws on the text after
    [BURN:]. *)
Lemma null_call_throws code export_name args storage f caller e :
  code <> [] -> export_name <> "" -> 0 <= f < 2 ^ 64 ->
  null_call code export_name args storage (limits_with_fuel f) caller = Throw e <->
  50 <= f /\ exists arg, args = string_bytes ("BURN:" +:+ arg) /\ stoull arg = Throw e.
Proof.
  intros Hc He Hf. rewrite (null_call_start code export_name caller storage Hc He f args Hf). cbv zeta. split.
  - destruct (Z.ltb_spec f 50) as [|Hge]; [done|]. split; [done|].
    case_match; [done|]. destruct (starts_with "BURN:" _) eqn:Eb.
    + apply starts_with_split in Eb as [arg Earg]. rewrite Earg in *. exists arg.
      split; [by rewrite <-Earg, text_of_bytes|].
      change 5%nat with (String.length "BURN:") in *. rewrite substr_app in *.
      destruct (stoull arg) as [n|e']; simpl in *; [|congruence].
      rewrite burn_base in * by done. done.
    + repeat case_match; try done.
  - intros (Hge & arg & -> & Ha). rewrite (proj2 (Z.ltb_ge f 50)) by done.
    rewrite bytes_of_text. change (str_empty ("BURN:" +:+ arg) || String.eqb ("BURN:" +:+ arg) "OK") with false.
    rewrite starts_with_app. change 5%nat with (String.length "BURN:"). by rewrite substr_app, Ha.
Qed.

(** Of its limits the null engine reads the fuel and the caps of one entry, and of
    the storage nothing: no quota on the total is enforced. *)
Lemma total_quota_is_never_read code export_name args storage storage' lim memory total caller :
  null_call code export_name args storage lim caller =
  null_call code export_name args storage'
    (mk_host_limits lim.(fuel) memory lim.(max_storage_key) lim.(max_storage_value) total) caller.
Proof. by destruct lim. Qed.

(** ** Properties *)



(** C19. Which exceptions leave an operation: in every reachable state an operation
    is refused with a [protocol_error], except a call that is otherwise in order
    and whose arguments are [BURN:] followed by text [std::stoull] rejects; that
    call, and only that, throws what [stoull] throws, and then nothing has
    changed: the run is neither charged nor logged, as a failed call is. *)
Theorem escaping_exceptions (db : database) (op : operation) (e : exn) :
  reachable default_engine db -> typed_op op -> ~ is_protocol_error e ->
  ((exists db', apply op db = Thrown e db') <->
   exists cop c arg, op = op_contract_call cop /\ call_ready db cop c /\ 50 <= cop.(call_fuel_limit) /\
     cop.(call_args) = string_bytes ("BURN:" +:+ arg) /\ stoull arg = Throw e) /\
  (forall db', apply op db = Thrown e db' -> db' = db).
Proof.
  intros Hr Ht Hne. pose proof (reachable_inv default_engine db Hr) as Hi.
  assert (Hcall : forall cop c, typed_op (op_contract_call cop) -> call_ready db cop c ->
    (call_answer default_engine db cop c = Throw e <->
     50 <= cop.(call_fuel_limit) /\ exists arg, cop.(call_args) = string_bytes ("BURN:" +:+ arg) /\ stoull arg = Throw e)).
  { intros cop c [_ Hfuel] (_ & Hv & _ & Hc). apply null_call_throws; [|apply Hv|exact Hfuel].
    destruct (wf_contracts _ _ _ _ (inv_contract _ Hi) _ _ Hc) as (_&_&_&?&_). done. }
  assert (Hback : forall cop c, typed_op (op_contract_call cop) -> call_ready db cop c ->
    call_answer default_engine db cop c = Throw e -> apply (op_contract_call cop) db = Thrown e db).
  { intros cop c _ Hrd Ha. by eapply (call_passes_exception default_engine). }
  assert (Hforth : forall db', apply op db = Thrown e db' ->
    exists cop c, op = op_contract_call cop /\ call_ready db cop c /\ call_answer default_engine db cop c = Throw e).
  { intros db' He. destruct (apply_throws default_engine db op e db' Hi Ht He) as [?|Hth]; [done|].
    destruct op as [| | | | | | | | |dop|cop]; try done.
    - simpl in Hth. unfold null_deploy_and_init in Hth. case_match; [done|]. by destruct (burn _ _ _) as [[] ?].
    - destruct Hth as (c & ? & ?). by exists cop, c. }
  split; [split|].
  - intros [db' He]. destruct (Hforth db' He) as (cop & c & -> & Hrd & Ha).
    apply (Hcall cop c Ht Hrd) in Ha as [Hf (arg & Harg & Hs)]. by exists cop, c, arg.
  - intros (cop & c & arg & -> & Hrd & Hf & Harg & Hs). exists db. apply (Hback cop c Ht Hrd).
    apply (Hcall cop c Ht Hrd). split; [done|]. by exists arg.
  - intros db' He. destruct (Hforth db' He) as (cop & c & -> & Hrd & Ha).
    rewrite (Hback cop c Ht Hrd Ha) in He. by injection He.
Qed.

Definition bad_burn : contract_call_operation :=
  mk_contract_call "bob" 1 "call" (string_bytes "BURN:lots") 1000.

Example escaping_exceptions_witness :
  exists db', apply (op_contract_call bad_burn) sample_state = Thrown std_invalid_argument db' /\
    db'.(pending_virtual_ops) = sample_state.(pending_virtual_ops).
Proof.
  assert (Ht : typed_op (op_contract_call bad_burn)) by (simpl; unfold is_u64; simpl; lia).
  destruct (escaping_exceptions sample_state (op_contract_call bad_burn) std_invalid_argument
    sample_reachable Ht) as [[_ Hex] Hsame]; [intros [what E]; discriminate E|].
  assert (Hc : is_Some (sample_state.(contracts) !! 1)) by (apply not_eq_None_Some; vm_compute; discriminate).
  destruct Hc as [c Hc].
  destruct Hex as [db' E].
  - exists bad_burn, c, "lots". split; [reflexivity|]. split; [|split; [cbn; lia|split; reflexivity]].
    split; [split; vm_compute; congruence|].
    split; [repeat split; vm_compute; congruence|]. split; [vm_compute; reflexivity|exact Hc].
  - exists db'. split; [exact E|]. by rewrite (Hsame db' E).
Defined.
