(* ===== verification/Indexer.v ===== *)
(** * What an indexer learns from the log

    A consumer of the drained virtual operations (the chain's history tables are
    fed from them) that knows nothing else: [apply_event] keeps who owns and may
    move each NFT, the operators, the symbols, the parties and status of each
    HTLC and the owners of contracts. It is the specification the evaluators'
    log is proved to meet. *)
From S2P Require Import Prelude Types Crypto Protocol Costs Database EvalNft EvalHtlc Engine EvalContracts.
From S2P Require Import NftInvariant HtlcInvariant ContractInvariant Chain ChainProperties EventLog.

Record index : Type := mk_index {
  ix_symbols : gmap string Z;
  ix_nfts : gmap Z (string * string);
  ix_operators : gmap (string * string * Z) unit;
  ix_htlcs : gmap Z (string * string * htlc_status);
  ix_contracts : gmap Z string }.

Definition empty_index : index := mk_index ∅ ∅ ∅ ∅ ∅.

Definition set_symbols m ix := mk_index m ix.(ix_nfts) ix.(ix_operators) ix.(ix_htlcs) ix.(ix_contracts).
Definition set_nfts m ix := mk_index ix.(ix_symbols) m ix.(ix_operators) ix.(ix_htlcs) ix.(ix_contracts).
Definition set_operators m ix := mk_index ix.(ix_symbols) ix.(ix_nfts) m ix.(ix_htlcs) ix.(ix_contracts).
Definition set_htlcs m ix := mk_index ix.(ix_symbols) ix.(ix_nfts) ix.(ix_operators) m ix.(ix_contracts).
Definition set_contracts m ix := mk_index ix.(ix_symbols) ix.(ix_nfts) ix.(ix_operators) ix.(ix_htlcs) m.

Definition close_entry (st : htlc_status) (e : string * string * htlc_status) := (e.1, st).

Definition apply_event (ix : index) (e : EventLog.event) : index :=
  match e with
  | ev_collection id sym => set_symbols (<[sym := id]> ix.(ix_symbols)) ix
  | ev_minted id to => set_nfts (<[id := (to, "")]> ix.(ix_nfts)) ix
  | ev_transferred id _ to => set_nfts (<[id := (to, "")]> ix.(ix_nfts)) ix
  | ev_approved id a => set_nfts (alter (fun o => (o.1, a)) id ix.(ix_nfts)) ix
  | ev_approval_for_all o p c a =>
      set_operators (if a : bool then <[(o, p, c) := tt]> ix.(ix_operators) else delete (o, p, c) ix.(ix_operators)) ix
  | ev_burned id _ => set_nfts (delete id ix.(ix_nfts)) ix
  | ev_htlc_created id from to => set_htlcs (<[id := (from, to, open)]> ix.(ix_htlcs)) ix
  | ev_htlc_redeemed id _ => set_htlcs (alter (close_entry redeemed) id ix.(ix_htlcs)) ix
  | ev_htlc_refunded id _ => set_htlcs (alter (close_entry refunded) id ix.(ix_htlcs)) ix
  | ev_deployed id o => set_contracts (<[id := o]> ix.(ix_contracts)) ix
  | ev_called _ _ _ => ix
  end.

(** Reading a log from the beginning; [None] if some line cannot be read. *)
Definition index_log (l : list virtual_op) : option index :=
  foldl apply_event empty_index <$> mapM decode l.

(** The same knowledge, taken from the database itself. *)
Definition index_of (db : database) : index :=
  mk_index db.(collection_by_symbol)
    ((fun n => (n.(nft_owner), n.(nft_approved))) <$> db.(nfts))
    ((fun _ => tt) <$> db.(operators))
    ((fun h => (h.(htlc_from), h.(htlc_to), h.(status))) <$> db.(htlcs))
    (ctr_owner <$> db.(contracts)).

(** ** The virtual operation of an operation *)

Definition virtual_of (db : database) (op : operation) (r : call_result) : option virtual_operation :=
  match op with
  | op_nft_create_collection op =>
      Some (vop_collection_created (mk_nft_collection_created db.(next_collection_id) op.(cc_creator) op.(cc_symbol)))
  | op_nft_mint op =>
      Some (vop_minted (mk_nft_minted db.(next_nft_id) op.(mint_collection) op.(mint_to) op.(mint_metadata_hash)))
  | op_nft_transfer op =>
      n ← db.(nfts) !! op.(xfer_nft_id);
      Some (vop_transferred (mk_nft_transferred n.(nft_id) n.(nft_owner) op.(xfer_to)))
  | op_nft_approve op =>
      Some (vop_approved (mk_nft_approved op.(appr_nft_id) op.(appr_owner) op.(appr_approved)))
  | op_nft_set_approval_for_all op =>
      Some (vop_approval_for_all (mk_nft_approval_for_all op.(afa_owner) op.(afa_operator_account)
              op.(afa_collection) op.(afa_approved)))
  | op_nft_burn op =>
      n ← db.(nfts) !! op.(burn_nft_id);
      Some (vop_burned (mk_nft_burned op.(burn_nft_id) op.(burn_owner) n.(nft_collection)))
  | op_htlc_create op =>
      Some (vop_htlc_created (mk_htlc_created db.(next_htlc_id) op.(hc_from) op.(hc_to) op.(hc_amount)
              op.(hc_expiration)))
  | op_htlc_redeem op =>
      h ← db.(htlcs) !! op.(hr_htlc_id);
      Some (vop_htlc_redeemed (mk_htlc_redeemed h.(htlc_id) h.(htlc_from) h.(htlc_to) h.(htlc_amount)))
  | op_htlc_refund op =>
      h ← db.(htlcs) !! op.(hf_htlc_id);
      Some (vop_htlc_refunded (mk_htlc_refunded h.(htlc_id) h.(htlc_from) h.(htlc_amount)))
  | op_contract_deploy op =>
      Some (vop_deployed (mk_contract_deployed db.(next_contract_id) op.(cd_owner) (sha256 op.(cd_code))))
  | op_contract_call op =>
      Some (vop_called (mk_contract_called op.(call_contract_id) op.(call_caller) r.(fuel_used) r.(success)))
  end.

Lemma all_chars_weaken (ok ok' : Ascii.ascii -> bool) s :
  (forall c, ok c = true -> ok' c = true) -> all_chars ok s = true -> all_chars ok' s = true.
Proof. unfold all_chars. rewrite !forallb_forall. auto. Qed.
Lemma account_char_clean c : account_char_ok c = true -> negb (Ascii.eqb c quote) = true.
Proof. intros H. apply negb_true_iff, Ascii.eqb_neq. intros ->. discriminate H. Qed.
Lemma valid_name_clean s : valid_account_name s = true -> clean s.
Proof.
  unfold valid_account_name. intros H. apply andb_true_iff in H as [_ H].
  revert H. apply all_chars_weaken, account_char_clean.
Qed.
Lemma symbol_clean s : all_chars symbol_char_ok s = true -> clean s.
Proof.
  apply all_chars_weaken. intros c H. apply negb_true_iff, Ascii.eqb_neq. intros ->. discriminate H.
Qed.
#[local] Hint Resolve valid_name_clean symbol_clean : core.

(** ** One operation, one line *)

Definition clean_owners (db : database) : Prop :=
  forall id n, db.(nfts) !! id = Some n -> clean n.(nft_owner).

(** The log of [db'] is the log of [db] and the line of [v], and the indexer
    that knew [db] and reads the line knows [db']. *)
Record logs (db db' : database) (v : virtual_operation) : Prop := {
  logs_line : db'.(pending_virtual_ops) = db.(pending_virtual_ops) ++ [render v];
  logs_index : index_of db' = apply_event (index_of db) (visible v);
  logs_clean : clean_texts v;
  logs_unsigned : unsigned_numbers v;
  logs_owners : clean_owners db' }.

Lemma clean_owners_insert (m : gmap Z nft_object) id (n : nft_object) :
  (forall i x, m !! i = Some x -> clean x.(nft_owner)) -> clean n.(nft_owner) ->
  forall i x, <[id := n]> m !! i = Some x -> clean x.(nft_owner).
Proof. intros Hm Hn i x Hl. apply lookup_insert_Some in Hl as [[_ <-]|[_ Hl]]; [done|by eapply Hm]. Qed.
Lemma clean_owners_delete (m : gmap Z nft_object) id :
  (forall i x, m !! i = Some x -> clean x.(nft_owner)) ->
  forall i x, delete id m !! i = Some x -> clean x.(nft_owner).
Proof. intros Hm i x Hl. apply lookup_delete_Some in Hl as [_ Hl]. by eapply Hm. Qed.

(** Altering through the projection of a map is inserting the image. *)
Lemma fmap_insert_alter {A B} (f : A -> B) (g : B -> B) (m : gmap Z A) id a a' :
  m !! id = Some a -> f a' = g (f a) -> f <$> <[id := a']> m = alter g id (f <$> m).
Proof. intros Ha E. rewrite fmap_insert, E. symmetry. apply alter_some. by rewrite lookup_fmap, Ha. Qed.

Section effects.
Context (db : database) (Hi : db_inv db) (Ho : clean_owners db).

Ltac owners :=
  unfold clean_owners; simpl;
  first [exact Ho|exact (clean_owners_delete _ _ Ho)|apply (clean_owners_insert _ _ _ Ho); simpl; first [done|by eapply Ho]].
Ltac known := unfold index_of, apply_event, visible; simpl; f_equal.

Lemma nft_effect_logs eng op db' :
  typed_op op -> family_of op = nft_family -> op_effect eng db op db' ->
  exists v, (forall r, virtual_of db op r = Some v) /\ logs db db' v.
Proof.
  pose proof (inv_nft _ Hi) as Hn. intros Ht Hf He. destruct op as [op|op|op|op|op|op| | | | |]; try discriminate Hf.
  - destruct He as [(_ & Hv & _) ->]. eexists. split; [done|]. pose proof (wf_next_c _ _ _ _ _ _ _ Hn).
    split; [done|by known|apply symbol_clean, Hv|simpl; lia|done].
  - destruct He as [(_ & Hv & _ & _ & c & Hc & _) ->]. unfold mint_post. rewrite Hc. eexists. split; [done|].
    pose proof (wf_next_n _ _ _ _ _ _ _ Hn). assert (clean op.(mint_to)) by apply valid_name_clean, Hv.
    split; [done|known; by rewrite fmap_insert|done|simpl; lia|owners].
  - destruct He as [(_ & Hv & _ & n & Hl & _) ->]. unfold transfer_post. rewrite Hl. eexists. simpl.
    rewrite Hl. split; [done|].
    destruct (wf_nfts _ _ _ _ _ _ _ Hn _ _ Hl) as (Hid & ? & _).
    assert (clean op.(xfer_to)) by apply valid_name_clean, Hv.
    split; [done|known; by rewrite fmap_insert, Hid|split; [by eapply Ho|done]|simpl; lia
      |owners].
  - destruct He as [(_ & Hv & _ & n & Hl & _) ->]. unfold approve_post. rewrite Hl. eexists. split; [done|].
    simpl in Ht. split; [done|known; by erewrite fmap_insert_alter| |apply Ht|owners].
    simpl. destruct (decide (appr_approved op = "")) as [->|Hne]; [done|]. by apply valid_name_clean, Hv.
  - destruct He as [(_ & Hv & _) ->]. eexists. split; [done|].
    split; [done| |split; apply valid_name_clean, Hv|apply Ht|done].
    known. destruct (afa_approved op); [by rewrite fmap_insert|by rewrite fmap_delete].
  - destruct He as [(_ & Hv & n & Hl & _) ->]. unfold burn_post. rewrite Hl. eexists. simpl. rewrite Hl.
    split; [done|]. split; [done|known; by rewrite fmap_delete|apply valid_name_clean, Hv|apply Ht
      |owners].
Qed.

Lemma htlc_effect_logs eng op db' :
  typed_op op -> family_of op = htlc_family -> op_effect eng db op db' ->
  exists v, (forall r, virtual_of db op r = Some v) /\ logs db db' v.
Proof.
  pose proof (inv_htlc _ Hi) as Hh. intros Ht Hf He. destruct op as [| | | | | |op|op|op| |]; try discriminate Hf.
  - destruct He as [(_ & Hv & _) ->]. eexists. split; [done|]. pose proof (wf_next_h _ _ _ Hh).
    split; [done|known; by rewrite fmap_insert|split; apply valid_name_clean, Hv|simpl; lia|done].
  - destruct He as [(_ & _ & _ & h & Hl & _) ->]. unfold htlc_redeem_post. rewrite Hl. eexists. simpl. rewrite Hl.
    split; [done|]. destruct (wf_htlcs _ _ _ Hh _ _ Hl) as (Hid&?&_&_&_&_&_&_&_&?&?).
    split; [done|known; rewrite Hid; by erewrite fmap_insert_alter|simpl; eauto|simpl; lia|done].
  - destruct He as [(_ & _ & _ & h & Hl & _) ->]. unfold htlc_refund_post. rewrite Hl. eexists. simpl. rewrite Hl.
    split; [done|]. destruct (wf_htlcs _ _ _ Hh _ _ Hl) as (Hid&?&_&_&_&_&_&_&_&?&?).
    split; [done|known; rewrite Hid; by erewrite fmap_insert_alter|simpl; eauto|simpl; lia|done].
Qed.

Lemma contract_effect_logs eng `{!EngineLaws eng} op db' :
  typed_op op -> family_of op = contract_family -> op_effect eng db op db' ->
  exists r v, virtual_of db op r = Some v /\ logs db db' v.
Proof.
  pose proof (inv_contract _ Hi) as Hk. intros Ht Hf He.
  destruct op as [| | | | | | | | |op|op]; try discriminate Hf.
  - destruct He as [(_ & Hv & _) ->]. exists empty_call_result. eexists. split; [done|].
    pose proof (wf_next_k _ _ _ _ Hk).
    split; [done|known; by rewrite fmap_insert|apply valid_name_clean, Hv|simpl; lia|done].
  - destruct He as (c & r & _ & Ha & Hs & ->). exists r. eexists. split; [done|].
    apply call_within_limits in Ha as [[Hfu _] _]; [|apply Ht].
    split; [simpl; by rewrite Hs|done|done|split; [apply Ht|done]|done].
Qed.

Lemma effect_logs eng `{!EngineLaws eng} op db' :
  typed_op op -> op_effect eng db op db' -> exists r v, virtual_of db op r = Some v /\ logs db db' v.
Proof.
  intros Ht He. destruct (family_of op) eqn:Hf.
  - destruct (nft_effect_logs eng op db') as (v & Hv & Hl); [done..|]. exists empty_call_result, v. eauto.
  - destruct (htlc_effect_logs eng op db') as (v & Hv & Hl); [done..|]. exists empty_call_result, v. eauto.
  - by eapply contract_effect_logs.
Qed.
End effects.

(** ** Following the chain *)

(** [observed db0 n seen db]: [n] events lead from [db0] to [db], and [seen] is
    what a consumer took that reads the pending lines whenever they are dropped. *)
Inductive observed (eng : engine) (db0 : database) : Z -> list virtual_op -> database -> Prop :=
| observed_start : observed eng db0 0 [] db0
| observed_step n seen db db' :
    observed eng db0 n seen db -> step eng db db' ->
    db.(pending_virtual_ops) `prefix_of` db'.(pending_virtual_ops) -> observed eng db0 (n + 1) seen db'
| observed_drain n seen db db' :
    observed eng db0 n seen db -> clear_virtual db = Done tt db' ->
    observed eng db0 (n + 1) (seen ++ db.(pending_virtual_ops)) db'.

Lemma observed_run eng db0 n seen db : observed eng db0 n seen db -> run eng db0 n db.
Proof.
  induction 1 as [|n seen db db' _ IH Hs _|n seen db db' _ IH Hs]; [apply run_none|by eapply run_step|].
  eapply run_step; [exact IH|by apply step_drain].
Qed.

Lemma foldl_snoc {A B} (f : A -> B -> A) a l x : foldl f a (l ++ [x]) = f (foldl f a l) x.
Proof. by rewrite foldl_app. Qed.
Lemma index_log_snoc l line ix e :
  index_log l = Some ix -> decode line = Some e -> index_log (l ++ [line]) = Some (apply_event ix e).
Proof.
  unfold index_log. intros Hl Hd. destruct (mapM decode l) as [k|] eqn:E; [|discriminate Hl].
  injection Hl as <-. apply mapM_Some in E.
  rewrite (mapM_Some_2 decode (l ++ [line]) (k ++ [e])) by (apply Forall2_app; [done|by constructor]).
  simpl. by rewrite foldl_snoc.
Qed.

(** What the consumer knows, with the lines still pending, is what the database holds. *)
Definition informed (seen : list virtual_op) (db : database) : Prop :=
  index_log (seen ++ db.(pending_virtual_ops)) = Some (index_of db) /\ clean_owners db.

Lemma informed_logs seen db db' v : informed seen db -> logs db db' v -> informed seen db'.
Proof.
  intros [Hi _] [Hl Hx Hc Hu Ho]. split; [|done]. rewrite Hl, Hx, (assoc_L (++)).
  eapply index_log_snoc; [exact Hi|]. by apply line_round_trip.
Qed.
Lemma informed_same seen db db' :
  informed seen db -> db'.(pending_virtual_ops) = db.(pending_virtual_ops) -> same_tables db db' ->
  informed seen db'.
Proof.
  intros [Hi Ho] El (_&_&E1&E2&E3&E4&E5&_). unfold informed, index_of, clean_owners in *.
  by rewrite El, <-E1, <-E2, <-E3, <-E4, <-E5.
Qed.

(** A failed contract call is logged too, and teaches nothing. *)
Lemma failed_call_logs db op r :
  clean_owners db -> typed_op (op_contract_call op) -> r.(success) = false -> 0 <= r.(fuel_used) ->
  logs db (log_virtual "contract_called" (called_payload op.(call_contract_id) false r.(fuel_used))
             (charge (cost_contract_call op r.(fuel_used)) db))
    (vop_called (mk_contract_called op.(call_contract_id) op.(call_caller) r.(fuel_used) r.(success))).
Proof. intros Ho [Hid _] Hs Hf. split; [simpl; by rewrite Hs|done|done|split; [apply Hid|done]|done]. Qed.

Lemma step_informed eng `{!EngineLaws eng} seen db db' :
  db_inv db -> informed seen db -> step eng db db' ->
  db.(pending_virtual_ops) `prefix_of` db'.(pending_virtual_ops) -> informed seen db'.
Proof.
  intros Hi Hin Hs Hp. pose proof Hin as [Hix Ho].
  destruct Hs as [op db' Ht He|op e db' Ht He|t Ht|c|db' He|name db' Hnew He].
  - pose proof (wp_done _ _ _ _ _ _ (apply_wp eng db op Hi Ht) He) as Hop. simpl in Hop.
    destruct (effect_logs db Hi Ho eng op db' Ht Hop) as (_ & v & _ & Hl). by eapply informed_logs.
  - pose proof (wp_thrown _ _ _ _ _ _ (apply_wp eng db op Hi Ht) He) as [_ [->|[[c ->]|(cop & r & -> & Hf & Hfu & ->)]]];
      [done|by apply (informed_same _ db)|].
    eapply informed_logs; [done|]. by apply failed_call_logs; [..|lia].
  - by apply (informed_same _ db).
  - by apply (informed_same _ db).
  - injection He as <-. simpl in Hp. apply prefix_nil_inv in Hp. by apply (informed_same _ db).
  - unfold create_account in He. apply bind_done in He as ([] & s1 & Hl & He).
    apply lift_done in Hl as [_ ->]. injection He as <-. done.
Qed.

Lemma genesis_informed db : genesis db -> informed [] db.
Proof.
  intros ((bal & t & c & ->) & _). split; [|intros id n Hl; simpl in Hl; by rewrite lookup_empty in Hl].
  unfold index_log, index_of. simpl. by rewrite !fmap_empty.
Qed.

Lemma observed_informed eng `{!EngineLaws eng} db0 n seen db :
  genesis db0 -> observed eng db0 n seen db -> n < RUN_LIMIT -> informed seen db.
Proof.
  intros Hg. induction 1 as [|n seen db db' Hr IH Hs Hp|n seen db db' Hr IH Hs]; intros Hn.
  - by apply genesis_informed.
  - apply (step_informed eng seen db); [|apply IH; lia|done|done].
    apply (reachable_inv eng). exists db0, n. split_and!; [done|by eapply observed_run|lia].
  - injection Hs as <-. unfold informed, index_of, clean_owners in *. simpl. rewrite (right_id_L [] (++)).
    apply IH. lia.
Qed.

(** C6. The log tells everything: a consumer that starts at genesis, reads the
    pending virtual operations each time they are dropped and then those still
    pending, can read every line, and knows from them alone exactly the symbols,
    the owner and the approved account of each NFT, the operator approvals, the
    parties and the status of each HTLC and the owner of each contract that the
    database holds. *)
Theorem log_determines_index (eng : engine) `{!EngineLaws eng} (db0 db : database) (n : Z)
  (seen : list virtual_op) :
  genesis db0 -> observed eng db0 n seen db -> n < RUN_LIMIT ->
  index_log (seen ++ db.(pending_virtual_ops)) = Some (index_of db).
Proof. intros Hg Ho Hn. by apply (observed_informed eng db0 n seen db Hg Ho Hn). Qed.

(** *** A concrete consumer *)

Inductive action : Type := ac_event (ev : ChainProperties.event) | ac_drain.

Fixpoint watch (acts : list action) (seen : list virtual_op) (db : database)
  : option (list virtual_op * database) :=
  match acts with
  | [] => Some (seen, db)
  | ac_event ev :: acts' =>
      match play_event ev db with
      | Some db' => if decide (db.(pending_virtual_ops) `prefix_of` db'.(pending_virtual_ops))
                    then watch acts' seen db' else None
      | None => None
      end
  | ac_drain :: acts' => watch acts' (seen ++ db.(pending_virtual_ops)) (upd_pending_virtual_ops (fun _ => []) db)
  end.
Definition typed_action (a : action) : Prop :=
  match a with ac_event ev => typed_event ev | ac_drain => True end.

Lemma watch_observed db0 acts : forall n seen db seen' db',
  Forall typed_action acts -> observed default_engine db0 n seen db ->
  watch acts seen db = Some (seen', db') -> observed default_engine db0 (n + size_of acts) seen' db'.
Proof.
  induction acts as [|[ev|] acts IH]; intros n seen db seen' db' Ht Ho; simpl.
  - intros [= <- <-]. by rewrite Z.add_0_r.
  - apply Forall_cons in Ht as [Hev Ht]. destruct (play_event ev db) as [db1|] eqn:E; [|done].
    case_decide; [|done]. intros Hw.
    replace (n + size_of (ac_event ev :: acts)) with (n + 1 + size_of acts) by (unfold size_of; simpl; lia).
    eapply IH; [done| |exact Hw]. eapply observed_step; [exact Ho|by eapply play_event_step|done].
  - apply Forall_cons in Ht as [_ Ht]. intros Hw.
    replace (n + size_of (ac_drain :: acts)) with (n + 1 + size_of acts) by (unfold size_of; simpl; lia).
    eapply IH; [done| |exact Hw]. by eapply observed_drain.
Qed.

Definition sample_actions : list action :=
  map ac_event sample_events ++
  [ac_drain; ac_event (ev_op (op_htlc_redeem fresh_secret_redeem));
   ac_event (ev_op (op_nft_transfer (mk_nft_transfer "bob" "carol" 1 "")))].

Definition watched : list virtual_op * database :=
  default ([], empty_database) (watch sample_actions [] sample_genesis).

Lemma watched_observed : observed default_engine sample_genesis 9 watched.1 watched.2.
Proof.
  apply (watch_observed _ sample_actions 0 [] sample_genesis).
  - apply Forall_app. split; [|repeat constructor; intros H; vm_compute in H; discriminate H].
    apply Forall_map. eapply Forall_impl; [exact sample_events_typed|done].
  - apply observed_start.
  - unfold watched. assert (H : is_Some (watch sample_actions [] sample_genesis)).
    { apply not_eq_None_Some. vm_compute. discriminate. }
    by destruct H as [[seen db] ->].
Qed.

Example log_determines_index_witness :
  exists ix, index_log (watched.1 ++ watched.2.(pending_virtual_ops)) = Some ix /\
    ix.(ix_nfts) !! 1 = Some ("carol", "") /\ ix.(ix_htlcs) !! 1 = Some ("alice", "bob", redeemed).
Proof.
  exists (index_of watched.2). split; [|split; vm_compute; reflexivity].
  exact (log_determines_index default_engine sample_genesis watched.2 9 watched.1
           sample_genesis_ok watched_observed ltac:(done)).
Defined.

(** What the lines leave out cannot be recovered: the collection of a minted NFT
    is a member of [nft_minted_operation] and not of its line, and these two
    histories have the same log. *)
Definition mint_in (collection : Z) : list ChainProperties.event := [
  ev_op (op_nft_create_collection (mk_nft_create_collection "alice" "ART" "Art" 10 true));
  ev_op (op_nft_create_collection (mk_nft_create_collection "alice" "BAR" "Bar" 10 true));
  ev_op (op_nft_mint (mk_nft_mint "alice" collection "bob" zero_hash "ipfs" false)) ].

Lemma log_hides_collection :
  (pending_virtual_ops <$> play (mint_in 1) sample_genesis) = (pending_virtual_ops <$> play (mint_in 2) sample_genesis) /\
  (play (mint_in 1) sample_genesis ≫= fun db => nft_collection <$> db.(nfts) !! 1) = Some 1 /\
  (play (mint_in 2) sample_genesis ≫= fun db => nft_collection <$> db.(nfts) !! 1) = Some 2.
Proof. split_and!; vm_compute; reflexivity. Qed.
