(* ===== verification/NodeAgreement.v ===== *)
(** * Full nodes agree

    What an operation does depends on the consensus state alone: not on the log
    of virtual operations and when it is drained, not on the RC figure left by
    earlier operations, and not on how a node that keeps all state is configured
    otherwise. [agree] relates two runs step by step; two nodes that apply the
    same events accept and refuse the same operations, with the same exceptions,
    and stay in the same state. *)
From S2P Require Import Prelude Types Crypto Protocol Costs Database EvalNft EvalHtlc Engine EvalContracts.
From S2P Require Import NftInvariant HtlcInvariant ContractInvariant Chain ChainProperties.

(** ** The same chain on two nodes *)

(** [db] with another configuration, log and RC figure. *)
Definition with_local (c : node_config) (l : list virtual_op) (rc : Z) (db : database) : database :=
  mk_database db.(head_time) c db.(next_collection_id) db.(next_nft_id) db.(next_htlc_id) db.(next_contract_id)
    db.(balances) db.(collections) db.(collection_by_symbol) db.(nfts) db.(operators)
    db.(htlcs) db.(contracts) db.(contract_storage) l rc.

Definition keeps_all (c : node_config) : Prop :=
  c.(nft_skip_state) = false /\ c.(htlc_skip_state) = false /\ c.(contracts_skip) && negb c.(is_consensus_node) = false.

(** Two nodes that keep all state, at the same hardfork, hold the same chain. *)
Definition same_chain (db1 db2 : database) : Prop :=
  exists c l rc, db2 = with_local c l rc db1 /\ c.(hardfork) = db1.(config).(hardfork) /\
    keeps_all db1.(config) /\ keeps_all c.

(** Two procedures that stop alike when run on the two nodes. *)
Definition agree {A} (R : A -> A -> Prop) (m1 m2 : M database A) : Prop :=
  forall db1 db2, same_chain db1 db2 ->
  match m1 db1, m2 db2 with
  | Done a db1', Done b db2' => R a b /\ same_chain db1' db2'
  | Thrown e db1', Thrown e' db2' => e = e' /\ same_chain db1' db2'
  | Undef, Undef => True
  | _, _ => False
  end.

Lemma agree_bind {A B} (R : A -> A -> Prop) (R' : B -> B -> Prop) m1 m2 f1 f2 :
  agree R m1 m2 -> (forall a b, R a b -> agree R' (f1 a) (f2 b)) -> agree R' (m1 ≫= f1) (m2 ≫= f2).
Proof.
  intros Hm Hf db1 db2 Hs. specialize (Hm db1 db2 Hs). unfold mbind, M_bind.
  destruct (m1 db1) as [a s|e s|], (m2 db2) as [b t|e' t|]; try done.
  destruct Hm as [Hab Hst]. by apply (Hf a b Hab).
Qed.
Lemma agree_ret {A} (a : A) : agree eq (mret a) (mret a).
Proof. by intros db1 db2 Hs. Qed.
Lemma agree_get : agree same_chain get get.
Proof. by intros db1 db2 Hs. Qed.
Lemma agree_gets {A} (f : database -> A) :
  (forall c l rc db, f (with_local c l rc db) = f db) -> agree eq (gets f) (gets f).
Proof. intros Hf db1 db2 Hs. split; [|done]. destruct Hs as (c & l & rc & -> & _). symmetry. apply Hf. Qed.
Lemma agree_throw_if b what : agree eq (throw_if b what) (throw_if b what).
Proof. intros db1 db2 Hs. unfold throw_if. by destruct b. Qed.
Lemma agree_lift {A} (r : result A) : agree eq (lift r) (lift r).
Proof. intros db1 db2 Hs. unfold lift. by destruct r. Qed.
Lemma agree_find {A} (o : option A) what : agree eq (find_or_throw o what) (find_or_throw o what).
Proof. intros db1 db2 Hs. unfold find_or_throw. by destruct o. Qed.
Lemma agree_throw {A} e : agree (@eq A) (throw e) (throw e).
Proof. by intros db1 db2 Hs. Qed.
Lemma agree_undefined {A} : agree (@eq A) undefined undefined.
Proof. by intros db1 db2 Hs. Qed.
(** An update of the consensus state commutes with the local part. *)
Lemma agree_modify f :
  (forall c l rc db, f (with_local c l rc db) = with_local c l rc (f db)) ->
  (forall db, (f db).(config) = db.(config)) -> agree eq (modify f) (modify f).
Proof.
  intros Hf Hc db1 db2 (c & l & rc & -> & Hh & H1 & H2). split; [done|]. exists c, l, rc. rewrite Hf, Hc. done.
Qed.
Lemma agree_charge n : agree eq (modify (upd_last_rc_charged (fun _ => n))) (modify (upd_last_rc_charged (fun _ => n))).
Proof. intros db1 db2 (c & l & rc & -> & Hh & H1 & H2). split; [done|]. by exists c, l, n. Qed.
Lemma agree_push_virtual name payload : agree eq (push_virtual name payload) (push_virtual name payload).
Proof.
  intros db1 db2 (c & l & rc & -> & Hh & H1 & H2). split; [done|].
  by exists c, (l ++ [mk_virtual_op name payload]), rc.
Qed.
Lemma agree_if {A} (R : A -> A -> Prop) (b : bool) m1 m2 m1' m2' :
  agree R m1 m1' -> agree R m2 m2' -> agree R (if b then m1 else m2) (if b then m1' else m2').
Proof. by destruct b. Qed.

(** ** Member functions *)

Lemma agree_hardfork hf : agree eq (require_hardfork hf) (require_hardfork hf).
Proof.
  intros db1 db2 (c & l & rc & -> & Hh & H1 & H2). unfold require_hardfork, throw_if, mbind, M_bind, get. simpl.
  rewrite Hh. destruct (_ <? hf); (split; [done|]); by exists c, l, rc.
Qed.
Lemma agree_nft_gate : agree eq require_full_nft_state require_full_nft_state.
Proof.
  intros db1 db2 (c & l & rc & -> & Hh & H1 & H2). unfold require_full_nft_state, throw_if, mbind, M_bind, get. simpl.
  rewrite (proj1 H1), (proj1 H2), !andb_false_r. split; [done|]. by exists c, l, rc.
Qed.
Lemma agree_htlc_gate : agree eq require_full_htlc_state require_full_htlc_state.
Proof.
  intros db1 db2 (c & l & rc & -> & Hh & H1 & H2). unfold require_full_htlc_state, throw_if, mbind, M_bind, get. simpl.
  rewrite (proj1 (proj2 H1)), (proj1 (proj2 H2)), !andb_false_r. split; [done|]. by exists c, l, rc.
Qed.
(** The gate of the contract evaluators lets both nodes through. *)
Lemma contracts_not_skipped db1 db2 :
  same_chain db1 db2 -> contracts_skipped db1 = false /\ contracts_skipped db2 = false.
Proof. intros (c & l & rc & -> & _ & (_ & _ & H1) & _ & _ & H2). done. Qed.
Lemma agree_take_next sel upd :
  (forall c l rc db, sel (with_local c l rc db) = sel db) ->
  (forall f c l rc db, upd f (with_local c l rc db) = with_local c l rc (upd f db)) ->
  (forall f db, (upd f db).(config) = db.(config)) ->
  agree eq (take_next sel upd) (take_next sel upd).
Proof.
  intros Hs Hu Hc. eapply agree_bind; [by apply agree_gets|intros ? id ->].
  eapply agree_bind; [apply agree_modify; [apply Hu|apply Hc]|intros _ _ _]. apply agree_ret.
Qed.
Lemma agree_adjust_balance name delta : agree eq (adjust_balance name delta) (adjust_balance name delta).
Proof.
  intros db1 db2 (c & l & rc & -> & Hh & H1 & H2). unfold adjust_balance. simpl.
  destruct (balances db1 !! name) as [b|]; [|split; [done|by exists c, l, rc]]. cbv zeta.
  destruct (_ && negb _); [done|]. destruct (_ && (_ <? _)); [split; [done|by exists c, l, rc]|].
  destruct (negb _); [done|]. split; [done|]. by exists c, l, rc.
Qed.
Lemma agree_neg_i64 x : agree eq (neg_i64 x) (neg_i64 x).
Proof. unfold neg_i64. destruct (in_i64 (- x)); [apply agree_ret|apply agree_undefined]. Qed.
(** ** The evaluators *)

(** One step of both runs. After [get] the second database is the first one with
    another local part, so the programs read the same up to conversion. *)
Ltac agree_leaf :=
  first [exact (agree_throw_if _ _)|exact (agree_find _ _)|exact (agree_lift _)|exact (agree_charge _)
        |exact (agree_push_virtual _ _)|exact (agree_hardfork _)|exact agree_nft_gate|exact agree_htlc_gate
        |exact (agree_adjust_balance _ _)|exact (agree_neg_i64 _)|exact (agree_throw _)
        |by apply agree_take_next|by apply agree_modify|by apply agree_gets].
Ltac agree_step :=
  cbv zeta;
  lazymatch goal with
  | |- agree _ (get ≫= _) _ =>
      let db1 := fresh "db" in let db2 := fresh "db" in let Hs := fresh "Hs" in
      eapply agree_bind; [exact agree_get|intros db1 db2 Hs];
      destruct (contracts_not_skipped _ _ Hs) as [? ?];
      destruct Hs as (? & ? & ? & -> & _)
  | |- agree _ (mbind _ _) _ =>
      let a := fresh "a" in eapply agree_bind; [agree_leaf|intros ? a ->]
  | |- agree _ (if _ then _ else _) _ => apply agree_if
  | |- agree _ _ _ => agree_leaf
  end.
Ltac agrees := repeat agree_step.

Lemma agree_create_collection op : agree eq (apply_nft_create_collection op) (apply_nft_create_collection op).
Proof. unfold apply_nft_create_collection. agrees. Qed.
Lemma agree_mint op : agree eq (apply_nft_mint op) (apply_nft_mint op).
Proof. unfold apply_nft_mint. agrees. Qed.
Lemma agree_transfer op : agree eq (apply_nft_transfer op) (apply_nft_transfer op).
Proof. unfold apply_nft_transfer. agrees. Qed.
Lemma agree_approve op : agree eq (apply_nft_approve op) (apply_nft_approve op).
Proof. unfold apply_nft_approve. agrees. Qed.
Lemma agree_set_approval_for_all op :
  agree eq (apply_nft_set_approval_for_all op) (apply_nft_set_approval_for_all op).
Proof.
  unfold apply_nft_set_approval_for_all. agrees. eapply agree_bind; [apply agree_if; agree_leaf|intros ? ? ->].
  agrees.
Qed.
Lemma agree_burn op : agree eq (apply_nft_burn op) (apply_nft_burn op).
Proof. unfold apply_nft_burn. agrees. Qed.
Lemma agree_htlc_create op : agree eq (apply_htlc_create op) (apply_htlc_create op).
Proof. unfold apply_htlc_create. agrees. Qed.
Lemma agree_htlc_redeem op : agree eq (apply_htlc_redeem op) (apply_htlc_redeem op).
Proof. unfold apply_htlc_redeem. agrees. Qed.
Lemma agree_htlc_refund op : agree eq (apply_htlc_refund op) (apply_htlc_refund op).
Proof. unfold apply_htlc_refund. agrees. Qed.

Ltac contracts_on :=
  match goal with H1 : contracts_skipped ?d1 = false, H2 : contracts_skipped ?d2 = false |- _ =>
    rewrite H1, H2 end.
Lemma agree_deploy eng op :
  agree eq (apply_contract_deploy_with eng op) (apply_contract_deploy_with eng op).
Proof. unfold apply_contract_deploy_with. do 2 agree_step. contracts_on. agrees. Qed.
Lemma agree_call eng op :
  agree eq (apply_contract_call_with eng op) (apply_contract_call_with eng op).
Proof. unfold apply_contract_call_with. do 2 agree_step. contracts_on. agrees. Qed.

(** Any operation. *)
Lemma agree_apply eng op : agree eq (apply_with eng op) (apply_with eng op).
Proof.
  destruct op; simpl; [apply agree_create_collection|apply agree_mint|apply agree_transfer|apply agree_approve
    |apply agree_set_approval_for_all|apply agree_burn|apply agree_htlc_create|apply agree_htlc_redeem
    |apply agree_htlc_refund|apply agree_deploy|apply agree_call].
Qed.

(** ** Histories *)

(** What a node goes through: operations and time come from the chain, draining
    the log is its own business. *)
Inductive node_event : Type := ne_op (op : operation) | ne_time (t : Z) | ne_drain.
Definition of_chain (e : node_event) : bool := match e with ne_drain => false | _ => true end.

(** The outcomes of the operations ([None]: accepted) and the final state; no
    result if one of them has undefined behaviour. *)
Fixpoint replay (eng : engine) (evs : list node_event) (db : database) : option (list (option exn) * database) :=
  match evs with
  | [] => Some ([], db)
  | ne_time t :: evs' => replay eng evs' (upd_head_time (fun _ => t) db)
  | ne_drain :: evs' => replay eng evs' (upd_pending_virtual_ops (fun _ => []) db)
  | ne_op op :: evs' =>
      match apply_with eng op db with
      | Done _ db' => match replay eng evs' db' with Some (r, s) => Some (None :: r, s) | None => None end
      | Thrown e db' => match replay eng evs' db' with Some (r, s) => Some (Some e :: r, s) | None => None end
      | Undef => None
      end
  end.

Lemma same_chain_drain db1 db2 :
  same_chain db1 db2 -> same_chain (upd_pending_virtual_ops (fun _ => []) db1) db2.
Proof. intros (c & l & rc & -> & Hh & H1 & H2). by exists c, l, rc. Qed.
Lemma same_chain_drain_r db1 db2 :
  same_chain db1 db2 -> same_chain db1 (upd_pending_virtual_ops (fun _ => []) db2).
Proof. intros (c & l & rc & -> & Hh & H1 & H2). by exists c, [], rc. Qed.
Lemma same_chain_time db1 db2 t :
  same_chain db1 db2 -> same_chain (upd_head_time (fun _ => t) db1) (upd_head_time (fun _ => t) db2).
Proof. intros (c & l & rc & -> & Hh & H1 & H2). by exists c, l, rc. Qed.

(** Both nodes drop their drains; the chain's events match one by one. *)
Definition same_result (o1 o2 : option (list (option exn) * database)) : Prop :=
  match o1, o2 with
  | Some (r1, s1), Some (r2, s2) => r1 = r2 /\ same_chain s1 s2
  | None, None => True
  | _, _ => False
  end.

Lemma replay_undrained eng evs db1 db2 :
  same_chain db1 db2 -> same_result (replay eng evs db1) (replay eng (filter (fun e => of_chain e = true) evs) db2).
Proof.
  induction evs as [|e evs IH] in db1, db2 |- *; intros Hs; [done|].
  destruct e as [op|t|].
  - rewrite filter_cons_True by done. cbn [replay]. pose proof (agree_apply eng op db1 db2 Hs) as H.
    destruct (apply_with eng op db1) as [[] s|x s|], (apply_with eng op db2) as [[] s'|x' s'|]; try done;
      destruct H as [Hx Hss]; specialize (IH _ _ Hss); unfold same_result in *;
      destruct (replay eng evs s) as [[r1 t1]|], (replay eng _ s') as [[r2 t2]|]; naive_solver.
  - rewrite filter_cons_True by done. by apply IH, same_chain_time.
  - rewrite filter_cons_False by done. by apply IH, same_chain_drain.
Qed.

#[export] Instance same_chain_sym : Symmetric same_chain.
Proof.
  intros db1 db2 (c & l & rc & -> & Hh & H1 & H2).
  exists db1.(config), db1.(pending_virtual_ops), db1.(last_rc_charged). by destruct db1.
Qed.
#[export] Instance same_chain_trans : Transitive same_chain.
Proof.
  intros db1 db2 db3 (c & l & rc & -> & Hh & H1 & H2) (c' & l' & rc' & -> & Hh' & H1' & H2').
  exists c', l', rc'. split_and!; [done|simpl in Hh'; congruence|done|done].
Qed.
Lemma same_result_via o1 o2 o : same_result o1 o -> same_result o2 o -> same_result o1 o2.
Proof.
  unfold same_result. destruct o1 as [[r1 s1]|], o2 as [[r2 s2]|], o as [[r s]|]; try done.
  intros [-> H1] [-> H2]. split; [done|]. etrans; [exact H1|by symmetry].
Qed.

(** From any two states, two histories with the same chain events end alike, be it
    in undefined behaviour of the same operation. *)
Lemma replay_agrees eng db1 db2 evs1 evs2 :
  same_chain db1 db2 ->
  filter (fun e => of_chain e = true) evs1 = filter (fun e => of_chain e = true) evs2 ->
  same_result (replay eng evs1 db1) (replay eng evs2 db2).
Proof.
  intros Hs Hev. eapply same_result_via; [by apply (replay_undrained eng evs1 db1 db2)|].
  rewrite Hev. apply replay_undrained. etrans; [by symmetry|exact Hs].
Qed.

Definition typed_node_event (e : node_event) : Prop := match e with ne_op op => typed_op op | _ => True end.

(** From a state that keeps the invariants no operation has undefined behaviour. *)
Lemma replay_defined eng `{!EngineLaws eng} evs n db :
  good n db -> n + Z.of_nat (length evs) < 2 ^ 64 -> Forall typed_node_event evs -> is_Some (replay eng evs db).
Proof.
  intros Hg Hn Ht. induction Ht as [|e evs He _ IH] in n, db, Hg, Hn |- *; [by eexists|]. simpl length in Hn.
  assert (Hnext : forall db', follows n db db' -> is_Some (replay eng evs db'))
    by (intros db' [Hg' _]; apply (IH (n + 1)); [done|lia]).
  destruct e as [op|t|]; cbn [replay]; [|apply Hnext; by apply same_tables_follows..].
  pose proof (apply_wp eng db op (proj1 Hg) He) as Hw. unfold wp in Hw.
  destruct (apply_with eng op db) as [[] s|x s|] eqn:E; [| |done].
  - destruct (Hnext s) as [[r s'] ->]; [|by eexists]. apply (step_follows eng n db); [lia|done|by eapply step_accepted].
  - destruct (Hnext s) as [[r s'] ->]; [|by eexists]. apply (step_follows eng n db); [lia|done|by eapply step_refused].
Qed.

(** C5. Nodes at one hardfork do not fork. Take a node that keeps all state, in a
    state reached from genesis, and another node that keeps all state, is at the
    same hardfork and holds the same chain; their configurations may otherwise
    differ (a node that counts as a consensus node keeps the contracts whatever
    its flag says), and so may their RC figures and undrained logs. Give both the
    same operations and times (too few for an id counter to wrap), each draining its
    log when it likes. Then every
    operation is defined on both, both accept and refuse the same ones, with the
    same exceptions, and they hold the same chain again; nothing they keep locally
    flows into it. (Nodes at different hardforks refuse different operations.) *)
Theorem full_nodes_agree (eng : engine) `{!EngineLaws eng} (db0 db1 db2 : database) (n : Z)
  (evs1 evs2 : list node_event) :
  genesis db0 -> run eng db0 n db1 -> n + Z.of_nat (length evs1) < RUN_LIMIT -> same_chain db1 db2 ->
  Forall typed_node_event evs1 ->
  filter (fun e => of_chain e = true) evs1 = filter (fun e => of_chain e = true) evs2 ->
  exists outcomes s1 s2,
    replay eng evs1 db1 = Some (outcomes, s1) /\ replay eng evs2 db2 = Some (outcomes, s2) /\ same_chain s1 s2.
Proof.
  intros Hg Hr Hn Hs Ht Hev. unfold RUN_LIMIT in Hn.
  assert (Hgood : good (n + 1) db1) by (apply (reachable_good eng n db0); [done..|unfold RUN_LIMIT; lia]).
  destruct (replay_defined eng evs1 (n + 1) db1 Hgood) as [[r1 s1] E1]; [lia|done|].
  pose proof (replay_agrees eng db1 db2 evs1 evs2 Hs Hev) as Ha. rewrite E1 in Ha. unfold same_result in Ha.
  destruct (replay eng evs2 db2) as [[r2 s2]|]; [|done]. destruct Ha as [-> Hss]. by exists r2, s1, s2.
Qed.

Definition witness_node : database := upd_config (fun _ => mk_node_config false false false true 9003) sample_genesis.
Definition api_node : database :=
  upd_config (fun _ => mk_node_config false false false false 9003) (upd_last_rc_charged (fun _ => 77) sample_genesis).
Definition node_history (drain : bool) : list node_event :=
  let d := if drain then [ne_drain] else [] in
  [ne_op (op_nft_create_collection (mk_nft_create_collection "alice" "ART" "Art" 10 true))] ++ d ++
  [ne_op (op_nft_mint (mk_nft_mint "alice" 1 "bob" zero_hash "ipfs" false)); ne_time 1000050] ++ d ++
  [ne_op (op_nft_burn (mk_nft_burn "carol" 1))].

Example full_nodes_agree_witness :
  exists s1 s2,
    replay default_engine (node_history false) witness_node
      = Some ([None; None; Some (protocol_error "not owner")], s1) /\
    replay default_engine (node_history true) api_node
      = Some ([None; None; Some (protocol_error "not owner")], s2) /\ same_chain s1 s2.
Proof.
  assert (Hs : same_chain witness_node api_node) by (do 3 eexists; split; [reflexivity|done]).
  destruct (full_nodes_agree default_engine sample_genesis witness_node api_node (0 + 1)
    (node_history false) (node_history true)) as (r & s1 & s2 & H1 & H2 & Hc).
  - apply sample_genesis_ok.
  - eapply run_step; [apply run_none|apply step_config].
  - unfold RUN_LIMIT. simpl. lia.
  - exact Hs.
  - repeat (apply Forall_cons_2; [simpl; unfold is_u64; first [done|lia]|]). apply Forall_nil_2.
  - reflexivity.
  - assert (E : fst <$> replay default_engine (node_history true) api_node
              = Some [None; None; Some (protocol_error "not owner")]) by (vm_compute; reflexivity).
    rewrite H2 in E. injection E as E. rewrite E in *. by exists s1, s2.
Defined.
