(* ===== verification/OpDependency.v ===== *)
(** * Dependency schedule ([include/hive_native/perf/op_dependency.hpp])

    Greedy list scheduling of operations by the accounts they touch. The three
    vectors [layers], [layer_accounts] and [layer_global], which the code grows
    and indexes together, are one list of [layer_state]. *)
From Stdlib Require Import Floats.SpecFloat.
From S2P Require Import Prelude Types.

(** [op_class::global] is [class_global]. *)
Inductive op_class : Type :=
| class_transfer | class_nft_transfer | class_htlc_redeem | class_vote | class_custom_json
| class_global | class_other.

Record op_touch : Type := mk_op_touch {
  touch_index : nat; cls : op_class; accounts : list string; touches_global : bool }.

Record layer_state : Type := mk_layer {
  op_indices : list nat; layer_accounts : gset string; layer_global : bool }.

Definition empty_layer : layer_state := mk_layer [] ∅ false.

(** Whether [op] cannot join the layer: the [continue] and the inner loop. *)
Definition layer_conflict (op : op_touch) (l : layer_state) : bool :=
  (op.(touches_global) || l.(layer_global))
  || existsb (fun a => bool_decide (a ∈ l.(layer_accounts))) op.(accounts).

(** The first layer without a conflict, or [layers.size()]. *)
Fixpoint find_place (op : op_touch) (ls : list layer_state) : nat :=
  match ls with
  | [] => 0
  | l :: ls' => if layer_conflict op l then S (find_place op ls') else 0
  end.

Definition add_to_layer (op : op_touch) (l : layer_state) : layer_state :=
  mk_layer (l.(op_indices) ++ [op.(touch_index)])
    (foldl (fun s a => {[ a ]} ∪ s) l.(layer_accounts) op.(accounts))
    (if op.(touches_global) then true else l.(layer_global)).

Definition place_op (ls : list layer_state) (op : op_touch) : list layer_state :=
  let place := find_place op ls in
  let ls := if Nat.eqb place (length ls) then ls ++ [empty_layer] else ls in
  alter (add_to_layer op) place ls.

Definition schedule_state (ops : list op_touch) : list layer_state := foldl place_op [] ops.

Definition build_parallel_schedule (ops : list op_touch) : list (list nat) :=
  map op_indices (schedule_state ops).

(** [double(a) / double(b)] in binary64. *)
Definition double_of (n : nat) : spec_float := binary_normalize 53 1024 (Z.of_nat n) 0 false.
Definition double_ratio (a b : nat) : spec_float := SFdiv 53 1024 (double_of a) (double_of b).

Definition parallelism_factor (ops : list op_touch) : spec_float :=
  match ops with
  | [] => double_of 1
  | _ => double_ratio (length ops) (length (build_parallel_schedule ops))
  end.

(** ** What the schedule guarantees *)

(** Two operations that may not run at the same time. *)
Definition conflicts (a b : op_touch) : Prop :=
  a.(touches_global) = true \/ b.(touches_global) = true \/
  exists x, x ∈ a.(accounts) /\ x ∈ b.(accounts).

#[export] Instance conflicts_symmetric : Symmetric conflicts.
Proof. intros a b [?|[?|(x & ? & ?)]]; [right; by left|by left|right; right; by exists x]. Qed.

(** A layer as the operations in it. *)
Definition layer_holds (l : layer_state) (ops : list op_touch) : Prop :=
  l.(op_indices) = map touch_index ops /\
  (forall x, x ∈ l.(layer_accounts) <-> exists o, o ∈ ops /\ x ∈ o.(accounts)) /\
  (l.(layer_global) = true <-> exists o, o ∈ ops /\ o.(touches_global) = true) /\
  ops <> [].

Lemma layer_conflict_spec op l ops :
  l.(op_indices) = map touch_index ops ->
  (forall x, x ∈ l.(layer_accounts) <-> exists o, o ∈ ops /\ x ∈ o.(accounts)) ->
  (l.(layer_global) = true <-> exists o, o ∈ ops /\ o.(touches_global) = true) ->
  layer_conflict op l = false -> forall o, o ∈ ops -> ~ conflicts o op.
Proof.
  intros _ Ha Hg Hc o Ho Hcf. unfold layer_conflict in Hc.
  rewrite !orb_false_iff in Hc. destruct Hc as [[H1 H2] H3].
  destruct Hcf as [Hgo|[Hgo|(x & Hx1 & Hx2)]].
  - assert (layer_global l = true) by (apply Hg; eauto). congruence.
  - congruence.
  - apply not_true_iff_false in H3. apply H3. apply existsb_exists. exists x.
    split; [by apply list_elem_of_In|]. apply bool_decide_eq_true. apply Ha. eauto.
Qed.

Lemma elem_of_add_accounts (l : list string) (s : gset string) x :
  x ∈ foldl (fun s a => {[ a ]} ∪ s) s l <-> x ∈ s \/ x ∈ l.
Proof.
  revert s. induction l as [|a l IH]; intros s; simpl.
  - rewrite elem_of_nil. tauto.
  - rewrite IH, elem_of_union, elem_of_singleton, elem_of_cons. tauto.
Qed.

Lemma exists_snoc {A} (P : A -> Prop) (l : list A) a :
  (exists o, o ∈ l ++ [a] /\ P o) <-> (exists o, o ∈ l /\ P o) \/ P a.
Proof.
  split.
  - intros (o & Ho & HP). apply elem_of_app in Ho as [Ho|Ho]; [left; by exists o|right].
    apply list_elem_of_singleton in Ho. by subst.
  - intros [(o & Ho & HP)|HP]; [exists o|exists a]; (split; [|done]); apply elem_of_app.
    + by left.
    + right. by apply list_elem_of_singleton.
Qed.

(** Adding an operation to a layer, or to the empty one. *)
Lemma add_to_layer_holds op l ops :
  l.(op_indices) = map touch_index ops ->
  (forall x, x ∈ l.(layer_accounts) <-> exists o, o ∈ ops /\ x ∈ o.(accounts)) ->
  (l.(layer_global) = true <-> exists o, o ∈ ops /\ o.(touches_global) = true) ->
  layer_holds (add_to_layer op l) (ops ++ [op]).
Proof.
  intros Hi Ha Hg. split_and!; simpl.
  - by rewrite Hi, map_app.
  - intros x. rewrite elem_of_add_accounts, Ha. by rewrite (exists_snoc (fun o => x ∈ accounts o)).
  - rewrite (exists_snoc (fun o => touches_global o = true)).
    destruct (touches_global op); [|rewrite Hg]; naive_solver.
  - by destruct ops.
Qed.

(** The layers [groups] of operations that the schedule state stands for. *)
Definition schedule_holds (ls : list layer_state) (groups : list (list op_touch)) : Prop :=
  Forall2 layer_holds ls groups /\
  Forall (fun g => ForallOrdPairs (fun a b => ~ conflicts a b) g) groups.

(** Reordering by exchanges of neighbours that do not conflict. *)
Inductive reorder : list op_touch -> list op_touch -> Prop :=
| reorder_nil : reorder [] []
| reorder_skip x l l' : reorder l l' -> reorder (x :: l) (x :: l')
| reorder_swap x y l : ~ conflicts x y -> reorder (x :: y :: l) (y :: x :: l)
| reorder_trans l1 l2 l3 : reorder l1 l2 -> reorder l2 l3 -> reorder l1 l3.

Lemma reorder_refl l : reorder l l.
Proof. induction l; [apply reorder_nil|by apply reorder_skip]. Qed.
Lemma reorder_app l l1 l2 : reorder l1 l2 -> reorder (l ++ l1) (l ++ l2).
Proof. intros H. induction l; [done|by apply reorder_skip]. Qed.
Lemma reorder_app_tail l l1 l2 : reorder l1 l2 -> reorder (l1 ++ l) (l2 ++ l).
Proof.
  induction 1 as [|x l1 l2 H IH|x y l' H|l1 l2 l3 _ IH1 _ IH2]; simpl.
  - apply reorder_refl.
  - by apply reorder_skip.
  - by apply reorder_swap.
  - by eapply reorder_trans.
Qed.
Lemma reorder_permutation l l' : reorder l l' -> l ≡ₚ l'.
Proof.
  induction 1 as [|x l l' _ IH|x y l _|l1 l2 l3 _ IH1 _ IH2]; [done|by f_equiv| |by trans l2].
  by constructor.
Qed.
Lemma reorder_elem l l' : reorder l l' -> forall o, o ∈ l' -> o ∈ l.
Proof. intros H o. by rewrite (reorder_permutation _ _ H). Qed.

(** An operation moves ahead of those it does not conflict with. *)
Lemma reorder_ahead op l : (forall o, o ∈ l -> ~ conflicts o op) -> reorder (l ++ [op]) (op :: l).
Proof.
  induction l as [|o l IH]; intros H; simpl; [apply reorder_refl|].
  eapply reorder_trans; [apply reorder_skip, IH|apply reorder_swap, H; by left].
  intros o' Ho'. apply H. by right.
Qed.

(** The layers after the one [op] joins hold nothing it conflicts with. *)
Definition later_clear (ls : list layer_state) (op : op_touch) : bool :=
  forallb (fun l => negb (layer_conflict op l)) (drop (S (find_place op ls)) ls).

(** No operation was placed ahead of a conflicting one that comes before it. *)
Fixpoint keeps_order (ls : list layer_state) (ops : list op_touch) : bool :=
  match ops with
  | [] => true
  | op :: ops' => later_clear ls op && keeps_order (place_op ls op) ops'
  end.

Lemma no_conflict_in_groups op ls groups :
  Forall2 layer_holds ls groups -> forallb (fun l => negb (layer_conflict op l)) ls = true ->
  forall o, o ∈ concat groups -> ~ conflicts o op.
Proof.
  induction 1 as [|l g ls groups (Hi & Ha & Hg & _) H IH]; simpl; intros Hall o Ho.
  - by apply elem_of_nil in Ho.
  - rewrite andb_true_iff, negb_true_iff in Hall. destruct Hall as [Hl Hall].
    apply elem_of_app in Ho as [Ho|Ho]; [by eapply layer_conflict_spec|by apply IH].
Qed.

Lemma pairs_snoc (g : list op_touch) op :
  ForallOrdPairs (fun a b => ~ conflicts a b) g -> (forall o, o ∈ g -> ~ conflicts o op) ->
  ForallOrdPairs (fun a b => ~ conflicts a b) (g ++ [op]).
Proof.
  induction 1 as [|a g Ha Hg IH]; intros Hop; simpl.
  - constructor; [constructor|constructor].
  - constructor.
    + rewrite List.Forall_app. split; [done|]. constructor; [|done]. apply Hop. by left.
    + apply IH. intros o Ho. apply Hop. by right.
Qed.

Lemma place_op_holds ls groups op :
  schedule_holds ls groups ->
  exists groups', schedule_holds (place_op ls op) groups' /\ concat groups' ≡ₚ op :: concat groups /\
    (later_clear ls op = true -> reorder (concat groups ++ [op]) (concat groups')).
Proof.
  unfold place_op, later_clear. intros [H Hp]. revert Hp.
  induction H as [|l g ls groups Hl H IH]; intros Hp; simpl.
  - exists [[op]]. split_and!; [|done|intros _; apply reorder_refl]. split.
    + constructor; [|constructor]. apply (add_to_layer_holds op empty_layer []); simpl; [done|..].
      * intros x. rewrite elem_of_empty. setoid_rewrite elem_of_nil. naive_solver.
      * setoid_rewrite elem_of_nil. naive_solver.
    + repeat constructor.
  - apply Forall_cons in Hp as [Hg Hp]. destruct Hl as (Hi & Ha & Hgl & Hne).
    destruct (layer_conflict op l) eqn:E; simpl.
    + destruct (IH Hp) as (groups' & [H1 H2] & Hperm & Hre).
      exists (g :: groups'). split_and!.
      * split; [|by constructor]. case_match; simpl; constructor; by try split_and!.
      * simpl. rewrite Hperm. by rewrite Permutation_middle.
      * intros Hc. rewrite <-app_assoc. by apply reorder_app, Hre.
    + exists ((g ++ [op]) :: groups). split_and!.
      * split; [|constructor; [|done]].
        -- constructor; [|done]. by apply add_to_layer_holds.
        -- apply pairs_snoc; [done|]. by eapply layer_conflict_spec.
      * simpl. rewrite <-(assoc_L (++)). simpl. by rewrite Permutation_middle.
      * intros Hc. simpl. rewrite <-!(assoc_L (++)). apply reorder_app. simpl.
        apply reorder_ahead. rewrite drop_0 in Hc. by eapply no_conflict_in_groups.
Qed.

Lemma fold_place_holds ops ls groups :
  schedule_holds ls groups ->
  exists groups', schedule_holds (foldl place_op ls ops) groups' /\
    concat groups' ≡ₚ concat groups ++ ops /\
    (keeps_order ls ops = true -> reorder (concat groups ++ ops) (concat groups')).
Proof.
  revert ls groups. induction ops as [|op ops IH]; intros ls groups Hls; simpl.
  - exists groups. rewrite app_nil_r. split_and!; [done|done|intros _; apply reorder_refl].
  - destruct (place_op_holds ls groups op Hls) as (g1 & Hg1 & Hp1 & Hr1).
    destruct (IH _ _ Hg1) as (g2 & Hg2 & Hp2 & Hr2). exists g2. split_and!; [done|..].
    + rewrite Hp2, Hp1. simpl. by rewrite Permutation_middle.
    + rewrite andb_true_iff. intros [Hc Hk]. eapply reorder_trans; [|by apply Hr2].
      change (op :: ops) with ([op] ++ ops). rewrite (assoc_L (++)).
      by apply reorder_app_tail, Hr1.
Qed.

Lemma schedule_state_holds ops :
  exists groups, schedule_holds (schedule_state ops) groups /\ concat groups ≡ₚ ops /\
    (keeps_order [] ops = true -> reorder ops (concat groups)).
Proof. apply (fold_place_holds ops [] []). by repeat constructor. Qed.

Lemma schedule_partition ops :
  exists groups : list (list op_touch),
    build_parallel_schedule ops = map (map touch_index) groups /\
    concat groups ≡ₚ ops /\ Forall (fun g => g <> []) groups /\
    Forall (ForallOrdPairs (fun a b => ~ conflicts a b)) groups /\
    (keeps_order [] ops = true -> reorder ops (concat groups)).
Proof.
  destruct (schedule_state_holds ops) as (groups & [H Hp] & Hperm & Hre). exists groups.
  split_and!; [|done| |done|done].
  - unfold build_parallel_schedule. clear Hp Hperm Hre.
    induction H as [|l g ls gs (Hi & _) _ IH]; simpl; [done|]. by rewrite Hi, IH.
  - clear Hp Hperm Hre. induction H as [|l g ls gs (_ & _ & _ & Hne) _ IH]; by constructor.
Qed.

(** C22. The schedule is a partition into conflict-free layers: every operation is
    in exactly one layer, no layer is empty, and no two operations of one layer
    touch a common account or the global state. *)
Theorem schedule_is_conflict_free_partition (ops : list op_touch) :
  exists groups : list (list op_touch),
    build_parallel_schedule ops = map (map touch_index) groups /\
    concat groups ≡ₚ ops /\ Forall (fun g => g <> []) groups /\
    Forall (ForallOrdPairs (fun a b => ~ conflicts a b)) groups.
Proof.
  destruct (schedule_partition ops) as (groups & H). exists groups. tauto.
Qed.
