(* ===== verification/ScheduleOrder.v ===== *)
(** * When the schedule keeps the order of the block

    [build_parallel_schedule] puts an operation in the first layer it does not
    conflict with. [keeps_order] tells exactly for which blocks that keeps
    conflicting operations in block order. Where conflicts are transitive along the
    block it does, with as few layers as possible; a block of three operations
    along which they are not transitive is always run out of order. *)
From S2P Require Import Prelude Types OpDependency.

(** [a] comes before [b] in the block. *)
Definition before (ops : list op_touch) (a b : op_touch) : Prop :=
  exists i j, (i < j)%nat /\ ops !! i = Some a /\ ops !! j = Some b.

Definition transitive_in (ops : list op_touch) : Prop :=
  forall a b c, before ops a b -> before ops b c -> conflicts a b -> conflicts b c -> conflicts a c.

(** Index [i] is in an earlier layer of the schedule than [j]. *)
Definition runs_before (sch : list (list nat)) (i j : nat) : Prop :=
  exists p q l m, (p < q)%nat /\ sch !! p = Some l /\ sch !! q = Some m /\ i ∈ l /\ j ∈ m.

(** ** Positions *)

Lemma before_elem ops a b : before ops a b -> a ∈ ops /\ b ∈ ops.
Proof. intros (i & j & _ & Ha & Hb). split; by eapply list_elem_of_lookup_2. Qed.
Lemma before_app ops l a b : before ops a b -> before (ops ++ l) a b.
Proof. intros (i & j & Hij & Ha & Hb). exists i, j. split_and!; [done|by apply lookup_app_l_Some..]. Qed.
Lemma before_snoc ops op a b : before (ops ++ [op]) a b <-> before ops a b \/ (a ∈ ops /\ b = op).
Proof.
  split.
  - intros (i & j & Hij & Ha & Hb). apply lookup_snoc_Some in Ha as [[Hi Ha]|[-> ->]].
    + apply lookup_snoc_Some in Hb as [[_ Hb]|[-> <-]]; [left; by exists i, j|right].
      split; [by eapply list_elem_of_lookup_2|done].
    + apply lookup_lt_Some in Hb. rewrite length_app in Hb. simpl in Hb. lia.
  - intros [Hb|[Ha ->]]; [by apply before_app|]. apply list_elem_of_lookup in Ha as [i Ha].
    exists i, (length ops). apply lookup_lt_Some in Ha as Hi. split_and!; [done|by apply lookup_app_l_Some|].
    rewrite lookup_app_r, Nat.sub_diag by lia. done.
Qed.
Lemma before_trans ops a b c : NoDup ops -> before ops a b -> before ops b c -> before ops a c.
Proof.
  intros Hn (i & j & Hij & Ha & Hb) (j' & k & Hjk & Hb' & Hc).
  pose proof (NoDup_lookup _ _ _ _ Hn Hb Hb') as ->. exists i, k. split_and!; [lia|done|done].
Qed.
Lemma before_irrefl ops a : NoDup ops -> ~ before ops a a.
Proof. intros Hn (i & j & Hij & Ha & Hb). pose proof (NoDup_lookup _ _ _ _ Hn Ha Hb). lia. Qed.

(** ** Layers as groups of operations *)

Definition in_layer (groups : list (list op_touch)) (q : nat) (b : op_touch) : Prop :=
  exists g, groups !! q = Some g /\ b ∈ g.

Lemma layer_conflict_iff op l g :
  layer_holds l g -> layer_conflict op l = true <-> exists o, o ∈ g /\ conflicts o op.
Proof.
  intros (Hi & Ha & Hg & Hne). split.
  - intros Hc. unfold layer_conflict in Hc. rewrite !orb_true_iff in Hc. destruct Hc as [[Hc|Hc]|Hc].
    + destruct g as [|o g]; [done|]. exists o. split; [by left|by right; left].
    + apply Hg in Hc as (o & Ho & Hgo). exists o. split; [done|by left].
    + apply existsb_exists in Hc as (x & Hx & Hin). apply bool_decide_eq_true in Hin.
      apply Ha in Hin as (o & Ho & Hxo). exists o. split; [done|right; right].
      exists x. split; [done|by apply list_elem_of_In].
  - intros (o & Ho & Hc). apply not_false_iff_true. intros Hf.
    by eapply (layer_conflict_spec op l g).
Qed.
Lemma layer_clear_iff op l g :
  layer_holds l g -> layer_conflict op l = false <-> forall o, o ∈ g -> ~ conflicts o op.
Proof.
  intros Hl. rewrite <-not_true_iff_false, (layer_conflict_iff _ _ _ Hl). naive_solver.
Qed.

Lemma empty_layer_add op : layer_holds (add_to_layer op empty_layer) [op].
Proof.
  apply (add_to_layer_holds op empty_layer []); simpl; [done|..].
  - intros x. rewrite elem_of_empty. setoid_rewrite elem_of_nil. naive_solver.
  - setoid_rewrite elem_of_nil. naive_solver.
Qed.

(** The operation joins layer [p], the first it does not conflict with. *)
Lemma place_groups ls groups op :
  Forall2 layer_holds ls groups ->
  exists groups', let p := find_place op ls in
    Forall2 layer_holds (place_op ls op) groups' /\
    (forall q b, in_layer groups' q b <-> in_layer groups q b \/ (q = p /\ b = op)) /\
    (forall q, (q < p)%nat -> exists o, in_layer groups q o /\ conflicts o op) /\
    (forall o, in_layer groups p o -> ~ conflicts o op).
Proof.
  unfold place_op. induction 1 as [|l g ls groups Hl H IH]; simpl.
  - exists [[op]]. split_and!; [by repeat constructor; apply empty_layer_add|..].
    + intros q b. unfold in_layer. rewrite lookup_nil. destruct q; simpl.
      * setoid_rewrite <-(list_elem_of_singleton b op). naive_solver.
      * split; [intros (? & E & _); by rewrite lookup_nil in E|naive_solver].
    + lia.
    + intros o (? & E & _). by rewrite lookup_nil in E.
  - destruct (layer_conflict op l) eqn:E; simpl.
    + destruct IH as (groups' & H1 & H2 & H3 & H4). exists (g :: groups'). split_and!.
      * case_match; simpl; by constructor.
      * intros [|q] b; unfold in_layer; simpl; [naive_solver|].
        rewrite (H2 q b). split; (intros [?|[Hq ->]]; [by left|right]); split; lia || done.
      * intros [|q] Hq.
        -- apply (layer_conflict_iff _ _ _ Hl) in E as (o & Ho & Hc). exists o. split; [by exists g|done].
        -- destruct (H3 q) as (o & Ho & Hc); [lia|]. by exists o.
      * exact H4.
    + exists ((g ++ [op]) :: groups). destruct Hl as (Hi & Ha & Hg & Hne). split_and!.
      * constructor; [by apply add_to_layer_holds|done].
      * intros [|q] b; unfold in_layer; simpl; [|naive_solver].
        setoid_rewrite <-(list_elem_of_singleton b op). split.
        -- intros (? & [= <-] & Hb). apply elem_of_app in Hb as [?|?]; [left; by exists g|by right].
        -- intros [(? & [= <-] & Hb)|[_ Hb]]; eexists; (split; [done|]); apply elem_of_app; [by left|by right].
      * lia.
      * intros o (? & [= <-] & Ho). by eapply (layer_conflict_spec op l g).
Qed.

(** ** The invariants of greedy placement *)

(** [groups] hold the operations [ops], each one once and blocked from every
    earlier layer. *)
Record greedy (ops : list op_touch) (groups : list (list op_touch)) : Prop := {
  gr_from q b : in_layer groups q b -> b ∈ ops;
  gr_onto b : b ∈ ops -> exists q, in_layer groups q b;
  gr_once p q b : in_layer groups p b -> in_layer groups q b -> p = q;
  gr_blocked p q b : in_layer groups q b -> (p < q)%nat ->
    exists a, in_layer groups p a /\ conflicts a b /\ before ops a b }.

Definition ordered (ops : list op_touch) (groups : list (list op_touch)) : Prop :=
  forall a b p q, before ops a b -> conflicts a b -> in_layer groups p a -> in_layer groups q b -> (p < q)%nat.

Lemma transitive_app ops l : transitive_in (ops ++ l) -> transitive_in ops.
Proof. intros H a b c Hab Hbc. by apply H; apply before_app. Qed.

(** [later_clear] in terms of the operations of the layers. *)
Lemma later_clear_iff op ls groups :
  Forall2 layer_holds ls groups ->
  later_clear ls op = true <->
  forall q o, (find_place op ls < q)%nat -> in_layer groups q o -> ~ conflicts o op.
Proof.
  intros Hls. unfold later_clear. rewrite forallb_forall. split.
  - intros H q o Hq (g & Hg & Ho). destruct (Forall2_lookup_r _ _ _ _ _ Hls Hg) as (l & Hl & Hlg).
    specialize (H l). rewrite negb_true_iff in H. apply (layer_clear_iff _ _ _ Hlg); [apply H|done].
    apply list_elem_of_In, list_elem_of_lookup. exists (q - S (find_place op ls))%nat.
    rewrite lookup_drop. by replace (S (find_place op ls) + (q - S (find_place op ls)))%nat with q by lia.
  - intros H l Hl%list_elem_of_In. apply negb_true_iff. apply list_elem_of_lookup in Hl as [i Hl].
    rewrite lookup_drop in Hl. destruct (Forall2_lookup_l _ _ _ _ _ Hls Hl) as (g & Hg & Hlg).
    apply (layer_clear_iff _ _ _ Hlg). intros o Ho. apply (H (S (find_place op ls) + i)%nat); [lia|by exists g].
Qed.

Section placement.
Context (ops : list op_touch) (op : op_touch) (ls : list layer_state) (groups : list (list op_touch)).
Hypothesis Hls : Forall2 layer_holds ls groups.
Hypothesis Hnd : NoDup (ops ++ [op]).
Hypothesis Hgr : greedy ops groups.

(** The order is kept when it was and nothing after the chosen layer conflicts. *)
Lemma placed_ordered groups' :
  let p := find_place op ls in
  (forall q b, in_layer groups' q b <-> in_layer groups q b \/ (q = p /\ b = op)) ->
  (forall o, in_layer groups p o -> ~ conflicts o op) ->
  ordered (ops ++ [op]) groups' <-> ordered ops groups /\ later_clear ls op = true.
Proof.
  intros p Hin Hclear. apply NoDup_app in Hnd as (_ & Hnot & _).
  assert (Hfresh : op ∉ ops) by (intros Ho; apply (Hnot _ Ho); by left).
  rewrite (later_clear_iff op ls groups Hls). split.
  - intros Hord. split.
    + intros a b r q Hab Hc Ha Hb. apply (Hord a b); [by apply before_app|done|apply Hin; by left..].
    + intros q o Hq Ho Hc. assert (q < p)%nat; [|unfold p in *; lia].
      apply (Hord o op); [|done|apply Hin; by left|apply Hin; by right].
      apply before_snoc. right. split; [by eapply (gr_from _ _ Hgr)|done].
  - intros [Hord Hlater] a b r q Hab Hc Ha Hb. apply before_snoc in Hab as [Hab|[Ha0 ->]].
    + destruct (before_elem _ _ _ Hab) as [Ha0 Hb0].
      apply Hin in Ha as [Ha|[_ ->]]; [|done]. apply Hin in Hb as [Hb|[_ ->]]; [|done]. by eapply Hord.
    + apply Hin in Ha as [Ha|[_ ->]]; [|done]. apply Hin in Hb as [Hb|[-> _]]; [by apply (gr_from _ _ Hgr) in Hb|].
      destruct (Nat.lt_trichotomy r p) as [?|[->|Hlt]]; [done|by apply Hclear in Ha|by apply (Hlater r a) in Ha].
Qed.

Lemma greedy_place :
  exists groups', Forall2 layer_holds (place_op ls op) groups' /\ greedy (ops ++ [op]) groups' /\
    (ordered (ops ++ [op]) groups' <-> ordered ops groups /\ later_clear ls op = true).
Proof.
  destruct (place_groups ls groups op Hls) as (groups' & H1 & Hin & Hlow & Hclear).
  exists groups'. split_and!; [done| |by apply placed_ordered].
  set (p := find_place op ls) in *. apply NoDup_app in Hnd as (Hn & Hnot & _).
  assert (Hfresh : forall q, ~ in_layer groups q op).
  { intros q Ho%(gr_from _ _ Hgr). apply (Hnot _ Ho). by left. }
  split.
  - intros q b. rewrite Hin, elem_of_app. intros [Hb|[_ ->]]; [left; by eapply (gr_from _ _ Hgr)|right; by left].
  - intros b. rewrite elem_of_app. intros [Hb|Hb].
    + destruct (gr_onto _ _ Hgr b Hb) as [q Hq]. exists q. apply Hin. by left.
    + apply list_elem_of_singleton in Hb. exists p. apply Hin. by right.
  - intros r q b. rewrite !Hin.
    intros [Hb|[-> ->]] [Hb'|[-> Eb]]; [by eapply (gr_once _ _ Hgr)| | |done].
    + subst. by apply Hfresh in Hb.
    + by apply Hfresh in Hb'.
  - intros r q b Hb Hr. apply Hin in Hb as [Hb|[-> ->]].
    + destruct (gr_blocked _ _ Hgr r q b Hb Hr) as (a & Ha & Hc & Hbef). exists a.
      split_and!; [apply Hin; by left|done|by apply before_app].
    + destruct (Hlow r Hr) as (a & Ha & Hc). exists a. split_and!; [apply Hin; by left|done|].
      apply before_snoc. right. split; [by eapply (gr_from _ _ Hgr)|done].
Qed.

(** Under transitivity nothing after the chosen layer conflicts. *)
Lemma transitive_later_clear : transitive_in (ops ++ [op]) -> later_clear ls op = true.
Proof.
  intros Ht. destruct (place_groups ls groups op Hls) as (groups' & _ & _ & _ & Hclear).
  apply (later_clear_iff op ls groups Hls). intros q o Hq Ho Hc.
  destruct (gr_blocked _ _ Hgr (find_place op ls) q o Ho Hq) as (a & Ha & Hc' & Hbef).
  apply (Hclear a Ha). apply (Ht a o op); [by apply before_app| |done|done].
  apply before_snoc. right. split; [|done]. by eapply (gr_from _ _ Hgr).
Qed.
End placement.

Lemma greedy_fold rest ops ls groups :
  Forall2 layer_holds ls groups -> NoDup (ops ++ rest) -> greedy ops groups ->
  exists groups', Forall2 layer_holds (foldl place_op ls rest) groups' /\ greedy (ops ++ rest) groups' /\
    (ordered (ops ++ rest) groups' <-> ordered ops groups /\ keeps_order ls rest = true) /\
    (transitive_in (ops ++ rest) -> keeps_order ls rest = true).
Proof.
  revert ops ls groups. induction rest as [|op rest IH]; intros ops ls groups Hls Hnd Hgr; simpl.
  - exists groups. rewrite app_nil_r. split_and!; tauto.
  - rewrite cons_middle, app_assoc in *. pose proof (proj1 (proj1 (NoDup_app _ _) Hnd)) as Hnd1.
    destruct (greedy_place ops op ls groups Hls Hnd1 Hgr) as (g1 & Hls1 & Hgr1 & Hord1).
    destruct (IH _ _ _ Hls1 Hnd Hgr1) as (g2 & Hls2 & Hgr2 & Hord2 & Ht2). exists g2.
    split_and!; [done|done| |].
    + rewrite Hord2, Hord1, andb_true_iff. tauto.
    + intros Ht. rewrite (Ht2 Ht). rewrite (transitive_later_clear ops op ls groups); [done..|].
      by eapply transitive_app.
Qed.

Lemma schedule_greedy ops :
  NoDup ops ->
  exists groups, Forall2 layer_holds (schedule_state ops) groups /\ greedy ops groups /\
    (ordered ops groups <-> keeps_order [] ops = true) /\ (transitive_in ops -> keeps_order [] ops = true).
Proof.
  intros Hnd.
  assert (Hnone : forall q b, ~ in_layer [] q b) by (intros q b (? & E & _); by rewrite lookup_nil in E).
  destruct (greedy_fold ops [] [] []) as (groups & H1 & H2 & H3 & H4); [done|done| |].
  - split; [intros q b []%Hnone|intros b Hb; by apply elem_of_nil in Hb|intros p q b []%Hnone|intros p q b []%Hnone].
  - exists groups. split_and!; [done|done| |done]. simpl in H3. rewrite H3.
    split; [tauto|]. intros ?. split; [|done]. intros a b p q _ _ []%Hnone.
Qed.

(** The rows of the schedule are the indices of the groups. *)
Lemma row_in_layer ops gs q b :
  Forall2 layer_holds (schedule_state ops) gs -> greedy ops gs -> NoDup (map touch_index ops) -> b ∈ ops ->
  in_layer gs q b <-> exists l, build_parallel_schedule ops !! q = Some l /\ b.(touch_index) ∈ l.
Proof.
  intros Hls Hgr Hidx Hb. split.
  - intros (g & Hg & Hin). destruct (Forall2_lookup_r _ _ _ _ _ Hls Hg) as (l & Hl & Hlg).
    exists l.(op_indices). split; [by apply (list_lookup_fmap_Some_2 op_indices)|].
    destruct Hlg as (-> & _). by apply list_elem_of_fmap_2.
  - intros (l & Hl & Hin). apply (list_lookup_fmap_Some op_indices) in Hl as (ly & -> & Hly).
    destruct (Forall2_lookup_l _ _ _ _ _ Hls Hly) as (g & Hg & (E & _)). rewrite E in Hin.
    apply (list_elem_of_fmap touch_index) in Hin as (b' & Hbb & Hin).
    assert (Hl' : in_layer gs q b') by (by exists g).
    replace b with b'; [done|]. symmetry.
    pose proof (gr_from _ _ Hgr _ _ Hl') as Hb'.
    apply list_elem_of_lookup in Hb as [i Hi], Hb' as [j Hj].
    assert (i = j) as ->; [|congruence].
    apply (NoDup_lookup (map touch_index ops) i j b.(touch_index)); [done|..].
    + by apply (list_lookup_fmap_Some_2 touch_index).
    + rewrite Hbb. by apply (list_lookup_fmap_Some_2 touch_index).
Qed.

(** Conflicting operations in block order, said of the groups and of the rows. *)
Lemma ordered_rows ops gs :
  Forall2 layer_holds (schedule_state ops) gs -> greedy ops gs -> NoDup (map touch_index ops) ->
  ordered ops gs <-> forall a b, before ops a b -> conflicts a b ->
    runs_before (build_parallel_schedule ops) a.(touch_index) b.(touch_index).
Proof.
  intros Hls Hgr Hidx. pose proof (row_in_layer ops gs) as Hrow. split.
  - intros Ho a b Hab Hc. destruct (before_elem _ _ _ Hab) as [Ha Hb].
    destruct (gr_onto _ _ Hgr a Ha) as [p Hp], (gr_onto _ _ Hgr b Hb) as [q Hq].
    pose proof (Ho a b p q Hab Hc Hp Hq). apply Hrow in Hp as (l & Hl & Hal), Hq as (m & Hm & Hbm); [|done..].
    by exists p, q, l, m.
  - intros Hruns a b p q Hab Hc Hp Hq. destruct (before_elem _ _ _ Hab) as [Ha Hb].
    destruct (Hruns a b Hab Hc) as (p' & q' & l & m & Hlt & Hl & Hm & Hal & Hbm).
    assert (in_layer gs p' a) as Hp' by (apply Hrow; [done..|by exists l]).
    assert (in_layer gs q' b) as Hq' by (apply Hrow; [done..|by exists m]).
    by rewrite (gr_once _ _ Hgr _ _ _ Hp Hp'), (gr_once _ _ Hgr _ _ _ Hq Hq').
Qed.

(** ** As few layers as possible *)

(** Operations no two of which may share a layer. *)
Definition clique (c : list op_touch) : Prop := NoDup c /\ ForallOrdPairs conflicts c.

(** Transitivity turns the chain of blocking operations into a clique. *)
Lemma blocked_clique ops groups q b :
  NoDup ops -> transitive_in ops -> greedy ops groups -> in_layer groups q b ->
  exists c, length c = S q /\ clique c /\ forall x, x ∈ c -> x = b \/ (before ops x b /\ conflicts x b).
Proof.
  intros Hnd Ht Hgr. revert b. induction q as [|q IH]; intros b Hb.
  - exists [b]. split_and!; [done|split; [apply NoDup_singleton|repeat constructor]|].
    intros x Hx. left. by apply list_elem_of_singleton.
  - destruct (gr_blocked _ _ Hgr q (S q) b Hb) as (a & Ha & Hc & Hbef); [lia|].
    destruct (IH a Ha) as (c & Hlen & [Hn Hcl] & Hx).
    assert (Hxb : forall x, x ∈ c -> before ops x b /\ conflicts x b).
    { intros x Hin. destruct (Hx x Hin) as [->|[Hxa Hca]]; [done|].
      split; [by eapply before_trans|by apply (Ht x a b)]. }
    exists (b :: c). split_and!; [by simpl; rewrite Hlen|split|].
    + constructor; [|done]. intros Hin. destruct (Hxb b Hin) as [Hbb _]. exact (before_irrefl ops b Hnd Hbb).
    + constructor; [|done]. apply Forall_forall. intros x Hin. symmetry. by apply Hxb.
    + intros x Hin. apply elem_of_cons in Hin as [->|Hin]; [by left|right; by apply Hxb].
Qed.

(** Two members of a conflict-free group that conflict are the same. *)
Lemma group_apart (g : list op_touch) a b :
  ForallOrdPairs (fun a b => ~ conflicts a b) g -> a ∈ g -> b ∈ g -> conflicts a b -> a = b.
Proof.
  induction 1 as [|x g Hx Hg IH]; intros Ha Hb Hc; [by apply elem_of_nil in Ha|].
  rewrite Forall_forall in Hx. apply elem_of_cons in Ha as [->|Ha], Hb as [->|Hb]; try done.
  - by destruct (Hx b).
  - destruct (Hx a); [done|by symmetry].
  - by apply IH.
Qed.

(** A clique needs as many groups as it has members. *)
Lemma clique_fits c groups :
  clique c -> Forall (ForallOrdPairs (fun a b => ~ conflicts a b)) groups ->
  (forall x, x ∈ c -> x ∈ concat groups) -> (length c <= length groups)%nat.
Proof.
  intros [Hn Hc] Hg Hin.
  assert (Hq : exists qs, Forall2 (fun x q => in_layer groups q x) c qs /\ NoDup qs).
  { induction Hc as [|x c Hx Hc IH]; [exists []; by repeat constructor|].
    apply NoDup_cons in Hn as [Hnx Hn]. destruct IH as (qs & Hqs & Hnq); [done|intros y Hy; apply Hin; by right|].
    assert (Hxin : exists q, in_layer groups q x).
    { assert (Hxc : x ∈ concat groups) by (apply Hin; by left).
      apply list_elem_of_In, in_concat in Hxc as (g & Hgin & Hxg). apply list_elem_of_In in Hgin, Hxg.
      apply list_elem_of_lookup in Hgin as [q Hq]. by exists q, g. }
    destruct Hxin as [q Hxq]. exists (q :: qs). split; [by constructor|]. constructor; [|done].
    intros Hqin. apply list_elem_of_lookup in Hqin as [i Hi].
    destruct (Forall2_lookup_r _ _ _ _ _ Hqs Hi) as (y & Hy & (g & Hgq & Hyg)).
    destruct Hxq as (g' & Hgq' & Hxg). rewrite Hgq in Hgq'. injection Hgq' as <-.
    apply list_elem_of_lookup_2 in Hy. rewrite Forall_forall in Hx. apply Hnx.
    rewrite (group_apart g x y); [done| |done|done|by apply Hx].
    rewrite Forall_forall in Hg. apply Hg. by eapply list_elem_of_lookup_2. }
  destruct Hq as (qs & Hqs & Hnq). rewrite (Forall2_length _ _ _ Hqs).
  replace (length groups) with (length (seq 0 (length groups))) by apply length_seq. apply submseteq_length, NoDup_submseteq; [done|].
  intros q Hq. apply list_elem_of_lookup in Hq as [i Hi].
  destruct (Forall2_lookup_r _ _ _ _ _ Hqs Hi) as (y & _ & (g & Hgq & _)).
  apply elem_of_seq. apply lookup_lt_Some in Hgq. lia.
Qed.

(** The condition under which [ApplyScheduler] proves scheduled application to be
    sequential application. *)
Lemma transitive_keeps_order ops : NoDup (map touch_index ops) -> transitive_in ops -> keeps_order [] ops = true.
Proof.
  intros Hidx Ht. destruct (schedule_greedy ops) as (gs & _ & _ & _ & Hk); [by eapply (NoDup_fmap_1 touch_index)|].
  by apply Hk.
Qed.

(** Under transitivity the last layer stands on a clique of as many operations as
    there are layers. *)
Lemma transitive_fewest_layers ops groups :
  NoDup ops -> transitive_in ops -> concat groups ≡ₚ ops ->
  Forall (ForallOrdPairs (fun a b => ~ conflicts a b)) groups ->
  (length (build_parallel_schedule ops) <= length groups)%nat.
Proof.
  intros Hnd Ht Hperm Hfree. destruct (schedule_greedy ops Hnd) as (gs & Hls & Hgr & _).
  unfold build_parallel_schedule. rewrite length_map.
  destruct (length (schedule_state ops)) as [|q] eqn:Hlen; [lia|].
  destruct (lookup_lt_is_Some_2 (schedule_state ops) q) as [l Hl]; [lia|].
  destruct (Forall2_lookup_l _ _ _ _ _ Hls Hl) as (g & Hg & (_&_&_&Hne)).
  destruct g as [|b g]; [done|].
  destruct (blocked_clique ops gs q b Hnd Ht Hgr) as (c & <- & Hc & Hx); [exists (b :: g); by split; [|left]|].
  apply clique_fits; [done|done|]. intros x Hin. rewrite Hperm.
  destruct (Hx x Hin) as [->|[Hbef _]]; [|by apply before_elem in Hbef as [? _]].
  eapply (gr_from _ _ Hgr). exists (b :: g). split; [done|by left].
Qed.

(** ** Three operations *)

Lemma non_transitive_schedule a b c :
  conflicts a b -> conflicts b c -> ~ conflicts a c ->
  build_parallel_schedule [a; b; c] = [[a.(touch_index); c.(touch_index)]; [b.(touch_index)]].
Proof.
  intros Hab Hbc Hac. pose proof (empty_layer_add a) as Ha.
  assert (Eb : layer_conflict b (add_to_layer a empty_layer) = true).
  { apply (layer_conflict_iff _ _ _ Ha). exists a. split; [by left|done]. }
  assert (Ec : layer_conflict c (add_to_layer a empty_layer) = false).
  { apply (layer_clear_iff _ _ _ Ha). intros o Ho. apply list_elem_of_singleton in Ho. by subst. }
  unfold build_parallel_schedule, schedule_state. cbn [foldl].
  change (place_op [] a) with [add_to_layer a empty_layer].
  unfold place_op at 2. cbn [find_place]. rewrite Eb. cbn.
  unfold place_op. cbn [find_place]. rewrite Ec. reflexivity.
Qed.

(** ** Properties *)

(** C23. When the schedule keeps the order of the block. For operations with
    different indices: of any two conflicting operations the earlier one is in an
    earlier layer if and only if [keeps_order] holds of the block, that is, no
    operation was put in a layer before one that holds an operation it conflicts
    with. That is so, and no way to
    split the block into conflict-free layers has fewer layers, whenever conflicts
    are transitive along the block (an operation that conflicts with a second,
    which conflicts with a third, conflicts with the third); transitivity is
    enough, and not necessary ([kept_block]). A block of just three operations along which it fails
    is always run with the third ahead of the second, which it conflicts with and
    should follow. *)
Theorem schedule_order_exact :
  (forall ops, NoDup (map touch_index ops) ->
     keeps_order [] ops = true <->
     forall a b, before ops a b -> conflicts a b ->
       runs_before (build_parallel_schedule ops) a.(touch_index) b.(touch_index)) /\
  (forall ops, NoDup (map touch_index ops) -> transitive_in ops ->
     keeps_order [] ops = true /\
     forall groups, concat groups ≡ₚ ops ->
       Forall (ForallOrdPairs (fun a b => ~ conflicts a b)) groups ->
       (length (build_parallel_schedule ops) <= length groups)%nat) /\
  (forall a b c, conflicts a b -> conflicts b c -> ~ conflicts a c ->
     build_parallel_schedule [a; b; c] = [[a.(touch_index); c.(touch_index)]; [b.(touch_index)]]).
Proof.
  split_and!; [| |apply non_transitive_schedule].
  - intros ops Hidx. destruct (schedule_greedy ops) as (gs & Hls & Hgr & <- & _);
      [by eapply (NoDup_fmap_1 touch_index)|]. by apply ordered_rows.
  - intros ops Hidx Ht. split; [by apply transitive_keeps_order|].
    intros groups. apply transitive_fewest_layers; [by eapply (NoDup_fmap_1 touch_index)|done].
Qed.

(** Three transfers of alice's: each waits for the one before it. *)
Definition alices_transfers : list op_touch := [
  mk_op_touch 0 class_nft_transfer ["alice"; "bob"; "nft:1"] false;
  mk_op_touch 1 class_nft_transfer ["alice"; "carol"; "nft:2"] false;
  mk_op_touch 2 class_nft_transfer ["dave"; "alice"; "nft:3"] false ].

(** Conflicts are not transitive along this block (operations 1, 2 and 3), and yet
    its order is kept. *)
Definition kept_block : list op_touch := [
  mk_op_touch 0 class_nft_transfer ["z"] false; mk_op_touch 1 class_nft_transfer ["x"] false;
  mk_op_touch 2 class_nft_transfer ["x"; "y"] false; mk_op_touch 3 class_nft_transfer ["y"; "z"] false ].

Example schedule_order_exact_witness :
  runs_before (build_parallel_schedule alices_transfers) 0 2 /\
  build_parallel_schedule alices_transfers = [[0]; [1]; [2]]%nat /\
  runs_before (build_parallel_schedule kept_block) 2 3 /\
  build_parallel_schedule kept_block = [[0; 1]; [2]; [3]]%nat.
Proof.
  assert (Ht : transitive_in alices_transfers).
  { intros a b c (i & j & Hij & Ha & Hb) (j' & k & Hjk & Hb' & Hc) _ _. right; right. exists "alice".
    assert (Hall : forall n x, alices_transfers !! n = Some x -> "alice" ∈ x.(accounts)).
    { intros [|[|[|n]]] x; intros [= <-]; cbn; set_solver. }
    split; [by eapply Hall|by eapply Hall]. }
  destruct schedule_order_exact as (Hiff & Htrans & _).
  assert (Hn1 : NoDup (map touch_index alices_transfers)) by (repeat constructor; set_solver).
  assert (Hn2 : NoDup (map touch_index kept_block)) by (repeat constructor; set_solver).
  split_and!; [|vm_compute; reflexivity| |vm_compute; reflexivity].
  - destruct (Htrans alices_transfers Hn1 Ht) as [Hk _].
    apply (proj1 (Hiff alices_transfers Hn1) Hk
      (mk_op_touch 0 class_nft_transfer ["alice"; "bob"; "nft:1"] false)
      (mk_op_touch 2 class_nft_transfer ["dave"; "alice"; "nft:3"] false)).
    + exists 0%nat, 2%nat. split; [lia|split; reflexivity].
    + right; right. exists "alice". cbn. set_solver.
  - assert (Hk : keeps_order [] kept_block = true) by (vm_compute; reflexivity).
    apply (proj1 (Hiff kept_block Hn2) Hk
      (mk_op_touch 2 class_nft_transfer ["x"; "y"] false) (mk_op_touch 3 class_nft_transfer ["y"; "z"] false)).
    + exists 2%nat, 3%nat. split; [lia|split; reflexivity].
    + right; right. exists "y". cbn. set_solver.
Defined.
