(* ===== verification/ApplyScheduler.v ===== *)
(** * Scheduled application ([include/hive_native/perf/apply_scheduler.hpp])

    Classification of operations into the accounts they touch, the schedule, and
    its execution. The classification is proved complete for the operations it
    covers: operations it separates commute. *)
From Stdlib Require Import Floats.SpecFloat.
From S2P Require Import Prelude Types Crypto Protocol Costs Database EvalNft EvalHtlc Engine.
From S2P Require Import EvalContracts NftInvariant HtlcInvariant ContractInvariant Chain ChainProperties OpDependency.

Record global_marker_operation : Type := mk_global_marker { marker_name : string }.

Inductive scheduled_op_kind : Type :=
| kind_nft_transfer | kind_htlc_redeem | kind_contract_call | kind_global.

Inductive scheduled_op : Type :=
| sched_nft_transfer (op : nft_transfer_operation)
| sched_htlc_redeem (op : htlc_redeem_operation)
| sched_contract_call (op : contract_call_operation)
| sched_global (op : global_marker_operation).

Definition kind_of (op : scheduled_op) : scheduled_op_kind :=
  match op with
  | sched_nft_transfer _ => kind_nft_transfer
  | sched_htlc_redeem _ => kind_htlc_redeem
  | sched_contract_call _ => kind_contract_call
  | sched_global _ => kind_global
  end.

Record apply_schedule_stats : Type := mk_stats {
  layers : list (list nat); parallel_width : nat; stats_parallelism_factor : spec_float;
  ops_applied : nat; layer_count : nat }.

(** ** Classification *)

Definition classify_nft_transfer (index : nat) (op : nft_transfer_operation) : op_touch :=
  mk_op_touch index class_nft_transfer
    ([op.(xfer_from); op.(xfer_to)] ++ ["nft:" +:+ pretty op.(xfer_nft_id)]) false.

Definition classify_htlc_redeem (index : nat) (op : htlc_redeem_operation) : op_touch :=
  mk_op_touch index class_htlc_redeem ([op.(hr_to)] ++ ["htlc:" +:+ pretty op.(hr_htlc_id)]) false.

Definition classify_contract_call (index : nat) (op : contract_call_operation) : op_touch :=
  mk_op_touch index class_custom_json
    ([op.(call_caller)] ++ ["contract:" +:+ pretty op.(call_contract_id)]) false.

Definition classify_global (index : nat) (_ : global_marker_operation) : op_touch :=
  mk_op_touch index class_global [] true.

Definition classify_scheduled_op (index : nat) (op : scheduled_op) : op_touch :=
  match op with
  | sched_nft_transfer op => classify_nft_transfer index op
  | sched_htlc_redeem op => classify_htlc_redeem index op
  | sched_contract_call op => classify_contract_call index op
  | sched_global op => classify_global index op
  end.

(** [for(size_t i = 0; i < ops.size(); ++i)] *)
Definition classify_all (ops : list scheduled_op) : list op_touch := imap classify_scheduled_op ops.

(** ** Execution *)

Section execution.
Context (eng : engine).

Definition apply_one_with (op : scheduled_op) : M database unit :=
  match op with
  | sched_nft_transfer op => apply_nft_transfer op
  | sched_htlc_redeem op => apply_htlc_redeem op
  | sched_contract_call op => apply_contract_call_with eng op
  | sched_global op =>
      push_virtual "global_marker" (json_object [("name", quoted op.(marker_name))])
  end.

(** The layers flattened in order: the body of the two loops, [ops_applied]
    counting; [ops[idx]] out of range is undefined. *)
Fixpoint apply_indices (ops : list scheduled_op) (idxs : list nat) (applied : nat)
  : M database nat :=
  match idxs with
  | [] => mret applied
  | idx :: idxs' =>
      match ops !! idx with
      | None => undefined
      | Some op => apply_one_with op;; apply_indices ops idxs' (S applied)
      end
  end.

Fixpoint apply_layers (ops : list scheduled_op) (ls : list (list nat)) (applied : nat)
  : M database nat :=
  match ls with
  | [] => mret applied
  | l :: ls' => n ← apply_indices ops l applied; apply_layers ops ls' n
  end.

Definition max_width (ls : list (list nat)) : nat :=
  foldl (fun w l => if Nat.ltb w (length l) then length l else w) 0%nat ls.

Definition plan_schedule (ops : list scheduled_op) : apply_schedule_stats :=
  match ops with
  | [] => mk_stats [] 0 (double_of 1) 0 0
  | _ =>
      let ls := build_parallel_schedule (classify_all ops) in
      mk_stats ls (max_width ls) (double_ratio (length ops) (length ls)) 0 (length ls)
  end.

Definition apply_scheduled_with (ops : list scheduled_op) : M database apply_schedule_stats :=
  match ops with
  | [] => mret (mk_stats [] 0 (double_of 1) 0 0)
  | _ =>
      let st := plan_schedule ops in
      n ← apply_layers ops st.(layers) st.(ops_applied);
      mret (mk_stats st.(layers) st.(parallel_width) st.(stats_parallelism_factor) n st.(layer_count))
  end.

(** The reference: the operations one after the other. *)
Fixpoint apply_in_order (ops : list scheduled_op) : M database unit :=
  match ops with
  | [] => mret tt
  | op :: ops' => apply_one_with op;; apply_in_order ops'
  end.
End execution.

Definition apply_one : scheduled_op -> M database unit := apply_one_with default_engine.
Definition apply_scheduled : list scheduled_op -> M database apply_schedule_stats :=
  apply_scheduled_with default_engine.

(** ** Scheduled application is application in some order *)

Section order.
Context (eng : engine).

Lemma apply_indices_order ops idxs order n db :
  Forall2 (fun i op => ops !! i = Some op) idxs order ->
  apply_indices eng ops idxs n db
    = (apply_in_order eng order;; mret (n + length order)%nat) db.
Proof.
  intros H. revert n db. induction H as [|i op idxs order Hi H IH]; intros n db; simpl.
  - by rewrite Nat.add_0_r.
  - rewrite Hi. unfold mbind, M_bind in *. destruct (apply_one_with eng op db); [|done..].
    rewrite IH. destruct (apply_in_order eng order s); [|done..].
    by rewrite Nat.add_succ_r.
Qed.

Lemma apply_in_order_app l1 l2 db :
  apply_in_order eng (l1 ++ l2) db = (apply_in_order eng l1;; apply_in_order eng l2) db.
Proof.
  revert db. induction l1 as [|op l1 IH]; intros db; simpl; [done|].
  unfold mbind, M_bind in *. destruct (apply_one_with eng op db); [|done..]. apply IH.
Qed.

Lemma apply_layers_order ops ls orders n db :
  Forall2 (Forall2 (fun i op => ops !! i = Some op)) ls orders ->
  apply_layers eng ops ls n db
    = (apply_in_order eng (concat orders);; mret (n + length (concat orders))%nat) db.
Proof.
  intros H. revert n db. induction H as [|l order ls orders Hl H IH]; intros n db; simpl.
  - by rewrite Nat.add_0_r.
  - unfold mbind at 1, M_bind at 1. rewrite (apply_indices_order _ _ _ _ _ Hl).
    unfold mbind at 2, M_bind at 2. rewrite apply_in_order_app.
    unfold mbind, M_bind in *. destruct (apply_in_order eng order db); [|done..].
    cbn. rewrite IH. destruct (apply_in_order eng (concat orders) s); [|done..].
    by rewrite length_app, Nat.add_assoc.
Qed.

(** The operations of a conflict-free group, looked up by their indices. *)
Lemma classified_lookup ops o :
  o ∈ classify_all ops -> exists op, ops !! touch_index o = Some op /\
    o = classify_scheduled_op (touch_index o) op.
Proof.
  intros Ho. apply list_elem_of_lookup in Ho as [i Hi]. unfold classify_all in Hi.
  rewrite list_lookup_imap in Hi. destruct (ops !! i) as [op|] eqn:E; [|done].
  injection Hi as <-. exists op. by destruct op.
Qed.

Definition op_at (ops : list scheduled_op) (o : op_touch) : scheduled_op :=
  default (sched_global (mk_global_marker "")) (ops !! touch_index o).

Lemma op_at_lookup ops o : o ∈ classify_all ops -> ops !! touch_index o = Some (op_at ops o).
Proof. intros Ho. destruct (classified_lookup ops o Ho) as (op & E & _). unfold op_at. by rewrite E. Qed.

Lemma op_at_all ops : map (op_at ops) (classify_all ops) = ops.
Proof.
  apply list_eq. intros i. rewrite list_lookup_fmap. unfold classify_all.
  rewrite list_lookup_imap. destruct (ops !! i) as [op|] eqn:E; [|done]. simpl.
  unfold op_at. destruct op; simpl; by rewrite E.
Qed.

Lemma groups_lookup ops groups :
  (forall o, o ∈ concat groups -> o ∈ classify_all ops) ->
  Forall2 (Forall2 (fun i op => ops !! i = Some op)) (map (map touch_index) groups)
    (map (map (op_at ops)) groups).
Proof.
  intros H. induction groups as [|g groups IH]; simpl; constructor.
  - assert (Hg : forall o, o ∈ g -> o ∈ classify_all ops)
      by (intros o Ho; apply H; simpl; apply elem_of_app; by left).
    clear -Hg. induction g as [|o g IH]; simpl; constructor.
    + apply op_at_lookup, Hg. by left.
    + apply IH. intros o' Ho'. apply Hg. by right.
  - apply IH. intros o Ho. apply H. simpl. apply elem_of_app. by right.
Qed.
End order.

Definition plan_stats (ops : list scheduled_op) : apply_schedule_stats :=
  let st := plan_schedule ops in
  mk_stats st.(layers) st.(parallel_width) st.(stats_parallelism_factor) (length ops)
    st.(layer_count).

(** The order the schedule runs in, and that it is a reordering in the strict
    sense when the schedule keeps the order of conflicting operations. *)
Lemma scheduled_order eng ops :
  exists touches, touches ≡ₚ classify_all ops /\
    (keeps_order [] (classify_all ops) = true -> reorder (classify_all ops) touches) /\
    forall db, apply_scheduled_with eng ops db =
      (apply_in_order eng (map (op_at ops) touches);; mret (plan_stats ops)) db.
Proof.
  destruct ops as [|op0 ops0].
  { exists []. split_and!; [done|intros _; apply reorder_nil|done]. }
  set (ops := op0 :: ops0).
  destruct (schedule_partition (classify_all ops)) as (groups & Hb & Hp & _ & _ & Hre).
  exists (concat groups). split_and!; [done|done|]. intros db. unfold apply_scheduled_with.
  change (layers (plan_schedule ops)) with (build_parallel_schedule (classify_all ops)).
  unfold ops at 1. fold ops. rewrite Hb.
  unfold mbind at 1, M_bind at 1.
  rewrite (apply_layers_order eng ops _ (map (map (op_at ops)) groups)).
  2: { apply groups_lookup. intros o Ho. by rewrite <-Hp. }
  rewrite <-concat_map. unfold mbind, M_bind. destruct (apply_in_order _ _ _); [|done..].
  change (ops_applied (plan_schedule ops)) with 0%nat.
  rewrite length_map, (Permutation_length Hp). unfold classify_all at 1. rewrite length_imap.
  unfold plan_stats. change (layers (plan_schedule ops)) with (build_parallel_schedule (classify_all ops)).
  by rewrite Hb.
Qed.

(** Scheduled application applies every operation exactly once: whatever the
    operations and the database, it behaves (state, exceptions and all) as
    applying some permutation of them one after the other, then reports as many
    operations as there are. *)
Theorem scheduled_is_a_permutation (eng : engine) (ops : list scheduled_op) :
  exists order, order ≡ₚ ops /\
    forall db, apply_scheduled_with eng ops db =
      (apply_in_order eng order;; mret (plan_stats ops)) db.
Proof.
  destruct (scheduled_order eng ops) as (touches & Hp & _ & H).
  exists (map (op_at ops) touches). split; [|done]. by rewrite Hp, op_at_all.
Qed.

(** ** What an operation changes

    [delta]: the part of the state a scheduled operation writes, as values. *)

Record delta : Type := mk_delta {
  d_credit : option (string * asset);
  d_nft : option (Z * nft_object);
  d_htlc : option (Z * htlc_object);
  d_storage : option (Z * gmap string (list byte));
  d_cost : option Z;
  d_virtual : string * string }.

Definition on {A B} (o : option A) (f : A -> B -> B) (b : B) : B :=
  match o with Some a => f a b | None => b end.

Definition apply_delta (d : delta) (db : database) : database :=
  log_virtual d.(d_virtual).1 d.(d_virtual).2
  (upd_nfts (on d.(d_nft) (fun kv => <[kv.1 := kv.2]>))
  (upd_htlcs (on d.(d_htlc) (fun kv => <[kv.1 := kv.2]>))
  (upd_contract_storage (on d.(d_storage) (fun kv => <[kv.1 := kv.2]>))
  (upd_balances (on d.(d_credit) (fun na => credit na.1 na.2.(symbol) na.2.(amount)))
  (upd_last_rc_charged (on d.(d_cost) (fun c _ => c)) db))))).

(** Where it writes, in the vocabulary of the classification. *)
Definition delta_touches (d : delta) : list string :=
  on d.(d_credit) (fun na => cons na.1)
  (on d.(d_nft) (fun kv => cons ("nft:" +:+ pretty kv.1))
  (on d.(d_htlc) (fun kv => cons ("htlc:" +:+ pretty kv.1))
  (on d.(d_storage) (fun kv => cons ("contract:" +:+ pretty kv.1)) []))).

Section deltas.
Context (eng : engine).

(** [d] is what [op] does to [db], when it is accepted. *)
Definition op_delta (db : database) (op : scheduled_op) (d : delta) : Prop :=
  match op with
  | sched_nft_transfer op => transfer_pre db op /\
      exists n, db.(nfts) !! op.(xfer_nft_id) = Some n /\
      d = mk_delta None (Some (op.(xfer_nft_id), nft_set_owner n op.(xfer_to) "")) None None
        (Some (cost_nft_transfer op))
        ("nft_transferred", json_object [("nft_id", pretty n.(nft_id));
           ("from", quoted n.(nft_owner)); ("to", quoted op.(xfer_to))])
  | sched_htlc_redeem op => htlc_redeem_pre db op /\
      exists h, db.(htlcs) !! op.(hr_htlc_id) = Some h /\
      d = mk_delta (Some (h.(htlc_to), h.(htlc_amount))) None
        (Some (op.(hr_htlc_id), htlc_set_status h redeemed)) None (Some (cost_htlc_redeem op))
        ("htlc_redeemed", json_object [("htlc_id", pretty h.(htlc_id)); ("to", quoted h.(htlc_to))])
  | sched_contract_call op =>
      exists c r, call_ready db op c /\ call_answer eng db op c = Ret r /\ r.(success) = true /\
      d = mk_delta None None None
        (Some (op.(call_contract_id), r.(storage_writes) ∪ storage_of db op.(call_contract_id)))
        (Some (cost_contract_call op r.(fuel_used)))
        ("contract_called", called_payload op.(call_contract_id) true r.(fuel_used))
  | sched_global op =>
      d = mk_delta None None None None None
        ("global_marker", json_object [("name", quoted op.(marker_name))])
  end.

(** The balances are in range and HTLCs pay out within [int64_t]. *)
Definition payable (db : database) : Prop := htlc_inv db /\ funds_inv db.

Lemma apply_one_delta db op db' :
  payable db ->
  apply_one_with eng op db = Done tt db' <-> exists d, op_delta db op d /\ db' = apply_delta d db.
Proof.
  intros [Hw Hf]. destruct op as [op|op|op|op]; simpl.
  - rewrite (atomic_done _ _ _ _ (transfer_spec op db)). unfold transfer_post. split.
    + intros [Hpre ->]. pose proof Hpre as (_&_&_&n&Hn&_). rewrite Hn.
      eexists. split; [split; [exact Hpre|by exists n]|]. by destruct db.
    + intros (d & [Hpre (n & Hn & ->)] & ->). rewrite Hn. split; [done|]. by destruct db.
  - rewrite (charged_done _ _ _ _ _ _ (htlc_redeem_spec op db (payout_is_defined db Hw Hf _ _))).
    unfold htlc_redeem_post. split.
    + intros [Hpre ->]. pose proof Hpre as (_&_&_&h&Hh&_). rewrite Hh.
      eexists. split; [split; [exact Hpre|by exists h]|]. by destruct db.
    + intros (d & [Hpre (h & Hh & ->)] & ->). rewrite Hh. split; [done|]. by destruct db.
  - pose proof (call_spec eng op db) as Hc. split.
    + intros He. destruct (wp_done _ _ _ _ _ _ Hc He) as (c & r & Hr & Ha & Hs & ->).
      eexists. split; [by exists c, r|]. by destruct db.
    + intros (d & (c & r & Hr & Ha & Hs & ->) & ->). unfold wp in Hc.
      destruct (apply_contract_call_with eng op db) as [[] s|e s|] eqn:E; [|exfalso|done].
      * destruct Hc as (c' & r' & Hr' & Ha' & Hs' & ->).
        pose proof (call_ready_functional _ _ _ _ Hr Hr') as <-.
        assert (r = r') as <- by congruence. by destruct db.
      * destruct Hc as [(Hn & _)|(c' & Hr' & Hc)]; [by eapply Hn|].
        pose proof (call_ready_functional _ _ _ _ Hr Hr') as <-. rewrite Ha in Hc.
        destruct Hc as (? & _). congruence.
  - split; [intros [= <-]|intros (d & -> & ->)].
    + eexists. split; [done|]. by destruct db.
    + by destruct db.
Qed.

Lemma op_delta_functional db op d d' : op_delta db op d -> op_delta db op d' -> d = d'.
Proof.
  destruct op as [op|op|op|op]; simpl.
  - intros [_ (n & Hn & ->)] [_ (n' & Hn' & ->)]. rewrite Hn in Hn'. by injection Hn' as <-.
  - intros [_ (n & Hn & ->)] [_ (n' & Hn' & ->)]. rewrite Hn in Hn'. by injection Hn' as <-.
  - intros (c & r & Hr & Ha & _ & ->) (c' & r' & Hr' & Ha' & _ & ->).
    pose proof (call_ready_functional _ _ _ _ Hr Hr') as <-. congruence.
  - by intros -> ->.
Qed.

(** The classification covers the writes. *)
Lemma delta_touches_classified i db op d :
  op_delta db op d -> forall x, x ∈ delta_touches d -> x ∈ accounts (classify_scheduled_op i op).
Proof.
  destruct op as [op|op|op|op]; simpl.
  - intros [_ (n & _ & ->)] x Hx. unfold delta_touches in Hx. simpl in Hx. set_solver.
  - intros [(_&_&_&h'&Hh'&_&Hto&_) (h & Hh & ->)] x Hx. unfold delta_touches in Hx. simpl in Hx.
    rewrite Hh' in Hh. injection Hh as ->. rewrite Hto in Hx. done.
  - intros (c & r & _ & _ & _ & ->) x Hx. unfold delta_touches in Hx. simpl in Hx. set_solver.
  - intros -> x Hx. unfold delta_touches in Hx. simpl in Hx. set_solver.
Qed.
End deltas.

(** ** Independent operations commute *)

Section commute.
Context (eng : engine).

Lemma delta_account d db a :
  is_Some ((apply_delta d db).(balances) !! a) <-> is_Some (db.(balances) !! a).
Proof. destruct d as [[[? ?]|] ? ? ? ? ?]; simpl; [by rewrite credit_dom|done]. Qed.
Lemma delta_account_exists d db a : account_exists (apply_delta d db) a = account_exists db a.
Proof. apply bool_decide_ext, delta_account. Qed.

Lemma delta_nft d db id : "nft:" +:+ pretty id ∉ delta_touches d ->
  (apply_delta d db).(nfts) !! id = db.(nfts) !! id.
Proof.
  destruct d as [c [[k n]|] h s co v]; simpl; [|done]. intros Hn. rewrite lookup_insert_ne; [done|].
  intros ->. apply Hn. unfold delta_touches. destruct c; simpl; set_solver.
Qed.
Lemma delta_htlc d db id : "htlc:" +:+ pretty id ∉ delta_touches d ->
  (apply_delta d db).(htlcs) !! id = db.(htlcs) !! id.
Proof.
  destruct d as [c n [[k h]|] s co v]; simpl; [|done]. intros Hn. rewrite lookup_insert_ne; [done|].
  intros ->. apply Hn. unfold delta_touches. destruct c, n; simpl; set_solver.
Qed.
Lemma delta_storage d db id : "contract:" +:+ pretty id ∉ delta_touches d ->
  storage_of (apply_delta d db) id = storage_of db id.
Proof.
  unfold storage_of. destruct d as [c n h [[k s]|] co v]; simpl; [|done].
  intros Hn. rewrite lookup_insert_ne; [done|].
  intros ->. apply Hn. unfold delta_touches. destruct c, n, h; simpl; set_solver.
Qed.

(** An operation is accepted, and does the same, before and after a change that
    is elsewhere. *)
Lemma op_delta_local i db op d d' :
  (forall x, x ∈ delta_touches d' -> x ∉ accounts (classify_scheduled_op i op)) ->
  op_delta eng (apply_delta d' db) op d <-> op_delta eng db op d.
Proof.
  intros Hdis. destruct op as [op|op|op|op]; simpl in *.
  - assert (Hn : "nft:" +:+ pretty (xfer_nft_id op) ∉ delta_touches d')
      by (intros Hx; apply Hdis in Hx; set_solver).
    unfold transfer_pre. setoid_rewrite (delta_nft d' db _ Hn). by rewrite delta_account_exists.
  - assert (Hn : "htlc:" +:+ pretty (hr_htlc_id op) ∉ delta_touches d')
      by (intros Hx; apply Hdis in Hx; set_solver).
    unfold htlc_redeem_pre. setoid_rewrite (delta_htlc d' db _ Hn). by rewrite delta_account_exists.
  - assert (Hn : "contract:" +:+ pretty (call_contract_id op) ∉ delta_touches d')
      by (intros Hx; apply Hdis in Hx; set_solver).
    unfold call_ready, call_answer. rewrite delta_account_exists, (delta_storage d' db _ Hn). done.
  - done.
Qed.

(** Equal but for the order of the log and the last RC figure. *)
Definition same_ledger (db db' : database) : Prop :=
  db'.(pending_virtual_ops) ≡ₚ db.(pending_virtual_ops) /\
  upd_pending_virtual_ops (fun _ => []) (upd_last_rc_charged (fun _ => 0) db')
  = upd_pending_virtual_ops (fun _ => []) (upd_last_rc_charged (fun _ => 0) db).

#[export] Instance same_ledger_equiv : Equivalence same_ledger.
Proof.
  split.
  - by intros db.
  - intros db db' [H1 H2]. by split.
  - intros d1 d2 d3 [H1 H2] [H3 H4]. split; [by rewrite H3|by rewrite H4].
Qed.

Lemma same_ledger_parts db db' : same_ledger db db' ->
  exists l c, l ≡ₚ db.(pending_virtual_ops) /\
    db' = upd_pending_virtual_ops (fun _ => l) (upd_last_rc_charged (fun _ => c) db).
Proof.
  intros [H1 H2]. exists db'.(pending_virtual_ops), db'.(last_rc_charged). split; [done|].
  destruct db, db'. injection H2 as <- <- <- <- <- <- <- <- <- <- <- <- <- <-. done.
Qed.

Lemma op_delta_same_ledger db db' op d :
  same_ledger db db' -> op_delta eng db' op d <-> op_delta eng db op d.
Proof. intros H. destruct (same_ledger_parts _ _ H) as (l & c & _ & ->). by destruct op. Qed.

#[export] Instance apply_delta_proper d : Proper (same_ledger ==> same_ledger) (apply_delta d).
Proof.
  intros db db' H. destruct (same_ledger_parts _ _ H) as (l & c & Hl & ->).
  split; [simpl; by rewrite Hl|]. by destruct d.
Qed.

#[export] Instance payable_proper : Proper (same_ledger ==> iff) payable.
Proof. intros db db' H. by destruct (same_ledger_parts _ _ H) as (l & c & _ & ->). Qed.

Lemma credits_commute n1 s1 x1 n2 s2 x2 m :
  credit n1 s1 x1 (credit n2 s2 x2 m) = credit n2 s2 x2 (credit n1 s1 x1 m).
Proof.
  apply map_eq. intros a. unfold credit. rewrite !lookup_alter.
  repeat case_decide; subst; try done. destruct (m !! a) as [b|]; [|done]. simpl. f_equal.
  destruct b, s1, s2; unfold set_balance_field, balance_field; simpl; f_equal; lia.
Qed.

Lemma deltas_commute d1 d2 db :
  (forall x, x ∈ delta_touches d1 -> x ∉ delta_touches d2) ->
  same_ledger (apply_delta d1 (apply_delta d2 db)) (apply_delta d2 (apply_delta d1 db)).
Proof.
  intros Hdis. split.
  - simpl. rewrite <-!app_assoc. apply Permutation_app_head. apply Permutation_app_comm.
  - destruct d1 as [c1 n1 h1 s1 co1 v1], d2 as [c2 n2 h2 s2 co2 v2]. unfold delta_touches in Hdis.
    unfold upd_pending_virtual_ops, upd_last_rc_charged. simpl in *. f_equal.
    + destruct c1 as [[? ?]|], c2 as [[? ?]|]; simpl; [apply credits_commute|done..].
    + destruct n1 as [[k1 ?]|], n2 as [[k2 ?]|]; simpl; try done. apply insert_insert_ne.
      intros ->. destruct c1, c2; simpl in Hdis; set_solver.
    + destruct h1 as [[k1 ?]|], h2 as [[k2 ?]|]; simpl; try done. apply insert_insert_ne.
      intros ->. destruct c1, c2, n1, n2; simpl in Hdis; set_solver.
    + destruct s1 as [[k1 ?]|], s2 as [[k2 ?]|]; simpl; try done. apply insert_insert_ne.
      intros ->. destruct c1, c2, n1, n2, h1, h2; simpl in Hdis; set_solver.
Qed.
End commute.

(** ** Reordering *)

Section reordering.
Context (eng : engine) `{!EngineLaws eng}.

Definition typed_scheduled (op : scheduled_op) : Prop :=
  match op with
  | sched_nft_transfer op => typed_op (op_nft_transfer op)
  | sched_htlc_redeem op => typed_op (op_htlc_redeem op)
  | sched_contract_call op => typed_op (op_contract_call op)
  | sched_global _ => True
  end.

Lemma delta_payable db op d : payable db -> op_delta eng db op d -> payable (apply_delta d db).
Proof.
  intros [Hw Hf] Hd. destruct op as [op|op|op|op]; simpl in Hd.
  - destruct Hd as [_ (n & _ & ->)]. by split.
  - destruct Hd as [Hpre (h & Hh & ->)].
    destruct (redeem_inv db Hw Hf op Hpre) as (H1 & H2 & _).
    unfold htlc_redeem_post in *. rewrite Hh in *. by split.
  - destruct Hd as (c & r & _ & _ & _ & ->). by split.
  - subst. by split.
Qed.

Lemma apply_one_payable db op db' :
  payable db -> apply_one_with eng op db = Done tt db' -> payable db'.
Proof. intros Hp He. apply apply_one_delta in He as (d & Hd & ->); [|done]. by eapply delta_payable. Qed.

Lemma in_order_cons op l db db' :
  apply_in_order eng (op :: l) db = Done tt db' <->
  exists db1, apply_one_with eng op db = Done tt db1 /\ apply_in_order eng l db1 = Done tt db'.
Proof.
  simpl. rewrite bind_done. split.
  - intros ([] & s & H1 & H2). by exists s.
  - intros (s & H1 & H2). by exists tt, s.
Qed.

Lemma apply_one_respects op db db' db1 :
  payable db -> same_ledger db db' -> apply_one_with eng op db = Done tt db1 ->
  exists db1', apply_one_with eng op db' = Done tt db1' /\ same_ledger db1 db1'.
Proof.
  intros Hp Hs He. apply apply_one_delta in He as (d & Hd & ->); [|done].
  exists (apply_delta d db'). split; [|by apply apply_delta_proper].
  apply apply_one_delta; [by rewrite <-Hs|]. exists d. by rewrite op_delta_same_ledger.
Qed.

Lemma in_order_respects l db db' db1 :
  payable db -> same_ledger db db' -> apply_in_order eng l db = Done tt db1 ->
  exists db1', apply_in_order eng l db' = Done tt db1' /\ same_ledger db1 db1'.
Proof.
  revert db db'. induction l as [|op l IH]; intros db db' Hp Hs.
  - intros [= <-]. by exists db'.
  - rewrite in_order_cons. intros (db2 & He & Hl).
    destruct (apply_one_respects op db db' db2) as (db2' & He' & Hs'); [done..|].
    destruct (IH db2 db2') as (db1' & Hl' & Hs2); [by eapply apply_one_payable|done|done|].
    exists db1'. split; [|done]. apply in_order_cons. by exists db2'.
Qed.

(** Two accepted operations that do not conflict can be exchanged. *)
Lemma apply_two_commute i j x y db db1 db2 :
  payable db -> ~ conflicts (classify_scheduled_op i x) (classify_scheduled_op j y) ->
  apply_one_with eng x db = Done tt db1 -> apply_one_with eng y db1 = Done tt db2 ->
  exists db1' db2', apply_one_with eng y db = Done tt db1' /\
    apply_one_with eng x db1' = Done tt db2' /\ same_ledger db2 db2'.
Proof.
  intros Hp Hc Hx Hy. pose proof (apply_one_payable _ _ _ Hp Hx) as Hp1.
  apply apply_one_delta in Hx as (dx & Hdx & ->); [|done].
  apply apply_one_delta in Hy as (dy & Hdy & ->); [|done].
  assert (Hxy : forall z, z ∈ accounts (classify_scheduled_op i x) ->
            z ∉ accounts (classify_scheduled_op j y)).
  { intros z Hz Hz'. apply Hc. right; right. by exists z. }
  rewrite (op_delta_local eng j) in Hdy.
  2: { intros z Hz. apply Hxy. by eapply delta_touches_classified. }
  assert (Hdx' : op_delta eng (apply_delta dy db) x dx).
  { apply (op_delta_local eng i); [|done]. intros z Hz Hz'. apply (Hxy z); [done|].
    by eapply delta_touches_classified. }
  assert (Hp2 : payable (apply_delta dy db)) by (by eapply delta_payable).
  exists (apply_delta dy db), (apply_delta dx (apply_delta dy db)). split_and!.
  - apply apply_one_delta; [done|]. by exists dy.
  - apply apply_one_delta; [done|]. by exists dx.
  - apply deltas_commute. intros z Hz Hz'. apply (Hxy z).
    + by eapply delta_touches_classified.
    + by eapply delta_touches_classified.
Qed.

Lemma reorder_sound f l l' :
  reorder l l' ->
  (forall o, o ∈ l -> exists i, o = classify_scheduled_op i (f o)) ->
  forall db db1, payable db -> apply_in_order eng (map f l) db = Done tt db1 ->
  exists db2, apply_in_order eng (map f l') db = Done tt db2 /\ same_ledger db1 db2.
Proof.
  induction 1 as [|x l l' H IH|x y l Hc|l1 l2 l3 H1 IH1 H2 IH2]; intros Hf db db1 Hp He.
  - by exists db1.
  - simpl map in *. apply in_order_cons in He as (dbx & Hx & He).
    destruct (IH (fun o Ho => Hf o ltac:(by right)) dbx db1) as (db2 & He2 & Hs);
      [by eapply apply_one_payable|done|].
    exists db2. split; [|done]. apply in_order_cons. by exists dbx.
  - simpl map in *. apply in_order_cons in He as (dbx & Hx & He).
    apply in_order_cons in He as (dby & Hy & He).
    destruct (Hf x ltac:(by left)) as [i Hi]. destruct (Hf y ltac:(right; by left)) as [j Hj].
    rewrite Hi, Hj in Hc.
    destruct (apply_two_commute i j (f x) (f y) db dbx dby) as (d1 & d2 & E1 & E2 & Hs); [done..|].
    destruct (in_order_respects (map f l) dby d2 db1) as (db2 & He2 & Hs2);
      [|done|done|].
    { eapply apply_one_payable; [|done]. by eapply apply_one_payable. }
    exists db2. split; [|done]. apply in_order_cons. exists d1. split; [done|].
    apply in_order_cons. by exists d2.
  - destruct (IH1 Hf db db1) as (db2 & He2 & Hs2); [done..|].
    destruct (IH2 (fun o Ho => Hf o (reorder_elem _ _ H1 o Ho)) db db2) as (db3 & He3 & Hs3); [done..|].
    exists db3. split; [done|]. by trans db2.
Qed.
End reordering.

(** C21. When the schedule keeps the order of conflicting operations (which
    [keeps_order] decides), scheduled application is sequential application: if
    the operations are accepted one after the other, they are all accepted by
    layers too, and the two ledgers are equal but for the order of the virtual
    operations and the RC figure of the last one. *)
Theorem order_keeping_schedule_is_sequential (eng : engine) `{!EngineLaws eng}
  (ops : list scheduled_op) (db db1 : database) :
  reachable eng db -> keeps_order [] (classify_all ops) = true ->
  apply_in_order eng ops db = Done tt db1 ->
  exists db2, apply_scheduled_with eng ops db = Done (plan_stats ops) db2 /\ same_ledger db1 db2.
Proof.
  intros Hr Hk He. pose proof (reachable_inv eng db Hr) as [_ Hw Hf _].
  destruct (scheduled_order eng ops) as (touches & Hp & Hre & Hs).
  destruct (reorder_sound eng (op_at ops) (classify_all ops) touches (Hre Hk)) with (db := db) (db1 := db1)
    as (db2 & He2 & Hl).
  - intros o Ho. exists (touch_index o). destruct (classified_lookup ops o Ho) as (op & E & Ho').
    unfold op_at. by rewrite E.
  - by split.
  - by rewrite op_at_all.
  - exists db2. split; [|done]. rewrite Hs. unfold mbind, M_bind. by rewrite He2.
Qed.

Definition sample_batch : list scheduled_op := [
  sched_htlc_redeem fresh_secret_redeem;
  sched_nft_transfer (mk_nft_transfer "bob" "carol" 1 "");
  sched_contract_call (mk_contract_call "alice" 1 "call" (string_bytes "WRITE:k:v") 1000) ].

(** The redeem and the call run in one layer; the transfer waits for bob. *)
Example order_keeping_schedule_is_sequential_witness :
  build_parallel_schedule (classify_all sample_batch) = [[0; 2]; [1]]%nat /\
  is_done (apply_scheduled sample_batch sample_state) = true.
Proof.
  split; [vm_compute; reflexivity|].
  assert (Hd : is_done (apply_in_order default_engine sample_batch sample_state) = true)
    by (vm_compute; reflexivity).
  destruct (apply_in_order default_engine sample_batch sample_state) as [[] db1| |] eqn:E;
    try discriminate Hd.
  destruct (order_keeping_schedule_is_sequential default_engine sample_batch sample_state db1
    sample_reachable ltac:(vm_compute; reflexivity) E) as (db2 & H & _).
  unfold apply_scheduled. rewrite H. reflexivity.
Defined.

Definition order_genesis : database :=
  upd_balances (<["dave" := mk_account_balance 0 0]>) sample_genesis.
Definition two_nfts_of_alice : database := default empty_database (play [
  ev_op (op_nft_create_collection (mk_nft_create_collection "alice" "ART" "Art" 10 true));
  ev_op (op_nft_mint (mk_nft_mint "alice" 1 "alice" zero_hash "a" false));
  ev_op (op_nft_mint (mk_nft_mint "alice" 1 "alice" zero_hash "b" false)) ] order_genesis).
Definition chained_transfers : list scheduled_op := [
  sched_nft_transfer (mk_nft_transfer "alice" "carol" 2 "");
  sched_nft_transfer (mk_nft_transfer "alice" "bob" 1 "");
  sched_nft_transfer (mk_nft_transfer "bob" "dave" 1 "") ].

(** The schedule may reorder operations that conflict: the third of these
    transfers moves the NFT the second one brings to its sender, but joins the
    first layer, ahead of it. Accepted one after the other, the batch throws
    when it is scheduled. *)
Theorem schedule_can_reorder_conflicts :
  build_parallel_schedule (classify_all chained_transfers) = [[0; 2]; [1]]%nat /\
  is_done (apply_in_order default_engine chained_transfers two_nfts_of_alice) = true /\
  exists db', apply_scheduled chained_transfers two_nfts_of_alice
    = Thrown (protocol_error "not authorized to transfer") db'.
Proof.
  split; [vm_compute; reflexivity|]. split; [vm_compute; reflexivity|].
  eexists. vm_compute. reflexivity.
Qed.
