(* ===== verification/CompactBlock.v ===== *)
(** * Compact-block relay ([include/hive_native/perf/compact_block.hpp])

    A block announced by short ids and a few full transactions, and rebuilt from
    a mempool. An index that walks a vector from its start is the list that is
    left of it. *)
From S2P Require Import Prelude Types Crypto.

Definition short_tx_id : Type := list byte.
Definition sha256_t : Type := list byte.

(** The hash of the mempool's keys, on [size_t]. *)
Definition short_tx_id_hash (id : short_tx_id) : Z :=
  foldl (fun h b => Z.lor (u64 (Z.shiftl h 8)) (byte_val b)) 0 id.

(** [std::unordered_map<short_tx_id, std::string>], which is only looked up. *)
Definition mempool_map : Type := gmap short_tx_id string.

(** The hash packs the bytes: ids of one length up to 8 never collide. *)
Lemma shift_or_byte h b : 0 <= h < 2 ^ 56 -> Z.lor (u64 (Z.shiftl h 8)) (byte_val b) = 2 ^ 8 * h + byte_val b.
Proof.
  intros Hh. pose proof (byte_val_range b) as Hb. rewrite Z.shiftl_mul_pow2, u64_small by lia.
  rewrite <-Z.lxor_lor, <-Z.add_nocarry_lxor; [lia|..].
  all: apply Z.bits_inj'; intros n Hn; rewrite Z.land_spec, Z.bits_0.
  all: destruct (Z.ltb_spec n 8); [by rewrite Z.mul_pow2_bits_low|].
  all: rewrite (Z.bits_above_log2 (byte_val b)); [by rewrite andb_false_r|lia|].
  all: apply Z.lt_le_trans with 8; [apply log2_below; lia|done].
Qed.
Lemma short_tx_id_hash_snoc id b :
  short_tx_id_hash (id ++ [b]) = Z.lor (u64 (Z.shiftl (short_tx_id_hash id) 8)) (byte_val b).
Proof. unfold short_tx_id_hash. by rewrite foldl_app. Qed.
Lemma short_tx_id_hash_range id : (length id <= 8)%nat -> 0 <= short_tx_id_hash id < 2 ^ (8 * size_of id).
Proof.
  induction id as [|b id IH] using rev_ind; [done|]. unfold size_of in *. rewrite length_app. simpl. intros Hl.
  pose proof (IH ltac:(lia)) as Hr. rewrite short_tx_id_hash_snoc.
  assert (2 ^ (8 * Z.of_nat (length id)) <= 2 ^ 56) by (apply Z.pow_le_mono_r; lia).
  rewrite shift_or_byte by lia. pose proof (byte_val_range b).
  replace (8 * Z.of_nat (length id + 1)) with (8 + 8 * Z.of_nat (length id)) by lia.
  rewrite Z.pow_add_r by lia. nia.
Qed.
Lemma short_tx_id_hash_inj id id' :
  length id = length id' -> (length id <= 8)%nat -> short_tx_id_hash id = short_tx_id_hash id' -> id = id'.
Proof.
  revert id'. induction id as [|b id IH] using rev_ind; intros id' El Hl Eh.
  - destruct id'; [done|simpl in El; lia].
  - destruct id' as [|b' id' _] using rev_ind; [rewrite length_app in El; simpl in El; lia|].
    rewrite !length_app in *. simpl in *. rewrite !short_tx_id_hash_snoc in Eh.
    assert (Hr : forall l : short_tx_id, (length l <= 7)%nat -> 0 <= short_tx_id_hash l < 2 ^ 56).
    { intros l Hll. pose proof (short_tx_id_hash_range l ltac:(lia)) as Hrange. unfold size_of in Hrange.
      assert (2 ^ (8 * Z.of_nat (length l)) <= 2 ^ 56) by (apply Z.pow_le_mono_r; lia). lia. }
    rewrite !shift_or_byte in Eh by (apply Hr; lia).
    pose proof (byte_val_range b). pose proof (byte_val_range b').
    assert (Hb : byte_val b = byte_val b') by lia. apply byte_val_inj in Hb as ->.
    f_equal. apply IH; lia.
Qed.

(** [memcpy(id.data(), digest.data(), 6)] *)
Definition make_short_tx_id_of_digest (digest : sha256_t) : short_tx_id := take 6 digest.
Definition make_short_tx_id (tx_bytes : string) : short_tx_id :=
  make_short_tx_id_of_digest (sha256 (string_bytes tx_bytes)).

Record prefilled_tx : Type := mk_prefilled { index : Z; tx : string }.

Record compact_block : Type := mk_compact_block {
  header_hash : sha256_t; short_ids : list short_tx_id; prefilled : list prefilled_tx }.

Definition tx_count (cb : compact_block) : nat :=
  (length cb.(short_ids) + length cb.(prefilled))%nat.

Record reconstruct_result : Type := mk_reconstruct {
  txs : list string; missing : list short_tx_id }.

Definition ok (r : reconstruct_result) : bool := size_of r.(missing) =? 0.
Definition full_list (r : reconstruct_result) : option (list string) :=
  if negb (size_of r.(missing) =? 0) then None else Some r.(txs).

(** Ascending unique indexes below [n]; [prev] is [prefilled[p - 1].index]. *)
Fixpoint prefilled_in_order (n : nat) (prev : option Z) (l : list prefilled_tx) : bool :=
  match l with
  | [] => true
  | pf :: l' =>
      if Z.of_nat n <=? pf.(index) then false
      else if match prev with Some i => pf.(index) <=? i | None => false end then false
      else prefilled_in_order n (Some pf.(index)) l'
  end.

(** Slots [i] to [i + slots - 1]; [None] is the malformed return in the loop. *)
Fixpoint fill_slots (m : mempool_map) (slots : nat) (i : Z) (prefs : list prefilled_tx)
  (sids : list short_tx_id) (r : reconstruct_result)
  : option (reconstruct_result * list prefilled_tx * list short_tx_id) :=
  match slots with
  | O => Some (r, prefs, sids)
  | S slots' =>
      let short_slot :=
        match sids with
        | [] => None
        | sid :: sids' =>
            fill_slots m slots' (i + 1) prefs sids'
              match m !! sid with
              | None => mk_reconstruct (r.(txs) ++ [""]) (r.(missing) ++ [sid])
              | Some t => mk_reconstruct (r.(txs) ++ [t]) r.(missing)
              end
        end in
      match prefs with
      | pf :: prefs' =>
          if pf.(index) =? i
          then fill_slots m slots' (i + 1) prefs' sids (mk_reconstruct (r.(txs) ++ [pf.(tx)]) r.(missing))
          else short_slot
      | [] => short_slot
      end
  end.

Definition reconstruct (cb : compact_block) (local_mempool : mempool_map) : reconstruct_result :=
  let malformed := mk_reconstruct [] cb.(short_ids) in
  let n := tx_count cb in
  if Nat.eqb n 0 then mk_reconstruct [] []
  else if negb (prefilled_in_order n None cb.(prefilled)) then malformed
  else match fill_slots local_mempool n 0 cb.(prefilled) cb.(short_ids) (mk_reconstruct [] []) with
       | None => malformed
       | Some (r, prefs, sids) =>
           if negb (size_of prefs =? 0) || negb (size_of sids =? 0) then malformed
           else if negb (size_of r.(missing) =? 0) then mk_reconstruct [] r.(missing)
           else r
       end.

(** [is_prefilled], a [std::vector<bool>]. *)
Definition prefill_flags (n : nat) (prefill_indexes : list Z) : list bool :=
  foldl (fun flags idx => if idx <? Z.of_nat n then <[Z.to_nat idx := true]> flags else flags)
    (replicate n false) prefill_indexes.

Fixpoint announce (i : Z) (flags : list bool) (txs : list string) (cb : compact_block)
  : compact_block :=
  match txs, flags with
  | t :: txs', f :: flags' =>
      announce (i + 1) flags' txs'
        (if f : bool
         then mk_compact_block cb.(header_hash) cb.(short_ids)
                (cb.(prefilled) ++ [mk_prefilled (u32 i) t])
         else mk_compact_block cb.(header_hash) (cb.(short_ids) ++ [make_short_tx_id t])
                cb.(prefilled))
  | _, _ => cb
  end.

Definition make_compact_block (header : sha256_t) (txs : list string) (prefill_indexes : list Z)
  : compact_block :=
  announce 0 (prefill_flags (length txs) prefill_indexes) txs (mk_compact_block header [] []).

(** ** What an announcement carries *)

(** The short ids and the prefilled transactions of the slots from [i] on. *)
Fixpoint announced_ids (flags : list bool) (txs : list string) : list short_tx_id :=
  match txs, flags with
  | t :: txs', f :: flags' =>
      if f : bool then announced_ids flags' txs' else make_short_tx_id t :: announced_ids flags' txs'
  | _, _ => []
  end.
Fixpoint announced_full (i : Z) (flags : list bool) (txs : list string) : list prefilled_tx :=
  match txs, flags with
  | t :: txs', f :: flags' =>
      if f : bool then mk_prefilled (u32 i) t :: announced_full (i + 1) flags' txs'
      else announced_full (i + 1) flags' txs'
  | _, _ => []
  end.

Lemma announce_spec i flags txs h ids full :
  announce i flags txs (mk_compact_block h ids full)
  = mk_compact_block h (ids ++ announced_ids flags txs) (full ++ announced_full i flags txs).
Proof.
  revert i flags ids full.
  induction txs as [|t txs IH]; intros i [|[] flags] ids full; simpl; rewrite ?app_nil_r; try done.
  - by rewrite IH, <-app_assoc.
  - by rewrite IH, <-app_assoc.
Qed.

Lemma prefill_flags_length n l : length (prefill_flags n l) = n.
Proof.
  unfold prefill_flags. rewrite <-(length_replicate n false) at 2.
  generalize (replicate n false). induction l as [|i l IH]; intros flags; simpl; [done|].
  rewrite IH. by destruct (i <? Z.of_nat n); rewrite ?length_insert.
Qed.

Lemma announced_count i flags txs : length flags = length txs ->
  (length (announced_ids flags txs) + length (announced_full i flags txs) = length txs)%nat.
Proof.
  revert i flags. induction txs as [|t txs IH]; intros i [|[] flags] Hl; simpl in *; try lia.
  - rewrite <-(IH (i + 1) flags) by lia. lia.
  - rewrite <-(IH (i + 1) flags) by lia. lia.
Qed.

(** The indexes of what is announced in full ascend from [i]. *)
Lemma announced_in_order n i flags txs prev :
  0 <= i -> i + size_of txs <= Z.of_nat n -> Z.of_nat n < 2 ^ 32 -> length flags = length txs ->
  match prev with Some j => j < i | None => True end ->
  prefilled_in_order n prev (announced_full i flags txs) = true.
Proof.
  unfold size_of. revert i flags prev.
  induction txs as [|t txs IH]; intros i [|[] flags] prev Hi Hn Hn2 Hl Hp; simpl in *; try done.
  - rewrite u32_small by lia. destruct (Z.leb_spec (Z.of_nat n) i); [lia|].
    replace (match prev with Some j => i <=? j | None => false end) with false.
    + apply IH; simpl; lia.
    + destruct prev as [j|]; [|done]. symmetry. apply Z.leb_gt. lia.
  - apply IH; simpl; try lia. destruct prev; [lia|done].
Qed.

Lemma announced_index i flags txs pf :
  0 <= i -> i + size_of txs < 2 ^ 32 -> length flags = length txs ->
  pf ∈ announced_full i flags txs -> i <= pf.(index) < i + size_of txs.
Proof.
  unfold size_of. revert i flags.
  induction txs as [|t txs IH]; intros i [|[] flags] Hi Hn Hl Hin; simpl in *; try by apply elem_of_nil in Hin.
  - apply elem_of_cons in Hin as [->|Hin]; [simpl; rewrite u32_small by lia; lia|].
    apply IH in Hin; lia.
  - apply IH in Hin; lia.
Qed.

(** What the mempool answers for the announced ids. *)
Definition unknown_ids (m : mempool_map) (ids : list short_tx_id) : list short_tx_id :=
  filter (fun sid => m !! sid = None) ids.

(** The mempool holds no other transaction under the id of [t]. *)
Definition no_collision (m : mempool_map) (t : string) : Prop :=
  forall t', m !! make_short_tx_id t = Some t' -> t' = t.

Lemma fill_slots_announced m i flags txs0 ts ms :
  0 <= i -> i + size_of txs0 < 2 ^ 32 -> length flags = length txs0 -> Forall (no_collision m) txs0 ->
  exists r, fill_slots m (length txs0) i (announced_full i flags txs0) (announced_ids flags txs0)
      (mk_reconstruct ts ms) = Some (r, [], []) /\
    r.(missing) = ms ++ unknown_ids m (announced_ids flags txs0) /\
    (unknown_ids m (announced_ids flags txs0) = [] -> r.(txs) = ts ++ txs0).
Proof.
  unfold size_of. revert i flags ts ms.
  induction txs0 as [|t txs0 IH]; intros i [|f flags] ts ms Hi Hn Hl Hc; simpl in *; try lia.
  - eexists. split; [done|]. by rewrite !app_nil_r.
  - apply Forall_cons in Hc as [Ht Hc]. destruct f; simpl.
    + rewrite u32_small, Z.eqb_refl by lia.
      destruct (IH (i + 1) flags (ts ++ [t]) ms) as (r & E & Em & Et); [lia..|done|].
      exists r. split_and!; [done|done|]. intros Hu. by rewrite Et, <-app_assoc.
    + set (r0 := match m !! make_short_tx_id t with
                 | None => mk_reconstruct (ts ++ [""]) (ms ++ [make_short_tx_id t])
                 | Some t' => mk_reconstruct (ts ++ [t']) ms end).
      assert (Hstep : match announced_full (i + 1) flags txs0 with
          | pf :: prefs' => if index pf =? i
              then fill_slots m (length txs0) (i + 1) prefs'
                     (make_short_tx_id t :: announced_ids flags txs0)
                     (mk_reconstruct (ts ++ [tx pf]) ms)
              else fill_slots m (length txs0) (i + 1) (announced_full (i + 1) flags txs0)
                     (announced_ids flags txs0) r0
          | [] => fill_slots m (length txs0) (i + 1) (announced_full (i + 1) flags txs0)
                     (announced_ids flags txs0) r0
          end = fill_slots m (length txs0) (i + 1) (announced_full (i + 1) flags txs0)
                  (announced_ids flags txs0) r0).
      { destruct (announced_full (i + 1) flags txs0) as [|pf l] eqn:E; [done|].
        destruct (announced_index (i + 1) flags txs0 pf) as [Hlo Hhi]; [lia|unfold size_of; lia|lia|rewrite E; by left|].
        destruct (Z.eqb_spec (index pf) i); [lia|done]. }
      rewrite Hstep. clear Hstep. unfold unknown_ids in *. rewrite filter_cons. unfold r0.
      destruct (m !! make_short_tx_id t) as [t'|] eqn:Em; case_decide as Hd; try congruence.
      * apply Ht in Em as ->.
        destruct (IH (i + 1) flags (ts ++ [t]) ms) as (r & E & Er & Et); [lia..|done|].
        exists r. split_and!; [done|done|]. intros Hu. by rewrite Et, <-app_assoc.
      * destruct (IH (i + 1) flags (ts ++ [""]) (ms ++ [make_short_tx_id t])) as (r & E & Er & Et);
          [lia..|done|].
        exists r. split_and!; [done|by rewrite Er, <-app_assoc|done].
Qed.

Lemma size_of_nil_eqb {A} (l : list A) : (size_of l =? 0) = bool_decide (l = []).
Proof. destruct l; [done|]. by rewrite bool_decide_eq_false_2. Qed.

(** C28. Announce and rebuild is a round trip: for any body of fewer than [2^32]
    transactions and any choice of prefilled positions, a receiver whose mempool
    confuses none of these transactions asks for exactly the announced short ids
    it does not know, in block order; if it knows them all, it rebuilds the body,
    and otherwise it returns no partial list. *)
Theorem compact_block_round_trip (header : sha256_t) (body : list string)
  (prefill_indexes : list Z) (m : mempool_map) :
  size_of body < 2 ^ 32 -> Forall (no_collision m) body ->
  let cb := make_compact_block header body prefill_indexes in
  let r := reconstruct cb m in
  r.(missing) = unknown_ids m cb.(short_ids) /\ tx_count cb = length body /\
  (ok r = true -> full_list r = Some body) /\ (ok r = false -> r.(txs) = []).
Proof.
  intros Hn Hc cb r. set (flags := prefill_flags (length body) prefill_indexes).
  assert (Hl : length flags = length body) by apply prefill_flags_length.
  assert (Hcb : cb = mk_compact_block header (announced_ids flags body) (announced_full 0 flags body))
    by apply announce_spec.
  assert (Hcount : tx_count cb = length body) by (rewrite Hcb; by apply announced_count).
  destruct (fill_slots_announced m 0 flags body [] []) as (r0 & Hf & Hm & Ht);
    [done|done|done|done|].
  assert (Hr : r = if negb (size_of r0.(missing) =? 0) then mk_reconstruct [] r0.(missing) else r0).
  { unfold r, reconstruct. rewrite Hcount. destruct (Nat.eqb_spec (length body) 0) as [E|E].
    - destruct body; [|done]. destruct flags; [|done]. simpl in Hf. by injection Hf as <-.
    - rewrite Hcb at 1. simpl. rewrite announced_in_order by (done || unfold size_of in *; lia).
      simpl. rewrite Hcb at 1 2. simpl. by rewrite Hf. }
  rewrite Hcb. simpl in *. rewrite Hr, size_of_nil_eqb.
  unfold ok, full_list. case_bool_decide as Hd; simpl.
  - rewrite Hd. split_and!; [congruence|by apply announced_count| |done].
    intros _. rewrite <-Ht by congruence. done.
  - split_and!; [congruence|by apply announced_count| |done].
    rewrite size_of_nil_eqb. by rewrite bool_decide_eq_false_2.
Qed.

Lemma no_collision_check m body :
  forallb (fun t => match m !! make_short_tx_id t with
                    | Some t' => bool_decide (t' = t) | None => true end) body = true ->
  Forall (no_collision m) body.
Proof.
  rewrite forallb_forall, Forall_forall. intros H t Ht t' Hl. apply list_elem_of_In in Ht.
  specialize (H t Ht). rewrite Hl in H. by apply bool_decide_eq_true in H.
Qed.

Definition sample_body : list string := ["pay"; "mint"; "vote"].
Definition sample_mempool : mempool_map :=
  <[make_short_tx_id "pay" := "pay"]> (<[make_short_tx_id "vote" := "vote"]> ∅).

Example compact_block_round_trip_witness :
  full_list (reconstruct (make_compact_block [] sample_body [1]) sample_mempool) = Some sample_body.
Proof.
  refine (proj1 (proj2 (proj2 (compact_block_round_trip [] sample_body [1] sample_mempool _ _))) _).
  - reflexivity.
  - apply no_collision_check. vm_compute. reflexivity.
  - vm_compute. reflexivity.
Defined.

(** ** What [ok] means for an announcement from anyone *)

Lemma fill_slots_length m slots i prefs sids r r' prefs' sids' :
  fill_slots m slots i prefs sids r = Some (r', prefs', sids') ->
  length r'.(txs) = (length r.(txs) + slots)%nat.
Proof.
  revert i prefs sids r. induction slots as [|slots IH]; intros i prefs sids r; simpl.
  - intros [= <- <- <-]. lia.
  - repeat case_match; try discriminate; intros Hs; apply IH in Hs; simpl in Hs;
      rewrite length_app in Hs; simpl in Hs; lia.
Qed.

(** A result that says it is complete carries as many transactions as the
    announcement counts, except when the announcement is malformed and has no
    short ids: nothing is then missing and no transaction is returned. *)
Theorem ok_means_whole_unless_all_prefilled (cb : compact_block) (m : mempool_map) :
  ok (reconstruct cb m) = true ->
  length (txs (reconstruct cb m)) = tx_count cb \/
  (cb.(short_ids) = [] /\ reconstruct cb m = mk_reconstruct [] []).
Proof.
  unfold reconstruct. destruct (Nat.eqb_spec (tx_count cb) 0) as [E|E]; [by left|].
  assert (Hmal : ok (mk_reconstruct [] (short_ids cb)) = true ->
    short_ids cb = [] /\ mk_reconstruct [] (short_ids cb) = mk_reconstruct [] []).
  { unfold ok. simpl. rewrite size_of_nil_eqb. case_bool_decide as Hs; [|done]. by rewrite Hs. }
  case_match; [by right; apply Hmal|].
  destruct (fill_slots _ _ _ _ _ _) as [[[r prefs] sids]|] eqn:Ef; [|by right; apply Hmal].
  case_match; [by right; apply Hmal|].
  destruct (negb (size_of (missing r) =? 0)) eqn:Em; [|left; by apply fill_slots_length in Ef].
  unfold ok. simpl. rewrite negb_true_iff in Em. by rewrite Em.
Qed.

(** Such an announcement: one prefilled transaction out of place. *)
Definition out_of_place : compact_block := mk_compact_block [] [] [mk_prefilled 7 "pay"].

Example ok_means_whole_unless_all_prefilled_witness :
  tx_count out_of_place = 1%nat /\
  (length (txs (reconstruct out_of_place ∅)) = tx_count out_of_place \/
   (out_of_place.(short_ids) = [] /\ reconstruct out_of_place ∅ = mk_reconstruct [] [])).
Proof.
  split; [reflexivity|].
  exact (ok_means_whole_unless_all_prefilled out_of_place ∅ eq_refl).
Defined.

(** A malformed announcement can pass for a complete, empty block: one
    prefilled transaction at an index out of range gives [ok()] and an empty
    [full_list], though [tx_count] is one. *)
Theorem malformed_announcement_is_ok :
  exists cb, tx_count cb = 1%nat /\
    forall m, ok (reconstruct cb m) = true /\ full_list (reconstruct cb m) = Some [].
Proof. exists out_of_place. split; [reflexivity|]. intros m. split; reflexivity. Qed.
