(* ===== verification/KnownTx.v ===== *)
(** * xxHash64, the Bloom filter and the known-transaction set

    [include/hive_native/perf/xxhash64.hpp], [bloom.hpp] and [known_tx_set.hpp].
    The pointer that walks the input is the list of bytes from it on; words are
    read in little-endian order, as the hosts the code targets store them. *)
From S2P Require Import Prelude Types.

(** ** xxHash64 *)

Definition add64 (x y : Z) : Z := u64 (x + y).
Definition mul64 (x y : Z) : Z := u64 (x * y).
Definition rotl64 (x r : Z) : Z := Z.lor (u64 (Z.shiftl x r)) (Z.shiftr x (64 - r)).

Definition XXH_PRIME1 : Z := 11400714785074694791.
Definition XXH_PRIME2 : Z := 14029467366897019727.
Definition XXH_PRIME3 : Z := 1609587929392839161.
Definition XXH_PRIME4 : Z := 9650029242287828579.
Definition XXH_PRIME5 : Z := 2870177450012600261.

(** [memcpy(&k, p, n)] into an unsigned integer of [n] bytes. *)
Definition read_le (n : nat) (p : list byte) : Z :=
  foldr (fun b acc => byte_val b + 256 * acc) 0 (take n p).

Definition xxh_round (acc input : Z) : Z :=
  let acc := add64 acc (mul64 input XXH_PRIME2) in
  let acc := rotl64 acc 31 in
  mul64 acc XXH_PRIME1.

Definition xxh_merge (acc v : Z) : Z :=
  let v := mul64 (rotl64 (mul64 v XXH_PRIME2) 31) XXH_PRIME1 in
  add64 (mul64 (Z.lxor acc v) XXH_PRIME1) XXH_PRIME4.

(** The [do ... while(p <= limit)] over stripes of 32 bytes. *)
Fixpoint xxh_stripes (fuel : nat) (v : Z * Z * Z * Z) (p : list byte) : (Z * Z * Z * Z) * list byte :=
  match fuel with
  | O => (v, p)
  | S fuel' =>
      let '(v1, v2, v3, v4) := v in
      let v := (xxh_round v1 (read_le 8 p), xxh_round v2 (read_le 8 (drop 8 p)),
                xxh_round v3 (read_le 8 (drop 16 p)), xxh_round v4 (read_le 8 (drop 24 p))) in
      let p := drop 32 p in
      if 32 <=? size_of p then xxh_stripes fuel' v p else (v, p)
  end.

(** [while(p + 8 <= end)] *)
Fixpoint xxh_words (fuel : nat) (h : Z) (p : list byte) : Z * list byte :=
  match fuel with
  | O => (h, p)
  | S fuel' =>
      if 8 <=? size_of p then
        let k := mul64 (rotl64 (mul64 (read_le 8 p) XXH_PRIME2) 31) XXH_PRIME1 in
        let h := Z.lxor h k in
        xxh_words fuel' (add64 (mul64 (rotl64 h 27) XXH_PRIME1) XXH_PRIME4) (drop 8 p)
      else (h, p)
  end.

(** [while(p < end)] *)
Definition xxh_byte (h : Z) (b : byte) : Z :=
  mul64 (rotl64 (Z.lxor h (mul64 (byte_val b) XXH_PRIME5)) 11) XXH_PRIME1.

Definition xxh_avalanche (h : Z) : Z :=
  let h := mul64 (Z.lxor h (Z.shiftr h 33)) XXH_PRIME2 in
  let h := mul64 (Z.lxor h (Z.shiftr h 29)) XXH_PRIME3 in
  Z.lxor h (Z.shiftr h 32).

Definition xxhash64_bytes (data : list byte) (seed : Z) : Z :=
  let '(h, p) :=
    if 32 <=? size_of data then
      let v := (add64 (add64 seed XXH_PRIME1) XXH_PRIME2, add64 seed XXH_PRIME2, seed,
                u64 (seed - XXH_PRIME1)) in
      let '((v1, v2, v3, v4), p) := xxh_stripes (length data) v data in
      let h := add64 (add64 (add64 (rotl64 v1 1) (rotl64 v2 7)) (rotl64 v3 12)) (rotl64 v4 18) in
      (xxh_merge (xxh_merge (xxh_merge (xxh_merge h v1) v2) v3) v4, p)
    else (add64 seed XXH_PRIME5, data) in
  let h := add64 h (u64 (size_of data)) in
  let '(h, p) := xxh_words (length data) h p in
  let '(h, p) :=
    if 4 <=? size_of p
    then (add64 (mul64 (rotl64 (Z.lxor h (mul64 (read_le 4 p) XXH_PRIME1)) 23) XXH_PRIME2) XXH_PRIME3,
          drop 4 p)
    else (h, p) in
  xxh_avalanche (foldl xxh_byte h p).

Definition xxhash64 (s : string) (seed : Z) : Z := xxhash64_bytes (string_bytes s) seed.

(** ** Bloom filter *)

Record bloom_filter : Type := mk_bloom { bits_ : Z; hashes_ : Z; data_ : list Z }.

Definition new_bloom (bits hashes : Z) : bloom_filter :=
  let b := if bits <? 64 then 64 else bits in
  mk_bloom b (if hashes <? 1 then 1 else hashes) (replicate (Z.to_nat (u64 (b + 63) / 64)) 0).

Definition bloom_clear (f : bloom_filter) : bloom_filter :=
  mk_bloom f.(bits_) f.(hashes_) (replicate (length f.(data_)) 0).

(** The bit of the [i]th hash of [key]. *)
Definition bloom_bit (f : bloom_filter) (key : string) (i : nat) : Z :=
  xxhash64 key (u64 (0x9e3779b97f4a7c15 + u64 (Z.of_nat i * 0x100000001b3))) mod f.(bits_).

Definition set_bit (data : list Z) (bit : Z) : list Z :=
  alter (fun w => Z.lor w (u64 (Z.shiftl 1 (Z.land bit 63)))) (Z.to_nat (Z.shiftr bit 6)) data.
Definition get_bit (data : list Z) (bit : Z) : bool :=
  negb (Z.land (nth (Z.to_nat (Z.shiftr bit 6)) data 0) (u64 (Z.shiftl 1 (Z.land bit 63))) =? 0).

Definition bloom_add (f : bloom_filter) (key : string) : bloom_filter :=
  mk_bloom f.(bits_) f.(hashes_)
    (foldl (fun data i => set_bit data (bloom_bit f key i)) f.(data_) (seq 0 (Z.to_nat f.(hashes_)))).

Definition maybe_contains (f : bloom_filter) (key : string) : bool :=
  forallb (fun i => get_bit f.(data_) (bloom_bit f key i)) (seq 0 (Z.to_nat f.(hashes_))).

(** ** Known transactions *)

Record known_tx_set : Type := mk_known { bloom_ : bloom_filter; exact_ : gset string }.

Definition new_known (bloom_bits bloom_hashes : Z) : known_tx_set :=
  mk_known (new_bloom bloom_bits bloom_hashes) ∅.

(** [exact_.emplace(txid)] tells whether it inserted. *)
Definition known_add (txid : string) (k : known_tx_set) : bool * known_tx_set :=
  if bool_decide (txid ∈ k.(exact_)) then (false, k)
  else (true, mk_known (bloom_add k.(bloom_) txid) ({[ txid ]} ∪ k.(exact_))).

Definition maybe_seen (k : known_tx_set) (txid : string) : bool := maybe_contains k.(bloom_) txid.
Definition definitely_seen (k : known_tx_set) (txid : string) : bool := bool_decide (txid ∈ k.(exact_)).
Definition known_clear (k : known_tx_set) : known_tx_set := mk_known (bloom_clear k.(bloom_)) ∅.
Definition known_size (k : known_tx_set) : Z := Z.of_nat (size k.(exact_)).
Definition bloom_bit_size (k : known_tx_set) : Z := k.(bloom_).(bits_).

(** ** No false negatives *)

(** Every bit has a word to be in. *)
Definition bloom_wf (f : bloom_filter) : Prop :=
  64 <= f.(bits_) /\ f.(bits_) <= 64 * size_of f.(data_).

Lemma new_bloom_wf bits hashes : bits < 2 ^ 64 - 63 -> bloom_wf (new_bloom bits hashes).
Proof.
  intros Hb. unfold bloom_wf, new_bloom, size_of. cbn [bits_ data_]. rewrite length_replicate.
  set (b := if bits <? 64 then 64 else bits).
  assert (64 <= b < 2 ^ 64 - 63) by (unfold b; destruct (Z.ltb_spec bits 64); lia).
  rewrite u64_small by lia. split; [lia|].
  pose proof (Z.div_mod (b + 63) 64 ltac:(lia)). pose proof (Z.mod_pos_bound (b + 63) 64 ltac:(lia)).
  rewrite Z2Nat.id by (apply Z.div_pos; lia). lia.
Qed.

Lemma bloom_bit_range f key i : bloom_wf f -> 0 <= bloom_bit f key i < 64 * size_of f.(data_).
Proof.
  intros [H1 H2]. unfold bloom_bit. pose proof (Z.mod_pos_bound
    (xxhash64 key (u64 (0x9e3779b97f4a7c15 + u64 (Z.of_nat i * 0x100000001b3)))) (bits_ f)
    ltac:(lia)). lia.
Qed.

(** The mask of a bit is the power of two of its position in the word. *)
Lemma bit_mask bit : 0 <= bit -> u64 (Z.shiftl 1 (Z.land bit 63)) = 2 ^ (bit mod 64).
Proof.
  intros Hb. change 63 with (Z.ones 6). rewrite Z.land_ones by lia. change (2 ^ 6) with 64.
  pose proof (Z.mod_pos_bound bit 64 ltac:(lia)). rewrite Z.shiftl_1_l, u64_small; [done|].
  split; [apply Z.pow_nonneg; lia|apply Z.pow_lt_mono_r; lia].
Qed.

Lemma land_pow2 w k : 0 <= k -> negb (Z.land w (2 ^ k) =? 0) = Z.testbit w k.
Proof.
  intros Hk. destruct (Z.testbit w k) eqn:E.
  - apply negb_true_iff, Z.eqb_neq. intros H.
    assert (H2 : Z.testbit (Z.land w (2 ^ k)) k = true) by (rewrite Z.land_spec, E, Z.pow2_bits_true; done).
    rewrite H, Z.bits_0 in H2. done.
  - apply negb_false_iff, Z.eqb_eq. apply Z.bits_inj'. intros n Hn.
    rewrite Z.land_spec, Z.bits_0. destruct (decide (n = k)) as [->|]; [by rewrite E|].
    rewrite Z.pow2_bits_false by lia. apply andb_false_r.
Qed.

Lemma get_bit_testbit data bit : 0 <= bit ->
  get_bit data bit = Z.testbit (nth (Z.to_nat (Z.shiftr bit 6)) data 0) (bit mod 64).
Proof.
  intros Hb. unfold get_bit. rewrite bit_mask by done. apply land_pow2.
  apply Z.mod_pos_bound. lia.
Qed.

Lemma nth_alter (f : Z -> Z) (i j : nat) data :
  nth i (alter f j data) 0 = if decide (i = j /\ (j < length data)%nat) then f (nth i data 0) else nth i data 0.
Proof.
  rewrite !nth_lookup. case_decide as H.
  - destruct H as [-> H]. rewrite list_lookup_alter_eq.
    apply lookup_lt_is_Some in H as [w ->]. done.
  - destruct (decide (i = j)) as [->|Hne]; [|by rewrite list_lookup_alter_ne].
    rewrite list_lookup_alter_eq, (lookup_ge_None_2 data j) by lia. done.
Qed.

(** Setting a bit sets it and clears none. *)
Lemma get_set_bit data bit : 0 <= bit < 64 * size_of data -> get_bit (set_bit data bit) bit = true.
Proof.
  intros Hb. rewrite get_bit_testbit by lia. unfold set_bit. rewrite nth_alter.
  rewrite decide_True.
  2: { split; [done|]. rewrite Z.shiftr_div_pow2 by lia. change (2 ^ 6) with 64.
       unfold size_of in Hb. apply Nat2Z.inj_lt. rewrite Z2Nat.id by (apply Z.div_pos; lia).
       apply Z.div_lt_upper_bound; lia. }
  rewrite Z.lor_spec, bit_mask, Z.pow2_bits_true by (lia || (apply Z.mod_pos_bound; lia)).
  apply orb_true_r.
Qed.
Lemma get_set_bit_mono data bit bit' :
  0 <= bit' -> get_bit data bit' = true -> get_bit (set_bit data bit) bit' = true.
Proof.
  intros Hb. rewrite !get_bit_testbit by done. unfold set_bit. rewrite nth_alter.
  intros H. case_decide; [|done]. by rewrite Z.lor_spec, H.
Qed.
Lemma set_bit_length data bit : length (set_bit data bit) = length data.
Proof. apply length_alter. Qed.

Lemma set_bits_spec f key idxs data :
  (forall i, 0 <= bloom_bit f key i < 64 * size_of data) ->
  let data' := foldl (fun data i => set_bit data (bloom_bit f key i)) data idxs in
  length data' = length data /\
  (forall bit, 0 <= bit -> get_bit data bit = true -> get_bit data' bit = true) /\
  (forall i, i ∈ idxs -> get_bit data' (bloom_bit f key i) = true).
Proof.
  revert data. induction idxs as [|i idxs IH]; intros data Hr; simpl.
  - split_and!; [done|done|]. intros i Hi. by apply elem_of_nil in Hi.
  - destruct (IH (set_bit data (bloom_bit f key i))) as (H1 & H2 & H3).
    { intros j. unfold size_of. rewrite set_bit_length. apply Hr. }
    split_and!.
    + by rewrite H1, set_bit_length.
    + intros bit Hb Hg. apply H2; [done|]. by apply get_set_bit_mono.
    + intros j Hj. apply elem_of_cons in Hj as [->|Hj]; [|by apply H3].
      apply H2; [apply Hr|]. apply get_set_bit, Hr.
Qed.

Lemma bloom_add_spec f key : bloom_wf f ->
  bloom_wf (bloom_add f key) /\ maybe_contains (bloom_add f key) key = true /\
  forall key', maybe_contains f key' = true -> maybe_contains (bloom_add f key) key' = true.
Proof.
  intros Hwf.
  destruct (set_bits_spec f key (seq 0 (Z.to_nat (hashes_ f))) (data_ f)) as (H1 & H2 & H3).
  { intros i. by apply bloom_bit_range. }
  unfold bloom_wf, maybe_contains, bloom_add, size_of in *. cbn [data_ bits_ hashes_] in *.
  rewrite H1. split_and!; [lia|lia|..].
  - apply forallb_forall. intros i Hi. apply H3. by apply list_elem_of_In.
  - intros key' Hk. rewrite forallb_forall in *. intros i Hi. apply H2; [|by apply Hk].
    apply (Z.mod_pos_bound _ (bits_ f)). lia.
Qed.

Lemma shiftr_small n x k : 0 <= k -> 0 <= x < 2 ^ n -> 0 <= Z.shiftr x k < 2 ^ n.
Proof.
  intros Hk Hx. rewrite Z.shiftr_div_pow2 by done. pose proof (Z.pow_pos_nonneg 2 k ltac:(lia) Hk).
  split; [apply Z.div_pos; lia|]. apply Z.div_lt_upper_bound; nia.
Qed.
Lemma xxh_avalanche_range h : 0 <= xxh_avalanche h < 2 ^ 64.
Proof.
  unfold xxh_avalanche, mul64.
  assert (H : forall x k, 0 <= k -> 0 <= Z.lxor (u64 x) (Z.shiftr (u64 x) k) < 2 ^ 64).
  { intros x k Hk. apply lxor_range; [lia|apply u64_range|]. apply shiftr_small; [done|apply u64_range]. }
  by apply H.
Qed.

(** A known-transaction set in good standing. *)
Definition known_wf (k : known_tx_set) : Prop :=
  bloom_wf k.(bloom_) /\ forall txid, txid ∈ k.(exact_) -> maybe_seen k txid = true.

Inductive known_event : Type := known_adds (txid : string) | known_clears.
Definition known_step (k : known_tx_set) (ev : known_event) : known_tx_set :=
  match ev with known_adds t => (known_add t k).2 | known_clears => known_clear k end.

(** The transactions added since the last [clear]. *)
Definition added_step (s : gset string) (ev : known_event) : gset string :=
  match ev with known_adds t => {[ t ]} ∪ s | known_clears => ∅ end.

Lemma known_step_spec k ev : known_wf k ->
  known_wf (known_step k ev) /\ (known_step k ev).(exact_) = added_step k.(exact_) ev.
Proof.
  intros [Hb Hk]. destruct ev as [t|]; simpl.
  - unfold known_add. case_bool_decide as Ht; simpl.
    + split; [by split|]. set_solver.
    + destruct (bloom_add_spec k.(bloom_) t Hb) as (H1 & H2 & H3). split; [|done].
      split; [done|]. intros t' Ht'. unfold maybe_seen. simpl in *.
      apply elem_of_union in Ht' as [Ht'|Ht']; [apply elem_of_singleton in Ht'; by subst|].
      by apply H3, Hk.
  - split; [|done]. split; [|intros t Ht; simpl in Ht; set_solver].
    unfold bloom_wf, bloom_clear, size_of in *. simpl. by rewrite length_replicate.
Qed.

Lemma known_run_spec evs k : known_wf k ->
  known_wf (foldl known_step k evs) /\
  (foldl known_step k evs).(exact_) = foldl added_step k.(exact_) evs.
Proof.
  revert k. induction evs as [|ev evs IH]; intros k Hk; simpl; [done|].
  destruct (known_step_spec k ev Hk) as [H1 <-]. by apply IH.
Qed.

(** C27. The known-transaction set is the set of the transactions added since the
    last clear, and its Bloom filter has no false negative: after any sequence of
    adds and clears, [definitely_seen] is exact, [size] counts, and whatever
    [maybe_seen] denies was not added. *)
Theorem known_set_exact_and_bloom_complete (bits hashes : Z) (evs : list known_event)
  (txid : string) :
  bits < 2 ^ 64 - 63 ->
  let k := foldl known_step (new_known bits hashes) evs in
  let added := foldl added_step ∅ evs in
  definitely_seen k txid = bool_decide (txid ∈ added) /\
  known_size k = Z.of_nat (size added) /\
  (maybe_seen k txid = false -> txid ∉ added).
Proof.
  intros Hb k added.
  destruct (known_run_spec evs (new_known bits hashes)) as [[_ Hk] He].
  { split; [by apply new_bloom_wf|]. intros t Ht. simpl in Ht. set_solver. }
  fold k in Hk, He. change (exact_ (new_known bits hashes)) with (∅ : gset string) in He.
  fold added in He. unfold definitely_seen, known_size. rewrite He.
  split_and!; [done|done|]. intros Hm Ht. rewrite <-He in Ht. apply Hk in Ht. congruence.
Qed.

Example known_set_exact_and_bloom_complete_witness :
  definitely_seen (foldl known_step (new_known 128 3) [known_adds "a"; known_clears; known_adds "b"]) "a"
    = false.
Proof.
  rewrite (proj1 (known_set_exact_and_bloom_complete 128 3
    [known_adds "a"; known_clears; known_adds "b"] "a" ltac:(lia))).
  vm_compute. reflexivity.
Defined.

(** [xxhash64] agrees with the published XXH64 on its short, word and stripe
    paths, and its result is always a 64-bit value. *)
Theorem xxhash64_vectors_and_range :
  xxhash64 "" 0 = 0xef46db3751d8e999 /\ xxhash64 "a" 0 = 0xd24ec4f1a98c6e5b /\
  xxhash64 "abc" 0 = 0x44bc2cf5ad770999 /\
  xxhash64 "Nobody inspects the spammish repetition" 0 = 0xfbcea83c8a378bf1 /\
  forall s seed, 0 <= xxhash64 s seed < 2 ^ 64.
Proof.
  do 4 (apply conj; [vm_compute; reflexivity|]). intros s seed. unfold xxhash64, xxhash64_bytes.
  repeat case_match; apply xxh_avalanche_range.
Qed.
