(* ===== verification/Binary64.v ===== *)
(** * IEEE doubles

    [double] is Stdlib's specification of binary64 (53 bits, exponents up to
    1024), with the operators of C++ on it, [std::llround], and the lemmas on
    rounding and on the order that the clients need. *)
From Stdlib Require Export SpecFloat.
From S2P Require Import Prelude.

Definition prec : Z := 53.
Definition emax : Z := 1024.

Definition double : Type := spec_float.
#[export] Instance double_eq_dec : EqDecision double.
Proof. unfold double. solve_decision. Defined.
Definition d_zero : double := S754_zero false.
(** The double of an integer, rounded to nearest. *)
Definition of_int (z : Z) : double := binary_normalize prec emax z 0 false.
Definition d_div : double -> double -> double := SFdiv prec emax.
Definition d_mul : double -> double -> double := SFmul prec emax.
(** [a < b] and [a <= b]: false when one side is a NaN. *)
Definition d_lt : double -> double -> bool := SFltb.
Definition d_le : double -> double -> bool := SFleb.
Definition is_nan (a : double) : bool := match a with S754_nan => true | _ => false end.

(** The decimal literal [0.1] is the double nearest to the quotient. *)
Definition d_tenth : double := d_div (of_int 1) (of_int 10).
Definition d_hundred : double := of_int 100.

(** [m * 2^e], rounded to the nearest integer, halves up. *)
Definition round_half_up (m e : Z) : Z :=
  if 0 <=? e then m * 2 ^ e else (m + 2 ^ (- e - 1)) / 2 ^ (- e).
(** [std::llround]: halves away from zero; the result is unspecified for a NaN,
    an infinity or a value out of the range of [long long]. *)
Definition llround (a : double) : option Z :=
  match a with
  | S754_zero _ => Some 0
  | S754_finite s m e =>
      let v := cond_Zopp s (round_half_up (Z.pos m) e) in if in_i64 v then Some v else None
  | S754_infinity _ | S754_nan => None
  end.

(** ** Digits and shifts *)

Lemma digits_bounds p : 2 ^ (Z.pos (digits2_pos p) - 1) <= Z.pos p < 2 ^ Z.pos (digits2_pos p).
Proof.
  induction p as [p IH|p IH|]; [| |done]; simpl digits2_pos; rewrite Pos2Z.inj_succ;
    replace (Z.succ (Z.pos (digits2_pos p)) - 1) with (Z.succ (Z.pos (digits2_pos p) - 1)) by lia;
    rewrite !Z.pow_succ_r by lia; lia.
Qed.
Lemma digits_unique p d : 2 ^ (d - 1) <= Z.pos p < 2 ^ d -> Z.pos (digits2_pos p) = d.
Proof.
  intros [Hl Hu]. pose proof (digits_bounds p) as [Hl' Hu'].
  assert (0 <= d) by (destruct (Z.neg_nonneg_cases d); [rewrite (Z.pow_neg_r 2 d) in Hu by lia; lia|lia]).
  assert (d - 1 < Z.pos (digits2_pos p)) by (apply (Z.pow_lt_mono_r_iff 2); lia).
  assert (Z.pos (digits2_pos p) - 1 < d) by (apply (Z.pow_lt_mono_r_iff 2); lia). lia.
Qed.

Lemma shr_1_m mrs : 0 <= shr_m mrs -> shr_m (shr_1 mrs) = shr_m mrs / 2.
Proof.
  destruct mrs as [m r s]. simpl. intros Hm. destruct m as [|[p|p|]|p]; simpl; try done.
  - apply Z.div_unique with 1; lia.
  - apply Z.div_unique with 0; lia.
Qed.
Lemma shr_iter p : forall mrs, 0 <= shr_m mrs ->
  shr_m (SpecFloat.iter_pos shr_1 p mrs) = shr_m mrs / 2 ^ Z.pos p.
Proof.
  assert (Hdiv : forall a n k, 0 <= n -> 0 <= k -> a / 2 ^ n / 2 ^ k = a / 2 ^ (n + k)).
  { intros a n k Hn Hk. by rewrite Z.div_div, Z.pow_add_r by lia. }
  induction p as [p IH|p IH|]; intros mrs Hm; simpl SpecFloat.iter_pos.
  - pose proof (shr_1_m mrs Hm) as H1. assert (0 <= shr_m (shr_1 mrs)) by (rewrite H1; apply Z.div_pos; lia).
    rewrite IH by (rewrite IH by done; apply Z.div_pos; lia). rewrite IH, H1 by done.
    change 2 with (2 ^ 1) at 1. rewrite !Hdiv by lia. do 2 f_equal. lia.
  - rewrite IH by (rewrite IH by done; apply Z.div_pos; lia). rewrite IH by done.
    rewrite Hdiv by lia. do 2 f_equal. lia.
  - by apply shr_1_m.
Qed.

Lemma shr_fexp_spec m e l mrs e' (n : Z) :
  0 <= m -> n = Z.max 0 (fexp prec emax (Zdigits2 m + e) - e) -> shr_fexp prec emax m e l = (mrs, e') ->
  shr_m mrs = m / 2 ^ n /\ e' = e + n.
Proof.
  intros Hm -> H. assert (Hl : shr_m (shr_record_of_loc m l) = m) by (destruct l as [|[]]; done).
  unfold shr_fexp, shr in H. destruct (fexp prec emax (Zdigits2 m + e) - e) as [|p|p]; injection H as <- <-.
  - rewrite Hl, Z.div_1_r. split; [done|lia].
  - rewrite shr_iter, Hl by lia. split; [done|lia].
  - rewrite Hl, Z.div_1_r. split; [done|lia].
Qed.

(** ** Rounding *)

(** The last step of [binary_round_aux]. *)
Definition finish (s : bool) (m e : Z) : double :=
  match m with
  | Z0 => S754_zero s
  | Z.pos m => if e <=? emax - prec then S754_finite s m e else S754_infinity s
  | Z.neg _ => S754_nan
  end.

Lemma nearest_even_step m l : round_nearest_even m l = m \/ round_nearest_even m l = m + 1.
Proof. destruct l as [|[]]; simpl; try case_match; tauto. Qed.

Lemma round_aux_steps s m e l :
  0 <= m ->
  let n := Z.max 0 (fexp prec emax (Zdigits2 m + e) - e) in
  exists k, (k = m / 2 ^ n \/ k = m / 2 ^ n + 1) /\
    let n' := Z.max 0 (fexp prec emax (Zdigits2 k + (e + n)) - (e + n)) in
    binary_round_aux prec emax s m e l = finish s (k / 2 ^ n') (e + n + n').
Proof.
  intros Hm n. unfold binary_round_aux.
  destruct (shr_fexp prec emax m e l) as [mrs e1] eqn:E1.
  apply (shr_fexp_spec _ _ _ _ _ n) in E1 as [H1 ->]; [|done|done].
  exists (round_nearest_even (shr_m mrs) (loc_of_shr_record mrs)).
  destruct (nearest_even_step (shr_m mrs) (loc_of_shr_record mrs)) as [Hk|Hk]; rewrite Hk; rewrite H1 in *.
  all: split; [tauto|]; cbv zeta.
  all: destruct (shr_fexp _ _ _ (e + n) loc_Exact) as [mrs2 e2] eqn:E2.
  all: eapply shr_fexp_spec in E2 as [H2 ->]; [|pose proof (Z.div_pos m (2 ^ n)); lia|reflexivity].
  all: by rewrite <-H2.
Qed.

Lemma fexp_range x : fexp prec emax x = Z.max (x - 53) (-1074).
Proof. done. Qed.

(** How a rounded mantissa with at most 53 digits, or [2^53], is finished. *)
Lemma finish_rounded s k e0 :
  0 <= k <= 2 ^ 53 -> (2 ^ 52 <= k \/ e0 = -1074) -> -1074 <= e0 ->
  let n' := Z.max 0 (fexp prec emax (Zdigits2 k + e0) - e0) in
  finish s (k / 2 ^ n') (e0 + n') =
    if k =? 2 ^ 53 then finish s (2 ^ 52) (e0 + 1) else finish s k e0.
Proof.
  intros Hk Hc He n'. subst n'. rewrite fexp_range. destruct (Z.eqb_spec k (2 ^ 53)) as [->|Hne].
  - change (Zdigits2 (2 ^ 53)) with 54. replace (Z.max 0 _) with 1 by lia. done.
  - replace (Z.max 0 (Z.max (Zdigits2 k + e0 - 53) (-1074) - e0)) with 0; [by rewrite Z.div_1_r, Z.add_0_r|].
    destruct k as [|p|p]; simpl Zdigits2; [lia| |lia]. pose proof (digits_bounds p) as [Hl _].
    assert (Z.pos (digits2_pos p) - 1 < 53) by (apply (Z.pow_lt_mono_r_iff 2); lia). lia.
Qed.

(** Rounding a mantissa of at least 53 digits: keep 53 of them, or one unit in
    the last place more. *)
Lemma round_aux_normal s m e l n :
  0 <= n -> 2 ^ (52 + n) <= m < 2 ^ (53 + n) -> -1074 <= e + n ->
  exists k, (k = m / 2 ^ n \/ k = m / 2 ^ n + 1) /\ 2 ^ 52 <= k <= 2 ^ 53 /\
    binary_round_aux prec emax s m e l =
      if k =? 2 ^ 53 then finish s (2 ^ 52) (e + n + 1) else finish s k (e + n).
Proof.
  intros Hn Hm He. destruct (round_aux_steps s m e l) as (k & Hk & E); [lia|].
  assert (Hd : Zdigits2 m = 53 + n).
  { destruct m as [|p|p]; [lia| |lia]. apply digits_unique. by replace (53 + n - 1) with (52 + n) by lia. }
  assert (Hn' : Z.max 0 (fexp prec emax (Zdigits2 m + e) - e) = n) by (rewrite Hd, fexp_range; lia).
  rewrite Hn' in Hk, E. cbv zeta in E.
  assert (Hq : 2 ^ 52 <= m / 2 ^ n < 2 ^ 53).
  { rewrite !Z.pow_add_r in Hm by lia. split; [apply Z.div_le_lower_bound|apply Z.div_lt_upper_bound]; lia. }
  exists k. split; [done|]. split; [lia|]. rewrite E. apply finish_rounded; lia.
Qed.

(** Mantissa and exponent of a binary64 value. *)
Definition normal_form (m : positive) (e : Z) : Prop :=
  -1074 <= e <= 971 /\ Z.pos m < 2 ^ 53 /\ (e = -1074 \/ 2 ^ 52 <= Z.pos m).

(** Rounding an unsigned value gives an unsigned double in normal form. *)
Definition unsigned_double (a : double) : Prop :=
  match a with
  | S754_zero s | S754_infinity s => s = false
  | S754_finite s m e => s = false /\ normal_form m e
  | S754_nan => False
  end.

Lemma finish_unsigned k e :
  0 <= k < 2 ^ 53 -> (2 ^ 52 <= k \/ e = -1074) -> -1074 <= e -> unsigned_double (finish false k e).
Proof.
  intros Hk Hc He. unfold finish. destruct k as [|p|p]; [done| |lia].
  destruct (Z.leb_spec e (emax - prec)); [|done]. split; [done|]. unfold normal_form, emax, prec in *. lia.
Qed.
Lemma round_aux_unsigned m e l :
  0 <= m -> e <= fexp prec emax (Zdigits2 m + e) -> unsigned_double (binary_round_aux prec emax false m e l).
Proof.
  intros Hm He. destruct (round_aux_steps false m e l Hm) as (k & Hk & E).
  cbv zeta in E. rewrite (fexp_range (Zdigits2 m + e)) in *. set (n := Z.max 0 (_ - e)) in *.
  assert (Hq : m / 2 ^ n < 2 ^ 53 /\ (2 ^ 52 <= m / 2 ^ n \/ e + n = -1074)).
  { destruct m as [|p|p]; [|change (Zdigits2 (Z.pos p)) with (Z.pos (digits2_pos p)) in *|lia].
    - rewrite Z.div_0_l by (apply Z.pow_nonzero; lia). subst n. change (Zdigits2 0) with 0 in *. clear -He. lia.
    - pose proof (digits_bounds p) as [Hl Hu]. set (d := Z.pos (digits2_pos p)) in *.
      assert (0 < 2 ^ n) by (apply Z.pow_pos_nonneg; lia). split.
      + apply Z.div_lt_upper_bound; [lia|]. rewrite <-Z.pow_add_r by lia.
        eapply Z.lt_le_trans; [exact Hu|]. apply Z.pow_le_mono_r; lia.
      + destruct (decide (e + n = -1074)); [tauto|left]. apply Z.div_le_lower_bound; [lia|].
        rewrite <-Z.pow_add_r by lia. etrans; [|exact Hl]. apply Z.pow_le_mono_r; lia. }
  assert (0 <= m / 2 ^ n) by (apply Z.div_pos; lia).
  rewrite E, finish_rounded by lia. destruct (Z.eqb_spec k (2 ^ 53)); apply finish_unsigned; lia.
Qed.

(** ** Quotients of positive doubles *)

Definition positive_double (a : double) : Prop :=
  match a with S754_infinity s => s = false | S754_finite s _ _ => s = false | _ => False end.

Lemma positive_not_le_zero a : is_nan a = false -> d_le a d_zero = false -> positive_double a.
Proof. by destruct a as [s|[]| |[] m e]. Qed.

Lemma div_core_exponent m1 e1 m2 e2 q e' l :
  SFdiv_core_binary prec emax (Z.pos m1) e1 (Z.pos m2) e2 = (q, e', l) ->
  0 <= q /\ e' <= fexp prec emax (Zdigits2 q + e').
Proof.
  unfold SFdiv_core_binary. cbn [Zdigits2].
  set (d1 := Z.pos (digits2_pos m1)). set (d2 := Z.pos (digits2_pos m2)). rewrite fexp_range.
  set (e := Z.min _ _). set (s := e1 - e2 - e). assert (Hs : 0 <= s) by lia.
  replace (match s with Z0 => Z.pos m1 | Z.pos _ => Z.shiftl (Z.pos m1) s | Z.neg _ => 0 end)
    with (Z.pos m1 * 2 ^ s) by (destruct s; [by rewrite Z.mul_1_r|by rewrite Z.shiftl_mul_pow2|lia]).
  destruct (Z.div_eucl _ _) as [q0 r0] eqn:Eq. intros [= <- <- _].
  assert (Hq : q0 = Z.pos m1 * 2 ^ s / Z.pos m2) by (unfold Z.div; by rewrite Eq).
  assert (0 < 2 ^ s) by (apply Z.pow_pos_nonneg; lia).
  assert (Hq0 : 0 <= q0) by (rewrite Hq; apply Z.div_pos; lia). split; [done|].
  rewrite fexp_range. destruct (decide (d1 + s - d2 <= 0)) as [Hd|Hd].
  { assert (0 <= Zdigits2 q0) by (destruct q0; simpl; lia). lia. }
  assert (Hlow : 2 ^ (d1 + s - d2 - 1) <= q0).
  { rewrite Hq. apply Z.div_le_lower_bound; [lia|].
    pose proof (digits_bounds m1) as [Hl1 _]. pose proof (digits_bounds m2) as [_ Hu2].
    fold d1 in Hl1. fold d2 in Hu2. trans (2 ^ d2 * 2 ^ (d1 + s - d2 - 1)).
    - apply Z.mul_le_mono_nonneg_r; [apply Z.pow_nonneg; lia|lia].
    - rewrite <-Z.pow_add_r by lia. replace (d2 + (d1 + s - d2 - 1)) with (d1 - 1 + s) by lia.
      rewrite Z.pow_add_r by lia. by apply Z.mul_le_mono_nonneg_r; [lia|]. }
  assert (d1 + s - d2 <= Zdigits2 q0); [|lia].
  destruct q0 as [|p|p]; [|cbn [Zdigits2]|lia].
  - assert (0 < 2 ^ (d1 + s - d2 - 1)) by (apply Z.pow_pos_nonneg; lia). lia.
  - pose proof (digits_bounds p) as [_ Hu].
    assert (d1 + s - d2 - 1 < Z.pos (digits2_pos p)) by (apply (Z.pow_lt_mono_r_iff 2); lia). lia.
Qed.

(** The quotient of two positive doubles is a number in normal form, zero or
    infinite; it is a NaN only when both are infinite. *)
Lemma d_div_unsigned a b :
  positive_double a -> positive_double b ->
  unsigned_double (d_div a b) \/ (a = S754_infinity false /\ b = S754_infinity false /\ d_div a b = S754_nan).
Proof.
  destruct a as [sa|sa| |sa ma ea], b as [sb|sb| |sb mb eb]; simpl; intros Ha Hb; try done; subst; simpl;
    [by right|by left|by left|left].
  unfold d_div, SFdiv. destruct (SFdiv_core_binary _ _ _ _ _ _) as [[q e] l] eqn:E.
  apply div_core_exponent in E as [Hq He]. by apply round_aux_unsigned.
Qed.

(** ** The order *)

(** Doubles by their place on the line, NaNs last. *)
Definition d_key (a : double) : Z * Z * Z :=
  match a with
  | S754_infinity s => (if s then -2 else 2, 0, 0)
  | S754_zero _ => (0, 0, 0)
  | S754_finite false m e => (1, e, Z.pos m)
  | S754_finite true m e => (-1, - e, Z.neg m)
  | S754_nan => (3, 0, 0)
  end.
Definition lex_le (x y : Z * Z * Z) : Prop :=
  x.1.1 < y.1.1 \/ (x.1.1 = y.1.1 /\ (x.1.2 < y.1.2 \/ (x.1.2 = y.1.2 /\ x.2 <= y.2))).
#[export] Instance lex_le_dec : RelDecision lex_le.
Proof. intros x y. unfold lex_le. apply _. Defined.
#[export] Instance lex_le_trans : Transitive lex_le.
Proof. intros x y z. unfold lex_le. lia. Qed.
#[export] Instance lex_le_antisymm : AntiSymm eq lex_le.
Proof.
  intros [[x1 x2] x3] [[y1 y2] y3]. unfold lex_le. simpl. intros H1 H2.
  assert (x1 = y1 /\ x2 = y2 /\ x3 = y3) as (-> & -> & ->) by lia. done.
Qed.

Definition d_before (a b : double) : Prop := lex_le (d_key a) (d_key b).
#[export] Instance d_before_dec : RelDecision d_before.
Proof. intros a b. unfold d_before. apply _. Defined.
#[export] Instance d_before_total : Total d_before.
Proof. intros a b. unfold d_before, lex_le. lia. Qed.
#[export] Instance d_before_refl : Reflexive d_before.
Proof. intros a. unfold d_before, lex_le. lia. Qed.
#[export] Instance d_before_trans : Transitive d_before.
Proof. intros a b c. unfold d_before. apply transitivity. Qed.

Lemma d_le_before a b :
  is_nan a = false -> is_nan b = false -> d_le a b = true <-> d_before a b.
Proof.
  unfold d_le, SFleb, d_before, lex_le.
  destruct a as [[]|[]| |[] m e], b as [[]|[]| |[] m' e']; simpl; intros; try done; try (split; [intros _; lia|done]);
    try (split; [done|lia]);
    change (Pos.compare_cont Eq m m') with (Pos.compare m m');
    destruct (Z.compare_spec e e'), (Pos.compare_spec m m'); simpl; split; (done || lia).
Qed.

(** Doubles that compare equal are equal, but for the sign of a zero. *)
Lemma d_key_inj a b : d_key a = d_key b -> a = b \/ (exists s s', a = S754_zero s /\ b = S754_zero s').
Proof.
  destruct a as [[]|[]| |[] m e], b as [[]|[]| |[] m' e']; simpl; intros H; try discriminate H; eauto;
    injection H as ? ?; left; f_equal; (congruence || lia).
Qed.
