(* ===== verification/RcCalibrator.v ===== *)
(** * RC calibration from measured times ([include/hive_native/perf/rc_calibrator.hpp])

    Wall-time samples per operation, the median of each, and the RC figure of an
    operation relative to a transfer, in IEEE doubles ([Binary64]). Two things the
    language leaves open are kept apart. [std::llround] of a NaN returns some
    number and goes on: that number is a parameter, [unspecified]. [None] is a
    median that is not determined, because NaNs and numbers are mixed among the
    samples: [<] is no order for [std::nth_element] then (undefined behaviour), or,
    if the numbers are all equal, which sample comes out is open. *)
From S2P Require Import Prelude Types Costs Binary64.

Record rc_sample : Type := mk_rc_sample { sample_op : string; wall_us : double }.

(** [samples_]: from an operation's name to its samples, in the order added. *)
Definition rc_calibrator : Type := gmap string (list double).
Definition empty_calibrator : rc_calibrator := ∅.

Definition rc_add (op : string) (wall_us : double) (c : rc_calibrator) : rc_calibrator :=
  <[op := default [] (c !! op) ++ [wall_us]]> c.

(** [<] determines the order of the samples unless NaNs and numbers mix. *)
Definition orderable (v : list double) : bool := forallb is_nan v || negb (existsb is_nan v).

(** [std::nth_element(v.begin(), v.begin() + k, v.end()); v[k]]: the element a
    sorted [v] has there (zeros compare equal, so the sign of a zero is open). *)
Definition nth_element (v : list double) (k : nat) : option double :=
  if orderable v then merge_sort d_before v !! k else None.

Definition median_us (c : rc_calibrator) (op : string) : option double :=
  match c !! op with
  | None | Some [] => Some d_zero
  | Some v => nth_element v (length v / 2)
  end.

(** [unspecified] is what [std::llround] returns for a NaN. *)
Definition calibrated_rc (unspecified : Z) (c : rc_calibrator) (op : string) : option Z :=
  base ← median_us c "transfer";
  opm ← median_us c op;
  if d_le base d_zero || d_le opm d_zero then Some TRANSFER_BASE else
  let ratio := d_div opm base in
  let ratio := if d_lt ratio d_tenth then d_tenth else ratio in
  let ratio := if d_lt d_hundred ratio then d_hundred else ratio in
  Some (u64 (default unspecified (llround (d_mul (of_int TRANSFER_BASE) ratio)))).

Definition op_count (c : rc_calibrator) : Z := Z.of_nat (size c).

(** A calibrator after a list of measurements. *)
Definition measure (l : list rc_sample) (c : rc_calibrator) : rc_calibrator :=
  foldl (fun c s => rc_add s.(sample_op) s.(wall_us) c) c l.

(** The run of [tests/test_perf.cpp]. *)
Definition test_calibrator : rc_calibrator :=
  measure [mk_rc_sample "transfer" (of_int 100); mk_rc_sample "transfer" (of_int 120);
    mk_rc_sample "transfer" (of_int 110); mk_rc_sample "nft_transfer" (of_int 220);
    mk_rc_sample "nft_transfer" (of_int 230)] empty_calibrator.

Example test_median : median_us test_calibrator "transfer" = Some (of_int 110).
Proof. vm_compute. reflexivity. Qed.
Example test_calibrated u : calibrated_rc u test_calibrator "nft_transfer" = Some 2091.
Proof. vm_compute. reflexivity. Qed.

(** ** The scaled ratio *)

(** [of_int 1000], [d_tenth] and [d_hundred] in mantissa and exponent. *)
Lemma scale_value : of_int TRANSFER_BASE = S754_finite false 8796093022208000 (-43).
Proof. reflexivity. Qed.
Lemma tenth_value : d_tenth = S754_finite false 7205759403792794 (-56).
Proof. vm_compute. reflexivity. Qed.
Lemma hundred_value : d_hundred = S754_finite false 7036874417766400 (-46).
Proof. reflexivity. Qed.

(** A ratio between 0.1 and 100.0. *)
Definition clamped (m : positive) (e : Z) : Prop :=
  2 ^ 52 <= Z.pos m < 2 ^ 53 /\ (-56 < e \/ (e = -56 /\ 7205759403792794 <= Z.pos m)) /\
  (e < -46 \/ (e = -46 /\ Z.pos m <= 7036874417766400)).

Definition at_least_tenth (m : positive) (e : Z) : Prop :=
  2 ^ 52 <= Z.pos m < 2 ^ 53 /\ (-56 < e \/ (e = -56 /\ 7205759403792794 <= Z.pos m)).

Lemma lt_finite m e m' e' :
  d_lt (S754_finite false m e) (S754_finite false m' e') = (e <? e') || ((e =? e') && (Z.pos m <? Z.pos m')).
Proof.
  unfold d_lt, SFltb, SFcompare. change (Pos.compare_cont Eq m m') with (Pos.compare m m').
  unfold Z.ltb, Z.eqb. change (Z.pos m ?= Z.pos m') with (Pos.compare m m').
  destruct (Z.compare_spec e e') as [->| |]; simpl.
  - fold (Z.eqb e' e'). rewrite Z.eqb_refl. by destruct (Pos.compare m m').
  - done.
  - fold (Z.eqb e e'). destruct (Z.eqb_spec e e'); [lia|done].
Qed.

Lemma clamp_low a :
  unsigned_double a ->
  let r := if d_lt a d_tenth then d_tenth else a in
  r = S754_infinity false \/ exists m e, r = S754_finite false m e /\ at_least_tenth m e.
Proof.
  rewrite tenth_value. unfold at_least_tenth. intros Ha.
  destruct a as [s|s| |s m e]; simpl in Ha; [right|by subst; left|done|right].
  - subst. do 2 eexists. split; [reflexivity|lia].
  - destruct Ha as [-> (He & Hm & Hc)]. rewrite lt_finite.
    destruct (_ || _) eqn:E; do 2 eexists; (split; [reflexivity|]); [lia|guards; lia].
Qed.
Lemma clamp_high a :
  (a = S754_infinity false \/ exists m e, a = S754_finite false m e /\ at_least_tenth m e) ->
  exists m e, (if d_lt d_hundred a then d_hundred else a) = S754_finite false m e /\ clamped m e.
Proof.
  rewrite hundred_value. unfold at_least_tenth, clamped. intros [->|(m & e & -> & Hm & Hl)].
  - do 2 eexists. split; [reflexivity|lia].
  - rewrite lt_finite. destruct (_ || _) eqn:E; do 2 eexists; (split; [reflexivity|]); [lia|guards; lia].
Qed.

(** A rounded mantissa and exponent that stand for 100 to 100000. *)
Lemma llround_finish k e0 :
  0 < k -> -60 <= e0 < 0 ->
  100 * 2 ^ (- e0) - 2 ^ (- e0 - 1) <= k -> k + 2 ^ (- e0 - 1) < 100001 * 2 ^ (- e0) ->
  exists r, llround (finish false k e0) = Some r /\ 100 <= r <= 100000.
Proof.
  intros Hk He Hl Hu. destruct k as [|p|p]; [lia| |lia]. unfold finish.
  destruct (Z.leb_spec e0 (emax - prec)) as [_|Hc]; [|unfold emax, prec in Hc; lia].
  simpl llround. unfold round_half_up. destruct (Z.leb_spec 0 e0); [lia|].
  assert (0 < 2 ^ (- e0)) by (apply Z.pow_pos_nonneg; lia).
  set (r := (Z.pos p + 2 ^ (- e0 - 1)) / 2 ^ (- e0)).
  assert (Hr : 100 <= r <= 100000).
  { split; [apply Z.div_le_lower_bound; lia|]. apply Z.lt_succ_r. apply Z.div_lt_upper_bound; lia. }
  exists r. unfold cond_Zopp. rewrite (proj2 (in_i64_true r)) by (unfold INT64_MIN, INT64_MAX; lia). done.
Qed.

Lemma scaled_range m e :
  clamped m e ->
  exists r, llround (d_mul (of_int TRANSFER_BASE) (S754_finite false m e)) = Some r /\ 100 <= r <= 100000.
Proof.
  intros (Hm & Hl & Hu). rewrite scale_value. unfold d_mul. cbn [SFmul xorb].
  set (P := Z.pos (8796093022208000 * m)).
  assert (HP : P = 8796093022208000 * Z.pos m) by done. clearbody P.
  assert (Hn : exists n, (n = 52 \/ n = 53) /\ 2 ^ (52 + n) <= P < 2 ^ (53 + n)).
  { destruct (decide (P < 2 ^ 105)); [exists 52|exists 53]; (split; [lia|]); lia. }
  destruct Hn as (n & Hn & HPn).
  destruct (round_aux_normal false P (-43 + e) loc_Exact n) as (k & Hk & Hk53 & E); [lia|done|lia|].
  rewrite E. clear E. assert (0 < 2 ^ n) by (apply Z.pow_pos_nonneg; lia).
  pose proof (Z.mul_div_le P (2 ^ n)) as Hq1. pose proof (Z.mul_succ_div_gt P (2 ^ n)) as Hq2.
  set (q := P / 2 ^ n) in *. clearbody q. unfold Z.succ in Hq2.
  assert (He : e = -56 \/ e = -55 \/ e = -54 \/ e = -53 \/ e = -52 \/ e = -51 \/ e = -50 \/ e = -49 \/
               e = -48 \/ e = -47 \/ e = -46) by lia.
  destruct (Z.eqb_spec k (2 ^ 53)); apply llround_finish; try lia.
  all: destruct Hn as [-> | ->]; repeat (destruct He as [->|He]; [..|subst]); lia.
Qed.

(** ** Medians *)

(** Every sample of [op] is a finite double. *)
Definition is_finite (a : double) : bool :=
  match a with S754_zero _ | S754_finite _ _ _ => true | _ => false end.
Definition samples_of (c : rc_calibrator) (op : string) : list double := default [] (c !! op).
Definition well_measured (c : rc_calibrator) (op : string) : Prop :=
  forallb is_finite (samples_of c op) = true.

Lemma nth_element_elem v k x : nth_element v k = Some x -> x ∈ v.
Proof.
  unfold nth_element. case_match; [|done]. intros Hx. apply list_elem_of_lookup_2 in Hx.
  by rewrite merge_sort_Permutation in Hx.
Qed.
Lemma nth_element_defined v k : orderable v = true -> (k < length v)%nat -> is_Some (nth_element v k).
Proof.
  intros Ho Hk. unfold nth_element. rewrite Ho. apply lookup_lt_is_Some.
  by rewrite (Permutation_length (merge_sort_Permutation _ _)).
Qed.

Lemma well_measured_median c op :
  well_measured c op -> exists x, median_us c op = Some x /\ is_finite x = true.
Proof.
  unfold well_measured, samples_of, median_us. destruct (c !! op) as [[|a v]|]; simpl default; intros Hf;
    [by eexists| |by eexists]. set (w := a :: v) in *.
  destruct (nth_element_defined w (length w / 2)) as [x Hx].
  - unfold orderable. apply orb_true_iff. right. apply negb_true_iff, not_true_iff_false.
    intros (x & Hin & Hn)%existsb_exists. apply (proj1 (forallb_forall _ _) Hf) in Hin. by destruct x.
  - apply Nat.div_lt; simpl; lia.
  - exists x. split; [done|]. apply nth_element_elem, list_elem_of_In in Hx.
    by apply (proj1 (forallb_forall _ _) Hf).
Qed.

(** The median of a set of samples: at most [k] of them are less, more than [k]
    are not greater. *)
Fixpoint count (p : double -> bool) (v : list double) : nat :=
  match v with [] => 0%nat | x :: v' => if p x then S (count p v') else count p v' end.

Lemma sorted_split (l : list double) k x :
  StronglySorted d_before l -> l !! k = Some x ->
  Forall (fun y => d_before y x) (take (S k) l) /\ Forall (fun y => d_before x y) (drop k l).
Proof.
  intros Hs. revert k. induction Hs as [|a l Hs IH Ha]; intros [|k]; simpl; try done.
  - intros [= ->]. split; [constructor; [reflexivity|by rewrite take_0]|by constructor; [reflexivity|]].
  - intros Hk. destruct (IH k Hk) as [H1 H2]. split; [|done]. constructor; [|done].
    rewrite Forall_forall in Ha. apply Ha. by eapply list_elem_of_lookup_2.
Qed.

Lemma count_perm p v w : v ≡ₚ w -> count p v = count p w.
Proof. induction 1; simpl; repeat case_match; congruence. Qed.
Lemma count_app p v w : count p (v ++ w) = (count p v + count p w)%nat.
Proof. induction v as [|x v IH]; simpl; [done|]. rewrite IH. by case_match. Qed.
Lemma count_le p v : (count p v <= length v)%nat.
Proof. induction v; simpl; [done|]. case_match; lia. Qed.
Lemma count_all p v : Forall (fun x => p x = true) v -> count p v = length v.
Proof. induction 1 as [|x v Hx _ IH]; simpl; [done|]. by rewrite Hx, IH. Qed.
Lemma count_none p v : Forall (fun x => p x = false) v -> count p v = 0%nat.
Proof. induction 1 as [|x v Hx _ IH]; simpl; [done|]. by rewrite Hx. Qed.

Definition no_nan (v : list double) : Prop := existsb is_nan v = false.
Lemma no_nan_elem v x : no_nan v -> x ∈ v -> is_nan x = false.
Proof.
  intros Hv Hx. apply not_true_iff_false. intros Hn. unfold no_nan in Hv. apply not_true_iff_false in Hv.
  apply Hv, existsb_exists. exists x. split; [by apply list_elem_of_In|done].
Qed.
Lemma d_lt_before a b : is_nan a = false -> is_nan b = false -> d_lt a b = true <-> ~ d_before b a.
Proof.
  intros Ha Hb. rewrite <-d_le_before by done. unfold d_lt, d_le, SFltb, SFleb.
  assert (Hc : exists c, SFcompare a b = Some c /\ SFcompare b a = Some (CompOpp c)).
  { destruct a as [[]|[]| |[] m e], b as [[]|[]| |[] m' e']; try done; try (by eexists); simpl;
      change (Pos.compare_cont Eq m m') with (Pos.compare m m');
      change (Pos.compare_cont Eq m' m) with (Pos.compare m' m);
      (eexists; split; [reflexivity|]); rewrite (Z.compare_antisym e e'), (Pos.compare_antisym m m');
      by destruct (e ?= e'), (Pos.compare m m'). }
  destruct Hc as (c & -> & ->). by destruct c.
Qed.

(** [nth_element] is the order statistic, whatever the order of the samples. *)
Lemma nth_element_rank v k x :
  no_nan v -> nth_element v k = Some x ->
  (count (fun y => d_lt y x) v <= k < count (fun y => d_le y x) v)%nat.
Proof.
  intros Hv Hx. pose proof (nth_element_elem _ _ _ Hx) as Hxv.
  unfold nth_element in Hx. case_match; [|done].
  pose proof (merge_sort_Permutation d_before v) as Hp.
  pose proof (StronglySorted_merge_sort d_before v) as Hs. set (l := merge_sort d_before v) in *.
  destruct (sorted_split l k x Hs Hx) as [H1 H2].
  pose proof (lookup_lt_Some _ _ _ Hx) as Hlen.
  assert (Hnan : forall y, y ∈ l -> is_nan y = false) by (intros y; rewrite Hp; by apply no_nan_elem).
  pose proof (no_nan_elem _ _ Hv Hxv) as Hxn. rewrite <-!(count_perm _ _ _ Hp). split.
  - rewrite <-(take_drop k l), count_app.
    rewrite (count_none _ (drop k l)).
    + pose proof (count_le (fun y => d_lt y x) (take k l)). rewrite length_take in *. lia.
    + rewrite Forall_forall in H2 |- *. intros y Hy. apply not_true_iff_false. rewrite d_lt_before.
      * intros Hn. by apply Hn, H2.
      * apply Hnan. by eapply subseteq_drop.
      * done.
  - rewrite <-(take_drop (S k) l), count_app, (count_all _ (take (S k) l)).
    + rewrite length_take. lia.
    + rewrite Forall_forall in H1 |- *. intros y Hy. apply d_le_before; [|done|by apply H1].
      apply Hnan. by eapply subseteq_take.
Qed.

(** Samples in another order sort to the same doubles, but for the signs of zeros. *)
Lemma sort_perm_keys v w : v ≡ₚ w -> d_key <$> merge_sort d_before v = d_key <$> merge_sort d_before w.
Proof.
  intros Hp.
  assert (Hs : forall u, StronglySorted lex_le (d_key <$> merge_sort d_before u)).
  { intros u. pose proof (StronglySorted_merge_sort d_before u) as H. induction H as [|a l _ IH Ha]; [constructor|].
    simpl. constructor; [done|]. by apply Forall_fmap. }
  apply (StronglySorted_unique lex_le); [done..|]. by rewrite !merge_sort_Permutation, Hp.
Qed.
Lemma orderable_perm v w : v ≡ₚ w -> orderable v = orderable w.
Proof.
  intros Hp. unfold orderable. f_equal; [|f_equal]; apply eq_true_iff_eq.
  - rewrite !forallb_forall. setoid_rewrite <-list_elem_of_In. by setoid_rewrite Hp.
  - rewrite !existsb_exists. setoid_rewrite <-list_elem_of_In. by setoid_rewrite Hp.
Qed.

(** Equal but for the sign of a zero. *)
Definition same_double (a b : double) : Prop := d_key a = d_key b.

Lemma nth_element_perm v w k : v ≡ₚ w ->
  d_key <$> nth_element v k = d_key <$> nth_element w k.
Proof.
  intros Hp. unfold nth_element. rewrite (orderable_perm v w Hp). case_match; [|done].
  by rewrite <-!list_lookup_fmap, (sort_perm_keys v w Hp).
Qed.
Lemma median_perm c d op : samples_of c op ≡ₚ samples_of d op ->
  d_key <$> median_us c op = d_key <$> median_us d op.
Proof.
  unfold samples_of, median_us. intros Hp.
  assert (He : forall o : option (list double),
    match o with None | Some [] => Some d_zero | Some v => nth_element v (length v / 2) end =
    match default [] o with [] => Some d_zero | _ :: _ => nth_element (default [] o) (length (default [] o) / 2) end).
  { by intros [[|]|]. }
  rewrite (He (c !! op)), (He (d !! op)).
  destruct (default [] (c !! op)) as [|x v], (default [] (d !! op)) as [|y w]; [done|..].
  - by apply Permutation_nil_l in Hp.
  - symmetry in Hp. by apply Permutation_nil_l in Hp.
  - rewrite (Permutation_length Hp). by apply nth_element_perm.
Qed.

(** The samples of an operation in a list of measurements. *)
Definition of_op (op : string) (l : list rc_sample) : list double :=
  omap (fun s => if String.eqb s.(sample_op) op then Some s.(wall_us) else None) l.
Lemma samples_of_measure l c op : samples_of (measure l c) op = samples_of c op ++ of_op op l.
Proof.
  unfold measure. induction l as [|[o x] l IH] in c |- *; cbn [foldl]; [by rewrite app_nil_r|].
  rewrite IH. unfold of_op. cbn [omap list_omap sample_op wall_us]. unfold samples_of, rc_add, rc_calibrator in *.
  destruct (String.eqb_spec o op) as [->|Hne].
  - rewrite lookup_insert_eq. simpl default. by rewrite <-(assoc_L (++)).
  - by rewrite lookup_insert_ne.
Qed.

(** ** The calibrated figure *)

(** [calibrated_rc] from the two medians. *)
Definition scaled_rc (unspecified : Z) (base opm : double) : Z :=
  if d_le base d_zero || d_le opm d_zero then TRANSFER_BASE else
  let ratio := d_div opm base in
  let ratio := if d_lt ratio d_tenth then d_tenth else ratio in
  let ratio := if d_lt d_hundred ratio then d_hundred else ratio in
  u64 (default unspecified (llround (d_mul (of_int TRANSFER_BASE) ratio))).
Lemma calibrated_rc_scaled u c op :
  calibrated_rc u c op = base ← median_us c "transfer"; opm ← median_us c op; Some (scaled_rc u base opm).
Proof.
  unfold calibrated_rc, scaled_rc. destruct (median_us c "transfer"); [|done]. simpl.
  destruct (median_us c op); [|done]. simpl. by case_match.
Qed.

Lemma scaled_rc_same u base base' opm opm' :
  same_double base base' -> same_double opm opm' -> scaled_rc u base opm = scaled_rc u base' opm'.
Proof.
  intros [->|(s & s' & -> & ->)]%d_key_inj [->|(t & t' & -> & ->)]%d_key_inj; unfold scaled_rc; try done.
  by rewrite !orb_true_r.
Qed.

(** The ratio of two medians is a NaN: one of them is, or both are infinite. *)
Definition nan_ratio (base opm : double) : bool :=
  is_nan base || is_nan opm ||
  match base, opm with S754_infinity false, S754_infinity false => true | _, _ => false end.

(** The clamp lets a NaN through. *)
Lemma scaled_rc_nan u base opm :
  d_le base d_zero || d_le opm d_zero = false -> nan_ratio base opm = true -> scaled_rc u base opm = u64 u.
Proof.
  unfold scaled_rc. intros -> H.
  assert (E : d_div opm base = S754_nan).
  { destruct base as [|[]| |], opm as [|[]| |]; try done. }
  by rewrite E.
Qed.

(** Positive medians that are not both infinite give a figure in range. *)
Lemma scaled_rc_positive u base opm :
  d_le base d_zero || d_le opm d_zero = false -> nan_ratio base opm = false ->
  100 <= scaled_rc u base opm <= 100000.
Proof.
  intros Hz [[Hb Ho]%orb_false_iff Hinf]%orb_false_iff. unfold scaled_rc. rewrite Hz.
  apply orb_false_iff in Hz as [Hzb Hzo].
  apply positive_not_le_zero in Hzb; [|done]. apply positive_not_le_zero in Hzo; [|done]. cbv zeta.
  destruct (d_div_unsigned opm base Hzo Hzb) as [Hu|(-> & -> & _)]; [|done].
  destruct (clamp_high _ (clamp_low _ Hu)) as (m & e & -> & Hc).
  destruct (scaled_range m e Hc) as (r & -> & Hr). simpl default. by rewrite u64_small by lia.
Qed.

(** The medians of finite samples do not divide to a NaN. *)
Lemma finite_ratio base opm : is_finite base = true -> is_finite opm = true -> nan_ratio base opm = false.
Proof. by destruct base, opm. Qed.

Lemma median_undetermined c op : median_us c op = None <-> orderable (samples_of c op) = false.
Proof.
  unfold median_us, samples_of. destruct (c !! op) as [[|a v]|]; simpl default; [done| |done].
  set (w := a :: v). destruct (orderable w) eqn:E.
  - destruct (nth_element_defined w (length w / 2) E) as [x ->]; [|done]. apply Nat.div_lt; simpl; lia.
  - split; [done|]. intros _. unfold nth_element. by rewrite E.
Qed.
Lemma no_samples_median c op : samples_of c op = [] -> median_us c op = Some d_zero.
Proof. unfold samples_of, median_us. by destruct (c !! op) as [[|]|]. Qed.

(** C35. What the clamp guarantees, and what it does not. The figure of an
    operation is determined by the two medians: it is [TRANSFER_BASE] when one of
    them is zero or negative; when their ratio is a NaN (a median is a NaN, or both
    are infinite) the clamp lets the NaN through and the figure is whatever
    [std::llround] returns for it; in all other cases it is between 100 and 100000,
    a tenth of to a hundred times the cost of a transfer, in spite of the rounding
    of the division, of the product and of [llround] and of subnormal and infinite
    medians. So if every sample of the operation and of the transfer is finite, the
    figure is between 100 and 100000, and it is [TRANSFER_BASE] if one of them has
    no sample. It is not determined only if NaNs and numbers are mixed among the
    samples of one of them. *)
Theorem calibrated_rc_bounds (unspecified : Z) (c : rc_calibrator) (op : string) :
  (forall base opm, median_us c "transfer" = Some base -> median_us c op = Some opm ->
     exists r, calibrated_rc unspecified c op = Some r /\
       if d_le base d_zero || d_le opm d_zero then r = TRANSFER_BASE
       else if nan_ratio base opm then r = u64 unspecified
       else 100 <= r <= 100000) /\
  (well_measured c "transfer" -> well_measured c op ->
     exists r, calibrated_rc unspecified c op = Some r /\ 100 <= r <= 100000 /\
       (samples_of c "transfer" = [] \/ samples_of c op = [] -> r = TRANSFER_BASE)) /\
  (calibrated_rc unspecified c op = None <->
     orderable (samples_of c "transfer") = false \/ orderable (samples_of c op) = false).
Proof.
  rewrite calibrated_rc_scaled. split_and!.
  - intros base opm -> ->. eexists. split; [done|]. destruct (d_le base d_zero || d_le opm d_zero) eqn:Hz.
    + unfold scaled_rc. by rewrite Hz.
    + destruct (nan_ratio base opm) eqn:Hn; [by apply scaled_rc_nan|by apply scaled_rc_positive].
  - intros Ht Ho. destruct (well_measured_median _ _ Ht) as (base & Eb & Hb).
    destruct (well_measured_median _ _ Ho) as (opm & Eo & Hf). rewrite Eb, Eo. eexists. split; [done|]. split.
    + destruct (d_le base d_zero || d_le opm d_zero) eqn:Hz; [unfold scaled_rc; by rewrite Hz|].
      apply scaled_rc_positive; [done|by apply finite_ratio].
    + unfold scaled_rc. intros [E|E]; apply no_samples_median in E; [rewrite Eb in E|rewrite Eo in E];
        injection E as ->; [done|by rewrite orb_true_r].
  - rewrite <-!median_undetermined. destruct (median_us c "transfer"), (median_us c op); naive_solver.
Qed.

Example calibrated_rc_bounds_witness :
  (exists r, calibrated_rc 0 test_calibrator "nft_transfer" = Some r /\ 100 <= r <= 100000) /\
  calibrated_rc 0 test_calibrator "htlc_create" = Some 1000 /\
  calibrated_rc INT64_MIN (rc_add "transfer" S754_nan test_calibrator) "transfer" = None.
Proof.
  split_and!.
  - destruct (calibrated_rc_bounds 0 test_calibrator "nft_transfer") as (_ & H & _).
    destruct H as (r & E & Hr & _); [reflexivity..|]. exists r. split; [exact E|exact Hr].
  - destruct (calibrated_rc_bounds 0 test_calibrator "htlc_create") as (_ & H & _).
    destruct H as (r & E & _ & Hr); [reflexivity..|]. rewrite E, Hr; [reflexivity|right; reflexivity].
  - apply (calibrated_rc_bounds INT64_MIN (rc_add "transfer" S754_nan test_calibrator) "transfer").
    left. vm_compute. reflexivity.
Defined.

(** C36. The median and the figure depend on the measurements and not on the
    order in which they came in: [median_us] is the order statistic (at most half
    of the samples are less, more than half are not greater), and measuring the
    same samples in another order gives the same calibrated figure (as long as
    [llround] returns the same number for a NaN). *)
Theorem calibration_ignores_order (unspecified : Z) (l l' : list rc_sample) (c : rc_calibrator) (op : string) :
  l ≡ₚ l' ->
  calibrated_rc unspecified (measure l c) op = calibrated_rc unspecified (measure l' c) op /\
  (forall x, let v := samples_of (measure l c) op in
     v <> [] -> no_nan v -> median_us (measure l c) op = Some x ->
     x ∈ v /\ (count (fun y => d_lt y x) v <= length v / 2 < count (fun y => d_le y x) v)%nat).
Proof.
  intros Hp.
  assert (Hs : forall o, samples_of (measure l c) o ≡ₚ samples_of (measure l' c) o).
  { intros o. rewrite !samples_of_measure. unfold of_op. by rewrite Hp. }
  split.
  - pose proof (median_perm _ _ "transfer" (Hs "transfer")) as Hb. pose proof (median_perm _ _ op (Hs op)) as Ho.
    rewrite !calibrated_rc_scaled.
    destruct (median_us (measure l c) "transfer"), (median_us (measure l' c) "transfer"); try discriminate Hb; [|done].
    destruct (median_us (measure l c) op), (median_us (measure l' c) op); try discriminate Ho; [|done].
    injection Hb as Hb. injection Ho as Ho. simpl. f_equal. by apply scaled_rc_same.
  - intros x v Hne Hn. unfold v, samples_of, median_us in *. clear v.
    destruct (measure l c !! op) as [[|a v]|]; simpl in Hne; try done. intros Hx.
    split; [by eapply nth_element_elem|by apply nth_element_rank].
Qed.

Example calibration_ignores_order_witness :
  calibrated_rc 0 (measure [mk_rc_sample "transfer" (of_int 100); mk_rc_sample "op" (of_int 250);
                          mk_rc_sample "op" (of_int 50); mk_rc_sample "op" (of_int 170)] empty_calibrator) "op"
  = Some 1700.
Proof.
  etrans; [refine (proj1 (calibration_ignores_order 0 _
    [mk_rc_sample "op" (of_int 50); mk_rc_sample "transfer" (of_int 100);
     mk_rc_sample "op" (of_int 170); mk_rc_sample "op" (of_int 250)] empty_calibrator "op" _))|vm_compute; reflexivity].
  apply Permutation_sym. etrans; [apply perm_swap|]. apply perm_skip.
  etrans; [apply (Permutation_app_comm [_; _] [_])|]. reflexivity.
Defined.

(** Infinite medians: the ratio is a NaN, which the clamp lets through. Where
    [llround] of a NaN is [LLONG_MIN] the figure is [2^63]. *)
Definition infinite_samples : rc_calibrator :=
  measure [mk_rc_sample "transfer" (S754_infinity false); mk_rc_sample "op" (S754_infinity false)] empty_calibrator.
Lemma infinite_medians_unspecified :
  (forall u, calibrated_rc u infinite_samples "op" = Some (u64 u)) /\
  calibrated_rc INT64_MIN infinite_samples "op" = Some (2 ^ 63).
Proof.
  assert (Hm : forall o, o = "transfer" \/ o = "op" -> median_us infinite_samples o = Some (S754_infinity false))
    by (intros o [-> | ->]; vm_compute; reflexivity).
  assert (H : forall u, calibrated_rc u infinite_samples "op" = Some (u64 u)).
  { intros u. rewrite calibrated_rc_scaled, !Hm by auto. reflexivity. }
  split; [done|]. rewrite H. reflexivity.
Qed.
