(* ===== verification/FlatHashMap.v ===== *)
(** * Open-addressing hash map ([include/hive_native/perf/flat_hash_map.hpp])

    Linear probing over a power-of-two table with tombstones. Indices are [nat];
    a table so large that [size_ * 10] wraps does not fit in memory. The two
    loops without a bound in the code ([insert]'s probe, the nesting of [insert]
    and [rehash]) take fuel, and [None] is running out of it. *)
From S2P Require Import Prelude Types KnownTx.

Inductive state : Type := empty | full | tomb.
#[export] Instance state_eq_dec : EqDecision state.
Proof. solve_decision. Defined.

Section flat_hash_map.
Context {V : Type} `{!Inhabited V}.

Record slot : Type := mk_slot { st : state; key : string; value : V }.
Record flat_hash_map : Type := mk_map { slots_ : list slot; size_ : nat }.

Definition empty_slot : slot := mk_slot empty "" inhabitant.

(** [xxhash64(key) & mask] *)
Definition start (slots : list slot) (k : string) : nat :=
  Z.to_nat (Z.land (xxhash64 k 0) (Z.of_nat (length slots - 1))).
(** [(i + 1) & mask] *)
Definition next_index (slots : list slot) (i : nat) : nat := Nat.land (i + 1) (length slots - 1).

Definition slot_at (slots : list slot) (i : nat) : slot := nth i slots empty_slot.
Definition has_key (s : slot) (k : string) : bool :=
  bool_decide (s.(st) = full) && String.eqb s.(key) k.

(** Where [insert] stops, and whether the slot is free. *)
Fixpoint insert_probe (fuel : nat) (slots : list slot) (i : nat) (k : string) : option (nat * bool) :=
  match fuel with
  | O => None
  | S fuel' =>
      let s := slot_at slots i in
      if bool_decide (s.(st) = empty) || bool_decide (s.(st) = tomb) then Some (i, true)
      else if has_key s k then Some (i, false)
      else insert_probe fuel' slots (next_index slots i) k
  end.

Definition insert_no_grow (m : flat_hash_map) (k : string) (v : V) : option (bool * flat_hash_map) :=
  match insert_probe (length m.(slots_)) m.(slots_) (start m.(slots_) k) k with
  | None => None
  | Some (i, true) => Some (true, mk_map (<[i := mk_slot full k v]> m.(slots_)) (S m.(size_)))
  | Some (i, false) => Some (false, mk_map (<[i := mk_slot full k v]> m.(slots_)) m.(size_))
  end.

(** [while(cap < n) cap <<= 1] *)
Fixpoint grow_cap (fuel cap n : nat) : nat :=
  match fuel with
  | O => cap
  | S fuel' => if Nat.ltb cap n then grow_cap fuel' (2 * cap) n else cap
  end.

Definition rehash (ins : flat_hash_map -> string -> V -> option (bool * flat_hash_map))
  (m : flat_hash_map) (n : nat) : option flat_hash_map :=
  foldl (fun acc s =>
    match acc with
    | None => None
    | Some m' => if bool_decide (s.(st) = full) then snd <$> ins m' s.(key) s.(value) else Some m'
    end) (Some (mk_map (replicate (grow_cap n 1 n) empty_slot) 0)) m.(slots_).

Fixpoint insert_nested (depth : nat) (m : flat_hash_map) (k : string) (v : V)
  : option (bool * flat_hash_map) :=
  match depth with
  | O => None
  | S depth' =>
      match (if Nat.leb (length m.(slots_) * 7) (m.(size_) * 10)
             then rehash (insert_nested depth') m (length m.(slots_) * 2) else Some m) with
      | None => None
      | Some m => insert_no_grow m k v
      end
  end.

(** Two levels: the insertions of a rehash never rehash. *)
Definition flat_insert (m : flat_hash_map) (k : string) (v : V) : option (bool * flat_hash_map) :=
  insert_nested 2 m k v.

Definition new_flat_map (cap : nat) : option flat_hash_map :=
  rehash (insert_nested 1) (mk_map [] 0) (if Nat.ltb cap 8 then 8 else cap).

Fixpoint find_loop (n : nat) (slots : list slot) (i : nat) (k : string) : option nat :=
  match n with
  | O => None
  | S n' =>
      let s := slot_at slots i in
      if bool_decide (s.(st) = empty) then None
      else if has_key s k then Some i
      else find_loop n' slots (next_index slots i) k
  end.
Definition find_index (m : flat_hash_map) (k : string) : option nat :=
  match m.(slots_) with
  | [] => None
  | _ => find_loop (length m.(slots_)) m.(slots_) (start m.(slots_) k) k
  end.

Definition flat_find (m : flat_hash_map) (k : string) : option V :=
  value ∘ slot_at m.(slots_) <$> find_index m k.

Definition flat_erase (m : flat_hash_map) (k : string) : bool * flat_hash_map :=
  match find_index m k with
  | None => (false, m)
  | Some i => (true, mk_map (alter (fun s => mk_slot tomb "" s.(value)) i m.(slots_)) (m.(size_) - 1))
  end.

Definition flat_clear (m : flat_hash_map) : flat_hash_map :=
  mk_map (map (fun s => mk_slot empty s.(key) s.(value)) m.(slots_)) 0.

(** ** The table as a map *)

Definition full_count (slots : list slot) : nat := length (filter (fun s => s.(st) = full) slots).

(** The slot reached from the start of [k] in [d] steps. *)
Definition probe (slots : list slot) (k : string) (d : nat) : nat :=
  (start slots k + d) mod length slots.

(** Every full slot can be reached from the start of its key. *)
Record chain_wf (m : flat_hash_map) : Prop := {
  wf_cap : exists e, length m.(slots_) = (2 ^ e)%nat /\ (3 <= e)%nat;
  wf_size : m.(size_) = full_count m.(slots_);
  wf_chain p s : m.(slots_) !! p = Some s -> s.(st) = full ->
    exists d, (d < length m.(slots_))%nat /\ p = probe m.(slots_) s.(key) d /\
      forall e, (e < d)%nat -> (slot_at m.(slots_) (probe m.(slots_) s.(key) e)).(st) <> empty }.

(** And no key has two. *)
Record table_wf (m : flat_hash_map) : Prop := {
  wf_chains :> chain_wf m;
  wf_unique p q s s' : m.(slots_) !! p = Some s -> m.(slots_) !! q = Some s' ->
    s.(st) = full -> s'.(st) = full -> s.(key) = s'.(key) -> p = q }.

(** [c] is what the table holds. *)
Definition holds (m : flat_hash_map) (c : gmap string V) : Prop :=
  forall k v, c !! k = Some v <->
    exists p s, m.(slots_) !! p = Some s /\ s.(st) = full /\ s.(key) = k /\ s.(value) = v.

Definition no_tomb (m : flat_hash_map) : Prop := Forall (fun s => s.(st) <> tomb) m.(slots_).

(** *** Probing *)

Section probing.
Context (slots : list slot) (e : nat).
Hypothesis Hlen : length slots = (2 ^ e)%nat.

Lemma mask_ones : (length slots - 1)%nat = Nat.ones e.
Proof. rewrite Hlen, Nat.ones_equiv. lia. Qed.
Lemma cap_pos : (0 < length slots)%nat.
Proof. rewrite Hlen. pose proof (Nat.pow_nonzero 2 e). lia. Qed.

Lemma start_lt k : (start slots k < length slots)%nat.
Proof.
  unfold start. pose proof cap_pos.
  replace (Z.of_nat (length slots - 1)) with (Z.ones (Z.of_nat e)).
  2: { rewrite Z.ones_equiv, Hlen, Nat2Z.inj_sub by (pose proof (Nat.pow_nonzero 2 e); lia).
       rewrite Nat2Z.inj_pow. lia. }
  rewrite Z.land_ones by lia. apply Nat2Z.inj_lt. rewrite Hlen, Nat2Z.inj_pow.
  change (Z.of_nat 2) with 2.
  pose proof (Z.mod_pos_bound (xxhash64 k 0) (2 ^ Z.of_nat e) ltac:(lia)). rewrite Z2Nat.id; lia.
Qed.

Lemma probe_0 k : probe slots k 0 = start slots k.
Proof. unfold probe. rewrite Nat.add_0_r. apply Nat.mod_small, start_lt. Qed.
Lemma probe_lt k d : (probe slots k d < length slots)%nat.
Proof. apply Nat.mod_upper_bound. pose proof cap_pos. lia. Qed.
Lemma next_probe k d : next_index slots (probe slots k d) = probe slots k (S d).
Proof.
  unfold next_index. rewrite mask_ones, Nat.land_ones, <-Hlen. unfold probe.
  rewrite Nat.Div0.add_mod_idemp_l. f_equal. lia.
Qed.
(** Every slot is reached in fewer steps than there are slots. *)
Lemma probe_onto k p : (p < length slots)%nat -> exists d, (d < length slots)%nat /\ p = probe slots k d.
Proof.
  intros Hp. pose proof (start_lt k). pose proof cap_pos.
  destruct (decide (start slots k <= p)%nat) as [Hle|Hgt].
  - exists (p - start slots k)%nat. split; [lia|]. unfold probe.
    replace (start slots k + (p - start slots k))%nat with p by lia.
    symmetry. by apply Nat.mod_small.
  - exists (length slots - start slots k + p)%nat. split; [lia|]. unfold probe.
    replace (start slots k + (length slots - start slots k + p))%nat with (p + 1 * length slots)%nat by lia.
    rewrite Nat.Div0.mod_add. symmetry. by apply Nat.mod_small.
Qed.

Lemma slot_at_lookup i s : slots !! i = Some s -> slot_at slots i = s.
Proof. intros H. unfold slot_at. by rewrite nth_lookup, H. Qed.
Lemma lookup_slot_at i : (i < length slots)%nat -> slots !! i = Some (slot_at slots i).
Proof. intros H. unfold slot_at. rewrite nth_lookup. by apply lookup_lt_is_Some in H as [s ->]. Qed.
End probing.

(** *** Lookup *)

Lemma has_key_true s k : has_key s k = true <-> s.(st) = full /\ s.(key) = k.
Proof. unfold has_key. by rewrite andb_true_iff, bool_decide_eq_true, String.eqb_eq. Qed.

(** The probe has met neither an empty slot nor [k] in its first [d] steps. *)
Definition passed (slots : list slot) (k : string) (d : nat) : Prop :=
  forall e, (e < d)%nat -> (slot_at slots (probe slots k e)).(st) <> empty /\
    has_key (slot_at slots (probe slots k e)) k = false.

Lemma passed_S slots k d :
  passed slots k d -> (slot_at slots (probe slots k d)).(st) <> empty ->
  has_key (slot_at slots (probe slots k d)) k = false -> passed slots k (S d).
Proof.
  intros Hp H1 H2 e He. destruct (decide (e = d)) as [->|]; [done|]. apply Hp. lia.
Qed.

(** A probe that went all the way round, or met an empty slot, shows absence. *)
Lemma passed_absent m k d :
  chain_wf m -> passed m.(slots_) k d ->
  (length m.(slots_) <= d)%nat \/ (slot_at m.(slots_) (probe m.(slots_) k d)).(st) = empty ->
  forall p s, m.(slots_) !! p = Some s -> s.(st) = full -> s.(key) <> k.
Proof.
  intros Hwf Hp Hend p s Hs Hf Hk.
  destruct (wf_chain _ Hwf p s Hs Hf) as (d' & Hd' & Heq & Hch). rewrite Hk in *.
  pose proof (slot_at_lookup _ _ _ Hs) as Hat. rewrite Heq in Hat.
  destruct (decide (d' < d)%nat) as [Hlt|Hge].
  - destruct (Hp d' Hlt) as [_ Hno]. rewrite Hat in Hno.
    assert (has_key s k = true) by by apply has_key_true. congruence.
  - destruct Hend as [?|He]; [lia|]. destruct (decide (d' = d)) as [->|].
    + rewrite Hat in He. congruence.
    + eapply (Hch d); [lia|done].
Qed.

Lemma find_loop_spec m k n d :
  chain_wf m -> passed m.(slots_) k d -> (n + d = length m.(slots_))%nat ->
  match find_loop n m.(slots_) (probe m.(slots_) k d) k with
  | Some i => has_key (slot_at m.(slots_) i) k = true /\ (i < length m.(slots_))%nat
  | None => forall p s, m.(slots_) !! p = Some s -> s.(st) = full -> s.(key) <> k
  end.
Proof.
  intros Hwf. destruct (wf_cap _ Hwf) as (e & He & _).
  revert d. induction n as [|n IH]; intros d Hp Hn; simpl.
  - eapply passed_absent; [done|done|left; lia].
  - case_bool_decide as Hemp; [eapply passed_absent; [done|done|by right]|].
    destruct (has_key _ k) eqn:Hk; [split; [done|]; by eapply probe_lt|].
    rewrite (next_probe _ e He). apply IH; [by apply passed_S|lia].
Qed.

Lemma find_index_spec m k : chain_wf m ->
  match find_index m k with
  | Some i => exists s, m.(slots_) !! i = Some s /\ s.(st) = full /\ s.(key) = k
  | None => forall p s, m.(slots_) !! p = Some s -> s.(st) = full -> s.(key) <> k
  end.
Proof.
  intros Hwf. destruct (wf_cap _ Hwf) as (e & He & _). pose proof (cap_pos _ e He).
  assert (Hf : find_index m k = find_loop (length (slots_ m)) (slots_ m) (probe (slots_ m) k 0) k).
  { rewrite (probe_0 _ e He). unfold find_index. by destruct (slots_ m). }
  rewrite Hf. pose proof (find_loop_spec m k (length (slots_ m)) 0 Hwf) as Hl.
  destruct (find_loop _ _ _ _) as [i|].
  - destruct Hl as [Hk Hi]; [intros ? ?; lia|lia|]. apply has_key_true in Hk as [? ?].
    exists (slot_at (slots_ m) i). by split; [apply lookup_slot_at|].
  - apply Hl; [intros ? ?; lia|lia].
Qed.

Lemma find_correct m c k : table_wf m -> holds m c -> flat_find m k = c !! k.
Proof.
  intros Hwf Hh. pose proof (find_index_spec m k Hwf) as Hf. unfold flat_find.
  destruct (find_index m k) as [i|]; simpl.
  - destruct Hf as (s & Hs & Hst & Hk). rewrite (slot_at_lookup _ _ _ Hs). symmetry.
    apply Hh. by exists i, s.
  - symmetry. apply eq_None_not_Some. intros [v Hv]. apply Hh in Hv as (p & s & Hs & Hst & Hk & _).
    by eapply Hf.
Qed.

(** *** Counting *)

Lemma full_count_insert slots i s s' :
  slots !! i = Some s ->
  (full_count (<[i := s']> slots) + (if decide (st s = full) then 1 else 0)
   = full_count slots + (if decide (st s' = full) then 1 else 0))%nat.
Proof.
  unfold full_count. intros Hi. apply take_drop_middle in Hi as Hsp.
  pose proof (lookup_lt_Some _ _ _ Hi) as Hlt.
  rewrite <-Hsp at 2. rewrite (insert_take_drop slots i s') by done.
  rewrite !filter_app, !length_app, !filter_cons. repeat case_decide; simpl; lia.
Qed.

Lemma full_count_le slots : (full_count slots <= length slots)%nat.
Proof. apply length_filter. Qed.

(** A table that is not all full has a slot that is free. *)
Lemma free_slot slots : (full_count slots < length slots)%nat ->
  exists p s, slots !! p = Some s /\ s.(st) <> full.
Proof.
  unfold full_count. induction slots as [|s slots IH]; simpl; [lia|]. intros H.
  rewrite filter_cons in H. destruct (decide (st s = full)) as [Hs|Hs].
  - simpl in H. destruct IH as (p & s' & Hp & Hs'); [lia|]. by exists (S p), s'.
  - by exists 0%nat, s.
Qed.

(** *** Insertion without growth *)

(** The probe of [insert] has met only full slots with other keys. *)
Definition occupied (slots : list slot) (k : string) (d : nat) : Prop :=
  forall e, (e < d)%nat -> (slot_at slots (probe slots k e)).(st) = full /\
    (slot_at slots (probe slots k e)).(key) <> k.

Lemma insert_probe_spec m k n d :
  chain_wf m -> (full_count m.(slots_) < length m.(slots_))%nat ->
  occupied m.(slots_) k d -> (n + d = length m.(slots_))%nat ->
  exists d' free, (d' < length m.(slots_))%nat /\ occupied m.(slots_) k d' /\
    insert_probe n m.(slots_) (probe m.(slots_) k d) k = Some (probe m.(slots_) k d', free) /\
    let s := slot_at m.(slots_) (probe m.(slots_) k d') in
    if free : bool then s.(st) <> full else s.(st) = full /\ s.(key) = k.
Proof.
  intros Hwf Hfree. destruct (wf_cap _ Hwf) as (e & He & _).
  revert d. induction n as [|n IH]; intros d Ho Hn; simpl.
  - exfalso. destruct (free_slot _ Hfree) as (p & s & Hs & Hst).
    destruct (probe_onto (slots_ m) e He k p) as (d' & Hd' & ->); [by eapply lookup_lt_Some|].
    destruct (Ho d') as [Hf _]; [lia|]. by rewrite (slot_at_lookup _ _ _ Hs) in Hf.
  - destruct (st (slot_at (slots_ m) (probe (slots_ m) k d))) eqn:Est; simpl.
    + exists d, true. split_and!; [lia|done|done|congruence].
    + destruct (has_key _ k) eqn:Hk.
      * exists d, false. apply has_key_true in Hk. split_and!; [lia|done|done|..]; tauto.
      * rewrite (next_probe _ e He). apply IH; [|lia]. intros e' He'.
        destruct (decide (e' = d)) as [->|]; [|apply Ho; lia]. split; [done|].
        intros Hk2. apply not_true_iff_false in Hk. apply Hk. by apply has_key_true.
    + exists d, true. split_and!; [lia|done|done|congruence].
Qed.

(** Writing [k] where its probe may stop keeps the chains. *)
Lemma write_chain m k v d n :
  chain_wf m -> (d < length m.(slots_))%nat -> occupied m.(slots_) k d ->
  n = full_count (<[probe m.(slots_) k d := mk_slot full k v]> m.(slots_)) ->
  chain_wf (mk_map (<[probe m.(slots_) k d := mk_slot full k v]> m.(slots_)) n).
Proof.
  intros Hwf Hd Ho Hn. destruct (wf_cap _ Hwf) as (e & He & He3).
  set (i := probe (slots_ m) k d) in *.
  assert (Hi : (i < length (slots_ m))%nat) by by eapply probe_lt.
  set (slots' := <[i := mk_slot full k v]> (slots_ m)) in *.
  assert (Hlen : length slots' = length (slots_ m)) by apply length_insert.
  assert (Hprobe : forall k' d', probe slots' k' d' = probe (slots_ m) k' d').
  { intros k' d'. unfold probe, start. by rewrite Hlen. }
  assert (Hat : forall j, slot_at slots' j = if decide (i = j) then mk_slot full k v else slot_at (slots_ m) j).
  { intros j. unfold slot_at. rewrite !nth_lookup. unfold slots'. rewrite list_lookup_insert.
    repeat case_decide; try done; destruct_and?; subst; try done. tauto. }
  split; simpl.
  - exists e. by rewrite Hlen.
  - done.
  - intros p s Hp Hst. unfold slots' in Hp. rewrite list_lookup_insert in Hp. case_decide as Hc.
    + destruct Hc as [<- _]. injection Hp as <-. simpl. exists d. rewrite Hlen.
      split_and!; [done|by rewrite Hprobe|]. intros e' He'. rewrite Hprobe, Hat.
      case_decide; [done|]. destruct (Ho e' He') as [-> _]. done.
    + destruct (wf_chain _ Hwf p s Hp Hst) as (d' & Hd' & -> & Hch). exists d'. rewrite Hlen.
      split_and!; [done|by rewrite Hprobe|]. intros e' He'. rewrite Hprobe, Hat.
      case_decide; [done|by apply Hch].
Qed.
Lemma write_wf m k v d n :
  table_wf m -> (d < length m.(slots_))%nat -> occupied m.(slots_) k d ->
  (forall p s, m.(slots_) !! p = Some s -> s.(st) = full -> s.(key) = k -> p = probe m.(slots_) k d) ->
  n = full_count (<[probe m.(slots_) k d := mk_slot full k v]> m.(slots_)) ->
  table_wf (mk_map (<[probe m.(slots_) k d := mk_slot full k v]> m.(slots_)) n).
Proof.
  intros Hwf Hd Ho Huniq Hn. split; [apply write_chain; [apply Hwf|done..]|].
  set (i := probe (slots_ m) k d) in *.
  intros p q s s' Hp Hq Hs Hs' Hk. simpl in Hp, Hq.
  rewrite list_lookup_insert in Hp, Hq. repeat case_decide; destruct_and?; simplify_eq; simpl in *.
  - done.
  - first [by eapply Huniq|symmetry; by eapply Huniq].
  - first [by eapply Huniq|symmetry; by eapply Huniq].
  - by eapply (wf_unique _ Hwf p q).
Qed.

Lemma write_holds m c k v i n :
  holds m c -> (i < length m.(slots_))%nat ->
  (forall p s, m.(slots_) !! p = Some s -> s.(st) = full -> s.(key) = k -> p = i) ->
  (forall s, m.(slots_) !! i = Some s -> s.(st) = full -> s.(key) = k) ->
  holds (mk_map (<[i := mk_slot full k v]> m.(slots_)) n) (<[k := v]> c).
Proof.
  intros Hh Hi Huniq Hold k' v'. simpl. rewrite lookup_insert. case_decide as Hk.
  - subst k'. split.
    + intros [= <-]. exists i, (mk_slot full k v). by rewrite list_lookup_insert_eq.
    + intros (p & s & Hp & Hst & Hkey & <-). rewrite list_lookup_insert in Hp.
      case_decide; [destruct s; by simplify_eq/=|]. assert (p = i) as -> by by eapply Huniq. tauto.
  - rewrite (Hh k' v'). split; intros (p & s & Hp & Hst & Hkey & Hval).
    + exists p, s. rewrite list_lookup_insert_ne; [done|]. intros <-.
      by apply Hold in Hp; [congruence|].
    + exists p, s. rewrite list_lookup_insert in Hp.
      case_decide; [destruct s; by simplify_eq/=|done].
Qed.

(** What [insert_no_grow] does to the table when it stops [d] steps from the start. *)
Definition written (m : flat_hash_map) (k : string) (v : V) (d n : nat) : flat_hash_map :=
  mk_map (<[probe m.(slots_) k d := mk_slot full k v]> m.(slots_)) n.

Lemma written_correct m c k v d n :
  table_wf m -> holds m c -> (d < length m.(slots_))%nat -> occupied m.(slots_) k d ->
  (forall p s, m.(slots_) !! p = Some s -> s.(st) = full -> s.(key) = k -> p = probe m.(slots_) k d) ->
  (let s := slot_at m.(slots_) (probe m.(slots_) k d) in s.(st) = full -> s.(key) = k) ->
  n = full_count (written m k v d n).(slots_) ->
  table_wf (written m k v d n) /\ holds (written m k v d n) (<[k := v]> c) /\
  length (written m k v d n).(slots_) = length m.(slots_) /\ (no_tomb m -> no_tomb (written m k v d n)).
Proof.
  intros Hwf Hh Hd Ho Huniq Hold Hn. destruct (wf_cap _ Hwf) as (e & He & _).
  assert (Hi : (probe (slots_ m) k d < length (slots_ m))%nat) by by eapply probe_lt.
  split_and!.
  - by apply write_wf.
  - apply write_holds; [done..|]. intros s Hs. by rewrite <-(slot_at_lookup _ _ _ Hs).
  - apply length_insert.
  - intros Ht. by apply Forall_insert.
Qed.

(** A free slot that the probe reaches: the key has none of its own, if it is
    absent or the table has no tombstones. *)
Lemma free_slot_absent m c k d :
  table_wf m -> holds m c -> (d < length m.(slots_))%nat -> occupied m.(slots_) k d ->
  (slot_at m.(slots_) (probe m.(slots_) k d)).(st) <> full -> c !! k = None \/ no_tomb m ->
  forall p s, m.(slots_) !! p = Some s -> s.(st) = full -> s.(key) <> k.
Proof.
  intros Hwf Hh Hd Ho Hs [Hnone|Hnt].
  - intros p s Hps Hst Hk. assert (c !! k = Some (value s)); [|congruence]. apply Hh. by exists p, s.
  - destruct (wf_cap _ Hwf) as (e & He & _). apply (passed_absent m k d Hwf).
    + intros e' He'. destruct (Ho e' He') as [H1 H2]. split; [congruence|].
      apply not_true_iff_false. rewrite has_key_true. tauto.
    + right. pose proof (lookup_slot_at (slots_ m) _ (probe_lt _ e He k d)) as Hl.
      unfold no_tomb in Hnt. rewrite Forall_forall in Hnt.
      specialize (Hnt _ (list_elem_of_lookup_2 _ _ _ Hl)). by destruct (st (slot_at _ _)).
Qed.

Lemma holds_absent m c k : holds m c ->
  (forall p s, m.(slots_) !! p = Some s -> s.(st) = full -> s.(key) <> k) -> c !! k = None.
Proof.
  intros Hh Habs. apply eq_None_not_Some. intros [v Hv].
  apply Hh in Hv as (p & s & Hs & Hst & Hk & _). by eapply Habs.
Qed.

(** Inserting a key that is absent, or anything into a table without tombstones. *)
Lemma insert_no_grow_correct m c k v :
  table_wf m -> holds m c -> (full_count m.(slots_) < length m.(slots_))%nat ->
  c !! k = None \/ no_tomb m ->
  exists m', insert_no_grow m k v = Some (bool_decide (c !! k = None), m') /\
    table_wf m' /\ holds m' (<[k := v]> c) /\ length m'.(slots_) = length m.(slots_) /\
    (m'.(size_) = m.(size_) + if bool_decide (c !! k = None) then 1 else 0)%nat /\
    (no_tomb m -> no_tomb m').
Proof.
  intros Hwf Hh Hfree Hor. destruct (wf_cap _ Hwf) as (e & He & _).
  destruct (insert_probe_spec m k (length (slots_ m)) 0 Hwf Hfree) as (d & free & Hd & Ho & Hp & Hs);
    [intros ? ?; lia|lia|]. rewrite (probe_0 _ e He) in Hp. unfold insert_no_grow. rewrite Hp.
  pose proof (lookup_slot_at (slots_ m) _ (probe_lt _ e He k d)) as Hl.
  pose proof (full_count_insert _ _ _ (mk_slot full k v) Hl) as Hcnt. simpl in Hcnt.
  pose proof (wf_size _ Hwf) as Hsz.
  destruct free; simpl in Hs.
  - pose proof (free_slot_absent m c k d Hwf Hh Hd Ho Hs Hor) as Habs.
    rewrite bool_decide_eq_true_2 by by eapply holds_absent.
    rewrite decide_False in Hcnt by done. eexists. split; [done|].
    destruct (written_correct m c k v d (S (size_ m)) Hwf Hh Hd Ho) as (? & ? & ? & ?); simpl; [|done|lia|].
    + intros p s Hps Hst Hk. exfalso. by eapply Habs.
    + split_and!; try done. lia.
  - destruct Hs as [Hst Hk]. set (s := slot_at (slots_ m) (probe (slots_ m) k d)) in *.
    assert (Hsome : c !! k = Some (value s)) by (apply Hh; by exists (probe (slots_ m) k d), s).
    rewrite bool_decide_eq_false_2 by congruence.
    rewrite decide_True in Hcnt by done. eexists. split; [done|].
    destruct (written_correct m c k v d (size_ m) Hwf Hh Hd Ho) as (? & ? & ? & ?); simpl; [|done|lia|].
    + intros p s' Hps Hst' Hk'. eapply (wf_unique _ Hwf p _ s' s); [done|exact Hl|done|done|congruence].
    + split_and!; try done; lia.
Qed.

(** *** Rehashing *)

Lemma grow_cap_spec fuel a n :
  exists e, grow_cap fuel (2 ^ a) n = (2 ^ e)%nat /\ (a <= e)%nat /\
    ((n <= 2 ^ e)%nat \/ e = (a + fuel)%nat).
Proof.
  revert a. induction fuel as [|fuel IH]; intros a; simpl grow_cap.
  - exists a. split_and!; [done|done|right; lia].
  - destruct (Nat.ltb_spec (2 ^ a) n) as [Hlt|Hge].
    + destruct (IH (S a)) as (e & He & Ha & Hor). exists e.
      split_and!; [exact He|lia|destruct Hor; [by left|right; lia]].
    + exists a. split_and!; [done|done|by left].
Qed.

Lemma grow_cap_enough n : (8 <= n)%nat ->
  exists e, grow_cap n 1 n = (2 ^ e)%nat /\ (3 <= e)%nat /\ (n <= 2 ^ e)%nat.
Proof.
  intros Hn. destruct (grow_cap_spec n 0 n) as (e & He & _ & Hor). exists e.
  assert (Hle : (n <= 2 ^ e)%nat).
  { destruct Hor as [?| ->]; [done|]. pose proof (Nat.pow_gt_lin_r 2 n). simpl. lia. }
  split_and!; [exact He| |done].
  destruct (decide (3 <= e)%nat); [done|]. exfalso.
  assert ((2 ^ e <= 2 ^ 2)%nat) by (apply Nat.pow_le_mono_r; lia). simpl in *. lia.
Qed.

Lemma fresh_table_wf e : (3 <= e)%nat -> table_wf (mk_map (replicate (2 ^ e) empty_slot) 0).
Proof.
  intros He. split; [split|]; simpl.
  - exists e. by rewrite length_replicate.
  - unfold full_count. induction (2 ^ e)%nat as [|n IH]; [done|]. simpl.
    rewrite filter_cons. by rewrite decide_False.
  - intros p s Hp Hst. by apply lookup_replicate in Hp as [-> _].
  - intros p q s s' Hp _ Hst. by apply lookup_replicate in Hp as [-> _].
Qed.

(** What a list of slots holds. *)
Definition add_slot (c : gmap string V) (s : slot) : gmap string V :=
  if bool_decide (s.(st) = full) then <[s.(key) := s.(value)]> c else c.

Lemma insert_nested_in_place d m k v :
  (m.(size_) * 10 < length m.(slots_) * 7)%nat -> insert_nested (S d) m k v = insert_no_grow m k v.
Proof. intros H. simpl. by destruct (Nat.leb_spec (length (slots_ m) * 7) (size_ m * 10)); [lia|]. Qed.

Lemma insert_nested_grow d m k v :
  (length m.(slots_) * 7 <= m.(size_) * 10)%nat ->
  insert_nested (S d) m k v =
    match rehash (insert_nested d) m (length m.(slots_) * 2) with
    | None => None | Some m => insert_no_grow m k v
    end.
Proof. intros H. simpl. by destruct (Nat.leb_spec (length (slots_ m) * 7) (size_ m * 10)); [|lia]. Qed.

Lemma rehash_fold ins l m c :
  (forall m k v, (m.(size_) * 10 < length m.(slots_) * 7)%nat -> ins m k v = insert_no_grow m k v) ->
  table_wf m -> holds m c -> no_tomb m ->
  ((m.(size_) + full_count l) * 10 <= length m.(slots_) * 7)%nat ->
  exists m', foldl (fun acc s =>
      match acc with
      | None => None
      | Some m' => if bool_decide (s.(st) = full)
                   then snd <$> ins m' s.(key) s.(value) else Some m'
      end) (Some m) l = Some m' /\
    table_wf m' /\ holds m' (foldl add_slot c l) /\ no_tomb m' /\
    length m'.(slots_) = length m.(slots_) /\ (m'.(size_) <= m.(size_) + full_count l)%nat.
Proof.
  intros Hins. revert m c. induction l as [|s l IH]; intros m c Hwf Hh Hnt Hsz; simpl.
  - exists m. split_and!; try done. lia.
  - unfold full_count in Hsz. rewrite filter_cons in Hsz. unfold full_count, add_slot.
    rewrite filter_cons. case_bool_decide as Hf; rewrite ?decide_True, ?decide_False in * by done.
    + simpl in Hsz. rewrite Hins by lia.
      destruct (insert_no_grow_correct m c (key s) (value s) Hwf Hh) as (m1 & -> & Hwf1 & Hh1 & Hl1 & Hs1 & Hn1).
      { rewrite <-(wf_size _ Hwf). lia. }
      { by right. }
      simpl. destruct (IH m1 (<[key s:=value s]> c)) as (m' & E & H1 & H2 & H3 & H4 & H5);
        [done|done|by apply Hn1| |].
      { unfold full_count. rewrite Hl1, Hs1. case_bool_decide; lia. }
      exists m'. split_and!; try done; [congruence|]. unfold full_count in H5. rewrite Hs1 in H5.
      simpl. case_bool_decide; lia.
    + by apply IH.
Qed.

Lemma holds_unique m c c' : holds m c -> holds m c' -> c = c'.
Proof. intros H H'. apply map_eq_iff. intros k. apply option_eq. intros v. by rewrite (H k v), (H' k v). Qed.

(** A table whose keys are unique holds what its slots add up to. *)
Lemma content_holds l n :
  (forall p q s s', l !! p = Some s -> l !! q = Some s' -> s.(st) = full -> s'.(st) = full ->
     s.(key) = s'.(key) -> p = q) ->
  holds (mk_map l n) (foldl add_slot ∅ l).
Proof.
  induction l as [|s l IH] using rev_ind; intros Hu k v; simpl.
  - split; [by rewrite lookup_empty|]. by intros (p & s & Hp & _).
  - rewrite foldl_snoc. specialize (IH ltac:(intros p q a b Hp Hq; apply Hu; by apply lookup_app_l_Some)).
    unfold add_slot at 1. unfold holds in IH. simpl in IH. case_bool_decide as Hf.
    + rewrite lookup_insert. case_decide as Hk.
      * subst k. split.
        -- intros [= <-]. exists (length l), s. by rewrite lookup_app_r, Nat.sub_diag by lia.
        -- intros (p & s' & Hp & Hst & Hkey & <-).
           assert (p = length l) as ->.
           { apply (Hu p (length l) s' s); [done| |done..]. by rewrite lookup_app_r, Nat.sub_diag by lia. }
           rewrite lookup_app_r, Nat.sub_diag in Hp by lia. by injection Hp as <-.
      * rewrite IH. split; intros (p & s' & Hp & Hst & Hkey & Hv).
        -- exists p, s'. by rewrite (lookup_app_l_Some _ _ _ _ Hp).
        -- exists p, s'. apply lookup_app_Some in Hp as [Hp|[_ Hp]]; [done|].
           apply list_lookup_singleton_Some in Hp as [_ <-]. congruence.
    + rewrite IH. split; intros (p & s' & Hp & Hst & Hkey & Hv).
      * exists p, s'. by rewrite (lookup_app_l_Some _ _ _ _ Hp).
      * exists p, s'. apply lookup_app_Some in Hp as [Hp|[_ Hp]]; [done|].
        apply list_lookup_singleton_Some in Hp as [_ <-]. congruence.
Qed.

Lemma rehash_correct d m c n :
  holds m c -> (8 <= n)%nat -> (length m.(slots_) * 2 <= n)%nat ->
  (forall p q s s', m.(slots_) !! p = Some s -> m.(slots_) !! q = Some s' ->
     s.(st) = full -> s'.(st) = full -> s.(key) = s'.(key) -> p = q) ->
  exists m', rehash (insert_nested (S d)) m n = Some m' /\
    table_wf m' /\ holds m' c /\ no_tomb m' /\ (m'.(size_) * 2 <= length m'.(slots_))%nat.
Proof.
  intros Hh Hn Hlen Hu. destruct (grow_cap_enough n Hn) as (e & He & He3 & Hle).
  pose proof (full_count_le (slots_ m)).
  destruct (rehash_fold (insert_nested (S d)) (slots_ m)
    (mk_map (replicate (2 ^ e) empty_slot) 0) ∅) as (m' & E & H1 & H2 & H3 & H4 & H5).
  - apply insert_nested_in_place.
  - by apply fresh_table_wf.
  - intros k v. rewrite lookup_empty. split; [done|]. intros (p & s & Hp & Hst & _).
    by apply lookup_replicate in Hp as [-> _].
  - apply Forall_replicate. done.
  - simpl. rewrite length_replicate. lia.
  - exists m'. simpl in *. rewrite length_replicate in H4. split_and!; try done.
    + unfold rehash. by rewrite He.
    + replace c with (foldl add_slot ∅ (slots_ m)); [done|].
      apply (holds_unique m); [|done]. destruct m. by apply content_holds.
    + lia.
Qed.

(** *** The operations *)

Lemma insert_correct m c k v :
  table_wf m -> holds m c -> c !! k = None \/ no_tomb m ->
  exists m', flat_insert m k v = Some (bool_decide (c !! k = None), m') /\
    table_wf m' /\ holds m' (<[k := v]> c) /\ (no_tomb m -> no_tomb m').
Proof.
  intros Hwf Hh Hor. destruct (wf_cap _ Hwf) as (e & He & He3).
  assert (H8 : (8 <= length (slots_ m))%nat).
  { rewrite He. assert (2 ^ 3 <= 2 ^ e)%nat by (apply Nat.pow_le_mono_r; lia). simpl in *. lia. }
  unfold flat_insert. destruct (Nat.leb_spec (length (slots_ m) * 7) (size_ m * 10)) as [Hfull|Hroom].
  - destruct (rehash_correct 0 m c (length (slots_ m) * 2)) as (m1 & E & Hwf1 & Hh1 & Hn1 & Hs1);
      [done|lia|lia|apply (wf_unique _ Hwf)|].
    destruct (insert_no_grow_correct m1 c k v Hwf1 Hh1) as (m' & E' & H1 & H2 & _ & _ & H3).
    { rewrite <-(wf_size _ Hwf1). destruct (wf_cap _ Hwf1) as (e1 & He1 & _).
      pose proof (cap_pos _ e1 He1). lia. }
    { by right. }
    exists m'. split_and!; [|done|done|intros _; by apply H3].
    rewrite insert_nested_grow by done. by rewrite E.
  - rewrite insert_nested_in_place by lia.
    destruct (insert_no_grow_correct m c k v Hwf Hh) as (m' & E & H1 & H2 & _ & _ & H3); [|done|].
    + rewrite <-(wf_size _ Hwf). lia.
    + by exists m'.
Qed.

(** The table after the slot [i] became a tombstone. *)
Definition buried (m : flat_hash_map) (i : nat) : flat_hash_map :=
  mk_map (alter (fun s => mk_slot tomb "" s.(value)) i m.(slots_)) (m.(size_) - 1).

Lemma buried_lookup m i p s :
  (buried m i).(slots_) !! p = Some s -> s.(st) = full -> p <> i /\ m.(slots_) !! p = Some s.
Proof.
  simpl. rewrite list_lookup_alter. destruct (decide (i = p)) as [->|Hne]; [|by intros ? ?; split].
  intros Hp Hst. apply fmap_Some in Hp as (s' & _ & ->). discriminate Hst.
Qed.
Lemma buried_lookup_ne m i p : p <> i -> (buried m i).(slots_) !! p = m.(slots_) !! p.
Proof. intros Hp. simpl. rewrite list_lookup_alter. by rewrite decide_False by done. Qed.
Lemma buried_probe m i k d : probe (buried m i).(slots_) k d = probe m.(slots_) k d.
Proof. unfold probe, start. simpl. by rewrite length_alter. Qed.

(** An update of the slot at an index is an insertion there. *)
Lemma list_alter_some {A} (f : A -> A) (l : list A) i x : l !! i = Some x -> alter f i l = <[i := f x]> l.
Proof.
  intros Hi. rewrite list_insert_alter. apply list_eq. intros j. rewrite !list_lookup_alter.
  case_decide; [subst; by rewrite Hi|done].
Qed.

Lemma buried_chain m i s :
  chain_wf m -> m.(slots_) !! i = Some s -> s.(st) = full -> chain_wf (buried m i).
Proof.
  intros Hwf Hs Hst. pose proof (full_count_insert _ _ _ (mk_slot tomb "" (value s)) Hs) as Hcnt.
  rewrite decide_True in Hcnt by done. simpl in Hcnt. split.
  - destruct (wf_cap _ Hwf) as (e & He & ?). exists e. simpl. by rewrite length_alter.
  - simpl. rewrite (list_alter_some _ _ _ _ Hs), (wf_size _ Hwf). lia.
  - intros p s' Hp Hst'. destruct (buried_lookup _ _ _ _ Hp Hst') as [Hne Hp'].
    destruct (wf_chain _ Hwf p s' Hp' Hst') as (d & Hd & -> & Hch). exists d.
    rewrite buried_probe. split_and!; [by simpl; rewrite length_alter|done|].
    intros e' He'. rewrite buried_probe. set (j := probe (slots_ m) (key s') e').
    destruct (decide (j = i)) as [->|Hj].
    + rewrite (slot_at_lookup _ i (mk_slot tomb "" (value s))); [done|].
      simpl. by rewrite list_lookup_alter, decide_True, Hs by done.
    + unfold slot_at. rewrite nth_lookup, buried_lookup_ne, <-nth_lookup by done. by apply Hch.
Qed.
Lemma buried_wf m i s :
  table_wf m -> m.(slots_) !! i = Some s -> s.(st) = full -> table_wf (buried m i).
Proof.
  intros Hwf Hs Hst. split; [eapply buried_chain; [apply Hwf|done..]|].
  intros p q a b Hp Hq Ha Hb. apply buried_lookup in Hp as [_ Hp]; [|done].
  apply buried_lookup in Hq as [_ Hq]; [|done]. by apply (wf_unique _ Hwf p q).
Qed.

Lemma buried_holds m c i s :
  table_wf m -> holds m c -> m.(slots_) !! i = Some s -> s.(st) = full ->
  holds (buried m i) (delete s.(key) c).
Proof.
  intros Hwf Hh Hs Hst k' v'. rewrite lookup_delete. case_decide as Hk'.
  - split; [done|]. intros (p & s' & Hp & Hst' & Hkey & _).
    destruct (buried_lookup _ _ _ _ Hp Hst') as [Hne Hp']. destruct Hne.
    apply (wf_unique _ Hwf p i s' s); [done..|congruence].
  - rewrite (Hh k' v'). split; intros (p & s' & Hp & Hst' & Hkey & Hv); exists p, s'.
    + split; [|done]. rewrite buried_lookup_ne; [done|]. intros ->. congruence.
    + by destruct (buried_lookup _ _ _ _ Hp Hst').
Qed.

Lemma erase_correct m c k :
  table_wf m -> holds m c ->
  (flat_erase m k).1 = bool_decide (is_Some (c !! k)) /\
  table_wf (flat_erase m k).2 /\ holds (flat_erase m k).2 (delete k c).
Proof.
  intros Hwf Hh. pose proof (find_index_spec m k Hwf) as Hf. unfold flat_erase.
  destruct (find_index m k) as [i|]; simpl.
  - destruct Hf as (s & Hs & Hst & <-).
    rewrite bool_decide_eq_true_2 by (exists (value s); apply Hh; by exists i, s).
    split_and!; [done|by eapply buried_wf|by apply buried_holds].
  - rewrite (holds_absent m c k Hh Hf), bool_decide_eq_false_2 by (by intros [? ?]).
    by rewrite delete_id by by eapply holds_absent.
Qed.

Lemma clear_correct m :
  table_wf m -> table_wf (flat_clear m) /\ holds (flat_clear m) ∅ /\ no_tomb (flat_clear m).
Proof.
  intros Hwf.
  assert (Hl : forall p s, slots_ (flat_clear m) !! p = Some s -> st s = empty).
  { intros p s Hp. simpl in Hp. rewrite list_lookup_fmap in Hp.
    destruct (slots_ m !! p); simpl in Hp; [by injection Hp as <-|done]. }
  split; [split; [split|]|split].
  - destruct (wf_cap _ Hwf) as (e & He & ?). exists e. simpl. by rewrite length_map.
  - simpl. unfold full_count. induction (slots_ m) as [|s l IH]; [done|]. simpl.
    rewrite filter_cons. by rewrite decide_False.
  - intros p s Hp Hst. apply Hl in Hp. congruence.
  - intros p q s s' Hp _ Hst. apply Hl in Hp. congruence.
  - intros k v. rewrite lookup_empty. split; [done|]. intros (p & s & Hp & Hst & _).
    apply Hl in Hp. congruence.
  - apply Forall_forall. intros s Hs. apply list_elem_of_lookup in Hs as [p Hp].
    apply Hl in Hp. congruence.
Qed.

Lemma new_correct cap :
  exists m, new_flat_map cap = Some m /\ table_wf m /\ holds m ∅ /\ no_tomb m.
Proof.
  destruct (rehash_correct 0 (mk_map [] 0) ∅ (if Nat.ltb cap 8 then 8 else cap))
    as (m & E & H1 & H2 & H3 & _).
  - intros k v. rewrite lookup_empty. split; [done|]. by intros (p & s & Hp & _).
  - destruct (Nat.ltb_spec cap 8); lia.
  - simpl. lia.
  - by intros p q s s' Hp.
  - by exists m.
Qed.
End flat_hash_map.
Arguments slot V : clear implicits.
Arguments flat_hash_map V : clear implicits.

(** ** Properties *)

(** Tables built without inserting a present key while there is a tombstone, with
    what was put into them. *)
Inductive cleanly_built {V} `{!Inhabited V} : flat_hash_map V -> gmap string V -> Prop :=
| clean_new cap m : new_flat_map cap = Some m -> cleanly_built m ∅
| clean_insert m c k v b m' :
    cleanly_built m c -> c !! k = None \/ no_tomb m -> flat_insert m k v = Some (b, m') ->
    cleanly_built m' (<[k := v]> c)
| clean_erase m c k : cleanly_built m c -> cleanly_built (flat_erase m k).2 (delete k c)
| clean_clear m c : cleanly_built m c -> cleanly_built (flat_clear m) ∅.

Lemma cleanly_built_wf {V} `{!Inhabited V} (m : flat_hash_map V) c :
  cleanly_built m c -> table_wf m /\ holds m c.
Proof.
  induction 1 as [cap m E|m c k v b m' _ [Hwf Hh] Hor E|m c k _ [Hwf Hh]|m c _ [Hwf Hh]].
  - destruct (new_correct (V := V) cap) as (m0 & E0 & Hwf & Hh & _). by simplify_eq.
  - destruct (insert_correct m c k v Hwf Hh Hor) as (m0 & E0 & Hwf0 & Hh0 & _). by simplify_eq.
  - by apply erase_correct.
  - by destruct (clear_correct m Hwf) as (? & ? & _).
Qed.

(** C24. The flat map refines a finite map as long as no present key is inserted
    while the table holds a tombstone. On every table that holds each key in one
    slot ([table_wf], [holds]): [find] is lookup, [erase] is deletion, [clear]
    empties, and [insert] is insertion (and terminates) provided the key is absent
    or the table holds no tombstone, all of them with a table of that kind again; a
    new table of any requested capacity is one, and so is every table built from
    new ones by these operations under that proviso. Without the proviso a key can
    get a second slot, and this fails (see [insert_over_tombstone_resurrects] and
    [FlatHashCopies]). *)
Theorem flat_map_refines_map {V} `{!Inhabited V} :
  (forall (m : flat_hash_map V) (c : gmap string V), table_wf m -> holds m c ->
     (forall k, flat_find m k = c !! k) /\
     (forall k v, c !! k = None \/ no_tomb m ->
        exists m', flat_insert m k v = Some (bool_decide (c !! k = None), m') /\
          table_wf m' /\ holds m' (<[k := v]> c)) /\
     (forall k, (flat_erase m k).1 = bool_decide (is_Some (c !! k)) /\
        table_wf (flat_erase m k).2 /\ holds (flat_erase m k).2 (delete k c)) /\
     table_wf (flat_clear m) /\ holds (flat_clear m) ∅) /\
  (forall cap, exists m0, new_flat_map (V := V) cap = Some m0 /\ table_wf m0 /\ holds m0 ∅) /\
  (forall (m : flat_hash_map V) (c : gmap string V), cleanly_built m c -> table_wf m /\ holds m c).
Proof.
  split_and!; [intros m c Hwf Hh; split_and!| |apply cleanly_built_wf].
  - intros k. by apply find_correct.
  - intros k v Hor. destruct (insert_correct m c k v Hwf Hh Hor) as (m' & ? & ? & ? & _). eauto.
  - intros k. by apply erase_correct.
  - by destruct (clear_correct m Hwf).
  - by destruct (clear_correct m Hwf) as (_ & ? & _).
  - intros cap. destruct (new_correct (V := V) cap) as (m0 & ? & ? & ? & _). eauto.
Qed.

Example flat_map_refines_map_witness :
  exists m m' : flat_hash_map Z, new_flat_map 16 = Some m /\
    flat_insert m "bob" 7 = Some (true, m') /\ flat_find m' "bob" = Some 7 /\
    flat_find (flat_erase m' "bob").2 "bob" = None.
Proof.
  destruct (flat_map_refines_map (V := Z)) as (Hops & Hnew & Hbuilt).
  destruct (Hnew 16%nat) as (m & E & Hwf & Hh).
  destruct (proj1 (proj2 (Hops m ∅ Hwf Hh)) "bob" 7 ltac:(left; done)) as (m' & E' & _).
  exists m, m'. split; [exact E|]. split; [exact E'|].
  assert (Hb : cleanly_built m' (<["bob" := 7]> ∅))
    by (eapply clean_insert; [by apply (clean_new 16)|by left|exact E']).
  destruct (Hbuilt _ _ Hb) as [Hwf' Hh']. destruct (Hbuilt _ _ (clean_erase _ _ "bob" Hb)) as [Hwf2 Hh2].
  split; [rewrite (proj1 (Hops m' _ Hwf' Hh'))|rewrite (proj1 (Hops _ _ Hwf2 Hh2))]; reflexivity.
Defined.

(** [None] when an operation runs out of fuel. *)
Definition insert_then {V} `{!Inhabited V} (k : string) (v : V) (m : option (flat_hash_map V))
  : option (flat_hash_map V) := match m with Some m => snd <$> flat_insert m k v | None => None end.
Definition erase_then {V} `{!Inhabited V} (k : string) (m : option (flat_hash_map V))
  : option (flat_hash_map V) := (fun m => (flat_erase m k).2) <$> m.

(** [insert] takes the first tombstone it meets without looking further for
    the key. With two keys of one bucket, erasing the first and updating the
    second leaves the second in two slots; erasing it then uncovers its old
    value, which [find] returns. *)
Theorem insert_over_tombstone_resurrects :
  exists m : flat_hash_map Z,
    erase_then "cat" (insert_then "cat" 2 (erase_then "bob" (insert_then "cat" 1
      (insert_then "bob" 0 (new_flat_map 64))))) = Some m /\
    flat_find m "cat" = Some 1.
Proof.
  match goal with |- exists m, ?o = Some m /\ _ =>
    assert (H : is_Some o) by (apply not_eq_None_Some; vm_compute; discriminate);
    assert (Hf : (fun m => flat_find m "cat") <$> o = Some (Some 1)) by (vm_compute; reflexivity)
  end.
  destruct H as [m H]. exists m. split; [exact H|]. rewrite H in Hf. by injection Hf.
Qed.
