(* ===== verification/FlatHashCopies.v ===== *)
(** * The flat map on every table

    [FlatHashMap] relates the table to a finite map while no key has two slots.
    [insert] can give a key a second slot, so in general a table is a map from
    keys to stacks of values: [copies] lists what the slots of a key hold, in the
    order of its probe, and each operation is described by what it does to the
    stacks. *)
From S2P Require Import Prelude Types KnownTx FlatHashMap.

Section copies.
Context {V : Type} `{!Inhabited V}.
Implicit Types m : flat_hash_map V.

(** The value of [k] in the slot [d] steps from its start. *)
Definition copy_at (slots : list (slot V)) (k : string) (d : nat) : option V :=
  let s := slot_at slots (probe slots k d) in if has_key s k then Some s.(value) else None.
Definition copies m (k : string) : list V :=
  omap (copy_at m.(slots_) k) (seq 0 (length m.(slots_))).
(** The copies past the first [d + 1] steps. *)
Definition later m (k : string) (d : nat) : list V :=
  omap (copy_at m.(slots_) k) (seq (S d) (length m.(slots_) - S d)).

(** ** Probes *)

Lemma probe_inj m k d d' :
  chain_wf m -> (d < length m.(slots_))%nat -> (d' < length m.(slots_))%nat ->
  probe m.(slots_) k d = probe m.(slots_) k d' -> d = d'.
Proof.
  intros Hwf. destruct (wf_cap _ Hwf) as (e & He & _). pose proof (start_lt _ e He k) as Hs. unfold probe.
  set (n := length (slots_ m)) in *. set (s := start (slots_ m) k) in *.
  assert (Hmod : forall x, (x < n)%nat -> ((s + x) mod n = if (s + x <? n)%nat then s + x else s + x - n)%nat).
  { intros x Hx. destruct (Nat.ltb_spec (s + x) n); [by apply Nat.mod_small|].
    replace (s + x)%nat with (s + x - n + 1 * n)%nat at 1 by lia. rewrite Nat.Div0.mod_add. apply Nat.mod_small. lia. }
  intros Hd Hd'. rewrite !Hmod by done. repeat case_match; rewrite ?Nat.ltb_lt, ?Nat.ltb_ge in *; lia.
Qed.

Lemma omap_none {A B} (f : A -> option B) (l : list A) : (forall x, x ∈ l -> f x = None) -> omap f l = [].
Proof.
  induction l as [|x l IH]; intros H; [done|]. cbn. rewrite (H x) by apply list_elem_of_here.
  apply IH. intros y Hy. apply H. by apply list_elem_of_further.
Qed.
Lemma omap_same {A B} (f g : A -> option B) (l : list A) : (forall x, x ∈ l -> f x = g x) -> omap f l = omap g l.
Proof.
  induction l as [|x l IH]; intros H; [done|]. cbn. rewrite (H x) by apply list_elem_of_here.
  rewrite IH; [done|]. intros y Hy. apply H. by apply list_elem_of_further.
Qed.

(** The copies from the first slot that may hold one. *)
Lemma copies_from m k d :
  (d < length m.(slots_))%nat -> (forall e, (e < d)%nat -> copy_at m.(slots_) k e = None) ->
  copies m k = option_list (copy_at m.(slots_) k d) ++ later m k d.
Proof.
  intros Hd Hno. unfold copies, later. set (n := length (slots_ m)) in *.
  replace n with (d + S (n - S d))%nat at 1 by lia. rewrite seq_app, omap_app. cbn [seq].
  rewrite (omap_none _ (seq 0 d)) by (intros e He%elem_of_seq; apply Hno; lia).
  cbn. by destruct (copy_at (slots_ m) k d).
Qed.

Lemma elem_of_copies m k x :
  chain_wf m ->
  x ∈ copies m k <-> exists p s, m.(slots_) !! p = Some s /\ s.(st) = full /\ s.(key) = k /\ s.(value) = x.
Proof.
  intros Hwf. destruct (wf_cap _ Hwf) as (e & He & _). unfold copies. rewrite list_elem_of_omap. split.
  - intros (d & Hd%elem_of_seq & Hc). unfold copy_at in Hc.
    destruct (has_key _ k) eqn:Hk; [|done]. injection Hc as <-. apply has_key_true in Hk as [? ?].
    do 2 eexists. split; [apply lookup_slot_at; by eapply probe_lt|done].
  - intros (p & s & Hs & Hf & Hk & <-).
    destruct (probe_onto _ e He k p) as (d & Hd & ->); [by eapply lookup_lt_Some|].
    exists d. split; [apply elem_of_seq; lia|]. unfold copy_at. rewrite (slot_at_lookup _ _ _ Hs).
    by rewrite (proj2 (has_key_true s k)).
Qed.

(** Where [find_index] stops. *)
Lemma find_loop_first m k n d :
  chain_wf m -> passed m.(slots_) k d -> (n + d = length m.(slots_))%nat ->
  match find_loop n m.(slots_) (probe m.(slots_) k d) k with
  | Some i => exists d', (d' < length m.(slots_))%nat /\ i = probe m.(slots_) k d' /\ passed m.(slots_) k d' /\
                has_key (slot_at m.(slots_) i) k = true
  | None => copies m k = []
  end.
Proof.
  intros Hwf. destruct (wf_cap _ Hwf) as (e & He & _).
  assert (Hnone : forall d', passed (slots_ m) k d' ->
    (length (slots_ m) <= d')%nat \/ st (slot_at (slots_ m) (probe (slots_ m) k d')) = empty -> copies m k = []).
  { intros d' Hp Hend. apply elem_of_nil_inv. intros x Hx. apply (elem_of_copies m k x Hwf) in Hx as (p & s & Hs & Hf & Hk & _).
    by eapply (passed_absent m k d'). }
  revert d. induction n as [|n IH]; intros d Hp Hn; simpl.
  - eapply Hnone; [done|left; lia].
  - case_bool_decide as Hemp; [eapply Hnone; [done|by right]|].
    destruct (has_key _ k) eqn:Hk; [exists d; split_and!; try done; lia|].
    rewrite (next_probe _ e He). apply IH; [by apply passed_S|lia].
Qed.
Lemma find_index_first m k :
  chain_wf m ->
  match find_index m k with
  | Some i => exists d, (d < length m.(slots_))%nat /\ i = probe m.(slots_) k d /\ passed m.(slots_) k d /\
                has_key (slot_at m.(slots_) i) k = true
  | None => copies m k = []
  end.
Proof.
  intros Hwf. destruct (wf_cap _ Hwf) as (e & He & _). pose proof (cap_pos _ e He).
  assert (Hf : find_index m k = find_loop (length (slots_ m)) (slots_ m) (probe (slots_ m) k 0) k).
  { rewrite (probe_0 _ e He). unfold find_index. by destruct (slots_ m). }
  rewrite Hf. apply find_loop_first; [done|intros ? ?; lia|lia].
Qed.
Lemma passed_none m k d : passed m.(slots_) k d -> forall e, (e < d)%nat -> copy_at m.(slots_) k e = None.
Proof. intros Hp e He. unfold copy_at. by rewrite (proj2 (Hp e He)). Qed.

Lemma find_copies m k : chain_wf m -> flat_find m k = head (copies m k).
Proof.
  intros Hwf. pose proof (find_index_first m k Hwf) as Hf. unfold flat_find.
  destruct (find_index m k) as [i|]; [|by rewrite Hf].
  destruct Hf as (d & Hd & -> & Hp & Hk). rewrite (copies_from m k d Hd (passed_none m k d Hp)).
  unfold copy_at at 1. by rewrite Hk.
Qed.

(** ** Writing one slot *)

Definition put_slot m (i : nat) (s : slot V) (n : nat) : flat_hash_map V := mk_map (<[i := s]> m.(slots_)) n.

Lemma put_probe m i s n k d : probe (put_slot m i s n).(slots_) k d = probe m.(slots_) k d.
Proof. unfold probe, start. simpl. by rewrite length_insert. Qed.
Lemma put_length m i s n : length (put_slot m i s n).(slots_) = length m.(slots_).
Proof. apply length_insert. Qed.
Lemma put_copy_at m i s n k d :
  (i < length m.(slots_))%nat ->
  copy_at (put_slot m i s n).(slots_) k d =
    if decide (i = probe m.(slots_) k d) then (if has_key s k then Some s.(value) else None)
    else copy_at m.(slots_) k d.
Proof.
  intros Hi. unfold copy_at. rewrite put_probe. unfold slot_at. rewrite !nth_lookup. simpl.
  rewrite list_lookup_insert. repeat case_decide; try done; destruct_and?; try congruence; tauto.
Qed.

(** A slot that neither before nor after holds [k]: the copies of [k] stay. *)
Lemma put_copies_other m i s n k :
  (i < length m.(slots_))%nat -> has_key (slot_at m.(slots_) i) k = false -> has_key s k = false ->
  copies (put_slot m i s n) k = copies m k.
Proof.
  intros Hi Hold Hnew. unfold copies at 1. rewrite put_length. apply omap_same. intros d _.
  rewrite put_copy_at by done. rewrite Hnew. case_decide as E; [|done]. unfold copy_at. by rewrite <-E, Hold.
Qed.

(** A slot of [k] that the probe reaches before any other copy. *)
Lemma put_copies m k d s n :
  chain_wf m -> (d < length m.(slots_))%nat -> (forall e, (e < d)%nat -> copy_at m.(slots_) k e = None) ->
  copies (put_slot m (probe m.(slots_) k d) s n) k =
    (if has_key s k then [s.(value)] else []) ++ later m k d.
Proof.
  intros Hwf Hd Hno. destruct (wf_cap _ Hwf) as (e0 & He0 & _).
  assert (Hi : (probe (slots_ m) k d < length (slots_ m))%nat) by by eapply probe_lt.
  assert (Hother : forall e, e <> d -> (e < length (slots_ m))%nat ->
    copy_at (put_slot m (probe (slots_ m) k d) s n).(slots_) k e = copy_at (slots_ m) k e).
  { intros e Hne He. rewrite put_copy_at by done. case_decide as E; [|done].
    destruct Hne. symmetry. by eapply probe_inj. }
  rewrite (copies_from _ k d).
  - rewrite put_copy_at, decide_True by done. f_equal; [by destruct (has_key s k)|].
    unfold later. rewrite put_length. apply omap_same. intros e He%elem_of_seq. apply Hother; lia.
  - by rewrite put_length.
  - intros e He. rewrite Hother by lia. by apply Hno.
Qed.

Lemma later_tail m k d :
  (d < length m.(slots_))%nat -> (forall e, (e < d)%nat -> copy_at m.(slots_) k e = None) ->
  later m k d = if has_key (slot_at m.(slots_) (probe m.(slots_) k d)) k then tail (copies m k) else copies m k.
Proof.
  intros Hd Hno. rewrite (copies_from m k d Hd Hno). unfold copy_at. by destruct (has_key _ k).
Qed.

(** ** The operations *)

Lemma erase_copies m k :
  chain_wf m ->
  (flat_erase m k).1 = negb (bool_decide (copies m k = [])) /\ chain_wf (flat_erase m k).2 /\
  copies (flat_erase m k).2 k = tail (copies m k) /\
  forall k', k' <> k -> copies (flat_erase m k).2 k' = copies m k'.
Proof.
  intros Hwf. destruct (wf_cap _ Hwf) as (e0 & He0 & _).
  pose proof (find_index_first m k Hwf) as Hf. unfold flat_erase.
  destruct (find_index m k) as [i|]; simpl; [|by rewrite Hf].
  destruct Hf as (d & Hd & -> & Hp & Hk). pose proof (passed_none m k d Hp) as Hno.
  pose proof (lookup_slot_at (slots_ m) _ (probe_lt _ e0 He0 k d)) as Hl.
  set (s := slot_at (slots_ m) (probe (slots_ m) k d)) in *.
  pose proof (proj1 (has_key_true s k) Hk) as [Hst Hkey].
  change (mk_map _ _) with (buried m (probe (slots_ m) k d)).
  assert (E : buried m (probe (slots_ m) k d) = put_slot m (probe (slots_ m) k d) (mk_slot tomb "" s.(value)) (size_ m - 1)).
  { unfold buried, put_slot. by rewrite (list_alter_some _ _ _ _ Hl). }
  assert (Hlate : later m k d = tail (copies m k)) by (rewrite later_tail by done; fold s; by rewrite Hk).
  split; [|split; [by eapply buried_chain|rewrite E; split]].
  - rewrite bool_decide_eq_false_2; [done|]. rewrite (copies_from m k d Hd Hno). unfold copy_at. fold s. by rewrite Hk.
  - by rewrite put_copies.
  - intros k' Hne. apply put_copies_other; [by eapply probe_lt| |done]. apply not_true_iff_false.
    intros [_ Hk']%has_key_true. fold s in Hk'. congruence.
Qed.

Lemma insert_no_grow_copies m k v :
  chain_wf m -> (full_count m.(slots_) < length m.(slots_))%nat ->
  exists b m', insert_no_grow m k v = Some (b, m') /\ chain_wf m' /\
    copies m' k = v :: (if b : bool then copies m k else tail (copies m k)) /\
    forall k', k' <> k -> copies m' k' = copies m k'.
Proof.
  intros Hwf Hfree. destruct (wf_cap _ Hwf) as (e & He & _).
  destruct (insert_probe_spec m k (length (slots_ m)) 0 Hwf Hfree) as (d & free & Hd & Ho & Hp & Hs);
    [intros ? ?; lia|lia|]. rewrite (probe_0 _ e He) in Hp. unfold insert_no_grow. rewrite Hp. clear Hp.
  set (i := probe (slots_ m) k d) in *.
  assert (Hi : (i < length (slots_ m))%nat) by by eapply probe_lt.
  pose proof (lookup_slot_at (slots_ m) i Hi) as Hl. cbv zeta in Hs. set (s := slot_at (slots_ m) i) in *.
  pose proof (full_count_insert _ _ _ (mk_slot full k v) Hl) as Hcnt.
  rewrite (decide_True (P := st (mk_slot full k v) = full)) in Hcnt by done. pose proof (wf_size _ Hwf) as Hsz.
  assert (Hno : forall e', (e' < d)%nat -> copy_at (slots_ m) k e' = None).
  { intros e' He'. unfold copy_at. destruct (Ho e' He') as [_ Hk].
    destruct (has_key _ k) eqn:E; [|done]. by apply has_key_true in E as [_ ?]. }
  assert (Hkey : has_key s k = negb free).
  { destruct free; [|by apply has_key_true]. apply not_true_iff_false. intros [Hst _]%has_key_true. by apply Hs. }
  assert (Hdone : forall n, n = full_count (<[i := mk_slot full k v]> (slots_ m)) ->
    chain_wf (put_slot m i (mk_slot full k v) n) /\
    copies (put_slot m i (mk_slot full k v) n) k = v :: (if free then copies m k else tail (copies m k)) /\
    forall k', k' <> k -> copies (put_slot m i (mk_slot full k v) n) k' = copies m k').
  { intros n Hn. split; [by apply write_chain|]. split.
    - unfold i. rewrite put_copies, later_tail by done. rewrite (proj2 (has_key_true _ k)) by done.
      fold i. fold s. rewrite Hkey. by destruct free.
    - intros k' Hne. apply put_copies_other; [done|..]; apply not_true_iff_false; intros [Hst Hk']%has_key_true.
      + fold s in Hst, Hk'. destruct free; [by apply Hs|]. destruct Hs as [_ Hs]. congruence.
      + simpl in Hk'. congruence. }
  destruct free.
  - rewrite decide_False in Hcnt by done. exists true. eexists. split; [done|]. apply Hdone. lia.
  - rewrite decide_True in Hcnt by tauto. exists false. eexists. split; [done|]. apply Hdone. lia.
Qed.

(** A write through the pointer that [find] returned: only the value of the slot
    changes. *)
Definition write_value m (i : nat) (v : V) : flat_hash_map V :=
  mk_map (alter (fun s => mk_slot s.(st) s.(key) v) i m.(slots_)) m.(size_).

Lemma write_value_slot m i v p :
  (write_value m i v).(slots_) !! p =
    (fun s => if decide (i = p) then mk_slot s.(st) s.(key) v else s) <$> m.(slots_) !! p.
Proof. simpl. rewrite list_lookup_alter. destruct (decide (i = p)) as [->|]; by destruct (slots_ m !! _). Qed.
Lemma write_value_chain m i v : chain_wf m -> chain_wf (write_value m i v).
Proof.
  intros Hwf. destruct (wf_cap _ Hwf) as (e & He & He3).
  assert (Hlen : length (write_value m i v).(slots_) = length m.(slots_)) by apply length_alter.
  assert (Hprobe : forall k d, probe (write_value m i v).(slots_) k d = probe m.(slots_) k d).
  { intros k d. unfold probe, start. by rewrite Hlen. }
  assert (Hst : forall p, st (slot_at (write_value m i v).(slots_) p) = st (slot_at m.(slots_) p)).
  { intros p. unfold slot_at. rewrite !nth_lookup, write_value_slot.
    destruct (slots_ m !! p); simpl; [by case_decide|done]. }
  split.
  - exists e. by rewrite Hlen.
  - simpl. rewrite (wf_size _ Hwf). destruct (slots_ m !! i) as [s|] eqn:Hs.
    + rewrite (list_alter_some _ _ _ _ Hs).
      pose proof (full_count_insert _ _ _ (mk_slot s.(st) s.(key) v) Hs) as Hc. simpl in Hc. lia.
    + f_equal. symmetry. apply list_eq. intros p. rewrite list_lookup_alter. case_decide; [subst; by rewrite Hs|done].
  - intros p s Hp Hf. rewrite write_value_slot in Hp. apply fmap_Some in Hp as (s0 & Hp & ->).
    destruct (wf_chain _ Hwf p s0 Hp) as (d & Hd & -> & Hch); [by case_decide|].
    exists d. rewrite Hlen. assert (Hkey : key (if decide (i = probe (slots_ m) (key s0) d) then mk_slot (st s0) (key s0) v else s0) = key s0)
      by by case_decide.
    rewrite Hkey. split_and!; [done|by rewrite Hprobe|]. intros e' He'. rewrite Hprobe, Hst. by apply Hch.
Qed.

(** Writing through the pointer updates the value [find] reads, and no other. *)
Lemma write_value_find m k i v :
  chain_wf m -> find_index m k = Some i ->
  forall k', flat_find (write_value m i v) k' = if decide (k' = k) then Some v else flat_find m k'.
Proof.
  intros Hwf Hi k'. pose proof (find_index_first m k Hwf) as Hf. rewrite Hi in Hf.
  destruct Hf as (d & Hd & -> & Hp & Hk). pose proof (passed_none m k d Hp) as Hno.
  destruct (wf_cap _ Hwf) as (e0 & He0 & _).
  pose proof (lookup_slot_at (slots_ m) _ (probe_lt _ e0 He0 k d)) as Hl.
  set (s := slot_at (slots_ m) (probe (slots_ m) k d)) in *.
  pose proof (proj1 (has_key_true s k) Hk) as [Hst Hkey].
  rewrite !find_copies by (done || by apply write_value_chain).
  assert (E : write_value m (probe (slots_ m) k d) v = put_slot m (probe (slots_ m) k d) (mk_slot full k v) (size_ m)).
  { unfold write_value, put_slot. by rewrite (list_alter_some _ _ _ _ Hl), Hst, Hkey. }
  rewrite E. case_decide as Hkk; [subst k'|].
  - rewrite put_copies by done. by rewrite (proj2 (has_key_true _ k)).
  - rewrite put_copies_other; [done|by eapply probe_lt|..]; apply not_true_iff_false; intros [_ Hk']%has_key_true.
    + fold s in Hk'. congruence.
    + simpl in Hk'. congruence.
Qed.

(** *** Growth *)

(** A table without second slots holds each key once. *)
Lemma unique_copies m c k : table_wf m -> holds m c -> copies m k = option_list (c !! k).
Proof.
  intros Hwf Hh. destruct (wf_cap _ Hwf) as (e & He & _). destruct (c !! k) as [v|] eqn:E.
  - apply Hh in E as (p & s & Hs & Hst & Hk & <-).
    destruct (probe_onto _ e He k p) as (d & Hd & ->); [by eapply lookup_lt_Some|].
    assert (Honly : forall d', (d' < length (slots_ m))%nat -> d' <> d -> copy_at (slots_ m) k d' = None).
    { intros d' Hd' Hne. unfold copy_at. destruct (has_key _ k) eqn:Hk'; [|done].
      apply has_key_true in Hk' as [Hf' Hk']. destruct Hne. eapply probe_inj; [apply Hwf|done|done|].
      eapply (wf_unique _ Hwf); [by apply lookup_slot_at; eapply probe_lt|exact Hs|done|done|congruence]. }
    rewrite (copies_from m k d Hd) by (intros e' He'; apply Honly; lia).
    unfold copy_at at 1. rewrite (slot_at_lookup _ _ _ Hs), (proj2 (has_key_true s k)) by done. cbn [option_list app].
    unfold later. rewrite omap_none; [done|]. intros d' Hd'%elem_of_seq. apply Honly; lia.
  - apply elem_of_nil_inv. intros x (p & s & Hs & Hst & Hk & Hv)%elem_of_copies; [|apply Hwf].
    assert (c !! k = Some x); [|congruence]. apply Hh. by exists p, s.
Qed.

(** What the reinserted slots add up to is one of the copies of each key. *)
Lemma content_elem (l : list (slot V)) k :
  match (foldl add_slot ∅ l : gmap string V) !! k with
  | Some x => exists s, s ∈ l /\ s.(st) = full /\ s.(key) = k /\ s.(value) = x
  | None => forall s, s ∈ l -> s.(st) = full -> s.(key) <> k
  end.
Proof.
  induction l as [|s l IH] using rev_ind; simpl.
  - rewrite lookup_empty. intros s Hs. by apply elem_of_nil in Hs.
  - rewrite foldl_app. simpl. unfold add_slot at 1. case_bool_decide as Hf.
    + rewrite lookup_insert. case_decide as Hk.
      * exists s. split; [set_solver|done].
      * destruct (foldl add_slot ∅ l !! k) as [x|]; [destruct IH as (s' & ? & ?); exists s'; split; [set_solver|done]|].
        intros s' [Hs'| ->%list_elem_of_singleton]%elem_of_app Hst; [by apply IH|congruence].
    + destruct (foldl add_slot ∅ l !! k) as [x|]; [destruct IH as (s' & ? & ?); exists s'; split; [set_solver|done]|].
      intros s' [Hs'| ->%list_elem_of_singleton]%elem_of_app Hst; [by apply IH|congruence].
Qed.

Lemma grown_copies m :
  chain_wf m ->
  exists m1 c, rehash (insert_nested 1) m (length m.(slots_) * 2) = Some m1 /\
    table_wf m1 /\ holds m1 c /\ no_tomb m1 /\ (full_count m1.(slots_) < length m1.(slots_))%nat /\
    forall k, (copies m k = [] /\ c !! k = None) \/ (exists x, x ∈ copies m k /\ c !! k = Some x).
Proof.
  intros Hwf. destruct (wf_cap _ Hwf) as (e & He & He3).
  assert (H8 : (8 <= length (slots_ m))%nat).
  { rewrite He. assert (2 ^ 3 <= 2 ^ e)%nat by (apply Nat.pow_le_mono_r; lia). simpl in *. lia. }
  destruct (grow_cap_enough (length (slots_ m) * 2)) as (e1 & He1 & He13 & Hle); [lia|].
  pose proof (full_count_le (slots_ m)).
  destruct (rehash_fold (insert_nested 1) (slots_ m) (mk_map (replicate (2 ^ e1) empty_slot) 0) ∅)
    as (m1 & E & Hwf1 & Hh1 & Hn1 & Hl1 & Hs1).
  - apply insert_nested_in_place.
  - by apply fresh_table_wf.
  - intros k v. rewrite lookup_empty. split; [done|]. intros (p & s & Hp & Hst & _).
    by apply lookup_replicate in Hp as [-> _].
  - by apply Forall_replicate.
  - simpl. rewrite length_replicate. lia.
  - exists m1, (foldl add_slot ∅ (slots_ m)). simpl in Hl1, Hs1. rewrite length_replicate in Hl1.
    split_and!; [unfold rehash; by rewrite He1|done|done|done|rewrite <-(wf_size _ Hwf1); lia|].
    intros k. pose proof (content_elem (slots_ m) k) as Hc.
    destruct (foldl add_slot ∅ (slots_ m) !! k) as [x|]; simpl.
    + right. exists x. split; [|done]. destruct Hc as (s & Hs & ? & ? & ?). apply elem_of_copies; [done|].
      apply list_elem_of_lookup in Hs as [p Hp]. by exists p, s.
    + left. split; [|done]. apply elem_of_nil_inv. intros x (p & s & Hs & Hst & Hk & _)%elem_of_copies; [|done].
      eapply Hc; [by eapply list_elem_of_lookup_2|done..].
Qed.

Lemma insert_copies m k v :
  chain_wf m ->
  exists b m', flat_insert m k v = Some (b, m') /\ chain_wf m' /\
    if decide (m.(size_) * 10 < length m.(slots_) * 7)%nat
    then copies m' k = v :: (if b : bool then copies m k else tail (copies m k)) /\
         forall k', k' <> k -> copies m' k' = copies m k'
    else copies m' k = [v] /\
         forall k', k' <> k -> (copies m k' = [] /\ copies m' k' = []) \/
                               (exists x, x ∈ copies m k' /\ copies m' k' = [x]).
Proof.
  intros Hwf. unfold flat_insert. case_decide as Hroom.
  - rewrite insert_nested_in_place by done.
    destruct (insert_no_grow_copies m k v Hwf) as (b & m' & H); [rewrite <-(wf_size _ Hwf); lia|].
    by exists b, m'.
  - rewrite insert_nested_grow by lia. destruct (grown_copies m Hwf) as (m1 & c & E & Hwf1 & Hh1 & Hn1 & Hf1 & Hc1).
    destruct (insert_no_grow_correct m1 c k v Hwf1 Hh1 Hf1) as (m' & E' & Hwf' & Hh' & _); [by right|].
    do 2 eexists. split; [by rewrite E|]. split; [apply Hwf'|]. split.
    + by rewrite (unique_copies m' _ k Hwf' Hh'), lookup_insert_eq.
    + intros k' Hne. rewrite (unique_copies m' _ k' Hwf' Hh'), lookup_insert_ne by done.
      destruct (Hc1 k') as [[-> ->]|(x & Hx & ->)]; [by left|right; by exists x].
Qed.
End copies.

(** ** Properties *)

(** C25. The flat map, on every table its operations can build, is a map from keys
    to stacks of values: [find] reads the top, [erase] pops, and [insert], which
    always terminates, puts the value on top, replacing the old top when it says
    the key was present and leaving it below when it says the key was new (which
    it also says when it reuses a tombstone ahead of the key); no operation
    touches the stack of another key, until an insertion at 70% load rehashes
    and each stack is cut down to one of its values. *)
Theorem flat_map_is_map_of_stacks {V} `{!Inhabited V} (m : flat_hash_map V) :
  chain_wf m ->
  (forall k, flat_find m k = head (copies m k)) /\
  (forall k, (flat_erase m k).1 = negb (bool_decide (copies m k = [])) /\ chain_wf (flat_erase m k).2 /\
     copies (flat_erase m k).2 k = tail (copies m k) /\
     forall k', k' <> k -> copies (flat_erase m k).2 k' = copies m k') /\
  (forall k v, exists b m', flat_insert m k v = Some (b, m') /\ chain_wf m' /\
     if decide (m.(size_) * 10 < length m.(slots_) * 7)%nat
     then copies m' k = v :: (if b : bool then copies m k else tail (copies m k)) /\
          forall k', k' <> k -> copies m' k' = copies m k'
     else copies m' k = [v] /\
          forall k', k' <> k -> (copies m k' = [] /\ copies m' k' = []) \/
                                (exists x, x ∈ copies m k' /\ copies m' k' = [x])).
Proof.
  intros Hwf. split_and!.
  - intros k. by apply find_copies.
  - intros k. by apply erase_copies.
  - intros k v. by apply insert_copies.
Qed.

(** Tables built from a new one. *)
Lemma built_new {V} `{!Inhabited V} cap (m : flat_hash_map V) : new_flat_map cap = Some m -> chain_wf m.
Proof. intros E. destruct (new_correct (V := V) cap) as (m' & E' & Hwf & _). rewrite E in E'. injection E' as ->. apply Hwf. Qed.
Lemma built_insert {V} `{!Inhabited V} k v (o : option (flat_hash_map V)) :
  (forall m, o = Some m -> chain_wf m) -> forall m, insert_then k v o = Some m -> chain_wf m.
Proof.
  intros Ho m. destruct o as [m0|]; [|done]. simpl. destruct (insert_copies m0 k v (Ho m0 eq_refl)) as (b & m' & -> & Hwf & _).
  by intros [= <-].
Qed.
Lemma built_erase {V} `{!Inhabited V} k (o : option (flat_hash_map V)) :
  (forall m, o = Some m -> chain_wf m) -> forall m, erase_then k o = Some m -> chain_wf m.
Proof.
  intros Ho m. destruct o as [m0|]; [|done]. simpl. intros [= <-]. apply (erase_copies m0 k (Ho m0 eq_refl)).
Qed.

(** Updating a key whose probe starts at a tombstone leaves the old value below
    the new one, and erasing the key uncovers it. *)
Definition updated_over_tombstone : option (flat_hash_map Z) :=
  insert_then "cat" 2 (erase_then "bob" (insert_then "cat" 1 (insert_then "bob" 0 (new_flat_map 64)))).

Example flat_map_is_map_of_stacks_witness :
  exists m, updated_over_tombstone = Some m /\ copies m "cat" = [2; 1] /\
    flat_find m "cat" = Some 2 /\ copies (flat_erase m "cat").2 "cat" = [1].
Proof.
  assert (H : is_Some updated_over_tombstone) by (apply not_eq_None_Some; vm_compute; discriminate).
  destruct H as [m Hm]. exists m. split; [exact Hm|].
  assert (Hc : copies m "cat" = [2; 1]).
  { assert (E : (fun m => copies m "cat") <$> updated_over_tombstone = Some [2; 1]) by (vm_compute; reflexivity).
    rewrite Hm in E. by injection E. }
  assert (Hwf : chain_wf m).
  { revert m Hm Hc. unfold updated_over_tombstone. intros m Hm _. revert m Hm.
    apply built_insert, built_erase, built_insert, built_insert, built_new. }
  destruct (flat_map_is_map_of_stacks m Hwf) as (Hf & He & _).
  split; [exact Hc|]. rewrite Hf, (proj1 (proj2 (proj2 (He "cat")))), Hc. split; reflexivity.
Defined.
