(* ===== verification/AccountIndex.v ===== *)
(** * Account cache and index

    [include/hive_native/perf/account_cache.hpp] and
    [include/hive_native/chain/account_index.hpp]: a cache-aside view of the
    balances of a [database]. Counters are [uint64_t]. An operation of the flat
    map that ran out of fuel (an endless loop) is [Undef]. *)
From Stdlib Require Import Floats.SpecFloat.
From S2P Require Import Prelude Types Protocol Database FlatHashMap FlatHashCopies.

#[export] Instance account_balance_inhabited : Inhabited account_balance :=
  populate (mk_account_balance 0 0).

(** ** [perf::account_cache] *)

Record account_cache : Type := mk_cache {
  map_ : flat_hash_map account_balance; hits_ : Z; misses_ : Z; inserts_ : Z; invalidations_ : Z }.

Definition new_cache (cap : nat) : option account_cache :=
  (fun m => mk_cache m 0 0 0 0) <$> new_flat_map cap.

Definition cache_clear (c : account_cache) : account_cache := mk_cache (flat_clear c.(map_)) 0 0 0 0.

Definition hit_rate (c : account_cache) : spec_float :=
  let t := u64 (c.(hits_) + c.(misses_)) in
  let double_of z := binary_normalize 53 1024 z 0 false in
  if t =? 0 then double_of 0 else SFdiv 53 1024 (double_of c.(hits_)) (double_of t).

Definition cache_put (name : string) (bal : account_balance) (c : account_cache)
  : option account_cache :=
  (fun r => mk_cache r.2 c.(hits_) c.(misses_) (u64 (c.(inserts_) + 1)) c.(invalidations_))
    <$> flat_insert c.(map_) name bal.

Definition cache_find (name : string) (c : account_cache) : option account_balance * account_cache :=
  match flat_find c.(map_) name with
  | Some b => (Some b, mk_cache c.(map_) (u64 (c.(hits_) + 1)) c.(misses_) c.(inserts_) c.(invalidations_))
  | None => (None, mk_cache c.(map_) c.(hits_) (u64 (c.(misses_) + 1)) c.(inserts_) c.(invalidations_))
  end.

(** The pointer [find_mut] returns: the slot it points into, valid until the map
    changes, and an assignment through it. *)
Definition cache_find_mut (name : string) (c : account_cache) : option nat * account_cache :=
  match find_index c.(map_) name with
  | Some i => (Some i, mk_cache c.(map_) (u64 (c.(hits_) + 1)) c.(misses_) c.(inserts_) c.(invalidations_))
  | None => (None, mk_cache c.(map_) c.(hits_) (u64 (c.(misses_) + 1)) c.(inserts_) c.(invalidations_))
  end.
Definition assign_through (i : nat) (b : account_balance) (c : account_cache) : account_cache :=
  mk_cache (write_value c.(map_) i b) c.(hits_) c.(misses_) c.(inserts_) c.(invalidations_).

Definition cache_size (c : account_cache) : nat := c.(map_).(size_).

Definition cache_invalidate (name : string) (c : account_cache) : bool * account_cache :=
  let '(erased, m) := flat_erase c.(map_) name in
  if erased : bool
  then (true, mk_cache m c.(hits_) c.(misses_) c.(inserts_) (u64 (c.(invalidations_) + 1)))
  else (false, mk_cache m c.(hits_) c.(misses_) c.(inserts_) c.(invalidations_)).

(** [find_mut] finds where [find] does, and an assignment through its pointer is
    what [find] reads from then on, for this name only. *)
Lemma find_mut_assign name b c i c' :
  chain_wf c.(map_) -> cache_find_mut name c = (Some i, c') ->
  (cache_find name c).2 = c' /\
  forall k, (cache_find k (assign_through i b c')).1 = if decide (k = name) then Some b else (cache_find k c).1.
Proof.
  intros Hwf. unfold cache_find_mut. destruct (find_index (map_ c) name) as [j|] eqn:Hj; [|done].
  intros [= -> <-]. split.
  - unfold cache_find, flat_find. by rewrite Hj.
  - intros k. pose proof (write_value_find (map_ c) name i b Hwf Hj k) as E.
    unfold cache_find, assign_through. simpl. rewrite E. case_decide; [done|]. by destruct (flat_find (map_ c) k).
Qed.

(** ** [chain::account_index] *)

Record account_index : Type := mk_index {
  db_ : database; cache_enabled_ : bool; cache_ : account_cache }.

(** [account_index(db, enable_cache = true)]; the cache has its default capacity. *)
Definition new_index (db : database) (enable_cache : bool) : option account_index :=
  mk_index db enable_cache <$> new_cache 64.

Definition upd_cache (f : account_cache -> account_cache) (ix : account_index) : account_index :=
  mk_index ix.(db_) ix.(cache_enabled_) (f ix.(cache_)).

(** A procedure of the database run through the reference [db_]. *)
Definition on_db {A} (m : M database A) : M account_index A := fun ix =>
  match m ix.(db_) with
  | Done a db => Done a (mk_index db ix.(cache_enabled_) ix.(cache_))
  | Thrown e db => Thrown e (mk_index db ix.(cache_enabled_) ix.(cache_))
  | Undef => Undef
  end.

Definition put_cached (name : string) (b : account_balance) : M account_index unit := fun ix =>
  match cache_put name b ix.(cache_) with
  | Some c => Done tt (upd_cache (fun _ => c) ix)
  | None => Undef
  end.

Definition set_cache_enabled (on : bool) : M account_index unit :=
  modify (fun ix =>
    mk_index ix.(db_) on (if negb on then cache_clear ix.(cache_) else ix.(cache_))).

Definition index_create (name : string) (hive hbd : Z) : M account_index unit :=
  on_db (create_account name hive hbd);;
  ix ← get;
  if ix.(cache_enabled_) then put_cached name (mk_account_balance hive hbd) else mret tt.

Definition index_find (name : string) : M account_index (option account_balance) :=
  ix ← get;
  let '(hit, c) := if ix.(cache_enabled_) then cache_find name ix.(cache_) else (None, ix.(cache_)) in
  modify (upd_cache (fun _ => c));;
  match hit with
  | Some b => mret (Some b)
  | None =>
      match ix.(db_).(balances) !! name with
      | None => mret None
      | Some b => (if ix.(cache_enabled_) then put_cached name b else mret tt);; mret (Some b)
      end
  end.

Definition index_exists (name : string) : M account_index bool :=
  b ← index_find name; mret (bool_decide (is_Some b)).

Definition index_get_balance (name : string) (sym : asset_symbol) : M account_index Z :=
  bal ← index_find name;
  match bal with
  | None => lift (Throw (protocol_error "account missing"))
  | Some b => mret (balance_field b sym)
  end.

Definition index_adjust_balance (name : string) (delta : asset) : M account_index unit :=
  on_db (adjust_balance name delta);;
  ix ← get;
  if ix.(cache_enabled_)
  then modify (upd_cache (fun c => (cache_invalidate name c).2))
  else mret tt.

Definition clear_cache : M account_index unit := modify (upd_cache cache_clear).

(** ** The cache never shows what the database does not hold *)

Definition cache_sound (ix : account_index) : Prop :=
  exists c, table_wf ix.(cache_).(map_) /\ holds ix.(cache_).(map_) c /\
    (forall k b, c !! k = Some b -> ix.(db_).(balances) !! k = Some b) /\
    (ix.(cache_enabled_) = false -> c = ∅).

Lemma clear_sound ix on :
  cache_sound ix -> cache_sound (mk_index ix.(db_) on (cache_clear ix.(cache_))).
Proof.
  intros (c & Hwf & _). destruct (clear_correct _ Hwf) as (H1 & H2 & _).
  exists ∅. split_and!; [done|done|intros k b; by rewrite lookup_empty|done].
Qed.

(** Storing what the database holds under a name that is not cached. *)
Lemma put_sound ix name b c :
  table_wf ix.(cache_).(map_) -> holds ix.(cache_).(map_) c ->
  (forall k b, c !! k = Some b -> ix.(db_).(balances) !! k = Some b) ->
  c !! name = None \/ no_tomb ix.(cache_).(map_) ->
  ix.(db_).(balances) !! name = Some b -> ix.(cache_enabled_) = true ->
  exists ix', put_cached name b ix = Done tt ix' /\ cache_sound ix' /\ ix'.(db_) = ix.(db_).
Proof.
  intros Hwf Hh Hc Hor Hb Hen. unfold put_cached, cache_put.
  destruct (insert_correct _ c name b Hwf Hh Hor) as (m' & -> & H1 & H2 & _). simpl.
  eexists. split; [done|]. split; [|done]. exists (<[name := b]> c). simpl.
  split_and!; [done|done| |congruence]. intros k b' Hl.
  apply lookup_insert_Some in Hl as [[<- <-]|[_ Hl]]; [done|by apply Hc].
Qed.

Lemma index_find_sound ix name :
  cache_sound ix ->
  exists ix', index_find name ix = Done (ix.(db_).(balances) !! name) ix' /\
    cache_sound ix' /\ ix'.(db_) = ix.(db_).
Proof.
  intros (c & Hwf & Hh & Hc & He). unfold index_find, mbind, M_bind, get, modify. simpl.
  unfold cache_find. rewrite (find_correct _ c name Hwf Hh).
  destruct (cache_enabled_ ix) eqn:Een; [destruct (c !! name) as [b|] eqn:Ec|]; simpl.
  - rewrite (Hc _ _ Ec). eexists. split; [done|]. split; [|done]. exists c. simpl. by rewrite Een.
  - destruct (balances (db_ ix) !! name) as [b|] eqn:Eb.
    + set (ix1 := upd_cache _ ix).
      destruct (put_sound ix1 name b c) as (ix' & E & H1 & H2); [done..|by left|done|done|].
      rewrite E. eexists. split; [done|]. by split.
    + eexists. split; [done|]. split; [|done]. exists c. simpl. by rewrite Een.
  - destruct (balances (db_ ix) !! name) as [b|]; eexists; (split; [done|]); split; try done;
      exists c; simpl; by rewrite Een.
Qed.

(** [agrees a b]: the index's outcome is the database's, with a sound cache. *)
Definition agrees {A} (o : outcome account_index A) (o' : outcome database A) : Prop :=
  match o, o' with
  | Done a ix', Done a' db' => a = a' /\ ix'.(db_) = db' /\ cache_sound ix'
  | Thrown e ix', Thrown e' db' => e = e' /\ ix'.(db_) = db' /\ cache_sound ix'
  | Undef, Undef => True
  | _, _ => False
  end.

Lemma adjust_balance_other name delta db db' k :
  adjust_balance name delta db = Done tt db' -> k <> name ->
  db'.(balances) !! k = db.(balances) !! k.
Proof.
  unfold adjust_balance. intros H Hk. repeat case_match; try discriminate. injection H as <-. simpl.
  by rewrite lookup_insert_ne.
Qed.
Lemma adjust_balance_thrown name delta db db' e :
  adjust_balance name delta db = Thrown e db' -> db' = db.
Proof. unfold adjust_balance. intros H. repeat case_match; try discriminate; by injection H. Qed.

Lemma invalidate_map name c : (cache_invalidate name c).2.(map_) = (flat_erase c.(map_) name).2.
Proof. unfold cache_invalidate. by destruct (flat_erase (map_ c) name) as [[] m]. Qed.

Lemma index_adjust_sound ix name delta :
  cache_sound ix -> agrees (index_adjust_balance name delta ix) (adjust_balance name delta ix.(db_)).
Proof.
  intros (c & Hwf & Hh & Hc & He). unfold index_adjust_balance, mbind, M_bind, on_db, get, modify.
  destruct (adjust_balance name delta (db_ ix)) as [[] db'|e db'|] eqn:E; [| |done].
  - pose proof (fun k => adjust_balance_other _ _ _ _ k E) as Hother.
    destruct (cache_enabled_ ix) eqn:Een; simpl.
    + pose proof (erase_correct _ c name Hwf Hh) as (_ & H1 & H2).
      split_and!; [done|done|]. exists (delete name c). simpl. rewrite invalidate_map.
      split_and!; [done|done| |done].
      intros k b Hl. apply lookup_delete_Some in Hl as [Hne Hl]. rewrite Hother by done. by apply Hc.
    + split_and!; [done|done|]. exists ∅. rewrite (He eq_refl) in Hh. simpl.
      split_and!; [done|done|intros k b; by rewrite lookup_empty|done].
  - apply adjust_balance_thrown in E as ->. split_and!; [done|done|]. by exists c.
Qed.

Lemma index_create_sound ix name h b :
  cache_sound ix -> ix.(db_).(balances) !! name = None ->
  agrees (index_create name h b ix) (create_account name h b ix.(db_)).
Proof.
  intros (c & Hwf & Hh & Hc & He) Hnew. unfold index_create, mbind, M_bind, on_db, get, modify.
  destruct (create_account name h b (db_ ix)) as [[] db'|e db'|] eqn:E.
  - apply bind_done in E as ([] & s1 & Hl & E). apply lift_done in Hl as [_ ->]. injection E as <-.
    simpl. set (ix1 := mk_index _ _ _).
    assert (Hcn : c !! name = None).
    { apply eq_None_not_Some. intros [b' Hb']. apply Hc in Hb'. congruence. }
    assert (Hc1 : forall k b', c !! k = Some b' -> balances (db_ ix1) !! k = Some b').
    { intros k b' Hl. simpl. rewrite lookup_insert_ne by congruence. by apply Hc. }
    destruct (cache_enabled_ ix) eqn:Een.
    + destruct (put_sound ix1 name (mk_account_balance h b) c) as (ix' & -> & H1 & H2);
        [done|done|done|by left|apply lookup_insert_eq|done|]. done.
    + split_and!; [done|done|]. exists c. by split_and!.
  - assert (db' = db_ ix) as ->.
    { unfold create_account, mbind, M_bind, lift in E.
      destruct (assert_account_name name); [discriminate|by injection E]. }
    split_and!; [done|done|]. by exists c.
  - unfold create_account, mbind, M_bind, lift in E. by destruct (assert_account_name name).
Qed.

(** C26. The cached index is transparent as long as accounts are created once: in
    any state whose cache is sound, [find] answers what the database holds,
    [adjust_balance] and the creation of a new account behave as on the
    database, exceptions included, enabling, disabling and clearing only drop
    entries, and the cache stays sound throughout. *)
Theorem account_index_is_transparent (ix : account_index) :
  cache_sound ix ->
  (forall name, exists ix', index_find name ix = Done (ix.(db_).(balances) !! name) ix' /\
     cache_sound ix' /\ ix'.(db_) = ix.(db_)) /\
  (forall name delta,
     agrees (index_adjust_balance name delta ix) (adjust_balance name delta ix.(db_))) /\
  (forall name h b, ix.(db_).(balances) !! name = None ->
     agrees (index_create name h b ix) (create_account name h b ix.(db_))) /\
  (forall on, exists ix', set_cache_enabled on ix = Done tt ix' /\ ix'.(db_) = ix.(db_) /\
     cache_sound ix') /\
  (exists ix', clear_cache ix = Done tt ix' /\ cache_sound ix' /\ ix'.(db_) = ix.(db_)).
Proof.
  intros H. split_and!.
  - intros name. by apply index_find_sound.
  - intros name delta. by apply index_adjust_sound.
  - intros name h b Hn. by apply index_create_sound.
  - intros on. eexists. split; [done|]. split; [done|]. destruct on; [|by apply clear_sound].
    destruct H as (c & ? & ? & ? & _). exists c. by split_and!.
  - eexists. split; [done|]. split; [|done]. by apply clear_sound.
Qed.

(** An index over a database, with the default capacity. *)
Lemma new_index_sound db on : exists ix, new_index db on = Some ix /\ cache_sound ix /\ ix.(db_) = db.
Proof.
  destruct (new_correct (V := account_balance) 64) as (m & E & Hwf & Hh & _).
  exists (mk_index db on (mk_cache m 0 0 0 0)). unfold new_index, new_cache. rewrite E.
  split_and!; [done| |done]. exists ∅. split_and!; [done|done|intros k b; by rewrite lookup_empty|done].
Qed.

Definition two_accounts : database :=
  upd_balances (fun _ => <["bob" := mk_account_balance 1 0]> (<["cat" := mk_account_balance 2 0]> ∅))
    empty_database.

Example account_index_is_transparent_witness :
  exists ix ix', new_index two_accounts true = Some ix /\
    index_find "cat" ix = Done (Some (mk_account_balance 2 0)) ix' /\ cache_sound ix'.
Proof.
  destruct (new_index_sound two_accounts true) as (ix & E & Hs & Hdb).
  destruct (proj1 (account_index_is_transparent ix Hs) "cat") as (ix' & Hf & Hs' & _).
  exists ix, ix'. split; [exact E|]. split; [|exact Hs']. rewrite Hf, Hdb. reflexivity.
Defined.

Definition stale_read : M account_index (option account_balance) :=
  index_find "bob";; index_find "cat";;
  index_adjust_balance "bob" (mk_asset 5 HIVE);;
  index_create "cat" 3 0;;
  index_adjust_balance "cat" (mk_asset 4 HIVE);;
  index_find "cat".

(** Creating an account again breaks the index: the second write-through of a
    cached name can land on another name's tombstone, the invalidation of
    [adjust_balance] then removes only that copy, and [find] returns the balance
    the first read cached, which the database no longer holds. *)
Theorem index_can_read_stale_balance :
  exists ix ix', new_index two_accounts true = Some ix /\
    stale_read ix = Done (Some (mk_account_balance 2 0)) ix' /\
    ix'.(db_).(balances) !! "cat" = Some (mk_account_balance 7 0).
Proof.
  destruct (new_index_sound two_accounts true) as (ix & E & _). exists ix.
  set (o := match new_index two_accounts true with Some ix => stale_read ix | None => Undef end).
  assert (H : match o with
              | Done a ix' => (a, ix'.(db_).(balances) !! "cat")
              | _ => (None, None)
              end = (Some (mk_account_balance 2 0), Some (mk_account_balance 7 0)))
    by (vm_compute; reflexivity).
  unfold o in H. rewrite E in H.
  destruct (stale_read ix) as [a ix'| |] eqn:Er; try discriminate H.
  injection H as -> H. exists ix'. split; [exact E|]. split; [reflexivity|exact H].
Qed.
