(* ===== verification/Api.v ===== *)
(** * Read API ([include/hive_native/api/database_api_stubs.hpp], [src/api/database_api_stubs.cpp])

    Point lookups and the listings, which scan a table in key order. All six
    listings are one loop, [list_loop], with their own conditions. *)
From S2P Require Import Prelude Types Protocol Database EvalNft EvalHtlc Engine EvalContracts.
From S2P Require Import NftInvariant HtlcInvariant ContractInvariant Chain ChainProperties.

Record list_args : Type := mk_list_args { args_start : Z; args_limit : Z; args_light : bool }.

Definition clamp_limit (limit : Z) : Z :=
  if limit =? 0 then 1 else if 100 <? limit then 100 else limit.

Definition maybe_light_nft (n : nft_object) (light : bool) : nft_object :=
  if light then mk_nft n.(nft_id) n.(nft_collection) n.(nft_token_serial) n.(nft_owner)
    n.(nft_approved) n.(nft_metadata_hash) "" n.(nft_soulbound) n.(nft_minted)
  else n.
Definition maybe_light_htlc (h : htlc_object) (light : bool) : htlc_object :=
  if light then mk_htlc h.(htlc_id) h.(htlc_from) h.(htlc_to) h.(htlc_amount) h.(htlc_preimage_hash)
    h.(htlc_preimage_size) h.(htlc_expiration) h.(htlc_created) "" h.(status)
  else h.
Definition maybe_light_contract (c : contract_object) (light : bool) : contract_object :=
  if light then mk_contract c.(ctr_id) c.(ctr_owner) c.(ctr_code_hash) [] c.(ctr_created) else c.

(** ** Lookups *)

Definition get_nft (db : database) (id : Z) (light : bool) : option nft_object :=
  if db.(config).(nft_skip_state) then None
  else match db.(nfts) !! id with None => None | Some n => Some (maybe_light_nft n light) end.

Definition get_nft_collection (db : database) (id : Z) : option nft_collection_object :=
  if db.(config).(nft_skip_state) then None else db.(collections) !! id.

Definition get_nft_collection_by_symbol (db : database) (s : string) : option nft_collection_object :=
  if db.(config).(nft_skip_state) then None
  else match db.(collection_by_symbol) !! s with
       | None => None
       | Some id => db.(collections) !! id
       end.

Definition get_htlc (db : database) (id : Z) (light : bool) : option htlc_object :=
  if db.(config).(htlc_skip_state) then None
  else match db.(htlcs) !! id with None => None | Some h => Some (maybe_light_htlc h light) end.

Definition get_contract (db : database) (id : Z) (light : bool) : option contract_object :=
  if db.(config).(contracts_skip) then None
  else match db.(contracts) !! id with None => None | Some c => Some (maybe_light_contract c light) end.

Definition get_storage_key (db : database) (id : Z) (key : string) : option (list byte) :=
  if db.(config).(contracts_skip) then None
  else match db.(contract_storage) !! id with None => None | Some s => s !! key end.

(** ** Listings *)

(** [for(...) { if(skip) continue; out.push_back(view); if(out.size() >= lim) break; }] *)
Fixpoint list_loop {V R} (skip : V -> bool) (view : V -> R) (lim : Z) (l : list (Z * V))
  (out : list R) : list R :=
  match l with
  | [] => out
  | (_, v) :: l' =>
      if skip v then list_loop skip view lim l' out
      else let out := out ++ [view v] in
           if lim <=? size_of out then out else list_loop skip view lim l' out
  end.

Definition list_nfts_by_owner (db : database) (owner : string) (args : list_args) : list nft_object :=
  if db.(config).(nft_skip_state) then [] else
  list_loop (fun n => negb (bool_decide (n.(nft_owner) = owner)) || (n.(nft_id) <? args.(args_start)))
    (fun n => maybe_light_nft n args.(args_light)) (clamp_limit args.(args_limit))
    (elements_by_key db.(nfts)) [].

Definition list_nfts_by_collection (db : database) (c : Z) (args : list_args) : list nft_object :=
  if db.(config).(nft_skip_state) then [] else
  list_loop (fun n => negb (n.(nft_collection) =? c) || (n.(nft_id) <? args.(args_start)))
    (fun n => maybe_light_nft n args.(args_light)) (clamp_limit args.(args_limit))
    (elements_by_key db.(nfts)) [].

Definition list_htlcs_by_from (db : database) (from : string) (args : list_args) : list htlc_object :=
  if db.(config).(htlc_skip_state) then [] else
  list_loop (fun h => negb (bool_decide (h.(htlc_from) = from)) || (h.(htlc_id) <? args.(args_start)))
    (fun h => maybe_light_htlc h args.(args_light)) (clamp_limit args.(args_limit))
    (elements_by_key db.(htlcs)) [].

Definition list_htlcs_by_to (db : database) (to : string) (args : list_args) : list htlc_object :=
  if db.(config).(htlc_skip_state) then [] else
  list_loop (fun h => negb (bool_decide (h.(htlc_to) = to)) || (h.(htlc_id) <? args.(args_start)))
    (fun h => maybe_light_htlc h args.(args_light)) (clamp_limit args.(args_limit))
    (elements_by_key db.(htlcs)) [].

Definition list_htlcs_by_expiration (db : database) (min_expiration : Z) (args : list_args)
  : list htlc_object :=
  if db.(config).(htlc_skip_state) then [] else
  list_loop (fun h => (h.(htlc_expiration) <? min_expiration) || (h.(htlc_id) <? args.(args_start))
                      || negb (bool_decide (h.(status) = open)))
    (fun h => maybe_light_htlc h args.(args_light)) (clamp_limit args.(args_limit))
    (elements_by_key db.(htlcs)) [].

Definition list_contracts_by_owner (db : database) (owner : string) (args : list_args)
  : list contract_object :=
  if db.(config).(contracts_skip) then [] else
  list_loop (fun c => negb (bool_decide (c.(ctr_owner) = owner)) || (c.(ctr_id) <? args.(args_start)))
    (fun c => maybe_light_contract c true) (clamp_limit args.(args_limit))
    (elements_by_key db.(contracts)) [].

(** ** A page is a prefix of the matches *)

Lemma clamp_limit_range limit : 0 <= limit -> 1 <= clamp_limit limit <= 100.
Proof.
  intros H. unfold clamp_limit. destruct (Z.eqb_spec limit 0); [lia|].
  destruct (Z.ltb_spec 100 limit); lia.
Qed.

Definition matches {V} (skip : V -> bool) (l : list (Z * V)) : list V :=
  filter (fun v => skip v = false) l.*2.

Lemma list_loop_spec {V R} (skip : V -> bool) (view : V -> R) lim l out :
  size_of out < lim ->
  list_loop skip view lim l out = out ++ take (Z.to_nat lim - length out) (map view (matches skip l)).
Proof.
  unfold size_of, matches. revert out. induction l as [|[k v] l IH]; intros out Hout; simpl.
  - by rewrite take_nil, app_nil_r.
  - rewrite filter_cons. destruct (skip v) eqn:E; simpl.
    + by apply IH.
    + unfold size_of. rewrite length_app. simpl.
      destruct (Z.to_nat lim - length out)%nat as [|r] eqn:Er; [lia|]. simpl.
      destruct (Z.leb_spec lim (Z.of_nat (length out + 1))).
      * replace r with 0%nat by lia. by rewrite take_0.
      * rewrite IH by (rewrite length_app; simpl; lia). rewrite <-app_assoc. simpl.
        rewrite length_app. simpl. by replace (Z.to_nat lim - (length out + 1))%nat with r by lia.
Qed.

Lemma list_page {V R} (skip : V -> bool) (view : V -> R) limit l : 0 <= limit ->
  list_loop skip view (clamp_limit limit) l []
  = take (Z.to_nat (clamp_limit limit)) (map view (matches skip l)).
Proof.
  intros H. pose proof (clamp_limit_range limit H). rewrite list_loop_spec by (unfold size_of; simpl; lia).
  simpl. by rewrite Nat.sub_0_r.
Qed.

Lemma filter_all_in {A} (P : A -> Prop) `{!forall x, Decision (P x)} (l : list _) :
  (forall x, x ∈ l -> P x) -> filter P l = l.
Proof.
  induction l as [|x l IH]; intros Hin; [done|]. rewrite filter_cons_True by (apply Hin; by left).
  f_equal. apply IH. intros y Hy. apply Hin. by right.
Qed.
Lemma filter_none_in {A} (P : A -> Prop) `{!forall x, Decision (P x)} (l : list _) :
  (forall x, x ∈ l -> ~ P x) -> filter P l = [].
Proof.
  induction l as [|x l IH]; intros Hin; [done|]. rewrite filter_cons_False by (apply Hin; by left).
  apply IH. intros y Hy. apply Hin. by right.
Qed.

(** In a list sorted by id, what is past an element is what comes after it. *)
Lemma filter_past {R} (id : R -> Z) (l1 : list R) r l2 :
  StronglySorted Z.lt (map id (l1 ++ r :: l2)) ->
  filter (fun x => id r + 1 <= id x) (l1 ++ r :: l2) = l2.
Proof.
  rewrite map_app. intros H. apply StronglySorted_app in H as (H1 & _ & H2). simpl in *.
  apply StronglySorted_inv in H2 as [_ H2]. rewrite Forall_forall in H2.
  rewrite filter_app, filter_cons_False by lia.
  rewrite filter_none_in, filter_all_in; [done|..].
  - intros x Hx. specialize (H2 (id x)). cut (id r < id x); [lia|]. apply H2.
    apply list_elem_of_fmap. by exists x.
  - intros x Hx. cut (id x < id r); [lia|]. apply H1; [|by left].
    apply list_elem_of_fmap. by exists x.
Qed.
Lemma filter_sorted {R} (id : R -> Z) (P : R -> Prop) `{!forall x, Decision (P x)} (l : list _) :
  StronglySorted Z.lt (map id l) -> StronglySorted Z.lt (map id (filter P l)).
Proof.
  induction l as [|x l IH]; intros Hs; [done|]. simpl in Hs.
  apply StronglySorted_inv in Hs as [Hs Hx]. rewrite filter_cons. case_decide; [|by apply IH].
  simpl. constructor; [by apply IH|]. apply Forall_forall. intros y Hy.
  apply list_elem_of_fmap in Hy as (z & -> & Hz). apply list_elem_of_filter in Hz as [_ Hz].
  rewrite Forall_forall in Hx. apply Hx. apply list_elem_of_fmap. by exists z.
Qed.

(** ** Paging through a listing

    A client asks again from one past the last id it got. *)

Section paging.
Context {R : Type} (id : R -> Z) (page : Z -> list R).

Fixpoint all_pages (fuel : nat) (start : Z) : list R :=
  match fuel with
  | O => []
  | S fuel' =>
      match last (page start) with
      | None => []
      | Some r => page start ++ all_pages fuel' (id r + 1)
      end
  end.

Lemma all_pages_complete (all : list R) (lim fuel : nat) (start : Z) :
  (0 < lim)%nat -> StronglySorted Z.lt (map id all) ->
  (forall s, page s = take lim (filter (fun r => s <= id r) all)) ->
  (length (filter (fun r => (start <= id r)%Z) all) < fuel)%nat ->
  all_pages fuel start = filter (fun r => start <= id r) all.
Proof.
  intros Hlim Hs Hp. revert start. induction fuel as [|fuel IH]; intros start Hf; [lia|]. simpl.
  rewrite Hp. set (rest := filter (fun r => start <= id r) all) in *.
  destruct (last (take lim rest)) as [r|] eqn:Er.
  2: { apply last_None in Er. destruct rest as [|x rest']; [done|]. destruct lim; [lia|discriminate]. }
  apply last_Some in Er as [l' Er].
  assert (Hrest : rest = l' ++ r :: drop lim rest)
    by (rewrite <-(take_drop lim rest) at 1; by rewrite Er, <-app_assoc).
  assert (Hr : r ∈ rest) by (rewrite Hrest; apply elem_of_app; right; by left).
  assert (Hsplit : filter (fun r' => id r + 1 <= id r') all = drop lim rest).
  { replace (filter (fun r' => id r + 1 <= id r') all)
      with (filter (fun r' => id r + 1 <= id r') rest).
    - rewrite Hrest at 1. apply filter_past. rewrite <-Hrest. by apply filter_sorted.
    - unfold rest. rewrite list_filter_filter. apply list_filter_iff. intros x.
      apply list_elem_of_filter in Hr as [Hr _]. lia. }
  rewrite IH; [by rewrite Hsplit, take_drop|].
  rewrite Hsplit, length_drop.
  assert (Hl : (0 < length (take lim rest))%nat) by (rewrite Er, length_app; simpl; lia).
  rewrite length_take in Hl. lia.
Qed.
End paging.

(** ** The listings *)

(** The objects of a table in the order of their ids. *)
Definition in_id_order {V} (m : gmap Z V) : list V := (elements_by_key m).*2.

Lemma in_id_order_sorted {V} (idf : V -> Z) (m : gmap Z V) :
  (forall k v, m !! k = Some v -> idf v = k) -> StronglySorted Z.lt (map idf (in_id_order m)).
Proof.
  intros Hid. replace (map idf (in_id_order m)) with ((elements_by_key m).*1);
    [apply elements_by_key_strict|].
  unfold in_id_order. change (map idf) with (fmap (M := list) idf). rewrite <-list_fmap_compose.
  apply list_fmap_ext. intros i [k v] Hi. simpl. symmetry. apply Hid.
  apply elem_of_elements_by_key. by eapply list_elem_of_lookup_2.
Qed.

Lemma list_loop_ext {V R} (skip skip' : V -> bool) (view : V -> R) lim l out :
  (forall v, skip v = skip' v) -> list_loop skip view lim l out = list_loop skip' view lim l out.
Proof.
  intros H. revert out. induction l as [|[k v] l IH]; intros out; simpl; [done|].
  rewrite H. case_match; [apply IH|]. case_match; [done|apply IH].
Qed.

(** A listing with condition [keep] and start [s]. *)
Definition listing {V R} (keep : V -> bool) (idf : V -> Z) (view : V -> R) (limit : Z)
  (m : gmap Z V) (s : Z) : list R :=
  list_loop (fun v => negb (keep v) || (idf v <? s)) view (clamp_limit limit) (elements_by_key m) [].

Lemma listing_spec {V R} (keep : V -> bool) (idf : V -> Z) (view : V -> R) limit (m : gmap Z V) s :
  0 <= limit ->
  listing keep idf view limit m s =
    take (Z.to_nat (clamp_limit limit))
      (map view (filter (fun v => s <= idf v) (filter (fun v => keep v = true) (in_id_order m)))).
Proof.
  intros H. unfold listing. rewrite list_page by done. do 2 f_equal. unfold matches.
  rewrite list_filter_filter. apply list_filter_iff. intros v.
  destruct (keep v), (Z.ltb_spec (idf v) s); simpl; split; intros; destruct_and?; try done; lia.
Qed.

Lemma filter_map_view {V R} (idf : V -> Z) (idr : R -> Z) (view : V -> R) s (l : list V) :
  (forall v, idr (view v) = idf v) ->
  filter (fun r => s <= idr r) (map view l) = map view (filter (fun v => s <= idf v) l).
Proof.
  intros H. induction l as [|v l IH]; [done|]. simpl. rewrite !filter_cons, H, IH.
  by case_decide.
Qed.

Lemma listing_pages {V R} (keep : V -> bool) (idf : V -> Z) (idr : R -> Z) (view : V -> R) limit
  (m : gmap Z V) (page : Z -> list R) :
  (forall k v, m !! k = Some v -> idf v = k /\ 0 <= k) -> (forall v, idr (view v) = idf v) ->
  0 <= limit -> (forall s, page s = listing keep idf view limit m s) ->
  all_pages idr page (S (size m)) 0 = map view (filter (fun v => keep v = true) (in_id_order m)).
Proof.
  intros Hid Hview Hlim Hpage. set (all := map view (filter (fun v => keep v = true) (in_id_order m))).
  assert (H0 : filter (fun r => 0 <= idr r) all = all).
  { apply filter_all_in. intros r Hr. apply list_elem_of_fmap in Hr as (v & -> & Hv).
    apply list_elem_of_filter in Hv as [_ Hv]. rewrite Hview. unfold in_id_order in Hv.
    apply list_elem_of_fmap in Hv as ([k v'] & -> & Hkv). apply elem_of_elements_by_key in Hkv.
    simpl. destruct (Hid _ _ Hkv) as [-> ?]. done. }
  rewrite <-H0 at 1. apply (all_pages_complete idr page all (Z.to_nat (clamp_limit limit))).
  - pose proof (clamp_limit_range limit Hlim). lia.
  - unfold all. replace (map idr (map view (filter (fun v => keep v = true) (in_id_order m))))
      with (map idf (filter (fun v => keep v = true) (in_id_order m))).
    + apply filter_sorted, in_id_order_sorted. intros k v Hk. by apply Hid.
    + rewrite map_map. apply map_ext. done.
  - intros s. rewrite Hpage, listing_spec by done. unfold all. by rewrite (filter_map_view idf).
  - eapply Nat.le_lt_trans; [apply length_filter|]. unfold all. rewrite length_map.
    eapply Nat.le_lt_trans; [apply length_filter|]. unfold in_id_order.
    rewrite length_fmap, (Permutation_length (elements_by_key_permutation m)), length_map_to_list. lia.
Qed.

(** C38. Paging is complete and does not repeat: in every reachable state of a node
    that keeps the tables, asking each of the six listings again from one past
    the last id, until a page is empty, yields exactly the matching objects, in
    id order, whatever the limit asked for; as many pages as there are objects
    plus one are enough. *)
Theorem listings_page_completely (eng : engine) `{!EngineLaws eng} (db : database) (limit : Z)
  (light : bool) (who : string) (c min_expiration : Z) :
  reachable eng db -> 0 <= limit ->
  db.(config).(nft_skip_state) = false -> db.(config).(htlc_skip_state) = false ->
  db.(config).(contracts_skip) = false ->
  let args s := mk_list_args s limit light in
  let nft_view n := maybe_light_nft n light in
  let htlc_view h := maybe_light_htlc h light in
  all_pages nft_id (fun s => list_nfts_by_owner db who (args s)) (S (size db.(nfts))) 0
    = map nft_view (filter (fun n => bool_decide (n.(nft_owner) = who) = true) (in_id_order db.(nfts))) /\
  all_pages nft_id (fun s => list_nfts_by_collection db c (args s)) (S (size db.(nfts))) 0
    = map nft_view (filter (fun n => (n.(nft_collection) =? c) = true) (in_id_order db.(nfts))) /\
  all_pages htlc_id (fun s => list_htlcs_by_from db who (args s)) (S (size db.(htlcs))) 0
    = map htlc_view (filter (fun h => bool_decide (h.(htlc_from) = who) = true) (in_id_order db.(htlcs))) /\
  all_pages htlc_id (fun s => list_htlcs_by_to db who (args s)) (S (size db.(htlcs))) 0
    = map htlc_view (filter (fun h => bool_decide (h.(htlc_to) = who) = true) (in_id_order db.(htlcs))) /\
  all_pages htlc_id (fun s => list_htlcs_by_expiration db min_expiration (args s)) (S (size db.(htlcs))) 0
    = map htlc_view (filter (fun h => (min_expiration <=? h.(htlc_expiration)) &&
        bool_decide (h.(status) = open) = true) (in_id_order db.(htlcs))) /\
  all_pages ctr_id (fun s => list_contracts_by_owner db who (args s)) (S (size db.(contracts))) 0
    = map (fun k => maybe_light_contract k true)
        (filter (fun k => bool_decide (k.(ctr_owner) = who) = true) (in_id_order db.(contracts))).
Proof.
  intros Hr Hl E1 E2 E3 args nft_view htlc_view. destruct (reachable_inv eng db Hr) as [Wn Wh _ Wk].
  assert (Hn : forall k v, nfts db !! k = Some v -> nft_id v = k /\ 0 <= k).
  { intros k v Hv. destruct (wf_nfts _ _ _ _ _ _ _ Wn _ _ Hv) as (? & ? & _). lia. }
  assert (Hh : forall k v, htlcs db !! k = Some v -> htlc_id v = k /\ 0 <= k).
  { intros k v Hv. destruct (wf_htlcs _ _ _ Wh _ _ Hv) as (? & ? & _). lia. }
  assert (Hk : forall k v, contracts db !! k = Some v -> ctr_id v = k /\ 0 <= k).
  { intros k v Hv. destruct (wf_contracts _ _ _ _ Wk _ _ Hv) as (? & ? & _). lia. }
  assert (Vn : forall v, nft_id (nft_view v) = nft_id v) by (unfold nft_view; by destruct light).
  assert (Vh : forall v, htlc_id (htlc_view v) = htlc_id v) by (unfold htlc_view; by destruct light).
  split_and!.
  - apply (listing_pages _ nft_id _ nft_view limit); [done..|]. intros s.
    unfold list_nfts_by_owner. by rewrite E1.
  - apply (listing_pages _ nft_id _ nft_view limit); [done..|]. intros s.
    unfold list_nfts_by_collection. by rewrite E1.
  - apply (listing_pages _ htlc_id _ htlc_view limit); [done..|]. intros s.
    unfold list_htlcs_by_from. by rewrite E2.
  - apply (listing_pages _ htlc_id _ htlc_view limit); [done..|]. intros s.
    unfold list_htlcs_by_to. by rewrite E2.
  - apply (listing_pages _ htlc_id _ htlc_view limit); [done..|]. intros s.
    unfold list_htlcs_by_expiration. rewrite E2. apply list_loop_ext. intros h.
    rewrite (Z.leb_antisym (htlc_expiration h) min_expiration). by destruct (_ <? _), (bool_decide _), (_ <? _).
  - apply (listing_pages _ ctr_id _ (fun k => maybe_light_contract k true) limit); [done..|].
    intros s. unfold list_contracts_by_owner. by rewrite E3.
Qed.

Example listings_page_completely_witness :
  map nft_id (all_pages nft_id
    (fun s => list_nfts_by_collection sample_state 1 (mk_list_args s 1 true)) 3 0) = [1; 2].
Proof.
  pose proof (listings_page_completely default_engine sample_state 1 true "bob" 1 0 sample_reachable
    ltac:(lia) eq_refl eq_refl eq_refl) as (_ & H & _).
  assert (Hs : size sample_state.(nfts) = 2%nat) by (vm_compute; reflexivity).
  rewrite Hs in H. cbv beta zeta in H. rewrite H. vm_compute. reflexivity.
Defined.

(** [start] is an inclusive bound: listing an owner's NFTs from the id of one
    of them returns that one first. *)
Theorem list_start_is_inclusive (eng : engine) `{!EngineLaws eng} (db : database) (limit : Z)
  (light : bool) (id : Z) (n : nft_object) :
  reachable eng db -> 0 <= limit -> db.(config).(nft_skip_state) = false ->
  db.(nfts) !! id = Some n ->
  head (list_nfts_by_owner db n.(nft_owner) (mk_list_args id limit light))
    = Some (maybe_light_nft n light).
Proof.
  intros Hr Hl Hs Hn. destruct (reachable_inv eng db Hr) as [Wn _ _ _].
  assert (Hid : forall k v, nfts db !! k = Some v -> nft_id v = k).
  { intros k v Hv. by destruct (wf_nfts _ _ _ _ _ _ _ Wn _ _ Hv). }
  pose proof (in_id_order_sorted nft_id (nfts db) Hid) as Hsort.
  assert (Hin : n ∈ in_id_order (nfts db)).
  { apply list_elem_of_fmap. exists (id, n). split; [done|]. by apply elem_of_elements_by_key. }
  apply list_elem_of_split in Hin as (l1 & l2 & E).
  unfold list_nfts_by_owner. rewrite Hs.
  change (list_loop _ _ _ _ []) with (listing (fun m => bool_decide (nft_owner m = nft_owner n)) nft_id
    (fun m => maybe_light_nft m light) limit (nfts db) id).
  rewrite listing_spec by done. rewrite E in *.
  rewrite map_app in Hsort. apply StronglySorted_app in Hsort as (Hlt & _ & _).
  rewrite !filter_app, filter_cons, bool_decide_eq_true_2, decide_True by done.
  rewrite filter_cons, (Hid _ _ Hn), decide_True by lia.
  rewrite (filter_none_in (fun v => id <= nft_id v)).
  - pose proof (clamp_limit_range limit Hl). simpl.
    destruct (Z.to_nat (clamp_limit limit)) eqn:Ec; [lia|]. done.
  - intros x Hx. apply list_elem_of_filter in Hx as [_ Hx].
    specialize (Hlt (nft_id x) (nft_id n)). rewrite (Hid _ _ Hn) in Hlt.
    cut (nft_id x < id); [lia|]. apply Hlt; [apply list_elem_of_fmap; by exists x|]. rewrite <-(Hid _ _ Hn). by left.
Qed.

Example list_start_is_inclusive_witness :
  exists n, sample_state.(nfts) !! 1 = Some n /\
    head (list_nfts_by_owner sample_state n.(nft_owner) (mk_list_args 1 100 true))
      = Some (maybe_light_nft n true).
Proof.
  assert (H : is_Some (sample_state.(nfts) !! 1))
    by (apply not_eq_None_Some; vm_compute; discriminate).
  destruct H as [n Hn]. exists n. split; [exact Hn|].
  apply (list_start_is_inclusive default_engine sample_state 100 true 1 n sample_reachable);
    [lia|reflexivity|exact Hn].
Defined.
