(* ===== verification/NodeProfiles.v ===== *)
(** * Node profiles ([include/hive_native/chain/node_profiles.hpp])

    Named configurations and the legality check for consensus nodes, related to
    the gates of the evaluators. [HIVE_LIGHT_NODE] is an argument. *)
From S2P Require Import Prelude Types Crypto Protocol Costs Database EvalNft EvalHtlc Engine.
From S2P Require Import EvalContracts Chain.

(** [raw_profile] is a value outside the enumerators. *)
Inductive node_profile : Type := profile_full | api_pruned | mobile_light | raw_profile (v : Z).

Definition to_string (p : node_profile) : string :=
  match p with
  | profile_full => "full"
  | api_pruned => "api_pruned"
  | mobile_light => "mobile_light"
  | raw_profile _ => "unknown"
  end.

Definition config_ok_for_role (cfg : node_config) : bool :=
  if cfg.(is_consensus_node) && (cfg.(nft_skip_state) || cfg.(htlc_skip_state)) then false else true.

Definition sanitize_consensus_skips (cfg : node_config) : bool * node_config :=
  if negb cfg.(is_consensus_node) then (true, cfg) else
  let '(ok, cfg) :=
    if cfg.(nft_skip_state)
    then (false, mk_node_config false cfg.(htlc_skip_state) cfg.(contracts_skip)
                   cfg.(is_consensus_node) cfg.(hardfork))
    else (true, cfg) in
  if cfg.(htlc_skip_state)
  then (false, mk_node_config cfg.(nft_skip_state) false cfg.(contracts_skip)
                 cfg.(is_consensus_node) cfg.(hardfork))
  else (ok, cfg).

Definition apply_profile (p : node_profile) (cfg : node_config) : node_config :=
  let cfg :=
    match p with
    | profile_full => mk_node_config false false false true cfg.(hardfork)
    | api_pruned => mk_node_config false false true false cfg.(hardfork)
    | mobile_light => mk_node_config true true true false cfg.(hardfork)
    | raw_profile _ => cfg
    end in
  if cfg.(is_consensus_node)
  then mk_node_config false false cfg.(contracts_skip) cfg.(is_consensus_node) cfg.(hardfork)
  else cfg.

Definition apply_profile_db (p : node_profile) : database -> database := upd_config (apply_profile p).
Definition make_node_config (p : node_profile) : node_config := apply_profile p default_node_config.

Definition default_profile (HIVE_LIGHT_NODE : bool) : node_profile :=
  if HIVE_LIGHT_NODE then mobile_light else profile_full.
Definition apply_default_profile (HIVE_LIGHT_NODE : bool) (cfg : node_config) : node_config :=
  apply_profile (default_profile HIVE_LIGHT_NODE) cfg.

Definition require_config_ok_for_role (cfg : node_config) : result unit :=
  check_not (negb (config_ok_for_role cfg)) "consensus node cannot skip NFT/HTLC state".

(** ** Properties *)

(** Profiles and the sanitizer make legal configurations: whatever the
    configuration and the profile (or value outside the enumeration), the result
    of [apply_profile] and of [sanitize_consensus_skips] passes the role check
    and keeps the hardfork; both are idempotent; and the sanitizer reports [true]
    exactly on the configurations that pass already, which it returns as they
    are. *)
Theorem profiles_are_legal (p : node_profile) (cfg : node_config) :
  require_config_ok_for_role (apply_profile p cfg) = Ret tt /\
  (apply_profile p cfg).(hardfork) = cfg.(hardfork) /\
  apply_profile p (apply_profile p cfg) = apply_profile p cfg /\
  require_config_ok_for_role (sanitize_consensus_skips cfg).2 = Ret tt /\
  (sanitize_consensus_skips cfg).1 = config_ok_for_role cfg /\
  ((sanitize_consensus_skips cfg).1 = true <-> (sanitize_consensus_skips cfg).2 = cfg).
Proof. destruct p, cfg as [[] [] [] [] hf]; split_and!; try done; split; intros; done || congruence. Qed.

(** What a profile lets through: a node set to [mobile_light] refuses every
    operation and leaves the database as it was, whatever engine it links; one
    set to [full] has every feature its hardfork activates; one set to
    [api_pruned] applies NFT and HTLC operations but no contract operation. *)
Theorem profile_gates (eng : engine) (db : database) :
  (forall op, exists what, apply_with eng op (apply_profile_db mobile_light db)
     = Thrown (protocol_error what) (apply_profile_db mobile_light db)) /\
  (nft_enabled (apply_profile_db profile_full db) <-> HIVE_HARDFORK_NFT <= db.(config).(hardfork)) /\
  (htlc_enabled (apply_profile_db profile_full db) <-> HIVE_HARDFORK_HTLC <= db.(config).(hardfork)) /\
  (contracts_enabled (apply_profile_db profile_full db) <->
     HIVE_HARDFORK_CONTRACTS <= db.(config).(hardfork)) /\
  (nft_enabled (apply_profile_db api_pruned db) <-> HIVE_HARDFORK_NFT <= db.(config).(hardfork)) /\
  (htlc_enabled (apply_profile_db api_pruned db) <-> HIVE_HARDFORK_HTLC <= db.(config).(hardfork)) /\
  ~ contracts_enabled (apply_profile_db api_pruned db).
Proof.
  split; [|unfold nft_enabled, htlc_enabled, contracts_enabled; simpl;
           split_and!; try tauto; intros [_ H]; discriminate H].
  intros op. unfold apply_with, apply_nft_create_collection, apply_nft_mint, apply_nft_transfer,
    apply_nft_approve, apply_nft_set_approval_for_all, apply_nft_burn, apply_htlc_create,
    apply_htlc_redeem, apply_htlc_refund, apply_contract_deploy_with, apply_contract_call_with.
  unfold require_hardfork, require_full_nft_state, require_full_htlc_state, mbind, M_bind, get, throw_if.
  destruct op; simpl; destruct (_ <? _); simpl; try (by eexists); unfold contracts_skipped; simpl; by eexists.
Qed.
