(* ===== verification/Plugin.v ===== *)
(** * Contracts plugin ([plugins/hive_contracts/])

    The façade over the engine: two flags and a pointer in front of
    [default_engine]. *)
From S2P Require Import Prelude Types Engine.

Record plugin_options : Type := mk_plugin_options {
  opt_enabled : bool; opt_execute : bool; opt_engine_name : string }.
Definition default_plugin_options : plugin_options := mk_plugin_options true true "".

(** [engine_ == nullptr] is [None]. *)
Record hive_contracts_plugin : Type := mk_plugin {
  initialized_ : bool; opts_ : plugin_options; engine_ : option engine }.
Definition new_plugin : hive_contracts_plugin := mk_plugin false default_plugin_options None.

Definition plugin_init (opts : plugin_options) (p : hive_contracts_plugin) : hive_contracts_plugin :=
  if p.(initialized_) then p else mk_plugin true opts (Some default_engine).

Definition plugin_shutdown (_ : hive_contracts_plugin) : hive_contracts_plugin :=
  mk_plugin false default_plugin_options None.

Definition plugin_engine_name (p : hive_contracts_plugin) : string :=
  match p.(initialized_), p.(engine_) with
  | true, Some e => e.(engine_name)
  | _, _ => "uninitialized"
  end.

Definition plugin_deploy (p : hive_contracts_plugin) (code init_args : list byte) (limits : host_limits)
  : result call_result :=
  let r := empty_call_result in
  match p.(initialized_), p.(engine_) with
  | true, Some e =>
      if negb p.(opts_).(opt_enabled) || negb p.(opts_).(opt_execute)
      then Ret (mk_call_result r.(success) r.(fuel_used) "plugin execution disabled"
                  r.(storage_writes) r.(denied_hosts))
      else e.(deploy_and_init) code init_args limits
  | _, _ => Ret (mk_call_result r.(success) r.(fuel_used) "plugin not initialized"
                   r.(storage_writes) r.(denied_hosts))
  end.

Definition plugin_call (p : hive_contracts_plugin) (code : list byte) (export_name : string)
  (args : list byte) (storage : gmap string (list byte)) (limits : host_limits) (caller : string)
  : result call_result :=
  let r := empty_call_result in
  match p.(initialized_), p.(engine_) with
  | true, Some e =>
      if negb p.(opts_).(opt_enabled) || negb p.(opts_).(opt_execute)
      then Ret (mk_call_result r.(success) r.(fuel_used) "plugin execution disabled"
                  r.(storage_writes) r.(denied_hosts))
      else e.(call) code export_name args storage limits caller
  | _, _ => Ret (mk_call_result r.(success) r.(fuel_used) "plugin not initialized"
                   r.(storage_writes) r.(denied_hosts))
  end.

(** The façade seen as an engine. *)
Definition plugin_engine (p : hive_contracts_plugin) : engine :=
  mk_engine (plugin_engine_name p) (plugin_deploy p) (plugin_call p).

(** ** Histories of [init] and [shutdown] *)

Inductive plugin_action : Type := act_init (opts : plugin_options) | act_shutdown.
Definition plugin_act (p : hive_contracts_plugin) (a : plugin_action) : hive_contracts_plugin :=
  match a with act_init opts => plugin_init opts p | act_shutdown => plugin_shutdown p end.
Definition plugin_run (acts : list plugin_action) : hive_contracts_plugin := foldl plugin_act new_plugin acts.

(** Nothing is open: the history is empty or ends in a [shutdown]. *)
Definition closed_history (acts : list plugin_action) : Prop :=
  acts = [] \/ exists pre, acts = pre ++ [act_shutdown].
(** [opts] opened the session that goes on: they came first of all or just after
    a [shutdown], and no [shutdown] came since. *)
Definition in_session (acts : list plugin_action) (opts : plugin_options) : Prop :=
  exists pre post, acts = pre ++ act_init opts :: post /\ closed_history pre /\ act_shutdown ∉ post.

Lemma plugin_run_snoc acts a : plugin_run (acts ++ [a]) = plugin_act (plugin_run acts) a.
Proof. unfold plugin_run. by rewrite foldl_app. Qed.
Lemma closed_run acts : closed_history acts -> plugin_run acts = new_plugin.
Proof. intros [->|[pre ->]]; [done|by rewrite plugin_run_snoc]. Qed.

Lemma session_run acts opts :
  in_session acts opts -> plugin_run acts = mk_plugin true opts (Some default_engine).
Proof.
  intros (pre & post & -> & Hpre & Hpost). induction post as [|a post IH] using rev_ind.
  - by rewrite plugin_run_snoc, closed_run.
  - rewrite not_elem_of_app in Hpost. destruct Hpost as [Hpost Ha].
    rewrite app_comm_cons, app_assoc, plugin_run_snoc, (IH Hpost).
    destruct a; [done|]. by destruct Ha; left.
Qed.
Lemma session_or_closed acts : (exists opts, in_session acts opts) \/ closed_history acts.
Proof.
  induction acts as [|[opts|] acts IH] using rev_ind; [by right; left|left|by right; right; exists acts].
  destruct IH as [(o & pre & post & -> & Hpre & Hpost)|Hcl].
  - exists o, pre, (post ++ [act_init opts]). split_and!; [by rewrite <-app_assoc|done|].
    apply not_elem_of_app. split; [done|]. intros H%list_elem_of_singleton. done.
  - exists opts, acts, []. split_and!; [done|done|apply not_elem_of_nil].
Qed.

Lemma refused_within_limits lim what :
  0 <= lim.(fuel) -> within_limits lim (mk_call_result false 0 what ∅ []).
Proof. intros H. apply within_no_write; simpl; [lia|done]. Qed.

(** A plugin keeps the promises of an engine after every history, so the
    evaluators' theorems hold over it too. *)
Lemma plugin_engine_laws p :
  p.(engine_) = (if p.(initialized_) then Some default_engine else None) -> EngineLaws (plugin_engine p).
Proof.
  intros Hp. split.
  - intros code args lim r Hf. simpl. unfold plugin_deploy. rewrite Hp.
    destruct (initialized_ p); [|intros [= <-]; apply refused_within_limits; lia].
    case_match; [intros [= <-]; apply refused_within_limits; lia|].
    by apply (deploy_within_limits (e := null_engine)).
  - intros code export args storage lim caller r Hf. simpl. unfold plugin_call. rewrite Hp.
    destruct (initialized_ p); [|intros [= <-]; apply refused_within_limits; lia].
    case_match; [intros [= <-]; apply refused_within_limits; lia|].
    by apply (call_within_limits (e := null_engine)).
Qed.

(** A failed result, with no fuel and no write, whatever is asked. *)
Definition refuses (p : hive_contracts_plugin) (what : string) : Prop :=
  (forall code args lim, plugin_deploy p code args lim = Ret (mk_call_result false 0 what ∅ [])) /\
  (forall code export args storage lim caller,
     plugin_call p code export args storage lim caller = Ret (mk_call_result false 0 what ∅ [])).
Definition runs_engine (p : hive_contracts_plugin) (e : engine) : Prop :=
  plugin_deploy p = e.(deploy_and_init) /\ plugin_call p = e.(call).

(** C40. After any history of [init] and [shutdown], the plugin is the default
    engine or a refusal, and which one depends on the options of the [init] that
    opened the session: the first one, or the first after the last [shutdown].
    In a session the plugin has the engine's name, and it answers exactly as the
    engine if those options enable and execute, otherwise it refuses as disabled;
    the options of later [init]s do not count. Outside a session (before the first
    [init], after a [shutdown]) it is uninitialized and refuses, and every history
    is one or the other. In all of them what it returns is within the limits it
    was given. *)
Theorem plugin_is_engine_or_refusal (acts : list plugin_action) :
  let p := plugin_run acts in
  (forall opts, in_session acts opts ->
     plugin_engine_name p = default_engine.(engine_name) /\
     if opts.(opt_enabled) && opts.(opt_execute) then runs_engine p default_engine
     else refuses p "plugin execution disabled") /\
  (closed_history acts -> plugin_engine_name p = "uninitialized" /\ refuses p "plugin not initialized") /\
  ((exists! opts, in_session acts opts) \/ closed_history acts) /\
  EngineLaws (plugin_engine p).
Proof.
  intros p. subst p. split_and!.
  - intros opts ->%session_run. unfold runs_engine, refuses, plugin_deploy, plugin_call. split; [done|]. simpl.
    by destruct (opt_enabled opts), (opt_execute opts).
  - by intros ->%closed_run.
  - destruct (session_or_closed acts) as [[opts Ho]|]; [left|by right]. exists opts. split; [done|].
    intros o' Ho'. apply session_run in Ho, Ho'. congruence.
  - apply plugin_engine_laws. destruct (session_or_closed acts) as [[opts ->%session_run]| ->%closed_run]; done.
Qed.

(** Execution is off in the session that began after the [shutdown]; the [init]
    that follows does not turn it on. *)
Definition off_after_restart : list plugin_action :=
  [act_init default_plugin_options; act_shutdown; act_init (mk_plugin_options true false "");
   act_init default_plugin_options].

Example plugin_is_engine_or_refusal_witness :
  refuses (plugin_run off_after_restart) "plugin execution disabled" /\
  runs_engine (plugin_run [act_init default_plugin_options]) default_engine /\
  refuses (plugin_run [act_init default_plugin_options; act_shutdown]) "plugin not initialized".
Proof.
  split_and!.
  - apply (proj1 (plugin_is_engine_or_refusal off_after_restart) (mk_plugin_options true false "")).
    exists [act_init default_plugin_options; act_shutdown], [act_init default_plugin_options]. split_and!; [done|..].
    + right. by exists [act_init default_plugin_options].
    + by intros H%list_elem_of_singleton.
  - apply (proj1 (plugin_is_engine_or_refusal [act_init default_plugin_options]) default_plugin_options).
    exists [], []. split_and!; [done|by left|apply not_elem_of_nil].
  - apply (proj1 (proj2 (plugin_is_engine_or_refusal [act_init default_plugin_options; act_shutdown]))).
    right. by exists [act_init default_plugin_options].
Defined.
