(* ===== verification/Tuning.v ===== *)
(** * RocksDB presets and batch arithmetic

    [include/hive_native/perf/rocksdb_presets.hpp] and [simd_math.hpp]. The
    vector intrinsics are not in the sources: they are the operations of the
    class [Lanes], with their documented behaviour as its laws. *)
From S2P Require Import Prelude Types.

(** ** Presets *)

(** [raw_*] are values outside the enumerators. *)
Inductive rocksdb_compression : Type := compress_none | snappy | lz4 | zstd | raw_compression (v : Z).
Inductive rocksdb_compaction : Type := level | universal | fifo | raw_compaction (v : Z).

Record rocksdb_preset : Type := mk_preset {
  name : string; block_cache_mb : Z; write_buffer_mb : Z;
  compression_hot : rocksdb_compression; compression_cold : rocksdb_compression;
  bloom_bits_per_key : Z; compaction_style : rocksdb_compaction;
  level0_file_num_compaction_trigger : Z }.

Definition compression_name (c : rocksdb_compression) : string :=
  match c with
  | compress_none => "none" | snappy => "snappy" | lz4 => "lz4" | zstd => "zstd"
  | raw_compression _ => "unknown"
  end.
Definition compaction_name (c : rocksdb_compaction) : string :=
  match c with
  | level => "level" | universal => "universal" | fifo => "fifo" | raw_compaction _ => "unknown"
  end.

Definition block_cache_mb_from_free_ram (free_ram_mb min_mb max_mb : Z) : Z :=
  let v := u64 (free_ram_mb * 25) / 100 in
  if v <? min_mb then min_mb else if max_mb <? v then max_mb else u32 v.

Definition witness_nvme : rocksdb_preset := mk_preset "witness_nvme" 2048 128 lz4 zstd 10 level 4.
Definition mobile_emmc : rocksdb_preset := mk_preset "mobile_emmc" 64 16 zstd zstd 10 level 2.
Definition archive_hdd : rocksdb_preset := mk_preset "archive_hdd" 512 256 lz4 zstd 10 universal 8.
Definition k_rocksdb_presets : list rocksdb_preset := [witness_nvme; mobile_emmc; archive_hdd].

Definition k_rocksdb_preset_count : Z := size_of k_rocksdb_presets.

(** The loop of [find_rocksdb_preset] over the table. *)
Fixpoint find_preset_in (l : list rocksdb_preset) (n : string) : option rocksdb_preset :=
  match l with
  | [] => None
  | p :: l' => if String.eqb p.(name) n then Some p else find_preset_in l' n
  end.
Definition find_rocksdb_preset (n : string) : option rocksdb_preset := find_preset_in k_rocksdb_presets n.

Definition known_compression (c : rocksdb_compression) : bool :=
  match c with raw_compression _ => false | _ => true end.
Definition known_compaction (c : rocksdb_compaction) : bool :=
  match c with raw_compaction _ => false | _ => true end.

Definition preset_sane (p : rocksdb_preset) : bool :=
  if str_empty p.(name) then false
  else if p.(block_cache_mb) =? 0 then false
  else if p.(write_buffer_mb) =? 0 then false
  else if p.(bloom_bits_per_key) =? 0 then false
  else if p.(level0_file_num_compaction_trigger) <? 1 then false
  else if negb (known_compression p.(compression_hot)) then false
  else if negb (known_compression p.(compression_cold)) then false
  else known_compaction p.(compaction_style).

Lemma find_preset_in_none l n : find_preset_in l n = None <-> n ∉ map name l.
Proof.
  induction l as [|p l IH]; [by split; [intros _; apply not_elem_of_nil|]|].
  cbn [find_preset_in map]. rewrite not_elem_of_cons, <-IH.
  destruct (String.eqb_spec (name p) n) as [->|Hn]; split; try done; [by intros []|by intros []].
Qed.

(** The presets are usable: every built-in one passes the sanity check and is
    found under its own name, any other name finds nothing, and the cache size
    for a given free memory is a quarter of it, clamped to the band, with no
    wrap in between. *)
Theorem presets_and_cache_size :
  Forall (fun p => preset_sane p = true /\ find_rocksdb_preset p.(name) = Some p) k_rocksdb_presets /\
  (forall n, find_rocksdb_preset n = None <-> n ∉ map name k_rocksdb_presets) /\
  (forall ram lo hi, 0 <= ram < 2 ^ 32 -> 0 <= lo -> lo <= hi < 2 ^ 32 ->
     block_cache_mb_from_free_ram ram lo hi = Z.max lo (Z.min hi (ram / 4))).
Proof.
  split_and!.
  - repeat constructor.
  - intros n. apply find_preset_in_none.
  - intros ram lo hi Hr Hlo Hhi. unfold block_cache_mb_from_free_ram.
    rewrite u64_small by lia. replace (ram * 25 / 100) with (ram / 4).
    2: { change 100 with (4 * 25). rewrite Z.div_mul_cancel_r by lia. done. }
    assert (0 <= ram / 4 <= ram) by (split; [apply Z.div_pos; lia|apply Z.div_le_upper_bound; lia]).
    destruct (Z.ltb_spec (ram / 4) lo), (Z.ltb_spec hi (ram / 4)); rewrite ?u32_small by lia; lia.
Qed.

(** ** Batch arithmetic on [uint64_t] arrays

    Memory is a function from word addresses to words; the arrays are at [a],
    [b] and [out] and may overlap. *)

Definition memory : Type := Z -> Z.
Definition store (m : memory) (p v : Z) : memory := fun q => if q =? p then v else m q.

Definition wrap_mul (x y : Z) : Z := u64 (x * y).
Definition wrap_add (x y : Z) : Z := u64 (x + y).

(** [for(; i < n; ++i) out[i] = a[i] op b[i];] with [left = n - i]. *)
Fixpoint scalar_from (op : Z -> Z -> Z) (a b out i : Z) (left : nat) (m : memory) : memory :=
  match left with
  | O => m
  | S left' => scalar_from op a b out (i + 1) left' (store m (out + i) (op (m (a + i)) (m (b + i))))
  end.

Definition batch_mul_u64_scalar (a b out : Z) (n : nat) : memory -> memory := scalar_from wrap_mul a b out 0 n.
Definition batch_add_u64_scalar (a b out : Z) (n : nat) : memory -> memory := scalar_from wrap_add a b out 0 n.

(** The macros that select the backend at compile time are arguments. *)
Definition simd_math_backend (HIVE_NATIVE_SIMD_NEON HIVE_NATIVE_SIMD_SSE2 : bool) : string :=
  if HIVE_NATIVE_SIMD_NEON then "neon" else if HIVE_NATIVE_SIMD_SSE2 then "sse2" else "scalar".

(** Two 64-bit lanes: the loads and stores of two words, lane access, building a
    vector from two words, and the lane-wise wrapping sum. *)
Class Lanes : Type := {
  vec : Type;
  lane0 : vec -> Z;
  lane1 : vec -> Z;
  combine : Z -> Z -> vec;
  vadd : vec -> vec -> vec;
  lane0_combine x y : lane0 (combine x y) = x;
  lane1_combine x y : lane1 (combine x y) = y;
  lane0_vadd u v : lane0 (vadd u v) = wrap_add (lane0 u) (lane0 v);
  lane1_vadd u v : lane1 (vadd u v) = wrap_add (lane1 u) (lane1 v) }.

Section simd.
Context `{Lanes}.

Definition vload (m : memory) (p : Z) : vec := combine (m p) (m (p + 1)).
Definition vstore (m : memory) (p : Z) (v : vec) : memory := store (store m p (lane0 v)) (p + 1) (lane1 v).

(** The body of the two-wide loops. *)
Definition vmul (va vb : vec) : vec :=
  combine (wrap_mul (lane0 va) (lane0 vb)) (wrap_mul (lane1 va) (lane1 vb)).

(** [for(; i + 2 <= n; i += 2)], then the scalar remainder. *)
Fixpoint simd_from (vop : vec -> vec -> vec) (op : Z -> Z -> Z) (a b out i : Z) (left : nat)
  (m : memory) : memory :=
  match left with
  | S (S left') =>
      let va := vload m (a + i) in
      let vb := vload m (b + i) in
      simd_from vop op a b out (i + 2) left' (vstore m (out + i) (vop va vb))
  | _ => scalar_from op a b out i left m
  end.

Definition batch_mul_u64 (a b out : Z) (n : nat) : memory -> memory := simd_from vmul wrap_mul a b out 0 n.
Definition batch_add_u64 (a b out : Z) (n : nat) : memory -> memory := simd_from vadd wrap_add a b out 0 n.

(** [out] does not start one word after [src]: the first store of a pair does not
    change the second word the pair reads. *)
Definition not_one_ahead (src out : Z) : Prop := out <> src + 1.

Lemma simd_from_scalar vop op a b out :
  (forall u v, lane0 (vop u v) = op (lane0 u) (lane0 v) /\ lane1 (vop u v) = op (lane1 u) (lane1 v)) ->
  not_one_ahead a out -> not_one_ahead b out ->
  forall left i m, simd_from vop op a b out i left m = scalar_from op a b out i left m.
Proof.
  unfold not_one_ahead. intros Hop Ha Hb.
  enough (Hs : forall n left i m, (left <= n)%nat ->
    simd_from vop op a b out i left m = scalar_from op a b out i left m) by (intros; by eapply Hs).
  induction n as [|n IH]; intros left i m Hn; [by destruct left; [|lia]|].
  destruct left as [|[|left]]; [done..|]. simpl. rewrite IH by lia.
  replace (i + 1 + 1) with (i + 2) by lia. f_equal. unfold vstore.
  destruct (Hop (vload m (a + i)) (vload m (b + i))) as [-> ->]. unfold vload.
  rewrite !lane0_combine, !lane1_combine. replace (out + i + 1) with (out + (i + 1)) by lia.
  f_equal. unfold store. f_equal.
  - destruct (Z.eqb_spec (a + (i + 1)) (out + i)); [lia|]. f_equal. lia.
  - destruct (Z.eqb_spec (b + (i + 1)) (out + i)); [lia|]. f_equal. lia.
Qed.
End simd.

(** C39. The vector loops compute what the scalar reference does, for every length
    and every placement of the three arrays (overlapping or not) in which the
    output does not start exactly one word after an input; in particular for
    disjoint arrays and in place. *)
Theorem batch_simd_equals_scalar `{Lanes} (a b out : Z) (n : nat) (m : memory) :
  not_one_ahead a out -> not_one_ahead b out ->
  batch_mul_u64 a b out n m = batch_mul_u64_scalar a b out n m /\
  batch_add_u64 a b out n m = batch_add_u64_scalar a b out n m.
Proof.
  intros Ha Hb. split; apply simd_from_scalar; try done; intros u v.
  - unfold vmul. by rewrite lane0_combine, lane1_combine.
  - by rewrite lane0_vadd, lane1_vadd.
Qed.

#[export] Instance pair_lanes : Lanes := {|
  vec := Z * Z; lane0 := fst; lane1 := snd; combine := pair;
  vadd u v := (wrap_add u.1 v.1, wrap_add u.2 v.2);
  lane0_combine _ _ := eq_refl; lane1_combine _ _ := eq_refl;
  lane0_vadd _ _ := eq_refl; lane1_vadd _ _ := eq_refl |}.

(** Three products in place, the last one by the scalar remainder. *)
Example batch_simd_equals_scalar_witness :
  let m q := 2 ^ 63 + q in
  map (batch_mul_u64 0 10 0 3 m) [0; 1; 2] = map (batch_mul_u64_scalar 0 10 0 3 m) [0; 1; 2].
Proof.
  intros m. rewrite (proj1 (batch_simd_equals_scalar 0 10 0 3 m ltac:(done) ltac:(done))). reflexivity.
Defined.
