(* ===== verification/SelectiveUndo.v ===== *)
(** * Selective undo ([include/hive_native/perf/selective_undo.hpp])

    The session's stack of prior field values and the balance map it is bound
    to, as one state; related to a transaction over total balance functions. *)
From S2P Require Import Prelude.

Record account_balance : Type := mk_account_balance { hive : Z; hbd : Z }.
Definition zero_balance : account_balance := mk_account_balance 0 0.

Record balance_change : Type := mk_balance_change { account : string; old_hive : Z; old_hbd : Z }.

(** [balances_] is a reference: the map is shared with the caller. *)
Record undo_session : Type := mk_undo_session { balances_ : gmap string account_balance; stack_ : list balance_change }.

Definition open_session (m : gmap string account_balance) : undo_session := mk_undo_session m [].

Definition push_balance_change (acc : string) (h b : Z) : M undo_session unit :=
  modify (fun s => mk_undo_session s.(balances_) (s.(stack_) ++ [mk_balance_change acc h b])).

(** [auto& b = balances[account];]: a zero row is created when missing. *)
Definition touch_row (acc : string) (m : gmap string account_balance) : gmap string account_balance :=
  match m !! acc with Some _ => m | None => <[acc := zero_balance]> m end.
Definition row (m : gmap string account_balance) (acc : string) : account_balance := default zero_balance (m !! acc).

(** The body of the loop of [rollback]. *)
Definition restore_change (c : balance_change) (m : gmap string account_balance) : gmap string account_balance :=
  <[c.(account) := mk_account_balance c.(old_hive) c.(old_hbd)]> (touch_row c.(account) m).

Definition rollback : M undo_session unit :=
  modify (fun s => mk_undo_session (foldl (fun m c => restore_change c m) s.(balances_) (rev s.(stack_))) []).

Definition commit : M undo_session unit := modify (fun s => mk_undo_session s.(balances_) []).

Definition size (s : undo_session) : nat := length s.(stack_).
Definition empty (s : undo_session) : bool := match s.(stack_) with [] => true | _ => false end.

(** [field += delta] on a signed 64-bit field. *)
Definition add_field (set : Z -> account_balance -> account_balance) (get : account_balance -> Z)
  (acc : string) (delta : Z) : M undo_session unit := fun s =>
  let v := get (row s.(balances_) acc) + delta in
  if in_i64 v
  then Done tt (mk_undo_session (<[acc := set v (row s.(balances_) acc)]> s.(balances_)) s.(stack_))
  else Undef.
Definition set_hive (v : Z) (b : account_balance) : account_balance := mk_account_balance v b.(hbd).
Definition set_hbd (v : Z) (b : account_balance) : account_balance := mk_account_balance b.(hive) v.

Definition adjust_balance (acc : string) (hive_delta hbd_delta : Z) : M undo_session unit :=
  modify (fun s => mk_undo_session (touch_row acc s.(balances_)) s.(stack_));;
  b ← gets (fun s => row s.(balances_) acc);
  push_balance_change acc b.(hive) b.(hbd);;
  add_field set_hive hive acc hive_delta;;
  add_field set_hbd hbd acc hbd_delta.

(** ** The specification: a transaction over balances

    [base] is what a rollback restores, [now] what is read. *)

Inductive undo_op : Type :=
| op_adjust (acc : string) (hive_delta hbd_delta : Z)
| op_rollback
| op_commit.

Definition run_op (o : undo_op) : M undo_session unit :=
  match o with
  | op_adjust acc dh db => adjust_balance acc dh db
  | op_rollback => rollback
  | op_commit => commit
  end.
Fixpoint run_ops (l : list undo_op) : M undo_session unit :=
  match l with [] => mret tt | o :: l' => run_op o;; run_ops l' end.

Record transaction : Type := mk_transaction {
  base : string -> account_balance; now : string -> account_balance }.

Definition adjusted (acc : string) (dh db : Z) (f : string -> account_balance) : string -> account_balance :=
  fun k => if bool_decide (k = acc)
           then mk_account_balance ((f k).(hive) + dh) ((f k).(hbd) + db) else f k.
Definition spec_op (o : undo_op) (t : transaction) : transaction :=
  match o with
  | op_adjust acc dh db => mk_transaction t.(base) (adjusted acc dh db t.(now))
  | op_rollback => mk_transaction t.(base) t.(base)
  | op_commit => mk_transaction t.(now) t.(now)
  end.
(** The sums the operation makes stay in [int64_t]. *)
Definition op_in_range (o : undo_op) (t : transaction) : Prop :=
  match o with
  | op_adjust acc dh db =>
      in_i64 ((t.(now) acc).(hive) + dh) = true /\ in_i64 ((t.(now) acc).(hbd) + db) = true
  | _ => True
  end.
Fixpoint spec_ops (l : list undo_op) (t : transaction) : transaction :=
  match l with [] => t | o :: l' => spec_ops l' (spec_op o t) end.
Fixpoint ops_in_range (l : list undo_op) (t : transaction) : Prop :=
  match l with [] => True | o :: l' => op_in_range o t /\ ops_in_range l' (spec_op o t) end.
(** The accounts whose rows the operations make. *)
Definition touched (l : list undo_op) : gset string :=
  list_to_set (omap (fun o => match o with op_adjust acc _ _ => Some acc | _ => None end) l).
Definition begin_transaction (m : gmap string account_balance) : transaction := mk_transaction (row m) (row m).

(** ** Lemmas *)

Definition undone (m : gmap string account_balance) (l : list balance_change) : gmap string account_balance :=
  foldl (fun m c => restore_change c m) m (rev l).

Lemma undone_snoc m l c : undone m (l ++ [c]) = undone (restore_change c m) l.
Proof. unfold undone. by rewrite rev_app_distr. Qed.

Lemma row_touch m acc k : row (touch_row acc m) k = row m k.
Proof.
  unfold row, touch_row. destruct (m !! acc) eqn:E; [done|].
  rewrite lookup_insert. case_decide; [subst; by rewrite E|done].
Qed.
Lemma row_insert m acc v k : row (<[acc := v]> m) k = if bool_decide (k = acc) then v else row m k.
Proof.
  unfold row. rewrite lookup_insert.
  destruct (decide (acc = k)) as [->|]; [by rewrite bool_decide_true|by rewrite bool_decide_false].
Qed.
Lemma dom_touch m acc : dom (touch_row acc m) = {[acc]} ∪ dom m.
Proof.
  unfold touch_row. destruct (m !! acc) eqn:E; [|apply dom_insert_L].
  apply elem_of_dom_2 in E. set_solver.
Qed.

(** Undoing depends on the rows only. *)
Lemma row_undone l m m' : (forall k, row m k = row m' k) -> forall k, row (undone m l) k = row (undone m' l) k.
Proof.
  unfold undone. induction (rev l) as [|c l' IH] in m, m' |- *; intros Hm k; [apply Hm|].
  simpl. apply IH. intros k'. unfold restore_change. by rewrite !row_insert, !row_touch, Hm.
Qed.
(** The accounts on the stack have rows already. *)
Definition stack_rows (s : undo_session) : Prop := Forall (fun c => c.(account) ∈ dom s.(balances_)) s.(stack_).

Lemma dom_undone s : stack_rows s -> dom (undone s.(balances_) s.(stack_)) = dom s.(balances_).
Proof.
  unfold stack_rows, undone. intros Hs. apply Forall_rev in Hs.
  induction (rev (stack_ s)) as [|c l IH] in s, Hs |- *; [done|].
  inversion_clear Hs as [|?? Hc Hl]. simpl.
  assert (Hd : dom (restore_change c (balances_ s)) = dom (balances_ s)).
  { unfold restore_change. rewrite dom_insert_L, dom_touch. set_solver. }
  trans (dom (restore_change c (balances_ s))); [|done].
  apply (IH (mk_undo_session (restore_change c (balances_ s)) [])). simpl. by rewrite Hd.
Qed.

(** The state after an adjustment whose sums are in range. *)
Lemma adjust_balance_run acc dh db s :
  let b := row s.(balances_) acc in
  adjust_balance acc dh db s =
    if in_i64 (b.(hive) + dh) && in_i64 (b.(hbd) + db)
    then Done tt (mk_undo_session
      (<[acc := mk_account_balance (b.(hive) + dh) (b.(hbd) + db)]> s.(balances_))
      (s.(stack_) ++ [mk_balance_change acc b.(hive) b.(hbd)]))
    else Undef.
Proof.
  intros b. unfold adjust_balance, push_balance_change, modify, gets, add_field, mbind, M_bind; simpl.
  rewrite !row_touch. fold b. destruct (in_i64 (hive b + dh)); [|done].
  simpl. rewrite row_insert, bool_decide_true by done. simpl.
  destruct (in_i64 (hbd b + db)); [|done]. unfold set_hbd, set_hive; simpl. do 2 f_equal.
  rewrite insert_insert_eq. unfold touch_row. destruct (balances_ s !! acc); [done|apply insert_insert_eq].
Qed.

Definition represents (s : undo_session) (t : transaction) : Prop :=
  (forall k, row s.(balances_) k = t.(now) k) /\
  (forall k, row (undone s.(balances_) s.(stack_)) k = t.(base) k) /\ stack_rows s.

(** The rows an operation makes. *)
Definition op_rows (o : undo_op) : gset string :=
  match o with op_adjust acc _ _ => {[acc]} | _ => ∅ end.

Lemma touched_cons o l : touched (o :: l) = op_rows o ∪ touched l.
Proof. unfold touched. destruct o; simpl; set_solver. Qed.

Lemma adjust_represents acc dh db s t :
  represents s t -> op_in_range (op_adjust acc dh db) t ->
  exists s', adjust_balance acc dh db s = Done tt s' /\
    represents s' (spec_op (op_adjust acc dh db) t) /\
    dom s'.(balances_) = {[acc]} ∪ dom s.(balances_).
Proof.
  intros (Hnow & Hbase & Hst) [H1 H2]. rewrite adjust_balance_run, !Hnow, H1, H2.
  eexists. split; [done|]. simpl. split; [|apply dom_insert_L]. split_and!; simpl.
  - intros k. rewrite row_insert, Hnow. unfold adjusted. by case_bool_decide; subst.
  - intros k. rewrite undone_snoc, <-Hbase. apply row_undone. intros k'.
    unfold restore_change; simpl. rewrite row_insert, row_touch, row_insert.
    case_bool_decide; [subst|done]. rewrite <-Hnow. by destruct (row _ acc).
  - apply Forall_app. split; [|by repeat constructor; simpl; set_solver].
    eapply Forall_impl; [exact Hst|]. simpl. set_solver.
Qed.

Lemma op_represents o s t :
  represents s t -> op_in_range o t ->
  exists s', run_op o s = Done tt s' /\ represents s' (spec_op o t) /\
    dom s'.(balances_) = op_rows o ∪ dom s.(balances_).
Proof.
  destruct o as [acc dh db| |]; [apply adjust_represents|..]; intros (Hnow & Hbase & Hst) _; simpl;
    (eexists; split; [done|]).
  - split; [by split_and!; [exact Hbase..|constructor]|]. pose proof (dom_undone s Hst). set_solver.
  - split; [by split_and!; [exact Hnow..|constructor]|]. simpl. set_solver.
Qed.

Lemma op_out_of_range o s t : represents s t -> ~ op_in_range o t -> run_op o s = Undef.
Proof.
  intros (Hnow & _) Ho. destruct o as [acc dh db| |]; simpl in *; [|by destruct Ho..].
  rewrite adjust_balance_run, !Hnow. destruct (in_i64 _); [|done]. by destruct (in_i64 _); [destruct Ho|].
Qed.

Lemma ops_represent l s t :
  represents s t -> ops_in_range l t ->
  exists s', run_ops l s = Done tt s' /\ represents s' (spec_ops l t) /\
    dom s'.(balances_) = dom s.(balances_) ∪ touched l.
Proof.
  induction l as [|o l IH] in s, t |- *; intros Hs Hl.
  - exists s. split_and!; [done..|]. unfold touched. simpl. set_solver.
  - destruct Hl as [Ho Hl]. destruct (op_represents o s t Hs Ho) as (s1 & H1 & Hs1 & Hd1).
    destruct (IH s1 _ Hs1 Hl) as (s2 & H2 & Hs2 & Hd2). exists s2. simpl.
    unfold mbind, M_bind. rewrite H1, touched_cons. split_and!; [done..|]. set_solver.
Qed.

#[export] Instance op_in_range_dec o t : Decision (op_in_range o t).
Proof. destruct o; simpl; apply _. Defined.

Lemma ops_out_of_range l s t : represents s t -> ~ ops_in_range l t -> run_ops l s = Undef.
Proof.
  induction l as [|o l IH] in s, t |- *; intros Hs Hl; [by destruct Hl|].
  simpl in *. unfold mbind, M_bind. destruct (decide (op_in_range o t)) as [Ho|Ho].
  - destruct (op_represents o s t Hs Ho) as (s1 & -> & Hs1 & _). apply (IH _ _ Hs1). tauto.
  - by rewrite (op_out_of_range o s t Hs Ho).
Qed.

Lemma open_represents m : represents (open_session m) (begin_transaction m).
Proof. split_and!; [done..|constructor]. Qed.

(** ** Properties *)

(** C33. An undo session is a transaction over the balances. After any sequence of
    adjustments, rollbacks and commits whose sums stay in 64 bits, the balances
    read are those of the transaction (absent rows reading zero), and rolling
    back gives the balances of the last commit (or rollback, or the start) and an
    empty stack. The rows, though, only grow: every account adjusted since the
    session opened still has one after the rollback, with zeros if it had none.
    A sequence with a sum out of range has undefined behaviour. *)
Theorem undo_session_is_transaction (m : gmap string account_balance) (l : list undo_op) :
  let t := spec_ops l (begin_transaction m) in
  (ops_in_range l (begin_transaction m) ->
   exists s s', run_ops l (open_session m) = Done tt s /\ rollback s = Done tt s' /\
     (forall k, row s.(balances_) k = t.(now) k) /\
     (forall k, row s'.(balances_) k = t.(base) k) /\ empty s' = true /\
     dom s.(balances_) = dom m ∪ touched l /\ dom s'.(balances_) = dom m ∪ touched l) /\
  (~ ops_in_range l (begin_transaction m) -> run_ops l (open_session m) = Undef).
Proof.
  intros t. split; [|apply ops_out_of_range, open_represents].
  intros Hl. destruct (ops_represent l _ _ (open_represents m) Hl) as (s & Hs & Hr & Hd).
  destruct (op_represents op_rollback s t Hr I) as (s' & Hs' & (Hnow & _) & Hd').
  exists s, s'. destruct Hr as (Hr & _). simpl in *. split_and!; try done.
  - by injection Hs' as <-.
  - set_solver.
Qed.

(** Two accounts adjusted, one of them new, after a commit. *)
Example undo_session_is_transaction_witness :
  let m := {[ "alice" := mk_account_balance 10 0 ]} in
  let l := [op_adjust "alice" 5 0; op_commit; op_adjust "alice" (-3) 0; op_adjust "bob" 3 0] in
  exists s s', run_ops l (open_session m) = Done tt s /\ rollback s = Done tt s' /\
    row s'.(balances_) "alice" = mk_account_balance 15 0 /\
    row s'.(balances_) "bob" = zero_balance /\ "bob" ∈ dom s'.(balances_).
Proof.
  intros m l. destruct (undo_session_is_transaction m l) as [H _].
  destruct H as (s & s' & H1 & H2 & _ & H3 & _ & _ & Hd); [repeat split|].
  exists s, s'. split; [exact H1|]. split; [exact H2|]. rewrite !H3, Hd.
  split; [reflexivity|]. split; [reflexivity|]. apply elem_of_union_r. unfold touched. simpl. set_solver.
Defined.
