(* ===== verification/UndoSessions.v ===== *)
(** * Several undo sessions over one balance map

    Sessions hold a reference to the map, so two that are open at once share it
    ([include/hive_native/perf/selective_undo.hpp]). A state is the map and the
    stacks of the open sessions; every operation of [SelectiveUndo] runs on the
    map and the stack of its own session. A session that goes out of scope drops
    its records: [undo_session] has no destructor of its own. *)
From S2P Require Import Prelude SelectiveUndo.

Record shared_map : Type := mk_shared {
  shared : gmap string account_balance; stacks : gmap nat (list balance_change) }.

Inductive session_event : Type :=
| se_open (i : nat)
| se_op (i : nat) (o : undo_op)
| se_close (i : nat).

(** A member function of session [i]; using a session that is not open is
    undefined. *)
Definition on_session {A} (i : nat) (m : M undo_session A) : M shared_map A := fun s =>
  match s.(stacks) !! i with
  | None => Undef
  | Some l =>
      match m (mk_undo_session s.(shared) l) with
      | Done a u => Done a (mk_shared u.(balances_) (<[i := u.(stack_)]> s.(stacks)))
      | Thrown e u => Thrown e (mk_shared u.(balances_) (<[i := u.(stack_)]> s.(stacks)))
      | Undef => Undef
      end
  end.

Definition run_event (e : session_event) : M shared_map unit :=
  match e with
  | se_open i => modify (fun s => mk_shared s.(shared) (<[i := (open_session s.(shared)).(stack_)]> s.(stacks)))
  | se_op i o => on_session i (run_op o)
  | se_close i => modify (fun s => mk_shared s.(shared) (delete i s.(stacks)))
  end.
Fixpoint run_events (l : list session_event) : M shared_map unit :=
  match l with [] => mret tt | e :: l' => run_event e;; run_events l' end.

(** ** The specification

    What is read, and for each open session the balances it saved: of each
    account it adjusted since it opened, rolled back or committed, the one the
    account had before the first of these adjustments. *)

Record sessions : Type := mk_sessions {
  reads : string -> account_balance; saved : gmap nat (string -> option account_balance) }.

Definition nothing : string -> option account_balance := fun _ => None.
Definition save (acc : string) (b : account_balance) (f : string -> option account_balance) : string -> option account_balance :=
  fun k => if bool_decide (k = acc) then Some (default b (f k)) else f k.
Definition restored (f : string -> option account_balance) (now : string -> account_balance) : string -> account_balance :=
  fun k => default (now k) (f k).

Definition spec_event (e : session_event) (t : sessions) : sessions :=
  match e with
  | se_open i => mk_sessions t.(reads) (<[i := nothing]> t.(saved))
  | se_op i (op_adjust acc dh db) =>
      mk_sessions (adjusted acc dh db t.(reads)) (alter (save acc (t.(reads) acc)) i t.(saved))
  | se_op i op_rollback =>
      mk_sessions (restored (default nothing (t.(saved) !! i)) t.(reads)) (<[i := nothing]> t.(saved))
  | se_op i op_commit => mk_sessions t.(reads) (<[i := nothing]> t.(saved))
  | se_close i => mk_sessions t.(reads) (delete i t.(saved))
  end.
Fixpoint spec_events (l : list session_event) (t : sessions) : sessions :=
  match l with [] => t | e :: l' => spec_events l' (spec_event e t) end.

(** The session used is open and the sums stay in [int64_t]. *)
Definition event_ok (e : session_event) (t : sessions) : Prop :=
  match e with
  | se_op i o => is_Some (t.(saved) !! i) /\ op_in_range o (mk_transaction t.(reads) t.(reads))
  | _ => True
  end.
Fixpoint events_ok (l : list session_event) (t : sessions) : Prop :=
  match l with [] => True | e :: l' => event_ok e t /\ events_ok l' (spec_event e t) end.

(** ** Refinement *)

(** The oldest record of an account. *)
Fixpoint first_saved (l : list balance_change) (k : string) : option account_balance :=
  match l with
  | [] => None
  | c :: l' => if bool_decide (k = c.(account)) then Some (mk_account_balance c.(old_hive) c.(old_hbd))
               else first_saved l' k
  end.

(** Undoing in reverse leaves the oldest record of each account. *)
Lemma row_undone_first m l k : row (undone m l) k = default (row m k) (first_saved l k).
Proof.
  induction l as [|c l IH]; [done|]. unfold undone in *. simpl. rewrite foldl_app. simpl.
  unfold restore_change. rewrite row_insert, row_touch. by case_bool_decide.
Qed.
Lemma first_saved_snoc l c k :
  first_saved (l ++ [c]) k =
    save c.(account) (mk_account_balance c.(old_hive) c.(old_hbd)) (first_saved l) k.
Proof.
  unfold save. induction l as [|c' l IH]; simpl; [done|]. rewrite IH. by repeat case_bool_decide.
Qed.

Record agree (s : shared_map) (t : sessions) : Prop := {
  agree_reads k : row s.(shared) k = t.(reads) k;
  agree_open i : is_Some (s.(stacks) !! i) <-> is_Some (t.(saved) !! i);
  agree_saved i l f : s.(stacks) !! i = Some l -> t.(saved) !! i = Some f -> forall k, first_saved l k = f k }.

Lemma agree_put s t m now i l f :
  agree s t -> (forall k, row m k = now k) -> (forall k, first_saved l k = f k) ->
  agree (mk_shared m (<[i := l]> s.(stacks))) (mk_sessions now (<[i := f]> t.(saved))).
Proof.
  intros Hs Hm Hl. split; simpl; [done|..].
  - intros j. rewrite !lookup_insert. case_decide; [done|]. apply Hs.
  - intros j l' f'. rewrite !lookup_insert. case_decide; [|apply Hs]. by intros [= <-] [= <-].
Qed.

Lemma event_agree e s t :
  agree s t -> event_ok e t -> exists s', run_event e s = Done tt s' /\ agree s' (spec_event e t).
Proof.
  intros Hs He. destruct e as [i|i o|i]; simpl.
  - eexists. split; [done|]. by apply agree_put; [|apply Hs|].
  - destruct He as [[f Hf] Hr]. destruct (proj2 (agree_open _ _ Hs i) (ex_intro _ f Hf)) as [l Hl].
    pose proof (agree_saved _ _ Hs i l f Hl Hf) as Hsave. pose proof (agree_reads _ _ Hs) as Hnow.
    unfold on_session. rewrite Hl. destruct o as [acc dh db| |]; simpl.
    + rewrite adjust_balance_run. simpl. rewrite !Hnow. destruct Hr as [H1 H2]. simpl in H1, H2. rewrite H1, H2.
      eexists. split; [done|]. simpl.
      rewrite (alter_some _ _ _ _ Hf). apply agree_put; [done|..].
      * intros k. rewrite row_insert, Hnow. unfold adjusted. by case_bool_decide; subst.
      * intros k. rewrite first_saved_snoc. unfold save. simpl. case_bool_decide; [|apply Hsave].
        rewrite Hsave. by destruct (reads t acc).
    + eexists. split; [done|]. simpl. rewrite Hf. simpl. apply agree_put; [done| |done].
      intros k. pose proof (row_undone_first (shared s) l k) as E. unfold undone in E. rewrite E, Hnow, Hsave. done.
    + eexists. split; [done|]. by apply agree_put.
  - eexists. split; [done|]. split; simpl; [apply Hs|..].
    + intros j. rewrite !lookup_delete. case_decide; [|apply Hs]. by split; intros [].
    + intros j l f. rewrite !lookup_delete. case_decide; [done|apply Hs].
Qed.

Lemma events_agree l s t :
  agree s t -> events_ok l t -> exists s', run_events l s = Done tt s' /\ agree s' (spec_events l t).
Proof.
  induction l as [|e l IH] in s, t |- *; simpl; intros Hs Hl; [by exists s|].
  destruct Hl as [He Hl]. destruct (event_agree e s t Hs He) as (s1 & E & Hs1).
  destruct (IH s1 _ Hs1 Hl) as (s2 & E2 & Hs2). exists s2. split; [|done]. unfold mbind, M_bind. by rewrite E.
Qed.

(** ** Properties *)

Definition none_open (m : gmap string account_balance) : shared_map := mk_shared m ∅.
Definition none_open_spec (m : gmap string account_balance) : sessions := mk_sessions (row m) ∅.
Lemma none_open_agree m : agree (none_open m) (none_open_spec m).
Proof.
  split; simpl; [done|..].
  - intros i. by rewrite !lookup_empty.
  - intros i l f. by rewrite lookup_empty.
Qed.

(** C34. Sessions over one map undo their own adjustments only. After any
    interleaving of sessions opening, adjusting, rolling back, committing and
    closing (each used while open, sums in 64 bits), what is read is what the
    specification says, and rolling back a session gives each account it has
    adjusted the balance from before its first adjustment, whatever other
    sessions did to that account since, and leaves every other account alone.
    So what a second session did to other accounts survives the rollback of the
    first, and what it did to the accounts of the first is discarded, whether or
    not it has committed. *)
Theorem sessions_undo_their_own (m : gmap string account_balance) (l : list session_event) :
  events_ok l (none_open_spec m) ->
  let t := spec_events l (none_open_spec m) in
  exists s, run_events l (none_open m) = Done tt s /\ (forall k, row s.(shared) k = t.(reads) k) /\
    forall i f, t.(saved) !! i = Some f ->
    exists s', on_session i rollback s = Done tt s' /\
      forall k, row s'.(shared) k = default (t.(reads) k) (f k).
Proof.
  intros Hl t. destruct (events_agree l _ _ (none_open_agree m) Hl) as (s & E & Hs). exists s. fold t in Hs.
  split; [exact E|]. split; [apply Hs|]. intros i f Hf.
  destruct (event_agree (se_op i op_rollback) s t Hs) as (s' & E' & Hs'); [by split; [eexists|]|].
  exists s'. split; [exact E'|]. intros k. rewrite (agree_reads _ _ Hs'). simpl. unfold restored. by rewrite Hf.
Qed.

(** Session 0 opens and credits alice; session 1, opened inside, credits bob and
    commits; session 0 rolls back: alice is restored and bob keeps the credit. *)
Definition inner_commit : list session_event :=
  [se_open 0; se_op 0 (op_adjust "alice" 5 0); se_open 1; se_op 1 (op_adjust "bob" 7 0);
   se_op 1 op_commit; se_close 1].

Example sessions_undo_their_own_witness :
  exists s s', run_events inner_commit (none_open ∅) = Done tt s /\ on_session 0 rollback s = Done tt s' /\
    row s'.(shared) "alice" = zero_balance /\ row s'.(shared) "bob" = mk_account_balance 7 0.
Proof.
  destruct (sessions_undo_their_own ∅ inner_commit) as (s & E & Hr & Hroll).
  { repeat split; vm_compute; eauto. }
  destruct (Hroll 0%nat (save "alice" zero_balance nothing)) as (s' & E' & Hk); [reflexivity|].
  exists s, s'. split; [exact E|]. split; [exact E'|]. rewrite !Hk. split; reflexivity.
Defined.
