(* ===== verification/Arena.v ===== *)
(** * Bump-pointer arena ([include/hive_native/perf/arena.hpp])

    Chunks by their sizes (their bytes are not looked at); a pointer is a chunk
    and an offset. The allocator gives every chunk it is asked for and never moves
    one. The code aligns offsets within a chunk, not addresses, and the chunks are
    byte vectors, aligned to the default alignment of [new] (16) and no more; so
    that an aligned offset is an aligned address is relied on for alignments that
    divide 16, those of all types that are not over-aligned. *)
From S2P Require Import Prelude.

Record arena : Type := mk_arena { chunk_size_ : Z; offset_ : Z; chunks_ : list Z }.

Definition grow (a : arena) : arena := mk_arena a.(chunk_size_) 0 (a.(chunks_) ++ [a.(chunk_size_)]).
Definition new_arena (chunk : Z) : arena := grow (mk_arena chunk 0 []).

(** [chunks_.back().size()] *)
Definition back_size (a : arena) : Z := List.last a.(chunks_) 0.
Definition padding (a : arena) (align : Z) : Z := u64 (align - a.(offset_) mod align) mod align.

Record pointer : Type := mk_pointer { chunk : nat; offset : Z }.

(** The growth check of [allocate]. *)
Definition make_room (n align : Z) (a : arena) : arena :=
  if back_size a <? u64 (a.(offset_) + padding a align + n)
  then let need := u64 (n + align) in
       grow (mk_arena (if a.(chunk_size_) <? need then need else a.(chunk_size_)) a.(offset_) a.(chunks_))
  else a.

(** [offset_ % align] is undefined when [align] is zero. *)
Definition allocate (n align : Z) : M arena pointer := fun a =>
  if align =? 0 then Undef else
  let a := make_room n align a in
  let p := u64 (a.(offset_) + padding a align) in
  Done (mk_pointer (length a.(chunks_) - 1) p) (mk_arena a.(chunk_size_) (u64 (p + n)) a.(chunks_)).

(** [create]: the constructor of [T] is the caller's; when it throws, the block
    stays taken. *)
Definition create {T} (sizeof alignof : Z) (constructed : result T) : M arena (pointer * T) :=
  mem ← allocate sizeof alignof; v ← lift constructed; mret (mem, v).

Definition reset (a : arena) : arena :=
  match a.(chunks_) with
  | [] => a
  | c :: _ => mk_arena a.(chunk_size_) 0 [c]
  end.

Definition bytes_used (a : arena) : Z :=
  match a.(chunks_) with
  | [] => 0
  | _ => u64 ((Z.of_nat (length a.(chunks_)) - 1) * a.(chunk_size_) + a.(offset_))
  end.

(** ** Running a sequence of requests

    The blocks handed out since the last [reset] are the live ones. *)

Inductive arena_op : Type := op_allocate (n align : Z) | op_reset.
Record block : Type := mk_block { at_ : pointer; len : Z; aligned_to : Z }.

Definition arena_step (o : arena_op) : M (arena * list block) unit := fun s =>
  match o with
  | op_allocate n align =>
      match allocate n align s.1 with
      | Done p a => Done tt (a, mk_block p n align :: s.2)
      | Thrown e a => Thrown e (a, s.2)
      | Undef => Undef
      end
  | op_reset => Done tt (reset s.1, [])
  end.
Fixpoint arena_run (l : list arena_op) : M (arena * list block) unit :=
  match l with [] => mret tt | o :: l' => arena_step o;; arena_run l' end.

(** [create] takes the block of a request for [sizeof], whatever the constructor does. *)
Lemma create_allocates {T} sizeof alignof (c : result T) a l p a' :
  allocate sizeof alignof a = Done p a' ->
  arena_step (op_allocate sizeof alignof) (a, l) = Done tt (a', mk_block p sizeof alignof :: l) /\
  create sizeof alignof c a = match c with Ret v => Done (p, v) a' | Throw e => Thrown e a' end.
Proof. intros Ha. cbn. unfold create, mbind, M_bind. rewrite Ha. by destruct c. Qed.

(** ** What the live blocks satisfy *)

Definition disjoint_blocks (b c : block) : Prop :=
  b.(at_).(chunk) <> c.(at_).(chunk) \/
  b.(at_).(offset) + b.(len) <= c.(at_).(offset) \/
  c.(at_).(offset) + c.(len) <= b.(at_).(offset).
Definition block_fits (a : arena) (b : block) : Prop :=
  exists size, a.(chunks_) !! b.(at_).(chunk) = Some size /\
    0 <= b.(at_).(offset) /\ b.(at_).(offset) + b.(len) <= size.
Definition block_aligned (b : block) : Prop := b.(at_).(offset) mod b.(aligned_to) = 0.

(** A request without wrap-around: sizes below [2^62], the alignment of a type. *)
Definition op_ok (o : arena_op) : Prop :=
  match o with
  | op_allocate n align => 0 <= n < 2 ^ 62 /\ 0 < align <= 16
  | op_reset => True
  end.

Definition arena_ok (a : arena) : Prop :=
  a.(chunks_) <> [] /\ Forall (fun c => 0 <= c < 2 ^ 63) a.(chunks_) /\
  0 <= a.(chunk_size_) < 2 ^ 63 /\ 0 <= a.(offset_) <= back_size a.
(** A block of the last chunk ends before the bump pointer. *)
Definition block_below (a : arena) (b : block) : Prop :=
  block_fits a b /\
  (b.(at_).(chunk) = (length a.(chunks_) - 1)%nat -> b.(at_).(offset) + b.(len) <= a.(offset_)).
Definition blocks_ok (a : arena) (l : list block) : Prop :=
  Forall (block_below a) l /\ Forall block_aligned l /\ ForallOrdPairs disjoint_blocks l.

Lemma back_size_lookup a : a.(chunks_) <> [] -> a.(chunks_) !! (length a.(chunks_) - 1)%nat = Some (back_size a).
Proof.
  unfold back_size. intros H. destruct (exists_last H) as (l & x & ->).
  rewrite last_last, length_app. simpl. replace (length l + 1 - 1)%nat with (length l) by lia.
  by rewrite list_lookup_middle.
Qed.
Lemma back_size_range a : arena_ok a -> 0 <= back_size a < 2 ^ 63.
Proof.
  intros (H & Hf & _). rewrite Forall_lookup in Hf. by eapply Hf, back_size_lookup.
Qed.

Lemma padding_spec a align :
  0 < align <= 16 -> 0 <= padding a align < align /\ (a.(offset_) + padding a align) mod align = 0.
Proof.
  intros Ha. unfold padding. pose proof (Z.mod_pos_bound (offset_ a) align ltac:(lia)).
  rewrite u64_small by lia. split; [apply Z.mod_pos_bound; lia|].
  rewrite Z.add_mod_idemp_r by lia. replace (offset_ a + _) with (align + (offset_ a - offset_ a mod align)) by lia.
  rewrite <-Z.add_mod_idemp_r, Zminus_mod_idemp_r, Z.sub_diag by lia. simpl. rewrite Z.add_0_r. by apply Z.mod_same; lia.
Qed.

(** A new chunk keeps the blocks of the old ones. *)
Lemma block_below_grow a b : block_below a b -> block_below (grow a) b.
Proof.
  intros [(size & Hc & Hb) _]. pose proof (lookup_lt_Some _ _ _ Hc). split.
  - exists size. split; [|done]. by apply lookup_app_l_Some.
  - simpl. rewrite length_app. simpl. lia.
Qed.
Lemma grow_ok a : Forall (fun c => 0 <= c < 2 ^ 63) a.(chunks_) -> 0 <= a.(chunk_size_) < 2 ^ 63 ->
  arena_ok (grow a) /\ back_size (grow a) = a.(chunk_size_).
Proof.
  intros Hf Hc. assert (Hb : back_size (grow a) = chunk_size_ a) by apply last_last.
  split; [|done]. unfold arena_ok. rewrite Hb. simpl. parts.
  - by destruct (chunks_ a).
  - by apply Forall_app, conj; [|apply Forall_singleton].
Qed.

Lemma make_room_ok n align a l :
  op_ok (op_allocate n align) -> arena_ok a -> blocks_ok a l ->
  let a' := make_room n align a in
  arena_ok a' /\ blocks_ok a' l /\ a'.(offset_) + padding a' align + n <= back_size a'.
Proof.
  intros [Hn Ha] Hok (Hb & Hal & Hd). pose proof (back_size_range _ Hok).
  destruct (padding_spec a align Ha) as [Hp _]. destruct Hok as (Hne & Hf & Hc & Ho).
  unfold make_room. rewrite !u64_small by lia.
  destruct (Z.ltb_spec (back_size a) (offset_ a + padding a align + n)); [|by split_and!; try done; lia].
  set (a0 := mk_arena _ _ _).
  assert (Hc0 : n + align <= chunk_size_ a0 < 2 ^ 63)
    by (simpl; destruct (Z.ltb_spec (chunk_size_ a) (n + align)); lia).
  destruct (grow_ok a0) as [Hg Hbs]; [done|lia|]. split_and!; [done| |].
  - split_and!; [|done..]. eapply Forall_impl; [exact Hb|]. intros b. apply (block_below_grow a0).
  - destruct (padding_spec (grow a0) align Ha) as [? _]. rewrite Hbs. simpl offset_. lia.
Qed.

Lemma allocate_ok n align a l :
  op_ok (op_allocate n align) -> arena_ok a -> blocks_ok a l ->
  exists p a', allocate n align a = Done p a' /\ arena_ok a' /\ blocks_ok a' (mk_block p n align :: l).
Proof.
  intros Hop Hok Hbl. destruct (make_room_ok n align a l Hop Hok Hbl) as (Hok' & (Hb & Hal & Hd) & Hfit).
  destruct Hop as [Hn Ha]. unfold allocate. destruct (Z.eqb_spec align 0); [lia|].
  set (a1 := make_room n align a) in *. destruct (padding_spec a1 align Ha) as [Hp Hm].
  pose proof (back_size_range _ Hok'). destruct Hok' as (Hne & Hf & Hc & Ho).
  rewrite !u64_small by lia. do 2 eexists. split; [done|].
  split; [by split_and!; simpl; try done; try lia; unfold back_size in *; simpl; lia|].
  split_and!; (constructor; [|done || (eapply Forall_impl; [exact Hb|])]); simpl.
  - split; simpl; [|lia]. exists (back_size a1). split; [by apply (back_size_lookup a1)|]. simpl; lia.
  - intros b [Hfb Hlast]. split; [done|]. intros E. specialize (Hlast E). simpl. lia.
  - done.
  - eapply Forall_impl; [exact Hb|]. intros b [_ Hlast]. unfold disjoint_blocks. simpl.
    destruct (decide (chunk (at_ b) = (length (chunks_ a1) - 1)%nat)) as [E|]; [|by left].
    specialize (Hlast E). lia.
Qed.

Lemma reset_ok a : arena_ok a -> arena_ok (reset a) /\ blocks_ok (reset a) [].
Proof.
  intros (Hne & Hf & Hc & Ho). unfold reset. destruct (chunks_ a) as [|c l]; [done|].
  inversion_clear Hf. split; [|by repeat constructor].
  unfold arena_ok, back_size. simpl. parts. by apply Forall_singleton.
Qed.

Lemma arena_run_ok ops a l :
  Forall op_ok ops -> arena_ok a -> blocks_ok a l ->
  exists a' l', arena_run ops (a, l) = Done tt (a', l') /\ arena_ok a' /\ blocks_ok a' l'.
Proof.
  induction ops as [|o ops IH] in a, l |- *; intros Hops Hok Hbl; [by eexists _, _|].
  inversion_clear Hops as [|?? Ho Hops']. simpl. unfold mbind, M_bind. destruct o as [n align|]; simpl.
  - destruct (allocate_ok n align a l Ho Hok Hbl) as (p & a' & -> & ? & ?). by apply IH.
  - destruct (reset_ok a Hok). by apply IH.
Qed.

(** ** Properties *)

(** C37. The arena hands out sound memory: from a new arena, after any sequence of
    requests (below [2^62] bytes, for an alignment of at most 16, as every type
    has that is not over-aligned) and resets, every block given since the last
    reset lies inside its chunk, starts at a multiple of its alignment, and overlaps
    no other one; no request fails. *)
Theorem arena_blocks_sound (chunk_size : Z) (ops : list arena_op) :
  0 <= chunk_size < 2 ^ 63 -> Forall op_ok ops ->
  exists a live, arena_run ops (new_arena chunk_size, []) = Done tt (a, live) /\
    Forall (block_fits a) live /\ Forall block_aligned live /\ ForallOrdPairs disjoint_blocks live.
Proof.
  intros Hc Hops. destruct (grow_ok (mk_arena chunk_size 0 [])) as [Hok _]; [constructor|done|].
  destruct (arena_run_ok ops _ [] Hops Hok) as (a & l & Hr & _ & Hb & Hal & Hd); [by repeat constructor|].
  exists a, l. split_and!; try done. eapply Forall_impl; [exact Hb|]. by intros b [].
Qed.

(** Three blocks over two chunks. *)
Example arena_blocks_sound_witness :
  exists a live, arena_run [op_reset; op_allocate 3 1; op_allocate 8 8; op_allocate 2000 16]
      (new_arena 1024, []) = Done tt (a, live) /\
    Forall (block_fits a) live /\ Forall block_aligned live /\ ForallOrdPairs disjoint_blocks live.
Proof. apply (arena_blocks_sound 1024); [lia|]. repeat constructor; lia. Defined.

(** A request close to [SIZE_MAX] wraps the bound check: it succeeds and moves
    the bump pointer back into the previous block. *)
Example huge_request_overlaps :
  (arena_run [op_allocate 16 1; op_allocate (2 ^ 64 - 8) 1; op_allocate 8 1] (new_arena 1024, [])) =
  Done tt (mk_arena 1024 16 [1024],
    [mk_block (mk_pointer 0 8) 8 1; mk_block (mk_pointer 0 16) (2 ^ 64 - 8) 1; mk_block (mk_pointer 0 0) 16 1]).
Proof. reflexivity. Qed.

(** After a growth of the chunk size [bytes_used] counts the first chunk at the
    new size: more bytes than the arena holds. *)
Example bytes_used_exceeds_capacity :
  match allocate 2000 16 (new_arena 1024) with
  | Done _ a => bytes_used a = 4016 /\ foldr Z.add 0 a.(chunks_) = 3040
  | _ => False
  end.
Proof. split; reflexivity. Qed.
