(* ===== verification/WorkerPool.v ===== *)
(** * Priority worker pool ([include/hive_native/perf/worker_pool.hpp])

    The pool as a transition system. Every step is one of the code's critical
    sections (they all hold [mu_]) and steps interleave freely; a worker takes
    its step only when the predicate of its wait holds. [PoolThreads] shows that
    the threads of the code do what these steps say. A task is an element of
    [task]; the effect of the call [fn()] is the log [ran]. *)
From S2P Require Import Prelude.

Inductive task_priority : Type := apply | high | medium | low.
Definition priority_index (p : task_priority) : nat :=
  match p with apply => 0 | high => 1 | medium => 2 | low => 3 end.

Section pool.
Context {task : Type}.

(** Where the thread of [loop] is: at the wait, in [fn()], or returned. *)
Inductive worker : Type := waiting | running (t : task) | returned.

Record worker_pool : Type := mk_pool {
  workers_ : list worker; queues_ : list (list task); stop_ : bool;
  submitted_ : Z; completed_ : Z; inflight_ : Z;
  ran : list task }.

Definition new_pool (hardware_concurrency n : nat) : worker_pool :=
  let n := match n with O => Nat.max 1 hardware_concurrency | _ => n end in
  mk_pool (replicate n waiting) [[]; []; []; []] false 0 0 0 [].

Definition is_nil (q : list task) : bool := match q with [] => true | _ => false end.
Definition all_empty (s : worker_pool) : bool := forallb is_nil s.(queues_).

Fixpoint pop (qs : list (list task)) : option (task * list (list task)) :=
  match qs with
  | [] => None
  | [] :: qs' => match pop qs' with Some (t, r) => Some (t, [] :: r) | None => None end
  | (t :: q) :: qs' => Some (t, q :: qs')
  end.

(** [caller] is the worker inside whose task the call is, if any. *)
Inductive event : Type :=
| ev_submit (caller : option nat) (p : task_priority) (t : task)
| ev_take (i : nat)
| ev_finish (i : nat)
| ev_return (i : nat)
| ev_stop.

Definition submit (p : task_priority) (t : task) (s : worker_pool) : worker_pool :=
  mk_pool s.(workers_) (alter (fun q => q ++ [t]) (priority_index p) s.(queues_)) s.(stop_)
    (u64 (s.(submitted_) + 1)) s.(completed_) s.(inflight_) s.(ran).

(** The first critical section of [loop]: [Some None] returns from the thread. *)
Definition loop_take (i : nat) (s : worker_pool) : option (option worker_pool) :=
  if negb (s.(stop_) || negb (all_empty s)) then None
  else if s.(stop_) && all_empty s then Some None
  else match pop s.(queues_) with
       | None => Some (Some s)
       | Some (t, qs) =>
           Some (Some (mk_pool (<[i := running t]> s.(workers_)) qs s.(stop_) s.(submitted_)
             s.(completed_) (u64 (s.(inflight_) + 1)) s.(ran)))
       end.
(** The call of the task and the second critical section. *)
Definition loop_finish (i : nat) (t : task) (s : worker_pool) : worker_pool :=
  mk_pool (<[i := waiting]> s.(workers_)) s.(queues_) s.(stop_) s.(submitted_)
    (u64 (s.(completed_) + 1)) (u64 (s.(inflight_) - 1)) (s.(ran) ++ [t]).
Definition loop_return (i : nat) (s : worker_pool) : worker_pool :=
  mk_pool (<[i := returned]> s.(workers_)) s.(queues_) s.(stop_) s.(submitted_)
    s.(completed_) s.(inflight_) s.(ran).
Definition set_stop (s : worker_pool) : worker_pool :=
  mk_pool s.(workers_) s.(queues_) true s.(submitted_) s.(completed_) s.(inflight_) s.(ran).

Definition is_running (s : worker_pool) (i : nat) : bool :=
  match s.(workers_) !! i with Some (running _) => true | _ => false end.

Definition pool_step (e : event) (s : worker_pool) : option worker_pool :=
  match e with
  | ev_submit None p t => Some (submit p t s)
  | ev_submit (Some i) p t => if is_running s i then Some (submit p t s) else None
  | ev_take i =>
      match s.(workers_) !! i, loop_take i s with
      | Some waiting, Some (Some s') => Some s'
      | _, _ => None
      end
  | ev_finish i =>
      match s.(workers_) !! i with Some (running t) => Some (loop_finish i t s) | _ => None end
  | ev_return i =>
      match s.(workers_) !! i, loop_take i s with
      | Some waiting, Some None => Some (loop_return i s)
      | _, _ => None
      end
  | ev_stop => Some (set_stop s)
  end.

Fixpoint pool_run (l : list event) (s : worker_pool) : option worker_pool :=
  match l with [] => Some s | e :: l' => match pool_step e s with Some s' => pool_run l' s' | None => None end end.

(** The condition under which [wait_idle] returns. *)
Definition wait_idle_returns (s : worker_pool) : bool := (s.(inflight_) =? 0) && all_empty s.

(** ** What a pool holds *)

Definition task_given (e : event) : option task :=
  match e with ev_submit _ _ t => Some t | _ => None end.
Definition given (l : list event) : list task := omap task_given l.
Definition task_of (w : worker) : option task := match w with running t => Some t | _ => None end.
Definition tasks_in (ws : list worker) : list task := omap task_of ws.
Definition in_flight (s : worker_pool) : list task := tasks_in s.(workers_).
Definition queued (s : worker_pool) : list task := concat s.(queues_).

Record pool_inv (l : list event) (s : worker_pool) : Prop := {
  inv_queues : length s.(queues_) = 4%nat;
  inv_width : Z.of_nat (length s.(workers_)) < 2 ^ 64;
  inv_tasks : given l ≡ₚ s.(ran) ++ in_flight s ++ queued s;
  inv_submitted : s.(submitted_) = u64 (Z.of_nat (length (given l)));
  inv_completed : s.(completed_) = u64 (Z.of_nat (length s.(ran)));
  inv_inflight : s.(inflight_) = Z.of_nat (length (in_flight s)) }.

Lemma all_empty_queued s : all_empty s = true <-> queued s = [].
Proof.
  unfold all_empty, queued. induction (queues_ s) as [|q qs IH]; [done|]. simpl.
  rewrite andb_true_iff, IH. destruct q; simpl; [tauto|]. by split; [intros []|].
Qed.

(** [pop] takes the oldest task of the first queue that has one. *)
Lemma pop_spec qs t r :
  pop qs = Some (t, r) <->
  exists pre q post, qs = pre ++ (t :: q) :: post /\ Forall (eq []) pre /\ r = pre ++ q :: post.
Proof.
  induction qs as [|[|x q] qs IH] in r |- *; simpl.
  - split; [done|]. by intros ([|??] & ? & ? & ? & _).
  - split.
    + destruct (pop qs) as [[t' r']|] eqn:E; [|done]. intros [= -> <-].
      destruct (proj1 (IH r') eq_refl) as (pre & q & post & -> & Hp & ->).
      exists ([] :: pre), q, post. split_and!; try done. by constructor.
    + intros ([|p pre] & q & post & Hq & Hp & Hr); [done|]. inversion_clear Hp; subst p.
      injection Hq as Hq. by rewrite (proj2 (IH (pre ++ q :: post))) by (exists pre, q, post; auto); subst.
  - split.
    + intros [= -> <-]. by exists [], q, qs.
    + intros ([|p pre] & q' & post & Hq & Hp & ->); [by injection Hq as -> -> ->|].
      inversion_clear Hp; subst p. done.
Qed.
Lemma pop_none qs : pop qs = None -> forallb is_nil qs = true.
Proof. induction qs as [|[|x q] qs IH]; simpl; [done| |done]. destruct (pop qs) as [[]|]; [done|auto]. Qed.

Lemma pop_concat qs t r : pop qs = Some (t, r) -> concat qs = t :: concat r /\ length r = length qs.
Proof.
  revert r. induction qs as [|[|x q] qs IH]; intros r; simpl; [done| |by intros [= -> <-]].
  destruct (pop qs) as [[t' r']|]; [|done]. intros [= -> <-]. simpl.
  destruct (IH r' eq_refl) as [-> ->]. done.
Qed.

Lemma given_snoc l e : given (l ++ [e]) = given l ++ option_list (task_given e).
Proof. unfold given. rewrite omap_app. simpl. by destruct (task_given e). Qed.
Lemma tasks_cons w ws : tasks_in (w :: ws) = option_list (task_of w) ++ tasks_in ws.
Proof. unfold tasks_in. simpl. by destruct (task_of w). Qed.
Lemma tasks_app ws ws' : tasks_in (ws ++ ws') = tasks_in ws ++ tasks_in ws'.
Proof. apply omap_app. Qed.
Lemma tasks_insert ws i w w' :
  ws !! i = Some w ->
  option_list (task_of w) ++ tasks_in (<[i := w']> ws) ≡ₚ option_list (task_of w') ++ tasks_in ws.
Proof.
  intros Hi. rewrite <-(take_drop_middle ws i w Hi) at 2.
  rewrite insert_take_drop by (by eapply lookup_lt_Some).
  rewrite !tasks_app, !tasks_cons. solve_Permutation.
Qed.
Lemma tasks_length ws : (length (tasks_in ws) <= length ws)%nat.
Proof.
  induction ws as [|w ws IH]; [simpl; lia|].
  rewrite tasks_cons, length_app. destruct (task_of w); simpl; lia.
Qed.

Lemma queued_submit (qs : list (list task)) (p : nat) (t : task) :
  (p < length qs)%nat -> concat (alter (fun q => q ++ [t]) p qs) ≡ₚ t :: concat qs.
Proof.
  induction qs as [|q qs IH] in p |- *; simpl; [lia|]. intros Hp. destruct p as [|p]; simpl.
  - solve_Permutation.
  - etrans; [apply Permutation_app_head, IH; lia|solve_Permutation].
Qed.

Lemma new_pool_inv hc n :
  Z.of_nat (length (workers_ (new_pool hc n))) < 2 ^ 64 -> pool_inv [] (new_pool hc n).
Proof.
  intros Hw. assert (Hf : in_flight (new_pool hc n) = []).
  { unfold in_flight, new_pool. simpl.
    induction (match n with O => _ | _ => _ end) as [|k IH]; [done|]. apply IH. }
  by split; rewrite ?Hf.
Qed.

Lemma submit_inv l s c p t : pool_inv l s -> pool_inv (l ++ [ev_submit c p t]) (submit p t s).
Proof.
  intros []. 
  assert (Hp : (priority_index p < length (queues_ s))%nat) by (destruct p; simpl; lia).
  split; simpl; try done; rewrite ?given_snoc; simpl.
  - by rewrite length_alter.
  - unfold queued, in_flight in *. simpl. rewrite queued_submit by done. rewrite inv_tasks0. solve_Permutation.
  - rewrite inv_submitted0, length_app. unfold u64. rewrite Z.add_mod_idemp_l by lia. f_equal. simpl. lia.
Qed.

Lemma take_inv l s i t qs :
  pool_inv l s -> s.(workers_) !! i = Some waiting -> pop s.(queues_) = Some (t, qs) ->
  pool_inv (l ++ [ev_take i])
    (mk_pool (<[i := running t]> s.(workers_)) qs s.(stop_) s.(submitted_) s.(completed_)
       (u64 (s.(inflight_) + 1)) s.(ran)).
Proof.
  intros [] Hi Hpop. destruct (pop_concat _ _ _ Hpop) as [Hc Hl].
  pose proof (tasks_insert _ _ _ (running t) Hi) as Ht. simpl in Ht.
  pose proof (tasks_length (<[i := running t]> (workers_ s))) as Hle. rewrite length_insert in Hle.
  assert (Hlen : length (tasks_in (<[i:=running t]> (workers_ s))) = S (length (in_flight s)))
    by (by rewrite Ht).
  unfold queued in *. rewrite Hc in inv_tasks0.
  split; simpl; rewrite ?given_snoc; simpl; rewrite ?app_nil_r; try done.
  - lia.
  - by rewrite length_insert.
  - unfold queued, in_flight in *. simpl. rewrite Ht, inv_tasks0. solve_Permutation.
  - unfold in_flight at 1. simpl. rewrite Hlen, inv_inflight0, u64_small; lia.
Qed.

Lemma finish_inv l s i t :
  pool_inv l s -> s.(workers_) !! i = Some (running t) -> pool_inv (l ++ [ev_finish i]) (loop_finish i t s).
Proof.
  intros [] Hi. pose proof (tasks_insert _ _ _ waiting Hi) as Ht. simpl in Ht.
  assert (Hlen : length (in_flight s) = S (length (tasks_in (<[i:=waiting]> (workers_ s)))))
    by (unfold in_flight; by rewrite <-Ht).
  pose proof (tasks_length (workers_ s)) as Hle.
   split; simpl; rewrite ?given_snoc; simpl; rewrite ?app_nil_r; try done.
  - by rewrite length_insert.
  - unfold queued, in_flight in *. simpl. rewrite <-Ht in inv_tasks0. rewrite inv_tasks0. solve_Permutation.
  - rewrite inv_completed0, length_app. unfold u64. rewrite Z.add_mod_idemp_l by lia. f_equal. simpl. lia.
  - unfold in_flight in *. simpl. rewrite inv_inflight0, u64_small; lia.
Qed.

Lemma step_inv l s e s' : pool_inv l s -> pool_step e s = Some s' -> pool_inv (l ++ [e]) s'.
Proof.
  intros Hinv. destruct e as [c p t|i|i|i|]; simpl.
  - destruct c as [i|]; [destruct (is_running s i); [|done]|]; intros [= <-]; by apply submit_inv.
  - destruct (workers_ s !! i) as [[| |]|] eqn:Hi; try done. unfold loop_take.
    destruct (all_empty s) eqn:He; [by destruct (stop_ s)|]. rewrite orb_true_r, andb_false_r. simpl.
    destruct (pop (queues_ s)) as [[t qs]|] eqn:Hp; [|apply pop_none in Hp; unfold all_empty in He; congruence].
    intros [= <-]. by apply take_inv.
  - destruct (workers_ s !! i) as [[| |]|] eqn:Hi; try done. intros [= <-]. by apply finish_inv.
  - destruct (workers_ s !! i) as [[| |]|] eqn:Hi; try done.
    destruct (loop_take i s) as [[|]|]; try done. intros [= <-].
    pose proof (tasks_insert _ _ _ returned Hi) as Ht. destruct Hinv. simpl in Ht.
    split; simpl; rewrite ?given_snoc; simpl; rewrite ?app_nil_r; try done.
    + by rewrite length_insert.
    + unfold in_flight, queued in *. simpl. by rewrite Ht.
    + unfold in_flight in *. simpl. by rewrite Ht.
  - intros [= <-]. destruct Hinv. split; simpl; rewrite ?given_snoc; simpl;
      by rewrite ?app_nil_r.
Qed.

Lemma run_inv l0 l s s' : pool_inv l0 s -> pool_run l s = Some s' -> pool_inv (l0 ++ l) s'.
Proof.
  induction l as [|e l IH] in l0, s |- *; simpl; intros Hinv; [intros [= <-]; by rewrite app_nil_r|].
  destruct (pool_step e s) as [s1|] eqn:E; [|done]. intros Hr.
  rewrite cons_middle, app_assoc. eapply IH; [|exact Hr]. by eapply step_inv.
Qed.

(** A worker takes the oldest task of the most urgent queue that has one. *)
Definition takes_first (i : nat) (s s' : worker_pool) : Prop :=
  exists p t q, s.(queues_) !! p = Some (t :: q) /\
    (forall p', (p' < p)%nat -> s.(queues_) !! p' = Some []) /\
    s'.(workers_) !! i = Some (running t) /\ s'.(queues_) = <[p := q]> s.(queues_).

Lemma take_takes_first i s s' : pool_step (ev_take i) s = Some s' -> takes_first i s s'.
Proof.
  simpl. destruct (workers_ s !! i) as [[| |]|] eqn:Hi; try done. unfold loop_take.
  destruct (all_empty s) eqn:He; [by destruct (stop_ s)|]. rewrite orb_true_r, andb_false_r. simpl.
  destruct (pop (queues_ s)) as [[t qs]|] eqn:Hp; [|apply pop_none in Hp; unfold all_empty in He; congruence].
  intros [= <-]. apply pop_spec in Hp as (pre & q & post & Hq & Hpre & ->).
  exists (length pre), t, q. rewrite Hq. simpl. split_and!.
  - by apply list_lookup_middle.
  - intros p' Hp'. rewrite lookup_app_l by done. destruct (lookup_lt_is_Some_2 pre p' Hp') as [x Hx].
    rewrite Hx. f_equal. symmetry. by eapply Forall_lookup_1 in Hpre.
  - apply list_lookup_insert_eq. by eapply lookup_lt_Some.
  - by rewrite insert_app_r_alt, Nat.sub_diag by lia.
Qed.

(** *** Shutdown *)

Definition worker_event (e : event) : bool :=
  match e with ev_take _ | ev_finish _ | ev_return _ => true | _ => false end.
(** Once the destructor runs nobody outside the pool may use it. *)
Definition shutdown_event (e : event) : bool := match e with ev_submit None _ _ => false | _ => true end.
Definition is_returned (w : worker) : bool := match w with returned => true | _ => false end.
Definition all_returned (s : worker_pool) : bool := forallb is_returned s.(workers_).

Definition alive (ws : list worker) : nat := length (List.filter (fun w => negb (is_returned w)) ws).
(** A bound on the worker steps left when nothing more is submitted. *)
Definition work_left (s : worker_pool) : nat :=
  (3 * length (queued s) + 2 * length (in_flight s) + alive s.(workers_))%nat.

Lemma alive_insert ws i w w' :
  ws !! i = Some w ->
  (alive (<[i := w']> ws) + (if is_returned w then 0 else 1) = alive ws + (if is_returned w' then 0 else 1))%nat.
Proof.
  intros Hi. rewrite <-(take_drop_middle ws i w Hi) at 2.
  rewrite insert_take_drop by (by eapply lookup_lt_Some). unfold alive.
  rewrite !List.filter_app, !length_app. simpl. destruct (is_returned w), (is_returned w'); simpl; lia.
Qed.
Lemma tasks_insert_length ws i w w' :
  ws !! i = Some w ->
  (length (option_list (task_of w)) + length (tasks_in (<[i := w']> ws)) =
   length (option_list (task_of w')) + length (tasks_in ws))%nat.
Proof. intros Hi. rewrite <-!length_app. by rewrite (tasks_insert ws i w w' Hi). Qed.

Lemma queued_submit_le (qs : list (list task)) (p : nat) (t : task) :
  (length (concat (alter (fun q => q ++ [t]) p qs)) <= S (length (concat qs)))%nat.
Proof.
  induction qs as [|q qs IH] in p |- *; simpl; [lia|]. destruct p as [|p]; simpl; rewrite !length_app.
  - simpl. lia.
  - specialize (IH p). unfold alter in IH. lia.
Qed.

Lemma step_work_left e s s' :
  pool_step e s = Some s' ->
  (work_left s' + (if worker_event e then 1 else 0) <= work_left s + 3 * length (given [e]))%nat.
Proof.
  unfold work_left, queued, in_flight. destruct e as [c p t|i|i|i|]; simpl.
  - pose proof (queued_submit_le (queues_ s) (priority_index p) t).
    destruct c as [i|]; [destruct (is_running s i); [|done]|]; intros [= <-]; simpl; lia.
  - destruct (workers_ s !! i) as [[| |]|] eqn:Hi; try done. unfold loop_take.
    destruct (all_empty s) eqn:He; [by destruct (stop_ s)|]. rewrite orb_true_r, andb_false_r. simpl.
    destruct (pop (queues_ s)) as [[t qs]|] eqn:Hp; [|apply pop_none in Hp; unfold all_empty in He; congruence].
    destruct (pop_concat _ _ _ Hp) as [Hc _]. intros [= <-]. simpl. rewrite Hc. simpl.
    pose proof (alive_insert _ _ _ (running t) Hi). pose proof (tasks_insert_length _ _ _ (running t) Hi).
    simpl in *. lia.
  - destruct (workers_ s !! i) as [[|t|]|] eqn:Hi; try done. intros [= <-]. simpl.
    pose proof (alive_insert _ _ _ waiting Hi). pose proof (tasks_insert_length _ _ _ waiting Hi).
    simpl in *. lia.
  - destruct (workers_ s !! i) as [[| |]|] eqn:Hi; try done.
    destruct (loop_take i s) as [[|]|]; try done. intros [= <-]. simpl.
    pose proof (alive_insert _ _ _ returned Hi). pose proof (tasks_insert_length _ _ _ returned Hi).
    simpl in *. lia.
  - intros [= <-]. simpl. lia.
Qed.

Lemma given_cons e l : given (e :: l) = given [e] ++ given l.
Proof. unfold given. by destruct e. Qed.

Lemma run_work_left l s s' :
  pool_run l s = Some s' ->
  (work_left s' + length (List.filter worker_event l) <= work_left s + 3 * length (given l))%nat.
Proof.
  induction l as [|e l IH] in s |- *; cbn [pool_run List.filter]; [intros [= <-]; simpl; lia|].
  destruct (pool_step e s) as [s1|] eqn:E; [|done]. intros Hr.
  apply step_work_left in E. apply IH in Hr. rewrite given_cons, length_app.
  destruct (worker_event e); cbn [length]; lia.
Qed.

(** Queued tasks have a worker left to run them. *)
Definition stopping (s : worker_pool) : Prop :=
  s.(stop_) = true /\ (all_returned s = true -> all_empty s = true).

Lemma not_all_returned s i w :
  s.(workers_) !! i = Some w -> is_returned w = false -> all_returned s = false.
Proof.
  intros Hi Hw. apply not_true_iff_false. intros H. unfold all_returned in H.
  rewrite forallb_forall in H. rewrite (H w) in Hw; [done|].
  by apply list_elem_of_In, list_elem_of_lookup_2 with i.
Qed.

Lemma step_stopping e s s' :
  shutdown_event e = true -> stopping s -> pool_step e s = Some s' -> stopping s'.
Proof.
  intros He [Hstop Hall]. destruct e as [[i|] p t|i|i|i|]; simpl; try done.
  - destruct (is_running s i) eqn:Hr; [|done]. intros [= <-]. split; [done|].
    unfold is_running in Hr. destruct (workers_ s !! i) as [[|t'|]|] eqn:Hi; try done.
    intros H. change (all_returned s = true) in H. by rewrite (not_all_returned s i _ Hi) in H.
  - destruct (workers_ s !! i) as [[| |]|] eqn:Hi; try done. pose proof (lookup_lt_Some _ _ _ Hi).
    unfold loop_take. rewrite Hstop. simpl. destruct (all_empty s) eqn:Hem; [done|].
    destruct (pop (queues_ s)) as [[t qs]|]; [|intros [= <-]; split; [done|by rewrite Hem]].
    intros [= <-]. split; [done|]. intros H'.
    rewrite (not_all_returned _ i (running t)) in H'; [done| |done]. by apply list_lookup_insert_eq.
  - destruct (workers_ s !! i) as [[|t|]|] eqn:Hi; try done. pose proof (lookup_lt_Some _ _ _ Hi).
    intros [= <-]. split; [done|]. intros H'.
    rewrite (not_all_returned _ i waiting) in H'; [done| |done]. by apply list_lookup_insert_eq.
  - destruct (workers_ s !! i) as [[| |]|] eqn:Hi; try done.
    unfold loop_take. rewrite Hstop. simpl. destruct (all_empty s) eqn:Hem.
    + intros [= <-]. by split.
    + by destruct (pop (queues_ s)) as [[]|].
  - intros [= <-]. by split.
Qed.

Lemma run_stopping l s s' :
  forallb shutdown_event l = true -> stopping s -> pool_run l s = Some s' -> stopping s'.
Proof.
  induction l as [|e l IH] in s |- *; simpl; intros Hl Hs; [by intros [= <-]|].
  apply andb_true_iff in Hl as [He Hl].
  destruct (pool_step e s) as [s1|] eqn:E; [|done]. apply IH; [done|]. by eapply step_stopping.
Qed.

(** Before the destructor no worker returns. *)
Definition serving (s : worker_pool) : Prop :=
  s.(stop_) = false /\ s.(workers_) <> [] /\ Forall (fun w => is_returned w = false) s.(workers_).

Lemma step_serving e s s' : e <> ev_stop -> serving s -> pool_step e s = Some s' -> serving s'.
Proof.
  intros He (Hstop & Hne & Hf).
  assert (Hset : forall i w, is_returned w = false ->
    <[i := w]> s.(workers_) <> [] /\ Forall (fun w => is_returned w = false) (<[i := w]> s.(workers_))).
  { intros i w Hw. split; [|by apply Forall_insert]. intros H0. apply Hne, length_zero_iff_nil.
    by rewrite <-(length_insert _ i w), H0. }
  destruct e as [c p t|i|i|i|]; simpl; try done.
  - destruct c as [i|]; [destruct (is_running s i); [|done]|]; by intros [= <-].
  - destruct (workers_ s !! i) as [[| |]|] eqn:Hi; try done. unfold loop_take. rewrite Hstop. simpl.
    destruct (negb _); simpl; [done|].
    destruct (pop (queues_ s)) as [[t qs]|]; intros [= <-]; [|done]. split; [done|]. by apply Hset.
  - destruct (workers_ s !! i) as [[|t|]|] eqn:Hi; try done. intros [= <-]. split; [done|]. by apply Hset.
  - destruct (workers_ s !! i) as [[| |]|] eqn:Hi; try done. unfold loop_take. rewrite Hstop. simpl.
    destruct (negb _); simpl; [done|]. by destruct (pop (queues_ s)) as [[]|].
Qed.
Lemma run_serving (l : list event) s s' : ev_stop ∉ l -> serving s -> pool_run l s = Some s' -> serving s'.
Proof.
  induction l as [|e l IH] in s |- *; simpl; intros Hl Hs; [by intros [= <-]|].
  apply not_elem_of_cons in Hl as [He Hl].
  destruct (pool_step e s) as [s1|] eqn:E; [|done]. apply IH; [done|]. by eapply step_serving.
Qed.
Lemma new_pool_serving hc n : serving (new_pool hc n).
Proof.
  split_and!; [done| |].
  - unfold new_pool. simpl. by destruct n; simpl; [destruct (Nat.max 1 hc) eqn:E; [lia|]|].
  - by apply Forall_replicate.
Qed.
Lemma serving_stop s : serving s -> stopping (set_stop s).
Proof.
  intros (_ & Hne & Hf). split; [done|]. intros H. exfalso. unfold all_returned in H. simpl in H.
  destruct (workers_ s) as [|w ws]; [done|]. inversion_clear Hf as [|?? Hw]. simpl in H. by rewrite Hw in H.
Qed.

(** A stopped pool that cannot step has run everything. *)
Lemma stopping_stuck s :
  stopping s -> (forall e, worker_event e = true -> pool_step e s = None) ->
  all_returned s = true /\ in_flight s = [] /\ queued s = [].
Proof.
  intros [Hstop Hall] Hstuck.
  assert (Hf : Forall (fun w => is_returned w = true) s.(workers_)).
  { apply Forall_lookup. intros i [|t|] Hi; [| |done].
    - pose proof (Hstuck (ev_take i) eq_refl) as H1. pose proof (Hstuck (ev_return i) eq_refl) as H2.
      simpl in H1, H2. rewrite Hi in H1, H2. unfold loop_take in H1, H2. rewrite Hstop in H1, H2. simpl in *.
      destruct (all_empty s); [done|]. by destruct (pop (queues_ s)) as [[]|].
    - specialize (Hstuck (ev_finish i) eq_refl). simpl in Hstuck. by rewrite Hi in Hstuck. }
  assert (Ha : all_returned s = true).
  { apply forallb_forall. intros w Hw. rewrite Forall_forall in Hf. by apply Hf, list_elem_of_In. }
  split; [done|]. split; [|by apply all_empty_queued, Hall].
  unfold in_flight. induction Hf as [|w ws Hw _ IH]; [done|]. rewrite tasks_cons, IH. by destruct w.
Qed.

(** A pool in service that cannot step has nothing to do. *)
Lemma serving_stuck s :
  serving s -> (forall e, worker_event e = true -> pool_step e s = None) ->
  in_flight s = [] /\ all_empty s = true.
Proof.
  intros (Hstop & Hne & Hf) Hstuck.
  assert (Hwait : forall i w, s.(workers_) !! i = Some w -> w = waiting).
  { intros i [|t|] Hi; [done| |].
    - specialize (Hstuck (ev_finish i) eq_refl). simpl in Hstuck. by rewrite Hi in Hstuck.
    - rewrite Forall_lookup in Hf. by specialize (Hf _ _ Hi). }
  split.
  - unfold in_flight. assert (Hall : Forall (fun w => w = waiting) s.(workers_)) by (by apply Forall_lookup).
    clear -Hall. induction Hall as [|w ws -> _ IH]; [done|exact IH].
  - destruct (workers_ s) as [|w ws] eqn:Hws; [done|].
    pose proof (Hstuck (ev_take 0) eq_refl) as H0. simpl in H0. rewrite Hws in H0. simpl in H0.
    rewrite (Hwait 0%nat w eq_refl) in H0. unfold loop_take in H0. rewrite Hstop in H0. simpl in H0.
    destruct (all_empty s) eqn:He; [done|exfalso]. simpl in H0.
    destruct (pop (queues_ s)) as [[t qs]|] eqn:Hp; [done|]. apply pop_none in Hp.
    unfold all_empty in He. congruence.
Qed.

(** ** Properties *)

(** C29. The pool runs each task once. After any interleaving of submissions and
    worker steps, the tasks submitted are, without loss or repetition, those
    that ran, those in a worker and those queued; the three counters say so (two
    of them modulo [2^64]); [wait_idle] returns only when everything submitted
    has run; and the task a worker takes is the oldest one of the most urgent
    queue that has any. *)
Theorem pool_runs_each_task_once (hardware_concurrency n : nat) (l : list event) (s : worker_pool) :
  Z.of_nat (length (new_pool hardware_concurrency n).(workers_)) < 2 ^ 64 ->
  pool_run l (new_pool hardware_concurrency n) = Some s ->
  given l ≡ₚ s.(ran) ++ in_flight s ++ queued s /\
  s.(submitted_) = u64 (Z.of_nat (length (given l))) /\
  s.(completed_) = u64 (Z.of_nat (length s.(ran))) /\
  s.(inflight_) = Z.of_nat (length (in_flight s)) /\
  (wait_idle_returns s = true -> given l ≡ₚ s.(ran)) /\
  (forall i s', pool_step (ev_take i) s = Some s' -> takes_first i s s').
Proof.
  intros Hw Hr. apply (run_inv []) in Hr as []; [|by apply new_pool_inv]. simpl in *.
  split_and!; try done; [|by intros; apply take_takes_first].
  unfold wait_idle_returns. intros H. apply andb_true_iff in H as [H1 H2].
  apply all_empty_queued in H2. apply Z.eqb_eq in H1. rewrite H2, app_nil_r in inv_tasks0.
  destruct (in_flight s); [by rewrite app_nil_r in inv_tasks0|simpl in *; lia].
Qed.

(** Destroying the pool runs everything and ends. Once the destructor has set
    the stop flag (and only the pool's own tasks may still submit), the workers
    take a bounded number of steps, three for each task queued or submitted and
    one for each worker at most; and when no worker can step any more, all
    threads have returned, so that the joins return, and every task submitted
    before or during the shutdown has run. *)
Theorem shutdown_runs_everything (hardware_concurrency n : nat) (l l' : list event) (s s' : worker_pool) :
  Z.of_nat (length (new_pool hardware_concurrency n).(workers_)) < 2 ^ 64 ->
  pool_run l (new_pool hardware_concurrency n) = Some s -> ev_stop ∉ l ->
  pool_run (ev_stop :: l') s = Some s' -> forallb shutdown_event l' = true ->
  (length (List.filter worker_event l') <= work_left s + 3 * length (given l'))%nat /\
  ((forall e, worker_event e = true -> pool_step e s' = None) ->
   all_returned s' = true /\ given (l ++ l') ≡ₚ s'.(ran)).
Proof.
  intros Hw Hr Hl Hr' Hl'. split.
  - apply run_work_left in Hr'. cbn [List.filter worker_event] in Hr'. rewrite given_cons in Hr'.
    simpl app in Hr'. lia.
  - intros Hstuck. assert (Hs : stopping s').
    { cbn in Hr'. eapply run_stopping; [exact Hl'| |exact Hr'].
      apply serving_stop. eapply run_serving; [exact Hl| |exact Hr]. apply new_pool_serving. }
    destruct (stopping_stuck _ Hs Hstuck) as (Ha & Hf & Hq). split; [done|].
    apply (run_inv []) in Hr; [|by apply new_pool_inv].
    apply (run_inv _ _ _ _ Hr) in Hr'. destruct Hr'. simpl in *.
    rewrite Hf, Hq, !app_nil_r in inv_tasks0. rewrite <-inv_tasks0.
    unfold given. by rewrite !omap_app.
Qed.

(** [wait_idle] comes back: in a pool that is not being destroyed, with nobody
    but the pool's own tasks submitting, the workers take a bounded number of
    steps (three for each task queued or submitted and one for each worker at
    most); and whenever no worker can step any more, no task is queued or in a
    worker, everything submitted has run, and the condition under which
    [wait_idle] returns holds. *)
Theorem wait_idle_comes_back (hardware_concurrency n : nat) (l l' : list event) (s s' : worker_pool) :
  Z.of_nat (length (new_pool hardware_concurrency n).(workers_)) < 2 ^ 64 ->
  pool_run l (new_pool hardware_concurrency n) = Some s -> ev_stop ∉ l ->
  pool_run l' s = Some s' -> forallb shutdown_event l' = true -> ev_stop ∉ l' ->
  (length (List.filter worker_event l') <= work_left s + 3 * length (given l'))%nat /\
  ((forall e, worker_event e = true -> pool_step e s' = None) ->
   wait_idle_returns s' = true /\ given (l ++ l') ≡ₚ s'.(ran)).
Proof.
  intros Hw Hr Hl Hr' Hown Hl'. split; [by apply run_work_left in Hr'; lia|].
  intros Hstuck. assert (Hs : serving s').
  { eapply run_serving; [exact Hl'| |exact Hr']. eapply run_serving; [exact Hl| |exact Hr]. apply new_pool_serving. }
  apply (run_inv []) in Hr; [|by apply new_pool_inv]. apply (run_inv _ _ _ _ Hr) in Hr'.
  destruct (serving_stuck _ Hs Hstuck) as [Hf He]. pose proof (proj1 (all_empty_queued _) He) as Hq.
  destruct Hr'. simpl in *. split.
  - unfold wait_idle_returns. rewrite He, andb_true_r. apply Z.eqb_eq. rewrite Hf in *. simpl in *. lia.
  - rewrite Hf, Hq, !app_nil_r in inv_tasks0. rewrite <-inv_tasks0. unfold given. by rewrite !omap_app.
Qed.
End pool.

(** A task of low and one of high priority on one worker: the high one first. *)
Example pool_runs_each_task_once_witness :
  exists s, pool_run [ev_submit None low 1%nat; ev_submit None high 2%nat; ev_take 0; ev_finish 0; ev_take 0]
      (new_pool 8 1) = Some s /\
    s.(ran) = [2%nat] /\ in_flight s = [1%nat] /\ s.(completed_) = 1 /\
    [1%nat; 2%nat] ≡ₚ s.(ran) ++ in_flight s ++ queued s.
Proof.
  eexists. split; [reflexivity|]. do 3 (split; [reflexivity|]).
  apply (pool_runs_each_task_once 8 1
    [ev_submit None low 1%nat; ev_submit None high 2%nat; ev_take 0; ev_finish 0; ev_take 0]);
    [simpl; lia|reflexivity].
Defined.

(** Shutdown while a task is queued; the task submits another one. *)
Example shutdown_runs_everything_witness :
  let l' := [ev_take 0; ev_submit (Some 0%nat) apply 2%nat; ev_finish 0; ev_take 0; ev_finish 0; ev_return 0] in
  exists s', pool_run (ev_stop :: l') (submit low 1%nat (new_pool 8 1)) = Some s' /\
    (length (List.filter worker_event l') <= 3 + 1 + 3)%nat /\
    all_returned s' = true /\ [1%nat; 2%nat] ≡ₚ s'.(ran).
Proof.
  intros l'. eexists. split; [reflexivity|].
  destruct (shutdown_runs_everything 8 1 [ev_submit None low 1%nat] l' _ _ ltac:(simpl; lia)
    eq_refl ltac:(set_solver) eq_refl eq_refl) as [H1 H2].
  split; [exact H1|]. apply H2. intros [?? ?|[|i]|[|i]|[|i]|] He; by try discriminate He.
Defined.

(** Two workers, three tasks, one of them submitted by a task. *)
Example wait_idle_comes_back_witness :
  let l := [ev_submit None low 1%nat; ev_submit None high 2%nat] in
  let l' := [ev_take 0; ev_take 1; ev_submit (Some 0%nat) low 3%nat; ev_finish 1; ev_finish 0; ev_take 1; ev_finish 1] in
  exists s s', pool_run l (new_pool 8 2) = Some s /\ pool_run l' s = Some s' /\
    wait_idle_returns s' = true /\ [1%nat; 2%nat; 3%nat] ≡ₚ s'.(ran).
Proof.
  intros l l'. eexists _, _. split; [reflexivity|]. split; [reflexivity|].
  destruct (wait_idle_comes_back 8 2 l l' _ _ ltac:(simpl; lia) eq_refl ltac:(set_solver) eq_refl eq_refl
    ltac:(set_solver)) as [_ H]. apply H.
  intros [?? ?|[|[|i]]|[|[|i]]|[|[|i]]|] He; by try discriminate He.
Defined.
