(* ===== verification/PoolThreads.v ===== *)
(** * The threads of the worker pool ([include/hive_native/perf/worker_pool.hpp])

    [WorkerPool] takes the critical sections of the pool as atomic and lets a
    worker move whenever the predicate of its wait holds. Here are the threads
    themselves: every member function is the list of its statements, the mutex
    [mu_] has a holder, a thread in [cv_.wait] sleeps until it is notified (or
    wakes up for no reason), and the statements of all threads interleave. A task
    may call [submit] and [wait_idle] any number of times before it returns. The
    statements do not ask who holds the mutex: that only its holder touches the
    members is a theorem, and so is that every run is one of [WorkerPool]. *)
From S2P Require Import Prelude WorkerPool.

Section threads.
Context {task : Type}.

(** ** The code *)

(** The statements of the member functions. [Asleep] and [Dozing] are a thread
    inside [cv_.wait] and [idle_cv_.wait_for]; [Fn t] is the call of a task and
    [Outside] a client between two calls. [Dec_inflight] names the task, for the
    log of what has run. *)
Inductive instr : Type :=
| Lock | Unlock
| Push (p : task_priority) (t : task) | Count_submitted | Notify_one
| Wait | Asleep | Check_return | Pop
| Inc_inflight | Fn (t : task) | Dec_inflight (t : task) | Inc_completed | Notify_idle
| Test_idle | Wait_for | Dozing
| Set_stop | Notify_all | Join (i : nat)
| Outside.

#[local] Abbreviation code := (list instr).

Definition submit_code (p : task_priority) (t : task) : code :=
  [Lock; Push p t; Count_submitted; Unlock; Notify_one].

Definition loop_code : code := [Lock; Wait; Check_return; Pop].

(** After [pop(fn)] returned true: the rest of the turn, and the next one. *)
Definition finish_code (t : task) : code :=
  [Lock; Dec_inflight t; Inc_completed; Unlock; Notify_idle] ++ loop_code.
Definition turn_code (t : task) : code := [Inc_inflight; Unlock; Fn t] ++ finish_code t.

Definition wait_idle_code : code := [Lock; Test_idle].

Definition destroy_code (n : nat) : code :=
  [Lock; Set_stop; Unlock; Notify_all] ++ (Join <$> seq 0 n).

(** ** The members and the statements on them *)

Record members : Type := mk_members {
  m_queues : list (list task); m_stop : bool;
  m_submitted : Z; m_completed : Z; m_inflight : Z; m_ran : list task }.

Definition m_all_empty (m : members) : bool := forallb is_nil m.(m_queues).
Definition m_push (p : task_priority) (t : task) (m : members) : members :=
  mk_members (alter (fun q => q ++ [t]) (priority_index p) m.(m_queues)) m.(m_stop)
    m.(m_submitted) m.(m_completed) m.(m_inflight) m.(m_ran).
Definition m_count (m : members) : members :=
  mk_members m.(m_queues) m.(m_stop) (u64 (m.(m_submitted) + 1)) m.(m_completed) m.(m_inflight) m.(m_ran).
Definition m_set_queues (qs : list (list task)) (m : members) : members :=
  mk_members qs m.(m_stop) m.(m_submitted) m.(m_completed) m.(m_inflight) m.(m_ran).
Definition m_inc (m : members) : members :=
  mk_members m.(m_queues) m.(m_stop) m.(m_submitted) m.(m_completed) (u64 (m.(m_inflight) + 1)) m.(m_ran).
Definition m_dec (t : task) (m : members) : members :=
  mk_members m.(m_queues) m.(m_stop) m.(m_submitted) m.(m_completed) (u64 (m.(m_inflight) - 1)) (m.(m_ran) ++ [t]).
Definition m_complete (m : members) : members :=
  mk_members m.(m_queues) m.(m_stop) m.(m_submitted) (u64 (m.(m_completed) + 1)) m.(m_inflight) m.(m_ran).
Definition m_set_stop (m : members) : members :=
  mk_members m.(m_queues) true m.(m_submitted) m.(m_completed) m.(m_inflight) m.(m_ran).

(** A statement that needs the mutex: the members and the code it leaves, and
    whether the mutex is still held. *)
Definition statement (c : instr) (k : code) (m : members) : option (members * code * bool) :=
  match c with
  | Unlock => Some (m, k, false)
  | Push p t => Some (m_push p t m, k, true)
  | Count_submitted => Some (m_count m, k, true)
  | Wait => if m.(m_stop) || negb (m_all_empty m) then Some (m, k, true) else Some (m, Asleep :: k, false)
  | Check_return => if m.(m_stop) && m_all_empty m then Some (m, [Unlock], true) else Some (m, k, true)
  | Pop =>
      match pop m.(m_queues) with
      | Some (t, qs) => Some (m_set_queues qs m, turn_code t, true)
      | None => Some (m, Unlock :: loop_code, true)
      end
  | Inc_inflight => Some (m_inc m, k, true)
  | Dec_inflight t => Some (m_dec t m, k, true)
  | Inc_completed => Some (m_complete m, k, true)
  | Test_idle =>
      if (m.(m_inflight) =? 0) && m_all_empty m then Some (m, Unlock :: k, true)
      else Some (m, Wait_for :: k, true)
  | Wait_for => Some (m, Dozing :: k, false)
  | Set_stop => Some (m_set_stop m, k, true)
  | _ => None
  end.

(** ** Threads and their steps *)

(** Threads [0] to [n - 1] are [workers_], the others use the pool. *)
Record pool_threads : Type := mk_threads {
  mem : members; mu_ : option nat; threads : list code }.

Definition start_threads (n clients : nat) : pool_threads :=
  mk_threads (mk_members [[]; []; []; []] false 0 0 0 []) None
    (replicate n loop_code ++ replicate clients [Outside]).

(** A thread notified (or timed out) takes the mutex again; then the predicate
    of [cv_.wait] is evaluated anew, and [wait_idle] begins its next turn. *)
Definition asleep (k : code) : bool := match k with Asleep :: _ => true | _ => false end.
Definition dozing (k : code) : bool := match k with Dozing :: _ => true | _ => false end.
Definition wake (k : code) : code :=
  match k with Asleep :: k' => Lock :: Wait :: k' | _ => k end.
Definition wake_idle (k : code) : code :=
  match k with Dozing :: k' => Lock :: Unlock :: wait_idle_code ++ k' | _ => k end.

Inductive pool_call : Type :=
| call_submit (p : task_priority) (t : task) | call_wait_idle | call_destroy.
Definition call_code (n : nat) (c : pool_call) : code :=
  match c with
  | call_submit p t => submit_code p t
  | call_wait_idle => wait_idle_code
  | call_destroy => destroy_code n
  end.

(** [run i w]: the next statement of thread [i], where [w] is the thread that
    [notify_one] wakes; [wake_up i]: a spurious wake-up or the timeout of
    [wait_for]; [call i c]: foreign code calls a member function; [ret i]: the
    task of worker [i] returns. *)
Inductive thread_event : Type :=
| run (i : nat) (w : option nat)
| wake_up (i : nat)
| call (i : nat) (c : pool_call)
| ret (i : nat).

Definition set_thread (i : nat) (k : code) (s : pool_threads) : pool_threads :=
  mk_threads s.(mem) s.(mu_) (<[i := k]> s.(threads)).

Definition is_outside (k : code) : bool := match k with [Outside] => true | _ => false end.
Definition uses_pool (k : code) : bool := existsb (fun c => match c with Outside => true | _ => false end) k.
(** Clients stop using a pool before one of them destroys it, and no task destroys
    its own pool (it would join itself): the steps below include no such call. *)
Definition unused (n : nat) (s : pool_threads) : bool := forallb is_outside (drop n s.(threads)).
Definition in_use (n : nat) (s : pool_threads) : bool := forallb uses_pool (drop n s.(threads)).

Definition run_thread (i : nat) (w : option nat) (c : instr) (k : code) (s : pool_threads) : option pool_threads :=
  match c with
  | Lock => match s.(mu_) with
            | None => Some (mk_threads s.(mem) (Some i) (<[i := k]> s.(threads)))
            | Some _ => None
            end
  | Notify_one =>
      match w with
      | Some j => match s.(threads) !! j with
                  | Some kj => if asleep kj then Some (set_thread j (wake kj) (set_thread i k s)) else None
                  | None => None
                  end
      | None => if existsb asleep s.(threads) then None else Some (set_thread i k s)
      end
  | Notify_all => Some (mk_threads s.(mem) s.(mu_) (wake <$> <[i := k]> s.(threads)))
  | Notify_idle => Some (mk_threads s.(mem) s.(mu_) (wake_idle <$> <[i := k]> s.(threads)))
  | Join j => match s.(threads) !! j with Some [] => Some (set_thread i k s) | _ => None end
  | _ =>
      match statement c k s.(mem) with
      | Some (m, k', keep) =>
          Some (mk_threads m (if keep then s.(mu_) else None) (<[i := k']> s.(threads)))
      | None => None
      end
  end.

Definition thread_step (n : nat) (e : thread_event) (s : pool_threads) : option pool_threads :=
  match e with
  | run i w =>
      match s.(threads) !! i with Some (c :: k) => run_thread i w c k s | _ => None end
  | wake_up i =>
      match s.(threads) !! i with
      | Some k => if asleep k || dozing k then Some (set_thread i (wake_idle (wake k)) s) else None
      | None => None
      end
  | call i c =>
      match s.(threads) !! i with
      | Some (Fn t :: k) =>
          match c with call_destroy => None | _ => Some (set_thread i (call_code n c ++ Fn t :: k) s) end
      | Some [Outside] =>
          match c with
          | call_destroy => if unused n s then Some (set_thread i (destroy_code n) s) else None
          | _ => if in_use n s then Some (set_thread i (call_code n c ++ [Outside]) s) else None
          end
      | _ => None
      end
  | ret i =>
      match s.(threads) !! i with Some (Fn t :: k) => Some (set_thread i k s) | _ => None end
  end.

Fixpoint thread_run (n : nat) (l : list thread_event) (s : pool_threads) : option pool_threads :=
  match l with
  | [] => Some s
  | e :: l' => match thread_step n e s with Some s' => thread_run n l' s' | None => None end
  end.

(** ** What the threads amount to *)

(** The state of a worker: in a task until it has counted it. *)
Fixpoint task_in (k : code) : option task :=
  match k with [] => None | Dec_inflight t :: _ => Some t | _ :: k' => task_in k' end.
Definition worker_of (k : code) : worker :=
  match k with [] => returned | _ => match task_in k with Some t => running t | None => waiting end end.

(** The rest of a critical section, run to its end. *)
Fixpoint section (k : code) (m : members) : members * worker :=
  match k with
  | Push p t :: k' => section k' (m_push p t m)
  | Count_submitted :: k' => section k' (m_count m)
  | Wait :: k' => if m.(m_stop) || negb (m_all_empty m) then section k' m else (m, waiting)
  | Check_return :: k' => if m.(m_stop) && m_all_empty m then (m, returned) else section k' m
  | Pop :: _ =>
      match pop m.(m_queues) with
      | Some (t, qs) => (m_inc (m_set_queues qs m), running t)
      | None => (m, waiting)
      end
  | Inc_inflight :: k' => section k' (m_inc m)
  | Dec_inflight t :: k' => section k' (m_dec t m)
  | Inc_completed :: k' => section k' (m_complete m)
  | Set_stop :: k' => section k' (m_set_stop m)
  | Unlock :: k' | Test_idle :: k' | Wait_for :: k' => (m, worker_of k')
  | _ => (m, worker_of k)
  end.

Definition as_pool (m : members) (ws : list worker) : worker_pool :=
  mk_pool ws m.(m_queues) m.(m_stop) m.(m_submitted) m.(m_completed) m.(m_inflight) m.(m_ran).

(** The pool that [WorkerPool] sees: the section in progress, if any, is done. *)
Definition abs (n : nat) (s : pool_threads) : worker_pool :=
  let ws := worker_of <$> take n s.(threads) in
  match s.(mu_) with
  | None => as_pool s.(mem) ws
  | Some i =>
      match s.(threads) !! i with
      | Some k => let (m, w) := section k s.(mem) in as_pool m (<[i := w]> ws)
      | None => as_pool s.(mem) ws
      end
  end.

(** Its event: the whole section, at the moment the mutex is taken. *)
Definition section_event (n i : nat) (k : code) (m : members) : option event :=
  match k with
  | Push p t :: _ => Some (ev_submit (if (i <? n)%nat then Some i else None) p t)
  | Wait :: _ =>
      if negb (m.(m_stop) || negb (m_all_empty m)) then None
      else if m.(m_stop) && m_all_empty m then Some (ev_return i) else Some (ev_take i)
  | Dec_inflight _ :: _ => Some (ev_finish i)
  | Set_stop :: _ => Some ev_stop
  | _ => None
  end.
Definition abs_event (n : nat) (e : thread_event) (s : pool_threads) : option event :=
  match e with
  | run i _ =>
      match s.(threads) !! i with Some (Lock :: k) => section_event n i k s.(mem) | _ => None end
  | _ => None
  end.
Fixpoint trace (n : nat) (l : list thread_event) (s : pool_threads) : list event :=
  match l with
  | [] => []
  | e :: l' =>
      match thread_step n e s with
      | Some s' => option_list (abs_event n e s) ++ trace n l' s'
      | None => []
      end
  end.

(** The next statement touches the members. *)
Definition in_section (k : code) : bool :=
  match k with
  | (Unlock | Push _ _ | Count_submitted | Wait | Check_return | Pop | Inc_inflight | Dec_inflight _
    | Inc_completed | Test_idle | Wait_for | Set_stop) :: _ => true
  | _ => false
  end.

(** ** The shape of the code of a thread *)

(** What is left of a call from foreign code. *)
Inductive calling : code -> Prop :=
| calling_back : calling []
| calling_submit p t : calling (submit_code p t)
| calling_push p t : calling [Push p t; Count_submitted; Unlock; Notify_one]
| calling_count : calling [Count_submitted; Unlock; Notify_one]
| calling_pushed : calling [Unlock; Notify_one]
| calling_notify : calling [Notify_one]
| calling_wait : calling wait_idle_code
| calling_test : calling [Test_idle]
| calling_wait_for : calling [Wait_for]
| calling_doze : calling [Dozing]
| calling_again : calling [Lock; Unlock; Lock; Test_idle]
| calling_next : calling [Unlock; Lock; Test_idle]
| calling_leave : calling [Unlock].

Inductive worker_code : code -> Prop :=
| worker_call k t : calling k -> worker_code (k ++ Fn t :: finish_code t)
| worker_turn t : worker_code (turn_code t)
| worker_finish t : worker_code (finish_code t)
| worker_dec t : worker_code (Dec_inflight t :: Inc_completed :: Unlock :: Notify_idle :: loop_code)
| worker_complete : worker_code (Inc_completed :: Unlock :: Notify_idle :: loop_code)
| worker_unlock : worker_code (Unlock :: Notify_idle :: loop_code)
| worker_notify : worker_code (Notify_idle :: loop_code)
| worker_loop : worker_code loop_code
| worker_wait : worker_code [Wait; Check_return; Pop]
| worker_asleep : worker_code [Asleep; Check_return; Pop]
| worker_check : worker_code [Check_return; Pop]
| worker_pop : worker_code [Pop]
| worker_continue : worker_code (Unlock :: loop_code)
| worker_return : worker_code [Unlock]
| worker_done : worker_code [].

Inductive client_code (n : nat) : code -> Prop :=
| client_call k : calling k -> client_code n (k ++ [Outside])
| client_destroy : client_code n (destroy_code n)
| client_stop : client_code n (Set_stop :: Unlock :: Notify_all :: (Join <$> seq 0 n))
| client_unlock : client_code n (Unlock :: Notify_all :: (Join <$> seq 0 n))
| client_notify : client_code n (Notify_all :: (Join <$> seq 0 n))
| client_join js : Forall (fun j => j < n)%nat js -> client_code n (Join <$> js).

Definition code_ok (n i : nat) (k : code) : Prop :=
  if (i <? n)%nat then worker_code k else client_code n k.

Record threads_inv (n : nat) (s : pool_threads) : Prop := {
  inv_code : forall i k, s.(threads) !! i = Some k -> code_ok n i k;
  inv_mutex : forall i, s.(mu_) = Some i <-> exists k, s.(threads) !! i = Some k /\ in_section k = true;
  inv_workers : (n <= length s.(threads))%nat }.

End threads.


Ltac solve_shape :=
  solve
  [ by constructor
  | first [apply (worker_call []) | apply (client_call _ [])]; by constructor
  | first [apply (worker_call [_]) | apply (client_call _ [_])]; by constructor
  | first [apply (worker_call [_; _]) | apply (client_call _ [_; _])]; by constructor
  | first [apply (worker_call [_; _; _]) | apply (client_call _ [_; _; _])]; by constructor
  | first [apply (worker_call [_; _; _; _]) | apply (client_call _ [_; _; _; _])]; by constructor
  | first [apply (worker_call [_; _; _; _; _]) | apply (client_call _ [_; _; _; _; _])]; by constructor ].

(** The threads that can be at a given statement, by shape. *)
Ltac code_cases Hk Heq :=
  unfold code_ok in *;
  match type of Hk with context [(?i <? ?n)%nat] => destruct (Nat.ltb_spec i n) end;
  [destruct Hk | destruct Hk as [| | | | |[|??]]];
  repeat match goal with H : calling _ |- _ => destruct H end;
  simpl in Heq; try discriminate Heq; injection Heq; clear Heq; intros; subst.

Section invariant.
Context {task : Type}.
#[local] Abbreviation code := (list (@instr task)).
Implicit Types (s : @pool_threads task) (k : code) (m : @members task).

(** A statement keeps the shape, and keeps the mutex exactly when it stays inside. *)
Lemma statement_ok n i c k k0 m m' k' keep :
  code_ok n i k0 -> k0 = c :: k -> statement c k m = Some (m', k', keep) ->
  code_ok n i k' /\ in_section k' = keep.
Proof.
  intros Hk Heq Hs. code_cases Hk Heq; simpl in Hs; repeat case_match; simplify_eq;
    (split; [solve_shape|done]).
Qed.

(** A statement moves a section on: what it amounts to is the same. *)
Lemma statement_section n i c k k0 m m' k' keep :
  code_ok n i k0 -> k0 = c :: k -> statement c k m = Some (m', k', keep) ->
  section (c :: k) m = if keep then section k' m' else (m', worker_of k').
Proof.
  intros Hk Heq Hs. code_cases Hk Heq; simpl in Hs; repeat case_match; simplify_eq; try done;
    simpl; by (repeat case_match; simplify_eq).
Qed.

(** ** What a step does to the pool *)

Lemma workers_insert (n i : nat) k (ths : list code) :
  worker_of <$> take n (<[i := k]> ths) = <[i := worker_of k]> (worker_of <$> take n ths).
Proof.
  rewrite take_insert. case_decide; [apply list_fmap_insert|].
  symmetry. apply list_insert_ge. rewrite length_fmap, length_take. lia.
Qed.
Lemma workers_lookup (n i : nat) k (ths : list code) :
  ths !! i = Some k -> (i < n)%nat -> (worker_of <$> take n ths) !! i = Some (worker_of k).
Proof. intros Hi Hn. rewrite list_lookup_fmap, lookup_take_lt by done. by rewrite Hi. Qed.
Lemma workers_insert_id (n i : nat) k k' (ths : list code) :
  ths !! i = Some k -> ((i < n)%nat -> worker_of k' = worker_of k) ->
  worker_of <$> take n (<[i := k']> ths) = worker_of <$> take n ths.
Proof.
  intros Hi Hw. rewrite workers_insert. apply list_insert_id'. intros Hl.
  rewrite length_fmap, length_take in Hl. rewrite (workers_lookup _ _ k) by (done || lia).
  f_equal. symmetry. apply Hw. lia.
Qed.

(** Only the threads' workers and the holder's section count. *)
Lemma abs_ext n s s' :
  s'.(mem) = s.(mem) -> s'.(mu_) = s.(mu_) ->
  worker_of <$> take n s'.(threads) = worker_of <$> take n s.(threads) ->
  (forall i, s.(mu_) = Some i -> s'.(threads) !! i = s.(threads) !! i) ->
  abs n s' = abs n s.
Proof.
  intros Hm Hmu Hw Hi. unfold abs. rewrite Hm, Hmu, Hw.
  destruct (mu_ s) as [i|]; [|done]. by rewrite (Hi i eq_refl).
Qed.

Lemma abs_set_thread n s i k k' :
  s.(threads) !! i = Some k -> s.(mu_) <> Some i -> ((i < n)%nat -> worker_of k' = worker_of k) ->
  abs n (set_thread i k' s) = abs n s.
Proof.
  intros Hi Hmu Hw. apply abs_ext; simpl; try done; [by eapply workers_insert_id|].
  intros j Hj. rewrite list_lookup_insert_ne; [done|]. by intros ->.
Qed.

Lemma abs_fmap n s (f : code -> code) :
  (forall k, worker_of (f k) = worker_of k) -> (forall k, in_section k = true -> f k = k) ->
  threads_inv n s -> abs n (mk_threads s.(mem) s.(mu_) (f <$> s.(threads))) = abs n s.
Proof.
  intros Hw Hs Hinv. apply abs_ext; simpl; try done.
  - rewrite <-fmap_take, <-list_fmap_compose. apply list_fmap_ext. intros. apply Hw.
  - intros i Hi. apply (inv_mutex _ _ Hinv) in Hi as (k & Hk & Hin).
    rewrite list_lookup_fmap, Hk. simpl. by rewrite Hs.
Qed.

Lemma wake_worker k : worker_of (wake k) = worker_of k.
Proof. by destruct k as [|[] k]. Qed.
Lemma wake_idle_worker k : worker_of (wake_idle k) = worker_of k.
Proof. by destruct k as [|[] k]. Qed.
Lemma wake_section k : in_section k = true -> wake k = k.
Proof. by destruct k as [|[] k]. Qed.
Lemma wake_idle_section k : in_section k = true -> wake_idle k = k.
Proof. by destruct k as [|[] k]. Qed.

Lemma not_in_section n s i k :
  threads_inv n s -> s.(threads) !! i = Some k -> in_section k = false -> s.(mu_) <> Some i.
Proof. intros Hinv Hi Hf Hmu. apply (inv_mutex _ _ Hinv) in Hmu as (k' & Hk & Hin). congruence. Qed.

Lemma abs_statement n s i c k m k' keep :
  threads_inv n s -> s.(threads) !! i = Some (c :: k) -> statement c k s.(mem) = Some (m, k', keep) ->
  abs n (mk_threads m (if keep then s.(mu_) else None) (<[i := k']> s.(threads))) = abs n s.
Proof.
  intros Hinv Hi Hs. pose proof (inv_code _ _ Hinv _ _ Hi) as Hk.
  assert (Hmu : s.(mu_) = Some i).
  { apply (inv_mutex _ _ Hinv). exists (c :: k). split; [done|]. by destruct c. }
  pose proof (statement_section _ _ _ _ _ _ _ _ _ Hk eq_refl Hs) as Hsec.
  unfold abs. cbn [mem mu_ threads]. rewrite Hmu, Hi, Hsec.
  destruct keep; rewrite workers_insert; [|done].
  rewrite list_lookup_insert_eq by (by eapply lookup_lt_Some).
  destruct (section k' m). by rewrite list_insert_insert_eq.
Qed.

(** Taking the mutex is the section that follows, as one event. *)
Lemma abs_lock n s i k :
  threads_inv n s -> s.(threads) !! i = Some (Lock :: k) -> s.(mu_) = None ->
  let s' := mk_threads s.(mem) (Some i) (<[i := k]> s.(threads)) in
  match section_event n i k s.(mem) with
  | Some ev => pool_step ev (abs n s) = Some (abs n s')
  | None => abs n s' = abs n s
  end.
Proof.
  intros Hinv Hi Hmu. pose proof (inv_code _ _ Hinv _ _ Hi) as Hk.
  pose proof (lookup_lt_Some _ _ _ Hi) as Hlt.
  assert (Hw : (i < n)%nat -> (worker_of <$> take n s.(threads)) !! i = Some (worker_of (Lock :: k)))
    by (intros; by apply workers_lookup).
  assert (Hc : (n <= i)%nat -> forall w, <[i := w]> (worker_of <$> take n s.(threads)) = worker_of <$> take n s.(threads)).
  { intros. apply list_insert_ge. rewrite length_fmap, length_take. lia. }
  unfold abs. cbn [mem mu_ threads]. rewrite Hmu, list_lookup_insert_eq by done.
  rewrite workers_insert. generalize dependent (worker_of <$> take n s.(threads)). intros ws Hw Hc.
  remember (Lock :: k) as k0 eqn:Heq. code_cases Hk Heq; cbn [section_event];
    first [specialize (Hw ltac:(done)); clear Hc; cbn in Hw|specialize (Hc ltac:(done)); clear Hw].
  - rewrite (proj2 (Nat.ltb_lt i n)) by done. cbn. rewrite list_insert_insert_eq, list_insert_id by done.
    unfold is_running. simpl. by rewrite Hw.
  - cbn. by rewrite list_insert_insert_eq, list_insert_id.
  - cbn. by rewrite list_insert_insert_eq, list_insert_id.
  - cbn. rewrite Hw. by rewrite list_insert_insert_eq.
  - cbn -[pool_step]. unfold m_all_empty.
    destruct (m_stop (mem s)) eqn:Hs, (forallb is_nil (m_queues (mem s))) eqn:He; simpl; unfold loop_take, all_empty; simpl;
      rewrite ?Hw, ?Hs, ?He; simpl; rewrite ?list_insert_insert_eq, ?list_insert_id by done; try done.
    all: destruct (pop (m_queues (mem s))) as [[??]|]; unfold as_pool; simpl; by rewrite ?Hs, ?(list_insert_id _ _ _ Hw).
  - rewrite (proj2 (Nat.ltb_ge i n)) by done. cbn. by rewrite !Hc.
  - cbn. by rewrite !Hc.
  - cbn. by rewrite !Hc.
  - cbn. by rewrite !Hc.
Qed.

(** ** Every step keeps the invariant and is a step of the pool or none *)

Lemma notifier n i c k k0 :
  code_ok n i k0 -> k0 = c :: k ->
  match c with Notify_one | Notify_all | Notify_idle | Join _ => True | _ => False end ->
  code_ok n i k /\ in_section k = false /\ ((i < n)%nat -> worker_of k = worker_of k0).
Proof.
  intros Hk Heq Hc. code_cases Hk Heq; try done; (split; [|split; [|intros; done || lia]]); try done; try solve_shape.
  - apply client_join, Forall_forall. intros j Hj. apply elem_of_seq in Hj. lia.
  - by destruct (seq 0 n).
  - apply client_join. by eapply Forall_inv_tail.
  - by destruct l.
Qed.

Lemma wake_ok n i k : code_ok n i k -> code_ok n i (wake k) /\ in_section (wake k) = in_section k.
Proof.
  intros Hk. destruct k as [|[] k']; try done. split; [|done]. remember (Asleep :: k') as k0 eqn:Heq.
  code_cases Hk Heq; solve_shape.
Qed.
Lemma wake_idle_ok n i k : code_ok n i k -> code_ok n i (wake_idle k) /\ in_section (wake_idle k) = in_section k.
Proof.
  intros Hk. destruct k as [|[] k']; try done. split; [|done]. remember (Dozing :: k') as k0 eqn:Heq.
  code_cases Hk Heq; solve_shape.
Qed.

Lemma inv_update n s i k k' m mu :
  threads_inv n s -> s.(threads) !! i = Some k -> code_ok n i k' ->
  (in_section k' = true -> in_section k = true \/ s.(mu_) = None) ->
  mu = (if in_section k' then Some i else if in_section k then None else s.(mu_)) ->
  threads_inv n (mk_threads m mu (<[i := k']> s.(threads))).
Proof.
  intros Hinv Hi Hk Hin ->. pose proof (lookup_lt_Some _ _ _ Hi) as Hlt.
  assert (Hmu : in_section k = true -> s.(mu_) = Some i) by (intros; apply (inv_mutex _ _ Hinv); eauto).
  split; simpl.
  - intros j kj. destruct (decide (i = j)) as [->|Hj].
    + rewrite list_lookup_insert_eq by done. by intros [= <-].
    + rewrite list_lookup_insert_ne by done. apply Hinv.
  - intros j. destruct (decide (i = j)) as [->|Hj].
    + rewrite list_lookup_insert_eq by done. pose proof (inv_mutex _ _ Hinv j) as [Hj _].
      destruct (in_section k') eqn:E'; [split; [eauto|done]|].
      destruct (in_section k) eqn:E; (split; [|intros (?&[= <-]&?); congruence]); [done|].
      intros Hs. destruct (Hj Hs) as (?&?&?). congruence.
    + rewrite list_lookup_insert_ne by done. pose proof (inv_mutex _ _ Hinv j) as Hm.
      destruct (in_section k') eqn:E'.
      { split; [congruence|]. intros Hs%Hm. destruct (Hin eq_refl) as [H|H]; [specialize (Hmu H)|]; congruence. }
      destruct (in_section k); [|done]. specialize (Hmu eq_refl). rewrite <-Hm. split; congruence.
  - rewrite length_insert. apply Hinv.
Qed.

Lemma inv_set_thread n s i k k' :
  threads_inv n s -> s.(threads) !! i = Some k -> code_ok n i k' ->
  in_section k' = false -> in_section k = false -> threads_inv n (set_thread i k' s).
Proof. intros Hinv Hi Hk H' H. eapply inv_update; try done; by rewrite ?H', ?H. Qed.

Lemma inv_fmap n s (f : code -> code) :
  (forall i k, code_ok n i k -> code_ok n i (f k) /\ in_section (f k) = in_section k) ->
  threads_inv n s -> threads_inv n (mk_threads s.(mem) s.(mu_) (f <$> s.(threads))).
Proof.
  intros Hf Hinv. split; simpl.
  - intros i k. rewrite list_lookup_fmap_Some. intros (k0 & -> & Hk). apply Hf. by apply Hinv.
  - intros i. rewrite (inv_mutex _ _ Hinv i). split.
    + intros (k & Hk & Hin). exists (f k). rewrite list_lookup_fmap, Hk. split; [done|].
      rewrite (proj2 (Hf i k (inv_code _ _ Hinv _ _ Hk))). done.
    + intros (k & Hk & Hin). apply list_lookup_fmap_Some in Hk as (k0 & -> & Hk). exists k0. split; [done|].
      by rewrite (proj2 (Hf i k0 (inv_code _ _ Hinv _ _ Hk))) in Hin.
  - rewrite length_fmap. apply Hinv.
Qed.

(** What a step is, when it is not a whole section: nothing to the pool. *)
Definition simulates (n : nat) (e : thread_event) s s' : Prop :=
  match abs_event n e s with
  | Some ev => pool_step ev (abs n s) = Some (abs n s')
  | None => abs n s' = abs n s
  end.

Lemma lock_next n i k k0 :
  code_ok n i k0 -> k0 = Lock :: k -> code_ok n i k /\ in_section k = true.
Proof. intros Hk Heq. code_cases Hk Heq; (split; [solve_shape|done]). Qed.

(** A thread outside the sections moves without the pool noticing. *)
Lemma quiet_set n s i k k' :
  threads_inv n s -> s.(threads) !! i = Some k -> code_ok n i k' ->
  in_section k = false -> in_section k' = false -> ((i < n)%nat -> worker_of k' = worker_of k) ->
  threads_inv n (set_thread i k' s) /\ abs n (set_thread i k' s) = abs n s.
Proof.
  intros Hinv Hi Hk H H' Hw. split; [by eapply inv_set_thread|].
  eapply abs_set_thread; [done| |done]. by eapply not_in_section.
Qed.

Lemma run_thread_simulates n s i w c k s' :
  threads_inv n s -> s.(threads) !! i = Some (c :: k) -> run_thread i w c k s = Some s' ->
  threads_inv n s' /\ simulates n (run i w) s s'.
Proof.
  intros Hinv Hi Hr. pose proof (inv_code _ _ Hinv _ _ Hi) as Hk.
  assert (Hst : forall m k' keep, statement c k s.(mem) = Some (m, k', keep) ->
    s' = mk_threads m (if keep then s.(mu_) else None) (<[i := k']> s.(threads)) ->
    threads_inv n s' /\ simulates n (run i w) s s').
  { intros m k' keep Hs ->. pose proof (statement_ok _ _ _ _ _ _ _ _ _ Hk eq_refl Hs) as [Hok Hin].
    assert (Hsec : in_section (c :: k) = true) by (by destruct c).
    assert (Hmu : s.(mu_) = Some i) by (apply (inv_mutex _ _ Hinv); eauto). split.
    - eapply inv_update; try done; [by left|]. rewrite Hsec, Hin. by destruct keep.
    - unfold simulates. simpl. rewrite Hi. destruct c; try done; by eapply abs_statement. }
  pose proof (notifier n i c k _ Hk eq_refl) as Hnot.
  destruct c; unfold run_thread in Hr;
    try match type of Hr with context [statement ?c _ _] =>
      destruct (statement c k (mem s)) as [[[m k'] keep]|] ; [|done];
      injection Hr as <-; by apply (Hst m k' keep)
    end;
    unfold simulates; simpl; rewrite Hi.
  - destruct (lock_next _ _ _ _ Hk eq_refl) as [Hok Hin].
    destruct (mu_ s) eqn:Hmu; [done|]. simplify_eq. split; [|by apply abs_lock].
    eapply inv_update; try done; [by right|]. by rewrite Hin.
  - destruct Hnot as (Hok & Hin & Hw); [done|].
    destruct (quiet_set n s i _ k Hinv Hi Hok eq_refl Hin Hw) as [Hinv1 Habs1].
    destruct w as [j|]; [|by destruct (existsb asleep (threads s)); simplify_eq].
    destruct (threads s !! j) as [kj|] eqn:Hj; [|done]. destruct (asleep kj) eqn:Has; [|done]. simplify_eq.
    assert (Hj1 : threads (set_thread i k s) !! j = Some kj).
    { simpl. rewrite list_lookup_insert_ne; [done|]. intros ->. by simplify_eq. }
    destruct (wake_ok n j kj (inv_code _ _ Hinv _ _ Hj)) as [Hokj Hinj].
    rewrite <-Habs1. assert (in_section kj = false) by (by destruct kj as [|[] ?]).
    eapply quiet_set; try done; [congruence|]. intros _. apply wake_worker.
  - destruct Hnot as (Hok & Hin & Hw); [done|]. simplify_eq.
    destruct (quiet_set n s i _ k Hinv Hi Hok eq_refl Hin Hw) as [Hinv1 Habs1]. split.
    + by apply (inv_fmap n (set_thread i k s)); [apply wake_idle_ok|].
    + rewrite <-Habs1. apply (abs_fmap n (set_thread i k s)); [apply wake_idle_worker|apply wake_idle_section|done].
  - destruct Hnot as (Hok & Hin & Hw); [done|]. simplify_eq.
    destruct (quiet_set n s i _ k Hinv Hi Hok eq_refl Hin Hw) as [Hinv1 Habs1]. split.
    + by apply (inv_fmap n (set_thread i k s)); [apply wake_ok|].
    + rewrite <-Habs1. apply (abs_fmap n (set_thread i k s)); [apply wake_worker|apply wake_section|done].
  - destruct Hnot as (Hok & Hin & Hw); [done|]. repeat case_match; simplify_eq. by eapply quiet_set.
Qed.

Lemma call_ok n i c k k0 cl :
  code_ok n i k0 -> k0 = c :: k -> (exists t, c = Fn t) /\ cl <> call_destroy \/ c = Outside ->
  let k' := if cl is call_destroy then destroy_code n else call_code n cl ++ k0 in
  code_ok n i k' /\ in_section k' = false /\ ((i < n)%nat -> worker_of k' = worker_of k0).
Proof.
  intros Hk Heq Hc. code_cases Hk Heq; destruct Hc as [[[??] Hc]|Hc]; simplify_eq;
    destruct cl; simpl; (split; [|split; [done|intros; done || lia]]); try done; solve_shape.
Qed.

Lemma ret_ok n i t k k0 :
  code_ok n i k0 -> k0 = Fn t :: k ->
  code_ok n i k /\ in_section k = false /\ ((i < n)%nat -> worker_of k = worker_of k0).
Proof. intros Hk Heq. code_cases Hk Heq; (split; [solve_shape|done]). Qed.

Lemma step_simulates n s e s' :
  threads_inv n s -> thread_step n e s = Some s' -> threads_inv n s' /\ simulates n e s s'.
Proof.
  intros Hinv. destruct e as [i w|i|i cl|i]; simpl; destruct (threads s !! i) as [k|] eqn:Hi; try done.
  - destruct k as [|c k]; [done|]. by apply run_thread_simulates.
  - destruct (asleep k || dozing k) eqn:Hk; [|done]. intros [= <-].
    assert (Hin : in_section k = false) by (by destruct k as [|[] k]).
    destruct (wake_ok _ _ _ (inv_code _ _ Hinv _ _ Hi)) as [Hok1 Hin1].
    destruct (wake_idle_ok _ _ _ Hok1) as [Hok2 Hin2].
    eapply quiet_set; try done; [congruence|]. intros _. by rewrite wake_idle_worker, wake_worker.
  - pose proof (inv_code _ _ Hinv _ _ Hi) as Hk. unfold simulates; simpl.
    destruct k as [|[] k]; try done.
    + intros Hs. assert (Hcl : cl <> call_destroy) by (by destruct cl).
      destruct (call_ok _ _ _ _ _ cl Hk eq_refl) as (Hok & Hin & Hw); [by left; eauto|].
      destruct cl; simplify_eq; by eapply quiet_set.
    + destruct k; [|done]. destruct (call_ok _ _ _ _ _ cl Hk eq_refl) as (Hok & Hin & Hw); [by right|].
      intros Hs. destruct cl; repeat case_match; simplify_eq; by eapply quiet_set.
  - destruct k as [|[] k]; try done. intros [= <-].
    destruct (ret_ok _ _ _ _ _ (inv_code _ _ Hinv _ _ Hi) eq_refl) as (Hok & Hin & Hw). by eapply quiet_set.
Qed.

Lemma start_inv (n clients : nat) : threads_inv n (@start_threads task n clients).
Proof.
  assert (Hl : forall i k, threads (@start_threads task n clients) !! i = Some k -> code_ok n i k /\ in_section k = false).
  { intros i k. simpl. unfold code_ok. destruct (Nat.ltb_spec i n).
    - rewrite lookup_app_l by (by rewrite length_replicate). rewrite lookup_replicate_2 by done.
      intros [= <-]. split; [solve_shape|done].
    - rewrite lookup_app_r by (by rewrite length_replicate). intros [-> _]%lookup_replicate_1.
      split; [solve_shape|done]. }
  split; [intros; by apply Hl| |simpl; rewrite length_app, !length_replicate; lia].
  intros i. split; [done|]. intros (k & Hk & Hin). apply Hl in Hk as [_ ?]. congruence.
Qed.

Lemma start_abs hc n clients : n <> 0%nat -> abs n (@start_threads task n clients) = new_pool hc n.
Proof.
  intros Hn. unfold abs, as_pool, new_pool. simpl.
  rewrite take_app_length' by (by rewrite length_replicate).
  rewrite fmap_replicate. by destruct n.
Qed.

Lemma run_simulates n l s s' :
  threads_inv n s -> thread_run n l s = Some s' ->
  threads_inv n s' /\ pool_run (trace n l s) (abs n s) = Some (abs n s').
Proof.
  induction l as [|e l IH] in s |- *; intros Hinv; [by intros [= <-]|]. simpl.
  destruct (thread_step n e s) as [s1|] eqn:He; [|done]. intros Hr.
  destruct (step_simulates _ _ _ _ Hinv He) as [Hinv1 Hsim]. destruct (IH _ Hinv1 Hr) as [Hinv' Hp].
  split; [done|]. unfold simulates in Hsim. destruct (abs_event n e s) as [ev|]; simpl.
  - by rewrite Hsim.
  - by rewrite <-Hsim.
Qed.
End invariant.
