(* ===== verification/PoolProgress.v ===== *)
(** * No lost wake-up, and rest ([include/hive_native/perf/worker_pool.hpp])

    What the condition variables are for: every task in a queue has a worker on
    its way to it or a [notify_one] still to come, as long as a worker sleeps; so
    the threads stop only when everything is done. A measure of the code left and
    the tasks queued bounds their steps. *)
From S2P Require Import Prelude WorkerPool PoolThreads.

(** ** Sums over a list updated in place *)

Lemma sum_insert {A} (f : A -> nat) (l : list A) i x y :
  l !! i = Some x -> (sum_list_with f (<[i := y]> l) + f x = sum_list_with f l + f y)%nat.
Proof.
  induction l as [|a l IH] in i |- *; [done|]. destruct i as [|i]; simpl; [intros [= <-]; lia|].
  intros Hi. specialize (IH _ Hi). lia.
Qed.
Lemma sum_fmap_eq {A} (f : A -> nat) (g : A -> A) (l : list A) :
  (forall x, f (g x) = f x) -> sum_list_with f (g <$> l) = sum_list_with f l.
Proof. intros Hf. induction l as [|a l IH]; [done|]. rewrite fmap_cons. simpl. by rewrite Hf, IH. Qed.
Lemma sum_fmap_le {A} (f : A -> nat) (g : A -> A) (d : nat) (l : list A) :
  (forall x, f (g x) <= f x + d)%nat -> (sum_list_with f (g <$> l) <= sum_list_with f l + d * length l)%nat.
Proof. intros Hf. induction l as [|a l IH]; [simpl; lia|]. rewrite fmap_cons. simpl. specialize (Hf a). lia. Qed.
Lemma sum_zero {A} (f : A -> nat) (l : list A) :
  (forall i x, l !! i = Some x -> f x = 0%nat) -> sum_list_with f l = 0%nat.
Proof.
  induction l as [|a l IH]; intros Hf; [done|]. simpl. rewrite (Hf 0%nat a eq_refl), IH; [done|].
  intros i x Hi. by apply (Hf (S i)).
Qed.
Lemma sum_pos {A} (f : A -> nat) (l : list A) i x :
  l !! i = Some x -> (f x <= sum_list_with f l)%nat.
Proof. intros Hi. by apply sum_list_with_in, (list_elem_of_lookup_2 _ i). Qed.

Section progress.
Context {task : Type}.
#[local] Abbreviation code := (list (@instr task)).
Implicit Types (s : @pool_threads task) (k : code) (m : @members task).

(** ** What is on its way *)

Definition has_pop (k : code) : bool := existsb (fun c => match c with Pop => true | _ => false end) k.
Definition has_push (k : code) : bool := existsb (fun c => match c with Push _ _ => true | _ => false end) k.
Definition has_notify_one (k : code) : bool := existsb (fun c => match c with Notify_one => true | _ => false end) k.
Definition has_notify_all (k : code) : bool := existsb (fun c => match c with Notify_all => true | _ => false end) k.
Definition has_set_stop (k : code) : bool := existsb (fun c => match c with Set_stop => true | _ => false end) k.

(** A worker, awake and not in a task, that will look into the queues. *)
Definition heading (k : code) : bool :=
  match task_in k with Some _ => false | None => negb (asleep k) && has_pop k end.
(** A [submit] that has pushed and not yet notified. *)
Definition notifying (k : code) : bool := has_notify_one k && negb (has_push k).
(** A destructor that has set [stop_] and not yet notified. *)
Definition notifying_all (k : code) : bool := has_notify_all k && negb (has_set_stop k).

Definition count (f : code -> bool) (ths : list code) : nat := sum_list_with (fun k => Nat.b2n (f k)) ths.
Definition queue_length (m : @members task) : nat := length (concat m.(m_queues)).

Record wake_inv (s : @pool_threads task) : Prop := {
  inv_queues4 : length s.(mem).(m_queues) = 4%nat;
  inv_wake : (0 < count asleep s.(threads))%nat ->
    (queue_length s.(mem) <= count notifying s.(threads) + count heading s.(threads))%nat;
  inv_stop : s.(mem).(m_stop) = true -> (0 < count asleep s.(threads))%nat ->
    (0 < count notifying_all s.(threads))%nat }.

Lemma no_join (P : @instr task -> bool) (js : list nat) :
  (forall j, P (Join j) = false) -> existsb P (Join <$> js) = false.
Proof. intros HP. induction js as [|j js IH]; [done|]. rewrite fmap_cons. simpl. by rewrite HP. Qed.
Lemma no_join_task (js : list nat) : @task_in task (Join <$> js) = None.
Proof. by induction js. Qed.
Lemma no_join_asleep (js : list nat) : @asleep task (Join <$> js) = false.
Proof. by destruct js. Qed.

Lemma queue_empty m : m_all_empty m = true <-> queue_length m = 0%nat.
Proof.
  unfold queue_length. rewrite length_zero_iff_nil. apply (all_empty_queued (as_pool m [])).
Qed.
Lemma queue_push p t m : length m.(m_queues) = 4%nat -> queue_length (m_push p t m) = S (queue_length m).
Proof.
  intros Hl. unfold queue_length. simpl. rewrite queued_submit; [done|]. rewrite Hl. destruct p; simpl; lia.
Qed.
Lemma queue_pop m t qs :
  pop m.(m_queues) = Some (t, qs) -> queue_length m = S (queue_length (m_set_queues qs m)).
Proof. intros Hp. unfold queue_length. simpl. by rewrite (proj1 (pop_concat _ _ _ Hp)). Qed.

(** The steps that change nothing of this. *)
Definition same_wakes (k k' : code) : Prop :=
  asleep k' = asleep k /\ notifying k' = notifying k /\ heading k' = heading k /\ notifying_all k' = notifying_all k.

Ltac flags :=
  unfold same_wakes, heading, notifying, notifying_all, has_pop, has_push, has_notify_one, has_notify_all, has_set_stop;
  simpl; rewrite ?no_join, ?no_join_task, ?no_join_asleep by done.

(** What a statement does to the queues it does to what is on its way. *)
Lemma statement_wakes n i c k k0 m m' k' keep :
  code_ok n i k0 -> k0 = c :: k -> statement c k m = Some (m', k', keep) ->
  length m.(m_queues) = 4%nat ->
  length m'.(m_queues) = 4%nat /\ asleep k0 = false /\
  (asleep k' = false /\
   (queue_length m' + Nat.b2n (notifying k0) + Nat.b2n (heading k0)
    <= queue_length m + Nat.b2n (notifying k') + Nat.b2n (heading k'))%nat \/
   queue_length m' = 0%nat /\ (asleep k' = true -> m'.(m_stop) = false)) /\
  (m'.(m_stop) = true -> m.(m_stop) = true \/ notifying_all k' = true) /\
  (notifying_all k0 = true -> notifying_all k' = true).
Proof.
  intros Hk Heq Hs Hl. code_cases Hk Heq; try discriminate Hs; simpl in Hs; repeat case_match; simplify_eq;
    (split; [first [by simpl; rewrite ?length_alter|simpl; by erewrite (proj2 (pop_concat _ _ _ ltac:(eassumption)))]|]); (split; [done|]); flags; 
    try (split; [left; split; [done|]|by auto];
         first [rewrite queue_push by done|erewrite (queue_pop m) by eassumption|unfold queue_length]; simpl; lia).
  - rename select (_ || _ = false) into Hc. apply orb_false_iff in Hc as [Hs Ha]. apply negb_false_iff in Ha.
    split; [right; split; [by apply queue_empty|done]|by auto].
  - rename select (_ && _ = true) into Hc. apply andb_true_iff in Hc as [Hs Ha]. split; [right; split; [by apply queue_empty|done]|by auto].
Qed.


Lemma count_insert (f : code -> bool) (ths : list code) i k k' :
  ths !! i = Some k -> (count f (<[i := k']> ths) + Nat.b2n (f k) = count f ths + Nat.b2n (f k'))%nat.
Proof. intros Hi. unfold count. apply (sum_insert (fun k => Nat.b2n (f k)) _ _ _ _ Hi). Qed.
Lemma count_same (f : code -> bool) (ths : list code) i k k' :
  ths !! i = Some k -> f k' = f k -> count f (<[i := k']> ths) = count f ths.
Proof. intros Hi Hf. pose proof (count_insert f ths i k k' Hi) as Hc. rewrite Hf in Hc. lia. Qed.
Lemma count_ext (f : code -> bool) (g : code -> code) (ths : list code) :
  (forall k, f (g k) = f k) -> count f (g <$> ths) = count f ths.
Proof. intros Hf. apply sum_fmap_eq. intros k. by rewrite Hf. Qed.
Lemma no_counted (f : code -> bool) (ths : list code) :
  (forall i k, ths !! i = Some k -> f k = false) -> count f ths = 0%nat.
Proof. intros Hf. apply sum_zero. intros i k Hi. by rewrite (Hf i k). Qed.

Lemma count_pos (f : code -> bool) (ths : list code) i k :
  ths !! i = Some k -> f k = true -> (0 < count f ths)%nat.
Proof. intros Hi Hf. pose proof (sum_pos (fun k => Nat.b2n (f k)) _ _ _ Hi) as Hp. simpl in Hp. rewrite Hf in Hp. apply Hp. Qed.

Lemma same_insert s i k k' mu :
  wake_inv s -> s.(threads) !! i = Some k -> same_wakes k k' ->
  wake_inv (mk_threads s.(mem) mu (<[i := k']> s.(threads))).
Proof.
  intros [Hl H1 H2] Hi (Ha & Hn & Hh & Hall).
  split; simpl; [done|..]; by rewrite !(count_same _ _ _ _ _ Hi) by done.
Qed.

Lemma lock_wakes n i k k0 : code_ok n i k0 -> k0 = Lock :: k -> same_wakes k0 k.
Proof. intros Hk Heq. code_cases Hk Heq; by flags. Qed.
Lemma ret_wakes n i t k k0 : code_ok n i k0 -> k0 = Fn t :: k -> same_wakes k0 k.
Proof. intros Hk Heq. code_cases Hk Heq; by flags. Qed.
Lemma join_wakes n i j k k0 : code_ok n i k0 -> k0 = Join j :: k -> same_wakes k0 k.
Proof. intros Hk Heq. code_cases Hk Heq; by flags. Qed.
Lemma notify_idle_wakes n i k k0 : code_ok n i k0 -> k0 = Notify_idle :: k -> same_wakes k0 k.
Proof. intros Hk Heq. code_cases Hk Heq; by flags. Qed.
Lemma call_wakes n i c k k0 cl :
  code_ok n i k0 -> k0 = c :: k -> (exists t, c = Fn t) /\ cl <> call_destroy \/ c = Outside ->
  same_wakes k0 (if cl is call_destroy then destroy_code n else call_code n cl ++ k0).
Proof.
  intros Hk Heq Hc. code_cases Hk Heq; destruct Hc as [[[??] Hc]|Hc]; simplify_eq; destruct cl; try done; by flags.
Qed.
Lemma notify_one_wakes n i k k0 : code_ok n i k0 -> k0 = Notify_one :: k ->
  asleep k = asleep k0 /\ notifying k0 = true /\ notifying k = false /\ heading k = heading k0 /\
  notifying_all k = notifying_all k0.
Proof. intros Hk Heq. code_cases Hk Heq; by flags. Qed.
Lemma wake_idle_wakes k : same_wakes k (wake_idle k).
Proof. by destruct k as [|[] k]. Qed.
Lemma asleep_wakes n i k : code_ok n i k -> asleep k = true ->
  asleep (wake k) = false /\ notifying (wake k) = notifying k /\ heading k = false /\ heading (wake k) = true /\
  notifying_all (wake k) = notifying_all k.
Proof.
  intros Hk Ha. destruct k as [|[] k']; try done. remember (Asleep :: k') as k0 eqn:Heq.
  code_cases Hk Heq; by flags.
Qed.

(** Waking a sleeper puts a worker on its way. *)
Lemma wake_insert n s j k :
  threads_inv n s -> s.(threads) !! j = Some k -> asleep k = true ->
  let ths := <[j := wake k]> s.(threads) in
  count asleep s.(threads) = S (count asleep ths) /\ count notifying ths = count notifying s.(threads) /\
  count heading ths = S (count heading s.(threads)) /\ count notifying_all ths = count notifying_all s.(threads).
Proof.
  intros Hinv Hj Ha. destruct (asleep_wakes n j k (inv_code _ _ Hinv _ _ Hj) Ha) as (H1 & H2 & H3 & H4 & H5).
  pose proof (count_insert asleep _ _ _ (wake k) Hj) as C1. pose proof (count_insert notifying _ _ _ (wake k) Hj) as C2.
  pose proof (count_insert heading _ _ _ (wake k) Hj) as C3. pose proof (count_insert notifying_all _ _ _ (wake k) Hj) as C4.
  rewrite Ha, H1 in C1. rewrite H2 in C2. rewrite H3, H4 in C3. rewrite H5 in C4. simpl in *. lia.
Qed.

Lemma statement_wake_inv n s i c k m k' keep mu :
  threads_inv n s -> wake_inv s -> s.(threads) !! i = Some (c :: k) ->
  statement c k s.(mem) = Some (m, k', keep) -> wake_inv (mk_threads m mu (<[i := k']> s.(threads))).
Proof.
  intros Hinv [Hl Hw Hst] Hi Hs.
  destruct (statement_wakes _ _ _ _ _ _ _ _ _ (inv_code _ _ Hinv _ _ Hi) eq_refl Hs Hl) as (Hl' & Ha & Hq & Hstop & Hall).
  pose proof (count_insert asleep _ _ _ k' Hi) as C1. pose proof (count_insert notifying _ _ _ k' Hi) as C2.
  pose proof (count_insert heading _ _ _ k' Hi) as C3. pose proof (count_insert notifying_all _ _ _ k' Hi) as C4.
  rewrite Ha in C1. split; simpl; [done| |].
  - intros Hpos. destruct Hq as [[Ha' Hq]|[Hq _]]; [|lia]. rewrite Ha' in C1. simpl in *. specialize (Hw ltac:(lia)). lia.
  - intros Hs' Hpos. destruct (notifying_all k') eqn:E.
    { eapply count_pos, E. apply list_lookup_insert_eq. by eapply lookup_lt_Some. }
    destruct (notifying_all (c :: k)) eqn:E0; [by specialize (Hall eq_refl)|].
    destruct (Hstop Hs') as [Hs0|?]; [|done]. simpl in *. specialize (Hst Hs0).
    destruct Hq as [[Ha' _]|[_ Hq]].
    + rewrite Ha' in C1. simpl in C1. lia.
    + destruct (asleep k') eqn:Ea; [by rewrite Hq in Hs'|]. simpl in C1. lia.
Qed.

Lemma run_wakes n s i w c k s' :
  threads_inv n s -> wake_inv s -> s.(threads) !! i = Some (c :: k) -> run_thread i w c k s = Some s' -> wake_inv s'.
Proof.
  intros Hinv Hw Hi Hr. pose proof (inv_code _ _ Hinv _ _ Hi) as Hk.
  pose proof (fun m k' keep mu => statement_wake_inv n s i c k m k' keep mu Hinv Hw Hi) as Hst.
  destruct c; unfold run_thread in Hr;
    try match type of Hr with context [statement ?c _ _] =>
      destruct (statement c k (mem s)) as [[[m k'] keep]|]; [|done];
      injection Hr as <-; by apply (Hst m k' keep)
    end.
  - destruct (mu_ s); [done|]. injection Hr as <-. eapply same_insert; [done|done|by eapply lock_wakes].
  - destruct (notify_one_wakes _ _ _ _ Hk eq_refl) as (Ha & Hn & Hn' & Hh & Hall).
    pose proof (count_same asleep _ _ _ _ Hi Ha) as C1. pose proof (count_insert notifying _ _ _ k Hi) as C2.
    pose proof (count_same heading _ _ _ _ Hi Hh) as C3. pose proof (count_same notifying_all _ _ _ _ Hi Hall) as C4.
    rewrite Hn, Hn' in C2. simpl in C2. destruct Hw as [Hl H1 H2].
    destruct w as [j|].
    + destruct (threads s !! j) as [kj|] eqn:Hj; [|done]. destruct (asleep kj) eqn:Has; [|done]. injection Hr as <-.
      destruct (notifier n i _ k _ Hk eq_refl I) as (Hok & Hin & Hww).
      destruct (quiet_set n s i _ k Hinv Hi Hok eq_refl Hin Hww) as [Hinv1 _].
      destruct (wake_insert n (set_thread i k s) j kj Hinv1) as (W1 & W2 & W3 & W4); [|done|].
      { simpl. rewrite list_lookup_insert_ne; [done|]. intros ->. by simplify_eq. }
      simpl in *. split; simpl; [done| |]; intros; [specialize (H1 ltac:(lia)); lia|specialize (H2 ltac:(done) ltac:(lia)); lia].
    + destruct (existsb asleep (threads s)) eqn:He; [done|]. injection Hr as <-.
      assert (count asleep (threads s) = 0%nat) as H0.
      { apply no_counted. intros j kj Hj. apply not_true_iff_false. intros Ht.
        apply (not_true_iff_false (existsb asleep (threads s))) in He. apply He, existsb_exists.
        exists kj. split; [by eapply list_elem_of_In, list_elem_of_lookup_2|done]. }
      split; simpl; [done|lia..].
  - injection Hr as <-. eapply (same_insert _ _ _ _ (mu_ s)) in Hw as [Hl H1 H2]; [|done|by eapply notify_idle_wakes].
    split; simpl in *; [done|..]; by rewrite !(count_ext _ wake_idle) by (intros; apply wake_idle_wakes).
  - injection Hr as <-. assert (count asleep (wake <$> <[i:=k]> (threads s)) = 0%nat) as H0.
    { apply no_counted. intros j kj. rewrite list_lookup_fmap_Some. intros (k0 & -> & _). by destruct k0 as [|[] ?]. }
    destruct Hw. split; simpl; [done|lia..].
  - repeat case_match; simplify_eq. eapply same_insert; [done|done|by eapply join_wakes].
Qed.

Lemma step_wakes n s e s' :
  threads_inv n s -> wake_inv s -> thread_step n e s = Some s' -> wake_inv s'.
Proof.
  intros Hinv Hw. destruct e as [i w|i|i cl|i]; simpl; destruct (threads s !! i) as [k|] eqn:Hi; try done.
  - destruct k as [|c k]; [done|]. by apply (run_wakes n).
  - destruct (asleep k) eqn:Hk; simpl.
    + intros [= <-]. destruct (wake_insert n s i k Hinv Hi Hk) as (W1 & W2 & W3 & W4).
      assert (wake_idle (wake k) = wake k) as -> by (by destruct k as [|[] k]).
      destruct Hw as [Hl H1 H2]. split; simpl in *; [done| |]; intros;
        [specialize (H1 ltac:(lia)); lia|specialize (H2 ltac:(done) ltac:(lia)); lia].
    + destruct (dozing k) eqn:Hd; [|done]. intros [= <-].
      assert (wake k = k) as -> by (by destruct k as [|[] k]).
      eapply same_insert; [done|done|apply wake_idle_wakes].
  - pose proof (inv_code _ _ Hinv _ _ Hi) as Hk.
    destruct k as [|c k]; [done|].
    assert (Hc : (exists t, c = Fn t) /\ cl <> call_destroy \/ c = Outside -> wake_inv (set_thread i (if cl is call_destroy then destroy_code n else call_code n cl ++ c :: k) s))
      by (intros; eapply same_insert; [done|done|by eapply call_wakes]).
    destruct c; try done; intros Hs; [|destruct k; [|done]]; destruct cl; repeat case_match; simplify_eq;
      apply Hc; try (by right); by left; eauto.
  - destruct k as [|[] k]; try done. intros [= <-].
    eapply same_insert; [done|done|by eapply ret_wakes, eq_refl; apply Hinv].
Qed.

Lemma start_wakes n clients : wake_inv (@start_threads task n clients).
Proof.
  assert (Hl : Forall (fun k => asleep k = false) (threads (@start_threads task n clients)))
    by (apply Forall_app; split; by apply Forall_replicate).
  assert (H0 : count asleep (threads (@start_threads task n clients)) = 0%nat)
    by (apply no_counted, Forall_lookup, Hl).
  split; [done|rewrite H0; lia..].
Qed.

(** ** What the threads have left to do *)

(** A statement costs itself and what it makes others do: [notify_one] wakes one
    worker, [notify_all] each of the [N] threads, a task in a queue costs a turn. *)
Definition turn_cost (N : nat) : nat := (13 + 5 * N)%nat.
Definition cost (N : nat) (c : @instr task) : nat :=
  match c with
  | Asleep | Dozing | Outside => 0
  | Check_return | Test_idle => 2
  | Notify_one => 3
  | Notify_all => 1 + 2 * N
  | Notify_idle => 1 + 5 * N
  | Push _ _ => 1 + turn_cost N
  | _ => 1
  end%nat.
Definition weight (N : nat) (k : code) : nat := sum_list_with (cost N) k.
Definition energy (N : nat) (s : @pool_threads task) : nat :=
  (turn_cost N * queue_length s.(mem) + sum_list_with (weight N) s.(threads))%nat.

(** What an event of foreign code or of the scheduler adds. *)
Definition event_cost (n N : nat) (e : @thread_event task) : nat :=
  match e with
  | call _ c => weight N (call_code n c)
  | wake_up _ => 5%nat
  | _ => 0%nat
  end.
Definition own_step (e : @thread_event task) : bool :=
  match e with run _ _ | ret _ => true | _ => false end.

(** What a statement inside a section can rely on: behind the predicate of the
    wait there is something to do, the counters follow what they count. *)
Definition head_ok (m : @members task) (k : code) : bool :=
  match k with
  | Count_submitted :: _ => negb (m_all_empty m)
  | Inc_completed :: _ => negb (is_nil m.(m_ran))
  | Check_return :: _ => m.(m_stop) || negb (m_all_empty m)
  | Pop :: _ => negb (m_all_empty m)
  | _ => true
  end.
Definition head_inv (s : @pool_threads task) : Prop :=
  forall i k, s.(mu_) = Some i -> s.(threads) !! i = Some k -> head_ok s.(mem) k = true.

Lemma statement_head n i c k k0 m m' k' keep :
  code_ok n i k0 -> k0 = c :: k -> statement c k m = Some (m', k', keep) ->
  length m.(m_queues) = 4%nat -> head_ok m k0 = true -> keep = true -> head_ok m' k' = true.
Proof.
  intros Hk Heq Hs Hl Hh ->.
  assert (Hpush : forall p t, m_all_empty (m_push p t m) = false).
  { intros p t. apply not_true_iff_false. rewrite queue_empty, queue_push by done. lia. }
  code_cases Hk Heq; try discriminate Hs; simpl in Hs; repeat case_match; simplify_eq; try done; simpl in *;
    rewrite ?Hpush; try done; [by destruct (m_ran m)|].
  by destruct (m_stop _), (m_all_empty _).
Qed.

Lemma statement_cost N n i c k k0 m m' k' keep :
  code_ok n i k0 -> k0 = c :: k -> statement c k m = Some (m', k', keep) ->
  length m.(m_queues) = 4%nat -> head_ok m k0 = true ->
  (turn_cost N * queue_length m' + weight N k' + 1 <= turn_cost N * queue_length m + weight N k0)%nat.
Proof.
  intros Hk Heq Hs Hl Hh.
  assert (exists tq : members -> nat, forall m, (turn_cost N * queue_length m)%nat = tq m) as [tq Htq] by by eexists.
  assert (Hpush : forall p t, (tq (m_push p t m) = tq m + turn_cost N)%nat)
    by (intros; rewrite <-!Htq, queue_push by done; lia).
  assert (Hpop : forall t qs, pop m.(m_queues) = Some (t, qs) -> (tq m = tq (m_set_queues qs m) + turn_cost N)%nat)
    by (intros t qs Hp; rewrite <-!Htq, (queue_pop m t qs Hp); lia).
  assert (Hsame : forall m1, m1.(m_queues) = m.(m_queues) -> tq m1 = tq m)
    by (intros m1 Hm; rewrite <-!Htq; unfold queue_length; by rewrite Hm).
  rewrite !Htq. clear Htq.
  code_cases Hk Heq; try discriminate Hs; simpl in Hs; repeat case_match; simplify_eq; unfold weight; simpl.
  all: first
    [ rewrite Hpush; unfold turn_cost; lia
    | rewrite (Hpop _ _ eq_refl); unfold turn_cost; lia
    | rewrite Hsame by done; lia | lia | idtac ].
  rename select (pop _ = None) into Hnone. apply pop_none in Hnone. simpl in Hh. unfold m_all_empty in Hh.
  by rewrite Hnone in Hh.
Qed.

Lemma wake_weight N k : (weight N (wake k) <= weight N k + 2)%nat.
Proof. destruct k as [|[] k]; unfold weight; simpl; lia. Qed.
Lemma wake_idle_weight N k : (weight N (wake_idle k) <= weight N k + 5)%nat.
Proof. destruct k as [|[] k]; unfold weight; simpl; lia. Qed.

Lemma energy_insert N s i k k' mu :
  s.(threads) !! i = Some k ->
  (energy N (mk_threads s.(mem) mu (<[i := k']> s.(threads))) + weight N k = energy N s + weight N k')%nat.
Proof. intros Hi. unfold energy. simpl. pose proof (sum_insert (weight N) _ _ _ k' Hi). lia. Qed.

(** Waking every thread costs at most [d] for each. *)
Lemma energy_fmap N d s mu (f : code -> code) :
  (forall k, weight N (f k) <= weight N k + d)%nat ->
  (energy N (mk_threads s.(mem) mu (f <$> s.(threads))) <= energy N s + d * length s.(threads))%nat.
Proof. intros Hf. unfold energy. simpl. pose proof (sum_fmap_le (weight N) f d s.(threads) Hf). lia. Qed.

Lemma step_length n s e s' : thread_step n e s = Some s' -> length s'.(threads) = length s.(threads).
Proof.
  intros Hs. destruct e as [i w|i|i cl|i]; simpl in Hs; destruct (threads s !! i) as [k|]; try done.
  - destruct k as [|c k]; [done|]. unfold run_thread in Hs. 
    destruct c; repeat case_match; simplify_eq; simpl; by rewrite ?length_fmap, ?length_insert.
  - case_match; simplify_eq. simpl. by rewrite length_insert.
  - repeat case_match; simplify_eq; simpl; by rewrite length_insert.
  - repeat case_match; simplify_eq; simpl; by rewrite length_insert.
Qed.

Lemma run_energy n s i w c k s' :
  threads_inv n s -> wake_inv s -> head_inv s -> s.(threads) !! i = Some (c :: k) ->
  run_thread i w c k s = Some s' ->
  (energy (length s.(threads)) s' + 1 <= energy (length s.(threads)) s)%nat.
Proof.
  intros Hinv Hw Hh Hi Hr. pose proof (inv_code _ _ Hinv _ _ Hi) as Hk.
  set (N := length (threads s)).
  pose proof (fun mu => energy_insert N s i _ k mu Hi) as He.
  destruct c; unfold run_thread in Hr;
    try match type of Hr with context [statement ?c _ _] =>
      destruct (statement c k (mem s)) as [[[m k'] keep]|] eqn:Hs; [try discriminate Hs|done]; injection Hr as <-;
      pose proof (statement_cost N _ _ _ _ _ _ _ _ _ Hk eq_refl Hs (inv_queues4 _ Hw)) as Hc;
      pose proof (sum_insert (weight N) _ _ _ k' Hi) as Hsum;
      assert (Hmu : s.(mu_) = Some i) by (apply (inv_mutex _ _ Hinv); eauto);
      specialize (Hc (Hh _ _ Hmu Hi)); unfold energy; simpl in *; lia
    end.
  - destruct (mu_ s); [done|]. injection Hr as <-. specialize (He (Some i)). unfold weight in He. simpl in He. lia.
  - assert (Hset : (energy N (set_thread i k s) + 3 = energy N s)%nat)
      by (specialize (He (mu_ s)); unfold weight in He; simpl in He; unfold set_thread; lia).
    destruct w as [j|]; [|destruct (existsb asleep (threads s)); simplify_eq; lia].
    destruct (threads s !! j) as [kj|] eqn:Hj; [|done]. destruct (asleep kj) eqn:Ha; [|done]. injection Hr as <-.
    assert (Hj1 : threads (set_thread i k s) !! j = Some kj).
    { simpl. rewrite list_lookup_insert_ne; [done|]. intros ->. by simplify_eq. }
    pose proof (energy_insert N (set_thread i k s) j kj (wake kj) (mu_ s) Hj1) as Hej.
    pose proof (wake_weight N kj). unfold set_thread in *. simpl in *. lia.
  - injection Hr as <-. specialize (He (mu_ s)). unfold weight in He. cbn [sum_list_with cost] in He.
    pose proof (energy_fmap N 5 (set_thread i k s) (mu_ s) wake_idle (wake_idle_weight N)) as Hf.
    unfold set_thread in Hf. simpl in Hf. rewrite length_insert in Hf. fold N in Hf. lia.
  - injection Hr as <-. specialize (He (mu_ s)). unfold weight in He. cbn [sum_list_with cost] in He.
    pose proof (energy_fmap N 2 (set_thread i k s) (mu_ s) wake (wake_weight N)) as Hf.
    unfold set_thread in Hf. simpl in Hf. rewrite length_insert in Hf. fold N in Hf. lia.
  - specialize (He (mu_ s)). unfold weight in He. simpl in He. repeat case_match; simplify_eq.
    unfold set_thread. lia.
Qed.

Lemma step_energy n s e s' :
  threads_inv n s -> wake_inv s -> head_inv s -> thread_step n e s = Some s' ->
  (energy (length s.(threads)) s' + Nat.b2n (own_step e)
   <= energy (length s.(threads)) s + event_cost n (length s.(threads)) e)%nat.
Proof.
  intros Hinv Hw Hh. set (N := length (threads s)).
  destruct e as [i w|i|i cl|i]; simpl; destruct (threads s !! i) as [k|] eqn:Hi; try done;
    pose proof (fun k' => energy_insert N s i _ k' (mu_ s) Hi) as He.
  - destruct k as [|c k]; [done|]. intros Hr. apply (run_energy n) in Hr; try done. fold N in Hr. lia.
  - destruct (asleep k || dozing k) eqn:Ha; [|done]. intros [= <-]. specialize (He (wake_idle (wake k))).
    unfold set_thread. assert (weight N (wake_idle (wake k)) <= weight N k + 5)%nat; [|lia].
    destruct k as [|[] k]; try done; unfold weight; simpl; lia.
  - assert (Hcall : (energy N (set_thread i (call_code n cl ++ k) s) <= energy N s + weight N (call_code n cl))%nat).
    { specialize (He (call_code n cl ++ k)). unfold weight in *. rewrite sum_list_with_app in He.
      unfold set_thread. lia. }
    destruct k as [|[] [|]]; try done; intros Hs; repeat case_match; simplify_eq; simpl in *; try lia.
    specialize (He (destroy_code n)). unfold weight in *. simpl in *. unfold set_thread. lia.
  - destruct k as [|[] k]; try done. intros [= <-]. specialize (He k). unfold weight in He. simpl in He.
    unfold set_thread. lia.
Qed.

Lemma head_keep s s' :
  head_inv s -> s'.(mem) = s.(mem) -> s'.(mu_) = s.(mu_) ->
  (forall i, s.(mu_) = Some i -> s'.(threads) !! i = s.(threads) !! i) -> head_inv s'.
Proof. intros Hh Hm Hmu Ht i k Hi Hk. rewrite Hmu in Hi. rewrite (Ht i Hi) in Hk. rewrite Hm. by apply (Hh i). Qed.

Lemma head_set n s i k k' :
  threads_inv n s -> head_inv s -> s.(threads) !! i = Some k -> in_section k = false -> head_inv (set_thread i k' s).
Proof.
  intros Hinv Hh Hi Hk. eapply head_keep; try done. intros j Hj. simpl. rewrite list_lookup_insert_ne; [done|].
  intros ->. by apply (not_in_section n s j k Hinv Hi Hk).
Qed.

Lemma head_fmap n s (f : code -> code) :
  threads_inv n s -> head_inv s -> (forall k, in_section k = true -> f k = k) ->
  head_inv (mk_threads s.(mem) s.(mu_) (f <$> s.(threads))).
Proof.
  intros Hinv Hh Hf. eapply head_keep; try done. intros j Hj. simpl.
  apply (inv_mutex _ _ Hinv) in Hj as (k & Hk & Hin). rewrite list_lookup_fmap, Hk. simpl. by rewrite Hf.
Qed.

Lemma lock_head n i m k k0 : code_ok n i k0 -> k0 = Lock :: k -> head_ok m k = true.
Proof. intros Hk Heq. by code_cases Hk Heq. Qed.

Lemma step_head n s e s' :
  threads_inv n s -> wake_inv s -> head_inv s -> thread_step n e s = Some s' -> head_inv s'.
Proof.
  intros Hinv Hw Hh. destruct e as [i w|i|i cl|i]; simpl; destruct (threads s !! i) as [k|] eqn:Hi; try done;
    pose proof (inv_code _ _ Hinv _ _ Hi) as Hk.
  - destruct k as [|c k]; [done|]. intros Hr. pose proof (lookup_lt_Some _ _ _ Hi) as Hlt.
    pose proof (fun H => head_set n s i _ k Hinv Hh Hi H) as Hset.
    destruct c; unfold run_thread in Hr; try discriminate Hr;
      try match type of Hr with context [statement ?c _ _] =>
        destruct (statement c k (mem s)) as [[[m k'] keep]|] eqn:Hs; [try discriminate Hs|done]; injection Hr as <-;
        assert (Hmu : s.(mu_) = Some i) by (apply (inv_mutex _ _ Hinv); eauto);
        intros j kj; simpl; destruct keep; [|done]; rewrite Hmu; intros [= <-];
        rewrite list_lookup_insert_eq by done; intros [= <-];
        eapply (statement_head _ _ _ _ _ _ _ _ _ Hk eq_refl Hs); [apply Hw|by apply (Hh i)|done]
      end.
    + destruct (mu_ s); [done|]. injection Hr as <-. intros j kj. simpl. intros [= <-].
      rewrite list_lookup_insert_eq by done. intros [= <-]. by eapply lock_head.
    + destruct w as [j|]; [|destruct (existsb asleep (threads s)); [done|]; injection Hr as <-; by apply Hset].
      destruct (threads s !! j) as [kj|] eqn:Hj; [|done]. destruct (asleep kj) eqn:Ha; [|done]. injection Hr as <-.
      destruct (notifier n i _ k _ Hk eq_refl I) as (Hok & Hin & _).
      eapply (head_set n (set_thread i k s) j kj); [by eapply inv_set_thread|by apply Hset| |by destruct kj as [|[] ?]].
      simpl. rewrite list_lookup_insert_ne; [done|]. intros ->. by simplify_eq.
    + injection Hr as <-. destruct (notifier n i _ k _ Hk eq_refl I) as (Hok & Hin & _).
      apply (head_fmap n (set_thread i k s)); [by eapply inv_set_thread|by apply Hset|apply wake_idle_section].
    + injection Hr as <-. destruct (notifier n i _ k _ Hk eq_refl I) as (Hok & Hin & _).
      apply (head_fmap n (set_thread i k s)); [by eapply inv_set_thread|by apply Hset|apply wake_section].
    + repeat case_match; simplify_eq. by apply Hset.
  - destruct (asleep k || dozing k) eqn:Ha; [|done]. intros [= <-]. eapply head_set; [done..|by destruct k as [|[] ?]].
  - intros Hs. destruct k as [|[] k]; try done; repeat case_match; simplify_eq; by eapply head_set.
  - destruct k as [|[] k]; try done. intros [= <-]. by eapply head_set.
Qed.

Definition progress_inv (n : nat) (s : @pool_threads task) : Prop :=
  threads_inv n s /\ wake_inv s /\ head_inv s.

Lemma start_progress n clients : progress_inv n (@start_threads task n clients).
Proof. split; [apply start_inv|]. split; [apply start_wakes|done]. Qed.
Lemma step_progress n s e s' : progress_inv n s -> thread_step n e s = Some s' -> progress_inv n s'.
Proof.
  intros (H1 & H2 & H3) Hs. split; [by eapply step_simulates|]. split; [by eapply step_wakes|by eapply step_head].
Qed.
Lemma run_progress n l s s' : progress_inv n s -> thread_run n l s = Some s' -> progress_inv n s'.
Proof.
  induction l as [|e l IH] in s |- *; simpl; intros Hinv; [by intros [= <-]|].
  destruct (thread_step n e s) as [s1|] eqn:He; [|done]. apply IH. by eapply step_progress.
Qed.

(** The steps of a run, against what foreign code asked for. *)
Definition own_steps (l : list thread_event) : nat := length (List.filter own_step l).
Definition costs (n N : nat) (l : list thread_event) : nat := sum_list_with (event_cost n N) l.

Lemma run_bounded n l s s' :
  progress_inv n s -> thread_run n l s = Some s' ->
  (own_steps l + energy (length s.(threads)) s' <= energy (length s.(threads)) s + costs n (length s.(threads)) l)%nat.
Proof.
  unfold own_steps, costs. induction l as [|e l IH] in s |- *; simpl; intros Hinv; [intros [= <-]; lia|].
  destruct (thread_step n e s) as [s1|] eqn:He; [|done]. intros Hr.
  destruct Hinv as (H1 & H2 & H3). pose proof (step_energy n s e s1 H1 H2 H3 He) as Hc.
  specialize (IH s1 (step_progress n s e s1 ltac:(done) He) Hr). rewrite (step_length n s e s1 He) in IH.
  destruct (own_step e); simpl in *; lia.
Qed.
End progress.
