(* ===== verification/PoolRest.v ===== *)
(** * The threads at rest ([include/hive_native/perf/worker_pool.hpp])

    What is true when no thread of the pool can go on by itself, how long it takes
    to come to that, what the counters show on the way; and the theorems about
    the threads. *)
From S2P Require Import Prelude WorkerPool PoolThreads PoolProgress.

Section rest.
Context {task : Type}.
#[local] Abbreviation code := (list (@instr task)).
Implicit Types (s : @pool_threads task) (k : code) (m : @members task).

(** ** The tasks handed over *)

Definition call_task (e : @thread_event task) : option task :=
  match e with call _ (call_submit _ t) => Some t | _ => None end.
(** The tasks of the calls of [submit] in a run. *)
Definition handed (l : list (@thread_event task)) : list task := omap call_task l.

(** A call of [submit] that waits for the mutex. *)
Definition asking (k : code) : list task :=
  match k with Lock :: Push _ t :: _ => [t] | _ => [] end.
Definition asked (ths : list code) : list task := concat (asking <$> ths).

Lemma asked_insert (ths : list code) i k k' :
  ths !! i = Some k -> asking k ++ asked (<[i := k']> ths) ≡ₚ asking k' ++ asked ths.
Proof.
  intros Hi. unfold asked. rewrite <-(take_drop_middle ths i k Hi) at 2.
  rewrite insert_take_drop by (by eapply lookup_lt_Some).
  rewrite !fmap_app, !fmap_cons, !concat_app. simpl. solve_Permutation.
Qed.
Lemma asked_same (ths : list code) i k k' :
  ths !! i = Some k -> asking k' = asking k -> asked (<[i := k']> ths) ≡ₚ asked ths.
Proof. intros Hi Hk. apply (Permutation_app_inv_l (asking k)). rewrite <-Hk at 2. by apply asked_insert. Qed.
Lemma asked_fmap (f : code -> code) (ths : list code) :
  (forall k, asking (f k) = asking k) -> asked (f <$> ths) = asked ths.
Proof. intros Hf. unfold asked. rewrite <-list_fmap_compose. f_equal. apply list_fmap_ext. intros. apply Hf. Qed.

Lemma wake_asking k : asking (wake k) = asking k.
Proof. by destruct k as [|[] k']. Qed.
Lemma wake_idle_asking k : asking (wake_idle k) = asking k.
Proof. by destruct k as [|[] k']. Qed.
Lemma statement_asking n i c k k0 m m' k' keep :
  code_ok n i k0 -> k0 = c :: k -> statement c k m = Some (m', k', keep) -> asking k' = asking k0.
Proof.
  intros Hk Heq Hs. code_cases Hk Heq; try discriminate Hs; simpl in Hs; repeat case_match; by simplify_eq.
Qed.
Lemma other_asking n i c k k0 :
  code_ok n i k0 -> k0 = c :: k ->
  match c with Notify_one | Notify_all | Notify_idle | Join _ | Fn _ => True | _ => False end -> asking k = [].
Proof. intros Hk Heq Hc. code_cases Hk Heq; try done; [by destruct (seq 0 n)|by destruct l]. Qed.

(** Taking the mutex hands the task over. *)
Lemma lock_asking n i k m :
  code_ok n i (Lock :: k) -> asking k = [] /\ asking (Lock :: k) = given (option_list (section_event n i k m)).
Proof.
  intros Hk. remember (Lock :: k) as k0 eqn:Heq. code_cases Hk Heq; try done. simpl.
  split; [done|]. by repeat case_match.
Qed.

Lemma run_asked n s i w c k s' :
  threads_inv n s -> s.(threads) !! i = Some (c :: k) -> run_thread i w c k s = Some s' ->
  asked s.(threads) ≡ₚ given (option_list (abs_event n (run i w) s)) ++ asked s'.(threads).
Proof.
  intros Hinv Hi Hr. pose proof (inv_code _ _ Hinv _ _ Hi) as Hk. simpl. rewrite Hi.
  pose proof (other_asking n i c k _ Hk eq_refl) as Hother.
  assert (Hset : asking (c :: k) = [] -> asking k = [] -> asked (<[i:=k]> (threads s)) ≡ₚ asked (threads s))
    by (intros H1 H2; eapply asked_same; [done|congruence]).
  destruct c; unfold run_thread in Hr; try discriminate Hr;
    try match type of Hr with context [statement ?c _ _] =>
      destruct (statement c k (mem s)) as [[[m k'] keep]|] eqn:Hs; [|done]; injection Hr as <-;
      simpl; symmetry; eapply asked_same; [done|by eapply statement_asking]
    end.
  - destruct (mu_ s); [done|]. injection Hr as <-. simpl.
    destruct (lock_asking n i k (mem s) Hk) as [H1 H2]. rewrite <-H2.
    pose proof (asked_insert _ _ _ k Hi) as Hp. by rewrite H1 in Hp.
  - specialize (Hset eq_refl (Hother I)).
    destruct w as [j|]; [|destruct (existsb asleep (threads s)); by simplify_eq].
    destruct (threads s !! j) as [kj|] eqn:Hj; [|done]. destruct (asleep kj) eqn:Ha; [|done]. injection Hr as <-.
    simpl. rewrite <-Hset. symmetry. eapply asked_same; [|apply wake_asking].
    rewrite list_lookup_insert_ne; [done|]. intros ->. by simplify_eq.
  - injection Hr as <-. simpl. rewrite asked_fmap by apply wake_idle_asking. symmetry. by apply Hset, Hother.
  - injection Hr as <-. simpl. rewrite asked_fmap by apply wake_asking. symmetry. by apply Hset, Hother.
  - repeat case_match; simplify_eq. simpl. symmetry. by apply Hset, Hother.
Qed.

Lemma step_asked n s e s' :
  threads_inv n s -> thread_step n e s = Some s' ->
  option_list (call_task e) ++ asked s.(threads) ≡ₚ given (option_list (abs_event n e s)) ++ asked s'.(threads).
Proof.
  intros Hinv. destruct e as [i w|i|i cl|i]; simpl thread_step; destruct (threads s !! i) as [k|] eqn:Hi; try done.
  - destruct k as [|c k]; [done|]. by apply run_asked.
  - destruct (asleep k || dozing k) eqn:Ha; [|done]. intros [= <-]. simpl. symmetry.
    eapply asked_same; [done|]. by rewrite wake_idle_asking, wake_asking.
  - intros Hs. pose proof (fun k' => asked_insert _ _ _ k' Hi) as Hp.
    destruct k as [|[] k]; try done; repeat case_match; simplify_eq; simpl; symmetry;
      first [exact (Hp (submit_code _ _ ++ _))|exact (Hp (wait_idle_code ++ _))|exact (Hp (destroy_code n))].
  - destruct k as [|[] k]; try done. intros [= <-]. simpl. symmetry. eapply asked_same; [done|].
    by apply (other_asking n i (Fn t) k _ (inv_code _ _ Hinv _ _ Hi) eq_refl).
Qed.

Lemma start_asked n clients : asked (threads (@start_threads task n clients)) = [].
Proof.
  unfold asked. simpl. rewrite fmap_app, concat_app, !fmap_replicate.
  assert (forall c, concat (replicate c (@nil task)) = []) as Hc by (intros c; by induction c). by rewrite !Hc.
Qed.

Lemma trace_handed n l s s' :
  threads_inv n s -> thread_run n l s = Some s' ->
  handed l ++ asked s.(threads) ≡ₚ given (trace n l s) ++ asked s'.(threads).
Proof.
  induction l as [|e l IH] in s |- *; intros Hinv; [by intros [= <-]|].
  cbn [thread_run trace]. destruct (thread_step n e s) as [s1|] eqn:He; [|done]. intros Hr.
  assert (Hinv1 : threads_inv n s1) by (by eapply step_simulates).
  pose proof (step_asked n s e s1 Hinv He) as H1. specialize (IH s1 Hinv1 Hr).
  assert (handed (e :: l) = option_list (call_task e) ++ handed l) as ->
    by (unfold handed; simpl; by destruct (call_task e)).
  assert (given (option_list (abs_event n e s) ++ trace n l s1) =
    given (option_list (abs_event n e s)) ++ given (trace n l s1)) as -> by (apply omap_app).
  rewrite <-!(assoc_L (++)), <-IH. rewrite (assoc_L (++) (given _)), (comm (++) (given _)).
  rewrite <-(assoc_L (++)), <-H1. solve_Permutation.
Qed.

(** ** Quiet states *)

(** No thread can execute its next statement, and no task is running. *)
Definition quiet (n : nat) (s : @pool_threads task) : Prop :=
  (forall i w, thread_step n (run i w) s = None) /\ (forall i, thread_step n (ret i) s = None).

Lemma section_runs n i c k m :
  code_ok n i (c :: k) -> in_section (c :: k) = true -> is_Some (statement c k m).
Proof. intros _ Hin. destruct c; try done; simpl; repeat case_match; by eexists. Qed.

Lemma quiet_mutex n s : threads_inv n s -> quiet n s -> s.(mu_) = None.
Proof.
  intros Hinv [Hq _]. destruct (mu_ s) as [i|] eqn:Hmu; [exfalso|done].
  apply (inv_mutex _ _ Hinv) in Hmu as (k & Hi & Hin). specialize (Hq i None). simpl in Hq. rewrite Hi in Hq.
  destruct k as [|c k]; [done|]. destruct (section_runs n i c k (mem s) (inv_code _ _ Hinv _ _ Hi) Hin) as [[[??]?] Hs].
  destruct c; try done; unfold run_thread in Hq; by rewrite Hs in Hq.
Qed.

(** What a thread of a quiet state is doing. *)
Definition at_rest (s : @pool_threads task) (k : code) : Prop :=
  match k with
  | [] | (Asleep | Dozing | Outside) :: _ => True
  | Join j :: _ => s.(threads) !! j <> Some []
  | _ => False
  end.

Lemma quiet_at_rest n s i k : threads_inv n s -> quiet n s -> s.(threads) !! i = Some k -> at_rest s k.
Proof.
  intros Hinv Hq Hi. pose proof (quiet_mutex n s Hinv Hq) as Hmu. destruct Hq as [Hq Hr].
  destruct (in_section k) eqn:Hin.
  { assert (mu_ s = Some i) by (apply (inv_mutex _ _ Hinv); eauto). congruence. }
  pose proof (fun w => Hq i w) as H. specialize (Hr i). simpl in H, Hr. rewrite Hi in H, Hr.
  destruct k as [|[] k]; try done; simpl in H.
  - specialize (H None). by rewrite Hmu in H.
  - destruct (existsb asleep (threads s)) eqn:He.
    + apply existsb_exists in He as (kj & Hin' & Ha). apply list_elem_of_In, list_elem_of_lookup_1 in Hin' as [j Hj].
      specialize (H (Some j)). simpl in H. by rewrite Hj, Ha in H.
    + specialize (H None). done.
  - by specialize (H None).
  - by specialize (H None).
  - specialize (H None). intros Hj. by rewrite Hj in H.
Qed.

Lemma rest_wakes n s i k :
  code_ok n i k -> at_rest s k -> notifying k = false /\ heading k = false /\ notifying_all k = false /\ asking k = [].
Proof.
  intros Hk Hr. destruct k as [|c k']; [done|].
  remember (c :: k') as k eqn:Heq. code_cases Hk Heq; try done; simpl in Hr; try done.
  unfold notifying, heading, notifying_all, has_notify_one, has_pop, has_notify_all.
  by rewrite !no_join, no_join_task, andb_false_r by done.
Qed.

(** ** The life of the pool *)

Definition actor (e : @thread_event task) : nat :=
  match e with run i _ | wake_up i | call i _ | ret i => i end.

Lemma step_other n e s s' j k :
  thread_step n e s = Some s' -> actor e <> j -> s.(threads) !! j = Some k ->
  exists f, s'.(threads) !! j = Some (f k) /\ (f = id \/ f = wake \/ f = wake_idle).
Proof.
  intros Hs Ha Hj.
  assert (Hset : forall i k', i <> j -> <[i := k']> s.(threads) !! j = Some k)
    by (intros; by rewrite list_lookup_insert_ne).
  destruct e as [i w|i|i cl|i]; simpl in Hs, Ha; destruct (threads s !! i) as [ki|] eqn:Hi; try done.
  - destruct ki as [|c ki]; [done|].
    destruct c; unfold run_thread in Hs; try (exists id; split; [|by left]; repeat case_match; simplify_eq; simpl; by apply Hset).
    + destruct w as [j'|]; [|exists id; split; [|by left]; case_match; simplify_eq; by apply Hset].
      destruct (threads s !! j') as [kj|] eqn:Hj'; [|done]. destruct (asleep kj); [|done]. injection Hs as <-.
      destruct (decide (j' = j)) as [->|Hne]; [exists wake|exists id]; (split; [|by auto]); simpl.
      * rewrite list_lookup_insert_eq; [congruence|]. rewrite length_insert. by eapply lookup_lt_Some.
      * rewrite list_lookup_insert_ne by done. by apply Hset.
    + injection Hs as <-. exists wake_idle. split; [|by auto]. simpl. by rewrite list_lookup_fmap, Hset.
    + injection Hs as <-. exists wake. split; [|by auto]. simpl. by rewrite list_lookup_fmap, Hset.
  - exists id; split; [|by left]. repeat case_match; simplify_eq; simpl; by apply Hset.
  - exists id; split; [|by left]. repeat case_match; simplify_eq; simpl; by apply Hset.
  - exists id; split; [|by left]. repeat case_match; simplify_eq; simpl; by apply Hset.
Qed.

Lemma statement_uses n i c k k0 m m' k' keep :
  code_ok n i k0 -> k0 = c :: k -> statement c k m = Some (m', k', keep) -> (n <= i)%nat -> uses_pool k' = uses_pool k0.
Proof.
  intros Hk Heq Hs Hn. code_cases Hk Heq; try lia; try discriminate Hs; simpl in Hs; repeat case_match; by simplify_eq.
Qed.
Lemma wake_uses k : uses_pool (wake k) = uses_pool k.
Proof. by destruct k as [|[] k]. Qed.
Lemma wake_idle_uses k : uses_pool (wake_idle k) = uses_pool k.
Proof. by destruct k as [|[] k]. Qed.

(** A destructor that has not set [stop_]. *)
Definition before_stop (k : code) : bool :=
  match k with Lock :: Set_stop :: _ => true | _ => false end.
Lemma statement_before n i c k k0 m m' k' keep :
  code_ok n i k0 -> k0 = c :: k -> statement c k m = Some (m', k', keep) -> before_stop k' = false.
Proof.
  intros Hk Heq Hs. code_cases Hk Heq; try discriminate Hs; simpl in Hs; repeat case_match; by simplify_eq.
Qed.
Lemma next_before n i c k k0 :
  code_ok n i k0 -> k0 = c :: k -> (n <= i)%nat -> statement c k (mk_members [] true 0 0 0 []) = None ->
  before_stop k = false /\ (c = Outside \/ uses_pool k = uses_pool k0).
Proof.
  intros Hk Heq Hn Hs. code_cases Hk Heq; try lia; try discriminate Hs; (split; [|by auto]); try done;
    [by destruct (seq 0 n)|by destruct l].
Qed.

Lemma worker_fn n i t k k0 : code_ok n i k0 -> k0 = Fn t :: k -> (i < n)%nat.
Proof. intros Hk Heq. by code_cases Hk Heq. Qed.

(** A client that uses the pool goes on to do so, unless it destroys it. *)
Lemma step_actor n e s s' k :
  threads_inv n s -> thread_step n e s = Some s' -> (n <= actor e)%nat -> s.(threads) !! actor e = Some k ->
  e <> call (actor e) call_destroy ->
  exists k', s'.(threads) !! actor e = Some k' /\ uses_pool k' = uses_pool k /\ before_stop k' = false.
Proof.
  intros Hinv Hs Hn Hi He. pose proof (inv_code _ _ Hinv _ _ Hi) as Hk. pose proof (lookup_lt_Some _ _ _ Hi) as Hlt.
  destruct e as [i w|i|i cl|i]; simpl in *; rewrite Hi in Hs.
  - destruct k as [|c k]; [done|]. pose proof (next_before n i c k _ Hk eq_refl Hn) as Hnext.
    destruct c; unfold run_thread in Hs; try discriminate Hs;
      try match type of Hs with context [statement ?c _ _] =>
        destruct (statement c k (mem s)) as [[[m k'] keep]|] eqn:Hst; [|done]; injection Hs as <-;
        exists k'; simpl; rewrite list_lookup_insert_eq by done;
        split; [done|]; split;
        [exact (statement_uses _ _ _ _ _ _ _ _ _ Hk eq_refl Hst Hn)|exact (statement_before _ _ _ _ _ _ _ _ _ Hk eq_refl Hst)]
      end; destruct (Hnext eq_refl) as [Hb [|Hu]]; try done.
    + destruct (mu_ s); [done|]. injection Hs as <-. exists k. simpl. by rewrite list_lookup_insert_eq.
    + exists k. destruct w as [j|]; [|case_match; simplify_eq; simpl; by rewrite list_lookup_insert_eq].
      destruct (threads s !! j) as [kj|] eqn:Hj; [|done]. destruct (asleep kj) eqn:Ha; [|done]. injection Hs as <-. simpl.
      rewrite list_lookup_insert_ne by (intros ->; by simplify_eq). by rewrite list_lookup_insert_eq.
    + injection Hs as <-. exists (wake_idle k). simpl. rewrite list_lookup_fmap, list_lookup_insert_eq by done.
      split; [done|]. rewrite wake_idle_uses. split; [done|]. by destruct k as [|[] k].
    + injection Hs as <-. exists (wake k). simpl. rewrite list_lookup_fmap, list_lookup_insert_eq by done.
      split; [done|]. rewrite wake_uses. split; [done|]. by destruct k as [|[] k].
    + exists k. repeat case_match; simplify_eq. simpl. by rewrite list_lookup_insert_eq.
  - destruct (asleep k || dozing k) eqn:Ha; [|done]. injection Hs as <-. exists (wake_idle (wake k)). simpl.
    rewrite list_lookup_insert_eq by done. split; [done|]. rewrite wake_idle_uses, wake_uses.
    split; [done|]. by destruct k as [|[] k].
  - destruct k as [|[] k]; try done; [pose proof (worker_fn _ _ _ _ _ Hk eq_refl); lia|].
    destruct k; [|done]. exists (call_code n cl ++ [Outside]).
    destruct cl; try done; case_match; simplify_eq; simpl; by rewrite list_lookup_insert_eq.
  - destruct k as [|[] k]; try done. pose proof (worker_fn _ _ _ _ _ Hk eq_refl). lia.
Qed.

Inductive life (n : nat) (s : @pool_threads task) : Prop :=
| life_used : in_use n s = true -> serving (abs n s) -> life n s
| life_ending d k :
    (n <= d)%nat -> s.(threads) !! d = Some k -> uses_pool k = false ->
    (forall j kj, (n <= j)%nat -> j <> d -> s.(threads) !! j = Some kj -> kj = [Outside]) ->
    (before_stop k = true /\ serving (abs n s) \/ stopping (abs n s)) -> life n s.

Lemma clients_forallb (P : code -> bool) n s :
  forallb P (drop n s.(threads)) = true <-> forall j kj, (n <= j)%nat -> s.(threads) !! j = Some kj -> P kj = true.
Proof.
  rewrite forallb_forall. split.
  - intros H j kj Hj Hk. apply H, list_elem_of_In. apply list_elem_of_lookup. exists (j - n)%nat.
    rewrite lookup_drop. by replace (n + (j - n))%nat with j by lia.
  - intros H k Hin%list_elem_of_In. apply list_elem_of_lookup in Hin as [j Hj]. rewrite lookup_drop in Hj.
    apply (H (n + j)%nat); [lia|done].
Qed.

Lemma step_uses n s e s' j kj' :
  threads_inv n s -> thread_step n e s = Some s' -> (n <= j)%nat -> e <> call j call_destroy ->
  s'.(threads) !! j = Some kj' -> exists kj, s.(threads) !! j = Some kj /\ uses_pool kj' = uses_pool kj.
Proof.
  intros Hinv Hs Hn He Hj. pose proof (lookup_lt_Some _ _ _ Hj) as Hlt. rewrite (step_length _ _ _ _ Hs) in Hlt.
  destruct (lookup_lt_is_Some_2 _ _ Hlt) as [kj Hkj]. exists kj. split; [done|].
  destruct (decide (actor e = j)) as [<-|Hne].
  - destruct (step_actor n e s s' kj Hinv Hs Hn Hkj He) as (k' & Hk' & Hu & _). by simplify_eq.
  - destruct (step_other n e s s' j kj Hs Hne Hkj) as (f & Hf & Hor). rewrite Hf in Hj. injection Hj as <-.
    destruct Hor as [->|[-> | ->]]; [done|apply wake_uses|apply wake_idle_uses].
Qed.

(** Only a destructor stops the pool, only a client that uses it submits. *)
Lemma event_stop n s e :
  threads_inv n s -> abs_event n e s = Some ev_stop ->
  exists i k, (n <= i)%nat /\ actor e = i /\ s.(threads) !! i = Some k /\ uses_pool k = false /\ before_stop k = true.
Proof.
  intros Hinv. destruct e as [i w| | |]; try done. simpl. destruct (threads s !! i) as [k|] eqn:Hi; [|done].
  pose proof (inv_code _ _ Hinv _ _ Hi) as Hk. destruct k as [|[] k]; try done. intros He. exists i, (Lock :: k).
  remember (Lock :: k) as k0 eqn:Heq. code_cases Hk Heq; simpl in He; try done; repeat case_match; try done.
  split_and!; try done. simpl. by apply no_join.
Qed.
Lemma event_submit n s e p t :
  threads_inv n s -> abs_event n e s = Some (ev_submit None p t) ->
  exists i k, (n <= i)%nat /\ s.(threads) !! i = Some k /\ uses_pool k = true /\ k <> [Outside].
Proof.
  intros Hinv. destruct e as [i w| | |]; try done. simpl. destruct (threads s !! i) as [k|] eqn:Hi; [|done].
  pose proof (inv_code _ _ Hinv _ _ Hi) as Hk. destruct k as [|[] k]; try done. intros He. exists i, (Lock :: k).
  remember (Lock :: k) as k0 eqn:Heq. code_cases Hk Heq; simpl in He; try done; repeat case_match; try done; try lia.
  simplify_eq. rewrite (proj2 (Nat.ltb_lt i n)) in *; done.
Qed.

Lemma abs_serving n s e s' :
  threads_inv n s -> thread_step n e s = Some s' -> abs_event n e s <> Some ev_stop ->
  serving (abs n s) -> serving (abs n s').
Proof.
  intros Hinv Hs He Hserv. destruct (step_simulates n s e s' Hinv Hs) as [_ Hsim]. unfold simulates in Hsim.
  destruct (abs_event n e s) as [ev|]; [|by rewrite Hsim]. eapply step_serving; [|done|done]. by intros ->.
Qed.
Lemma abs_stopping n s e s' :
  threads_inv n s -> thread_step n e s = Some s' -> (forall p t, abs_event n e s <> Some (ev_submit None p t)) ->
  stopping (abs n s) -> stopping (abs n s').
Proof.
  intros Hinv Hs He Hstop. destruct (step_simulates n s e s' Hinv Hs) as [_ Hsim]. unfold simulates in Hsim.
  destruct (abs_event n e s) as [ev|]; [|by rewrite Hsim]. eapply step_stopping; [|done|done].
  destruct ev as [[|]| | | |]; try done. by destruct (He p t).
Qed.
Lemma abs_stop n s e s' :
  threads_inv n s -> thread_step n e s = Some s' -> abs_event n e s = Some ev_stop ->
  serving (abs n s) -> stopping (abs n s').
Proof.
  intros Hinv Hs He Hserv. destruct (step_simulates n s e s' Hinv Hs) as [_ Hsim]. unfold simulates in Hsim.
  rewrite He in Hsim. injection Hsim as <-. by apply serving_stop.
Qed.

Lemma outside_client n i k k0 : code_ok n i k0 -> k0 = Outside :: k -> (n <= i)%nat.
Proof. intros Hk Heq. by code_cases Hk Heq. Qed.

Lemma step_life_used n s e s' :
  threads_inv n s -> thread_step n e s = Some s' -> in_use n s = true -> serving (abs n s) -> life n s'.
Proof.
  intros Hinv Hs Hu Hserv. pose proof (proj1 (clients_forallb uses_pool n s) Hu) as Hall.
  assert (Hserv' : serving (abs n s')).
  { eapply abs_serving; [done|done| |done]. intros (i & k & Hn & _ & Hi & Hk & _)%event_stop; [|done].
    by rewrite (Hall i k Hn Hi) in Hk. }
  assert (Hd : (exists d, e = call d call_destroy) \/ (forall d, e <> call d call_destroy))
    by (destruct e as [| |? []|]; eauto).
  destruct Hd as [[d ->]|Hno].
  - simpl in Hs. destruct (threads s !! d) as [k|] eqn:Hi; [|done]. pose proof (lookup_lt_Some _ _ _ Hi) as Hlt.
    destruct k as [|[] [|]]; try done. destruct (unused n s) eqn:Hun; [|done]. injection Hs as <-.
    apply (life_ending n _ d (destroy_code n)); simpl.
    + by apply (outside_client n d [] _ (inv_code _ _ Hinv _ _ Hi)).
    + by rewrite list_lookup_insert_eq.
    + by apply no_join.
    + intros j kj Hn Hne. rewrite list_lookup_insert_ne by done. intros Hj.
      pose proof (proj1 (clients_forallb is_outside n s) Hun j kj Hn Hj). by destruct kj as [|[] [|]].
    + by left.
  - apply life_used; [|done]. apply clients_forallb. intros j kj Hn Hj.
    destruct (step_uses n s e s' j kj Hinv Hs Hn (Hno j) Hj) as (k0 & Hk0 & ->). by apply (Hall j).
Qed.

Lemma step_life_ending n s e s' d k :
  threads_inv n s -> thread_step n e s = Some s' ->
  (n <= d)%nat -> s.(threads) !! d = Some k -> uses_pool k = false ->
  (forall j kj, (n <= j)%nat -> j <> d -> s.(threads) !! j = Some kj -> kj = [Outside]) ->
  (before_stop k = true /\ serving (abs n s) \/ stopping (abs n s)) -> life n s'.
Proof.
  intros Hinv Hs Hd Hk Hu Hothers Hphase. pose proof (lookup_lt_Some _ _ _ Hk) as Hlt.
  (* nobody calls any more *)
  assert (Hcall : forall j cl, (n <= j)%nat -> e <> call j cl).
  { intros j cl Hn ->. simpl in Hs. destruct (threads s !! j) as [kj|] eqn:Hj; [|done].
    assert (Hout : in_use n s = false /\ unused n s = false).
    { split; apply not_true_iff_false; intros H;
        [apply (proj1 (clients_forallb uses_pool n s)) with (j := d) (kj := k) in H
        |apply (proj1 (clients_forallb is_outside n s)) with (j := d) (kj := k) in H]; try done; [congruence|].
      by destruct k as [|[] [|]]. }
    destruct Hout as [H1 H2]. rewrite H1, H2 in Hs.
    destruct kj as [|[] kj]; try done; [pose proof (worker_fn _ _ _ _ _ (inv_code _ _ Hinv _ _ Hj) eq_refl); lia|].
    destruct kj; [|done]. by destruct cl. }
  assert (Hsub : forall p t, abs_event n e s <> Some (ev_submit None p t)).
  { intros p t (i & ki & Hn & Hi & Hui & Hne)%event_submit; [|done].
    destruct (decide (i = d)) as [->|Hid]; [congruence|]. by apply Hne, (Hothers i). }
  destruct (lookup_lt_is_Some_2 (threads s') d) as [k' Hk']; [by rewrite (step_length n s e s' Hs)|].
  destruct (step_uses n s e s' d k' Hinv Hs Hd (Hcall d _ Hd) Hk') as (k1 & Hk1 & Hu').
  rewrite Hk in Hk1. injection Hk1 as <-.
  apply (life_ending n s' d k'); [done|done|congruence|..].
  - intros j kj Hn Hne Hj. pose proof (lookup_lt_Some _ _ _ Hj) as Hltj. rewrite (step_length n s e s' Hs) in Hltj.
    destruct (lookup_lt_is_Some_2 _ _ Hltj) as [k0 Hk0]. rewrite (Hothers j k0 Hn Hne Hk0) in Hk0.
    assert (Ha : actor e <> j).
    { intros Ha. destruct e as [i w|i|i cl|i]; simpl in Ha; subst i; simpl in Hs; rewrite Hk0 in Hs; try done.
      by apply (Hcall j cl Hn). }
    destruct (step_other n e s s' j _ Hs Ha Hk0) as (f & Hf & Hor). rewrite Hf in Hj. injection Hj as <-.
    by destruct Hor as [->|[-> | ->]].
  - destruct Hphase as [[Hb Hserv]|Hstop]; [|right; by eapply abs_stopping].
    destruct k as [|[] [|[] k]]; try done.
    assert (He : abs_event n e s = Some ev_stop \/ abs_event n e s <> Some ev_stop)
      by (destruct (abs_event n e s) as [[]|]; auto).
    destruct He as [He|He]; [right; by eapply abs_stop|]. left. split; [|by eapply abs_serving].
    assert (Ha : actor e <> d).
    { intros Ha. destruct e as [i w|i|i cl|i]; simpl in Ha; subst i; simpl in Hs, He; rewrite Hk in Hs; try done.
      by rewrite Hk in He. }
    destruct (step_other n e s s' d _ Hs Ha Hk) as (f & Hf & Hor). rewrite Hf in Hk'. injection Hk' as <-.
    by destruct Hor as [->|[-> | ->]].
Qed.

Lemma start_life n clients : n <> 0%nat -> life n (@start_threads task n clients).
Proof.
  intros Hn. apply life_used; [|rewrite (start_abs 0 n clients Hn); apply new_pool_serving].
  unfold in_use. simpl. rewrite drop_app_length' by (by rewrite length_replicate).
  apply forallb_forall. intros k Hk%list_elem_of_In%elem_of_replicate. by destruct Hk as [-> _].
Qed.

Lemma run_life n l s s' : threads_inv n s -> life n s -> thread_run n l s = Some s' -> life n s'.
Proof.
  induction l as [|e l IH] in s |- *; simpl; intros Hinv Hl; [by intros [= <-]|].
  destruct (thread_step n e s) as [s1|] eqn:He; [|done]. apply IH; [by eapply step_simulates|].
  destruct Hl; [by eapply step_life_used|by eapply step_life_ending].
Qed.

(** ** The pool at rest *)

Lemma quiet_sleepers n s :
  progress_inv n s -> quiet n s -> (0 < count asleep s.(threads))%nat ->
  m_all_empty s.(mem) = true /\ s.(mem).(m_stop) = false.
Proof.
  intros (Hinv & Hw & _) Hq Hpos.
  assert (Hnone : forall i k, s.(threads) !! i = Some k ->
    notifying k = false /\ heading k = false /\ notifying_all k = false /\ asking k = []).
  { intros i k Hi. eapply rest_wakes; [by apply Hinv|by eapply quiet_at_rest]. }
  pose proof (inv_wake _ Hw Hpos) as H1. pose proof (inv_stop _ Hw) as H2.
  rewrite (no_counted notifying), (no_counted heading) in H1 by (intros; by eapply Hnone).
  split; [apply queue_empty; lia|]. apply not_true_iff_false. intros Hs. specialize (H2 Hs Hpos).
  rewrite (no_counted notifying_all) in H2 by (intros; by eapply Hnone). lia.
Qed.

(** A worker of a quiet pool sleeps or has returned, unless its task waits for
    the pool itself. *)
Lemma quiet_worker n s i k :
  threads_inv n s -> quiet n s -> (i < n)%nat -> s.(threads) !! i = Some k -> dozing k = false ->
  k = [Asleep; Check_return; Pop] \/ k = [].
Proof.
  intros Hinv Hq Hn Hi Hd. pose proof (quiet_at_rest n s i k Hinv Hq Hi) as Hr.
  pose proof (inv_code _ _ Hinv _ _ Hi) as Hk. destruct k as [|c k']; [by right|left].
  remember (c :: k') as k eqn:Heq. code_cases Hk Heq; try done; try lia.
Qed.

Lemma quiet_abs n s :
  progress_inv n s -> quiet n s ->
  (forall i k, (i < n)%nat -> s.(threads) !! i = Some k -> dozing k = false) ->
  forall e, worker_event e = true -> pool_step e (abs n s) = None.
Proof.
  intros Hinv Hq Hd. pose proof (quiet_mutex n s (proj1 Hinv) Hq) as Hmu.
  assert (Habs : abs n s = as_pool s.(mem) (worker_of <$> take n s.(threads))) by (unfold abs; by rewrite Hmu).
  assert (Hw : forall i, workers_ (abs n s) !! i = None \/ workers_ (abs n s) !! i = Some returned \/
    workers_ (abs n s) !! i = Some waiting /\ loop_take i (abs n s) = None).
  { intros i. rewrite Habs. simpl. rewrite list_lookup_fmap.
    destruct (decide (i < n)%nat) as [Hn|Hn]; [|left; by rewrite lookup_take_ge by lia].
    rewrite lookup_take_lt by done. destruct (threads s !! i) as [k|] eqn:Hi; [right|by left].
    destruct (quiet_worker n s i k (proj1 Hinv) Hq Hn Hi (Hd i k Hn Hi)) as [->| ->]; [right|by left].
    split; [done|]. destruct (quiet_sleepers n s Hinv Hq) as [He Hs].
    { by eapply count_pos. }
    unfold loop_take, all_empty. simpl. unfold m_all_empty in He. by rewrite Hs, He. }
  intros [| i|i|i|] He; try done; simpl; destruct (Hw i) as [H|[H|[H Ht]]]; rewrite H; try done; by rewrite Ht.
Qed.

Lemma quiet_asked n s : progress_inv n s -> quiet n s -> asked s.(threads) = [].
Proof.
  intros (Hinv & _) Hq. unfold asked. assert (Hf : Forall (fun k => asking k = []) s.(threads)).
  { apply Forall_lookup. intros i k Hi. eapply rest_wakes; [by apply Hinv|by eapply quiet_at_rest]. }
  induction Hf as [|k ths Hk _ IH]; [done|]. rewrite fmap_cons. simpl. by rewrite Hk, IH.
Qed.

Lemma start_energy n clients N : energy N (@start_threads task n clients) = (5 * n)%nat.
Proof.
  unfold energy. simpl. rewrite sum_list_with_app.
  assert (Hr : forall c (k : code), sum_list_with (weight N) (replicate c k) = (c * weight N k)%nat)
    by (intros c k; induction c; simpl; lia).
  rewrite !Hr. unfold weight, queue_length. simpl. lia.
Qed.

(** Nothing is left in the pool, and everything handed over has run. *)
Lemma rest_done n clients l s :
  n <> 0%nat -> Z.of_nat n < 2 ^ 64 -> thread_run n l (start_threads n clients) = Some s -> quiet n s ->
  in_flight (abs n s) = [] -> all_empty (abs n s) = true ->
  handed l ≡ₚ s.(mem).(m_ran) /\ (s.(mem).(m_inflight) =? 0) && m_all_empty s.(mem) = true.
Proof.
  intros Hn Hw Hr Hq Hf He. pose proof (run_progress _ _ _ _ (start_progress n clients) Hr) as Hinv.
  pose proof (trace_handed _ _ _ _ (start_inv n clients) Hr) as Hh. rewrite (quiet_asked n s Hinv Hq), app_nil_r in Hh.
  rewrite start_asked, app_nil_r in Hh.
  destruct (run_simulates _ _ _ _ (start_inv n clients) Hr) as [_ Hp]. rewrite (start_abs 0 n clients Hn) in Hp.
  apply (run_inv []) in Hp as [_ _ Ht _ _ Hi]; [|apply new_pool_inv; by destruct n; [|simpl; rewrite length_replicate]].
  pose proof (quiet_mutex n s (proj1 Hinv) Hq) as Hmu.
  assert (Habs : abs n s = as_pool s.(mem) (worker_of <$> take n s.(threads))) by (unfold abs; by rewrite Hmu).
  rewrite (proj1 (all_empty_queued _) He), Hf, app_nil_r in Ht. rewrite Hf in Hi.
  rewrite Habs in Ht, Hi, He. simpl in Ht, Hi. split; [by rewrite Hh|].
  rewrite Hi. exact He.
Qed.

(** ** The two atomic counters

    [submitted()] and [completed()] read them without the mutex, so possibly in
    the middle of a section. *)
Definition counters_ok (m : @members task) : Prop :=
  0 <= m.(m_submitted) < 2 ^ 64 /\ 0 <= m.(m_completed) < 2 ^ 64.

Lemma statement_counters c k m m' k' keep :
  statement c k m = Some (m', k', keep) -> counters_ok m -> counters_ok m'.
Proof.
  intros Hs [H1 H2]. destruct c; simpl in Hs; repeat case_match; simplify_eq; try done; split; simpl;
    done || apply u64_range.
Qed.

Lemma step_counters n s e s' :
  thread_step n e s = Some s' -> counters_ok s.(mem) -> counters_ok s'.(mem).
Proof.
  intros Hs Hc. destruct e as [i w|i|i cl|i]; simpl in Hs; destruct (threads s !! i) as [k|]; try done.
  - destruct k as [|c k]; [done|]. destruct c; unfold run_thread in Hs;
      try match type of Hs with context [statement ?c _ _] =>
        destruct (statement c k (mem s)) as [[[m k'] keep]|] eqn:Hst; [|done]; injection Hs as <-;
        by eapply statement_counters
      end; repeat case_match; by simplify_eq.
  - repeat case_match; by simplify_eq.
  - repeat case_match; by simplify_eq.
  - repeat case_match; by simplify_eq.
Qed.
Lemma run_counters n l s s' : thread_run n l s = Some s' -> counters_ok s.(mem) -> counters_ok s'.(mem).
Proof.
  induction l as [|e l IH] in s |- *; simpl; [by intros [= <-]|].
  destruct (thread_step n e s) as [s1|] eqn:He; [|done]. intros Hr Hc. eapply IH; [done|]. by eapply step_counters.
Qed.

(** What is left of a section moves one counter at most, and what it counts is there. *)
Lemma section_counters n i k m m' w :
  code_ok n i k -> in_section k = true -> head_ok m k = true -> length m.(m_queues) = 4%nat ->
  section k m = (m', w) ->
  (m'.(m_submitted) = m.(m_submitted) /\ m'.(m_completed) = m.(m_completed)) \/
  (m'.(m_submitted) = u64 (m.(m_submitted) + 1) /\ m'.(m_completed) = m.(m_completed) /\ (0 < queue_length m')%nat) \/
  (m'.(m_submitted) = m.(m_submitted) /\ m'.(m_completed) = u64 (m.(m_completed) + 1) /\ (0 < length m'.(m_ran))%nat).
Proof.
  intros Hk Hin Hh Hl Hs.
  assert (Hpush : forall p t, (0 < queue_length (m_count (m_push p t m)))%nat)
    by (intros; change (0 < queue_length (m_push p t m))%nat; rewrite queue_push by done; lia).
  assert (Hcount : negb (m_all_empty m) = true -> (0 < queue_length (m_count m))%nat).
  { intros He. change (0 < queue_length m)%nat. destruct (decide (queue_length m = 0%nat)) as [H0|]; [|lia].
    apply queue_empty in H0. by rewrite H0 in He. }
  destruct k as [|c k']; [done|]. remember (c :: k') as k eqn:Heq.
  code_cases Hk Heq; try discriminate Hin; simpl in Hs; repeat case_match; simplify_eq; simpl in *; auto.
  - right; left. by auto.
  - right; right. rewrite length_app. simpl. split_and!; try done. lia.
  - right; right. split_and!; try done. destruct (m_ran m); [done|simpl; lia].
  - right; left. by auto.
Qed.

(** At any moment no more tasks are completed than submitted, and the count of the
    submitted is that of the sections of [submit], but for the one in progress. *)
Lemma counters_in_order n clients l s :
  n <> 0%nat -> Z.of_nat n < 2 ^ 64 -> thread_run n l (start_threads n clients) = Some s ->
  Z.of_nat (length (handed l)) < 2 ^ 64 ->
  let given_so_far := Z.of_nat (length (given (trace n l (start_threads n clients)))) in
  0 <= s.(mem).(m_completed) <= s.(mem).(m_submitted) /\
  given_so_far - 1 <= s.(mem).(m_submitted) <= given_so_far /\ given_so_far < 2 ^ 64.
Proof.
  intros Hn Hw Hr Hlen given_so_far. subst given_so_far. pose proof (run_progress _ _ _ _ (start_progress n clients) Hr) as (Hinv & Hwk & Hhd).
  pose proof (run_counters _ _ _ _ Hr) as Hrange. destruct Hrange as [Hs Hc]; [by split|].
  pose proof (trace_handed _ _ _ _ (start_inv n clients) Hr) as Hh. apply Permutation_length in Hh.
  rewrite start_asked, app_nil_r, length_app in Hh.
  destruct (run_simulates _ _ _ _ (start_inv n clients) Hr) as [_ Hp]. rewrite (start_abs 0 n clients Hn) in Hp.
  apply (run_inv []) in Hp as [_ _ Ht Hsub Hcomp _]; [|apply new_pool_inv; by destruct n; [|simpl; rewrite length_replicate]].
  apply Permutation_length in Ht. rewrite !length_app in Ht. simpl in Ht, Hsub.
  rewrite u64_small in Hsub, Hcomp by lia.
  assert (Habs : exists m' w, abs n s = as_pool m' w /\
    (m'.(m_submitted) = s.(mem).(m_submitted) /\ m'.(m_completed) = s.(mem).(m_completed) \/
     m'.(m_submitted) = u64 (s.(mem).(m_submitted) + 1) /\ m'.(m_completed) = s.(mem).(m_completed) /\ (0 < queue_length m')%nat \/
     m'.(m_submitted) = s.(mem).(m_submitted) /\ m'.(m_completed) = u64 (s.(mem).(m_completed) + 1) /\ (0 < length m'.(m_ran))%nat)).
  { unfold abs. destruct (mu_ s) as [i|] eqn:Hmu; [|by eexists _, _; split; [|left]].
    pose proof (proj1 (inv_mutex _ _ Hinv i) Hmu) as (k & Hk & Hin). rewrite Hk.
    destruct (section k (mem s)) as [m' w] eqn:Hsec. exists m', (<[i:=w]> (worker_of <$> take n (threads s))).
    split; [done|]. eapply section_counters; [by apply Hinv|done|by apply (Hhd i)|apply Hwk|done]. }
  destruct Habs as (m' & w & Habs & Hcases). rewrite Habs in Ht, Hsub, Hcomp.
  unfold queued, queue_length in *. simpl in *.
  destruct Hcases as [[H1 H2]|[(H1 & H2 & H3)|(H1 & H2 & H3)]].
  - lia.
  - destruct (decide (m_submitted (mem s) = 2 ^ 64 - 1)) as [He|]; [rewrite He in H1; change (u64 _) with 0 in H1; lia|].
    rewrite u64_small in H1 by lia. lia.
  - destruct (decide (m_completed (mem s) = 2 ^ 64 - 1)) as [He|]; [rewrite He in H2; change (u64 _) with 0 in H2; lia|].
    rewrite u64_small in H2 by lia. lia.
Qed.

Lemma thread_run_app n (l1 l2 : list thread_event) s :
  thread_run n (l1 ++ l2) s = thread_run n l1 s ≫= thread_run n l2.
Proof. induction l1 as [|e l1 IH] in s |- *; [done|]. simpl. destruct (thread_step n e s); [apply IH|done]. Qed.
Lemma trace_app n (l1 l2 : list thread_event) s s1 :
  thread_run n l1 s = Some s1 -> trace n (l1 ++ l2) s = trace n l1 s ++ trace n l2 s1.
Proof.
  induction l1 as [|e l1 IH] in s |- *; cbn [thread_run app trace]; [by intros [= ->]|].
  destruct (thread_step n e s) as [s0|]; [|done]. intros Hr. by rewrite (IH s0 Hr), (assoc_L (++)).
Qed.

(** [submitted()] does not go down. *)
Lemma statement_submitted c k m m' k' keep :
  statement c k m = Some (m', k', keep) ->
  m'.(m_submitted) = m.(m_submitted) \/ m'.(m_submitted) = u64 (m.(m_submitted) + 1).
Proof. intros Hs. destruct c; simpl in Hs; repeat case_match; simplify_eq; simpl; auto. Qed.
Lemma step_submitted n s e s' :
  thread_step n e s = Some s' ->
  s'.(mem).(m_submitted) = s.(mem).(m_submitted) \/ s'.(mem).(m_submitted) = u64 (s.(mem).(m_submitted) + 1).
Proof.
  intros Hs. destruct e as [i w|i|i cl|i]; simpl in Hs; destruct (threads s !! i) as [k|]; try done.
  - destruct k as [|c k]; [done|]. destruct c; unfold run_thread in Hs;
      try match type of Hs with context [statement ?c _ _] =>
        destruct (statement c k (mem s)) as [[[m k'] keep]|] eqn:Hst; [|done]; injection Hs as <-;
        by eapply statement_submitted
      end; left; repeat case_match; by simplify_eq.
  - left. repeat case_match; by simplify_eq.
  - left. repeat case_match; by simplify_eq.
  - left. repeat case_match; by simplify_eq.
Qed.

Lemma submitted_grows n clients l1 l2 s1 s2 :
  n <> 0%nat -> Z.of_nat n < 2 ^ 64 ->
  thread_run n l1 (start_threads n clients) = Some s1 -> thread_run n l2 s1 = Some s2 ->
  Z.of_nat (length (handed (l1 ++ l2))) < 2 ^ 64 -> s1.(mem).(m_submitted) <= s2.(mem).(m_submitted).
Proof.
  intros Hn Hw. induction l2 as [|e l2 IH] in l1, s1 |- *; intros H1 H2 Hlen; [simpl in H2; by simplify_eq|].
  cbn [thread_run] in H2. destruct (thread_step n e s1) as [s|] eqn:He; [|done].
  assert (H1' : thread_run n (l1 ++ [e]) (start_threads n clients) = Some s)
    by (rewrite (thread_run_app n l1), H1; cbn; by rewrite He).
  rewrite cons_middle, (assoc_L (++)) in Hlen. specialize (IH (l1 ++ [e]) s H1' H2 Hlen).
  assert (Hle : forall a b : list (@thread_event task), (length (handed a) <= length (handed (a ++ b)))%nat)
    by (intros a b; unfold handed; rewrite omap_app, length_app; lia).
  pose proof (Hle (l1 ++ [e]) l2). pose proof (Hle l1 [e]).
  destruct (counters_in_order n clients l1 s1 Hn Hw H1) as [_ Hg1]; [lia|].
  destruct (counters_in_order n clients (l1 ++ [e]) s Hn Hw H1') as [_ Hg2]; [lia|].
  rewrite (trace_app n l1 [e] _ s1 H1) in Hg2. unfold given in Hg2 at 1 2 3. rewrite omap_app, length_app in Hg2.
  unfold given in Hg1.
  destruct (step_submitted n s1 e s He) as [E|E]; [lia|].
  destruct (decide (m_submitted (mem s1) = 2 ^ 64 - 1)) as [Em|]; [|rewrite u64_small in E by lia; lia].
  rewrite Em in E. change (u64 _) with 0 in E. lia.
Qed.

(** In service every worker sleeps. *)
Lemma rest_serving n s :
  progress_inv n s -> quiet n s -> serving (abs n s) ->
  (forall i k, (i < n)%nat -> s.(threads) !! i = Some k -> dozing k = false) ->
  forall i, (i < n)%nat -> s.(threads) !! i = Some [Asleep; Check_return; Pop].
Proof.
  intros (Hinv & _) Hq (_ & _ & Hf) Hd i Hi.
  destruct (lookup_lt_is_Some_2 s.(threads) i) as [k Hk]; [pose proof (inv_workers _ _ Hinv); lia|].
  destruct (quiet_worker n s i k Hinv Hq Hi Hk (Hd i k Hi Hk)) as [->| ->]; [done|exfalso].
  unfold abs in Hf. rewrite (quiet_mutex n s Hinv Hq) in Hf. simpl in Hf. rewrite Forall_lookup in Hf.
  by specialize (Hf i returned (workers_lookup n i [] _ Hk Hi)).
Qed.

(** Stopped, every worker has returned, and the destructor has joined them. *)
Lemma rest_stopping n s d k :
  progress_inv n s -> quiet n s -> all_returned (abs n s) = true ->
  (n <= d)%nat -> s.(threads) !! d = Some k -> uses_pool k = false ->
  (forall j kj, (n <= j)%nat -> j <> d -> s.(threads) !! j = Some kj -> kj = [Outside]) ->
  forall i k, s.(threads) !! i = Some k -> k = [] \/ (n <= i)%nat /\ k = [Outside].
Proof.
  intros (Hinv & _) Hq Hall Hnd Hd Hu Hothers.
  assert (Hret : forall i ki, (i < n)%nat -> s.(threads) !! i = Some ki -> ki = []).
  { intros i ki Hi Hki. unfold abs, all_returned in Hall. rewrite (quiet_mutex n s Hinv Hq) in Hall. simpl in Hall.
    rewrite forallb_forall in Hall. specialize (Hall (worker_of ki)).
    rewrite <-list_elem_of_In in Hall. specialize (Hall (list_elem_of_lookup_2 _ i _ (workers_lookup n i ki _ Hki Hi))).
    unfold worker_of in Hall. destruct ki; [done|]. by destruct (task_in _). }
  intros i ki Hi. destruct (decide (i < n)%nat) as [Hin|Hin]; [left; by eapply Hret|].
  destruct (decide (i = d)) as [->|Hne]; [|right; split; [lia|]; by apply (Hothers i); [lia|..]].
  left. rewrite Hd in Hi. injection Hi as <-. pose proof (quiet_at_rest n s d k Hinv Hq Hd) as Hr.
  destruct k as [|c k']; [done|exfalso]. pose proof (inv_code _ _ Hinv _ _ Hd) as Hk.
  remember (c :: k') as k eqn:Heq. code_cases Hk Heq; try done; try lia.
  simpl in Hr. rename select (Forall _ _) into Hjs. inversion_clear Hjs as [|?? Hj _].
  destruct (lookup_lt_is_Some_2 s.(threads) n0) as [kj Hkj]; [pose proof (inv_workers _ _ Hinv); lia|].
  apply Hr. by rewrite Hkj, (Hret n0 kj Hj Hkj).
Qed.

(** ** Properties *)

(** C30. The threads of the pool do what [WorkerPool] says. In every interleaving
    of their statements, only the thread that holds [mu_] is at a statement that
    touches the members, so there is at most one; and the pool, with the section in
    progress counted as done, is the one that the whole critical sections produce,
    in the order in which the mutex was taken. For who reads the two atomic
    counters without the mutex, by two loads with any steps of the threads in
    between: [completed()] read first is at most [submitted()] read afterwards
    (as long as fewer than [2^64] tasks were handed over). In the other order it
    need not be ([completed_after_submitted]). *)
Theorem threads_refine_pool (hardware_concurrency n clients : nat) (l : list thread_event) s :
  n <> 0%nat -> Z.of_nat n < 2 ^ 64 -> thread_run n l (start_threads n clients) = Some s ->
  (forall i, s.(mu_) = Some i <-> exists k, s.(threads) !! i = Some k /\ in_section k = true) /\
  pool_run (trace n l (start_threads n clients)) (new_pool hardware_concurrency n) = Some (abs n s) /\
  (forall l' s', thread_run n l' s = Some s' -> Z.of_nat (length (handed (l ++ l'))) < 2 ^ 64 ->
     0 <= s.(mem).(m_completed) <= s'.(mem).(m_submitted)).
Proof.
  intros Hn Hw Hr. destruct (run_simulates _ _ _ _ (start_inv n clients) Hr) as [Hinv Hp].
  split; [apply Hinv|]. split; [by rewrite <-(start_abs hardware_concurrency n clients)|].
  intros l' s' Hr' Hlen. pose proof (submitted_grows n clients l l' s s' Hn Hw Hr Hr' Hlen).
  destruct (counters_in_order n clients l s Hn Hw Hr) as [Hc _]; [|lia].
  unfold handed in *. rewrite omap_app, length_app in Hlen. lia.
Qed.

(** C31. No wake-up is lost. In every interleaving: as long as a worker sleeps in
    [cv_.wait], each task in the queues has a worker awake and on its way to the
    queues or a [notify_one] still to come; and if the pool is being stopped, the
    [notify_all] is still to come. *)
Theorem no_wake_up_is_lost (n clients : nat) (l : list thread_event) s :
  thread_run n l (start_threads n clients) = Some s -> (0 < count asleep s.(threads))%nat ->
  (queue_length s.(mem) <= count notifying s.(threads) + count heading s.(threads))%nat /\
  (s.(mem).(m_stop) = true -> (0 < count notifying_all s.(threads))%nat).
Proof.
  intros Hr Hpos. destruct (run_progress _ _ _ _ (start_progress n clients) Hr) as (_ & Hw & _).
  split; [by apply Hw|]. intros Hs. by apply Hw.
Qed.

(** C32. The threads come to rest with everything done. Of every run, the steps the
    threads take of themselves are bounded by a sum over the calls and the
    spurious wake-ups (and timeouts) in it. And when no thread can go on, unless
    a task waits in [wait_idle] for its own pool: every task ever passed to
    [submit] has run, once; the mutex is free and the condition on which
    [wait_idle] returns holds; and either the pool is in use and all workers
    sleep, or it was destroyed, all workers have returned, and so has the
    destructor. *)
Theorem threads_come_to_rest (n clients : nat) (l : list thread_event) s :
  n <> 0%nat -> Z.of_nat n < 2 ^ 64 -> thread_run n l (start_threads n clients) = Some s ->
  (own_steps l <= 5 * n + costs n (n + clients) l)%nat /\
  (quiet n s -> (forall i k, (i < n)%nat -> s.(threads) !! i = Some k -> dozing k = false) ->
   handed l ≡ₚ s.(mem).(m_ran) /\ s.(mu_) = None /\
   (s.(mem).(m_inflight) =? 0) && m_all_empty s.(mem) = true /\
   (in_use n s = true /\ (forall i, (i < n)%nat -> s.(threads) !! i = Some [Asleep; Check_return; Pop]) \/
    in_use n s = false /\ (forall i k, s.(threads) !! i = Some k -> k = [] \/ (n <= i)%nat /\ k = [Outside]))).
Proof.
  intros Hn Hw Hr. pose proof (run_progress _ _ _ _ (start_progress n clients) Hr) as Hinv.
  split.
  { pose proof (run_bounded _ _ _ _ (start_progress n clients) Hr) as Hb. rewrite start_energy in Hb.
    assert (length (threads (@start_threads task n clients)) = (n + clients)%nat) as Hl
      by (simpl; by rewrite length_app, !length_replicate). rewrite Hl in Hb. lia. }
  intros Hq Hd. pose proof (quiet_abs n s Hinv Hq Hd) as Hstuck.
  pose proof (run_life n l _ s (start_inv n clients) (start_life n clients Hn) Hr) as Hlife.
  assert (Hboth : forall P : Prop, in_flight (abs n s) = [] -> all_empty (abs n s) = true -> P ->
    handed l ≡ₚ m_ran (mem s) /\ mu_ s = None /\ (m_inflight (mem s) =? 0) && m_all_empty (mem s) = true /\ P).
  { intros P Hf He HP. destruct (rest_done n clients l s Hn Hw Hr Hq Hf He) as [H1 H2].
    by split_and!; [|apply (quiet_mutex n s (proj1 Hinv) Hq)|..]. }
  destruct Hlife as [Hu Hserv|d k Hnd Hk Hu Hothers [[Hb _]|Hstop]].
  - destruct (serving_stuck _ Hserv Hstuck) as [Hf He]. apply Hboth; [done..|].
    left. split; [done|]. by apply rest_serving.
  - pose proof (quiet_at_rest n s d k (proj1 Hinv) Hq Hk) as Hrest. by destruct k as [|[] k].
  - destruct (stopping_stuck _ Hstop Hstuck) as (Ha & Hf & Hqd). apply Hboth; [done|by apply all_empty_queued|].
    right. split; [|by eapply rest_stopping].
    apply not_true_iff_false. intros H. pose proof (proj1 (clients_forallb uses_pool n s) H d k Hnd Hk). congruence.
Qed.
End rest.

(** One worker, one client: the worker goes to sleep before the task is there, and
    is inside its section when the client's is over. *)
Definition one_task : list (@thread_event nat) :=
  [run 0 None; run 0 None; call 1 (call_submit low 7%nat)] ++ replicate 4 (run 1 None)
    ++ [run 1 (Some 0%nat)] ++ replicate 4 (run 0 None).
(** The task runs to its end; then the client submits and the worker runs another. *)
Definition its_end : list (@thread_event nat) := replicate 2 (run 0 None) ++ [ret 0] ++ replicate 6 (run 0 None).
Definition another_task : list (@thread_event nat) :=
  [run 0 None; call 1 (call_submit low 8%nat)] ++ replicate 4 (run 1 None)
    ++ [run 1 (Some 0%nat)] ++ replicate 6 (run 0 None) ++ [ret 0] ++ replicate 3 (run 0 None).

Definition task_taken : @pool_threads nat :=
  mk_threads (mk_members [[]; []; []; []] false 1 0 0 []) (Some 0%nat)
    [[Inc_inflight; Unlock] ++ Fn 7%nat :: finish_code 7%nat; [Outside]].
Definition task_ended : @pool_threads nat :=
  mk_threads (mk_members [[]; []; []; []] false 1 1 0 [7%nat]) (Some 0%nat) [[Wait; Check_return; Pop]; [Outside]].

Example threads_refine_pool_witness :
  thread_run 1 one_task (start_threads 1 1) = Some task_taken /\
  trace 1 one_task (start_threads 1 1) = [ev_submit None low 7%nat; ev_take 0] /\
  pool_run [ev_submit None low 7%nat; ev_take 0] (new_pool 8 1) = Some (abs 1 task_taken) /\
  thread_run 1 its_end task_taken = Some task_ended /\
  task_taken.(mem).(m_completed) <= task_ended.(mem).(m_submitted).
Proof.
  assert (Hr : thread_run 1 one_task (start_threads 1 1) = Some task_taken) by (vm_compute; reflexivity).
  assert (Ht : trace 1 one_task (start_threads 1 1) = [ev_submit None low 7%nat; ev_take 0]) by (vm_compute; reflexivity).
  assert (He : thread_run 1 its_end task_taken = Some task_ended) by (vm_compute; reflexivity).
  destruct (threads_refine_pool 8 1 1 one_task _ ltac:(lia) ltac:(lia) Hr) as (_ & Hp & Hc).
  rewrite Ht in Hp. split_and!; [exact Hr|exact Ht|exact Hp|exact He|]. apply (Hc its_end task_ended He). reflexivity.
Defined.

(** Who loads [submitted()] first can then load a larger [completed()]. *)
Example completed_after_submitted :
  task_ended.(mem).(m_submitted) = 1 /\
  (fun s => s.(mem).(m_completed)) <$> thread_run 1 another_task task_ended = Some 2.
Proof. split; vm_compute; reflexivity. Qed.

(** A worker that sleeps, a task that submits another, then the destructor. *)
Definition example_run : list (@thread_event nat) :=
  let turns i c := replicate c (run i None) in
  (turns 0 2 ++ [call 1 (call_submit low 1)] ++ turns 1 4 ++ [run 1 (Some 0)] ++
   turns 0 6 ++ [call 0 (call_submit high 2)] ++ turns 0 5 ++ [ret 0] ++ turns 0 5 ++
   turns 0 6 ++ [ret 0] ++ turns 0 5 ++ turns 0 2 ++
   [call 1 call_destroy] ++ turns 1 4 ++ turns 0 4 ++ turns 1 1)%nat.

Definition example_rest : @pool_threads nat :=
  mk_threads (mk_members [[]; []; []; []] true 2 2 0 [1%nat; 2%nat]) None [[]; []].

Example threads_come_to_rest_witness :
  thread_run 1 example_run (start_threads 1 1) = Some example_rest /\
  (own_steps example_run <= 5 * 1 + costs 1 (1 + 1) example_run)%nat /\
  handed example_run ≡ₚ [1%nat; 2%nat] /\ in_use 1 example_rest = false.
Proof.
  assert (Hr : thread_run 1 example_run (start_threads 1 1) = Some example_rest) by (vm_compute; reflexivity).
  destruct (threads_come_to_rest 1 1 example_run example_rest ltac:(done) ltac:(lia) Hr) as [Hb Hrest].
  split; [exact Hr|]. split; [exact Hb|]. clear Hr Hb.
  destruct Hrest as (Hran & _).
  - split; [intros [|[|i]] w|intros [|[|i]]]; reflexivity.
  - intros [|i] k Hi Hk; [by simplify_eq/=|lia].
  - split; [exact Hran|reflexivity].
Defined.

(** The task is in its queue, its [notify_one] to come, the worker asleep. *)
Definition example_pushed : @pool_threads nat :=
  mk_threads (mk_members [[]; []; []; [1%nat]] false 1 0 0 []) (Some 1%nat)
    [[Asleep; Check_return; Pop]; [Unlock; Notify_one; Outside]].

Example no_wake_up_is_lost_witness :
  thread_run 1 (take 6 example_run) (start_threads 1 1) = Some example_pushed /\
  (1 <= count notifying example_pushed.(threads) + count heading example_pushed.(threads))%nat.
Proof.
  assert (Hr : thread_run 1 (take 6 example_run) (start_threads 1 1) = Some example_pushed) by (vm_compute; reflexivity).
  split; [exact Hr|]. apply (no_wake_up_is_lost 1 1 _ example_pushed Hr). vm_compute. lia.
Defined.

(** A task that waits for its own pool: the pool is destroyed, nothing can go on,
    the task has not run to its end, and each timeout of its wait leads back to
    the same state. *)
Example wait_idle_in_a_task_hangs :
  let turns i c := replicate c (run i None) in
  let s := mk_threads (mk_members [[]; []; []; []] true 1 0 1 []) None
    [Dozing :: Fn 1%nat :: finish_code 1%nat; [Join 0%nat]] in
  thread_run 1 ([call 1%nat (call_submit low 1%nat)] ++ turns 1%nat 5%nat ++ turns 0%nat 6%nat ++
    [call 0%nat call_wait_idle] ++ turns 0%nat 3%nat ++ [call 1%nat call_destroy] ++ turns 1%nat 4%nat)
    (start_threads 1 1) = Some s /\
  quiet 1 s /\ thread_run 1 ([wake_up 0%nat] ++ turns 0%nat 5%nat) s = Some s.
Proof.
  split; [vm_compute; reflexivity|]. split; [|vm_compute; reflexivity].
  split; [intros [|[|i]] w|intros [|[|i]]]; reflexivity.
Qed.
